(* ===== verification/_CoqProject ===== *)
-Q . S2P
Prelude.v
GoStrings.v
GoFloat.v
RaftTypes.v
Storage.v
RaftLog.v
ReadOnly.v
Raft.v
Node.v
LogSpec.v
RaftSpec.v
Persist.v
Quiet.v
LogSafety.v
Election.v
Replication.v
Batch.v
LogTree.v
Cluster.v
LogInv.v
LogDrive.v
LogInput.v
Safety.v
KvCodec.v
KvStateMachine.v
Server.v
Framing.v
Disk.v
DiskRecovery.v
DiskNames.v
DiskWal.v
ServerSpec.v
ServerReads.v
Replicas.v
Parallaxd.v
Transport.v
Daemon.v
Restart.v
Service.v
Client.v
Ctl.v
Bench.v
Lin.v
EventQueue.v
Trace.v
SimNode.v
SimNet.v
Invariants.v
Sim.v
SimSpec.v
