(* ===== verification/Prelude.v ===== *)
(** * parallax-kv: a verification development

    parallax-kv is a replicated, linearizable key-value store: a Raft core that
    does no I/O, a write-ahead-log storage, a server that drives the core and
    applies committed commands to a key-value state machine, a gRPC transport
    and client, and a deterministic simulator that runs a cluster of such nodes
    under faults and checks its histories.

    ** How the parts interact, and where each is modelled

    - Prelude: 64-bit arithmetic ([w64]), Go's panics as values ([outcome]),
      the state monad the methods are written in ([M]) with its weakest
      precondition ([wp]), slices with their bounds checks, big-endian bytes.
      GoStrings, GoFloat: what the programs use of Go's strings and strconv
      packages and of float64.
    - RaftTypes (src/raft/types.go, config.go, progress.go): messages, entries,
      hard state, snapshots, [Ready], [Config] with [validate].
    - Storage (src/raft/storage.go, src/storage/mem/mem.go): the interface the
      core reads through as the class [LogStorage]; [LogStorageLaws] states by
      a view of the state what an implementation promises; [mem.Storage] is
      one.
    - RaftLog (src/raft/log.go): [unstable] and [raftLog]; the abstract log
      [absLog] they stand for.  ReadOnly (src/raft/readonly.go): the queue of
      linearizable reads.
    - Raft (src/raft/raft.go, step.go, handlers.go, replication.go): [newRaft],
      [tick], [Step] and all they call.  Node (src/raft/node.go): [Ready],
      [Advance] and the rest of the facade.
    - Framing, Disk (src/storage/disk/framing.go, disk.go, wal.go,
      snapshot.go): the write-ahead log, its segments and snapshot files,
      [Open].  DiskNames: the file names and directory listings, of which
      Disk keeps only the numbers.
    - KvCodec, KvStateMachine (src/kv): the command codec, [Apply] with its
      session table, [Snapshot], [Restore].
    - Server (src/server/server.go, drive.go): [NewServer] and the drive loop:
      requests in, [Ready] batches persisted, sent, applied, reads answered.
      Service (src/server/kvservice.go): the four calls.  Daemon
      (src/server/server.go, src/cmd/parallaxd): a node's life from its flags
      over [server_New] and [Run] to [shutdown].
    - Transport (src/transport/grpc): the wire conversion and the per-peer
      queues.  Client (src/client/client.go): the leader-chasing client.
    - Parallaxd, Ctl, Bench (src/cmd, src/scripts): the daemon's flags and peer
      map, the command line client, the benchmark and the fsync probe.
    - EventQueue, Trace, SimNode, SimNet, Invariants, Sim (src/sim): the
      simulator, from the event heap to the fault scenarios, as one executable
      state machine ([StepSim]); Lin (src/sim/lin/lin.go): the history recorder
      and the linearizability model.

    The core, the server and the simulator are written over any storage; the
    in-memory, the on-disk and the simulator's tracked storage are the
    instances.  The state of a component is a record named as the Go struct;
    a method is a definition of the same name, prefixed where two structs have
    a method of one name ([disk_AppendEntries], [Node_Ready]).

    ** What the theorems show

    - The log (LogSpec, Persist, LogSafety): an append that matches is spliced
      in and one that does not is refused with a usable hint; the committed
      prefix never changes, whatever message arrives; a leader only appends;
      persisting a batch changes the durable log and not the log the core sees.
    - Elections (Quiet, Election, Cluster): over every execution of a cluster
      whose nodes crash between any two writes of their driver, or in the middle
      of a batch of entries, and whose network loses, repeats and reorders, a
      ballot that was sent is on disk,
      a node votes once per term, and a term has at most one leader.
    - Replication (Replication, Batch, LogTree, LogInv, LogDrive, LogInput,
      Safety): over the same executions of at least two voters, compaction
      included, on storages that keep their contract, nodes never apply different entries at an index, logs match, and a leader has every
      applied entry.  The proof keeps beside the cluster, as ghost state, the
      log each term's leader built and the acknowledgements that were sent;
      LogDrive shows that the invariant survives the driver's steps, crashes
      and restarts, LogInput that it survives every input.
    - The core alone (RaftSpec): the commit rule needs a quorum and the
      leader's own term; a node that hears nothing campaigns in bounded time.
    - The disk (Framing, DiskRecovery, DiskWal): frames are read back whole or
      reported torn; what was synced survives later writes and a crash; what
      [Open] recovers is a prefix of what was written, for a crash at any byte,
      and at both points of an install that contradicts the log.  This is for
      records below the 64 MiB bound on a frame, and up to entries that a
      snapshot emptied in memory only ([owed]).  The storage behaves as the
      in-memory one; listing the files by name is listing them by number
      (DiskNames).
    - The state machine (KvCodec, KvStateMachine): the codec round trips and
      accepts nothing else; commands take effect exactly once under retries and
      duplicates; a snapshot restores the machine it was taken of.
    - The server (ServerSpec, ServerReads, Service): [drain] ends with the batch
      durable, sent and applied, in one batch; every event keeps the server's
      invariant; a request is answered at most once; a confirmed read is
      answered once its index is applied, from a state at or above it; the calls
      of a leader that commits have the semantics of the store.  Restart
      composes the server with [Open] and the crashes of the disk: a restart
      recovers log, term and vote.  Replicas composes it with the safety of the
      log: a server's state is its snapshot and the replay of its committed log
      above, and two servers' states are points of one history.
    - Transport, Client: a link delivers some of what was sent, nothing twice,
      and in order as long as no call fails; an operation retried across nodes takes effect once; session ids
      of different processes do not collide.
    - The programs (Parallaxd, Daemon, Ctl, Bench): a peer map that is printed
      is parsed back; flags the daemon accepts are refused later only
      when an interval overflows, and [Run] leaves nothing open; a put and a get from the command line see each
      other; the probe's ranks, computed in floating point, stay in range and
      its table is ordered; the benchmark counts what it measured.
    - The simulator (EventQueue, Trace, SimNet, Invariants, SimSpec, Lin):
      events run in the order of time, time never runs backwards, a client has
      one operation in flight, a partition isolates its groups, the checks
      report exactly the violations they are for (but for the one stated in
      [log_matching_check_incomplete]), and the verdict on the history of any
      simulated run is the linearizability of the store.

    Some theorems state where the code departs from its documentation:
    [prevote_refusal_raises_term], [stale_suffix_returns],
    [oversized_record_lost], [stale_put_acknowledged],
    [log_matching_check_incomplete], [keyspace_zero], [huge_heartbeat_refused].

    ** Bounds and fuel

    Arithmetic on indices and terms wraps at 2^64 where the code's does;
    theorems that exclude the wrap say so in a hypothesis.  Loops that are not
    structural take fuel: the scans for a conflicting term take the index they
    start from, which falls in every round; WAL replay takes the length of the
    segment, of which every frame consumes a part; the heap's sifts take the
    length of the heap.  [drain] of the server takes the number of batches, and
    [drain_settles] shows that one is enough; the simulator's takes three,
    and its theorems are about runs that do not panic; running past the bound is an
    answer of its own ([None], or the panic [OutOfFuel] in the simulator) and
    never a normal result.

    ** Not modelled

    Goroutines, contexts, timeouts and the gRPC runtime: the drive loop and the
    transport are modelled as the sequence of events their channels deliver,
    and whether a listener opens is an argument.  Failing operating system
    calls of the storage, and the fsync of a directory.  Generated protocol
    buffer code, but for the message structs.  math/rand, whose draws are a
    tape; Porcupine's search, whose documented verdict is a hypothesis; SHA-256
    of a trace.  In the programs, the flag package's parsing of the global
    flags (the parsed values are arguments), the texts printed, and the clock,
    whose readings are arguments.  The simulator's accessors and the
    descriptions it prints of operations. *)

From stdpp Require Export prelude gmap sorting.
From Stdlib Require Export ZArith Lia Strings.Byte.

#[global] Open Scope Z_scope.

(** ** Machine integers

    Go's [uint64] is a [Z] in [0, 2^64); every addition or subtraction the
    source performs on one is followed by the wrap-around [w64]. *)

Declare Scope u64_scope.
Delimit Scope u64_scope with u64.

Abbreviation u64_mod := 18446744073709551616.
Abbreviation u32_mod := 4294967296.

Definition w64 (x : Z) : Z := x mod u64_mod.
Definition w32 (x : Z) : Z := x mod u32_mod.
(** A Go [int]: two's complement on 64 bits. *)
Definition s64 (x : Z) : Z := (x + u64_mod / 2) mod u64_mod - u64_mod / 2.

Notation "a +w b" := (w64 (a + b)) (at level 50, left associativity) : u64_scope.
Notation "a -w b" := (w64 (a - b)) (at level 50, left associativity) : u64_scope.

#[global] Open Scope u64_scope.

Definition is_u64 (x : Z) : Prop := 0 ≤ x < u64_mod.
Definition is_u32 (x : Z) : Prop := 0 ≤ x < u32_mod.

(** [len(l)] as a Go [int]. *)
Definition zlen {A} (l : list A) : Z := Z.of_nat (length l).
Arguments zlen : simpl never.
Arguments w64 : simpl never.
Arguments w32 : simpl never.
Arguments s64 : simpl never.

(** ** Panics, errors, results *)

(** The places at which the source panics, explicitly or through the runtime. *)
Inductive panic : Type :=
| PanicTransition      (* raft: invalid role transition *)
| PanicCommitRange     (* raft: commit out of range *)
| PanicConflict        (* raft: conflict at committed index *)
| PanicApplied         (* raft: applied out of range *)
| PanicStorage         (* an unexpected storage error *)
| PanicNil             (* nil pointer dereference *)
| PanicIndex           (* slice index or slice bounds out of range *)
| PanicRand            (* rand.Intn with a non-positive bound *)
| PanicInvalidOp       (* kv: invalid op in committed command *)
| PanicDivide          (* integer divide by zero *)
| OutOfFuel.           (* no panic: a loop of the model passed its bound *)

Inductive outcome (A : Type) : Type :=
| Ret (a : A)
| Panic (why : panic).
Arguments Ret {A} a.
Arguments Panic {A} why.

#[export] Instance outcome_ret : MRet outcome := @Ret.
#[export] Instance outcome_bind : MBind outcome := λ A B k c,
  match c with Ret a => k a | Panic w => Panic w end.
#[export] Instance outcome_fmap : FMap outcome := λ A B f c,
  match c with Ret a => Ret (f a) | Panic w => Panic w end.

(** The [(T, error)] pair of a fallible Go function. *)
Inductive result (E A : Type) : Type :=
| Ok (a : A)
| Err (e : E).
Arguments Ok {E A} a.
Arguments Err {E A} e.

#[export] Instance result_ret E : MRet (result E) := @Ok E.
#[export] Instance result_bind E : MBind (result E) := λ A B k c,
  match c with Ok a => k a | Err e => Err e end.

(** State passing with panics: a method with a pointer receiver. *)
Definition M (S A : Type) : Type := S → outcome (A * S).

#[export] Instance M_ret S : MRet (M S) := λ A a s, Ret (a, s).
#[export] Instance M_bind S : MBind (M S) := λ A B k c s,
  match c s with Ret (a, s') => k a s' | Panic w => Panic w end.

Definition get {S} : M S S := λ s, Ret (s, s).
Definition gets {S A} (f : S → A) : M S A := λ s, Ret (f s, s).
Definition modify {S} (f : S → S) : M S () := λ s, Ret ((), f s).
Definition fails {S A} (w : panic) : M S A := λ _, Panic w.
(** A reader that may panic. *)
Definition reads {S A} (f : S → outcome A) : M S A := λ s,
  match f s with Ret a => Ret (a, s) | Panic w => Panic w end.
(** Runs a method of a component held in a field. *)
Definition zoom {S T A} (prj : S → T) (put : T → S → S) (c : M T A) : M S A := λ s,
  match c (prj s) with Ret (a, t) => Ret (a, put t s) | Panic w => Panic w end.
(** [for _, x := range l { f(x) }] *)
Fixpoint forM {S A} (l : list A) (f : A → M S ()) : M S () :=
  match l with
  | [] => mret ()
  | x :: l => f x;; forM l f
  end.
(** [if b { c }] *)
Definition when {S} (b : bool) (c : M S ()) : M S () := if b then c else mret ().

(** Slice indexing [l[i]] and slicing [l[lo:hi]] with Go's bounds checks. *)
Definition index {A} (l : list A) (i : Z) : outcome A :=
  if (i <? 0) then Panic PanicIndex else
  match l !! Z.to_nat i with Some x => Ret x | None => Panic PanicIndex end.
Definition slice_of {A} (l : list A) (lo hi : Z) : outcome (list A) :=
  if (lo <? 0) || (hi <? lo) || (zlen l <? hi) then Panic PanicIndex
  else Ret (take (Z.to_nat (hi - lo)) (drop (Z.to_nat lo) l)).
Definition slice_from {A} (l : list A) (lo : Z) : outcome (list A) := slice_of l lo (zlen l).
Definition slice_to {A} (l : list A) (hi : Z) : outcome (list A) := slice_of l 0 hi.

(** ** Bytes and big-endian integers ([encoding/binary]) *)

Definition b2z (b : byte) : Z := Z.of_N (Byte.to_N b).
Definition z2b (z : Z) : byte := default x00 (Byte.of_N (Z.to_N (z mod 256))).

Fixpoint be_enc (n : nat) (z : Z) : list byte :=
  match n with
  | O => []
  | S n => z2b (z / 256 ^ Z.of_nat n) :: be_enc n z
  end.
Definition be_dec (l : list byte) : Z := fold_left (λ acc b, acc * 256 + b2z b) l 0.

(** ** Weakest preconditions for [M]

    [wp pf c Q s]: running [c] from [s] ends in [Q], and a panic is allowed
    only if [pf]: [wp True] is partial and [wp False] total correctness. *)
Definition wp {S A} (pf : Prop) (c : M S A) (Q : A → S → Prop) (s : S) : Prop :=
  match c s with Ret (a, s') => Q a s' | Panic _ => pf end.

(** ** Lemmas: machine integers *)

Lemma w64_id x : 0 ≤ x < u64_mod → w64 x = x.
Proof. apply Z.mod_small. Qed.
Lemma s64_id x : - (u64_mod / 2) ≤ x < u64_mod / 2 → s64 x = x.
Proof. intros Hx. unfold s64. change (u64_mod / 2) with 9223372036854775808 in *. rewrite Z.mod_small by lia. lia. Qed.
Lemma w64_range x : 0 ≤ w64 x < u64_mod.
Proof. apply Z.mod_pos_bound. lia. Qed.
Lemma w64_w64 x : w64 (w64 x) = w64 x.
Proof. apply w64_id, w64_range. Qed.
Lemma w32_id x : 0 ≤ x < u32_mod → w32 x = x.
Proof. apply Z.mod_small. Qed.
Lemma w32_range x : 0 ≤ w32 x < u32_mod.
Proof. apply Z.mod_pos_bound. lia. Qed.

(** Facts on logs, storages and nodes that [eauto] may use. *)
Create HintDb raft.

Create Rewrite HintDb u64.
#[export] Hint Rewrite w64_id w32_id using lia : u64.

(** Removes every wrap-around that [lia] shows to be void. *)
Ltac u64_simpl := autorewrite with u64 in *.

(** Case analysis on the boolean comparisons of the source. *)
Ltac bdestr :=
  repeat match goal with
  | |- context [?a <? ?b] => destruct (Z.ltb_spec a b)
  | |- context [?a <=? ?b] => destruct (Z.leb_spec a b)
  | |- context [?a =? ?b] => destruct (Z.eqb_spec a b)
  | H : context [?a <? ?b] |- _ => destruct (Z.ltb_spec a b)
  | H : context [?a <=? ?b] |- _ => destruct (Z.leb_spec a b)
  | H : context [?a =? ?b] |- _ => destruct (Z.eqb_spec a b)
  end; simpl in *.

(** ** Lemmas: lists with [Z] indices *)

Lemma zlen_nonneg {A} (l : list A) : 0 ≤ zlen l.
Proof. unfold zlen. lia. Qed.
Lemma zlen_nil {A} : zlen (@nil A) = 0.
Proof. done. Qed.
Lemma zlen_cons {A} (x : A) l : zlen (x :: l) = 1 + zlen l.
Proof. unfold zlen. simpl. lia. Qed.
Lemma zlen_app {A} (l k : list A) : zlen (l ++ k) = zlen l + zlen k.
Proof. unfold zlen. rewrite length_app. lia. Qed.
Lemma zlen_take {A} (l : list A) n : 0 ≤ n ≤ zlen l → zlen (take (Z.to_nat n) l) = n.
Proof. unfold zlen. rewrite length_take. lia. Qed.
Lemma zlen_drop {A} (l : list A) n : 0 ≤ n ≤ zlen l → zlen (drop (Z.to_nat n) l) = zlen l - n.
Proof. unfold zlen. rewrite length_drop. lia. Qed.
Lemma zlen_zero {A} (l : list A) : zlen l = 0 ↔ l = [].
Proof. unfold zlen. destruct l; simpl; split; intros; try done; lia. Qed.

Create Rewrite HintDb zlen.
#[export] Hint Rewrite @zlen_nil @zlen_cons @zlen_app : zlen.
#[export] Hint Rewrite @zlen_take @zlen_drop using lia : zlen.

Lemma index_lookup {A} (l : list A) i x :
  0 ≤ i → l !! Z.to_nat i = Some x → index l i = Ret x.
Proof. intros Hi Hx. unfold index. destruct (Z.ltb_spec i 0); [lia|]. by rewrite Hx. Qed.
Lemma index_inv {A} (l : list A) i x :
  index l i = Ret x → 0 ≤ i < zlen l ∧ l !! Z.to_nat i = Some x.
Proof.
  unfold index, zlen. destruct (Z.ltb_spec i 0); [done|].
  destruct (l !! Z.to_nat i) as [y|] eqn:E; [|done]. intros [= ->].
  pose proof (lookup_lt_Some _ _ _ E). split; [lia|done].
Qed.
Lemma index_total {A} (l : list A) i :
  0 ≤ i < zlen l → ∃ x, l !! Z.to_nat i = Some x ∧ index l i = Ret x.
Proof.
  intros Hi. destruct (lookup_lt_is_Some_2 l (Z.to_nat i)) as [x Hx].
  { unfold zlen in Hi. lia. }
  exists x. split; [done|]. apply index_lookup; [lia|done].
Qed.
Lemma slice_of_ok {A} (l : list A) lo hi :
  0 ≤ lo ≤ hi → hi ≤ zlen l →
  slice_of l lo hi = Ret (take (Z.to_nat (hi - lo)) (drop (Z.to_nat lo) l)).
Proof.
  intros. unfold slice_of.
  destruct (Z.ltb_spec lo 0), (Z.ltb_spec hi lo), (Z.ltb_spec (zlen l) hi); try lia; done.
Qed.
Lemma slice_from_ok {A} (l : list A) lo :
  0 ≤ lo ≤ zlen l → slice_from l lo = Ret (drop (Z.to_nat lo) l).
Proof.
  intros. unfold slice_from. rewrite slice_of_ok by lia. f_equal.
  apply take_ge. rewrite length_drop. unfold zlen. lia.
Qed.
Lemma slice_to_ok {A} (l : list A) hi :
  0 ≤ hi ≤ zlen l → slice_to l hi = Ret (take (Z.to_nat hi) l).
Proof.
  intros. unfold slice_to. rewrite slice_of_ok by lia. by rewrite Z.sub_0_r.
Qed.

(** ** Lemmas: the monads *)

Lemma outcome_bind_Ret {A B} (c : outcome A) (k : A → outcome B) b :
  (c ≫= k) = Ret b ↔ ∃ a, c = Ret a ∧ k a = Ret b.
Proof.
  destruct c; unfold mbind; simpl; split; [eauto|by intros (? & [= ->] & ?)|done|by intros (? & ? & ?)].
Qed.
Lemma result_bind_Ok {E A B} (c : result E A) (k : A → result E B) b :
  (c ≫= k) = Ok b ↔ ∃ a, c = Ok a ∧ k a = Ok b.
Proof.
  destruct c; unfold mbind; simpl; split; [eauto|by intros (? & [= ->] & ?)|done|by intros (? & ? & ?)].
Qed.

Section wp_rules.
Context {S : Type} (pf : Prop).

Lemma wp_ret {A} (a : A) (Q : A → S → Prop) s : Q a s → wp pf (mret a) Q s.
Proof. done. Qed.
Lemma wp_bind {A B} (c : M S A) (k : A → M S B) Q s :
  wp pf c (λ a s', wp pf (k a) Q s') s → wp pf (c ≫= k) Q s.
Proof. unfold wp, mbind, M_bind. destruct (c s) as [[a s']|]; done. Qed.
Lemma wp_mono {A} (c : M S A) (Q Q' : A → S → Prop) s :
  wp pf c Q s → (∀ a s', Q a s' → Q' a s') → wp pf c Q' s.
Proof. unfold wp. destruct (c s) as [[a s']|]; eauto. Qed.
Lemma wp_and {A} (c : M S A) (P Q : A → S → Prop) s :
  wp pf c P s → wp pf c Q s → wp pf c (λ a s', P a s' ∧ Q a s') s.
Proof. unfold wp. destruct (c s) as [[a s']|]; done. Qed.
Lemma wp_get (Q : S → S → Prop) s : Q s s → wp pf get Q s.
Proof. done. Qed.
Lemma wp_gets {A} (f : S → A) (Q : A → S → Prop) s : Q (f s) s → wp pf (gets f) Q s.
Proof. done. Qed.
Lemma wp_modify (f : S → S) (Q : () → S → Prop) s : Q () (f s) → wp pf (modify f) Q s.
Proof. done. Qed.
Lemma wp_reads {A} (f : S → outcome A) (Q : A → S → Prop) s :
  match f s with Ret a => Q a s | Panic _ => pf end → wp pf (reads f) Q s.
Proof. unfold wp, reads. destruct (f s); done. Qed.
Lemma wp_reads_ret {A} (f : S → outcome A) (Q : A → S → Prop) s a :
  f s = Ret a → Q a s → wp pf (reads f) Q s.
Proof. unfold wp, reads. by intros ->. Qed.
Lemma wp_zoom {T A} (prj : S → T) (put : T → S → S) (c : M T A) (Q : A → S → Prop) s :
  wp pf c (λ a t, Q a (put t s)) (prj s) → wp pf (zoom prj put c) Q s.
Proof. unfold wp, zoom. destruct (c (prj s)) as [[a t]|]; done. Qed.
Lemma wp_when b (c : M S ()) (Q : () → S → Prop) s :
  (b = true → wp pf c Q s) → (b = false → Q () s) → wp pf (when b c) Q s.
Proof. destruct b; simpl; intros; auto. by apply wp_ret; auto. Qed.
(** A loop keeps an invariant its body keeps. *)
Lemma wp_forM {A} (l : list A) (f : A → M S ()) (I : S → Prop) (Q : () → S → Prop) s :
  I s → (∀ x s', x ∈ l → I s' → wp pf (f x) (λ _, I) s') → (∀ s', I s' → Q () s') →
  wp pf (forM l f) Q s.
Proof.
  intros HI Hf HQ. revert s HI. induction l as [|x l IH]; intros s HI; simpl.
  { by apply wp_ret, HQ. }
  apply wp_bind. eapply wp_mono; [apply Hf; [by left|done]|].
  intros [] s' HI'. apply IH; [|done]. intros y s'' Hy. apply Hf. by right.
Qed.
End wp_rules.

Lemma wp_run {S A} (c : M S A) Q (s s' : S) a : wp True c Q s → c s = Ret (a, s') → Q a s'.
Proof. unfold wp. intros H E. by rewrite E in H. Qed.
Lemma wp_total {S A} (c : M S A) Q (s : S) :
  wp False c Q s ↔ ∃ a s', c s = Ret (a, s') ∧ Q a s'.
Proof.
  unfold wp. destruct (c s) as [[a s']|]; split; [eauto|by intros (? & ? & [= -> ->] & ?)|done|by intros (? & ? & ? & ?)].
Qed.
Lemma wp_and_partial {S A} (c : M S A) (P Q : A → S → Prop) s :
  wp False c P s → wp True c Q s → wp False c (λ a s', P a s' ∧ Q a s') s.
Proof. unfold wp. destruct (c s) as [[a s']|]; [by split|done]. Qed.
Lemma wp_partial {S A} pf (c : M S A) Q (s : S) : wp False c Q s → wp pf c Q s.
Proof. unfold wp. by destruct (c s) as [[a s']|]. Qed.

(** ** Lemmas: bytes *)

#[export] Instance byte_eq_dec : EqDecision byte := Byte.byte_eq_dec.
#[export] Instance byte_countable : Countable byte :=
  inj_countable Byte.to_N Byte.of_N Byte.of_to_N.

Lemma b2z_range b : 0 ≤ b2z b < 256.
Proof. unfold b2z. pose proof (Byte.to_N_bounded b). lia. Qed.
Lemma z2b_b2z b : z2b (b2z b) = b.
Proof.
  unfold z2b. rewrite Z.mod_small by apply b2z_range.
  unfold b2z. by rewrite N2Z.id, Byte.of_to_N.
Qed.
Lemma b2z_z2b z : b2z (z2b z) = z mod 256.
Proof.
  unfold z2b, b2z. pose proof (Z.mod_pos_bound z 256 ltac:(lia)) as Hb.
  destruct (Byte.of_N (Z.to_N (z mod 256))) as [b|] eqn:E; simpl.
  - apply Byte.to_of_N in E. rewrite E. lia.
  - apply Byte.of_N_None_iff in E. lia.
Qed.
Lemma b2z_inj a b : b2z a = b2z b → a = b.
Proof. intros H. rewrite <-(z2b_b2z a), <-(z2b_b2z b). by rewrite H. Qed.

Lemma length_be_enc n z : length (be_enc n z) = n.
Proof. induction n; simpl; auto. Qed.
Lemma zlen_be_enc n z : zlen (be_enc n z) = Z.of_nat n.
Proof. unfold zlen. by rewrite length_be_enc. Qed.
#[export] Hint Rewrite zlen_be_enc : zlen.

Lemma be_dec_app l k : be_dec (l ++ k) = be_dec l * 256 ^ zlen k + be_dec k.
Proof.
  unfold be_dec. rewrite fold_left_app. generalize (fold_left (λ acc b, acc * 256 + b2z b) l 0).
  induction k as [|b k IH] using rev_ind; intros a; simpl; [unfold zlen; simpl; lia|].
  rewrite !fold_left_app, zlen_app. simpl. rewrite (IH a). change (zlen [b]) with 1.
  rewrite Z.pow_add_r; [lia|apply zlen_nonneg|lia].
Qed.
Lemma be_dec_cons b l : be_dec (b :: l) = b2z b * 256 ^ zlen l + be_dec l.
Proof. change (b :: l) with ([b] ++ l). rewrite be_dec_app. by unfold be_dec. Qed.
Lemma be_dec_range l : 0 ≤ be_dec l < 256 ^ zlen l.
Proof.
  induction l as [|b l IH]; [done|]. rewrite be_dec_cons, zlen_cons.
  rewrite Z.pow_add_r; [|lia|apply zlen_nonneg].
  pose proof (b2z_range b). nia.
Qed.
Lemma be_dec_enc n z : be_dec (be_enc n z) = z mod 256 ^ Z.of_nat n.
Proof.
  induction n as [|n IH]; [by rewrite Z.mod_1_r|].
  cbn [be_enc]. rewrite be_dec_cons, zlen_be_enc, b2z_z2b, IH.
  replace (256 ^ Z.of_nat (S n)) with (256 ^ Z.of_nat n * 256).
  2: { rewrite Nat2Z.inj_succ, Z.pow_succ_r; lia. }
  rewrite Z.rem_mul_r by lia. lia.
Qed.
Lemma be_enc_dec l n : length l = n → be_enc n (be_dec l) = l.
Proof.
  revert n. induction l as [|b l IH]; intros n <-; [done|]. cbn [be_enc length].
  pose proof (be_dec_range l) as Hr. unfold zlen in Hr.
  assert (Henc : ∀ m z k, be_enc m (z * 256 ^ Z.of_nat m + k) = be_enc m k).
  { clear. intros m z k. assert (Hg : ∀ j, (j ≤ m)%nat → be_enc j (z * 256 ^ Z.of_nat m + k) = be_enc j k).
    { induction j as [|j IHj]; intros Hj; [done|]. cbn [be_enc]. rewrite IHj by lia. f_equal.
      unfold z2b. do 3 f_equal.
      replace (256 ^ Z.of_nat m) with (256 ^ (Z.of_nat m - Z.of_nat j - 1) * 256 * 256 ^ Z.of_nat j).
      2: { rewrite <-Z.mul_assoc, <-Z.pow_succ_r, <-Z.pow_add_r by lia. f_equal. lia. }
      rewrite !Z.mul_assoc, Z.div_add_l by lia.
      rewrite Z.add_comm. apply Z.mod_add. lia. }
    by apply Hg. }
  rewrite be_dec_cons. unfold zlen. rewrite Henc, IH by done. f_equal.
  rewrite Z.div_add_l by lia. rewrite Z.div_small by lia.
  by rewrite Z.add_0_r, z2b_b2z.
Qed.
Lemma be_enc8_dec z : is_u64 z → be_dec (be_enc 8 z) = z.
Proof. intros H. rewrite be_dec_enc. apply Z.mod_small. exact H. Qed.
Lemma be_enc4_dec z : is_u32 z → be_dec (be_enc 4 z) = z.
Proof. intros H. rewrite be_dec_enc. apply Z.mod_small. exact H. Qed.
#[global] Arguments be_enc : simpl never.
#[global] Arguments be_dec : simpl never.
