(* ===== verification/GoStrings.v ===== *)
(** * Go's strings and strconv

    The functions of the packages strings and strconv that the programs call,
    on strings as byte lists: [Split] and [IndexByte] at a one-byte separator,
    [TrimSpace] with Unicode's white space in its UTF-8 encodings,
    [ParseUint(s, 10, 64)] and the decimal printing, with their round trip. *)

From Stdlib Require String.
From S2P Require Import Prelude.
Import (notations) String.

(** ** Constants and printing *)

(** A string constant of the source, as bytes. *)
Notation "$ s" := (String.list_byte_of_string s%string) (at level 1, s at level 0, only parsing).

(** [strconv.AppendUint(nil, v, 10)]; a [uint64] has at most 20 digits. *)
Fixpoint digits (fuel : nat) (v : Z) (acc : list byte) : list byte :=
  match fuel with
  | O => acc
  | S fuel =>
      let acc := z2b (48 + v mod 10) :: acc in
      if v <? 10 then acc else digits fuel (v / 10) acc
  end.
Definition FormatUint (v : Z) : list byte := digits 20 v [].
(** [strconv.AppendInt(nil, v, 10)] of an [int64]. *)
Definition FormatInt (v : Z) : list byte :=
  if v <? 0 then $"-" ++ FormatUint (- v) else FormatUint v.

(** The elements of [l] with [sep] between them. *)
Fixpoint joined (sep : list byte) (l : list (list byte)) : list byte :=
  match l with
  | [] => []
  | [x] => x
  | x :: l => x ++ sep ++ joined sep l
  end.

(** ** Taking strings apart *)

(** [strings.Split(s, sep)] for a separator of one byte. *)
Fixpoint Split (sep : byte) (s : list byte) : list (list byte) :=
  match s with
  | [] => [[]]
  | b :: s =>
      if decide (b = sep) then [] :: Split sep s
      else match Split sep s with
           | [] => [[b]]
           | p :: ps => (b :: p) :: ps
           end
  end.
(** [strings.IndexByte]. *)
Fixpoint IndexByte (s : list byte) (c : byte) : Z :=
  match s with
  | [] => -1
  | b :: s => if decide (b = c) then 0 else let i := IndexByte s c in if i <? 0 then -1 else i + 1
  end.

(** The UTF-8 encodings of the code points with the White_Space property. *)
Definition spaces : list (list byte) :=
  [[x09]; [x0a]; [x0b]; [x0c]; [x0d]; [x20]; [xc2; x85]; [xc2; xa0]; [xe1; x9a; x80];
   [xe2; x80; x80]; [xe2; x80; x81]; [xe2; x80; x82]; [xe2; x80; x83]; [xe2; x80; x84]; [xe2; x80; x85];
   [xe2; x80; x86]; [xe2; x80; x87]; [xe2; x80; x88]; [xe2; x80; x89]; [xe2; x80; x8a];
   [xe2; x80; xa8]; [xe2; x80; xa9]; [xe2; x80; xaf]; [xe2; x81; x9f]; [xe3; x80; x80]].
Fixpoint TrimPrefix (p s : list byte) : option (list byte) :=
  match p, s with
  | [], _ => Some s
  | a :: p, b :: s => if decide (a = b) then TrimPrefix p s else None
  | _ :: _, [] => None
  end.
(** Take prefixes in [pats] off as long as there is one. *)
Fixpoint trimWith (pats : list (list byte)) (fuel : nat) (s : list byte) : list byte :=
  match fuel with
  | O => s
  | S fuel =>
      match list_find (λ p, is_Some (TrimPrefix p s)) pats with
      | Some (_, p) => trimWith pats fuel (default s (TrimPrefix p s))
      | None => s
      end
  end.
Definition TrimLeft (s : list byte) : list byte := trimWith spaces (length s) s.
Definition TrimRight (s : list byte) : list byte := reverse (trimWith (reverse <$> spaces) (length s) (reverse s)).
Definition TrimSpace (s : list byte) : list byte := TrimRight (TrimLeft s).

(** ** Numbers *)

Inductive num_error : Type :=
| ErrSyntax
| ErrRange.

Definition digitOf (c : byte) : option Z :=
  let d := b2z c - 48 in if (0 <=? d) && (d <? 10) then Some d else None.
Fixpoint parseDigits (s : list byte) (n : Z) : result num_error Z :=
  match s with
  | [] => Ok n
  | c :: s =>
      match digitOf c with
      | None => Err ErrSyntax
      | Some d =>
          if (u64_mod - 1) / 10 + 1 <=? n then Err ErrRange else
          let n10 := w64 (n * 10) in
          let n1 := n10 +w d in
          if n1 <? n10 then Err ErrRange else parseDigits s n1
      end
  end.
Definition ParseUint (s : list byte) : result num_error Z :=
  if decide (s = []) then Err ErrSyntax else parseDigits s 0.

(** ** Lemmas *)

Definition is_digit (c : byte) : Prop := 48 ≤ b2z c < 58.
Definition value (n : Z) (ds : list byte) : Z := foldl (λ n c, n * 10 + (b2z c - 48)) n ds.

Lemma value_ge n ds : Forall is_digit ds → 0 ≤ n → n ≤ value n ds.
Proof.
  unfold value. revert n. induction ds as [|c ds IH]; intros n Hd Hn; simpl; [lia|]. apply Forall_cons in Hd as [Hc Hd].
  unfold is_digit in Hc. etrans; [|apply IH; [done|lia]]. lia.
Qed.
Lemma parseDigits_digits ds n : Forall is_digit ds → 0 ≤ n → value n ds < u64_mod → parseDigits ds n = Ok (value n ds).
Proof.
  revert n. induction ds as [|c ds IH]; intros n Hd Hn Hv; [done|]. apply Forall_cons in Hd as [Hc Hd]. unfold is_digit in Hc.
  simpl in *. unfold digitOf. rewrite (proj2 (Z.leb_le _ _)), (proj2 (Z.ltb_lt _ _)) by lia. simpl.
  pose proof (value_ge (n * 10 + (b2z c - 48)) ds Hd ltac:(lia)) as Hge. unfold value in *. simpl in *.
  change ((u64_mod - 1) / 10 + 1) with 1844674407370955162. destruct (Z.leb_spec 1844674407370955162 n); [lia|].
  rewrite (w64_id (n * 10)), w64_id by lia. destruct (Z.ltb_spec (n * 10 + (b2z c - 48)) (n * 10)); [lia|]. apply IH; [done|lia|done].
Qed.
Lemma digits_value fuel v acc :
  0 ≤ v < 10 ^ Z.of_nat fuel → (0 < fuel)%nat → ∃ ds, digits fuel v acc = ds ++ acc ∧ ds ≠ [] ∧ Forall is_digit ds ∧ value 0 ds = v.
Proof.
  revert v acc. induction fuel as [|fuel IH]; intros v acc Hv Hf; [lia|]. simpl.
  pose proof (Z.mod_pos_bound v 10 ltac:(lia)) as Hm. assert (Hb : b2z (z2b (48 + v mod 10)) = 48 + v mod 10) by (rewrite b2z_z2b, Z.mod_small; lia).
  assert (Hc : is_digit (z2b (48 + v mod 10))) by (unfold is_digit; lia).
  destruct (Z.ltb_spec v 10) as [Hlt|Hge].
  - exists [z2b (48 + v mod 10)]. split_and!; [done|done|by constructor|]. unfold value. simpl. rewrite Hb, Z.mod_small by lia. lia.
  - destruct (IH (v / 10) (z2b (48 + v mod 10) :: acc)) as (ds & E & Hn & Hd & Hval).
    + rewrite Nat2Z.inj_succ, Z.pow_succ_r in Hv by lia. split; [apply Z.div_pos; lia|apply Z.div_lt_upper_bound; lia].
    + destruct fuel; [|lia]. simpl in Hv. lia.
    + exists (ds ++ [z2b (48 + v mod 10)]). rewrite E, <-app_assoc. split_and!; [done|by destruct ds| |].
      * apply Forall_app. split; [done|by constructor].
      * unfold value in *. rewrite foldl_app, Hval. simpl. rewrite Hb. pose proof (Z.div_mod v 10 ltac:(lia)). lia.
Qed.
Lemma FormatUint_digits v : is_u64 v → FormatUint v ≠ [] ∧ Forall is_digit (FormatUint v) ∧ value 0 (FormatUint v) = v.
Proof.
  intros Hv. destruct (digits_value 20 v []) as (ds & E & ?); [unfold is_u64 in Hv; change (10 ^ Z.of_nat 20) with 100000000000000000000; lia|lia|].
  unfold FormatUint. by rewrite E, app_nil_r.
Qed.
Lemma ParseUint_FormatUint v : is_u64 v → ParseUint (FormatUint v) = Ok v.
Proof.
  intros Hv. destruct (FormatUint_digits v Hv) as (Hn & Hd & Hval). unfold ParseUint. rewrite decide_False by done.
  rewrite parseDigits_digits, Hval; [done|done|lia|]. rewrite Hval. apply Hv.
Qed.
Lemma parseDigits_u64 s n v : 0 ≤ n → parseDigits s n = Ok v → n < u64_mod → is_u64 v.
Proof.
  revert n. induction s as [|c s IH]; intros n Hn E Hlt; simpl in E; [injection E as <-; done|].
  destruct (digitOf c); [|done]. destruct (_ <=? n); [done|]. destruct (_ <? _); [done|].
  pose proof (w64_range (w64 (n * 10) + z)). unfold is_u64 in *. eapply IH; [|exact E|]; lia.
Qed.
Lemma ParseUint_u64 s v : ParseUint s = Ok v → is_u64 v.
Proof. unfold ParseUint. case_decide; [done|]. intros E. eapply parseDigits_u64; [|exact E|]; done. Qed.

Lemma TrimPrefix_Some p s r : TrimPrefix p s = Some r ↔ s = p ++ r.
Proof.
  revert s. induction p as [|a p IH]; intros s; simpl; [naive_solver|]. destruct s as [|b s]; [done|]. case_decide as E; [subst|naive_solver].
  rewrite IH. naive_solver.
Qed.
Lemma TrimPrefix_prefix p s : is_Some (TrimPrefix p s) ↔ p `prefix_of` s.
Proof. split; [intros [r Hr%TrimPrefix_Some]; by exists r|intros [r Hr]; exists r; by apply TrimPrefix_Some]. Qed.

Lemma trimWith_fixed pats fuel s : (∀ p, p ∈ pats → ¬ p `prefix_of` s) → trimWith pats fuel s = s.
Proof.
  intros Hn. destruct fuel; [done|]. simpl. destruct (list_find _ pats) as [[k p]|] eqn:E; [|done].
  apply list_find_Some in E as (Hk & Hp%TrimPrefix_prefix & _). by destruct (Hn p); [eapply list_elem_of_lookup_2|].
Qed.
Lemma trimWith_done pats fuel s :
  [] ∉ pats → (length s ≤ fuel)%nat →
  (∀ p, p ∈ pats → ¬ p `prefix_of` trimWith pats fuel s) ∧ trimWith pats fuel s `suffix_of` s.
Proof.
  intros Hne. revert s. induction fuel as [|fuel IH]; intros s Hs; simpl.
  { destruct s; [|simpl in Hs; lia]. split; [|done]. intros p Hp Hpre%prefix_nil_inv. congruence. }
  destruct (list_find _ pats) as [[k p]|] eqn:E.
  - apply list_find_Some in E as (Hk & [r Hr] & _). rewrite Hr. simpl. apply TrimPrefix_Some in Hr as ->.
    assert (p ≠ []) by (intros ->; apply Hne; by eapply list_elem_of_lookup_2). destruct p; [done|]. rewrite length_app in Hs. simpl in Hs.
    destruct (IH r) as [Hp Hsuf]; [lia|]. split; [done|]. etrans; [exact Hsuf|]. by eexists.
  - split; [|done]. apply list_find_None in E. rewrite Forall_forall in E. intros p Hp Hpre. apply (E p Hp). by apply TrimPrefix_prefix.
Qed.

(** No white space at either end. *)
Definition trimmed (s : list byte) : Prop := ∀ p, p ∈ spaces → ¬ p `prefix_of` s ∧ ¬ p `suffix_of` s.
#[export] Instance trimmed_dec s : Decision (trimmed s).
Proof.
  refine (cast_if (decide (Forall (λ p, ¬ p `prefix_of` s ∧ ¬ p `suffix_of` s) spaces))); unfold trimmed; by rewrite <-Forall_forall.
Defined.
Lemma spaces_nonempty : ([] ∉ spaces) ∧ ([] ∉ (reverse <$> spaces)).
Proof. split; apply (bool_decide_unpack _); by vm_compute. Qed.
(** Trimmed strings around a byte that no space has. *)
Lemma trimmed_around a c b : trimmed a → trimmed b → (∀ p, p ∈ spaces → c ∉ p) → trimmed (a ++ c :: b).
Proof.
  intros Ha Hb Hc p Hp. split; intros [k E]; apply app_eq_inv in E as [(j & E1 & E2)|(j & E1 & E2)].
  - apply (proj1 (Ha p Hp)). by exists j.
  - destruct j as [|x j]; simpl in E2.
    + apply (proj1 (Ha p Hp)). exists []. by rewrite E1, !app_nil_r.
    + injection E2 as <- _. apply (Hc p Hp). rewrite E1. apply elem_of_app. right. by left.
  - apply (Hc p Hp). rewrite E2. apply elem_of_app. right. by left.
  - destruct j as [|x j]; simpl in E2.
    + apply (Hc p Hp). rewrite <-E2. by left.
    + injection E2 as _ E2. apply (proj2 (Hb p Hp)). by exists j.
Qed.
Lemma TrimSpace_trimmed s : trimmed (TrimSpace s).
Proof.
  destruct spaces_nonempty as [Hn Hn']. destruct (trimWith_done spaces (length s) s Hn) as [Hl _]; [done|].
  unfold TrimSpace, TrimRight. fold (TrimLeft s) in Hl. set (u := TrimLeft s) in *.
  destruct (trimWith_done (reverse <$> spaces) (length u) (reverse u) Hn') as [Hr Hs]; [by rewrite length_reverse|].
  set (w := trimWith _ _ _) in *. intros p Hp. split.
  - intros Hpre. apply (Hl p Hp). etrans; [exact Hpre|]. rewrite <-(reverse_involutive u). by apply suffix_prefix_reverse.
  - intros Hsuf%suffix_prefix_reverse. rewrite reverse_involutive in Hsuf. apply (Hr (reverse p)); [by apply list_elem_of_fmap_2|done].
Qed.
Lemma TrimSpace_fixed s : trimmed s → TrimSpace s = s.
Proof.
  intros Ht. unfold TrimSpace, TrimRight, TrimLeft. rewrite (trimWith_fixed spaces) by (intros p Hp; by apply Ht).
  rewrite trimWith_fixed; [apply reverse_involutive|]. intros p (q & -> & Hq)%list_elem_of_fmap Hpre. apply (Ht q Hq). by apply suffix_prefix_reverse.
Qed.
Lemma TrimSpace_infix s : ∃ a b, s = a ++ TrimSpace s ++ b.
Proof.
  destruct spaces_nonempty as [Hn Hn']. destruct (trimWith_done spaces (length s) s Hn) as [_ [a Ha]]; [done|]. fold (TrimLeft s) in Ha.
  set (u := TrimLeft s) in *. destruct (trimWith_done (reverse <$> spaces) (length u) (reverse u) Hn') as [_ [b Hb]]; [by rewrite length_reverse|].
  exists a, (reverse b). rewrite Ha at 1. f_equal. unfold TrimSpace, TrimRight. fold u. rewrite <-reverse_app, <-Hb. by rewrite reverse_involutive.
Qed.

Lemma Split_ne sep s : Split sep s ≠ [].
Proof. destruct s; simpl; [done|]. case_decide; [done|]. by destruct (Split sep s). Qed.
Lemma Split_parts sep s p : p ∈ Split sep s → sep ∉ p.
Proof.
  revert p. induction s as [|b s IH]; intros p; simpl.
  - intros ->%list_elem_of_singleton. apply not_elem_of_nil.
  - case_decide as E.
    + intros [->|?]%elem_of_cons; [apply not_elem_of_nil|by apply IH].
    + destruct (Split sep s) as [|q qs] eqn:Es; [by destruct (Split_ne sep s)|].
      intros [->|Hp]%elem_of_cons; [|apply IH; by right]. rewrite not_elem_of_cons. split; [done|]. apply IH. by left.
Qed.
Lemma Split_app sep a s : sep ∉ a → Split sep (a ++ sep :: s) = a :: Split sep s.
Proof.
  induction a as [|b a IH]; intros Hn; simpl; [by rewrite decide_True|]. apply not_elem_of_cons in Hn as [Hb Ha].
  rewrite decide_False by done. by rewrite IH.
Qed.
Lemma Split_one sep a : sep ∉ a → Split sep a = [a].
Proof.
  induction a as [|b a IH]; intros Hn; simpl; [done|]. apply not_elem_of_cons in Hn as [Hb Ha]. rewrite decide_False by done. by rewrite IH.
Qed.
Lemma Split_joined sep l : l ≠ [] → Forall (λ p, sep ∉ p) l → Split sep (joined [sep] l) = l.
Proof.
  induction l as [|p l IH]; intros Hn Hl; [done|]. apply Forall_cons in Hl as [Hp Hl]. destruct l as [|q l]; [by apply Split_one|].
  change (joined [sep] (p :: q :: l)) with (p ++ sep :: joined [sep] (q :: l)). rewrite Split_app by done. by rewrite IH.
Qed.

Lemma IndexByte_app a c s : c ∉ a → IndexByte (a ++ c :: s) c = zlen a.
Proof.
  induction a as [|b a IH]; intros Hn; simpl; [by rewrite decide_True|]. apply not_elem_of_cons in Hn as [Hb Ha].
  rewrite decide_False by done. rewrite IH by done. rewrite zlen_cons. pose proof (zlen_nonneg a). destruct (Z.ltb_spec (zlen a) 0); lia.
Qed.
