(* ===== verification/GoFloat.v ===== *)
(** * Go's float64

    IEEE 754 double precision, by the Standard Library's [SpecFloat]: conversion
    from an integer, multiplication and division round to nearest even.
    Conversion to an integer drops the fraction; out of range, where Go leaves
    the result to the implementation, it is an argument.  [round_between] is
    the one fact on rounding the programs rely on: an integer of at most 53 bits
    on either side of the exact result stays on that side of the rounded one. *)

From Stdlib Require Import SpecFloat.
From S2P Require Import Prelude.

Definition float_of_int (z : Z) : spec_float := binary_normalize 53 1024 z 0 false.
Definition fmul : spec_float → spec_float → spec_float := SFmul 53 1024.
Definition fdiv : spec_float → spec_float → spec_float := SFdiv 53 1024.
Definition int_of_float (undef : spec_float → Z) (f : spec_float) : Z :=
  match f with
  | S754_zero _ => 0
  | S754_finite s m e =>
      let z := Z.shiftl (Zpos m) e in
      let z := if s then - z else z in
      if (- (u64_mod / 2) <=? z) && (z <? u64_mod / 2) then z else undef f
  | S754_infinity _ | S754_nan => undef f
  end.

(** ** Shifting out the low bits *)

Lemma digits2_log2 p : Zpos (digits2_pos p) = Z.log2 (Zpos p) + 1.
Proof.
  induction p as [p IH|p IH|]; simpl digits2_pos; rewrite ?Pos2Z.inj_succ, ?IH; [|..|done].
  - rewrite (Pos2Z.inj_xI p), Z.log2_succ_double by lia. lia.
  - rewrite (Pos2Z.inj_xO p), Z.log2_double by lia. lia.
Qed.
(** After [k] shifts: the quotient, and a round bit that is only set when bits
    were lost. *)
Definition shifted (mx k : Z) (r : shr_record) : Prop := shr_m r = mx / 2 ^ k ∧ (shr_r r = true → mx mod 2 ^ k ≠ 0).
Lemma shr_1_shifted mx k r : 0 ≤ mx → 0 ≤ k → shifted mx k r → shifted mx (k + 1) (shr_1 r).
Proof.
  intros Hm Hk [Em _]. pose proof (Z.pow_pos_nonneg 2 k ltac:(lia) Hk) as H2k. assert (Hq : 0 ≤ mx / 2 ^ k) by (apply Z.div_pos; lia).
  assert (Ed : mx / 2 ^ (k + 1) = mx / 2 ^ k / 2) by (rewrite Z.pow_add_r by lia; change (2 ^ 1) with 2; rewrite Z.div_div; lia).
  assert (Hr : Z.odd (mx / 2 ^ k) = true → mx mod 2 ^ (k + 1) ≠ 0).
  { intros Ho. rewrite Z.pow_add_r, Z.rem_mul_r by lia. change (2 ^ 1) with 2. rewrite Zmod_odd, Ho.
    pose proof (Z.mod_pos_bound mx (2 ^ k) ltac:(lia)). lia. }
  destruct r as [m r s]. simpl in Em. subst m. destruct (mx / 2 ^ k) as [|[p|p|]|p] eqn:E; simpl; unfold shifted; simpl; rewrite Ed; try done.
  - split; [|auto]. rewrite (Pos2Z.inj_xI p). apply (Z.div_unique _ _ _ 1); lia.
  - split; [|done]. rewrite (Pos2Z.inj_xO p). apply (Z.div_unique _ _ _ 0); lia.
Qed.
Lemma iter_shifted p mx k r : 0 ≤ mx → 0 ≤ k → shifted mx k r → shifted mx (k + Zpos p) (SpecFloat.iter_pos shr_1 p r).
Proof.
  intros Hm. revert k r. induction p as [p IH|p IH|]; intros k r Hk Hr; simpl.
  - rewrite Pos2Z.inj_xI. replace (k + (2 * Zpos p + 1)) with (k + 1 + Zpos p + Zpos p) by lia.
    apply IH; [lia|]. apply IH; [lia|]. by apply shr_1_shifted.
  - rewrite Pos2Z.inj_xO. replace (k + 2 * Zpos p) with (k + Zpos p + Zpos p) by lia. apply IH; [lia|]. by apply IH.
  - by apply shr_1_shifted.
Qed.
Lemma round_up r : round_nearest_even (shr_m r) (loc_of_shr_record r) = shr_m r ∨
  round_nearest_even (shr_m r) (loc_of_shr_record r) = shr_m r + 1 ∧ shr_r r = true.
Proof. destruct r as [m [|] [|]]; simpl; auto. destruct (Z.even m); auto. Qed.

Lemma shr_fexp_digits m e : 0 < m → -1000 ≤ e → shr_fexp 53 1024 m e loc_Exact = shr (Build_shr_record m false false) e (Z.log2 m + 1 - 53).
Proof.
  intros Hm He. unfold shr_fexp. simpl. f_equal. destruct m as [|p|]; [lia| |lia]. unfold Zdigits2. rewrite digits2_log2. unfold fexp, emin.
  pose proof (Z.log2_nonneg (Zpos p)). rewrite Z.max_l by lia. lia.
Qed.

(** The mantissa and exponent [binary_round_aux] ends with. *)
Definition rounds_to (mx e m' e' : Z) : Prop :=
  ∃ p, Zpos p = m' ∧ binary_round_aux 53 1024 false mx e loc_Exact = S754_finite false p e'.

Lemma rounds_small mx e : 0 < mx < 2 ^ 53 → -1000 ≤ e ≤ 0 → rounds_to mx e mx e.
Proof.
  intros Hm He. assert (Hd : Z.log2 mx < 53) by (apply Z.log2_lt_pow2; lia).
  assert (Hs : shr_fexp 53 1024 mx e loc_Exact = (Build_shr_record mx false false, e)).
  { rewrite shr_fexp_digits by lia. unfold shr. destruct (Z.log2 mx + 1 - 53) eqn:E; try done. lia. }
  destruct mx as [|p|]; [lia| |lia]. exists p. split; [done|]. unfold binary_round_aux. rewrite Hs. simpl. rewrite Hs. simpl.
  destruct (Z.leb_spec e (1024 - 53)); [done|lia].
Qed.
Lemma rounds_large mx e : 2 ^ 53 ≤ mx → -1000 ≤ e → e + (Z.log2 mx - 52) ≤ 0 →
  let s := Z.log2 mx - 52 in
  ∃ m', (m' = mx / 2 ^ s ∨ m' = mx / 2 ^ s + 1 ∧ mx mod 2 ^ s ≠ 0) ∧
    (m' < 2 ^ 53 ∧ rounds_to mx e m' (e + s) ∨ m' = 2 ^ 53 ∧ rounds_to mx e (2 ^ 52) (e + s + 1)).
Proof.
  intros Hm He Hes s. assert (Hs : 0 < s). { assert (53 ≤ Z.log2 mx) by (by apply Z.log2_le_pow2; lia). lia. }
  pose proof (Z.pow_pos_nonneg 2 s ltac:(lia) ltac:(lia)) as Hps. destruct (Z.log2_spec mx) as [Hlo Hhi]; [lia|].
  replace (Z.log2 mx) with (52 + s) in Hlo by lia. replace (Z.succ (Z.log2 mx)) with (53 + s) in Hhi by lia.
  rewrite Z.pow_add_r in Hlo, Hhi by lia.
  assert (Hq : 2 ^ 52 ≤ mx / 2 ^ s < 2 ^ 53) by (split; [apply Z.div_le_lower_bound|apply Z.div_lt_upper_bound]; lia).
  destruct (shr_fexp 53 1024 mx e loc_Exact) as [r1 e1] eqn:E1. rewrite shr_fexp_digits in E1 by lia.
  replace (Z.log2 mx + 1 - 53) with s in E1 by lia. destruct s as [|p|] eqn:Es; [lia| |lia]. injection E1 as E1 Ee1.
  destruct (iter_shifted p mx 0 (Build_shr_record mx false false)) as [Eq Hr]; [lia|lia|split; [simpl; by rewrite Z.div_1_r|done]|].
  rewrite E1 in Eq, Hr. rewrite Z.add_0_l in Eq, Hr.
  set (m' := round_nearest_even (shr_m r1) (loc_of_shr_record r1)). exists m'.
  assert (Hm' : m' = mx / 2 ^ Zpos p ∨ m' = mx / 2 ^ Zpos p + 1 ∧ mx mod 2 ^ Zpos p ≠ 0).
  { unfold m'. rewrite <-Eq. destruct (round_up r1) as [->|[-> ?]]; [by left|right; auto]. }
  split; [done|].
  assert (Hround : binary_round_aux 53 1024 false mx e loc_Exact =
    let '(r2, e2) := shr_fexp 53 1024 m' e1 loc_Exact in
    match shr_m r2 with 0 => S754_zero false | Zpos m => if e2 <=? 1024 - 53 then S754_finite false m e2 else S754_infinity false | Zneg _ => S754_nan end).
  { unfold binary_round_aux. rewrite shr_fexp_digits by lia. replace (Z.log2 mx + 1 - 53) with (Zpos p) by lia. unfold shr at 1. rewrite E1, Ee1. done. }
  rewrite shr_fexp_digits in Hround by lia. destruct (decide (m' = 2 ^ 53)) as [Em|Hne].
  - right. split; [done|]. exists 4503599627370496%positive. split; [done|]. rewrite Hround, Em. change (Z.log2 (2 ^ 53) + 1 - 53) with 1. simpl.
    destruct (Z.leb_spec (e1 + 1) (1024 - 53)); [by rewrite <-Ee1|lia].
  - left. split; [lia|]. assert (El : Z.log2 m' = 52) by (apply Z.log2_unique; lia). rewrite El in Hround. simpl in Hround.
    destruct m' as [|q|]; [lia| |lia]. exists q. split; [done|]. rewrite Hround. simpl. destruct (Z.leb_spec e1 (1024 - 53)); [by rewrite <-Ee1|lia].
Qed.

Lemma round_between mx k L N : 0 < mx → 0 ≤ k ≤ 1000 → 0 ≤ L → N < 2 ^ 53 → L * 2 ^ k ≤ mx ≤ N * 2 ^ k →
  ∃ m e, rounds_to mx (- k) m e ∧ L ≤ Z.shiftl m e ≤ N.
Proof.
  intros Hm Hk HL HN [Hlo Hhi]. pose proof (Z.pow_pos_nonneg 2 k ltac:(lia) ltac:(lia)) as Hpk.
  assert (Hshift : ∀ m j, 0 ≤ j → L * 2 ^ j ≤ m ≤ N * 2 ^ j → L ≤ Z.shiftl m (- j) ≤ N).
  { intros m j Hj [H1 H2]. pose proof (Z.pow_pos_nonneg 2 j ltac:(lia) Hj). rewrite Z.shiftl_div_pow2, Z.opp_involutive by lia.
    split; [apply Z.div_le_lower_bound; lia|]. apply Z.div_le_upper_bound; lia. }
  destruct (decide (mx < 2 ^ 53)) as [Hs|Hl].
  { exists mx, (- k). split; [apply rounds_small; lia|]. apply Hshift; lia. }
  set (s := Z.log2 mx - 52). assert (Hs : 0 < s) by (assert (53 ≤ Z.log2 mx) by (apply Z.log2_le_pow2; lia); unfold s; lia).
  assert (Hsk : s ≤ k).
  { destruct (decide (s ≤ k)); [done|]. exfalso. destruct (Z.log2_spec mx Hm) as [Hlg _].
    assert (2 ^ (53 + k) ≤ 2 ^ Z.log2 mx) by (apply Z.pow_le_mono_r; unfold s in *; lia). rewrite Z.pow_add_r in * by lia. nia. }
  assert (Ek : 2 ^ k = 2 ^ (k - s) * 2 ^ s) by (rewrite <-Z.pow_add_r by lia; f_equal; lia).
  pose proof (Z.pow_pos_nonneg 2 s ltac:(lia) ltac:(lia)) as Hps. rewrite Ek, !Z.mul_assoc in Hlo, Hhi.
  destruct (rounds_large mx (- k)) as (m' & Hm' & Hcase); [lia..|unfold s in *; lia|]. fold s in Hm', Hcase.
  assert (Hb : L * 2 ^ (k - s) ≤ m' ≤ N * 2 ^ (k - s)).
  { assert (Hq : L * 2 ^ (k - s) ≤ mx / 2 ^ s) by (apply Z.div_le_lower_bound; lia).
    assert (Hq' : mx / 2 ^ s ≤ N * 2 ^ (k - s)) by (apply Z.div_le_upper_bound; lia).
    destruct Hm' as [->|[-> Hne]]; [done|]. split; [lia|]. pose proof (Z.div_mod mx (2 ^ s) ltac:(lia)) as Hdm.
    pose proof (Z.mod_pos_bound mx (2 ^ s) ltac:(lia)). nia. }
  destruct Hcase as [[_ Hr]|[Em Hr]].
  - exists m', (- k + s). split; [done|]. replace (- k + s) with (- (k - s)) by lia. apply Hshift; [lia|done].
  - assert (Hlt : s < k). { destruct (decide (s = k)) as [->|]; [|lia]. rewrite Z.sub_diag in Hb. lia. }
    exists (2 ^ 52), (- k + s + 1). split; [done|]. replace (- k + s + 1) with (- (k - s - 1)) by lia. apply Hshift; [lia|].
    replace (k - s) with (1 + (k - s - 1)) in Hb by lia. rewrite Z.pow_add_r in Hb by lia. rewrite Em in Hb.
    change (2 ^ 53) with (2 * 2 ^ 52) in Hb. lia.
Qed.

Lemma iter_xO q d : Zpos (Pos.iter xO q d) = Zpos q * 2 ^ Zpos d.
Proof.
  induction d as [|d IH] using Pos.peano_ind; [simpl; lia|]. rewrite Pos.iter_succ, Pos2Z.inj_xO, IH, Pos2Z.inj_succ, Z.pow_succ_r; lia.
Qed.
Lemma float_of_int_pos n : 0 < n < 2 ^ 53 →
  ∃ j p, 0 ≤ j ≤ 52 ∧ Zpos p = n * 2 ^ j ∧ float_of_int n = S754_finite false p (- j).
Proof.
  intros Hn. unfold float_of_int, binary_normalize. destruct n as [|q|]; [lia| |lia]. unfold binary_round, shl_align.
  rewrite Z.add_0_r, Z.sub_0_r, digits2_log2. pose proof (Z.log2_nonneg (Zpos q)) as Hl0. assert (Hl : Z.log2 (Zpos q) < 53) by (apply Z.log2_lt_pow2; lia).
  assert (Ef : fexp 53 1024 (Z.log2 (Zpos q) + 1) = Z.log2 (Zpos q) - 52) by (unfold fexp, emin; lia). rewrite Ef.
  destruct (Z.log2_spec (Zpos q) ltac:(lia)) as [_ Hhi]. destruct (Z.log2 (Zpos q) - 52) as [|d|d] eqn:Ed; [|lia|].
  - destruct (rounds_small (Zpos q) 0) as (p & Ep & Er); [lia|lia|]. exists 0, p. split_and!; [lia|lia|lia|done].
  - assert (Hb : Zpos q * 2 ^ Zpos d < 2 ^ 53).
    { replace 53 with (Z.succ (Z.log2 (Zpos q)) + Zpos d) by lia. rewrite (Z.pow_add_r 2) by lia. apply Z.mul_lt_mono_pos_r; lia. }
    destruct (rounds_small (Zpos (Pos.iter xO q d)) (Zneg d)) as (p & Ep & Er); [rewrite iter_xO; lia|lia|].
    exists (Zpos d), p. split_and!; [lia|lia|by rewrite Ep, iter_xO|done].
Qed.

(** A positive number times an integer. *)
Lemma scaled_between undef mq kq n L N :
  0 ≤ kq ≤ 900 → 0 < n < 2 ^ 53 → 0 ≤ L → N < 2 ^ 53 → L * 2 ^ kq ≤ Zpos mq * n ≤ N * 2 ^ kq →
  L ≤ int_of_float undef (fmul (S754_finite false mq (- kq)) (float_of_int n)) ≤ N.
Proof.
  intros Hk Hn HL HN [Hlo Hhi]. destruct (float_of_int_pos n Hn) as (j & p & Hj & Ep & ->).
  pose proof (Z.pow_pos_nonneg 2 j ltac:(lia) ltac:(lia)) as Hpj.
  destruct (round_between (Zpos (mq * p)) (kq + j) L N) as (m & e & (p' & Em & Er) & Hb); [lia|lia|done|lia| |].
  { rewrite Pos2Z.inj_mul, Ep, Z.pow_add_r by lia. split; nia. }
  unfold fmul, SFmul. replace (- kq + - j) with (- (kq + j)) by lia. simpl xorb. rewrite Er. simpl. rewrite Em.
  change (u64_mod / 2) with 9223372036854775808. change (2 ^ 53) with 9007199254740992 in HN.
  by rewrite (proj2 (Z.leb_le _ _)), (proj2 (Z.ltb_lt _ _)) by lia.
Qed.
