(* ===== verification/RaftTypes.v ===== *)
(** * Types of the raft package (src/raft/types.go, config.go, progress.go)

    Messages, entries, hard state, snapshots, the [Ready] batch, [Config] and
    the leader's per-follower [progress].  [uint64] fields are [Z]s, [[]byte]
    fields whose nil/empty distinction the package never observes are
    [list byte], pointers that may be nil are [option]s. *)

From S2P Require Import Prelude.

(** [None] of raft.go: the node id that means "no node". *)
Definition NoNode : Z := 0.

(** [MessageType] is a [uint8]: the declared constants, and the other values,
    which every [switch] of the package sends to its default branch. *)
Inductive MessageType : Type :=
| MsgUnknown
| MsgPropose
| MsgReadIndex
| MsgPreVote
| MsgPreVoteResp
| MsgVote
| MsgVoteResp
| MsgAppend
| MsgAppendResp
| MsgHeartbeat
| MsgHeartbeatResp
| MsgInstallSnapshot
| MsgInstallSnapshotResp
| MsgOther (n : Z).

#[export] Instance MessageType_eq_dec : EqDecision MessageType.
Proof. solve_decision. Defined.

(** [EntryType] is a [uint8] with two declared constants. *)
Definition EntryType : Type := byte.
Definition EntryNormal : EntryType := x00.
Definition EntryNoop : EntryType := x01.

Record Entry : Type := mkEntry {
  eTerm : Z;
  eIndex : Z;
  eType : EntryType;
  eData : list byte
}.

Record HardState : Type := mkHardState {
  hsTerm : Z;
  hsVote : Z;
  hsCommit : Z
}.

Record SnapshotMetadata : Type := mkSnapshotMetadata {
  smIndex : Z;
  smTerm : Z
}.

Record Snapshot : Type := mkSnapshot {
  snMetadata : SnapshotMetadata;
  snData : list byte
}.

Definition snIndex (s : Snapshot) : Z := smIndex (snMetadata s).
Definition snTerm (s : Snapshot) : Z := smTerm (snMetadata s).

Record Message : Type := mkMessage {
  mType : MessageType;
  mFrom : Z;
  mTo : Z;
  mTerm : Z;
  mLogIndex : Z;
  mLogTerm : Z;
  mEntries : list Entry;
  mCommit : Z;
  mReject : bool;
  mRejectHint : Z;
  mHintTerm : Z;
  mSnapshot : option Snapshot;
  mContext : list byte
}.

(** The composite literal [Message{To: to, Type: t}]; the other fields are
    set on top of it. *)
Definition Msg (t : MessageType) (to : Z) : Message :=
  mkMessage t 0 to 0 0 0 [] 0 false 0 0 None [].

Definition set_mType (v : MessageType) (r : Message) : Message :=
  mkMessage v (mFrom r) (mTo r) (mTerm r) (mLogIndex r) (mLogTerm r) (mEntries r) (mCommit r) (mReject r) (mRejectHint r) (mHintTerm r) (mSnapshot r) (mContext r).
Definition set_mFrom (v : Z) (r : Message) : Message :=
  mkMessage (mType r) v (mTo r) (mTerm r) (mLogIndex r) (mLogTerm r) (mEntries r) (mCommit r) (mReject r) (mRejectHint r) (mHintTerm r) (mSnapshot r) (mContext r).
Definition set_mTo (v : Z) (r : Message) : Message :=
  mkMessage (mType r) (mFrom r) v (mTerm r) (mLogIndex r) (mLogTerm r) (mEntries r) (mCommit r) (mReject r) (mRejectHint r) (mHintTerm r) (mSnapshot r) (mContext r).
Definition set_mTerm (v : Z) (r : Message) : Message :=
  mkMessage (mType r) (mFrom r) (mTo r) v (mLogIndex r) (mLogTerm r) (mEntries r) (mCommit r) (mReject r) (mRejectHint r) (mHintTerm r) (mSnapshot r) (mContext r).
Definition set_mLogIndex (v : Z) (r : Message) : Message :=
  mkMessage (mType r) (mFrom r) (mTo r) (mTerm r) v (mLogTerm r) (mEntries r) (mCommit r) (mReject r) (mRejectHint r) (mHintTerm r) (mSnapshot r) (mContext r).
Definition set_mLogTerm (v : Z) (r : Message) : Message :=
  mkMessage (mType r) (mFrom r) (mTo r) (mTerm r) (mLogIndex r) v (mEntries r) (mCommit r) (mReject r) (mRejectHint r) (mHintTerm r) (mSnapshot r) (mContext r).
Definition set_mEntries (v : list Entry) (r : Message) : Message :=
  mkMessage (mType r) (mFrom r) (mTo r) (mTerm r) (mLogIndex r) (mLogTerm r) v (mCommit r) (mReject r) (mRejectHint r) (mHintTerm r) (mSnapshot r) (mContext r).
Definition set_mCommit (v : Z) (r : Message) : Message :=
  mkMessage (mType r) (mFrom r) (mTo r) (mTerm r) (mLogIndex r) (mLogTerm r) (mEntries r) v (mReject r) (mRejectHint r) (mHintTerm r) (mSnapshot r) (mContext r).
Definition set_mReject (v : bool) (r : Message) : Message :=
  mkMessage (mType r) (mFrom r) (mTo r) (mTerm r) (mLogIndex r) (mLogTerm r) (mEntries r) (mCommit r) v (mRejectHint r) (mHintTerm r) (mSnapshot r) (mContext r).
Definition set_mRejectHint (v : Z) (r : Message) : Message :=
  mkMessage (mType r) (mFrom r) (mTo r) (mTerm r) (mLogIndex r) (mLogTerm r) (mEntries r) (mCommit r) (mReject r) v (mHintTerm r) (mSnapshot r) (mContext r).
Definition set_mHintTerm (v : Z) (r : Message) : Message :=
  mkMessage (mType r) (mFrom r) (mTo r) (mTerm r) (mLogIndex r) (mLogTerm r) (mEntries r) (mCommit r) (mReject r) (mRejectHint r) v (mSnapshot r) (mContext r).
Definition set_mSnapshot (v : option Snapshot) (r : Message) : Message :=
  mkMessage (mType r) (mFrom r) (mTo r) (mTerm r) (mLogIndex r) (mLogTerm r) (mEntries r) (mCommit r) (mReject r) (mRejectHint r) (mHintTerm r) v (mContext r).
Definition set_mContext (v : list byte) (r : Message) : Message :=
  mkMessage (mType r) (mFrom r) (mTo r) (mTerm r) (mLogIndex r) (mLogTerm r) (mEntries r) (mCommit r) (mReject r) (mRejectHint r) (mHintTerm r) (mSnapshot r) v.

Record ReadState : Type := mkReadState {
  rsIndex : Z;
  rsRequestCtx : list byte
}.

Record Ready : Type := mkReady {
  rdHardState : option HardState;
  rdEntries : list Entry;
  rdSnapshot : option Snapshot;
  rdCommittedEntries : list Entry;
  rdMessages : list Message;
  rdReadStates : list ReadState;
  rdMustSync : bool
}.

Inductive StateType : Type :=
| StateFollower
| StatePreCandidate
| StateCandidate
| StateLeader.

#[export] Instance StateType_eq_dec : EqDecision StateType.
Proof. solve_decision. Defined.
#[export] Instance Entry_eq_dec : EqDecision Entry.
Proof. solve_decision. Defined.
#[export] Instance HardState_eq_dec : EqDecision HardState.
Proof. solve_decision. Defined.
#[export] Instance SnapshotMetadata_eq_dec : EqDecision SnapshotMetadata.
Proof. solve_decision. Defined.
#[export] Instance Snapshot_eq_dec : EqDecision Snapshot.
Proof. solve_decision. Defined.
#[export] Instance Message_eq_dec : EqDecision Message.
Proof. solve_decision. Defined.

Definition zeroHardState : HardState := mkHardState 0 0 0.
Definition zeroSnapshot : Snapshot := mkSnapshot (mkSnapshotMetadata 0 0) [].

(** ** Errors of raft/storage.go; [ErrOther] stands for any other error value *)
Inductive errkind : Type :=
| ErrCompacted
| ErrUnavailable
| ErrNotLeader
| ErrOther.

#[export] Instance errkind_eq_dec : EqDecision errkind.
Proof. solve_decision. Defined.

(** Go's [error]: nil is [None]. *)
Definition error : Type := option errkind.

(** ** [*rand.Rand]: a tape of draws and the position reached

    [Intn(n)] panics unless [n > 0] and otherwise returns some value of
    [0, n); every sequence of results is that of some tape. *)
Record Rand : Type := mkRand {
  rand_tape : nat → Z;
  rand_pos : nat
}.

Definition Intn (n : Z) (r : Rand) : outcome (Z * Rand) :=
  if n <=? 0 then Panic PanicRand
  else Ret (rand_tape r (rand_pos r) mod n, mkRand (rand_tape r) (S (rand_pos r))).

Record Config : Type := mkConfig {
  cID : Z;
  cPeers : list Z;
  cElectionTicks : Z;
  cHeartbeatTicks : Z;
  cMaxEntriesPerAppend : Z;
  cPreVote : bool;
  cRand : option Rand
}.

Definition set_cRand (v : option Rand) (c : Config) : Config :=
  mkConfig (cID c) (cPeers c) (cElectionTicks c) (cHeartbeatTicks c)
    (cMaxEntriesPerAppend c) (cPreVote c) v.

(** [Config.validate]: the error texts, in the order the code tests them. *)
Inductive config_error : Type :=
| ErrIDPositive
| ErrElectionTicks
| ErrHeartbeatTicks
| ErrRandRequired
| ErrPeerIDPositive
| ErrPeerIDUnique
| ErrPeersIncludeID.

(** The loop over [c.Peers], with its [seen] set and [found] flag. *)
Fixpoint validate_peers (id : Z) (ps : list Z) (seen : gset Z) (found : bool)
    : option config_error :=
  match ps with
  | [] => if found then None else Some ErrPeersIncludeID
  | p :: ps =>
      if p =? 0 then Some ErrPeerIDPositive
      else if bool_decide (p ∈ seen) then Some ErrPeerIDUnique
      else validate_peers id ps ({[ p ]} ∪ seen) (if p =? id then true else found)
  end.

Definition validate (c : Config) : option config_error :=
  if cID c =? 0 then Some ErrIDPositive
  else if cElectionTicks c <=? cHeartbeatTicks c then Some ErrElectionTicks
  else if cHeartbeatTicks c <=? 0 then Some ErrHeartbeatTicks
  else match cRand c with
       | None => Some ErrRandRequired
       | Some _ => validate_peers (cID c) (cPeers c) ∅ false
       end.

(** ** progress.go *)

Record progress : Type := mkProgress {
  Match : Z;
  Next : Z
}.

(** The new progress and whether [Match] advanced. *)
Definition maybeUpdate (n : Z) (pr : progress) : progress * bool :=
  let updated := Match pr <? n in
  (mkProgress (if updated then n else Match pr)
              (if Next pr <? n +w 1 then n +w 1 else Next pr), updated).

Definition maybeDecrTo (rejected hint : Z) (pr : progress) : progress * bool :=
  if negb (Next pr -w 1 =? rejected) then (pr, false)
  else let next := hint +w 1 in
       (mkProgress (Match pr) (if next <? 1 then 1 else next), true).

(** ** Lemmas *)

Lemma validate_peers_ok id ps seen found :
  (validate_peers id ps seen found = None) ↔
  Forall (λ p, p ≠ 0 ∧ p ∉ seen) ps ∧ NoDup ps ∧ (found = true ∨ id ∈ ps).
Proof.
  revert seen found. induction ps as [|p ps IH]; intros seen found; simpl.
  { destruct found; split; try done.
    - intros _. split_and!; auto. constructor.
    - intros (_ & _ & [?|Hin]); [done|]. by apply not_elem_of_nil in Hin. }
  rewrite Forall_cons, NoDup_cons. destruct (Z.eqb_spec p 0) as [->|Hp]; [naive_solver|].
  case_bool_decide; [naive_solver|]. rewrite IH, !Forall_forall, elem_of_cons.
  assert (Hf : ((if p =? id then true else found) = true ∨ id ∈ ps) ↔
               (found = true ∨ id = p ∨ id ∈ ps)).
  { destruct (Z.eqb_spec p id) as [->|]; naive_solver. }
  rewrite Hf. split.
  - intros (Ha & Hn & Hi). split_and!; try done; set_solver.
  - intros ((_ & Ha) & (Hin & Hn) & Hi). split_and!; try done. set_solver.
Qed.

Lemma validate_ok c :
  (validate c = None) ↔
  cID c ≠ 0 ∧ 0 < cHeartbeatTicks c < cElectionTicks c ∧ is_Some (cRand c) ∧
  0 ∉ cPeers c ∧ NoDup (cPeers c) ∧ cID c ∈ cPeers c.
Proof.
  unfold validate. destruct (Z.eqb_spec (cID c) 0); [naive_solver|].
  destruct (Z.leb_spec (cElectionTicks c) (cHeartbeatTicks c)); [split; [done|lia]|].
  destruct (Z.leb_spec (cHeartbeatTicks c) 0); [split; [done|lia]|].
  destruct (cRand c); [|split; [done|by intros (_ & _ & [? ?] & _)]].
  rewrite validate_peers_ok, Forall_forall. split.
  - intros (Ha & Hn & [?|Hi]); [done|]. split_and!; eauto. intros Hz. by destruct (Ha 0 Hz).
  - intros (_ & _ & _ & Hz & Hn & Hi). split_and!; auto. intros x Hx. set_solver.
Qed.
