(* ===== verification/Storage.v ===== *)
(** * The LogStorage interface and its in-memory implementation

    Source: src/raft/storage.go (the interface the core reads through),
    src/storage/mem/mem.go (the simulator's storage).  The class [LogStorage]
    has the operations of the Go interface; [LogStorageLaws] states what the
    core relies on: the storage presents a snapshot boundary and a contiguous
    run of entries above it.  [mem] discharges the laws. *)

From S2P Require Import Prelude RaftTypes.

(** A mutating method returns the new storage and Go's [error]. *)
Class LogStorage (S : Type) := {
  AppendEntries : list Entry → S → outcome (S * error);
  SetHardState : HardState → S → outcome (S * error);
  HardStateOf : S → outcome (result errkind HardState);
  Entries : Z → Z → S → outcome (result errkind (list Entry));
  TermOf : Z → S → outcome (result errkind Z);
  FirstIndex : S → outcome (result errkind Z);
  LastIndex : S → outcome (result errkind Z);
  ApplySnapshot : Snapshot → S → outcome (S * error);
  SnapshotOf : S → outcome (result errkind Snapshot)
}.

(** ** What a storage presents to the core *)

(** Consecutive indices, starting at [i]. *)
Fixpoint contiguous (i : Z) (es : list Entry) : Prop :=
  match es with
  | [] => True
  | e :: es => eIndex e = i ∧ contiguous (i + 1) es
  end.

Record storage_view : Type := mkView {
  v_hard : HardState;
  v_snap : Snapshot;
  v_ents : list Entry
}.

Definition v_off (v : storage_view) : Z := snIndex (v_snap v).
Definition v_last (v : storage_view) : Z := v_off v + zlen (v_ents v).

(** Indices fit their width with room for one more entry, and entries are
    numbered consecutively above the snapshot. *)
Definition view_wf (v : storage_view) : Prop :=
  0 ≤ v_off v ∧ v_last v < u64_mod - 1 ∧ contiguous (v_off v + 1) (v_ents v).

(** [Term(i)] of the interface's documentation. *)
Definition view_term (v : storage_view) (i : Z) : result errkind Z :=
  if i =? v_off v then Ok (snTerm (v_snap v))
  else if i <? v_off v then Err ErrCompacted
  else match v_ents v !! Z.to_nat (i - v_off v - 1) with
       | Some e => Ok (eTerm e)
       | None => Err ErrUnavailable
       end.

Definition view_entries (v : storage_view) (lo hi : Z) : result errkind (list Entry) :=
  if lo <=? v_off v then Err ErrCompacted
  else if (v_last v + 1 <? hi) || (hi <? lo) then Err ErrUnavailable
  else Ok (take (Z.to_nat (hi - lo)) (drop (Z.to_nat (lo - v_off v - 1)) (v_ents v))).

(** Appending [es] truncates at the first incoming index and drops what the
    snapshot covers. *)
Definition view_append (v : storage_view) (es : list Entry) : list Entry :=
  match es with
  | [] => v_ents v
  | e :: _ =>
      if eIndex e + zlen es - 1 <=? v_off v then v_ents v
      else if eIndex e <=? v_off v then drop (Z.to_nat (v_off v + 1 - eIndex e)) es
      else take (Z.to_nat (eIndex e - (v_off v + 1))) (v_ents v) ++ es
  end.

(** Installing [s] keeps the suffix above it only when the entry at its
    boundary has its term. *)
Definition view_install (v : storage_view) (s : Snapshot) : list Entry :=
  if snIndex s <? v_last v then
    match v_ents v !! Z.to_nat (snIndex s - v_off v - 1) with
    | Some e => if eTerm e =? snTerm s
                then drop (Z.to_nat (snIndex s - v_off v)) (v_ents v) else []
    | None => []
    end
  else [].

(** [e :: es] is contiguous, fits the index width, and leaves no gap above the
    stored log. *)
Definition append_ok (v : storage_view) (e : Entry) (es : list Entry) : Prop :=
  contiguous (eIndex e) (e :: es) ∧ 0 ≤ eIndex e ≤ v_last v + 1 ∧
  eIndex e + zlen es < u64_mod - 1.

Class LogStorageLaws (S : Type) `{LogStorage S} := {
  view : S → storage_view;
  law_hard s : HardStateOf s = Ret (Ok (v_hard (view s)));
  law_snap s : SnapshotOf s = Ret (Ok (v_snap (view s)));
  law_first s : view_wf (view s) → FirstIndex s = Ret (Ok (v_off (view s) + 1));
  law_last s : view_wf (view s) → LastIndex s = Ret (Ok (v_last (view s)));
  law_term s i : view_wf (view s) → is_u64 i → TermOf i s = Ret (view_term (view s) i);
  law_entries s lo hi : view_wf (view s) → is_u64 lo → is_u64 hi →
    Entries lo hi s = Ret (view_entries (view s) lo hi);
  law_append s e es : view_wf (view s) → append_ok (view s) e es →
    ∃ s', AppendEntries (e :: es) s = Ret (s', None) ∧
      view s' = mkView (v_hard (view s)) (v_snap (view s)) (view_append (view s) (e :: es));
  law_set_hard s h : view_wf (view s) → hsCommit h ≤ v_last (view s) → ∃ s', SetHardState h s = Ret (s', None);
  law_set_hard_view s h s' e : SetHardState h s = Ret (s', e) →
    view s' = mkView h (v_snap (view s)) (v_ents (view s));
  law_install s sn : view_wf (view s) → v_off (view s) < snIndex sn < u64_mod - 1 →
    ∃ s' e, ApplySnapshot sn s = Ret (s', e) ∧
      view s' = mkView (v_hard (view s)) sn (view_install (view s) sn);
  law_append_hard s es s' e : AppendEntries es s = Ret (s', e) → v_hard (view s') = v_hard (view s);
  law_install_hard s sn s' e : ApplySnapshot sn s = Ret (s', e) → v_hard (view s') = v_hard (view s)
}.

(** ** Lemmas on contiguous runs and views *)

Lemma contiguous_lookup i es k e :
  contiguous i es → es !! k = Some e → eIndex e = i + Z.of_nat k.
Proof.
  revert i k. induction es as [|e' es IH]; intros i k Hc Hk; [done|].
  destruct Hc as [Hi Hc]. destruct k as [|k]; simpl in Hk.
  - injection Hk as <-. lia.
  - rewrite (IH _ _ Hc Hk). lia.
Qed.
Lemma contiguous_app i es es' :
  contiguous i (es ++ es') ↔ contiguous i es ∧ contiguous (i + zlen es) es'.
Proof.
  revert i. induction es as [|e es IH]; intros i; simpl.
  { rewrite zlen_nil, Z.add_0_r. tauto. }
  rewrite IH, zlen_cons, (Z.add_assoc i 1). tauto.
Qed.
Lemma contiguous_drop i es n :
  contiguous i es → (n ≤ length es)%nat → contiguous (i + Z.of_nat n) (drop n es).
Proof.
  intros Hc Hn. rewrite <-(take_drop n es), contiguous_app in Hc. destruct Hc as [_ Hc].
  unfold zlen in Hc. rewrite length_take_le in Hc; done.
Qed.
Lemma contiguous_take i es n : contiguous i es → contiguous i (take n es).
Proof. intros Hc. rewrite <-(take_drop n es), contiguous_app in Hc. by destruct Hc. Qed.
Lemma contiguous_last i es e :
  contiguous i es → last es = Some e → eIndex e = i + zlen es - 1.
Proof.
  intros Hc Hl. destruct es as [|e' es]; [done|]. rewrite last_lookup in Hl.
  apply (contiguous_lookup i) in Hl; [|done]. unfold zlen. simpl in *. lia.
Qed.
#[export] Hint Resolve contiguous_take contiguous_drop : raft.

Lemma view_term_total v i :
  view_wf v → v_off v ≤ i ≤ v_last v → ∃ t, view_term v i = Ok t.
Proof.
  intros (? & ? & ?) [? ?]. unfold view_term. bdestr; try lia; eauto.
  destruct (lookup_lt_is_Some_2 (v_ents v) (Z.to_nat (i - v_off v - 1))) as [e ->]; [|eauto].
  unfold v_last, zlen in *. lia.
Qed.

(** ** mem.Storage *)
Module mem.

Record Storage : Type := mkStorage {
  hardState : HardState;
  snapshot : Snapshot;
  (* entries[i] holds the entry at index snapshot.Metadata.Index + 1 + i *)
  entries : list Entry
}.

Definition New : Storage := mkStorage zeroHardState zeroSnapshot [].

Definition offset (s : Storage) : Z := snIndex (snapshot s).

Definition mem_AppendEntries (es : list Entry) (s : Storage) : outcome (Storage * error) :=
  if decide (es = []) then Ret (s, None) else
  let off := offset s in
  first ← eIndex <$> index es 0;
  lastI ← eIndex <$> index es (zlen es - 1);
  if lastI <=? off then Ret (s, None) else
  '(es, first) ← (if first <=? off then
                    es' ← slice_from es (off +w 1 -w first);
                    first' ← eIndex <$> index es' 0;
                    Ret (es', first')
                  else Ret (es, first));
  let pos := first -w (off +w 1) in
  if zlen (entries s) <? pos then Ret (s, Some ErrUnavailable) else
  kept ← slice_to (entries s) pos;
  Ret (mkStorage (hardState s) (snapshot s) (kept ++ es), None).

Definition mem_SetHardState (st : HardState) (s : Storage) : outcome (Storage * error) :=
  Ret (mkStorage st (snapshot s) (entries s), None).

Definition mem_HardState (s : Storage) : outcome (result errkind HardState) :=
  Ret (Ok (hardState s)).

Definition mem_Entries (lo hi : Z) (s : Storage) : outcome (result errkind (list Entry)) :=
  let off := offset s in
  if lo <=? off then Ret (Err ErrCompacted) else
  let lastI := off +w zlen (entries s) in
  if lastI +w 1 <? hi then Ret (Err ErrUnavailable) else
  if hi <? lo then Ret (Err ErrUnavailable) else
  if lo =? hi then Ret (Ok []) else
  out ← slice_of (entries s) (lo -w off -w 1) (hi -w off -w 1);
  Ret (Ok out).

Definition mem_Term (i : Z) (s : Storage) : outcome (result errkind Z) :=
  let off := offset s in
  if i =? off then Ret (Ok (snTerm (snapshot s))) else
  if i <? off then Ret (Err ErrCompacted) else
  if off +w zlen (entries s) <? i then Ret (Err ErrUnavailable) else
  e ← index (entries s) (i -w off -w 1);
  Ret (Ok (eTerm e)).

Definition mem_FirstIndex (s : Storage) : outcome (result errkind Z) :=
  Ret (Ok (offset s +w 1)).

Definition mem_LastIndex (s : Storage) : outcome (result errkind Z) :=
  Ret (Ok (offset s +w zlen (entries s))).

Definition mem_ApplySnapshot (snap : Snapshot) (s : Storage) : outcome (Storage * error) :=
  if snIndex snap <=? offset s then Ret (s, Some ErrCompacted) else
  let off := offset s in
  let lastI := off +w zlen (entries s) in
  retain ← (if snIndex snap <? lastI then
              e ← index (entries s) (snIndex snap -w off -w 1);
              Ret (eTerm e =? snTerm snap)
            else Ret false);
  es ← (if (retain : bool) then slice_from (entries s) (snIndex snap -w off) else Ret []);
  Ret (mkStorage (hardState s) snap es, None).

Definition mem_Snapshot (s : Storage) : outcome (result errkind Snapshot) :=
  Ret (Ok (snapshot s)).

Definition Compact (i : Z) (s : Storage) : outcome (Storage * error) :=
  let off := offset s in
  if i <=? off then Ret (s, Some ErrCompacted) else
  let lastI := off +w zlen (entries s) in
  if lastI <? i then Ret (s, Some ErrUnavailable) else
  e ← index (entries s) (i -w off -w 1);
  es ← slice_from (entries s) (i -w off);
  Ret (mkStorage (hardState s)
         (mkSnapshot (mkSnapshotMetadata i (eTerm e)) (snData (snapshot s))) es, None).

#[global] Instance mem_LogStorage : LogStorage Storage := {|
  AppendEntries := mem_AppendEntries;
  SetHardState := mem_SetHardState;
  HardStateOf := mem_HardState;
  Entries := mem_Entries;
  TermOf := mem_Term;
  FirstIndex := mem_FirstIndex;
  LastIndex := mem_LastIndex;
  ApplySnapshot := mem_ApplySnapshot;
  SnapshotOf := mem_Snapshot
|}.

Definition mem_view (s : Storage) : storage_view := mkView (hardState s) (snapshot s) (entries s).

(** ** Lemmas *)

Lemma view_wf_New : view_wf (mem_view New).
Proof. unfold view_wf, v_last, v_off. simpl. by autorewrite with zlen. Qed.

Lemma mem_first s : view_wf (mem_view s) →
  mem_FirstIndex s = Ret (Ok (v_off (mem_view s) + 1)).
Proof.
  intros (? & ? & ?). unfold mem_FirstIndex, offset, v_last, v_off in *. simpl in *.
  pose proof (zlen_nonneg (entries s)). by rewrite w64_id by lia.
Qed.
Lemma mem_last s : view_wf (mem_view s) → mem_LastIndex s = Ret (Ok (v_last (mem_view s))).
Proof.
  intros (? & ? & ?). unfold mem_LastIndex, offset, v_last, v_off in *. simpl in *.
  pose proof (zlen_nonneg (entries s)). by rewrite w64_id by lia.
Qed.
Lemma mem_term s i : view_wf (mem_view s) → is_u64 i →
  mem_Term i s = Ret (view_term (mem_view s) i).
Proof.
  intros (? & ? & ?) [? ?]. unfold mem_Term, view_term, offset, v_last, v_off in *. simpl in *.
  pose proof (zlen_nonneg (entries s)). rewrite (w64_id (_ + zlen _)) by lia.
  bdestr; try lia; try done.
  - rewrite lookup_ge_None_2; [done|]. unfold zlen in *. lia.
  - rewrite !w64_id by (rewrite ?w64_id; lia).
    destruct (index_total (entries s) (i - snIndex (snapshot s) - 1)) as (e & He & ->); [lia|].
    by rewrite He.
Qed.
Lemma mem_entries s lo hi : view_wf (mem_view s) → is_u64 lo → is_u64 hi →
  mem_Entries lo hi s = Ret (view_entries (mem_view s) lo hi).
Proof.
  intros (? & ? & ?) [? ?] [? ?].
  unfold mem_Entries, view_entries, offset, v_last, v_off in *. simpl in *.
  pose proof (zlen_nonneg (entries s)). rewrite !(w64_id (_ + zlen _)), !w64_id by lia.
  bdestr; try lia; try done.
  - subst. by rewrite Z.sub_diag.
  - rewrite !w64_id by (rewrite ?w64_id; lia). rewrite slice_of_ok by lia. simpl.
    do 3 f_equal. lia.
Qed.

Lemma mem_append s e es :
  view_wf (mem_view s) → append_ok (mem_view s) e es →
  ∃ s', mem_AppendEntries (e :: es) s = Ret (s', None) ∧
    mem_view s' = mkView (hardState s) (snapshot s) (view_append (mem_view s) (e :: es)).
Proof.
  intros (? & ? & ?) (Hc & ? & ?).
  unfold mem_AppendEntries, view_append, offset, v_last, v_off in *. cbn [v_snap v_ents mem_view] in *.
  pose proof (zlen_nonneg (entries s)). pose proof (zlen_nonneg es).
  rewrite decide_False by done. cbn [index Z.ltb lookup].
  destruct (index_total (e :: es) (zlen (e :: es) - 1)) as (el & Hel & ->); [rewrite zlen_cons; lia|].
  apply (contiguous_lookup _ _ _ _ Hc) in Hel. rewrite zlen_cons in *.
  rewrite Z2Nat.id in Hel by lia. rewrite (w64_id (snIndex (snapshot s) + 1)) by lia.
  simpl. rewrite Hel.
  replace (eIndex e + (1 + zlen es) - 1) with (eIndex e + (1 + zlen es - 1)) by lia.
  destruct (Z.leb_spec (eIndex e + (1 + zlen es - 1)) (snIndex (snapshot s))); [by eauto|].
  destruct (Z.leb_spec (eIndex e) (snIndex (snapshot s))); simpl.
  - rewrite w64_id by lia. rewrite slice_from_ok by (rewrite zlen_cons; lia). simpl.
    set (n := Z.to_nat (snIndex (snapshot s) + 1 - eIndex e)).
    destruct (drop n (e :: es)) as [|e' es'] eqn:Hd.
    { apply (f_equal length) in Hd. rewrite length_drop in Hd. unfold zlen in *. simpl in Hd. lia. }
    apply (contiguous_drop _ _ n) in Hc as Hc'; [|unfold zlen in *; simpl; lia].
    rewrite Hd in Hc'. destruct Hc' as [He' _]. simpl.
    replace (eIndex e') with (snIndex (snapshot s) + 1) by lia.
    rewrite Z.sub_diag. change (w64 0) with 0.
    destruct (Z.ltb_spec (zlen (entries s)) 0); [lia|]. rewrite slice_to_ok by lia. simpl. eauto.
  - rewrite w64_id by lia. destruct (Z.ltb_spec (zlen (entries s)) (eIndex e - (snIndex (snapshot s) + 1))); [lia|].
    rewrite slice_to_ok by lia. simpl. eauto.
Qed.
Lemma mem_install s sn :
  view_wf (mem_view s) → v_off (mem_view s) < snIndex sn < u64_mod - 1 →
  ∃ s', mem_ApplySnapshot sn s = Ret (s', None) ∧
    mem_view s' = mkView (hardState s) sn (view_install (mem_view s) sn).
Proof.
  intros (? & ? & ?) [? ?]. unfold mem_ApplySnapshot, view_install, offset, v_last, v_off in *.
  cbn [v_snap v_ents mem_view] in *. pose proof (zlen_nonneg (entries s)).
  destruct (Z.leb_spec (snIndex sn) (snIndex (snapshot s))); [lia|].
  rewrite (w64_id (snIndex (snapshot s) + _)) by lia.
  destruct (Z.ltb_spec (snIndex sn) (snIndex (snapshot s) + zlen (entries s))); simpl; [|by eauto].
  rewrite (w64_id (snIndex sn - snIndex (snapshot s))), w64_id by (rewrite ?w64_id; lia).
  destruct (index_total (entries s) (snIndex sn - snIndex (snapshot s) - 1)) as (e & He & ->); [lia|].
  rewrite He. simpl. destruct (eTerm e =? snTerm sn); simpl; [|by eauto].
  rewrite slice_from_ok by lia. simpl. eauto.
Qed.

Lemma mem_set_hard_view s h s' e :
  mem_SetHardState h s = Ret (s', e) → mem_view s' = mkView h (snapshot s) (entries s).
Proof. by intros [= <- _]. Qed.
Lemma mem_append_hard s es s' e :
  mem_AppendEntries es s = Ret (s', e) → hardState s' = hardState s.
Proof.
  unfold mem_AppendEntries. case_decide; [by intros [= <- _]|].
  intros (f & _ & (l & _ & E)%outcome_bind_Ret)%outcome_bind_Ret.
  destruct (l <=? _); [by injection E as <- _|].
  apply outcome_bind_Ret in E as ([es' f'] & _ & E). destruct (_ <? _); [by injection E as <- _|].
  apply outcome_bind_Ret in E as (kept & _ & [= <- _]). done.
Qed.
Lemma mem_install_hard s sn s' e :
  mem_ApplySnapshot sn s = Ret (s', e) → hardState s' = hardState s.
Proof.
  unfold mem_ApplySnapshot. destruct (_ <=? _); [by intros [= <- _]|].
  intros (b & _ & (es & _ & [= <- _])%outcome_bind_Ret)%outcome_bind_Ret. done.
Qed.

#[global] Instance mem_laws : LogStorageLaws Storage := {|
  view := mem_view;
  law_hard s := eq_refl;
  law_snap s := eq_refl;
  law_first := mem_first;
  law_last := mem_last;
  law_term := mem_term;
  law_entries := mem_entries;
  law_append := mem_append;
  law_set_hard s h _ _ := ex_intro _ _ eq_refl;
  law_set_hard_view := mem_set_hard_view;
  law_install s sn Hs Hi := let '(ex_intro _ s' (conj E V)) := mem_install s sn Hs Hi in
    ex_intro _ s' (ex_intro _ None (conj E V));
  law_append_hard := mem_append_hard;
  law_install_hard := mem_install_hard
|}.

End mem.
