(* ===== verification/RaftLog.v ===== *)
(** * The replicated log of one node (src/raft/log.go)

    [unstable] buffers what the driver has not persisted yet, [raftLog] joins
    it with the storage and keeps the committed and applied watermarks.  One
    definition per method, with the wrap-around of [uint64] arithmetic and the
    panics of the source; then the abstract log a well-formed [raftLog] stands
    for, and the lemmas that every method implements its operation on it. *)

From S2P Require Import Prelude RaftTypes Storage.

Record unstable : Type := mkUnstable {
  u_snapshot : option Snapshot;
  u_entries : list Entry;
  u_offset : Z
}.

Definition maybeFirstIndex (u : unstable) : option Z :=
  match u_snapshot u with
  | Some s => Some (snIndex s +w 1)
  | None => None
  end.

Definition maybeLastIndex (u : unstable) : option Z :=
  if negb (zlen (u_entries u) =? 0) then Some (u_offset u +w zlen (u_entries u) -w 1)
  else match u_snapshot u with
       | Some s => Some (snIndex s)
       | None => None
       end.

Definition maybeTerm (i : Z) (u : unstable) : outcome (option Z) :=
  if i <? u_offset u then
    match u_snapshot u with
    | Some s => if snIndex s =? i then Ret (Some (snTerm s)) else Ret None
    | None => Ret None
    end
  else
    match maybeLastIndex u with
    | None => Ret None
    | Some lastI =>
        if lastI <? i then Ret None
        else match u_snapshot u with
             | Some s => if i =? snIndex s then Ret (Some (snTerm s))
                         else e ← index (u_entries u) (i -w u_offset u); Ret (Some (eTerm e))
             | None => e ← index (u_entries u) (i -w u_offset u); Ret (Some (eTerm e))
             end
    end.

Definition u_stableTo (i t : Z) (u : unstable) : outcome unstable :=
  gt ← maybeTerm i u;
  match gt with
  | None => Ret u
  | Some gt =>
      if negb (gt =? t) || (i <? u_offset u) then Ret u
      else es ← slice_from (u_entries u) (i +w 1 -w u_offset u);
           Ret (mkUnstable (u_snapshot u) es (i +w 1))
  end.

Definition u_stableSnapTo (i : Z) (u : unstable) : unstable :=
  match u_snapshot u with
  | Some s => if snIndex s =? i then mkUnstable None (u_entries u) (u_offset u) else u
  | None => u
  end.

Definition u_restore (s : Snapshot) (u : unstable) : unstable :=
  mkUnstable (Some s) [] (snIndex s +w 1).

Definition truncateAppend (ents : list Entry) (u : unstable) : outcome unstable :=
  match ents with
  | [] => Ret u
  | e0 :: _ =>
      let first := eIndex e0 in
      if first =? u_offset u +w zlen (u_entries u) then
        Ret (mkUnstable (u_snapshot u) (u_entries u ++ ents) (u_offset u))
      else if first <=? u_offset u then
        Ret (mkUnstable (u_snapshot u) ents first)
      else
        keep ← slice_to (u_entries u) (first -w u_offset u);
        Ret (mkUnstable (u_snapshot u) (keep ++ ents) (u_offset u))
  end.

Record raftLog (S : Type) : Type := mkRaftLog {
  storage : S;
  unst : unstable;
  committed : Z;
  applied : Z
}.
Arguments mkRaftLog {S}.
Arguments storage {S}.
Arguments unst {S}.
Arguments committed {S}.
Arguments applied {S}.

Section raftLog.
Context {S : Type} `{LogStorage S}.

(** The error of [newLog] is a storage error. *)
Definition newLog (st : S) : outcome (result errkind (raftLog S)) :=
  f ← FirstIndex st;
  match f with
  | Err e => Ret (Err e)
  | Ok first =>
      la ← LastIndex st;
      match la with
      | Err e => Ret (Err e)
      | Ok lastI =>
          Ret (Ok (mkRaftLog st (mkUnstable None [] (lastI +w 1)) (first -w 1) (first -w 1)))
      end
  end.

Definition firstIndex (l : raftLog S) : outcome Z :=
  match maybeFirstIndex (unst l) with
  | Some i => Ret i
  | None => r ← FirstIndex (storage l);
            match r with Ok i => Ret i | Err _ => Panic PanicStorage end
  end.

Definition lastIndex (l : raftLog S) : outcome Z :=
  match maybeLastIndex (unst l) with
  | Some i => Ret i
  | None => r ← LastIndex (storage l);
            match r with Ok i => Ret i | Err _ => Panic PanicStorage end
  end.

Definition term (i : Z) (l : raftLog S) : outcome (result errkind Z) :=
  fi ← firstIndex l;
  li ← lastIndex l;
  if (i <? fi -w 1) || (li <? i) then Ret (Ok 0)
  else
    mt ← maybeTerm i (unst l);
    match mt with
    | Some t => Ret (Ok t)
    | None =>
        r ← TermOf i (storage l);
        match r with
        | Ok t => Ret (Ok t)
        | Err ErrCompacted => Ret (Err ErrCompacted)
        | Err ErrUnavailable => Ret (Err ErrUnavailable)
        | Err _ => Panic PanicStorage
        end
    end.

Definition lastTerm (l : raftLog S) : outcome Z :=
  li ← lastIndex l;
  r ← term li l;
  match r with Ok t => Ret t | Err _ => Panic PanicStorage end.

Definition matchTerm (i t : Z) (l : raftLog S) : outcome bool :=
  r ← term i l;
  match r with Ok gt => Ret (gt =? t) | Err _ => Ret false end.

Definition set_unst (u : unstable) (l : raftLog S) : raftLog S :=
  mkRaftLog (storage l) u (committed l) (applied l).
Definition set_committed (c : Z) (l : raftLog S) : raftLog S :=
  mkRaftLog (storage l) (unst l) c (applied l).
Definition set_applied (a : Z) (l : raftLog S) : raftLog S :=
  mkRaftLog (storage l) (unst l) (committed l) a.
Definition set_storage (st : S) (l : raftLog S) : raftLog S :=
  mkRaftLog st (unst l) (committed l) (applied l).

(** The new log and its last index. *)
Definition append (ents : list Entry) (l : raftLog S) : outcome (raftLog S * Z) :=
  if decide (ents = []) then li ← lastIndex l; Ret (l, li)
  else
    u ← truncateAppend ents (unst l);
    let l := set_unst u l in
    li ← lastIndex l; Ret (l, li).

Fixpoint findConflict (ents : list Entry) (l : raftLog S) : outcome Z :=
  match ents with
  | [] => Ret 0
  | e :: ents =>
      b ← matchTerm (eIndex e) (eTerm e) l;
      if negb b then Ret (eIndex e) else findConflict ents l
  end.

Definition commitTo (tocommit : Z) (l : raftLog S) : outcome (raftLog S) :=
  if committed l <? tocommit then
    li ← lastIndex l;
    if li <? tocommit then Panic PanicCommitRange
    else Ret (set_committed tocommit l)
  else Ret l.

(** [None] is the source's [(0, false)]. *)
Definition maybeAppend (idx logTerm commit : Z) (ents : list Entry) (l : raftLog S)
    : outcome (raftLog S * option Z) :=
  b ← matchTerm idx logTerm l;
  if negb b then Ret (l, None) else
  let lastnewi := idx +w zlen ents in
  conflict ← findConflict ents l;
  l ← (if conflict =? 0 then Ret l
       else if conflict <=? committed l then Panic PanicConflict
       else es ← slice_from ents (conflict -w (idx +w 1));
            '(l, _) ← append es l;
            Ret l);
  l ← commitTo (Z.min commit lastnewi) l;
  Ret (l, Some lastnewi).

Definition appliedTo (i : Z) (l : raftLog S) : outcome (raftLog S) :=
  if i =? 0 then Ret l
  else if (committed l <? i) || (i <? applied l) then Panic PanicApplied
  else Ret (set_applied i l).

Definition stableTo (i t : Z) (l : raftLog S) : outcome (raftLog S) :=
  u ← u_stableTo i t (unst l); Ret (set_unst u l).

Definition stableSnapTo (i : Z) (l : raftLog S) : raftLog S :=
  set_unst (u_stableSnapTo i (unst l)) l.

Definition log_restore (s : Snapshot) (l : raftLog S) : raftLog S :=
  mkRaftLog (storage l) (u_restore s (unst l)) (snIndex s)
    (if applied l <? snIndex s then snIndex s else applied l).

Definition slice (lo hi : Z) (l : raftLog S) : outcome (result errkind (list Entry)) :=
  if hi <=? lo then Ret (Ok []) else
  fi ← firstIndex l;
  if lo <? fi then Ret (Err ErrCompacted) else
  lastI ← lastIndex l;
  let hi := if lastI +w 1 <? hi then lastI +w 1 else hi in
  let uoff := u_offset (unst l) in
  se ← (if lo <? uoff then Entries lo (Z.min hi uoff) (storage l) else Ret (Ok []));
  match se with
  | Err e => Ret (Err e)
  | Ok se =>
      if uoff <? hi then
        let ulo := Z.max lo uoff in
        ue ← slice_of (u_entries (unst l)) (ulo -w uoff) (hi -w uoff);
        Ret (Ok (se ++ ue))
      else Ret (Ok se)
  end.

Definition nextCommittedEnts (l : raftLog S) : outcome (list Entry) :=
  let lo := applied l +w 1 in
  let hi := committed l +w 1 in
  if hi <=? lo then Ret [] else
  fi ← firstIndex l;
  let lo := if lo <? fi then fi else lo in
  if hi <=? lo then Ret [] else
  r ← slice lo hi l;
  match r with Ok es => Ret es | Err _ => Panic PanicStorage end.

Definition hasNextCommittedEnts (l : raftLog S) : outcome bool :=
  fi ← firstIndex l;
  Ret (Z.max (applied l +w 1) fi <? committed l +w 1).

Definition isUpToDate (lasti t : Z) (l : raftLog S) : outcome bool :=
  lt ← lastTerm l;
  li ← lastIndex l;
  Ret ((lt <? t) || ((t =? lt) && (li <=? lasti))).

(** [t, _ := l.term(maxIndex)]: the error is ignored and [t] is then 0. *)
Definition log_maybeCommit (maxIndex t : Z) (l : raftLog S) : outcome (raftLog S * bool) :=
  if committed l <? maxIndex then
    r ← term maxIndex l;
    let gt := match r with Ok gt => gt | Err _ => 0 end in
    if gt =? t then l ← commitTo maxIndex l; Ret (l, true)
    else Ret (l, false)
  else Ret (l, false).

End raftLog.

(** ** The abstract log

    What a [raftLog] stands for: a compacted prefix known by the index and the
    term of its last entry, and the entries above it. *)
Record alog : Type := mkALog {
  a_base : Z;
  a_bterm : Z;
  a_ents : list Entry
}.

Definition a_last (a : alog) : Z := a_base a + zlen (a_ents a).
Definition a_get (a : alog) (i : Z) : option Entry :=
  if i <=? a_base a then None else a_ents a !! Z.to_nat (i - a_base a - 1).
Definition a_term (a : alog) (i : Z) : Z :=
  if i =? a_base a then a_bterm a
  else match a_get a i with Some e => eTerm e | None => 0 end.
Definition a_lastTerm (a : alog) : Z := a_term a (a_last a).
(** The entries of [lo, hi). *)
Definition a_slice (a : alog) (lo hi : Z) : list Entry :=
  take (Z.to_nat (hi - lo)) (drop (Z.to_nat (lo - a_base a - 1)) (a_ents a)).
(** Keeps the entries below [i] and puts [es] from [i] on. *)
Definition a_splice (a : alog) (i : Z) (es : list Entry) : alog :=
  mkALog (a_base a) (a_bterm a) (take (Z.to_nat (i - a_base a - 1)) (a_ents a) ++ es).
(** The first of [es] whose term the log does not hold at its index. *)
Fixpoint a_findConflict (a : alog) (es : list Entry) : Z :=
  match es with
  | [] => 0
  | e :: es => if a_term a (eIndex e) =? eTerm e then a_findConflict a es else eIndex e
  end.
(** What AppendEntries with the entry at [idx] matching makes of the log. *)
Definition a_accept (a : alog) (idx : Z) (es : list Entry) : alog :=
  let c := a_findConflict a es in
  if c =? 0 then a else a_splice a c (drop (Z.to_nat (c - idx - 1)) es).
Definition a_upToDate (a : alog) (lasti t : Z) : bool :=
  (a_lastTerm a <? t) || ((t =? a_lastTerm a) && (a_last a <=? lasti)).

Definition alog_wf (a : alog) : Prop :=
  0 ≤ a_base a ∧ a_last a < u64_mod - 1 ∧ contiguous (a_base a + 1) (a_ents a).

(** ** Lemmas on the abstract log *)

Lemma a_term_pos a i : a_term a i ≠ 0 → a_base a ≤ i ≤ a_last a.
Proof.
  unfold a_term, a_get, a_last. bdestr; try lia; try (pose proof (zlen_nonneg (a_ents a)); lia).
  destruct (a_ents a !! _) eqn:E; [|done]. apply lookup_lt_Some in E. unfold zlen. lia.
Qed.

(** All of [es] matches, or the conflict is the first mismatch and lies at most
    one past the end. *)
Lemma a_findConflict_spec a idx es :
  contiguous (idx + 1) es → Forall (λ e, eTerm e ≠ 0) es → 0 ≤ idx → a_base a ≤ idx ≤ a_last a →
  (a_findConflict a es = 0 ∧ idx + zlen es ≤ a_last a ∧
     Forall (λ e, a_term a (eIndex e) = eTerm e) es) ∨
  (∃ es1 e es2, es = es1 ++ e :: es2 ∧ a_findConflict a es = eIndex e ∧
     eIndex e = idx + 1 + zlen es1 ∧ eIndex e ≤ a_last a + 1 ∧ a_term a (eIndex e) ≠ eTerm e ∧
     Forall (λ e, a_term a (eIndex e) = eTerm e) es1).
Proof.
  revert idx. induction es as [|e es IH]; intros idx Hc Ht H0 Hi; simpl.
  { left. change (zlen (@nil Entry)) with 0. split_and!; [done|lia|done]. }
  destruct Hc as [He Hc]. inversion Ht as [|? ? Hte Htes]; subst.
  destruct (Z.eqb_spec (a_term a (eIndex e)) (eTerm e)) as [Hm|Hm].
  - assert (Hr : a_base a ≤ eIndex e ≤ a_last a) by (apply a_term_pos; congruence).
    rewrite <-He in Hc. destruct (IH (eIndex e)) as [(H1 & H2 & H3)|(es1 & e' & es2 & -> & H1 & H2 & H3 & H4 & H5)];
      [done|done|lia|done| |].
    + left. rewrite zlen_cons. split_and!; [done|lia|by constructor].
    + right. exists (e :: es1), e', es2. rewrite zlen_cons. split_and!; try done; [lia|by constructor].
  - right. exists [], e, es. change (zlen (@nil Entry)) with 0. split_and!; try done; lia.
Qed.

Section refinement.
Context {S : Type} `{LogStorageLaws S}.

Definition absLog (l : raftLog S) : alog :=
  match u_snapshot (unst l) with
  | Some s => mkALog (snIndex s) (snTerm s) (u_entries (unst l))
  | None =>
      let v := view (storage l) in
      mkALog (v_off v) (snTerm (v_snap v))
        (take (Z.to_nat (u_offset (unst l) - v_off v - 1)) (v_ents v) ++ u_entries (unst l))
  end.

(** The unstable part starts right above its snapshot, or where the storage's
    entries end or are overwritten. *)
Definition unst_wf (l : raftLog S) : Prop :=
  match u_snapshot (unst l) with
  | Some s => u_offset (unst l) = snIndex s + 1 ∧ 0 ≤ snIndex s
  | None => v_off (view (storage l)) + 1 ≤ u_offset (unst l) ≤ v_last (view (storage l)) + 1 ∧
            (u_entries (unst l) = [] → u_offset (unst l) = v_last (view (storage l)) + 1)
  end ∧
  contiguous (u_offset (unst l)) (u_entries (unst l)) ∧
  u_offset (unst l) + zlen (u_entries (unst l)) < u64_mod.

Definition log_wf (l : raftLog S) : Prop :=
  view_wf (view (storage l)) ∧ unst_wf l ∧
  a_base (absLog l) ≤ applied l ≤ committed l ∧ committed l ≤ a_last (absLog l).

(** ** The methods implement the abstract log *)

Lemma absLog_last l : log_wf l →
  a_last (absLog l) = u_offset (unst l) + zlen (u_entries (unst l)) - 1.
Proof.
  intros ((? & ? & ?) & ((Hu & ? & ?) & _)). unfold a_last, absLog, v_last in *.
  destruct (u_snapshot (unst l)); simpl; [lia|].
  rewrite zlen_app, zlen_take by lia. lia.
Qed.

Lemma absLog_wf l : log_wf l → alog_wf (absLog l).
Proof.
  intros Hwf. pose proof (absLog_last l Hwf) as Hl.
  destruct Hwf as ((? & ? & ?) & ((Hu & Hc & ?) & _)). unfold alog_wf. rewrite Hl.
  unfold absLog, v_last in *. destruct (u_snapshot (unst l)) as [s|]; simpl.
  - destruct Hu as [Hu ?]. rewrite <-Hu. split_and!; [done|lia|done].
  - split_and!; [lia|lia|]. apply contiguous_app. split; [by apply contiguous_take|].
    rewrite zlen_take by lia. by replace (_ + 1 + _) with (u_offset (unst l)) by lia.
Qed.

Lemma firstIndex_abs l : log_wf l → firstIndex l = Ret (a_base (absLog l) + 1).
Proof.
  intros Hwf. pose proof (absLog_wf l Hwf) as (? & Hl & _).
  destruct Hwf as (Hv & ((Hu & ? & ?) & _)). unfold firstIndex, maybeFirstIndex, absLog, a_last in *.
  destruct (u_snapshot (unst l)); simpl in *.
  - pose proof (zlen_nonneg (u_entries (unst l))). by rewrite w64_id by lia.
  - by rewrite law_first.
Qed.

Lemma lastIndex_abs l : log_wf l → lastIndex l = Ret (a_last (absLog l)).
Proof.
  intros Hwf. pose proof (absLog_wf l Hwf) as (? & ? & _). rewrite absLog_last in * by done.
  destruct Hwf as (Hv & ((Hu & ? & ?) & _)). unfold lastIndex, maybeLastIndex.
  pose proof (zlen_nonneg (u_entries (unst l))).
  assert (0 < u_offset (unst l)).
  { destruct (u_snapshot (unst l)); [lia|]. destruct Hv. lia. }
  destruct (Z.eqb_spec (zlen (u_entries (unst l))) 0) as [Hz|Hz]; simpl.
  - destruct (u_snapshot (unst l)); simpl; [f_equal; lia|]. rewrite law_last by done. simpl.
    apply zlen_zero in Hz as Hn. destruct Hu as [_ Hu]. specialize (Hu Hn). f_equal. lia.
  - rewrite !w64_id by (rewrite ?w64_id; lia). done.
Qed.

Lemma maybeTerm_abs l i : log_wf l → a_base (absLog l) ≤ i ≤ a_last (absLog l) →
  maybeTerm i (unst l) =
    Ret (if (i <? u_offset (unst l)) && negb (bool_decide (is_Some (u_snapshot (unst l))))
         then None else Some (a_term (absLog l) i)).
Proof.
  intros Hwf Hi. pose proof (absLog_last l Hwf) as Hlast. pose proof (absLog_wf l Hwf) as (? & ? & _).
  destruct Hwf as ((? & ? & ?) & ((Hu & ? & ?) & _)).
  pose proof (zlen_nonneg (u_entries (unst l))).
  unfold maybeTerm, maybeLastIndex, a_term, a_get, absLog, v_last in *.
  destruct (u_snapshot (unst l)) as [s|]; simpl in *.
  - destruct (Z.ltb_spec i (u_offset (unst l))).
    { replace (snIndex s) with i by lia. by rewrite !Z.eqb_refl. }
    destruct (Z.eqb_spec (zlen (u_entries (unst l))) 0); simpl; [lia|].
    rewrite !w64_id by (rewrite ?w64_id; lia). bdestr; try lia.
    destruct (index_total (u_entries (unst l)) (i - u_offset (unst l))) as (e & He & ->); [lia|].
    simpl. replace (i - snIndex s - 1) with (i - u_offset (unst l)) by lia. by rewrite He.
  - destruct (Z.ltb_spec i (u_offset (unst l))); [done|].
    destruct (Z.eqb_spec (zlen (u_entries (unst l))) 0); simpl; [lia|].
    rewrite !w64_id by (rewrite ?w64_id; lia). bdestr; try lia.
    destruct (index_total (u_entries (unst l)) (i - u_offset (unst l))) as (e & He & ->); [lia|].
    simpl. rewrite lookup_app_r; rewrite length_take_le; unfold zlen in *; try lia.
    replace (_ - _)%nat with (Z.to_nat (i - u_offset (unst l))) by lia. by rewrite He.
Qed.

(** [term] never fails on a well-formed log: indices out of range have term 0. *)
Lemma term_abs l i : log_wf l → is_u64 i → term i l = Ret (Ok (a_term (absLog l) i)).
Proof.
  intros Hwf Hi. unfold term. rewrite firstIndex_abs, lastIndex_abs by done. simpl.
  pose proof (absLog_wf l Hwf) as (Hb & Hl & _). pose proof (zlen_nonneg (a_ents (absLog l))).
  unfold a_last in Hl. rewrite w64_id by lia. rewrite Z.add_simpl_r.
  destruct (Z.ltb_spec i (a_base (absLog l))) as [Hlt|Hge]; simpl.
  { unfold a_term, a_get. bdestr; try lia; done. }
  destruct (Z.ltb_spec (a_last (absLog l)) i) as [Hgt|Hle]; simpl.
  { unfold a_term, a_get, a_last in *. bdestr; try lia.
    rewrite lookup_ge_None_2; [done|]. unfold zlen in *. lia. }
  rewrite maybeTerm_abs by done. simpl.
  destruct ((i <? u_offset (unst l)) && _) eqn:E; [|done].
  apply andb_prop in E as [E1 E2]. apply Z.ltb_lt in E1. apply negb_true_iff, bool_decide_eq_false in E2.
  destruct Hwf as (Hv & (Hu & _) & _).
  unfold absLog, a_term, a_get in *. destruct (u_snapshot (unst l)) as [s|]; [by destruct E2|]. simpl in *.
  rewrite law_term by done. simpl. unfold view_term, v_last in *. destruct Hv as (? & ? & ?).
  bdestr; try lia; [done|]. destruct Hu as [Hu _].
  destruct (lookup_lt_is_Some_2 (v_ents (view (storage l))) (Z.to_nat (i - v_off (view (storage l)) - 1))) as [e He].
  { unfold zlen in *. lia. }
  rewrite He, lookup_app_l, lookup_take_lt, He; [done|lia|].
  rewrite length_take_le; unfold zlen in *; lia.
Qed.

Lemma log_last_u64 l : log_wf l → is_u64 (a_last (absLog l)).
Proof.
  intros (? & ? & _)%absLog_wf. unfold a_last in *. pose proof (zlen_nonneg (a_ents (absLog l))).
  unfold is_u64. lia.
Qed.
Lemma lastTerm_abs l : log_wf l → lastTerm l = Ret (a_lastTerm (absLog l)).
Proof.
  intros Hwf. unfold lastTerm. rewrite lastIndex_abs by done. simpl.
  by rewrite term_abs by auto using log_last_u64.
Qed.
Lemma matchTerm_abs l i t : log_wf l → is_u64 i →
  matchTerm i t l = Ret (a_term (absLog l) i =? t).
Proof. intros. unfold matchTerm. by rewrite term_abs. Qed.
Lemma isUpToDate_abs l lasti t : log_wf l → isUpToDate lasti t l = Ret (a_upToDate (absLog l) lasti t).
Proof. intros. unfold isUpToDate. by rewrite lastTerm_abs, lastIndex_abs. Qed.

Lemma findConflict_abs l es : log_wf l → Forall (λ e, is_u64 (eIndex e)) es →
  findConflict es l = Ret (a_findConflict (absLog l) es).
Proof.
  intros Hwf. induction 1 as [|e es He _ IH]; [done|]. simpl. rewrite matchTerm_abs by done. simpl.
  by destruct (a_term (absLog l) (eIndex e) =? eTerm e).
Qed.

(** The effect of a method on the log seen from outside: the abstract log, the
    watermarks, and an untouched storage. *)
Definition log_becomes (l : raftLog S) (a : alog) (c p : Z) (l' : raftLog S) : Prop :=
  log_wf l' ∧ absLog l' = a ∧ committed l' = c ∧ applied l' = p ∧ storage l' = storage l.

Lemma log_becomes_refl l : log_wf l → log_becomes l (absLog l) (committed l) (applied l) l.
Proof. done. Qed.

Lemma log_becomes_marks l c p :
  log_wf l → a_base (absLog l) ≤ p ≤ c → c ≤ a_last (absLog l) →
  log_becomes l (absLog l) c p (mkRaftLog (storage l) (unst l) c p).
Proof. intros (? & ? & _) ? ?. by split_and!. Qed.

Lemma commitTo_abs l c : log_wf l → c ≤ a_last (absLog l) →
  ∃ l', commitTo c l = Ret l' ∧ log_becomes l (absLog l) (Z.max (committed l) c) (applied l) l'.
Proof.
  intros Hwf Hc. unfold commitTo. pose proof Hwf as (_ & _ & ? & ?).
  destruct (Z.ltb_spec (committed l) c).
  - rewrite lastIndex_abs by done. simpl. destruct (Z.ltb_spec (a_last (absLog l)) c); [lia|].
    eexists; split; [done|]. rewrite Z.max_r by lia. apply log_becomes_marks; [done|lia|lia].
  - eexists; split; [done|]. rewrite Z.max_l by lia. by apply log_becomes_refl.
Qed.
(** ... and panics exactly when asked to commit what the log does not have. *)
Lemma commitTo_panic l c : log_wf l → a_last (absLog l) < c → commitTo c l = Panic PanicCommitRange.
Proof.
  intros Hwf Hc. unfold commitTo. pose proof Hwf as (_ & _ & ? & ?).
  destruct (Z.ltb_spec (committed l) c); [|lia].
  rewrite lastIndex_abs by done. simpl. destruct (Z.ltb_spec (a_last (absLog l)) c); [done|lia].
Qed.

Lemma appliedTo_abs l i : log_wf l → applied l ≤ i ≤ committed l →
  ∃ l', appliedTo i l = Ret l' ∧ log_becomes l (absLog l) (committed l) i l'.
Proof.
  intros Hwf Hi. pose proof Hwf as (_ & _ & ? & ?). pose proof (absLog_wf l Hwf) as (? & _ & _).
  unfold appliedTo. destruct (Z.eqb_spec i 0).
  { eexists; split; [done|]. replace i with (applied l) by lia. by apply log_becomes_refl. }
  destruct (Z.ltb_spec (committed l) i), (Z.ltb_spec i (applied l)); simpl; try lia.
  eexists; split; [done|]. apply log_becomes_marks; [done|lia|lia].
Qed.

Lemma a_last_splice a i es : a_base a < i ≤ a_last a + 1 →
  a_last (a_splice a i es) = i + zlen es - 1.
Proof.
  intros. unfold a_last, a_splice in *. simpl. rewrite zlen_app, zlen_take by lia. lia.
Qed.

Lemma truncateAppend_abs l e es :
  log_wf l → contiguous (eIndex e) (e :: es) → a_base (absLog l) < eIndex e ≤ a_last (absLog l) + 1 →
  eIndex e + zlen es < u64_mod - 1 →
  ∃ u, truncateAppend (e :: es) (unst l) = Ret u ∧ unst_wf (set_unst u l) ∧
    absLog (set_unst u l) = a_splice (absLog l) (eIndex e) (e :: es).
Proof.
  intros Hwf Hc Hi Hb. pose proof (absLog_last l Hwf) as Hlast. pose proof (absLog_wf l Hwf) as (? & ? & _).
  destruct Hwf as ((? & ? & ?) & (Hu & Hcu & ?) & _). rewrite Hlast in *.
  pose proof (zlen_nonneg (u_entries (unst l))). pose proof (zlen_nonneg es).
  assert (0 < u_offset (unst l)).
  { unfold absLog in *. destruct (u_snapshot (unst l)); simpl in *; lia. }
  assert (Hkeep : u_offset (unst l) ≤ eIndex e →
    let k := take (Z.to_nat (eIndex e - u_offset (unst l))) (u_entries (unst l)) in
    let u := mkUnstable (u_snapshot (unst l)) (k ++ e :: es) (u_offset (unst l)) in
    unst_wf (set_unst u l) ∧ absLog (set_unst u l) = a_splice (absLog l) (eIndex e) (e :: es)).
  { intros Hle k u. split; [split_and!; simpl|].
    - destruct (u_snapshot (unst l)); [done|]. destruct Hu. split; [done|]. by intros [? ?]%app_nil.
    - apply contiguous_app. split; [by apply contiguous_take|]. unfold k.
      rewrite zlen_take by lia. by replace (u_offset (unst l) + _) with (eIndex e) by lia.
    - unfold k. rewrite zlen_app, zlen_cons, zlen_take by lia. lia.
    - unfold absLog, a_splice in *. simpl. destruct (u_snapshot (unst l)) eqn:Es; simpl; f_equal.
      + subst k. do 3 f_equal. lia.
      + rewrite take_app, take_take, Nat.min_r, <-app_assoc by lia. do 2 f_equal. subst k.
        f_equal. rewrite length_take_le; unfold v_last, zlen in *; lia. }
  unfold truncateAppend. rewrite w64_id by lia.
  destruct (Z.eqb_spec (eIndex e) (u_offset (unst l) + zlen (u_entries (unst l)))) as [He|He].
  { eexists; split; [done|]. destruct Hkeep as [? ?]; [lia|].
    rewrite take_ge in * by (unfold zlen in *; lia). done. }
  destruct (Z.leb_spec (eIndex e) (u_offset (unst l))) as [Hle|Hgt].
  - eexists; split; [done|]. destruct (u_snapshot (unst l)) eqn:Es.
    + unfold absLog in Hi. rewrite Es in Hi. simpl in Hi. destruct Hkeep as [Hw Ha]; [lia|].
      replace (eIndex e) with (u_offset (unst l)) in * by lia.
      rewrite Z.sub_diag in Hw, Ha. simpl in Hw, Ha. done.
    + split; [split_and!; simpl; [|done|rewrite zlen_cons; lia]|].
      * unfold absLog, a_splice in *. rewrite Es in *. simpl in *. split; [lia|done].
      * unfold absLog, a_splice in *. rewrite Es in *. simpl in *. f_equal. f_equal.
        rewrite take_app_le, take_take, Nat.min_l; [done|lia|].
        rewrite length_take_le; unfold v_last, zlen in *; lia.
  - rewrite w64_id, slice_to_ok by lia. simpl. eexists; split; [done|]. apply Hkeep. lia.
Qed.

Lemma append_abs l e es :
  log_wf l → contiguous (eIndex e) (e :: es) → committed l < eIndex e ≤ a_last (absLog l) + 1 →
  eIndex e + zlen es < u64_mod - 1 →
  ∃ l', append (e :: es) l = Ret (l', eIndex e + zlen es) ∧
    log_becomes l (a_splice (absLog l) (eIndex e) (e :: es)) (committed l) (applied l) l'.
Proof.
  intros Hwf Hc Hi Hb. pose proof Hwf as (Hv & _ & ? & ?).
  destruct (truncateAppend_abs l e es) as (u & Hu & Hw & Ha); [done|done|lia|done|].
  assert (Hlast : a_last (absLog (set_unst u l)) = eIndex e + zlen es).
  { rewrite Ha, a_last_splice, zlen_cons by lia. lia. }
  pose proof (zlen_nonneg es).
  assert (Hwf' : log_wf (set_unst u l)).
  { split; [done|]. split; [done|]. rewrite Hlast, Ha. simpl. lia. }
  unfold append. rewrite decide_False, Hu by done. simpl. rewrite lastIndex_abs by done. simpl.
  rewrite Hlast. eexists; split; [done|]. by split_and!.
Qed.

Lemma maybeAppend_reject l idx t c es :
  log_wf l → is_u64 idx → a_term (absLog l) idx ≠ t → maybeAppend idx t c es l = Ret (l, None).
Proof.
  intros Hwf Hi Ht. unfold maybeAppend. rewrite matchTerm_abs by done. simpl.
  by destruct (Z.eqb_spec (a_term (absLog l) idx) t).
Qed.

Lemma contiguous_u64 i es : 0 ≤ i → contiguous i es → i + zlen es ≤ u64_mod →
  Forall (λ e, is_u64 (eIndex e)) es.
Proof.
  intros Hi Hc Hb. apply Forall_lookup. intros k e He. pose proof (lookup_lt_Some _ _ _ He).
  apply (contiguous_lookup _ _ _ _ Hc) in He. unfold is_u64, zlen in *. lia.
Qed.

(** A payload whose predecessor entry matches and that does not contradict the
    committed prefix is accepted. *)
Definition append_fits (l : raftLog S) (idx : Z) (es : list Entry) : Prop :=
  contiguous (idx + 1) es ∧ Forall (λ e, eTerm e ≠ 0) es ∧
  a_base (absLog l) ≤ idx ≤ a_last (absLog l) ∧ idx + zlen es < u64_mod - 1.
Definition no_committed_conflict (l : raftLog S) (es : list Entry) : Prop :=
  a_findConflict (absLog l) es = 0 ∨ committed l < a_findConflict (absLog l) es.

Lemma maybeAppend_abs l idx c es :
  log_wf l → append_fits l idx es → no_committed_conflict l es →
  ∃ l', maybeAppend idx (a_term (absLog l) idx) c es l = Ret (l', Some (idx + zlen es)) ∧
    log_becomes l (a_accept (absLog l) idx es)
      (Z.max (committed l) (Z.min c (idx + zlen es))) (applied l) l'.
Proof.
  intros Hwf (Hc & Ht & Hi & Hb) Hnc. pose proof (absLog_wf l Hwf) as (? & ? & _).
  pose proof (zlen_nonneg es).
  unfold maybeAppend. rewrite matchTerm_abs, Z.eqb_refl by (done || unfold is_u64; lia). simpl.
  rewrite findConflict_abs; [|done|by apply (contiguous_u64 (idx + 1)); [lia|done|lia]]. simpl.
  rewrite (w64_id (idx + 1)), (w64_id (idx + zlen es)) by lia. unfold a_accept.
  destruct (a_findConflict_spec (absLog l) idx es) as [(Hf1 & Hf2 & Hf3)|(es1 & e & es2 & Hes & Hf1 & Hf2 & Hf3 & Hf4 & Hf5)];
    [done|done|lia|done| |].
  - rewrite Hf1. simpl. destruct (commitTo_abs l (Z.min c (idx + zlen es))) as (l' & -> & Hl'); [done|lia|].
    simpl. eauto.
  - rewrite Hf1 in *. pose proof (zlen_nonneg es1).
    destruct (Z.eqb_spec (eIndex e) 0); [lia|]. destruct Hnc as [?|Hnc]; [lia|].
    destruct (Z.leb_spec (eIndex e) (committed l)); [lia|].
    assert (Hd : drop (Z.to_nat (eIndex e - idx - 1)) es = e :: es2).
    { rewrite Hes, drop_app_length'; [done|]. unfold zlen in *. lia. }
    assert (Hlen : zlen es = zlen es1 + 1 + zlen es2) by (rewrite Hes, zlen_app, zlen_cons; lia).
    pose proof (zlen_nonneg es2).
    rewrite w64_id, slice_from_ok by lia. simpl.
    replace (eIndex e - (idx + 1)) with (eIndex e - idx - 1) by lia. rewrite Hd.
    destruct (append_abs l e es2) as (l1 & -> & Hl1); [done| |lia|lia|].
    { rewrite Hes in Hc. apply contiguous_app in Hc as [_ Hc]. by rewrite Hf2. }
    simpl. destruct Hl1 as (Hwf1 & Ha1 & Hc1 & Hp1 & Hs1).
    destruct (commitTo_abs l1 (Z.min c (idx + zlen es))) as (l' & -> & Hl'); [done| |].
    { rewrite Ha1, a_last_splice, zlen_cons by lia. lia. }
    simpl. eexists; split; [done|]. destruct Hl' as (? & ? & ? & ? & ?).
    split_and!; congruence.
Qed.

Lemma slice_compacted l lo hi : log_wf l → lo < hi → lo ≤ a_base (absLog l) →
  slice lo hi l = Ret (Err ErrCompacted).
Proof.
  intros Hwf ? ?. unfold slice. destruct (Z.leb_spec hi lo); [lia|].
  rewrite firstIndex_abs by done. simpl. destruct (Z.ltb_spec lo (a_base (absLog l) + 1)); [done|lia].
Qed.

Lemma slice_abs l lo hi : log_wf l → a_base (absLog l) < lo ≤ a_last (absLog l) + 1 → lo < hi →
  slice lo hi l = Ret (Ok (a_slice (absLog l) lo (Z.min hi (a_last (absLog l) + 1)))).
Proof.
  intros Hwf Hlo Hhi. pose proof (absLog_last l Hwf) as Hlast. pose proof (absLog_wf l Hwf) as (? & ? & _).
  unfold slice. destruct (Z.leb_spec hi lo); [lia|].
  rewrite firstIndex_abs, lastIndex_abs by done. simpl.
  destruct (Z.ltb_spec lo (a_base (absLog l) + 1)); [lia|]. rewrite w64_id by lia.
  replace (if a_last (absLog l) + 1 <? hi then _ else _) with (Z.min hi (a_last (absLog l) + 1)) by (bdestr; lia).
  set (h := Z.min hi (a_last (absLog l) + 1)). assert (lo ≤ h ≤ a_last (absLog l) + 1) by lia.
  clearbody h. clear dependent hi. destruct Hwf as (Hv & (Hu & Hcu & ?) & _). pose proof Hv as (? & ? & ?).
  pose proof (zlen_nonneg (u_entries (unst l))). unfold absLog, a_slice, v_last in *.
  destruct (u_snapshot (unst l)) as [sn|]; simpl in *.
  - destruct (Z.ltb_spec lo (u_offset (unst l))); [lia|]. simpl.
    destruct (Z.ltb_spec (u_offset (unst l)) h).
    + rewrite Z.max_l, !w64_id, slice_of_ok by lia. simpl. do 3 f_equal; [lia|]. f_equal. lia.
    + by replace (h - lo) with 0 by lia.
  - set (n := Z.to_nat (u_offset (unst l) - v_off (view (storage l)) - 1)).
    set (d := Z.to_nat (lo - v_off (view (storage l)) - 1)). set (es := v_ents (view (storage l))) in *.
    assert (Hn : length (take n es) = n) by (rewrite length_take_le; unfold zlen in *; lia).
    assert (Ht : ∀ k, (k ≤ n)%nat → take k (take n es ++ u_entries (unst l)) = take k es).
    { intros k Hk. rewrite take_app_le, take_take, Nat.min_l by (rewrite ?Hn; lia). done. }
    rewrite take_drop_commute. replace (d + Z.to_nat (h - lo))%nat with (Z.to_nat (h - v_off (view (storage l)) - 1)) by lia.
    destruct (Z.ltb_spec lo (u_offset (unst l))).
    + rewrite law_entries by (done || unfold is_u64; lia). unfold view_entries, v_last. fold es. simpl.
      bdestr; try lia.
      * rewrite Z.min_r by lia. rewrite Z.max_r, Z.sub_diag, !w64_id, slice_of_ok by lia. simpl.
        do 2 f_equal. rewrite take_app_ge, Hn by (rewrite ?Hn; lia).
        rewrite drop_app_le by (rewrite Hn; lia). fold d. rewrite take_drop_commute.
        replace (d + Z.to_nat (u_offset (unst l) - lo))%nat with n by lia. do 3 f_equal. lia.
      * rewrite Z.min_l by lia. do 2 f_equal. rewrite Ht by lia. fold d. rewrite take_drop_commute.
        do 2 f_equal. lia.
    + simpl. destruct (Z.ltb_spec (u_offset (unst l)) h).
      * rewrite Z.max_l, !w64_id, slice_of_ok by lia. simpl. do 2 f_equal.
        rewrite take_app_ge, Hn by (rewrite ?Hn; lia). rewrite drop_app_ge, Hn by (rewrite ?Hn; lia).
        rewrite take_drop_commute. f_equal; [lia|]. f_equal. lia.
      * do 2 f_equal. rewrite drop_ge; [done|]. rewrite Ht by lia.
        rewrite length_take. lia.
Qed.

Lemma nextCommittedEnts_abs l : log_wf l →
  nextCommittedEnts l = Ret (a_slice (absLog l) (applied l + 1) (committed l + 1)).
Proof.
  intros Hwf. pose proof Hwf as (_ & _ & ? & ?). pose proof (absLog_wf l Hwf) as (? & ? & _).
  unfold nextCommittedEnts. rewrite !w64_id by lia.
  destruct (Z.leb_spec (committed l + 1) (applied l + 1)).
  { unfold a_slice. by replace (_ + 1 - (_ + 1)) with 0 by lia. }
  rewrite firstIndex_abs by done. simpl.
  destruct (Z.ltb_spec (applied l + 1) (a_base (absLog l) + 1)); [lia|].
  destruct (Z.leb_spec (committed l + 1) (applied l + 1)); [lia|].
  rewrite slice_abs by (done || lia). simpl. by rewrite Z.min_l by lia.
Qed.

Lemma hasNextCommittedEnts_abs l : log_wf l →
  hasNextCommittedEnts l = Ret (applied l <? committed l).
Proof.
  intros Hwf. pose proof Hwf as (_ & _ & ? & ?). pose proof (absLog_wf l Hwf) as (? & ? & _).
  unfold hasNextCommittedEnts. rewrite firstIndex_abs by done. simpl. rewrite !w64_id by lia.
  f_equal. bdestr; lia.
Qed.

Lemma log_maybeCommit_abs l i t : log_wf l → is_u64 i → t ≠ 0 →
  ∃ l', log_maybeCommit i t l = Ret (l', (committed l <? i) && (a_term (absLog l) i =? t)) ∧
    log_becomes l (absLog l)
      (if (committed l <? i) && (a_term (absLog l) i =? t) then i else committed l) (applied l) l'.
Proof.
  intros Hwf Hi Ht. unfold log_maybeCommit.
  destruct (Z.ltb_spec (committed l) i); simpl; [|by eauto using log_becomes_refl].
  rewrite term_abs by done. simpl.
  destruct (Z.eqb_spec (a_term (absLog l) i) t) as [Hm|]; [|by eauto using log_becomes_refl].
  assert (a_base (absLog l) ≤ i ≤ a_last (absLog l)) by (apply a_term_pos; congruence).
  destruct (commitTo_abs l i) as (l' & -> & Hl'); [done|lia|]. simpl.
  rewrite Z.max_r in Hl' by lia. eauto.
Qed.

Lemma log_restore_abs l s : log_wf l → committed l < snIndex s < u64_mod - 1 →
  log_becomes l (mkALog (snIndex s) (snTerm s) []) (snIndex s) (snIndex s) (log_restore s l).
Proof.
  intros Hwf ?. pose proof (absLog_wf l Hwf) as (? & ? & _). destruct Hwf as (Hv & _ & ? & ?).
  unfold log_restore. rewrite (proj2 (Z.ltb_lt _ _)) by lia.
  assert (Ha : absLog (mkRaftLog (storage l) (u_restore s (unst l)) (snIndex s) (snIndex s)) =
               mkALog (snIndex s) (snTerm s) []) by done.
  split_and!; try done. split; [done|]. rewrite Ha. unfold a_last. simpl.
  change (zlen (@nil Entry)) with 0. split; [|lia].
  split_and!; simpl; try done; rewrite ?w64_id by lia; change (zlen (@nil Entry)) with 0; lia.
Qed.

Lemma newLog_abs (st : S) : view_wf (view st) →
  ∃ l, newLog st = Ret (Ok l) ∧
    log_becomes (mkRaftLog st (unst l) 0 0)
      (mkALog (v_off (view st)) (snTerm (v_snap (view st))) (v_ents (view st)))
      (v_off (view st)) (v_off (view st)) l.
Proof.
  intros Hv. pose proof Hv as (? & ? & ?). pose proof (zlen_nonneg (v_ents (view st))).
  unfold newLog. rewrite law_first by done. simpl. rewrite law_last by done. simpl.
  unfold v_last in *. rewrite Z.add_simpl_r. rewrite !w64_id by lia.
  eexists; split; [done|].
  match goal with |- log_becomes _ ?a _ _ ?l => assert (Ha : absLog l = a) end.
  { unfold absLog. simpl. f_equal. rewrite app_nil_r. apply take_ge. unfold zlen in *. lia. }
  split_and!; try done. split; [done|]. rewrite Ha. unfold a_last. simpl. split; [|lia].
  unfold unst_wf, v_last. simpl. change (zlen (@nil Entry)) with 0. split_and!; try done; lia.
Qed.

End refinement.
