(* ===== verification/ReadOnly.v ===== *)
(** * Pending ReadIndex requests (src/raft/readonly.go)

    [readOnly] holds the linearizable reads that wait for a heartbeat quorum:
    a map from the request's context to its status and a FIFO queue of
    contexts.  The invariant is that the two agree; a confirmed context
    releases the queue up to and including itself, in order. *)

From S2P Require Import Prelude RaftTypes.

Record readIndexStatus : Type := mkReadIndexStatus {
  ri_index : Z;
  ri_req : Message;
  ri_acks : gset Z
}.

Record readOnly : Type := mkReadOnly {
  pendingReadIndex : gmap (list byte) readIndexStatus;
  readIndexQueue : list (list byte)
}.

Definition newReadOnly : readOnly := mkReadOnly ∅ [].

Definition addRequest (idx : Z) (m : Message) (ro : readOnly) : readOnly :=
  let s := mContext m in
  match pendingReadIndex ro !! s with
  | Some _ => ro
  | None => mkReadOnly (<[s := mkReadIndexStatus idx m ∅]> (pendingReadIndex ro))
                       (readIndexQueue ro ++ [s])
  end.

(** The new state and the number of acks recorded for [ctx]. *)
Definition recvAck (id : Z) (ctx : list byte) (ro : readOnly) : readOnly * Z :=
  match pendingReadIndex ro !! ctx with
  | None => (ro, 0)
  | Some rs =>
      let acks := {[ id ]} ∪ ri_acks rs in
      (mkReadOnly (<[ctx := mkReadIndexStatus (ri_index rs) (ri_req rs) acks]> (pendingReadIndex ro))
                  (readIndexQueue ro),
       Z.of_nat (size acks))
  end.

(** The scan of [advance]: the statuses met up to [target], whether [target]
    was found, and the queue after it. *)
Fixpoint advance_scan (m : gmap (list byte) readIndexStatus) (target : list byte)
    (q : list (list byte)) : list readIndexStatus * bool * list (list byte) :=
  match q with
  | [] => ([], false, [])
  | ctx :: q =>
      match m !! ctx with
      | None => advance_scan m target q
      | Some rs =>
          if decide (ctx = target) then ([rs], true, q)
          else let '(rss, found, rest) := advance_scan m target q in (rs :: rss, found, rest)
      end
  end.

Definition advance (ctx : list byte) (ro : readOnly) : readOnly * list readIndexStatus :=
  let '(rss, found, rest) := advance_scan (pendingReadIndex ro) ctx (readIndexQueue ro) in
  if found : bool then
    (mkReadOnly (foldl (λ m rs, delete (mContext (ri_req rs)) m) (pendingReadIndex ro) rss) rest, rss)
  else (ro, []).

Definition lastPendingRequestCtx (ro : readOnly) : outcome (list byte) :=
  if zlen (readIndexQueue ro) =? 0 then Ret [] else
  ctx ← index (readIndexQueue ro) (zlen (readIndexQueue ro) - 1);
  match pendingReadIndex ro !! ctx with
  | Some rs => Ret (mContext (ri_req rs))
  | None => Panic PanicNil
  end.

(** ** Invariant *)

Definition ro_wf (ro : readOnly) : Prop :=
  NoDup (readIndexQueue ro) ∧
  (∀ ctx, ctx ∈ readIndexQueue ro ↔ is_Some (pendingReadIndex ro !! ctx)) ∧
  (∀ ctx rs, pendingReadIndex ro !! ctx = Some rs → mContext (ri_req rs) = ctx).

Lemma newReadOnly_wf : ro_wf newReadOnly.
Proof.
  split_and!; simpl; [constructor| |].
  - intros ctx. rewrite lookup_empty, elem_of_nil. split; [done|by intros []].
  - intros ctx rs. by rewrite lookup_empty.
Qed.

Lemma addRequest_wf idx m ro : ro_wf ro → ro_wf (addRequest idx m ro).
Proof.
  intros (Hnd & Hdom & Hctx). unfold addRequest.
  destruct (pendingReadIndex ro !! mContext m) eqn:E; [done|]. split_and!; simpl.
  - apply NoDup_app. split_and!; [done| |apply NoDup_singleton].
    intros x Hx ->%list_elem_of_singleton. apply Hdom in Hx. rewrite E in Hx. by destruct Hx.
  - intros ctx. rewrite elem_of_app, list_elem_of_singleton, Hdom, lookup_insert.
    case_decide; [subst; split; [eauto|by right]|].
    split; [intros [?|?]; congruence || done|by left].
  - intros ctx rs. rewrite lookup_insert. case_decide; [by intros [= <-]|apply Hctx].
Qed.

Lemma recvAck_wf id ctx ro : ro_wf ro → ro_wf (recvAck id ctx ro).1.
Proof.
  intros (Hnd & Hdom & Hctx). unfold recvAck.
  destruct (pendingReadIndex ro !! ctx) as [rs|] eqn:E; [|done]. split_and!; simpl; [done| |].
  - intros c. rewrite Hdom, lookup_insert. case_decide; [|done]. subst. rewrite E. by split; eauto.
  - intros c rs'. rewrite lookup_insert. case_decide; [|apply Hctx]. intros [= <-]. subst. simpl. eauto.
Qed.

Lemma advance_scan_spec m target q1 q2 :
  target ∉ q1 → (∀ c, c ∈ q1 ++ [target] → is_Some (m !! c)) →
  ∃ rss, advance_scan m target (q1 ++ target :: q2) = (rss, true, q2) ∧
    Forall2 (λ c rs, m !! c = Some rs) (q1 ++ [target]) rss.
Proof.
  induction q1 as [|c q1 IH]; simpl; intros Hn Hm.
  - destruct (Hm target) as [rs Hrs]; [by left|]. rewrite Hrs, decide_True by done.
    exists [rs]. split; [done|]. by constructor.
  - apply not_elem_of_cons in Hn as [Hne Hn].
    destruct (Hm c) as [rs Hrs]; [by left|]. rewrite Hrs, decide_False by done.
    destruct IH as (rss & -> & Hf); [done|intros c' Hc'; apply Hm; by right|].
    exists (rs :: rss). split; [done|]. by constructor.
Qed.

Lemma advance_scan_None m target q : target ∉ q → (advance_scan m target q).1.2 = false.
Proof.
  induction q as [|c q IH]; simpl; intros Hn; [done|]. apply not_elem_of_cons in Hn as [Hne Hn].
  destruct (m !! c); [|auto]. rewrite decide_False by done.
  specialize (IH Hn). destruct (advance_scan m target q) as [[rss f] rest]. done.
Qed.

Lemma lookup_delete_all (m : gmap (list byte) readIndexStatus) rss c :
  foldl (λ m rs, delete (mContext (ri_req rs)) m) m rss !! c =
    if decide (c ∈ map (λ rs, mContext (ri_req rs)) rss) then None else m !! c.
Proof.
  revert m. induction rss as [|rs rss IH]; intros m; cbn [foldl map].
  { by rewrite decide_False by apply not_elem_of_nil. }
  rewrite IH. destruct (decide (c = mContext (ri_req rs))) as [->|Hne].
  - rewrite lookup_delete_eq. case_decide; by rewrite ?decide_True by set_solver.
  - rewrite lookup_delete_ne by done.
    destruct (decide (c ∈ map (λ rs, mContext (ri_req rs)) rss)).
    + by rewrite decide_True by set_solver.
    + by rewrite decide_False by set_solver.
Qed.

(** A confirmed context releases exactly the queue through itself, oldest
    first, and leaves the younger requests pending. *)
Lemma advance_spec ctx ro : ro_wf ro → ctx ∈ readIndexQueue ro →
  ∃ q1 q2 rss ro', readIndexQueue ro = q1 ++ ctx :: q2 ∧ advance ctx ro = (ro', rss) ∧
    Forall2 (λ c rs, pendingReadIndex ro !! c = Some rs) (q1 ++ [ctx]) rss ∧
    readIndexQueue ro' = q2 ∧
    (∀ c, pendingReadIndex ro' !! c = if decide (c ∈ q1 ++ [ctx]) then None else pendingReadIndex ro !! c).
Proof.
  intros (Hnd & Hdom & Hctx) Hin. destruct (list_elem_of_split_l _ _ Hin) as (q1 & q2 & Hq & Hn).
  destruct (advance_scan_spec (pendingReadIndex ro) ctx q1 q2) as (rss & Hs & Hf); [done| |].
  { intros c Hc. apply Hdom. rewrite Hq. set_solver. }
  unfold advance. rewrite Hq, Hs. eexists q1, q2, rss, _. split_and!; try done.
  intros c. simpl. rewrite lookup_delete_all.
  assert (Hm : map (λ rs, mContext (ri_req rs)) rss = q1 ++ [ctx]).
  { revert Hf. generalize (q1 ++ [ctx]). clear -Hctx. intros q. induction 1; simpl; [done|].
    f_equal; [|done]. eauto. }
  by rewrite Hm.
Qed.

Lemma advance_not_pending ctx ro : ctx ∉ readIndexQueue ro → advance ctx ro = (ro, []).
Proof.
  intros Hn. unfold advance. pose proof (advance_scan_None (pendingReadIndex ro) ctx _ Hn) as Hf.
  by destruct (advance_scan _ _ _) as [[rss f] rest]; simpl in *; subst.
Qed.

Lemma advance_wf ctx ro : ro_wf ro → ro_wf (advance ctx ro).1.
Proof.
  intros Hwf. destruct (decide (ctx ∈ readIndexQueue ro)) as [Hin|Hn].
  2: { by rewrite advance_not_pending. }
  destruct (advance_spec ctx ro Hwf Hin) as (q1 & q2 & rss & ro' & Hq & -> & Hf & Hq' & Hp).
  destruct Hwf as (Hnd & Hdom & Hctx). rewrite Hq in Hnd. simpl.
  change (q1 ++ ctx :: q2) with (q1 ++ [ctx] ++ q2) in Hnd. rewrite app_assoc in Hnd.
  apply NoDup_app in Hnd as (_ & Hdis & Hnd2). split_and!.
  - by rewrite Hq'.
  - intros c. rewrite Hq', Hp. specialize (Hdom c). rewrite Hq in Hdom. case_decide as Hc.
    + split; [intros Hc2; by destruct (Hdis c)|by intros []].
    + rewrite <-Hdom. set_solver.
  - intros c rs. rewrite Hp. case_decide; [done|apply Hctx].
Qed.

(** The broadcast token always exists: no nil dereference. *)
Lemma lastPendingRequestCtx_ok ro : ro_wf ro →
  lastPendingRequestCtx ro = Ret (default [] (last (readIndexQueue ro))).
Proof.
  intros (_ & Hdom & Hctx). unfold lastPendingRequestCtx.
  destruct (Z.eqb_spec (zlen (readIndexQueue ro)) 0) as [Hz|Hz].
  { apply zlen_zero in Hz. by rewrite Hz. }
  destruct (index_total (readIndexQueue ro) (zlen (readIndexQueue ro) - 1)) as (c & Hc & ->).
  { pose proof (zlen_nonneg (readIndexQueue ro)). lia. }
  simpl. destruct (Hdom c) as [Hd _]. destruct Hd as [rs Hrs]; [by eapply list_elem_of_lookup_2|].
  rewrite Hrs, (Hctx c rs Hrs), last_lookup.
  replace (Init.Nat.pred _) with (Z.to_nat (zlen (readIndexQueue ro) - 1)) by (unfold zlen in *; lia).
  by rewrite Hc.
Qed.
#[export] Hint Resolve newReadOnly_wf addRequest_wf recvAck_wf advance_wf : raft.
