(* ===== verification/Raft.v ===== *)
(** * The consensus state machine (src/raft/raft.go, step.go, handlers.go,
      replication.go)

    [raft S] is the Go struct over a storage of type [S]; every method is a
    definition in the state monad [M (raft S)], whose panics are those of the
    source.  Peers are iterated in the order of the sorted slice [peers]. *)

From S2P Require Import Prelude RaftTypes Storage RaftLog ReadOnly.

Record raft (S : Type) : Type := mkRaft {
  cfg : Config;
  id : Z;
  Term : Z;
  Vote : Z;
  rlog : raftLog S;
  state : StateType;
  lead : Z;
  peers : list Z;
  prs : gmap Z progress;
  votes : gmap Z bool;
  msgs : list Message;
  readStates : list ReadState;
  readOnly_ : readOnly;
  pendingReadIndexMessages : list Message;
  electionElapsed : Z;
  heartbeatElapsed : Z;
  heartbeatTimeout : Z;
  randomizedElectionTimeout : Z;
  prevHardSt : HardState
}.
Arguments mkRaft {S}.
Arguments cfg {S}.
Arguments id {S}.
Arguments Term {S}.
Arguments Vote {S}.
Arguments rlog {S}.
Arguments state {S}.
Arguments lead {S}.
Arguments peers {S}.
Arguments prs {S}.
Arguments votes {S}.
Arguments msgs {S}.
Arguments readStates {S}.
Arguments readOnly_ {S}.
Arguments pendingReadIndexMessages {S}.
Arguments electionElapsed {S}.
Arguments heartbeatElapsed {S}.
Arguments heartbeatTimeout {S}.
Arguments randomizedElectionTimeout {S}.
Arguments prevHardSt {S}.

Section raft.
Context {S : Type}.

Definition set_cfg (v : Config) (r : raft S) : raft S :=
  mkRaft v (id r) (Term r) (Vote r) (rlog r) (state r) (lead r) (peers r) (prs r) (votes r) (msgs r) (readStates r) (readOnly_ r) (pendingReadIndexMessages r) (electionElapsed r) (heartbeatElapsed r) (heartbeatTimeout r) (randomizedElectionTimeout r) (prevHardSt r).
Definition set_id (v : Z) (r : raft S) : raft S :=
  mkRaft (cfg r) v (Term r) (Vote r) (rlog r) (state r) (lead r) (peers r) (prs r) (votes r) (msgs r) (readStates r) (readOnly_ r) (pendingReadIndexMessages r) (electionElapsed r) (heartbeatElapsed r) (heartbeatTimeout r) (randomizedElectionTimeout r) (prevHardSt r).
Definition set_Term (v : Z) (r : raft S) : raft S :=
  mkRaft (cfg r) (id r) v (Vote r) (rlog r) (state r) (lead r) (peers r) (prs r) (votes r) (msgs r) (readStates r) (readOnly_ r) (pendingReadIndexMessages r) (electionElapsed r) (heartbeatElapsed r) (heartbeatTimeout r) (randomizedElectionTimeout r) (prevHardSt r).
Definition set_Vote (v : Z) (r : raft S) : raft S :=
  mkRaft (cfg r) (id r) (Term r) v (rlog r) (state r) (lead r) (peers r) (prs r) (votes r) (msgs r) (readStates r) (readOnly_ r) (pendingReadIndexMessages r) (electionElapsed r) (heartbeatElapsed r) (heartbeatTimeout r) (randomizedElectionTimeout r) (prevHardSt r).
Definition set_rlog (v : raftLog S) (r : raft S) : raft S :=
  mkRaft (cfg r) (id r) (Term r) (Vote r) v (state r) (lead r) (peers r) (prs r) (votes r) (msgs r) (readStates r) (readOnly_ r) (pendingReadIndexMessages r) (electionElapsed r) (heartbeatElapsed r) (heartbeatTimeout r) (randomizedElectionTimeout r) (prevHardSt r).
Definition set_state (v : StateType) (r : raft S) : raft S :=
  mkRaft (cfg r) (id r) (Term r) (Vote r) (rlog r) v (lead r) (peers r) (prs r) (votes r) (msgs r) (readStates r) (readOnly_ r) (pendingReadIndexMessages r) (electionElapsed r) (heartbeatElapsed r) (heartbeatTimeout r) (randomizedElectionTimeout r) (prevHardSt r).
Definition set_lead (v : Z) (r : raft S) : raft S :=
  mkRaft (cfg r) (id r) (Term r) (Vote r) (rlog r) (state r) v (peers r) (prs r) (votes r) (msgs r) (readStates r) (readOnly_ r) (pendingReadIndexMessages r) (electionElapsed r) (heartbeatElapsed r) (heartbeatTimeout r) (randomizedElectionTimeout r) (prevHardSt r).
Definition set_peers (v : list Z) (r : raft S) : raft S :=
  mkRaft (cfg r) (id r) (Term r) (Vote r) (rlog r) (state r) (lead r) v (prs r) (votes r) (msgs r) (readStates r) (readOnly_ r) (pendingReadIndexMessages r) (electionElapsed r) (heartbeatElapsed r) (heartbeatTimeout r) (randomizedElectionTimeout r) (prevHardSt r).
Definition set_prs (v : gmap Z progress) (r : raft S) : raft S :=
  mkRaft (cfg r) (id r) (Term r) (Vote r) (rlog r) (state r) (lead r) (peers r) v (votes r) (msgs r) (readStates r) (readOnly_ r) (pendingReadIndexMessages r) (electionElapsed r) (heartbeatElapsed r) (heartbeatTimeout r) (randomizedElectionTimeout r) (prevHardSt r).
Definition set_votes (v : gmap Z bool) (r : raft S) : raft S :=
  mkRaft (cfg r) (id r) (Term r) (Vote r) (rlog r) (state r) (lead r) (peers r) (prs r) v (msgs r) (readStates r) (readOnly_ r) (pendingReadIndexMessages r) (electionElapsed r) (heartbeatElapsed r) (heartbeatTimeout r) (randomizedElectionTimeout r) (prevHardSt r).
Definition set_msgs (v : list Message) (r : raft S) : raft S :=
  mkRaft (cfg r) (id r) (Term r) (Vote r) (rlog r) (state r) (lead r) (peers r) (prs r) (votes r) v (readStates r) (readOnly_ r) (pendingReadIndexMessages r) (electionElapsed r) (heartbeatElapsed r) (heartbeatTimeout r) (randomizedElectionTimeout r) (prevHardSt r).
Definition set_readStates (v : list ReadState) (r : raft S) : raft S :=
  mkRaft (cfg r) (id r) (Term r) (Vote r) (rlog r) (state r) (lead r) (peers r) (prs r) (votes r) (msgs r) v (readOnly_ r) (pendingReadIndexMessages r) (electionElapsed r) (heartbeatElapsed r) (heartbeatTimeout r) (randomizedElectionTimeout r) (prevHardSt r).
Definition set_readOnly_ (v : readOnly) (r : raft S) : raft S :=
  mkRaft (cfg r) (id r) (Term r) (Vote r) (rlog r) (state r) (lead r) (peers r) (prs r) (votes r) (msgs r) (readStates r) v (pendingReadIndexMessages r) (electionElapsed r) (heartbeatElapsed r) (heartbeatTimeout r) (randomizedElectionTimeout r) (prevHardSt r).
Definition set_pendingReadIndexMessages (v : list Message) (r : raft S) : raft S :=
  mkRaft (cfg r) (id r) (Term r) (Vote r) (rlog r) (state r) (lead r) (peers r) (prs r) (votes r) (msgs r) (readStates r) (readOnly_ r) v (electionElapsed r) (heartbeatElapsed r) (heartbeatTimeout r) (randomizedElectionTimeout r) (prevHardSt r).
Definition set_electionElapsed (v : Z) (r : raft S) : raft S :=
  mkRaft (cfg r) (id r) (Term r) (Vote r) (rlog r) (state r) (lead r) (peers r) (prs r) (votes r) (msgs r) (readStates r) (readOnly_ r) (pendingReadIndexMessages r) v (heartbeatElapsed r) (heartbeatTimeout r) (randomizedElectionTimeout r) (prevHardSt r).
Definition set_heartbeatElapsed (v : Z) (r : raft S) : raft S :=
  mkRaft (cfg r) (id r) (Term r) (Vote r) (rlog r) (state r) (lead r) (peers r) (prs r) (votes r) (msgs r) (readStates r) (readOnly_ r) (pendingReadIndexMessages r) (electionElapsed r) v (heartbeatTimeout r) (randomizedElectionTimeout r) (prevHardSt r).
Definition set_heartbeatTimeout (v : Z) (r : raft S) : raft S :=
  mkRaft (cfg r) (id r) (Term r) (Vote r) (rlog r) (state r) (lead r) (peers r) (prs r) (votes r) (msgs r) (readStates r) (readOnly_ r) (pendingReadIndexMessages r) (electionElapsed r) (heartbeatElapsed r) v (randomizedElectionTimeout r) (prevHardSt r).
Definition set_randomizedElectionTimeout (v : Z) (r : raft S) : raft S :=
  mkRaft (cfg r) (id r) (Term r) (Vote r) (rlog r) (state r) (lead r) (peers r) (prs r) (votes r) (msgs r) (readStates r) (readOnly_ r) (pendingReadIndexMessages r) (electionElapsed r) (heartbeatElapsed r) (heartbeatTimeout r) v (prevHardSt r).
Definition set_prevHardSt (v : HardState) (r : raft S) : raft S :=
  mkRaft (cfg r) (id r) (Term r) (Vote r) (rlog r) (state r) (lead r) (peers r) (prs r) (votes r) (msgs r) (readStates r) (readOnly_ r) (pendingReadIndexMessages r) (electionElapsed r) (heartbeatElapsed r) (heartbeatTimeout r) (randomizedElectionTimeout r) v.

End raft.

Section core.
Context {S : Type} `{LogStorage S}.

(** Calls of the log's methods. *)
Definition readLog {A} (f : raftLog S → outcome A) : M (raft S) A :=
  reads (λ r, f (rlog r)).
Definition updLog (f : raftLog S → outcome (raftLog S)) : M (raft S) () :=
  λ r, l ← f (rlog r); Ret ((), set_rlog l r).
Definition runLog {A} (f : raftLog S → outcome (raftLog S * A)) : M (raft S) A :=
  λ r, '(l, a) ← f (rlog r); Ret (a, set_rlog l r).

(** ** raft.go *)

Definition quorum (r : raft S) : Z := zlen (peers r) / 2 + 1.

Definition hardState (r : raft S) : HardState := mkHardState (Term r) (Vote r) (committed (rlog r)).

Definition send (m : Message) : M (raft S) () :=
  r ← get;
  let m := set_mFrom (id r) m in
  let m := if (mTerm m =? 0) && negb (bool_decide (mType m = MsgPropose)) then
             match mType m with
             | MsgPreVote | MsgPreVoteResp => m
             | _ => set_mTerm (Term r) m
             end
           else m in
  modify (set_msgs (msgs r ++ [m])).

Definition resetRandomizedElectionTimeout : M (raft S) () :=
  r ← get;
  match cRand (cfg r) with
  | None => fails PanicNil
  | Some rnd =>
      '(x, rnd) ← reads (λ _, Intn (cElectionTicks (cfg r)) rnd);
      modify (set_cfg (set_cRand (Some rnd) (cfg r)));;
      modify (set_randomizedElectionTimeout (cElectionTicks (cfg r) + x))
  end.

(** The progress map built by [reset]. *)
Definition initProgress (self lastI : Z) (ids : list Z) : gmap Z progress :=
  foldl (λ m p, <[p := mkProgress (if p =? self then lastI else 0) (lastI +w 1)]> m) ∅ ids.

Definition reset (term : Z) : M (raft S) () :=
  r ← get;
  when (negb (Term r =? term)) (modify (set_Term term);; modify (set_Vote NoNode));;
  modify (set_lead NoNode);;
  modify (set_electionElapsed 0);;
  modify (set_heartbeatElapsed 0);;
  resetRandomizedElectionTimeout;;
  modify (set_votes ∅);;
  lastI ← readLog lastIndex;
  modify (set_prs (initProgress (id r) lastI (peers r)));;
  modify (set_readOnly_ newReadOnly);;
  modify (set_pendingReadIndexMessages []).

Definition pastElectionTimeout (r : raft S) : bool :=
  randomizedElectionTimeout r <=? electionElapsed r.

Definition promotable (r : raft S) : bool := bool_decide (is_Some (prs r !! id r)).

(** [r.prs[i]], dereferenced. *)
Definition progressOf (i : Z) : M (raft S) progress :=
  r ← get;
  match prs r !! i with Some pr => mret pr | None => fails PanicNil end.

Definition setProgress (i : Z) (pr : progress) : M (raft S) () :=
  r ← get; modify (set_prs (<[i := pr]> (prs r))).

(** ** replication.go: heartbeats *)

Definition bcastHeartbeatWithCtx (ctx : list byte) : M (raft S) () :=
  r ← get;
  forM (peers r) (λ i,
    if i =? id r then mret ()
    else
      pr ← progressOf i;
      r ← get;
      let commit := Z.min (Match pr) (committed (rlog r)) in
      send (set_mContext ctx (set_mCommit commit (Msg MsgHeartbeat i)))).

Definition bcastHeartbeat : M (raft S) () :=
  ctx ← reads (λ r, lastPendingRequestCtx (readOnly_ r));
  bcastHeartbeatWithCtx ctx.

(** ** step.go: ReadIndex *)

Definition committedEntryInCurrentTerm (r : raft S) : outcome bool :=
  t ← term (committed (rlog r)) (rlog r);
  match t with Ok t => Ret (t =? Term r) | Err _ => Ret false end.

Definition sendReadIndex (m : Message) : M (raft S) () :=
  r ← get;
  if zlen (peers r) =? 1 then
    modify (set_readStates (readStates r ++ [mkReadState (committed (rlog r)) (mContext m)]))
  else
    modify (set_readOnly_ (addRequest (committed (rlog r)) m (readOnly_ r)));;
    r ← get;
    modify (set_readOnly_ (recvAck (id r) (mContext m) (readOnly_ r)).1);;
    bcastHeartbeatWithCtx (mContext m).

Definition releasePendingReadIndexMessages : M (raft S) () :=
  r ← get;
  if negb (bool_decide (state r = StateLeader)) then mret () else
  b ← reads committedEntryInCurrentTerm;
  if negb b then mret () else
  let pending := pendingReadIndexMessages r in
  modify (set_pendingReadIndexMessages []);;
  forM pending sendReadIndex.

Definition stepReadIndex (m : Message) : M (raft S) error :=
  r ← get;
  if negb (bool_decide (state r = StateLeader)) then mret (Some ErrNotLeader) else
  b ← reads committedEntryInCurrentTerm;
  if negb b then
    modify (set_pendingReadIndexMessages (pendingReadIndexMessages r ++ [m]));; mret None
  else
    sendReadIndex m;; mret None.

(** ** raft.go: committing and appending *)

(** [r.prs[id].Match] for every peer, in order. *)
Fixpoint collectMatches (ids : list Z) (r : raft S) : outcome (list Z) :=
  match ids with
  | [] => Ret []
  | i :: ids =>
      match prs r !! i with
      | None => Panic PanicNil
      | Some pr => ms ← collectMatches ids r; Ret (Match pr :: ms)
      end
  end.

Definition maybeCommit : M (raft S) bool :=
  r ← get;
  matches ← reads (collectMatches (peers r));
  let matches := merge_sort Z.le matches in
  mci ← reads (λ _, index matches (zlen matches - quorum r));
  b ← runLog (log_maybeCommit mci (Term r));
  if negb b then mret false
  else releasePendingReadIndexMessages;; mret true.

(** The loop that stamps term and index on the entries. *)
Definition stampEntries (term li : Z) (es : list Entry) : list Entry :=
  imap (λ i e, mkEntry term (li +w 1 +w Z.of_nat i) (eType e) (eData e)) es.

Definition appendEntry (es : list Entry) : M (raft S) () :=
  r ← get;
  li ← readLog lastIndex;
  let es := stampEntries (Term r) li es in
  _ ← runLog (append es);
  pr ← progressOf (id r);
  li' ← readLog lastIndex;
  setProgress (id r) (maybeUpdate li' pr).1;;
  _ ← maybeCommit;
  mret ().

Definition becomeFollower (term leader : Z) : M (raft S) () :=
  reset term;;
  modify (set_state StateFollower);;
  modify (set_lead leader).

Definition becomePreCandidate : M (raft S) () :=
  r ← get;
  if decide (state r = StateLeader) then fails PanicTransition else
  modify (set_state StatePreCandidate);;
  modify (set_votes ∅);;
  modify (set_lead NoNode);;
  modify (set_electionElapsed 0);;
  resetRandomizedElectionTimeout.

Definition becomeCandidate : M (raft S) () :=
  r ← get;
  if decide (state r = StateLeader) then fails PanicTransition else
  reset (Term r +w 1);;
  modify (set_Vote (id r));;
  modify (set_state StateCandidate).

Definition becomeLeader : M (raft S) () :=
  r ← get;
  if decide (state r = StateFollower) then fails PanicTransition else
  reset (Term r);;
  modify (set_lead (id r));;
  modify (set_state StateLeader);;
  appendEntry [mkEntry 0 0 EntryNoop []].

(** ** raft.go: votes *)

Definition recordVote (i : Z) (granted : bool) : M (raft S) (bool * bool) :=
  r ← get;
  match votes r !! i with
  | None => modify (set_votes (<[i := granted]> (votes r)));; mret (granted, true)
  | Some g => mret (g, false)
  end.

Definition tallyGranted (r : raft S) : Z :=
  Z.of_nat (size (filter (λ kv, kv.2 = true) (votes r))).

Definition tallyRejected (r : raft S) : Z :=
  Z.of_nat (size (filter (λ kv, kv.2 = false) (votes r))).

(** The vote requests of [solicitVotes], to every other peer. *)
Definition sendVoteRequests (t : MessageType) (voteTerm : Z) : M (raft S) () :=
  li ← readLog lastIndex;
  lt ← readLog lastTerm;
  r ← get;
  forM (peers r) (λ i,
    if i =? id r then mret ()
    else send (set_mLogTerm lt (set_mLogIndex li (set_mTerm voteTerm (Msg t i))))).

(** [solicitVotes(MsgVote, voteTerm)]: a quorum of one becomes leader. *)
Definition solicitVotes_Vote (voteTerm : Z) : M (raft S) () :=
  r ← get;
  _ ← recordVote (id r) true;
  r ← get;
  if quorum r <=? tallyGranted r then becomeLeader
  else sendVoteRequests MsgVote voteTerm.

(** [solicitVotes]; the recursive call of the source is always at [MsgVote]. *)
Definition solicitVotes (t : MessageType) (voteTerm : Z) : M (raft S) () :=
  if decide (t = MsgPreVote) then
    r ← get;
    _ ← recordVote (id r) true;
    r ← get;
    if quorum r <=? tallyGranted r then
      becomeCandidate;;
      r ← get;
      solicitVotes_Vote (Term r)
    else sendVoteRequests MsgPreVote voteTerm
  else solicitVotes_Vote voteTerm.

Definition campaign : M (raft S) () :=
  r ← get;
  if cPreVote (cfg r) then
    becomePreCandidate;;
    r ← get;
    solicitVotes MsgPreVote (Term r +w 1)
  else
    becomeCandidate;;
    r ← get;
    solicitVotes MsgVote (Term r).

(** ** raft.go: ticks *)

Definition tickElection : M (raft S) () :=
  r ← get;
  modify (set_electionElapsed (electionElapsed r + 1));;
  r ← get;
  if promotable r && pastElectionTimeout r then
    modify (set_electionElapsed 0);;
    campaign
  else mret ().

Definition tickHeartbeat : M (raft S) () :=
  r ← get;
  modify (set_heartbeatElapsed (heartbeatElapsed r + 1));;
  r ← get;
  if heartbeatTimeout r <=? heartbeatElapsed r then
    modify (set_heartbeatElapsed 0);;
    bcastHeartbeat
  else mret ().

Definition tick : M (raft S) () :=
  r ← get;
  if decide (state r = StateLeader) then tickHeartbeat else tickElection.

(** ** replication.go: append and snapshot *)

Definition sendSnapshot (i : Z) : M (raft S) () :=
  sn ← readLog (λ l, SnapshotOf (storage l));
  match sn with
  | Err _ => mret ()
  | Ok sn => if snIndex sn =? 0 then mret ()
             else send (set_mSnapshot (Some sn) (Msg MsgInstallSnapshot i))
  end.

Definition entriesToSend (lo : Z) (r : raft S) : outcome (result errkind (list Entry)) :=
  lastI ← lastIndex (rlog r);
  if lastI <? lo then Ret (Ok []) else
  let hi := lastI +w 1 in
  let limit := cMaxEntriesPerAppend (cfg r) in
  let hi := if (0 <? limit) && (limit <? hi -w lo) then lo +w limit else hi in
  slice lo hi (rlog r).

Definition sendAppend (i : Z) : M (raft S) () :=
  r ← get;
  match prs r !! i with
  | None => mret ()
  | Some pr =>
      let prevIndex := Next pr -w 1 in
      pt ← readLog (term prevIndex);
      match pt with
      | Err _ => sendSnapshot i
      | Ok prevTerm =>
          ents ← reads (entriesToSend (Next pr));
          match ents with
          | Err _ => sendSnapshot i
          | Ok ents =>
              send (set_mCommit (committed (rlog r)) (set_mEntries ents
                     (set_mLogTerm prevTerm (set_mLogIndex prevIndex (Msg MsgAppend i)))))
          end
      end
  end.

Definition bcastAppend : M (raft S) () :=
  r ← get;
  forM (peers r) (λ i, if i =? id r then mret () else sendAppend i).

(** ** handlers.go *)

(** [findConflictByTerm]'s loop, on the number of steps left; it takes at most
    [index] steps. *)
Fixpoint findConflictByTerm_loop (fuel : nat) (idx tm : Z) (l : raftLog S) : outcome (Z * Z) :=
  match fuel with
  | O => Ret (idx, 0)
  | Datatypes.S fuel =>
      if 0 <? idx then
        t ← term idx l;
        match t with
        | Err _ => Ret (idx, 0)
        | Ok t => if t <=? tm then Ret (idx, t)
                  else findConflictByTerm_loop fuel (idx -w 1) tm l
        end
      else Ret (idx, 0)
  end.

Definition findConflictByTerm (idx tm : Z) (l : raftLog S) : outcome (Z * Z) :=
  findConflictByTerm_loop (Z.to_nat idx) idx tm l.

Definition handleAppend (m : Message) : M (raft S) () :=
  r ← get;
  if mLogIndex m <? committed (rlog r) then
    send (set_mLogIndex (committed (rlog r)) (Msg MsgAppendResp (mFrom m)))
  else
  res ← runLog (maybeAppend (mLogIndex m) (mLogTerm m) (mCommit m) (mEntries m));
  match res with
  | Some mlastIndex => send (set_mLogIndex mlastIndex (Msg MsgAppendResp (mFrom m)))
  | None =>
      lastI ← readLog lastIndex;
      '(hintIndex, hintTerm) ← readLog (findConflictByTerm (Z.min (mLogIndex m) lastI) (mLogTerm m));
      send (set_mHintTerm hintTerm (set_mRejectHint hintIndex (set_mReject true
             (set_mLogIndex (mLogIndex m) (Msg MsgAppendResp (mFrom m))))))
  end.

Definition handleHeartbeat (m : Message) : M (raft S) () :=
  lastI ← readLog lastIndex;
  updLog (commitTo (Z.min (mCommit m) lastI));;
  send (set_mContext (mContext m) (Msg MsgHeartbeatResp (mFrom m))).

(** [raft.restore]: whether the snapshot replaced the log. *)
Definition restore (sn : Snapshot) : M (raft S) bool :=
  r ← get;
  if snIndex sn <=? committed (rlog r) then mret false else
  b ← readLog (matchTerm (snIndex sn) (snTerm sn));
  if (b : bool) then updLog (commitTo (snIndex sn));; mret false
  else updLog (λ l, Ret (log_restore sn l));; mret true.

Definition handleSnapshot (m : Message) : M (raft S) () :=
  match mSnapshot m with
  | None => mret ()
  | Some sn =>
      b ← restore sn;
      if (b : bool) then
        lastI ← readLog lastIndex;
        send (set_mLogIndex lastI (Msg MsgInstallSnapshotResp (mFrom m)))
      else
        r ← get;
        send (set_mLogIndex (committed (rlog r)) (Msg MsgInstallSnapshotResp (mFrom m)))
  end.

(** [decrHint]'s scan, on the number of steps left; it takes at most [hint]
    steps. *)
Fixpoint decrHint_loop (fuel : nat) (hint ht : Z) (l : raftLog S) : outcome Z :=
  match fuel with
  | O => Ret hint
  | Datatypes.S fuel =>
      if 0 <? hint then
        t ← term hint l;
        match t with
        | Err _ => Ret hint
        | Ok t => if t <=? ht then Ret hint else decrHint_loop fuel (hint -w 1) ht l
        end
      else Ret hint
  end.

Definition decrHint (m : Message) (r : raft S) : outcome Z :=
  let hint := mRejectHint m in
  if 0 <? mHintTerm m then
    li ← lastIndex (rlog r);
    let hint := if li <? hint then li else hint in
    decrHint_loop (Z.to_nat hint) hint (mHintTerm m) (rlog r)
  else Ret hint.

Definition handleAppendResp (m : Message) : M (raft S) () :=
  r ← get;
  match prs r !! mFrom m with
  | None => mret ()
  | Some pr =>
      if mReject m then
        hint ← reads (decrHint m);
        let '(pr', ok) := maybeDecrTo (mLogIndex m) hint pr in
        setProgress (mFrom m) pr';;
        when ok (sendAppend (mFrom m))
      else
        let '(pr', updated) := maybeUpdate (mLogIndex m) pr in
        setProgress (mFrom m) pr';;
        when updated (b ← maybeCommit; when b bcastAppend)
  end.

Definition handleHeartbeatResp (m : Message) : M (raft S) () :=
  r ← get;
  match prs r !! mFrom m with
  | None => mret ()
  | Some pr => lastI ← readLog lastIndex; when (Match pr <? lastI) (sendAppend (mFrom m))
  end;;
  if zlen (mContext m) =? 0 then mret () else
  r ← get;
  let '(ro, n) := recvAck (mFrom m) (mContext m) (readOnly_ r) in
  modify (set_readOnly_ ro);;
  if n <? quorum r then mret () else
  r ← get;
  let '(ro, rss) := advance (mContext m) (readOnly_ r) in
  modify (set_readOnly_ ro);;
  modify (set_readStates (readStates r ++
    map (λ rs, mkReadState (ri_index rs) (mContext (ri_req rs))) rss)).

Definition stepFollower (m : Message) : M (raft S) () :=
  let heard := modify (set_electionElapsed 0);; modify (set_lead (mFrom m)) in
  match mType m with
  | MsgAppend => heard;; handleAppend m
  | MsgHeartbeat => heard;; handleHeartbeat m
  | MsgInstallSnapshot => heard;; handleSnapshot m
  | _ => mret ()
  end.

(** The branch of [stepCandidate] for the vote response of its phase. *)
Definition stepCandidateVote (m : Message) : M (raft S) () :=
  _ ← recordVote (mFrom m) (negb (mReject m));
  r ← get;
  if quorum r <=? tallyGranted r then
    if decide (state r = StatePreCandidate) then
      becomeCandidate;;
      r ← get;
      solicitVotes MsgVote (Term r)
    else
      becomeLeader;;
      bcastAppend
  else if quorum r <=? tallyRejected r then becomeFollower (Term r) NoNode
  else mret ().

Definition stepCandidate (m : Message) : M (raft S) () :=
  r ← get;
  let myVoteResp := if decide (state r = StatePreCandidate) then MsgPreVoteResp else MsgVoteResp in
  match mType m with
  | MsgAppend => becomeFollower (mTerm m) (mFrom m);; handleAppend m
  | MsgHeartbeat => becomeFollower (mTerm m) (mFrom m);; handleHeartbeat m
  | MsgInstallSnapshot => becomeFollower (mTerm m) (mFrom m);; handleSnapshot m
  | t => if decide (t = myVoteResp) then stepCandidateVote m else mret ()
  end.

Definition stepLeader (m : Message) : M (raft S) () :=
  match mType m with
  | MsgAppendResp => handleAppendResp m
  | MsgHeartbeatResp => handleHeartbeatResp m
  | MsgInstallSnapshotResp =>
      r ← get;
      match prs r !! mFrom m with
      | None => mret ()
      | Some pr =>
          setProgress (mFrom m) (maybeUpdate (mLogIndex m) pr).1;;
          sendAppend (mFrom m)
      end
  | _ => mret ()
  end.

(** ** step.go *)

Definition msgRespType (t : MessageType) : MessageType :=
  match t with
  | MsgAppend => MsgAppendResp
  | MsgHeartbeat => MsgHeartbeatResp
  | MsgInstallSnapshot => MsgInstallSnapshotResp
  | _ => MsgUnknown
  end.

Definition handleVoteRequest (m : Message) : M (raft S) () :=
  let respType := if decide (mType m = MsgPreVote) then MsgPreVoteResp else MsgVoteResp in
  upToDate ← readLog (isUpToDate (mLogIndex m) (mLogTerm m));
  r ← get;
  grant ← match mType m with
          | MsgPreVote => mret (upToDate && (Term r <? mTerm m))
          | MsgVote =>
              let canVote := (Vote r =? mFrom m) || ((Vote r =? NoNode) && (lead r =? NoNode)) ||
                             (Term r <? mTerm m) in
              let grant := canVote && upToDate in
              when grant (modify (set_Vote (mFrom m));; modify (set_electionElapsed 0));;
              mret grant
          | _ => mret false
          end;
  let resp := set_mReject (negb grant) (Msg respType (mFrom m)) in
  send (if decide (mType m = MsgPreVote) then set_mTerm (mTerm m) resp else resp).

Definition stepPropose (m : Message) : M (raft S) error :=
  r ← get;
  if negb (bool_decide (state r = StateLeader)) then mret (Some ErrNotLeader) else
  if decide (mEntries m = []) then mret None else
  appendEntry (map (λ e, mkEntry (eTerm e) (eIndex e) EntryNormal (eData e)) (mEntries m));;
  bcastAppend;;
  mret None.

(** The leader-stickiness test of [Step]. *)
Definition inLease (m : Message) (r : raft S) : bool :=
  (bool_decide (mType m = MsgVote) || bool_decide (mType m = MsgPreVote)) &&
  negb (lead r =? NoNode) && negb (Vote r =? mFrom m) &&
  (electionElapsed r <? cElectionTicks (cfg r)).

Definition rejectInLease (m : Message) : M (raft S) () :=
  r ← get;
  if decide (mType m = MsgPreVote)
  then send (set_mTerm (mTerm m) (set_mReject true (Msg MsgPreVoteResp (mFrom m))))
  else send (set_mTerm (Term r) (set_mReject true (Msg MsgVoteResp (mFrom m)))).

(** The last two switches of [Step]. *)
Definition stepRole (m : Message) : M (raft S) () :=
  match mType m with
  | MsgPreVote | MsgVote => handleVoteRequest m
  | _ =>
      r ← get;
      match state r with
      | StateFollower => stepFollower m
      | StatePreCandidate | StateCandidate => stepCandidate m
      | StateLeader => stepLeader m
      end
  end.

(** The reply to a message of an older term. *)
Definition stepStale (m : Message) : M (raft S) () :=
  r ← get;
  match mType m with
  | MsgAppend | MsgHeartbeat | MsgInstallSnapshot => send (Msg (msgRespType (mType m)) (mFrom m))
  | MsgPreVote => send (set_mReject true (set_mTerm (Term r) (Msg MsgPreVoteResp (mFrom m))))
  | _ => mret ()
  end.

(** The term bump of [Step] for a message of a newer term. *)
Definition stepNewer (m : Message) : M (raft S) () :=
  if bool_decide (mType m = MsgPreVote) ||
     (bool_decide (mType m = MsgPreVoteResp) && negb (mReject m)) then mret ()
  else becomeFollower (mTerm m) (if decide (mType m = MsgVote) then NoNode else mFrom m).

Definition Step (m : Message) : M (raft S) error :=
  match mType m with
  | MsgPropose => stepPropose m
  | MsgReadIndex => stepReadIndex m
  | _ =>
      r ← get;
      if inLease m r then rejectInLease m;; mret None
      else if mTerm m =? 0 then stepRole m;; mret None
      else if Term r <? mTerm m then stepNewer m;; stepRole m;; mret None
      else if mTerm m <? Term r then stepStale m;; mret None
      else stepRole m;; mret None
  end.

(** ** newRaft *)

Definition newRaft (c : Config) (st : S) : outcome (result errkind (raft S)) :=
  rl ← newLog st;
  match rl with
  | Err e => Ret (Err e)
  | Ok rl =>
      h ← HardStateOf st;
      match h with
      | Err e => Ret (Err e)
      | Ok hs =>
          let ps := merge_sort Z.le (cPeers c) in
          rl ← (if committed rl <? hsCommit hs then commitTo (hsCommit hs) rl else Ret rl);
          let r := mkRaft c (cID c) (hsTerm hs) (hsVote hs) rl StateFollower NoNode ps ∅ ∅ [] []
                     newReadOnly [] 0 0 (cHeartbeatTicks c) 0 zeroHardState in
          let r := set_prevHardSt (hardState r) r in
          '(_, r) ← becomeFollower (Term r) NoNode r;
          Ret (Ok r)
      end
  end.

End core.
