(* ===== verification/Node.v ===== *)
(** * The Node facade: Ready and Advance (src/raft/node.go)

    [Node] wraps [raft] and the batch handed out by the last [Ready].  The
    storage the driver writes to is the one inside the node's log: the Go
    program shares the object, the model keeps it in that one place. *)

From S2P Require Import Prelude RaftTypes Storage RaftLog ReadOnly Raft.

Record Node (S : Type) : Type := mkNode {
  n_r : raft S;
  pendingReady : option Ready
}.
Arguments mkNode {S}.
Arguments n_r {S}.
Arguments pendingReady {S}.

Inductive node_error : Type :=
| BadConfig (e : config_error)
| BadStorage (e : errkind).

Section Node.
Context {S : Type} `{LogStorage S}.

(** [NewNode]; [storage == nil] does not arise, the model's storage is a value. *)
Definition NewNode (c : Config) (st : S) : outcome (result node_error (Node S)) :=
  match validate c with
  | Some e => Ret (Err (BadConfig e))
  | None =>
      r ← newRaft c st;
      match r with
      | Err e => Ret (Err (BadStorage e))
      | Ok r => Ret (Ok (mkNode r None))
      end
  end.

(** Runs a method of the wrapped [raft]. *)
Definition onRaft {A} (c : M (raft S) A) : M (Node S) A :=
  zoom n_r (λ r n, mkNode r (pendingReady n)) c.

Definition Node_Tick : M (Node S) () := onRaft tick.
Definition Node_Step (m : Message) : M (Node S) error := onRaft (Step m).

Definition HasReady (n : Node S) : outcome bool :=
  match pendingReady n with
  | Some _ => Ret false
  | None =>
      let r := n_r n in
      if (0 <? zlen (msgs r)) || (0 <? zlen (readStates r)) then Ret true
      else if (0 <? zlen (u_entries (unst (rlog r)))) ||
              bool_decide (is_Some (u_snapshot (unst (rlog r)))) then Ret true
      else
        b ← hasNextCommittedEnts (rlog r);
        Ret ((b : bool) || negb (bool_decide (hardState r = prevHardSt r)))
  end.

Definition ReadyOf (r : raft S) : outcome Ready :=
  ces ← nextCommittedEnts (rlog r);
  let es := u_entries (unst (rlog r)) in
  let sn := u_snapshot (unst (rlog r)) in
  let hs := hardState r in
  let rhs := if bool_decide (hs = prevHardSt r) then None else Some hs in
  let sync := (0 <? zlen es) || bool_decide (is_Some sn) ||
    match rhs with
    | Some h => negb (hsTerm h =? hsTerm (prevHardSt r)) || negb (hsVote h =? hsVote (prevHardSt r))
    | None => false
    end in
  Ret (mkReady rhs es sn ces (msgs r) (readStates r) sync).

Definition Node_Ready : M (Node S) Ready :=
  rd ← reads (λ n, ReadyOf (n_r n));
  modify (λ n, mkNode (n_r n) (Some rd));;
  mret rd.

(** The body of [Advance] on the wrapped [raft], for the pending batch [rd]. *)
Definition advanceRaft (rd : Ready) : M (raft S) () :=
  match rdHardState rd with
  | Some h => modify (set_prevHardSt h)
  | None => mret ()
  end;;
  match last (rdEntries rd) with
  | Some e => updLog (stableTo (eIndex e) (eTerm e))
  | None => mret ()
  end;;
  match rdSnapshot rd with
  | Some sn => updLog (λ l, Ret (stableSnapTo (snIndex sn) l))
  | None => mret ()
  end;;
  match last (rdCommittedEntries rd) with
  | Some e => updLog (appliedTo (eIndex e))
  | None => mret ()
  end;;
  modify (set_msgs []);;
  modify (set_readStates []).

Definition Advance : M (Node S) () :=
  n ← get;
  match pendingReady n with
  | None => mret ()
  | Some rd =>
      onRaft (advanceRaft rd);;
      modify (λ n, mkNode (n_r n) None)
  end.

Definition Node_State (n : Node S) : StateType := state (n_r n).
Definition Node_Leader (n : Node S) : Z := lead (n_r n).
Definition Node_Term (n : Node S) : Z := Term (n_r n).

End Node.
