(* ===== verification/LogSpec.v ===== *)
(** * The contract of the raft log and of the ReadIndex queue

    Theorems on [RaftLog], [ReadOnly] and the configuration check, stated over
    any storage that keeps the [LogStorage] laws: what AppendEntries does to
    the entries, that the committed prefix is immutable, what is handed out to
    apply, where a rejected append makes the leader probe next, and the order
    in which reads are released. *)

From S2P Require Import Prelude RaftTypes Storage RaftLog ReadOnly Raft.

(** ** Reading an abstract log *)

Lemma a_get_splice_below a i es j : j < i → a_base a < i ≤ a_last a + 1 → a_get (a_splice a i es) j = a_get a j.
Proof.
  intros Hj Hi. unfold a_get, a_splice, a_last in *. simpl. destruct (Z.leb_spec j (a_base a)); [done|].
  pose proof (zlen_nonneg (a_ents a)).
  rewrite lookup_app_l; [|rewrite length_take; unfold zlen in *; lia]. apply lookup_take_lt. lia.
Qed.
Lemma a_get_splice_at a i es k :
  a_base a < i ≤ a_last a + 1 → a_get (a_splice a i es) (i + Z.of_nat k) = es !! k.
Proof.
  intros Hi. unfold a_get, a_splice, a_last in *. simpl. destruct (Z.leb_spec (i + Z.of_nat k) (a_base a)); [lia|].
  pose proof (zlen_nonneg (a_ents a)).
  rewrite lookup_app_r by (rewrite length_take; lia). f_equal. rewrite length_take. unfold zlen in *. lia.
Qed.
Lemma a_term_get a i e : a_get a i = Some e → a_term a i = eTerm e.
Proof.
  intros E. unfold a_term. rewrite E. unfold a_get in E. destruct (Z.leb_spec i (a_base a)); [done|].
  destruct (Z.eqb_spec i (a_base a)); [lia|done].
Qed.
Lemma a_get_range a i : a_base a < i ≤ a_last a → is_Some (a_get a i).
Proof.
  intros Hi. unfold a_get, a_last in *. destruct (Z.leb_spec i (a_base a)); [lia|]. apply lookup_lt_is_Some. unfold zlen in *. lia.
Qed.

(** What accepting an append does to the entries, read index by index. *)
Lemma a_accept_spec a idx es :
  alog_wf a → contiguous (idx + 1) es → Forall (λ e, eTerm e ≠ 0) es → a_base a ≤ idx ≤ a_last a →
  (∀ e, e ∈ es → a_term (a_accept a idx es) (eIndex e) = eTerm e) ∧
  (∀ i, i ≤ idx → a_get (a_accept a idx es) i = a_get a i) ∧
  (∀ i, i < a_findConflict a es → a_get (a_accept a idx es) i = a_get a i) ∧
  (a_findConflict a es = 0 → a_accept a idx es = a).
Proof.
  intros (H0 & _ & _) Hc Ht Hi. unfold a_accept.
  destruct (a_findConflict_spec a idx es Hc Ht ltac:(lia) Hi)
    as [(Hf1 & Hf2 & Hf3)|(es1 & e & es2 & Hes & Hf1 & Hf2 & Hf3 & Hf4 & Hf5)].
  - rewrite Hf1. simpl. rewrite Forall_forall in Hf3. split_and!; auto.
  - rewrite Hf1. pose proof (zlen_nonneg es1). destruct (Z.eqb_spec (eIndex e) 0); [lia|].
    assert (Hd : drop (Z.to_nat (eIndex e - idx - 1)) es = e :: es2).
    { rewrite Hes, drop_app_length'; [done|]. unfold zlen in *. lia. }
    rewrite Hd. split_and!; [|intros i Hi'; apply a_get_splice_below; lia..|lia].
    intros x Hx. rewrite Hes in Hx, Hc. apply contiguous_app in Hc as [Hc1 Hc2]. apply elem_of_app in Hx as [Hx|Hx].
    + rewrite Forall_forall in Hf5. specialize (Hf5 x Hx). apply list_elem_of_lookup in Hx as [k Hk].
      pose proof (lookup_lt_Some _ _ _ Hk). pose proof (contiguous_lookup _ _ _ _ Hc1 Hk). rewrite <-Hf5.
      unfold a_term. rewrite a_get_splice_below by (unfold zlen in *; lia). done.
    + apply list_elem_of_lookup in Hx as [k Hk]. apply a_term_get.
      rewrite (contiguous_lookup _ _ _ _ Hc2 Hk). replace (idx + 1 + zlen es1) with (eIndex e) by lia.
      by rewrite a_get_splice_at by lia.
Qed.

Section log.
Context {S : Type} `{LogStorageLaws S}.

(** AppendEntries, the follower's side.  When the entry before the batch
    matches and the batch does not contradict committed entries, the call
    succeeds; afterwards the log holds the batch at its indices, everything at
    or below the matching index is untouched, a batch the log already holds
    changes no entry, and the commit index moves to what the leader has
    committed of it. *)
Theorem append_accepts (l : raftLog S) idx c es :
  log_wf l → append_fits l idx es → no_committed_conflict l es →
  ∃ l', maybeAppend idx (a_term (absLog l) idx) c es l = Ret (l', Some (idx + zlen es)) ∧
    log_wf l' ∧ storage l' = storage l ∧
    (∀ e, e ∈ es → a_term (absLog l') (eIndex e) = eTerm e) ∧
    (∀ i, i ≤ idx → a_get (absLog l') i = a_get (absLog l) i) ∧
    (a_findConflict (absLog l) es = 0 → absLog l' = absLog l) ∧
    committed l' = Z.max (committed l) (Z.min c (idx + zlen es)).
Proof.
  intros Hwf Hf Hn. destruct (maybeAppend_abs l idx c es Hwf Hf Hn) as (l' & E & Hwf' & Ea & Ec & _ & Es).
  destruct Hf as (Hc & Ht & Hi & _).
  destruct (a_accept_spec (absLog l) idx es (absLog_wf l Hwf) Hc Ht Hi) as (H1 & H2 & _ & H4).
  exists l'. rewrite Ea, Ec. split_and!; auto.
Qed.

(** The committed prefix is immutable.  Whatever the batch and the commit
    index of an append whose predecessor matches, either the call panics or
    every entry up to the commit index is as before and the commit index did
    not fall. *)
Theorem committed_prefix_immutable (l : raftLog S) idx t c es l' res :
  log_wf l → is_u64 idx → (a_term (absLog l) idx = t → append_fits l idx es) →
  maybeAppend idx t c es l = Ret (l', res) →
  committed l ≤ committed l' ∧ ∀ i, i ≤ committed l → a_get (absLog l') i = a_get (absLog l) i.
Proof.
  intros Hwf Hidx Hf E. destruct (decide (a_term (absLog l) idx = t)) as [<-|Hne].
  2: { rewrite maybeAppend_reject in E by done. by injection E as <- _. }
  specialize (Hf eq_refl). destruct (decide (no_committed_conflict l es)) as [Hn|Hn].
  - destruct (maybeAppend_abs l idx c es Hwf Hf Hn) as (l1 & E1 & Hwf' & Ea & Ec & _ & _). rewrite E in E1.
    injection E1 as <- _. rewrite Ec, Ea. split; [lia|]. intros i Hi. destruct Hf as (Hc & Ht & Hi' & _).
    destruct (a_accept_spec (absLog l) idx es (absLog_wf l Hwf) Hc Ht Hi') as (_ & _ & H3 & H4).
    destruct Hn as [Hn|Hn]; [by rewrite H4|]. apply H3. lia.
  - destruct Hf as (Hc & _ & Hi & Hb). pose proof (absLog_wf l Hwf) as (? & _ & _). unfold maybeAppend in E.
    rewrite matchTerm_abs, Z.eqb_refl in E by done. simpl in E.
    rewrite findConflict_abs in E; [|done|by apply (contiguous_u64 (idx + 1)); [lia|done|lia]]. simpl in E.
    unfold no_committed_conflict in Hn. destruct (Z.eqb_spec (a_findConflict (absLog l) es) 0); [by destruct Hn; left|].
    destruct (Z.leb_spec (a_findConflict (absLog l) es) (committed l)); [done|]. destruct Hn. right. lia.
Qed.

(** The entries above the applied index, up to the commit index. *)
Lemma next_ents (l : raftLog S) :
  log_wf l →
  let es := a_slice (absLog l) (applied l + 1) (committed l + 1) in
  zlen es = committed l - applied l ∧ contiguous (applied l + 1) es.
Proof.
  intros (Hv & Hu & Hm & Hl). destruct (absLog_wf l (conj Hv (conj Hu (conj Hm Hl)))) as (Hz & _ & Hc).
  unfold a_slice, a_last in *. set (n := Z.to_nat (applied l + 1 - a_base (absLog l) - 1)). split.
  - rewrite zlen_take; [lia|]. unfold n. rewrite zlen_drop; lia.
  - apply contiguous_take. replace (applied l + 1) with (a_base (absLog l) + 1 + Z.of_nat n) by lia.
    apply contiguous_drop; [done|]. unfold n, zlen in *. lia.
Qed.

(** What is handed out to apply: exactly the entries above the applied index
    up to the commit index, consecutive and in order. *)
Theorem committed_entries_exact (l : raftLog S) :
  log_wf l →
  ∃ es, nextCommittedEnts l = Ret es ∧ zlen es = committed l - applied l ∧
    contiguous (applied l + 1) es ∧
    ∀ e, e ∈ es ↔ applied l < eIndex e ≤ committed l ∧ a_get (absLog l) (eIndex e) = Some e.
Proof.
  intros Hwf. pose proof Hwf as (_ & _ & Hm & Hl). destruct (next_ents l Hwf) as [Hlen Hc].
  eexists. split; [by apply nextCommittedEnts_abs|]. split_and!; [done..|]. unfold a_slice, a_last in *.
  intros e. split.
  - intros He. apply list_elem_of_lookup in He as [k Hk]. pose proof (contiguous_lookup _ _ _ _ Hc Hk) as Hi.
    apply lookup_take_Some in Hk as [Hk Hlt]. rewrite lookup_drop in Hk. split; [lia|].
    unfold a_get. destruct (Z.leb_spec (eIndex e) (a_base (absLog l))); [lia|]. rewrite <-Hk. f_equal. lia.
  - intros [Hi Hg]. unfold a_get in Hg. destruct (Z.leb_spec (eIndex e) (a_base (absLog l))); [done|].
    apply list_elem_of_lookup. exists (Z.to_nat (eIndex e - applied l - 1)). rewrite lookup_take_lt by lia.
    rewrite lookup_drop, <-Hg. f_equal. lia.
Qed.

Lemma findConflictByTerm_loop_spec (l : raftLog S) fuel idx t :
  log_wf l → 0 ≤ idx < u64_mod → idx ≤ Z.of_nat fuel →
  ∃ i, findConflictByTerm_loop fuel idx t l = Ret (i, if 0 <? i then a_term (absLog l) i else 0) ∧
    0 ≤ i ≤ idx ∧ (0 < i → a_term (absLog l) i ≤ t) ∧ ∀ j, i < j ≤ idx → t < a_term (absLog l) j.
Proof.
  intros Hwf. revert idx. induction fuel as [|fuel IH]; intros idx Hi Hf; simpl.
  { exists idx. replace idx with 0 by lia. split_and!; [done|lia..]. }
  destruct (Z.ltb_spec 0 idx).
  - rewrite term_abs by (done || unfold is_u64; lia). simpl. destruct (Z.leb_spec (a_term (absLog l) idx) t).
    + exists idx. destruct (Z.ltb_spec 0 idx); [|lia]. split_and!; [done|lia..].
    + rewrite w64_id by lia. destruct (IH (idx - 1)) as (i & E & Hr & Hle & Hgt); [lia|lia|].
      exists i. split_and!; [done|lia|lia|done|]. intros j Hj. destruct (decide (j = idx)) as [->|]; [lia|]. apply Hgt. lia.
  - exists idx. replace idx with 0 by lia. split_and!; [done|lia..].
Qed.

(** C23: the reject hint.  A follower whose log does not have the entry before an
    append, at or above its commit index, keeps its state and sends exactly one
    message: a rejection of that index to the leader, with the highest index of
    its own log at or below it whose entry has a term of at most the leader's,
    and that term.  Every index it skips holds a later term, so it cannot match
    the leader's entry there.  The scan ends, at the latest just below a
    compacted prefix. *)
Theorem reject_hint_spec (r : raft S) m :
  log_wf (rlog r) → is_u64 (mLogIndex m) → 0 ≤ mLogTerm m → committed (rlog r) ≤ mLogIndex m →
  a_term (absLog (rlog r)) (mLogIndex m) ≠ mLogTerm m →
  let a := absLog (rlog r) in
  ∃ i, handleAppend m r = Ret ((), set_msgs (msgs r ++
         [mkMessage MsgAppendResp (id r) (mFrom m) (Term r) (mLogIndex m) 0 [] 0
            true i (if 0 <? i then a_term a i else 0) None []]) r) ∧
    Z.max 0 (a_base a - 1) ≤ i ≤ Z.min (mLogIndex m) (a_last a) ∧ (0 < i → a_term a i ≤ mLogTerm m) ∧
    ∀ j, i < j ≤ Z.min (mLogIndex m) (a_last a) → mLogTerm m < a_term a j.
Proof.
  intros Hwf Hi Ht Hc Hne a. destruct (absLog_wf _ Hwf) as (Hb & Hl & _). fold a in Hb, Hl, Hne.
  assert (Hbc : a_base a ≤ committed (rlog r) ≤ a_last a) by (destruct Hwf as (_ & _ & ? & ?); unfold a; lia).
  destruct (findConflictByTerm_loop_spec (rlog r) (Z.to_nat (Z.min (mLogIndex m) (a_last a))) (Z.min (mLogIndex m) (a_last a)) (mLogTerm m) Hwf)
    as (i & E & Hr & Hle & Hgt); [unfold is_u64 in Hi; lia|lia|]. fold a in E, Hle, Hgt.
  exists i. split; [|split; [split; [apply Z.max_lub; [lia|]|lia]|by split]].
  - unfold handleAppend. unfold mbind at 1, M_bind at 1, get at 1. rewrite (proj2 (Z.ltb_ge _ _)) by done.
    unfold mbind at 1, M_bind at 1, runLog at 1. rewrite maybeAppend_reject by done. cbn [mbind outcome_bind].
    unfold mbind at 1, M_bind at 1, readLog, reads at 1. cbn [rlog set_rlog]. rewrite lastIndex_abs by done. cbn [mbind outcome_bind].
    unfold mbind, M_bind, reads. cbn [rlog set_rlog]. fold a. unfold findConflictByTerm. rewrite E. by destruct r.
  - destruct (Z.le_gt_cases (a_base a - 1) i); [lia|]. exfalso. specialize (Hgt (a_base a - 1) ltac:(lia)).
    unfold a_term, a_get in Hgt. rewrite (proj2 (Z.eqb_neq _ _)), (proj2 (Z.leb_le _ _)) in Hgt by lia. lia.
Qed.

(** Commit never runs ahead of the log.  [commitTo] moves the commit index
    up to an index the log has, ignores a lower one, and panics on one past
    the end. *)
Theorem commit_within_log (l : raftLog S) c :
  log_wf l →
  commitTo c l = if a_last (absLog l) <? c then Panic PanicCommitRange
                 else Ret (mkRaftLog (storage l) (unst l) (Z.max (committed l) c) (applied l)).
Proof.
  intros Hwf. pose proof Hwf as (_ & _ & ? & ?). destruct (Z.ltb_spec (a_last (absLog l)) c).
  - by apply commitTo_panic.
  - unfold commitTo. destruct (Z.ltb_spec (committed l) c).
    + rewrite lastIndex_abs by done. simpl. destruct (Z.ltb_spec (a_last (absLog l)) c); [lia|].
      rewrite Z.max_r by lia. done.
    + rewrite Z.max_l by lia. by destruct l.
Qed.
End log.

(** ** Reads *)

(** The calls of the leader on its pending reads. *)
Inductive read_op : Type :=
| RdAdd (idx : Z) (m : Message)
| RdAck (i : Z) (ctx : list byte)
| RdAdvance (ctx : list byte).

(** The state after the calls, the contexts accepted and the reads released,
    both in order. *)
Fixpoint run_reads (os : list read_op) (ro : readOnly) : readOnly * list (list byte) * list readIndexStatus :=
  match os with
  | [] => (ro, [], [])
  | o :: os =>
      let '(ro1, added, released) :=
        match o with
        | RdAdd idx m =>
            (addRequest idx m ro, if decide (is_Some (pendingReadIndex ro !! mContext m)) then [] else [mContext m], [])
        | RdAck i ctx => ((recvAck i ctx ro).1, [], [])
        | RdAdvance ctx => let '(ro1, rss) := advance ctx ro in (ro1, [], rss)
        end in
      let '(ro2, added', released') := run_reads os ro1 in
      (ro2, added ++ added', released ++ released')
  end.

Definition ctxs (rss : list readIndexStatus) : list (list byte) := map (λ rs, mContext (ri_req rs)) rss.

Lemma advance_ctxs ctx ro : ro_wf ro →
  let '(ro', rss) := advance ctx ro in readIndexQueue ro = ctxs rss ++ readIndexQueue ro'.
Proof.
  intros Hwf. destruct (decide (ctx ∈ readIndexQueue ro)) as [Hin|Hn]; [|by rewrite advance_not_pending].
  destruct (advance_spec ctx ro Hwf Hin) as (q1 & q2 & rss & ro' & Hq & -> & Hf & -> & _).
  assert (Hm : ctxs rss = q1 ++ [ctx]).
  { destruct Hwf as (_ & _ & Hctx). revert Hf. generalize (q1 ++ [ctx]). clear -Hctx. intros q.
    induction 1; simpl; [done|]. f_equal; [|done]. eauto. }
  by rewrite Hm, Hq, <-app_assoc.
Qed.

Lemma run_reads_fifo os ro : ro_wf ro →
  let '(ro', added, released) := run_reads os ro in
  ro_wf ro' ∧ readIndexQueue ro ++ added = ctxs released ++ readIndexQueue ro'.
Proof.
  revert ro. induction os as [|o os IH]; intros ro Hwf; simpl; [by rewrite app_nil_r|].
  destruct o as [idx m|i ctx|ctx].
  - specialize (IH (addRequest idx m ro) ltac:(auto with raft)). destruct (run_reads os _) as [[ro' ad] rel].
    destruct IH as [Hw IH]. split; [done|]. simpl. rewrite <-IH. unfold addRequest.
    destruct (pendingReadIndex ro !! mContext m) eqn:E.
    + rewrite decide_True by eauto. done.
    + rewrite decide_False by (by intros []). simpl. by rewrite <-app_assoc.
  - specialize (IH (recvAck i ctx ro).1 ltac:(auto with raft)). destruct (run_reads os _) as [[ro' ad] rel].
    destruct IH as [Hw IH]. split; [done|]. simpl. rewrite <-IH. f_equal. unfold recvAck. by case_match.
  - pose proof (advance_wf ctx ro Hwf) as Hw1. pose proof (advance_ctxs ctx ro Hwf) as Hq.
    destruct (advance ctx ro) as [ro1 rss]. specialize (IH ro1 Hw1). destruct (run_reads os ro1) as [[ro' ad] rel].
    destruct IH as [Hw IH]. split; [done|]. simpl. unfold ctxs in *. rewrite map_app, Hq, <-!app_assoc. by rewrite IH.
Qed.

(** C24: reads are released in the order they were accepted, each once.  For any
    sequence of requests, acknowledgements and confirmations, the accepted
    contexts are the released ones followed by those still queued; queue and
    table agree throughout, so the heartbeat token always exists. *)
Theorem reads_released_fifo os :
  let '(ro, accepted, released) := run_reads os newReadOnly in
  ro_wf ro ∧ accepted = ctxs released ++ readIndexQueue ro ∧
  lastPendingRequestCtx ro = Ret (default [] (last (readIndexQueue ro))).
Proof.
  pose proof (run_reads_fifo os newReadOnly newReadOnly_wf) as Hf.
  destruct (run_reads os newReadOnly) as [[ro ad] rel]. destruct Hf as [Hw Hf].
  split_and!; [done|done|by apply lastPendingRequestCtx_ok].
Qed.

(** A configuration is accepted exactly when the node has an id, the
    election timeout exceeds a positive heartbeat, randomness is injected, and
    the peers are distinct, valid and include the node. *)
Theorem config_accepted_iff c :
  (validate c = None) ↔
  cID c ≠ 0 ∧ 0 < cHeartbeatTicks c < cElectionTicks c ∧ is_Some (cRand c) ∧
  0 ∉ cPeers c ∧ NoDup (cPeers c) ∧ cID c ∈ cPeers c.
Proof. apply validate_ok. Qed.

(** ** Examples *)

Definition e_ (t i : Z) : Entry := mkEntry t i EntryNormal [].
(** Entries 1-3 stable, 4 unstable, two committed, one applied. *)
Definition log4 : raftLog mem.Storage :=
  mkRaftLog (mem.mkStorage zeroHardState zeroSnapshot [e_ 1 1; e_ 1 2; e_ 2 3]) (mkUnstable None [e_ 2 4] 4) 2 1.

Lemma log4_wf : log_wf log4.
Proof. vm_compute. repeat split; done. Qed.
Lemma log4_fits : append_fits log4 3 [e_ 3 4; e_ 3 5] ∧ no_committed_conflict log4 [e_ 3 4; e_ 3 5].
Proof.
  split; [|right; by vm_compute]. split; [vm_compute; repeat split; done|].
  split; [by repeat (constructor; [done|])|]. split; by vm_compute.
Qed.

Lemma append_accepts_witness :
  log_wf log4 ∧
  ∃ l', maybeAppend 3 (a_term (absLog log4) 3) 5 [e_ 3 4; e_ 3 5] log4 = Ret (l', Some 5) ∧
    a_term (absLog l') 5 = 3 ∧ committed l' = 5.
Proof.
  split; [apply log4_wf|].
  destruct (append_accepts log4 3 5 [e_ 3 4; e_ 3 5] log4_wf (proj1 log4_fits) (proj2 log4_fits))
    as (l' & E & _ & _ & Hin & _ & _ & Hc).
  exists l'. split; [exact E|]. split; [|exact Hc]. apply (Hin (e_ 3 5)). right. by left.
Defined.
(** A follower in term 3 with that log; an append of the leader behind index 4 of
    term 1. *)
Definition raft4 : raft mem.Storage :=
  mkRaft (mkConfig 2 [1; 2; 3] 10 2 64 true None) 2 3 1 log4 StateFollower 1 [1; 2; 3] ∅ ∅ [] [] newReadOnly [] 0 0 2 10
    (mkHardState 3 1 2).
Lemma reject_hint_spec_witness :
  ∃ i, handleAppend (mkMessage MsgAppend 1 2 3 4 1 [] 0 false 0 0 None []) raft4 =
      Ret ((), set_msgs [mkMessage MsgAppendResp 2 1 3 4 0 [] 0 true i
                 (if 0 <? i then a_term (absLog log4) i else 0) None []] raft4) ∧
    Z.max 0 (a_base (absLog log4) - 1) ≤ i ≤ Z.min 4 (a_last (absLog log4)) ∧ (0 < i → a_term (absLog log4) i ≤ 1) ∧
    ∀ j, i < j ≤ Z.min 4 (a_last (absLog log4)) → 1 < a_term (absLog log4) j.
Proof.
  apply (reject_hint_spec raft4 (mkMessage MsgAppend 1 2 3 4 1 [] 0 false 0 0 None []));
    [apply log4_wf|by vm_compute..].
Defined.
