(* ===== verification/RaftSpec.v ===== *)
(** * What the core promises on its own

    The commit rule (a quorum, of the leader's own term), the election timeout
    (a follower that hears nothing campaigns in bounded time), and the effect
    of a pre-vote rejection on the node that asked for it. *)

From S2P Require Import Prelude RaftTypes Storage RaftLog ReadOnly Raft.

(** ** The quorum index *)

(** How many of [ms] are at least [n]. *)
Definition count_ge (n : Z) (ms : list Z) : Z := zlen (filter (λ m, n ≤ m) ms).

Lemma count_ge_perm n ms ms' : ms ≡ₚ ms' → count_ge n ms = count_ge n ms'.
Proof. intros Hp. unfold count_ge, zlen. by rewrite Hp. Qed.
Lemma count_ge_all n ms : Forall (λ m, n ≤ m) ms → count_ge n ms = zlen ms.
Proof.
  unfold count_ge, zlen. induction 1 as [|m ms Hm Hms IH]; [done|]. rewrite filter_cons, decide_True by done. simpl. lia.
Qed.
Lemma count_ge_none n ms : Forall (λ m, m < n) ms → count_ge n ms = 0.
Proof.
  unfold count_ge. induction 1 as [|m ms Hm Hms IH]; [done|]. rewrite filter_cons, decide_False by lia. done.
Qed.
Lemma count_ge_app n ms ms' : count_ge n (ms ++ ms') = count_ge n ms + count_ge n ms'.
Proof. unfold count_ge. by rewrite filter_app, zlen_app. Qed.
Lemma count_ge_le n ms : count_ge n ms ≤ zlen ms.
Proof. unfold count_ge, zlen. pose proof (length_filter (λ m, n ≤ m) ms). lia. Qed.

(** In a sorted list, the [q]-th element from the end is the largest number
    that [q] elements reach. *)
Lemma kth_from_end (l : list Z) q x :
  StronglySorted Z.le l → 1 ≤ q ≤ zlen l → l !! Z.to_nat (zlen l - q) = Some x →
  q ≤ count_ge x l ∧ ∀ n, x < n → count_ge n l < q.
Proof.
  intros Hs Hq Hx. set (k := Z.to_nat (zlen l - q)) in *.
  assert (Hl : l = take k l ++ x :: drop (S k) l) by (symmetry; by apply take_drop_middle).
  assert (Hk : zlen (take k l) = zlen l - q) by (unfold k; apply zlen_take; lia).
  assert (Hd : zlen (drop (S k) l) = q - 1).
  { assert (zlen l = zlen (take k l) + 1 + zlen (drop (S k) l)); [|lia]. rewrite Hl at 1. rewrite zlen_app, zlen_cons. lia. }
  rewrite Hl in Hs. apply StronglySorted_app in Hs as (Hle & _ & Hs).
  apply StronglySorted_inv in Hs as [_ Hf]. rewrite Hl. setoid_rewrite count_ge_app. split.
  - rewrite (count_ge_all x (x :: _)); [rewrite zlen_cons; pose proof (zlen_nonneg (filter (λ m, x ≤ m) (take k l))); unfold count_ge; lia|].
    constructor; [lia|done].
  - intros n Hn. rewrite (count_ge_none n (take k l)).
    2: { apply Forall_forall. intros y Hy. assert (y ≤ x) by (apply Hle; [done|by left]). lia. }
    change (x :: drop (S k) l) with ([x] ++ drop (S k) l). rewrite count_ge_app, (count_ge_none n [x]) by (by constructor).
    pose proof (count_ge_le n (drop (S k) l)). lia.
Qed.

Section commit.
Context {S : Type} `{LogStorageLaws S}.

(** Every voter has a progress entry. *)
Definition tracked (r : raft S) : Prop :=
  peers r ≠ [] ∧ ∀ p, p ∈ peers r → is_Some (prs r !! p).
Definition matches (r : raft S) : list Z :=
  map (λ p, match prs r !! p with Some pr => Match pr | None => 0 end) (peers r).

Lemma collectMatches_ok r : tracked r → collectMatches (peers r) r = Ret (matches r).
Proof.
  intros [_ Ht]. unfold matches. induction (peers r) as [|p ps IH]; [done|]. simpl.
  destruct (Ht p) as [pr ->]; [by left|]. rewrite IH; [done|]. intros q Hq. apply Ht. by right.
Qed.

(** Queuing heartbeats touches the outbox only. *)
Lemma wp_bcastHeartbeat ctx r :
  tracked r → wp False (bcastHeartbeatWithCtx ctx) (λ _ r', ∃ ms, r' = set_msgs ms r) r.
Proof.
  intros [_ Ht]. unfold bcastHeartbeatWithCtx. apply wp_bind, wp_get.
  apply (wp_forM _ _ _ (λ r', ∃ ms, r' = set_msgs ms r)); [exists (msgs r); by destruct r| |done].
  intros p r' Hp [ms ->]. destruct (p =? id r); [apply wp_ret; by eexists|].
  apply wp_bind. unfold progressOf. apply wp_bind, wp_get. simpl. destruct (Ht p Hp) as [pr ->]. apply wp_ret.
  apply wp_bind, wp_get. unfold send. apply wp_bind, wp_get, wp_modify. simpl. by eexists.
Qed.

(** Everything but the outbox and the ReadIndex state is as before. *)
Definition same_log (r r' : raft S) : Prop :=
  rlog r' = rlog r ∧ prs r' = prs r ∧ peers r' = peers r ∧ Term r' = Term r ∧ state r' = state r ∧ id r' = id r.
Lemma same_log_tracked r r' : same_log r r' → tracked r → tracked r'.
Proof. unfold same_log, tracked. intros (_ & -> & -> & _) Ht. done. Qed.

Lemma wp_sendReadIndex m r : tracked r → wp False (sendReadIndex m) (λ _, same_log r) r.
Proof.
  intros Ht. unfold sendReadIndex. apply wp_bind, wp_get. destruct (_ =? 1); [by apply wp_modify|].
  apply wp_bind, wp_modify, wp_bind, wp_get, wp_bind, wp_modify.
  eapply wp_mono; [by apply wp_bcastHeartbeat|]. by intros [] r' [ms ->].
Qed.

Lemma wp_releasePending r :
  log_wf (rlog r) → tracked r → wp False releasePendingReadIndexMessages (λ _, same_log r) r.
Proof.
  intros Hl Ht. unfold releasePendingReadIndexMessages. apply wp_bind, wp_get. destruct (negb _); [by apply wp_ret|].
  assert (Hu : is_u64 (committed (rlog r))).
  { pose proof (absLog_wf _ Hl) as (? & ? & _). destruct Hl as (_ & _ & ? & ?). unfold is_u64. lia. }
  apply wp_bind. eapply wp_reads_ret; [unfold committedEntryInCurrentTerm; rewrite (term_abs _ _ Hl Hu); done|].
  destruct (negb _); [by apply wp_ret|]. apply wp_bind, wp_modify.
  apply (wp_forM _ _ _ (same_log r)); [done| |done]. intros m r' _ Hs.
  eapply wp_mono; [by apply wp_sendReadIndex, (same_log_tracked r)|]. unfold same_log in *. intros [] r'' Hs'.
  destruct_and!. split_and!; congruence.
Qed.

(** C21: the commit rule.  [maybeCommit] succeeds; it looks at the largest index
    that a quorum of the voters has acknowledged, and commits it exactly when it
    is above the commit index and the entry there is of the leader's own term.
    Entries, progress, term and role are untouched. *)
Theorem commit_needs_quorum (r : raft S) :
  log_wf (rlog r) → tracked r → Term r ≠ 0 → Forall is_u64 (matches r) →
  ∃ n b r', maybeCommit r = Ret (b, r') ∧
    quorum r ≤ count_ge n (matches r) ∧ (∀ n', n < n' → count_ge n' (matches r) < quorum r) ∧
    b = (committed (rlog r) <? n) && (a_term (absLog (rlog r)) n =? Term r) ∧
    committed (rlog r') = (if b then n else committed (rlog r)) ∧
    absLog (rlog r') = absLog (rlog r) ∧ prs r' = prs r ∧ Term r' = Term r ∧ state r' = state r.
Proof.
  intros Hl Ht HT Hm. set (ms := merge_sort Z.le (matches r)).
  assert (Hp : ms ≡ₚ matches r) by apply merge_sort_Permutation.
  assert (Hs : StronglySorted Z.le ms) by (apply StronglySorted_merge_sort; intros ?; lia).
  assert (Hlen : zlen ms = zlen (peers r)).
  { unfold zlen. rewrite Hp. unfold matches. by rewrite length_map. }
  assert (Hq : 1 ≤ quorum r ≤ zlen ms).
  { rewrite Hlen. unfold quorum. destruct Ht as [Hne _]. assert (1 ≤ zlen (peers r)).
    { destruct (peers r); [done|]. rewrite zlen_cons. pose proof (zlen_nonneg l). lia. }
    assert (zlen (peers r) / 2 < zlen (peers r)) by (apply Z.div_lt; lia). pose proof (Z.div_pos (zlen (peers r)) 2). lia. }
  destruct (index_total ms (zlen ms - quorum r)) as (n & Hn & Ei); [lia|].
  destruct (kth_from_end ms (quorum r) n Hs Hq Hn) as [Hq1 Hq2].
  assert (Hu : is_u64 n). { rewrite <-Hp, Forall_forall in Hm. by apply Hm, (list_elem_of_lookup_2 _ _ _ Hn). }
  exists n. setoid_rewrite <-(count_ge_perm n _ _ Hp). setoid_rewrite <-(λ n', count_ge_perm n' _ _ Hp).
  destruct (log_maybeCommit_abs (rlog r) n (Term r) Hl Hu HT) as (l' & E & Hwf' & Ea & Ec & _ & _).
  set (b := (committed (rlog r) <? n) && (a_term (absLog (rlog r)) n =? Term r)) in *.
  unfold maybeCommit, mbind, M_bind, get, reads, runLog. rewrite (collectMatches_ok r Ht).
  change (merge_sort Z.le (matches r)) with ms. rewrite Ei. cbn [mbind outcome_bind]. rewrite E. cbn [mbind outcome_bind].
  destruct b; simpl.
  - destruct (proj1 (wp_total _ _ _) (wp_releasePending (set_rlog l' r) Hwf' Ht)) as ([] & r' & -> & Hr).
    destruct Hr as (Hr1 & Hr2 & Hr3 & Hr4 & Hr5 & Hr6). simpl in *. eexists true, r'. rewrite Hr1.
    split_and!; done.
  - eexists false, _. split_and!; done.
Qed.
End commit.

(** ** Role changes, without panics *)
Section roles.
Context {S : Type} `{LogStorageLaws S}.

(** The node can draw a timeout and read its log. *)
Definition healthy (r : raft S) : Prop :=
  log_wf (rlog r) ∧ is_Some (cRand (cfg r)) ∧ 0 < cElectionTicks (cfg r).

(** [r'] has the identity, log, outbox and configuration of [r], up to the
    position in the random tape. *)
Record same_node (r r' : raft S) : Prop := mkSameNode {
  sn_id : id r' = id r;
  sn_peers : peers r' = peers r;
  sn_rlog : rlog r' = rlog r;
  sn_msgs : msgs r' = msgs r;
  sn_ticks : cElectionTicks (cfg r') = cElectionTicks (cfg r);
  sn_prevote : cPreVote (cfg r') = cPreVote (cfg r);
  sn_rand : is_Some (cRand (cfg r'))
}.
Lemma same_node_trans r1 r2 r3 : same_node r1 r2 → same_node r2 r3 → same_node r1 r3.
Proof. intros [] []. constructor; congruence || done. Qed.

Definition timeout_ok (r : raft S) : Prop :=
  cElectionTicks (cfg r) ≤ randomizedElectionTimeout r < 2 * cElectionTicks (cfg r).

Lemma wp_resetTimeout_total r :
  healthy r →
  wp False resetRandomizedElectionTimeout
    (λ _ r', same_node r r' ∧ timeout_ok r' ∧ Term r' = Term r ∧ Vote r' = Vote r ∧ state r' = state r ∧
       lead r' = lead r ∧ votes r' = votes r ∧ prs r' = prs r ∧ electionElapsed r' = electionElapsed r) r.
Proof.
  intros (_ & [rnd Hr] & Ht). unfold resetRandomizedElectionTimeout. apply wp_bind, wp_get. rewrite Hr. apply wp_bind.
  eapply wp_reads_ret; [unfold Intn; destruct (Z.leb_spec (cElectionTicks (cfg r)) 0); [lia|reflexivity]|].
  simpl. apply wp_bind, wp_modify, wp_modify. split; [by constructor|]. split; [|done].
  unfold timeout_ok. simpl. pose proof (Z.mod_pos_bound (rand_tape rnd (rand_pos rnd)) (cElectionTicks (cfg r))). lia.
Qed.

Lemma wp_reset_total t r :
  healthy r →
  wp False (reset t)
    (λ _ r', same_node r r' ∧ timeout_ok r' ∧ Term r' = t ∧ Vote r' = (if Term r =? t then Vote r else NoNode) ∧
       state r' = state r ∧ lead r' = NoNode ∧ votes r' = ∅ ∧ electionElapsed r' = 0) r.
Proof.
  intros Hh. pose proof Hh as (Hl & _). unfold reset. apply wp_bind, wp_get, wp_bind.
  assert (Hw : wp False (when (negb (Term r =? t)) (modify (set_Term t);; modify (set_Vote NoNode)))
    (λ _ r', r' = set_Term t (set_Vote (if Term r =? t then Vote r else NoNode) r)) r).
  { apply wp_when; destruct (Z.eqb_spec (Term r) t) as [<-|]; try done; intros _; by destruct r. }
  eapply wp_mono; [exact Hw|]. intros [] r1 ->. apply wp_bind, wp_modify, wp_bind, wp_modify, wp_bind, wp_modify, wp_bind.
  eapply wp_mono; [by apply wp_resetTimeout_total|]. intros [] r2 ([] & Hto & HT & HV & Hst & Hld & _ & _ & He). simpl in *.
  apply wp_bind, wp_modify, wp_bind. eapply wp_reads_ret; [simpl; rewrite sn_rlog0; by apply lastIndex_abs|].
  apply wp_bind, wp_modify, wp_bind, wp_modify, wp_modify. simpl. by split_and!.
Qed.

Lemma wp_becomeFollower_total t l r :
  healthy r →
  wp False (becomeFollower t l)
    (λ _ r', same_node r r' ∧ Term r' = t ∧ Vote r' = (if Term r =? t then Vote r else NoNode) ∧
       state r' = StateFollower ∧ lead r' = l) r.
Proof.
  intros Hh. unfold becomeFollower. apply wp_bind. eapply wp_mono; [by apply wp_reset_total|].
  intros [] r1 ([] & _ & ? & ? & _). apply wp_bind, wp_modify, wp_modify. by split_and!.
Qed.

(** C40: a refused pre-vote raises the asker's term.  The refusal echoes the term
    of the campaign, and [Step] treats it like any message of a newer term: the
    pre-candidate adopts the term it only wanted to probe, forgets its vote,
    and takes the refusing peer for its leader. *)
Theorem prevote_refusal_raises_term (r : raft S) m :
  healthy r → mType m = MsgPreVoteResp → mReject m = true → 0 ≤ Term r < mTerm m →
  ∃ r', Step m r = Ret (None, r') ∧ Term r' = mTerm m ∧ Vote r' = NoNode ∧ state r' = StateFollower ∧ lead r' = mFrom m.
Proof.
  intros Hh Hm Hj Ht. assert (Hw : wp False (Step m) (λ e r', e = None ∧ Term r' = mTerm m ∧ Vote r' = NoNode ∧
    state r' = StateFollower ∧ lead r' = mFrom m) r).
  { unfold Step, inLease. rewrite Hm. apply wp_bind, wp_get. cbn [bool_decide decide_rel orb andb].
    rewrite bool_decide_false, bool_decide_false by done. simpl.
    destruct (Z.eqb_spec (mTerm m) 0); [lia|]. destruct (Z.ltb_spec (Term r) (mTerm m)); [|lia].
    apply wp_bind. unfold stepNewer. rewrite Hm, Hj. cbn [negb andb]. rewrite bool_decide_false, bool_decide_true by done.
    cbn [orb andb]. rewrite decide_False by done. eapply wp_mono; [by apply wp_becomeFollower_total|].
    intros [] r1 (_ & HT & HV & Hs & Hl). apply wp_bind. unfold stepRole. rewrite Hm. apply wp_bind, wp_get. rewrite Hs.
    unfold stepFollower. rewrite Hm. do 2 apply wp_ret. split_and!; try done.
    rewrite HV. by destruct (Z.eqb_spec (Term r) (mTerm m)); [lia|]. }
  apply wp_total in Hw as (e & r' & E & -> & ?). by exists r'.
Qed.

(** ** Campaigning *)

Lemma wp_becomePreCandidate_total r :
  healthy r → state r ≠ StateLeader →
  wp False becomePreCandidate
    (λ _ r', same_node r r' ∧ Term r' = Term r ∧ state r' = StatePreCandidate ∧ votes r' = ∅) r.
Proof.
  intros Hh Hs. unfold becomePreCandidate. apply wp_bind, wp_get. rewrite decide_False by done.
  do 4 apply wp_bind, wp_modify. eapply wp_mono; [by apply wp_resetTimeout_total|].
  intros [] r1 ([] & _ & ? & _ & ? & _ & ? & _). by split_and!.
Qed.
Lemma wp_becomeCandidate_total r :
  healthy r → state r ≠ StateLeader →
  wp False becomeCandidate
    (λ _ r', same_node r r' ∧ Term r' = Term r +w 1 ∧ Vote r' = id r ∧ state r' = StateCandidate ∧ votes r' = ∅) r.
Proof.
  intros Hh Hs. unfold becomeCandidate. apply wp_bind, wp_get. rewrite decide_False by done. apply wp_bind.
  eapply wp_mono; [by apply wp_reset_total|]. intros [] r1 ([] & _ & ? & _ & _ & _ & ? & _).
  apply wp_bind, wp_modify, wp_modify. by split_and!.
Qed.

(** Everyone else is asked for a vote in [vt]. *)
Definition asked (r r' : raft S) (t : MessageType) (vt : Z) : Prop :=
  ∀ p, p ∈ peers r → p ≠ id r → ∃ m, m ∈ msgs r' ∧ mType m = t ∧ mFrom m = id r ∧ mTo m = p ∧ mTerm m = vt.

Lemma wp_send_termed m (r : raft S) :
  mTerm m ≠ 0 → wp False (send m) (λ _ r', r' = set_msgs (msgs r ++ [set_mFrom (id r) m]) r) r.
Proof.
  intros Hm. unfold send. apply wp_bind, wp_get, wp_modify. simpl. by destruct (Z.eqb_spec (mTerm m) 0).
Qed.

(** [r'] is [r] with more in the outbox. *)
Lemma wp_requests t vt ps (ask : Z * Z) (r : raft S) :
  vt ≠ 0 →
  wp False (forM ps (λ i, if i =? id r then mret () else
      send (set_mLogTerm (ask).2 (set_mLogIndex (ask).1 (set_mTerm vt (Msg t i))))))
    (λ _ r', (∃ ms, r' = set_msgs ms r ∧ (∀ m, m ∈ msgs r → m ∈ ms)) ∧
       ∀ p, p ∈ ps → p ≠ id r → ∃ m, m ∈ msgs r' ∧ mType m = t ∧ mFrom m = id r ∧ mTo m = p ∧ mTerm m = vt) r.
Proof.
  intros Hvt. revert r. induction ps as [|p ps IH]; intros r; simpl.
  { apply wp_ret. split; [|by intros p ?%not_elem_of_nil]. exists (msgs r). split; [by destruct r|done]. }
  apply wp_bind. destruct (Z.eqb_spec p (id r)) as [->|Hne].
  - apply wp_ret. eapply wp_mono; [apply IH|]. intros [] r' [Hms Hall]. split; [done|].
    intros q [->|Hq]%elem_of_cons ?; [done|by apply Hall].
  - eapply wp_mono; [by apply wp_send_termed|]. intros [] r1 ->.
    eapply wp_mono; [apply (IH (set_msgs _ r))|]. simpl. intros [] r' [(ms & -> & Hin) Hall]. split.
    + exists ms. split; [done|]. intros m Hm. apply Hin, elem_of_app. by left.
    + intros q [->|Hq]%elem_of_cons ?; [|by apply Hall]. eexists. split; [apply Hin, elem_of_app; right; by left|done].
Qed.

Lemma wp_solicit t vt (won : M (raft S) ()) r :
  healthy r → vt ≠ 0 → votes r = ∅ → 2 ≤ zlen (peers r) →
  wp False (_ ← recordVote (id r) true; r1 ← get;
      if quorum r1 <=? tallyGranted r1 then won else sendVoteRequests t vt)
    (λ _ r', asked r r' t vt ∧ state r' = state r ∧ Term r' = Term r ∧ Vote r' = Vote r) r.
Proof.
  intros (Hl & _) Hvt Hv Hp. unfold recordVote. apply wp_bind, wp_bind, wp_get. rewrite Hv, lookup_empty.
  apply wp_bind, wp_modify, wp_ret, wp_bind, wp_get.
  set (r1 := set_votes _ r). assert (Htl : tallyGranted r1 = 1).
  { unfold tallyGranted, r1. simpl. rewrite ?Hv, insert_empty, map_filter_singleton. rewrite decide_True by done.
    by rewrite map_size_singleton. }
  assert (Hq : 2 ≤ quorum r1).
  { unfold quorum, r1. simpl. assert (1 ≤ zlen (peers r) / 2); [|lia]. apply (Z.div_le_lower_bound _ 2 1); lia. }
  rewrite Htl. destruct (Z.leb_spec (quorum r1) 1); [lia|]. unfold sendVoteRequests. apply wp_bind.
  eapply wp_reads_ret; [by apply lastIndex_abs|]. apply wp_bind.
  eapply wp_reads_ret; [by apply lastTerm_abs|]. apply wp_bind, wp_get.
  eapply wp_mono; [apply (wp_requests t vt (peers r1) (a_last (absLog (rlog r)), a_lastTerm (absLog (rlog r))) r1 Hvt)|].
  intros [] r' [(ms & -> & _) Hall]. split; [exact Hall|done].
Qed.

Fixpoint ticks (n : nat) : M (raft S) () :=
  match n with O => mret () | Datatypes.S n => tick;; ticks n end.

Lemma ticks_wait n r :
  state r ≠ StateLeader → electionElapsed r + Z.of_nat n < randomizedElectionTimeout r →
  ticks n r = Ret ((), set_electionElapsed (electionElapsed r + Z.of_nat n) r).
Proof.
  revert r. induction n as [|n IH]; intros r Hs Ht; cbn [ticks].
  { rewrite Z.add_0_r. by destruct r. }
  unfold mbind, M_bind, tick, tickElection, get, modify, mbind, M_bind. rewrite decide_False by done.
  unfold pastElectionTimeout. cbn [electionElapsed set_electionElapsed randomizedElectionTimeout].
  destruct (Z.leb_spec (randomizedElectionTimeout r) (electionElapsed r + 1)); [lia|]. rewrite andb_false_r.
  unfold mret, M_ret. rewrite IH by (simpl; done || lia).
  cbn [electionElapsed set_electionElapsed]. rewrite <-Z.add_assoc. replace (1 + Z.of_nat n) with (Z.of_nat (Datatypes.S n)) by lia. done.
Qed.
Lemma ticks_app n m r : ticks (n + m) r = match ticks n r with Ret (_, r') => ticks m r' | Panic w => Panic w end.
Proof.
  revert r. induction n as [|n IH]; intros r; [done|]. simpl. unfold mbind, M_bind.
  destruct (tick r) as [[[] r1]|]; [apply IH|done].
Qed.

Lemma wp_campaign r :
  healthy r → state r ≠ StateLeader → 0 ≤ Term r < u64_mod - 1 → 2 ≤ zlen (peers r) →
  wp False campaign
    (λ _ r', if cPreVote (cfg r)
             then state r' = StatePreCandidate ∧ Term r' = Term r ∧ asked r r' MsgPreVote (Term r + 1)
             else state r' = StateCandidate ∧ Term r' = Term r + 1 ∧ Vote r' = id r ∧ asked r r' MsgVote (Term r + 1)) r.
Proof.
  intros Hh Hs Ht Hp. unfold campaign. apply wp_bind, wp_get.
  assert (Hhs : ∀ r1, same_node r r1 → healthy r1).
  { intros r1 []. destruct Hh as (? & ? & ?). unfold healthy. rewrite sn_rlog0, sn_ticks0. done. }
  destruct (cPreVote (cfg r)) eqn:Epv.
  - apply wp_bind. eapply wp_mono; [by apply wp_becomePreCandidate_total|]. intros [] r1 (Hn & HT & Hs1 & Hv).
    pose proof (Hhs _ Hn) as Hh1. destruct Hn. apply wp_bind, wp_get. rewrite HT, w64_id by lia.
    unfold solicitVotes. rewrite decide_True by done. apply wp_bind, wp_get.
    eapply wp_mono; [apply (wp_solicit MsgPreVote (Term r + 1) _ r1 Hh1); [lia|done|by rewrite sn_peers0]|].
    intros [] r2 (Ha & Hs2 & HT2 & _). split_and!; [congruence..|]. unfold asked in *. by rewrite <-sn_peers0, <-sn_id0.
  - apply wp_bind. eapply wp_mono; [by apply wp_becomeCandidate_total|]. intros [] r1 (Hn & HT & HV & Hs1 & Hv).
    pose proof (Hhs _ Hn) as Hh1. destruct Hn. rewrite w64_id in HT by lia. apply wp_bind, wp_get. rewrite HT.
    unfold solicitVotes. rewrite decide_False by done. unfold solicitVotes_Vote. apply wp_bind, wp_get.
    eapply wp_mono; [apply (wp_solicit MsgVote (Term r + 1) _ r1 Hh1); [lia|done|by rewrite sn_peers0]|].
    intros [] r2 (Ha & Hs2 & HT2 & HV2). split_and!; [congruence..|]. unfold asked in *. by rewrite <-sn_peers0, <-sn_id0.
Qed.

(** C22: elections start in bounded time.  One of at least two voters that is no
    leader and hears nothing campaigns after as many ticks as are left of its randomized
    timeout, without a panic: it asks every other voter for a pre-vote at the
    next term, or, with pre-votes off, moves to that term, votes for itself and
    asks for votes. *)
Theorem silence_starts_election (r : raft S) :
  healthy r → state r ≠ StateLeader → promotable r = true → 0 ≤ Term r < u64_mod - 1 → 2 ≤ zlen (peers r) →
  electionElapsed r < randomizedElectionTimeout r →
  ∃ r', ticks (Z.to_nat (randomizedElectionTimeout r - electionElapsed r)) r = Ret ((), r') ∧
    if cPreVote (cfg r)
    then state r' = StatePreCandidate ∧ Term r' = Term r ∧ asked r r' MsgPreVote (Term r + 1)
    else state r' = StateCandidate ∧ Term r' = Term r + 1 ∧ Vote r' = id r ∧ asked r r' MsgVote (Term r + 1).
Proof.
  intros Hh Hs Hpr Ht Hp He. set (n := Z.to_nat (randomizedElectionTimeout r - electionElapsed r - 1)).
  replace (Z.to_nat (randomizedElectionTimeout r - electionElapsed r)) with (n + 1)%nat by lia.
  rewrite ticks_app, ticks_wait by (done || lia). set (r1 := set_electionElapsed _ r).
  assert (Hc := wp_campaign (set_electionElapsed 0 r) Hh Hs Ht Hp). apply wp_total in Hc as ([] & r' & E & Hr).
  exists r'. split; [|exact Hr]. simpl. unfold mbind, M_bind, tick, tickElection, get, modify. simpl. unfold mbind, M_bind.
  rewrite decide_False by done. unfold promotable, pastElectionTimeout in *. simpl in *. rewrite Hpr.
  destruct (Z.leb_spec (randomizedElectionTimeout r) (electionElapsed r + Z.of_nat n + 1)); [|lia]. simpl.
  match goal with |- context [campaign ?x] => change x with (set_electionElapsed 0 r) end. by rewrite E.
Qed.
End roles.

(** ** Examples *)

Definition ent_ (t i : Z) : Entry := mkEntry t i EntryNormal [].
Definition conf1 (i : Z) (pv : bool) : Config := mkConfig i [1; 2; 3] 10 2 0 pv (Some (mkRand (λ _, 4) 0)).
Definition log_of (es : list Entry) (c : Z) : raftLog mem.Storage :=
  mkRaftLog (mem.mkStorage zeroHardState zeroSnapshot es) (mkUnstable None [] (zlen es + 1)) c 0.
(** Node [i] in term 2 with three entries, the last two of term 2. *)
Definition node_at (i : Z) (st : StateType) (pv : bool) (es : list Entry) : raft mem.Storage :=
  mkRaft (conf1 i pv) i 2 0 (log_of es 1) st 0 [1; 2; 3]
    (<[1 := mkProgress 3 4]> (<[2 := mkProgress 2 3]> (<[3 := mkProgress 0 1]> ∅))) ∅ [] [] newReadOnly [] 0 0 2 14 zeroHardState.
Definition long_log : list Entry := [ent_ 1 1; ent_ 2 2; ent_ 2 3].
Definition leader1 : raft mem.Storage := node_at 1 StateLeader true long_log.

Lemma long_log_wf : log_wf (log_of long_log 1).
Proof. vm_compute. repeat split; done. Qed.
Lemma short_log_wf : log_wf (log_of [ent_ 1 1] 1).
Proof. vm_compute. repeat split; done. Qed.
Lemma leader1_wf : log_wf (rlog leader1).
Proof. apply long_log_wf. Qed.

Lemma commit_needs_quorum_witness :
  log_wf (rlog leader1) ∧
  ∃ n b r', maybeCommit leader1 = Ret (b, r') ∧
    quorum leader1 ≤ count_ge n (matches leader1) ∧ (∀ n', n < n' → count_ge n' (matches leader1) < quorum leader1) ∧
    b = (committed (rlog leader1) <? n) && (a_term (absLog (rlog leader1)) n =? Term leader1) ∧
    committed (rlog r') = (if b then n else committed (rlog leader1)) ∧
    absLog (rlog r') = absLog (rlog leader1) ∧ prs r' = prs leader1 ∧ Term r' = Term leader1 ∧ state r' = state leader1.
Proof.
  split; [apply leader1_wf|]. apply (commit_needs_quorum leader1); [apply leader1_wf|..].
  - split; [done|]. intros p Hp. vm_compute in Hp. apply elem_of_cons in Hp as [->|Hp]; [by eexists|].
    apply elem_of_cons in Hp as [->|Hp]; [by eexists|]. apply list_elem_of_singleton in Hp as ->. by eexists.
  - done.
  - repeat (constructor; [by vm_compute|]). constructor.
Defined.

(** Node 2, whose log is short, asks for pre-votes; node 1 refuses. *)
Definition asker : raft mem.Storage := node_at 2 StatePreCandidate true [ent_ 1 1].
Definition peer1 : raft mem.Storage := node_at 1 StateFollower true long_log.
Definition prevote_request : Message := set_mLogTerm 1 (set_mLogIndex 1 (set_mTerm 3 (set_mFrom 2 (Msg MsgPreVote 1)))).
Definition refusal : Message :=
  match Step prevote_request peer1 with
  | Ret (_, p) => default prevote_request (last (msgs p))
  | Panic _ => prevote_request
  end.

Lemma prevote_refusal_raises_term_witness :
  mType refusal = MsgPreVoteResp ∧ mReject refusal = true ∧ mTo refusal = 2 ∧ Term peer1 = 2 ∧ Term asker = 2 ∧
  ∃ r', Step refusal asker = Ret (None, r') ∧ Term r' = 3 ∧ Vote r' = NoNode ∧ state r' = StateFollower ∧ lead r' = 1.
Proof.
  split_and!; [reflexivity..|].
  apply (prevote_refusal_raises_term asker refusal); [|reflexivity|reflexivity|by vm_compute].
  split; [apply short_log_wf|]. split; [by eexists|by vm_compute].
Defined.
Lemma silence_starts_election_witness :
  ∃ r', ticks (Z.to_nat 14) peer1 = Ret ((), r') ∧
    (state r' = StatePreCandidate ∧ Term r' = 2 ∧ asked peer1 r' MsgPreVote 3).
Proof.
  apply (silence_starts_election peer1); [|done|reflexivity|by vm_compute|by vm_compute|by vm_compute].
  split; [apply long_log_wf|]. split; [by eexists|by vm_compute].
Defined.
