(* ===== verification/Persist.v ===== *)
(** * Making the log durable

    A driver writes a [Ready] batch to the storage the log reads through:
    snapshot, entries, hard state, in that order; then [Advance] drops what is
    now stable.  Each write leaves the log as the core sees it ([absLog])
    unchanged, and at the end the storage alone holds it. *)

From S2P Require Import Prelude RaftTypes Storage RaftLog LogSpec.

Section persist.
Context {S : Type} `{LogStorageLaws S}.

(** The storage presents exactly the abstract log. *)
Definition stores (st : S) (a : alog) : Prop :=
  v_off (view st) = a_base a ∧ snTerm (v_snap (view st)) = a_bterm a ∧ v_ents (view st) = a_ents a.

Lemma stores_last (st : S) a : stores st a → v_last (view st) = a_last a.
Proof. intros (E & _ & Ee). unfold v_last, a_last. by rewrite E, Ee. Qed.

(** A pending snapshot is above the storage's, and the storage keeps no entry
    above it. *)
Definition persistable (l : raftLog S) : Prop :=
  ∀ s, u_snapshot (unst l) = Some s →
    v_off (view (storage l)) < snIndex s ∧ view_install (view (storage l)) s = [].

(** The snapshot was written: the storage starts where the unstable part does. *)
Definition based (l : raftLog S) : Prop :=
  ∀ s, u_snapshot (unst l) = Some s → v_snap (view (storage l)) = s ∧ v_ents (view (storage l)) = [].

Lemma absLog_snapshot l st s :
  u_snapshot (unst l) = Some s → absLog (set_storage st l) = absLog l.
Proof. intros E. unfold absLog. simpl. by rewrite E. Qed.

Lemma persist_snapshot l s st e :
  log_wf l → persistable l → u_snapshot (unst l) = Some s → ApplySnapshot s (storage l) = Ret (st, e) →
  absLog (set_storage st l) = absLog l ∧ log_wf (set_storage st l) ∧ based (set_storage st l) ∧
  v_hard (view st) = v_hard (view (storage l)).
Proof.
  intros Hwf Hp Es E. destruct (Hp s Es) as [Ho Hi]. pose proof Hwf as (Hv & (Hu & Hc & Hb) & Hm).
  rewrite Es in Hu. destruct Hu as [Hu Hs0]. pose proof (zlen_nonneg (u_entries (unst l))).
  destruct (law_install (storage l) s Hv) as (st' & e' & E' & Hview); [lia|].
  rewrite E in E'. injection E' as <- <-. rewrite Hi in Hview.
  split_and!; [by eapply absLog_snapshot| |..].
  - split; [|split].
    + simpl. rewrite Hview. unfold view_wf, v_last, v_off. simpl. change (zlen (@nil Entry)) with 0. split_and!; [done|lia|done].
    + unfold unst_wf. simpl. rewrite Es. done.
    + rewrite (absLog_snapshot l st s Es). done.
  - intros s'. simpl. rewrite Es. intros [= <-]. by rewrite Hview.
  - by rewrite Hview.
Qed.

(** Where the unstable entries go: right behind what the storage keeps. *)
Lemma based_absLog l :
  log_wf l → based l →
  v_off (view (storage l)) = a_base (absLog l) ∧ snTerm (v_snap (view (storage l))) = a_bterm (absLog l) ∧
  v_off (view (storage l)) + 1 ≤ u_offset (unst l) ≤ v_last (view (storage l)) + 1 ∧
  a_ents (absLog l) =
    take (Z.to_nat (u_offset (unst l) - (v_off (view (storage l)) + 1))) (v_ents (view (storage l))) ++ u_entries (unst l).
Proof.
  intros (_ & (Hu & _) & _) Hb. unfold absLog, based in *. destruct (u_snapshot (unst l)) as [s|].
  - destruct (Hb s eq_refl) as [Hs He]. unfold v_last, v_off. rewrite Hs, He. simpl. destruct Hu as [Hu _].
    change (zlen (@nil Entry)) with 0. rewrite take_nil. split_and!; try done; lia.
  - simpl. destruct Hu as [Hu _]. split_and!; try done; try lia. f_equal. f_equal. lia.
Qed.

(** The unstable entries can be appended. *)
Lemma unstable_fits l e es :
  log_wf l → based l → u_entries (unst l) = e :: es → append_ok (view (storage l)) e es.
Proof.
  intros Hwf Hb Ee. destruct (based_absLog l Hwf Hb) as (Hoff & Hbt & Hr & Hents).
  pose proof Hwf as (Hv & (Hu & Hc & Hbd) & Hm). rewrite Ee in *. destruct Hc as [Hi Hc].
  split; [split; [done|by rewrite Hi]|]. rewrite Hi. destruct Hv as (? & ? & _). rewrite zlen_cons in Hbd. pose proof (zlen_nonneg es).
  pose proof (absLog_last l Hwf) as Hla. rewrite Ee, zlen_cons in Hla. lia.
Qed.

Lemma persist_entries l e es st :
  log_wf l → based l → u_entries (unst l) = e :: es → AppendEntries (e :: es) (storage l) = Ret (st, None) →
  absLog (set_storage st l) = absLog l ∧ log_wf (set_storage st l) ∧ stores st (absLog l) ∧
  v_hard (view st) = v_hard (view (storage l)).
Proof.
  intros Hwf Hb Ee E. destruct (based_absLog l Hwf Hb) as (Hoff & Hbt & Hr & Hents).
  pose proof (absLog_wf l Hwf) as (Ha0 & Hal & Hac). pose proof Hwf as (Hv & (Hu & Hc & Hbd) & Hm).
  pose proof (unstable_fits l e es Hwf Hb Ee) as Hok. rewrite Ee in *. destruct Hc as [Hi Hc].
  destruct (law_append (storage l) e es Hv Hok) as (st' & E' & Hview). rewrite E in E'. injection E' as <-.
  assert (Hve : view_append (view (storage l)) (e :: es) = a_ents (absLog l)).
  { rewrite Hents. unfold view_append. rewrite zlen_cons. pose proof (zlen_nonneg es).
    destruct (Z.leb_spec (eIndex e + (1 + zlen es) - 1) (v_off (view (storage l)))); [lia|].
    destruct (Z.leb_spec (eIndex e) (v_off (view (storage l)))); [lia|]. by rewrite Hi. }
  assert (Hst : stores st (absLog l)).
  { unfold stores, v_off in *. rewrite Hview. simpl. done. }
  assert (Habs : absLog (set_storage st l) = absLog l).
  { unfold absLog at 1. simpl. destruct (u_snapshot (unst l)) as [s|] eqn:Es; [unfold absLog; by rewrite Es|].
    destruct Hst as (Hs1 & Hs2 & Hs3). rewrite Hs1, Hs2, Hs3. destruct (absLog l) as [b bt es'] eqn:Ea. simpl in *. f_equal.
    rewrite Hents, <-Hoff. rewrite take_app_le.
    - rewrite take_take, Ee. f_equal. f_equal. lia.
    - rewrite length_take. unfold v_last, zlen in *. lia. }
  assert (Hvw : view_wf (view st)).
  { destruct Hst as (Hs1 & _ & Hs3). unfold view_wf, v_last. rewrite Hs1, Hs3. done. }
  split_and!; try done.
  - split; [done|]. rewrite Habs. split; [|done]. unfold unst_wf. simpl. rewrite Ee.
    destruct (u_snapshot (unst l)) as [s|] eqn:Es; [done|].
    destruct Hst as (Hs1 & _ & Hs3). unfold v_last in *. rewrite Hs1, Hs3, Hents, zlen_app, zlen_cons.
    pose proof (zlen_nonneg es). rewrite <-Hoff. rewrite zlen_take by lia. rewrite zlen_cons in Hbd.
    split_and!; try done; try lia.
  - by rewrite Hview.
Qed.

(** The log up to the entry at [n]. *)
Definition a_pre (n : Z) (a : alog) : alog := mkALog (a_base a) (a_bterm a) (take (Z.to_nat (n - a_base a)) (a_ents a)).

(** Some of the unstable entries were appended, and no more. *)
Lemma persist_torn l e es k st :
  log_wf l → based l → u_entries (unst l) = e :: es → (1 ≤ k ≤ length (e :: es))%nat →
  AppendEntries (take k (e :: es)) (storage l) = Ret (st, None) →
  let n := eIndex e - 1 + Z.of_nat k in
  stores st (a_pre n (absLog l)) ∧ view_wf (view st) ∧ a_base (absLog l) < eIndex e ≤ n ∧ n ≤ a_last (absLog l) ∧
  a_get (absLog l) (eIndex e) = Some e.
Proof.
  intros Hwf Hb Ee Hk E n. destruct (based_absLog l Hwf Hb) as (Hoff & Hbt & Hr & Hents).
  pose proof (absLog_wf l Hwf) as (Ha0 & Hal & Hac). pose proof (absLog_last l Hwf) as Hla. pose proof Hwf as (Hv & (_ & Hc & _) & _).
  pose proof (unstable_fits l e es Hwf Hb Ee) as (Hok1 & Hok2 & Hok3). rewrite Ee in *. destruct Hc as [Hi Hc].
  destruct k as [|k]; [lia|]. simpl in E, Hk. assert (Hzk : zlen (take k es) = Z.of_nat k) by (unfold zlen; rewrite length_take; lia).
  assert (Hze : zlen (e :: es) = 1 + zlen es) by apply zlen_cons. assert (Z.of_nat k ≤ zlen es) by (unfold zlen; lia).
  destruct (law_append (storage l) e (take k es) Hv) as (st' & E' & Hview).
  { split; [|split; [done|lia]]. destruct Hok1 as [? ?]. split; [done|]. by apply contiguous_take. }
  rewrite E in E'. injection E' as <-.
  assert (Hvl : v_off (view (storage l)) + zlen (v_ents (view (storage l))) = v_last (view (storage l))) by done.
  set (u := Z.to_nat (u_offset (unst l) - (v_off (view (storage l)) + 1))) in *.
  assert (Hu : length (take u (v_ents (view (storage l)))) = u) by (rewrite length_take; unfold zlen in *; lia).
  assert (Hve : view_append (view (storage l)) (e :: take k es) = take (Z.to_nat (n - a_base (absLog l))) (a_ents (absLog l))).
  { unfold view_append. rewrite zlen_cons, Hzk. destruct (Z.leb_spec (eIndex e + (1 + Z.of_nat k) - 1) (v_off (view (storage l)))); [lia|].
    destruct (Z.leb_spec (eIndex e) (v_off (view (storage l)))); [lia|]. rewrite Hents, Hi. fold u.
    replace (Z.to_nat (n - a_base (absLog l))) with (length (take u (v_ents (view (storage l)))) + Datatypes.S k)%nat by (unfold n; lia).
    by rewrite take_app_add. }
  assert (Hst : stores st (a_pre n (absLog l))).
  { unfold stores, v_off in *. rewrite Hview. by split_and!. }
  assert (Hg : a_base (absLog l) < eIndex e ≤ n ∧ n ≤ a_last (absLog l)) by (unfold n; lia). split_and!; try done; try lia.
  - destruct Hst as (Hs1 & _ & Hs3). unfold view_wf, v_last. rewrite Hs1, Hs3. simpl. split_and!; [done| |by apply contiguous_take].
    rewrite zlen_take by (unfold a_last in *; lia). unfold a_last in *. lia.
  - unfold a_get. destruct (Z.leb_spec (eIndex e) (a_base (absLog l))); [lia|]. rewrite Hents. fold u.
    replace (Z.to_nat (eIndex e - a_base (absLog l) - 1)) with (length (take u (v_ents (view (storage l))))) by lia.
    by apply list_lookup_middle.
Qed.

Lemma persist_none l :
  log_wf l → based l → u_entries (unst l) = [] → stores (storage l) (absLog l).
Proof.
  intros Hwf Hb Ee. destruct (based_absLog l Hwf Hb) as (Hoff & Hbt & Hr & Hents). unfold stores.
  split_and!; try done. rewrite Hents, Ee, app_nil_r. pose proof Hwf as (_ & (Hu & _) & _).
  unfold based in Hb. destruct (u_snapshot (unst l)) as [s|].
  - destruct (Hb s eq_refl) as [_ ->]. by rewrite take_nil.
  - destruct Hu as [_ Hu]. rewrite take_ge; [done|]. specialize (Hu Ee). unfold v_last, zlen in *. lia.
Qed.

(** Writing the hard state changes nothing in the log. *)
Lemma persist_hard l hs st :
  log_wf l → SetHardState hs (storage l) = Ret (st, None) →
  absLog (set_storage st l) = absLog l ∧ log_wf (set_storage st l) ∧ v_hard (view st) = hs ∧
  (∀ a, stores (storage l) a → stores st a).
Proof.
  intros Hwf E. pose proof (law_set_hard_view _ _ _ _ E) as Hview.
  assert (Ha : absLog (set_storage st l) = absLog l) by (unfold absLog; simpl; rewrite Hview; done).
  split_and!; [done| |by rewrite Hview|].
  - destruct Hwf as (Hv & Hu & Hm). unfold log_wf. rewrite Ha. split; [|split; [|done]].
    + unfold view_wf, v_last, v_off in *. simpl. by rewrite Hview.
    + unfold unst_wf, v_last, v_off in *. simpl. by rewrite Hview.
  - unfold stores, v_off. by rewrite Hview.
Qed.

(** ** Advance *)

(** The unstable part is empty. *)
Definition settled (l : raftLog S) : Prop := u_snapshot (unst l) = None ∧ u_entries (unst l) = [].

Lemma settled_stores l : log_wf l → settled l → stores (storage l) (absLog l).
Proof. intros Hwf [Hs He]. apply persist_none; [done| |done]. intros sn. by rewrite Hs. Qed.
(** Over a settled log, a snapshot it does not contain leaves the storage with
    no entry. *)
Lemma settled_install l sn :
  log_wf l → settled l → committed l < snIndex sn → a_term (absLog l) (snIndex sn) ≠ snTerm sn →
  v_off (view (storage l)) < snIndex sn ∧ view_install (view (storage l)) sn = [].
Proof.
  intros Hwf Hset Hc Ht. destruct (settled_stores l Hwf Hset) as (E1 & _ & E3). pose proof Hwf as (_ & _ & ? & _).
  split; [lia|]. unfold view_install. destruct (_ <? _); [|done]. rewrite E1, E3.
  destruct (a_ents (absLog l) !! _) as [e|] eqn:He; [|done]. destruct (Z.eqb_spec (eTerm e) (snTerm sn)); [|done].
  destruct Ht. unfold a_term, a_get. destruct (Z.eqb_spec (snIndex sn) (a_base (absLog l))); [lia|].
  destruct (Z.leb_spec (snIndex sn) (a_base (absLog l))); [lia|]. by rewrite He.
Qed.

Lemma maybeTerm_last l e es :
  log_wf l → u_entries (unst l) = es ++ [e] →
  eIndex e = u_offset (unst l) + zlen es ∧ maybeTerm (eIndex e) (unst l) = Ret (Some (eTerm e)).
Proof.
  intros Hwf Ee. pose proof Hwf as (_ & (Hu & Hc & Hb) & _). pose proof (zlen_nonneg es).
  rewrite Ee in Hc, Hb. rewrite zlen_app in Hb. change (zlen [e]) with 1 in Hb. apply contiguous_app in Hc as [_ [Hi _]].
  split; [done|]. unfold maybeTerm. assert (Hoff : 0 ≤ u_offset (unst l)).
  { destruct Hwf as ((? & _) & _). destruct (u_snapshot (unst l)); [lia|]. destruct Hu. lia. }
  destruct (Z.ltb_spec (eIndex e) (u_offset (unst l))); [lia|].
  unfold maybeLastIndex. rewrite Ee, zlen_app. change (zlen [e]) with 1.
  destruct (Z.eqb_spec (zlen es + 1) 0); [lia|]. simpl. rewrite (w64_id (u_offset (unst l) + _)) by lia. rewrite w64_id by lia.
  destruct (Z.ltb_spec (u_offset (unst l) + (zlen es + 1) - 1) (eIndex e)); [lia|].
  assert (Hx : index (es ++ [e]) (eIndex e -w u_offset (unst l)) = Ret e).
  { rewrite w64_id by lia. apply index_lookup; [lia|]. rewrite lookup_app_r by (unfold zlen in *; lia).
    replace (Z.to_nat _ - length es)%nat with 0%nat by (unfold zlen in *; lia). done. }
  destruct (u_snapshot (unst l)) as [s|]; rewrite Hx; [|done]. destruct (Z.eqb_spec (eIndex e) (snIndex s)); [lia|done].
Qed.

Lemma stableTo_last l e es :
  log_wf l → u_entries (unst l) = es ++ [e] →
  stableTo (eIndex e) (eTerm e) l = Ret (set_unst (mkUnstable (u_snapshot (unst l)) [] (eIndex e + 1)) l).
Proof.
  intros Hwf Ee. destruct (maybeTerm_last l e es Hwf Ee) as [Hi Hm]. unfold stableTo, u_stableTo. rewrite Hm. simpl.
  rewrite Z.eqb_refl. simpl. pose proof Hwf as (_ & (Hu & _ & Hb) & _). pose proof (zlen_nonneg es).
  assert (Hoff : 0 ≤ u_offset (unst l)).
  { destruct Hwf as ((? & _) & _). destruct (u_snapshot (unst l)); [lia|]. destruct Hu. lia. }
  rewrite Ee, zlen_app in Hb. change (zlen [e]) with 1 in Hb.
  destruct (Z.ltb_spec (eIndex e) (u_offset (unst l))); [lia|]. rewrite (w64_id (eIndex e + 1)) by lia.
  rewrite w64_id by lia. rewrite Ee, slice_from_ok; [|rewrite zlen_app; change (zlen [e]) with 1; lia]. simpl.
  rewrite drop_ge; [done|]. rewrite length_app. simpl. unfold zlen in *. lia.
Qed.

(** A log over a storage that holds it, with nothing unstable. *)
Lemma settled_wf st u c p a :
  alog_wf a → stores st a → u = mkUnstable None [] (a_last a + 1) → a_base a ≤ p ≤ c → c ≤ a_last a →
  absLog (mkRaftLog st u c p) = a ∧ log_wf (mkRaftLog st u c p).
Proof.
  intros (H0' & Hl & Hc) (Hs1 & Hs2 & Hs3) -> Hm Hcl. assert (Ha : absLog (mkRaftLog st (mkUnstable None [] (a_last a + 1)) c p) = a).
  { unfold absLog. simpl. rewrite Hs1, Hs2, Hs3. destruct a as [b bt es]. unfold a_last. simpl. f_equal. rewrite app_nil_r.
    apply take_ge. unfold zlen. lia. }
  split; [done|]. split; [|split].
  - unfold view_wf, v_last. simpl. rewrite Hs1, Hs3. done.
  - unfold unst_wf, v_last. simpl. rewrite Hs1, Hs3. fold (a_last a). change (zlen (@nil Entry)) with 0.
    pose proof (zlen_nonneg (a_ents a)). unfold a_last in *. split_and!; try done; try lia.
  - rewrite Ha. simpl. lia.
Qed.

(** Dropping the stable part of a log whose storage holds all of it. *)
Lemma advance_log l :
  log_wf l → stores (storage l) (absLog l) →
  let u := mkUnstable None [] (a_last (absLog l) + 1) in
  ∃ l1, match last (u_entries (unst l)) with Some e => stableTo (eIndex e) (eTerm e) l | None => Ret l end = Ret l1 ∧
    match u_snapshot (unst l) with Some s => stableSnapTo (snIndex s) l1 | None => l1 end = set_unst u l ∧
    absLog (set_unst u l) = absLog l ∧ log_wf (set_unst u l).
Proof.
  intros Hwf Hst u. pose proof (absLog_wf l Hwf) as Haw. pose proof (absLog_last l Hwf) as Hlast.
  pose proof Hwf as (_ & _ & Hm1 & Hm2). destruct (settled_wf (storage l) u (committed l) (applied l) (absLog l) Haw Hst eq_refl Hm1 Hm2) as [Ha Hw].
  destruct (u_entries (unst l)) as [|e0 es0] eqn:Ee using rev_ind; [|clear IHes0].
  - simpl. exists l. split; [done|]. split; [|done]. change (zlen (@nil Entry)) with 0 in Hlast.
    unfold stableSnapTo, u_stableSnapTo. destruct l as [st0 [us ue uo] c p]. simpl in *. subst ue.
    destruct us as [s|]; simpl; rewrite ?Z.eqb_refl; unfold set_unst, u; simpl; f_equal; f_equal; lia.
  - rewrite last_snoc. rewrite (stableTo_last l e0 es0 Hwf Ee). eexists. split; [done|]. split; [|done].
    destruct (maybeTerm_last l e0 es0 Hwf Ee) as [Hi _]. rewrite zlen_app in Hlast. change (zlen [e0]) with 1 in Hlast.
    unfold stableSnapTo, u_stableSnapTo. destruct (u_snapshot (unst l)) as [s|]; simpl; rewrite ?Z.eqb_refl; simpl;
      unfold set_unst, u; simpl; do 2 f_equal; lia.
Qed.
End persist.
