(* ===== verification/Quiet.v ===== *)
(** * Methods that leave the election state alone

    Most methods of the core touch neither term, vote, role nor ballots: they
    read the log, move replication progress, and queue messages stamped with
    the node's own id and term.  [quietM] says so of a method; it is closed
    under sequencing, branching and loops, so the proof search of the [quiet]
    database covers the replication, commit and ReadIndex code. *)

From S2P Require Import Prelude RaftTypes Storage RaftLog ReadOnly Raft.

(** The types of the messages that carry or ask for a ballot. *)
Definition is_ballot (t : MessageType) : Prop :=
  t = MsgVote ∨ t = MsgVoteResp ∨ t = MsgPreVote ∨ t = MsgPreVoteResp.

#[export] Instance is_ballot_dec t : Decision (is_ballot t).
Proof. unfold is_ballot. apply _. Defined.

Section quiet.
Context {S : Type} `{LogStorage S}.

(** A queued message that is no ballot and carries the sender's id and term. *)
Definition benign (r : raft S) (m : Message) : Prop :=
  mFrom m = id r ∧ mTerm m = Term r ∧ ¬ is_ballot (mType m).

Record quiet (r r' : raft S) : Prop := mkQuiet {
  q_id : id r' = id r;
  q_peers : peers r' = peers r;
  q_cfg : cfg r' = cfg r;
  q_Term : Term r' = Term r;
  q_Vote : Vote r' = Vote r;
  q_state : state r' = state r;
  q_votes : votes r' = votes r;
  q_prev : prevHardSt r' = prevHardSt r;
  q_storage : storage (rlog r') = storage (rlog r);
  q_msgs : ∃ ms, msgs r' = msgs r ++ ms ∧ Forall (benign r) ms
}.

#[export] Instance quiet_preorder : PreOrder quiet.
Proof.
  split.
  - intros r. constructor; try done. exists []. by rewrite app_nil_r.
  - intros r1 r2 r3 [] []. constructor; try congruence.
    destruct q_msgs0 as (ms & Hms & Hf), q_msgs1 as (ms' & Hms' & Hf').
    exists (ms ++ ms'). rewrite Hms', Hms, app_assoc. split; [done|].
    apply Forall_app. split; [done|]. eapply Forall_impl; [exact Hf'|].
    intros m (? & ? & ?). split_and!; congruence.
Qed.

Definition quietM {A} (c : M (raft S) A) : Prop := ∀ r, wp True c (λ _ r', quiet r r') r.

(** ** Closure *)

Lemma quietM_ret {A} (a : A) : quietM (mret a).
Proof. intros r. apply wp_ret. reflexivity. Qed.
Lemma quietM_get : quietM get.
Proof. intros r. apply wp_get. reflexivity. Qed.
Lemma quietM_fails {A} w : quietM (fails w : M (raft S) A).
Proof. done. Qed.
Lemma quietM_reads {A} (f : raft S → outcome A) : quietM (reads f).
Proof. intros r. apply wp_reads. destruct (f r); [reflexivity|done]. Qed.
Lemma quietM_bind {A B} (c : M (raft S) A) (k : A → M (raft S) B) :
  quietM c → (∀ a, quietM (k a)) → quietM (c ≫= k).
Proof.
  intros Hc Hk r. apply wp_bind. eapply wp_mono; [apply Hc|]. intros a r' Hq.
  eapply wp_mono; [apply Hk|]. intros b r'' Hq'. by transitivity r'.
Qed.
Lemma quietM_if {A} (b : bool) (c d : M (raft S) A) :
  quietM c → quietM d → quietM (if b then c else d).
Proof. by destruct b. Qed.
Lemma quietM_when b (c : M (raft S) ()) : quietM c → quietM (when b c).
Proof. destruct b; [done|]. intros _. apply quietM_ret. Qed.
Lemma quietM_forM {A} (l : list A) (f : A → M (raft S) ()) :
  (∀ x, quietM (f x)) → quietM (forM l f).
Proof.
  intros Hf. induction l as [|x l IH]; simpl; [apply quietM_ret|]. by apply quietM_bind.
Qed.

(** Field updates outside the election state. *)
Definition untracked (f : raft S → raft S) : Prop :=
  ∀ r, quiet r (f r) ∧ msgs (f r) = msgs r.
Lemma quietM_modify f : untracked f → quietM (modify f).
Proof. intros Hf r. apply wp_modify. apply Hf. Qed.

Lemma quietM_send m : mTerm m = 0 → ¬ is_ballot (mType m) → mType m ≠ MsgPropose → quietM (send m).
Proof.
  intros Ht Hb Hp r. unfold send. apply wp_bind, wp_get, wp_modify. constructor; try done.
  eexists; split; [done|]. constructor; [|done]. cbn [mTerm set_mFrom mType].
  rewrite Ht, bool_decide_false by done. simpl.
  destruct m as [t]; simpl in *; destruct t; try (by destruct Hb; unfold is_ballot; auto); done.
Qed.

(** ** Log calls *)

Definition keeps_storage (f : raftLog S → outcome (raftLog S)) : Prop :=
  ∀ l l', f l = Ret l' → storage l' = storage l.
Definition keeps_storage2 {A} (f : raftLog S → outcome (raftLog S * A)) : Prop :=
  ∀ l l' a, f l = Ret (l', a) → storage l' = storage l.

Lemma quietM_readLog {A} (f : raftLog S → outcome A) : quietM (readLog f).
Proof. apply quietM_reads. Qed.
Lemma quietM_updLog f : keeps_storage f → quietM (updLog f).
Proof.
  intros Hf r. unfold wp, updLog. destruct (f (rlog r)) as [l|] eqn:E; simpl; [|done].
  constructor; try done; simpl; [by eapply Hf|]. exists []. by rewrite app_nil_r.
Qed.
Lemma quietM_runLog {A} (f : raftLog S → outcome (raftLog S * A)) :
  keeps_storage2 f → quietM (runLog f).
Proof.
  intros Hf r. unfold wp, runLog. destruct (f (rlog r)) as [[l a]|] eqn:E; simpl; [|done].
  constructor; try done; simpl; [by eapply Hf|]. exists []. by rewrite app_nil_r.
Qed.

Lemma keeps_commitTo c : keeps_storage (commitTo c).
Proof.
  intros l l'. unfold commitTo. destruct (_ <? _); [|by intros [= ->]].
  intros (li & _ & E)%outcome_bind_Ret. destruct (_ <? _); [done|]. by injection E as <-.
Qed.
Lemma keeps_append es : keeps_storage2 (append es).
Proof.
  intros l l' a. unfold append. case_decide.
  - intros (li & _ & [= <- <-])%outcome_bind_Ret. done.
  - intros (u & _ & (li & _ & [= <- <-])%outcome_bind_Ret)%outcome_bind_Ret. done.
Qed.
Lemma keeps_log_maybeCommit i t : keeps_storage2 (log_maybeCommit i t).
Proof.
  intros l l' a. unfold log_maybeCommit. destruct (_ <? _); [|by intros [= <- <-]].
  intros (r & _ & E)%outcome_bind_Ret. destruct (_ =? t); [|by injection E as <- <-].
  apply outcome_bind_Ret in E as (l1 & E1 & [= <- <-]). by eapply keeps_commitTo.
Qed.
Lemma keeps_maybeAppend i t c es : keeps_storage2 (maybeAppend i t c es).
Proof.
  intros l l' a. unfold maybeAppend. intros (b & _ & E)%outcome_bind_Ret.
  destruct b; simpl in E; [|by injection E as <- <-].
  apply outcome_bind_Ret in E as (cf & _ & (l1 & E1 & (l2 & E2 & [= <- <-])%outcome_bind_Ret)%outcome_bind_Ret).
  apply keeps_commitTo in E2. rewrite E2. destruct (cf =? 0); [by injection E1 as ->|].
  destruct (cf <=? _); [done|].
  apply outcome_bind_Ret in E1 as (es' & _ & ([l3 x] & E3 & [= ->])%outcome_bind_Ret).
  by eapply keeps_append.
Qed.
Lemma keeps_restore sn : keeps_storage (λ l, Ret (log_restore sn l)).
Proof. by intros l l' [= <-]. Qed.

End quiet.

(** ** Automation *)

Create HintDb quiet.
#[export] Hint Resolve quietM_ret quietM_get quietM_fails quietM_reads quietM_bind quietM_if
  quietM_when quietM_forM quietM_readLog quietM_updLog quietM_runLog
  keeps_commitTo keeps_append keeps_log_maybeCommit keeps_maybeAppend keeps_restore : quiet.
#[export] Hint Extern 1 (untracked _) =>
  (intros ?; split; [constructor; try done; exists []; by rewrite app_nil_r|done]) : quiet.
#[export] Hint Extern 1 (quietM (modify _)) => apply quietM_modify : quiet.
#[export] Hint Extern 1 (quietM (send _)) =>
  (apply quietM_send; [done|by unfold is_ballot; intuition|done]) : quiet.
(** Branches on any scrutinee. *)
#[export] Hint Extern 2 (quietM (match ?x with _ => _ end)) => destruct x : quiet.
#[export] Hint Extern 2 (quietM (let '(_, _) := ?x in _)) => destruct x : quiet.

Section quiet_methods.
Context {S : Type} `{LogStorage S}.

Lemma quiet_progressOf i : quietM (S:=S) (progressOf i).
Proof. unfold progressOf. eauto 10 with quiet. Qed.
Lemma quiet_setProgress i pr : quietM (S:=S) (setProgress i pr).
Proof. unfold setProgress. eauto 10 with quiet. Qed.
Hint Resolve quiet_progressOf quiet_setProgress : quiet.
Lemma quiet_bcastHeartbeatWithCtx ctx : quietM (S:=S) (bcastHeartbeatWithCtx ctx).
Proof. unfold bcastHeartbeatWithCtx. eauto 15 with quiet. Qed.
Hint Resolve quiet_bcastHeartbeatWithCtx : quiet.
Lemma quiet_bcastHeartbeat : quietM (S:=S) bcastHeartbeat.
Proof. unfold bcastHeartbeat. eauto 10 with quiet. Qed.
Lemma quiet_sendReadIndex m : quietM (S:=S) (sendReadIndex m).
Proof. unfold sendReadIndex. eauto 15 with quiet. Qed.
Hint Resolve quiet_bcastHeartbeat quiet_sendReadIndex : quiet.
Lemma quiet_releasePending : quietM (S:=S) releasePendingReadIndexMessages.
Proof. unfold releasePendingReadIndexMessages. eauto 15 with quiet. Qed.
Hint Resolve quiet_releasePending : quiet.
Lemma quiet_maybeCommit : quietM (S:=S) maybeCommit.
Proof. unfold maybeCommit. eauto 15 with quiet. Qed.
Hint Resolve quiet_maybeCommit : quiet.
Lemma quiet_appendEntry es : quietM (S:=S) (appendEntry es).
Proof. unfold appendEntry. eauto 15 with quiet. Qed.
Lemma quiet_sendSnapshot i : quietM (S:=S) (sendSnapshot i).
Proof. unfold sendSnapshot. eauto 15 with quiet. Qed.
Hint Resolve quiet_appendEntry quiet_sendSnapshot : quiet.
Lemma quiet_sendAppend i : quietM (S:=S) (sendAppend i).
Proof. unfold sendAppend. eauto 15 with quiet. Qed.
Hint Resolve quiet_sendAppend : quiet.
Lemma quiet_bcastAppend : quietM (S:=S) bcastAppend.
Proof. unfold bcastAppend. eauto 15 with quiet. Qed.
Hint Resolve quiet_bcastAppend : quiet.
Lemma quiet_stepReadIndex m : quietM (S:=S) (stepReadIndex m).
Proof. unfold stepReadIndex. eauto 15 with quiet. Qed.
Lemma quiet_stepPropose m : quietM (S:=S) (stepPropose m).
Proof. unfold stepPropose. eauto 15 with quiet. Qed.
Lemma quiet_handleAppend m : quietM (S:=S) (handleAppend m).
Proof. unfold handleAppend. eauto 15 with quiet. Qed.
Lemma quiet_handleHeartbeat m : quietM (S:=S) (handleHeartbeat m).
Proof. unfold handleHeartbeat. eauto 15 with quiet. Qed.
Lemma quiet_restore sn : quietM (S:=S) (restore sn).
Proof. unfold restore. eauto 15 with quiet. Qed.
Hint Resolve quiet_handleAppend quiet_handleHeartbeat quiet_restore : quiet.
Lemma quiet_handleSnapshot m : quietM (S:=S) (handleSnapshot m).
Proof. unfold handleSnapshot. eauto 15 with quiet. Qed.
Lemma quiet_handleAppendResp m : quietM (S:=S) (handleAppendResp m).
Proof. unfold handleAppendResp. eauto 20 with quiet. Qed.
Lemma quiet_handleHeartbeatResp m : quietM (S:=S) (handleHeartbeatResp m).
Proof. unfold handleHeartbeatResp. eauto 20 with quiet. Qed.
Hint Resolve quiet_handleSnapshot quiet_handleAppendResp quiet_handleHeartbeatResp : quiet.
Lemma quiet_stepFollower m : quietM (S:=S) (stepFollower m).
Proof. unfold stepFollower. eauto 15 with quiet. Qed.
Lemma quiet_stepLeader m : quietM (S:=S) (stepLeader m).
Proof. unfold stepLeader. eauto 15 with quiet. Qed.
Lemma quiet_tickHeartbeat : quietM (S:=S) tickHeartbeat.
Proof. unfold tickHeartbeat. eauto 15 with quiet. Qed.
Lemma quiet_stepStale_nonballot m : mType m ≠ MsgPreVote → quietM (S:=S) (stepStale m).
Proof.
  intros Hm. unfold stepStale. apply quietM_bind; [apply quietM_get|]. intros r.
  destruct (mType m); try done; eauto 15 with quiet.
Qed.

End quiet_methods.

#[export] Hint Resolve quiet_bcastAppend quiet_bcastHeartbeat quiet_appendEntry quiet_stepFollower
  quiet_stepLeader quiet_tickHeartbeat quiet_stepReadIndex quiet_stepPropose quiet_handleAppend
  quiet_handleHeartbeat quiet_handleSnapshot quiet_stepStale_nonballot : quiet.
