(* ===== verification/LogSafety.v ===== *)
(** * What a step does to the log

    Whatever message a node steps on, in whatever role, its log stays
    well-formed, its commit index never falls and no committed entry changes;
    a leader only appends.  [grows], [appends] and [restored] are the three
    ways in which a log moves; [stillM] marks the methods that leave it alone. *)

From S2P Require Import Prelude RaftTypes Storage RaftLog ReadOnly Raft LogSpec RaftSpec Persist Quiet.

Section log_moves.
Context {S : Type} `{LogStorageLaws S}.
Implicit Types l : raftLog S.

(** Unstable entries that start behind the commit index, at the end of the log
    or where they contradict it. *)
Definition parts l l' : Prop :=
  ∀ e es, u_entries (unst l') = e :: es →
    committed l < eIndex e ∧ (a_last (absLog l) < eIndex e ∨ a_term (absLog l) (eIndex e) ≠ eTerm e).
(** Unstable entries behind the ones that were there. *)
Definition extends l l' : Prop :=
  u_offset (unst l') = u_offset (unst l) ∧ ∃ es, u_entries (unst l') = u_entries (unst l) ++ es.

(** The log under the same snapshot and storage, with its committed prefix. *)
Record grows l l' : Prop := mkGrows {
  gr_wf : log_wf l';
  gr_storage : storage l' = storage l;
  gr_snap : u_snapshot (unst l') = u_snapshot (unst l);
  gr_applied : applied l' = applied l;
  gr_committed : committed l ≤ committed l';
  gr_base : a_base (absLog l') = a_base (absLog l);
  gr_prefix : ∀ i, i ≤ committed l → a_get (absLog l') i = a_get (absLog l) i;
  gr_parts : settled l → parts l l'
}.
(** ... keeping all of its entries. *)
Definition appends l l' : Prop :=
  grows l l' ∧ (∀ i, i ≤ a_last (absLog l) → a_get (absLog l') i = a_get (absLog l) i) ∧ extends l l'.
(** A snapshot the log does not contain replaced it. *)
Record restored l l' (sn : Snapshot) : Prop := mkRestored {
  re_wf : log_wf l';
  re_storage : storage l' = storage l;
  re_snap : u_snapshot (unst l') = Some sn;
  re_applied : applied l' = snIndex sn;
  re_committed : committed l' = snIndex sn;
  re_above : committed l < snIndex sn;
  re_fresh : a_term (absLog l) (snIndex sn) ≠ snTerm sn;
  re_log : absLog l' = mkALog (snIndex sn) (snTerm sn) []
}.

Lemma extends_parts l l' : log_wf l → log_wf l' → u_snapshot (unst l') = u_snapshot (unst l) → extends l l' → settled l → parts l l'.
Proof.
  intros Hwf (_ & (_ & Hc & _) & _) _ [Ho [es He]] Hset e es' Ee. rewrite Ee, Ho in Hc. destruct Hc as [Hi _].
  assert (a_last (absLog l) + 1 = u_offset (unst l)) as Hl.
  { rewrite absLog_last, (proj2 Hset) by done. change (zlen (@nil Entry)) with 0. lia. }
  pose proof Hwf as (_ & _ & _ & ?). split; [lia|left; lia].
Qed.
Lemma extends_refl l : extends l l.
Proof. split; [done|]. exists []. by rewrite app_nil_r. Qed.
Lemma extends_trans l1 l2 l3 : extends l1 l2 → extends l2 l3 → extends l1 l3.
Proof. intros [E1 [es1 H1]] [E2 [es2 H2]]. split; [congruence|]. exists (es1 ++ es2). by rewrite H2, H1, app_assoc. Qed.

Lemma appends_refl l : log_wf l → appends l l.
Proof.
  intros Hwf. pose proof (extends_refl l). split_and!; [|done..]. split; try done. by apply extends_parts.
Qed.
Lemma appends_grows l l' : appends l l' → grows l l'.
Proof. by intros [? _]. Qed.
(** Entries below the last one of a log are below the last one of what it
    grows into. *)
Lemma appends_last l l' : log_wf l → appends l l' → a_last (absLog l) ≤ a_last (absLog l').
Proof.
  intros Hwf [[] [Hall _]]. pose proof Hwf as (_ & _ & ? & ?). pose proof gr_wf0 as (_ & _ & ? & ?).
  destruct (decide (a_base (absLog l) = a_last (absLog l))); [lia|].
  destruct (a_get_range (absLog l) (a_last (absLog l))) as [e He]; [lia|]. rewrite <-Hall in He by lia.
  unfold a_get, a_last in *. destruct (_ <=? _); [done|]. apply lookup_lt_Some in He. unfold zlen in *. lia.
Qed.
Lemma appends_trans l1 l2 l3 : log_wf l1 → appends l1 l2 → appends l2 l3 → appends l1 l3.
Proof.
  intros Hwf H1 H2. pose proof (appends_last _ _ Hwf H1). destruct H1 as [[] [E1 X1]], H2 as [[] [E2 X2]].
  pose proof (extends_trans _ _ _ X1 X2). split_and!; [| |done].
  - split; try done; try congruence; [lia| |].
    + intros i Hi. rewrite gr_prefix1 by lia. by apply gr_prefix0.
    + apply extends_parts; [done|done|congruence|done].
  - intros i Hi. rewrite E2 by lia. by apply E1.
Qed.

(** ** The log's methods *)

Lemma commitTo_unst c l l' : commitTo c l = Ret l' → unst l' = unst l ∧ storage l' = storage l ∧ applied l' = applied l.
Proof.
  unfold commitTo. destruct (_ <? _); [|by intros [= <-]]. intros (li & _ & E)%outcome_bind_Ret.
  destruct (_ <? _); [done|]. by injection E as <-.
Qed.
Lemma commitTo_appends c l l' : log_wf l → commitTo c l = Ret l' → appends l l'.
Proof.
  intros Hwf E. destruct (decide (c ≤ a_last (absLog l))) as [Hc|Hc].
  - destruct (commitTo_abs l c Hwf Hc) as (l1 & E1 & Hb & Ea & Ec & Ep & Es). rewrite E in E1. injection E1 as <-.
    pose proof (proj1 (commitTo_unst _ _ _ E)) as Hu.
    assert (extends l l') by (unfold extends; rewrite Hu; apply extends_refl).
    split_and!; [|by rewrite Ea|done]. split; rewrite ?Ea, ?Hu; try done; [lia|]. apply extends_parts; [done|done|by rewrite Hu|done].
  - rewrite commitTo_panic in E by (done || lia). done.
Qed.
Lemma log_maybeCommit_appends i t l l' b : log_wf l → is_u64 i → log_maybeCommit i t l = Ret (l', b) → appends l l'.
Proof.
  intros Hwf Hi. unfold log_maybeCommit. destruct (_ <? _); [|intros [= <- _]; by apply appends_refl].
  intros (x & _ & E)%outcome_bind_Ret. destruct (_ =? t); [|injection E as <- _; by apply appends_refl].
  apply outcome_bind_Ret in E as (l1 & E & [= <- _]). by eapply commitTo_appends.
Qed.
Lemma append_snap es l l' i : append es l = Ret (l', i) → u_snapshot (unst l') = u_snapshot (unst l).
Proof.
  unfold append. case_decide; [by intros (li & _ & [= <- _])%outcome_bind_Ret|].
  intros (u & Hu & (li & _ & [= <- _])%outcome_bind_Ret)%outcome_bind_Ret. simpl.
  unfold truncateAppend in Hu. destruct es as [|e es]; [done|].
  destruct (_ =? _); [by injection Hu as <-|]. destruct (_ <=? _); [by injection Hu as <-|].
  by apply outcome_bind_Ret in Hu as (keep & _ & [= <-]).
Qed.
(** The unstable part starts at the appended entry, or it keeps its start. *)
Lemma append_unst e es l l' i :
  append (e :: es) l = Ret (l', i) → eIndex e ≤ u_offset (unst l) → u_entries (unst l) = [] →
  ∃ es', u_entries (unst l') = e :: es'.
Proof.
  unfold append. rewrite decide_False by done. intros (u & Hu & (li & _ & [= <- _])%outcome_bind_Ret)%outcome_bind_Ret Hle He. simpl.
  unfold truncateAppend in Hu. rewrite He in Hu. destruct (_ =? _); [injection Hu as <-; by exists es|].
  destruct (Z.leb_spec (eIndex e) (u_offset (unst l))); [|lia]. injection Hu as <-. by exists es.
Qed.
Lemma append_extends e es l l' i :
  log_wf l → eIndex e = a_last (absLog l) + 1 → append (e :: es) l = Ret (l', i) → extends l l'.
Proof.
  intros Hwf Hi. unfold append. rewrite decide_False by done. intros (u & Hu & (li & _ & [= <- _])%outcome_bind_Ret)%outcome_bind_Ret.
  unfold extends. simpl. pose proof (absLog_wf l Hwf) as (Hb0 & Hb & _). pose proof (absLog_last l Hwf).
  pose proof (zlen_nonneg (a_ents (absLog l))). unfold truncateAppend in Hu. unfold a_last in *.
  rewrite w64_id, (proj2 (Z.eqb_eq _ _)) in Hu by lia. injection Hu as <-. simpl. split; [done|]. by exists (e :: es).
Qed.
(** Appending behind the last entry. *)
Lemma append_appends es l l' i :
  log_wf l → contiguous (a_last (absLog l) + 1) es → a_last (absLog l) + zlen es < u64_mod - 1 →
  append es l = Ret (l', i) → appends l l'.
Proof.
  intros Hwf Hc Hb E. destruct es as [|e es].
  { unfold append in E. rewrite decide_True in E by done. apply outcome_bind_Ret in E as (li & _ & [= <- _]).
    by apply appends_refl. }
  pose proof Hwf as (_ & _ & Hm & Hl). pose proof (absLog_wf l Hwf) as (? & ? & _). rewrite zlen_cons in Hb.
  destruct (Hc) as [Hi _]. pose proof (append_snap _ _ _ _ E) as Hs.
  destruct (append_abs l e es Hwf) as (l1 & E1 & Hwf' & Ea & Ec & Ep & Es); [by rewrite Hi|lia|lia|].
  rewrite E in E1. injection E1 as <- _.
  assert (Hall : ∀ j, j ≤ a_last (absLog l) → a_get (absLog l') j = a_get (absLog l) j).
  { intros j Hj. rewrite Ea. apply a_get_splice_below; lia. }
  pose proof (append_extends _ _ _ _ _ Hwf Hi E) as Hx. split_and!; [|done..].
  split; try done; [lia|by rewrite Ea|intros j Hj; apply Hall; lia|by apply extends_parts].
Qed.

(** What a leader sends in an append. *)
Definition payload_ok (idx t : Z) (es : list Entry) : Prop :=
  is_u64 idx ∧ contiguous (idx + 1) es ∧ Forall (λ e, eTerm e ≠ 0) es ∧ idx + zlen es < u64_mod - 1 ∧
  (t = 0 → idx = 0 ∨ es = []).

Lemma maybeAppend_snap idx t c es l l' o : maybeAppend idx t c es l = Ret (l', o) → u_snapshot (unst l') = u_snapshot (unst l).
Proof.
  unfold maybeAppend. intros (b & _ & E)%outcome_bind_Ret. destruct b; simpl in E; [|by injection E as <- _].
  apply outcome_bind_Ret in E as (cf & _ & (l1 & E1 & (l2 & E2 & [= <- _])%outcome_bind_Ret)%outcome_bind_Ret).
  transitivity (u_snapshot (unst l1)).
  - unfold commitTo in E2. destruct (_ <? _); [|by injection E2 as <-].
    apply outcome_bind_Ret in E2 as (li & _ & E2). destruct (_ <? _); [done|]. by injection E2 as <-.
  - destruct (cf =? 0); [by injection E1 as ->|]. destruct (cf <=? _); [done|].
    apply outcome_bind_Ret in E1 as (es' & _ & ([l3 x] & E3 & [= ->])%outcome_bind_Ret). by eapply append_snap.
Qed.
Lemma maybeAppend_parts idx t c es l l' o :
  log_wf l → append_fits l idx es → maybeAppend idx t c es l = Ret (l', o) → settled l → parts l l'.
Proof.
  intros Hwf (Hc & Hz & Hi & Hb) E Hset e es' Ee. unfold maybeAppend in E.
  pose proof (absLog_wf l Hwf) as (Hb0 & Hlt & _). pose proof (zlen_nonneg es).
  assert (Hl : a_last (absLog l) + 1 = u_offset (unst l)).
  { rewrite absLog_last, (proj2 Hset) by done. change (zlen (@nil Entry)) with 0. lia. }
  apply outcome_bind_Ret in E as (b & _ & E). destruct b; simpl in E; [|injection E as <- _; by rewrite (proj2 Hset) in Ee].
  apply outcome_bind_Ret in E as (cf & Ecf & (l1 & E1 & (l2 & E2 & [= <- _])%outcome_bind_Ret)%outcome_bind_Ret).
  rewrite findConflict_abs in Ecf; [|done|by apply (contiguous_u64 (idx + 1)); [lia|done|lia]]. injection Ecf as <-.
  rewrite (proj1 (commitTo_unst _ _ _ E2)) in Ee. clear E2.
  destruct (a_findConflict_spec (absLog l) idx es Hc Hz ltac:(lia) Hi) as [(Hf & _)|(es1 & x & es2 & Hes & Hf & Hx & Hlx & Ht & Hp)].
  { rewrite Hf in E1. injection E1 as <-. by rewrite (proj2 Hset) in Ee. }
  pose proof (zlen_nonneg es1). rewrite Hf in E1. destruct (Z.eqb_spec (eIndex x) 0); [lia|].
  destruct (Z.leb_spec (eIndex x) (committed l)) as [?|Hcx]; [done|].
  apply outcome_bind_Ret in E1 as (es3 & Es & ([l3 y] & E3 & [= ->])%outcome_bind_Ret).
  assert (es3 = x :: es2) as ->.
  { assert (zlen es = zlen es1 + 1 + zlen es2) by (rewrite Hes, zlen_app, zlen_cons; lia). pose proof (zlen_nonneg es2).
    rewrite (w64_id (idx + 1)), w64_id, slice_from_ok in Es by lia. injection Es as <-.
    rewrite Hes, drop_app_length'; [done|]. unfold zlen in *. lia. }
  destruct (append_unst _ _ _ _ _ E3) as [es4 E4]; [lia|apply Hset|]. rewrite E4 in Ee. injection Ee as <- _. split; [lia|].
  by right.
Qed.
(** A batch that contradicts committed entries panics. *)
Lemma maybeAppend_conflict l idx c es :
  log_wf l → append_fits l idx es → ¬ no_committed_conflict l es →
  maybeAppend idx (a_term (absLog l) idx) c es l = Panic PanicConflict.
Proof.
  intros Hwf (Hc & _ & Hi & Hb) Hn. pose proof (absLog_wf l Hwf) as (? & _ & _). pose proof (zlen_nonneg es). unfold maybeAppend.
  rewrite matchTerm_abs, Z.eqb_refl by (done || unfold is_u64; lia). simpl.
  rewrite findConflict_abs; [|done|by apply (contiguous_u64 (idx + 1)); [lia|done|lia]]. simpl.
  unfold no_committed_conflict in Hn. destruct (Z.eqb_spec (a_findConflict (absLog l) es) 0); [by destruct Hn; left|].
  destruct (Z.leb_spec (a_findConflict (absLog l) es) (committed l)); [done|]. destruct Hn. right. lia.
Qed.
Lemma maybeAppend_grows idx t c es l l' o :
  log_wf l → payload_ok idx t es → committed l ≤ idx → maybeAppend idx t c es l = Ret (l', o) → grows l l'.
Proof.
  intros Hwf (Hi & Hc & Ht & Hb & Hz) Hle E. pose proof (maybeAppend_snap _ _ _ _ _ _ _ E) as Hs.
  destruct (decide (a_term (absLog l) idx = t)) as [<-|Hne].
  2: { rewrite maybeAppend_reject in E by done. injection E as <- _. by apply appends_grows, appends_refl. }
  pose proof (absLog_wf l Hwf) as Haw. pose proof Haw as (Hb0 & _). pose proof Hwf as (_ & _ & Hm & Hl).
  destruct (decide (es = [])) as [->|Hne].
  { unfold maybeAppend in E. rewrite matchTerm_abs, Z.eqb_refl in E by done. simpl in E.
    apply outcome_bind_Ret in E as (l1 & E & [= -> _]). by apply appends_grows, (commitTo_appends _ _ _ Hwf E). }
  assert (Hf : append_fits l idx es).
  { split_and!; try done; [lia|]. destruct (decide (a_term (absLog l) idx = 0)) as [E0|E0].
    - destruct (Hz E0) as [?|?]; [lia|done].
    - by apply a_term_pos. }
  destruct (decide (no_committed_conflict l es)) as [Hn|Hn].
  2: { by rewrite maybeAppend_conflict in E. }
  destruct (maybeAppend_abs l idx c es Hwf Hf Hn) as (l1 & E1 & Hwf' & Ea & Ec & Ep & Es). rewrite E in E1. injection E1 as <- _.
  pose proof Hf as (_ & _ & Hr & _). destruct (a_accept_spec (absLog l) idx es Haw Hc Ht Hr) as (_ & H2 & _ & _).
  split; try done; [lia| | |].
  - rewrite Ea. unfold a_accept. by destruct (_ =? 0).
  - intros i Hi'. rewrite Ea. apply H2. lia.
  - by apply (maybeAppend_parts _ _ _ _ _ _ _ Hwf Hf E).
Qed.
Lemma log_restore_restored sn l :
  log_wf l → committed l < snIndex sn < u64_mod - 1 → a_term (absLog l) (snIndex sn) ≠ snTerm sn →
  restored l (log_restore sn l) sn.
Proof. intros Hwf Hi Ht. destruct (log_restore_abs l sn Hwf Hi) as (? & ? & ? & ? & ?). split; try done. lia. Qed.
End log_moves.

(** ** Methods that leave the log alone *)

Section still.
Context {S : Type} `{LogStorageLaws S}.
Implicit Types r : raft S.

(** The log is well-formed and the acknowledged indices are 64-bit values. *)
Definition node_wf r : Prop := log_wf (rlog r) ∧ map_Forall (λ _ pr, is_u64 (Match pr)) (prs r).

Record stays r r' : Prop := mkStays {
  sy_wf : node_wf r';
  sy_prev : prevHardSt r' = prevHardSt r;
  sy_log : rlog r' = rlog r
}.
Definition stillM {A} (c : M (raft S) A) : Prop := ∀ r, node_wf r → wp True c (λ _ r', stays r r') r.

Lemma stays_trans r1 r2 r3 : stays r1 r2 → stays r2 r3 → stays r1 r3.
Proof. intros [] []. split; congruence. Qed.
Lemma stillM_ret {A} (a : A) : stillM (mret a).
Proof. intros r Hr. by apply wp_ret. Qed.
Lemma stillM_get : stillM get.
Proof. intros r Hr. by apply wp_get. Qed.
Lemma stillM_fails {A} w : stillM (fails w : M (raft S) A).
Proof. done. Qed.
Lemma stillM_reads {A} (f : raft S → outcome A) : stillM (reads f).
Proof. intros r Hr. apply wp_reads. by destruct (f r). Qed.
Lemma stillM_readLog {A} (f : raftLog S → outcome A) : stillM (readLog f).
Proof. apply stillM_reads. Qed.
Lemma stillM_bind {A B} (c : M (raft S) A) (k : A → M (raft S) B) :
  stillM c → (∀ a, stillM (k a)) → stillM (c ≫= k).
Proof.
  intros Hc Hk r Hr. apply wp_bind. eapply wp_mono; [by apply Hc|]. intros a r1 H1.
  eapply wp_mono; [apply Hk, H1|]. intros b r2 H2. exact (stays_trans _ _ _ H1 H2).
Qed.
Lemma stillM_when b (c : M (raft S) ()) : stillM c → stillM (when b c).
Proof. destruct b; [done|]. intros _. apply stillM_ret. Qed.
Lemma stillM_forM {A} (xs : list A) (f : A → M (raft S) ()) : (∀ x, stillM (f x)) → stillM (forM xs f).
Proof. intros Hf. induction xs as [|x xs IH]; [apply stillM_ret|]. by apply stillM_bind. Qed.
Definition unlogged (f : raft S → raft S) : Prop :=
  ∀ r, rlog (f r) = rlog r ∧ prs (f r) = prs r ∧ prevHardSt (f r) = prevHardSt r.
Lemma stillM_modify f : unlogged f → stillM (modify f).
Proof.
  intros Hf r Hr. destruct (Hf r) as (E1 & E2 & E3). apply wp_modify. split; try done. unfold node_wf. by rewrite E1, E2.
Qed.
Lemma stillM_send m : stillM (send m).
Proof. intros r Hr. unfold send. by apply wp_bind, wp_get, wp_modify. Qed.
End still.

Create HintDb still.
#[export] Hint Resolve stillM_ret stillM_get stillM_fails stillM_reads stillM_readLog stillM_bind
  stillM_when stillM_forM stillM_send : still.
#[export] Hint Extern 1 (stillM (modify _)) => (apply stillM_modify; done) : still.
#[export] Hint Extern 2 (stillM (match ?x with _ => _ end)) => destruct x : still.
#[export] Hint Extern 2 (stillM (let '(_, _) := ?x in _)) => destruct x : still.

Section still_methods.
Context {S : Type} `{LogStorageLaws S}.

Lemma still_progressOf i : stillM (S:=S) (progressOf i).
Proof. unfold progressOf. eauto 10 with still. Qed.
Hint Resolve still_progressOf : still.
Lemma still_bcastHeartbeatWithCtx ctx : stillM (S:=S) (bcastHeartbeatWithCtx ctx).
Proof. unfold bcastHeartbeatWithCtx. eauto 15 with still. Qed.
Hint Resolve still_bcastHeartbeatWithCtx : still.
Lemma still_bcastHeartbeat : stillM (S:=S) bcastHeartbeat.
Proof. unfold bcastHeartbeat. eauto 10 with still. Qed.
Lemma still_sendReadIndex m : stillM (S:=S) (sendReadIndex m).
Proof. unfold sendReadIndex. eauto 15 with still. Qed.
Hint Resolve still_bcastHeartbeat still_sendReadIndex : still.
Lemma still_releasePending : stillM (S:=S) releasePendingReadIndexMessages.
Proof. unfold releasePendingReadIndexMessages. eauto 15 with still. Qed.
Hint Resolve still_releasePending : still.
Lemma still_stepReadIndex m : stillM (S:=S) (stepReadIndex m).
Proof. unfold stepReadIndex. eauto 15 with still. Qed.
Lemma still_timeout : stillM (S:=S) resetRandomizedElectionTimeout.
Proof. unfold resetRandomizedElectionTimeout. eauto 15 with still. Qed.
Hint Resolve still_timeout : still.
Lemma still_becomePreCandidate : stillM (S:=S) becomePreCandidate.
Proof. unfold becomePreCandidate. eauto 15 with still. Qed.
Lemma still_recordVote i g : stillM (S:=S) (recordVote i g).
Proof. unfold recordVote. eauto 15 with still. Qed.
Lemma still_sendVoteRequests t v : stillM (S:=S) (sendVoteRequests t v).
Proof. unfold sendVoteRequests. eauto 15 with still. Qed.
Lemma still_tickHeartbeat : stillM (S:=S) tickHeartbeat.
Proof. unfold tickHeartbeat. eauto 15 with still. Qed.
Lemma still_sendSnapshot i : stillM (S:=S) (sendSnapshot i).
Proof. unfold sendSnapshot. eauto 15 with still. Qed.
Hint Resolve still_sendSnapshot : still.
Lemma still_sendAppend i : stillM (S:=S) (sendAppend i).
Proof. unfold sendAppend. eauto 15 with still. Qed.
Hint Resolve still_sendAppend : still.
Lemma still_bcastAppend : stillM (S:=S) bcastAppend.
Proof. unfold bcastAppend. eauto 15 with still. Qed.
Lemma still_handleHeartbeatResp m : stillM (S:=S) (handleHeartbeatResp m).
Proof. unfold handleHeartbeatResp. eauto 20 with still. Qed.
Lemma still_handleVoteRequest m : stillM (S:=S) (handleVoteRequest m).
Proof. unfold handleVoteRequest. eauto 20 with still. Qed.
Lemma still_rejectInLease m : stillM (S:=S) (rejectInLease m).
Proof. unfold rejectInLease. eauto 20 with still. Qed.
Lemma still_stepStale m : stillM (S:=S) (stepStale m).
Proof. unfold stepStale. eauto 20 with still. Qed.

Lemma initProgress_u64 self li ids : is_u64 li → map_Forall (λ _ pr, is_u64 (Match pr)) (initProgress self li ids).
Proof.
  intros Hli. unfold initProgress. pose proof (map_Forall_empty (M:=gmap Z) (λ _ (pr : progress), is_u64 (Match pr))) as Hm.
  revert Hm. generalize (∅ : gmap Z progress). induction ids as [|i ids IH]; [done|]. intros m Hm. simpl.
  apply IH, map_Forall_insert_2; [|done]. simpl. destruct (i =? self); [done|]. unfold is_u64. lia.
Qed.
Lemma still_setPrs m : map_Forall (λ _ pr, is_u64 (Match pr)) m → stillM (S:=S) (modify (set_prs m)).
Proof. intros Hm r [Hwf _]. by apply wp_modify. Qed.
Lemma still_setProgress i pr : is_u64 (Match pr) → stillM (S:=S) (setProgress i pr).
Proof.
  intros Hp r [Hwf Hm]. unfold setProgress. apply wp_bind, wp_get, wp_modify. split; [|done..]. split; [done|].
  by apply map_Forall_insert_2.
Qed.
Lemma still_reset t : stillM (S:=S) (reset t).
Proof.
  intros r Hr. unfold reset. apply wp_bind, wp_get.
  match goal with |- wp _ (?c ≫= _) _ _ => assert (stillM c) as Hc by eauto 10 with still end.
  apply wp_bind. eapply wp_mono; [by apply Hc|]. clear Hc. intros ? r1 H1. cbn beta in H1.
  do 3 (apply wp_bind, wp_modify). apply wp_bind.
  eapply wp_mono; [apply still_timeout; by destruct H1 as [[? ?] _ _]|]. intros ? r2 H2. cbn beta in H2.
  assert (H12 : stays r r2) by (destruct H1, H2; split; simpl in *; [done|congruence..]).
  clear H1 H2. apply wp_bind, wp_modify, wp_bind.
  destruct H12 as [[Hwf Hm] Hp Hl]. eapply wp_reads_ret; [by apply lastIndex_abs|].
  pose proof (absLog_wf _ Hwf) as (? & ? & _). pose proof (zlen_nonneg (a_ents (absLog (rlog r2)))). unfold a_last in *.
  apply wp_bind, wp_modify, wp_bind, wp_modify, wp_modify. split; [|done..]. split; [done|]. simpl.
  apply initProgress_u64. unfold is_u64, a_last. simpl. lia.
Qed.
Hint Resolve still_reset : still.
Lemma still_becomeFollower t ld : stillM (S:=S) (becomeFollower t ld).
Proof. unfold becomeFollower. eauto 10 with still. Qed.
Lemma still_becomeCandidate : stillM (S:=S) becomeCandidate.
Proof. unfold becomeCandidate. eauto 15 with still. Qed.
Lemma still_stepNewer m : stillM (S:=S) (stepNewer m).
Proof. unfold stepNewer. pose proof still_becomeFollower. eauto 15 with still. Qed.
End still_methods.
#[export] Hint Resolve still_bcastHeartbeat still_releasePending still_stepReadIndex still_becomePreCandidate
  still_recordVote still_sendVoteRequests still_tickHeartbeat still_sendAppend still_bcastAppend
  still_handleHeartbeatResp still_handleVoteRequest still_rejectInLease still_stepStale still_reset
  still_becomeFollower still_becomeCandidate still_stepNewer still_progressOf : still.

(** ** Methods that move it *)

Section moving.
Context {S : Type} `{LogStorageLaws S}.
Implicit Types r : raft S.

Record moves (R : raftLog S → raftLog S → Prop) r r' : Prop := mkMoves {
  mo_wf : node_wf r';
  mo_prev : prevHardSt r' = prevHardSt r;
  mo_log : R (rlog r) (rlog r')
}.
(** Room for [n] more entries below the largest index. *)
Definition room r (n : Z) : Prop := a_last (absLog (rlog r)) + n < u64_mod - 1.

Lemma stays_moves r r' : stays r r' → moves appends r r'.
Proof. intros [[Hwf Hm] ? E]. split; [done..|]. rewrite E in *. by apply appends_refl. Qed.
Lemma moves_appends_grows r r' : moves appends r r' → moves grows r r'.
Proof. intros [? ? []]. by split. Qed.
Lemma moves_before {R} r r1 r2 : stays r r1 → moves R r1 r2 → moves R r r2.
Proof. intros [? ? E] []. split; [done|congruence|]. by rewrite <-E. Qed.
Lemma moves_after {R} r r1 r2 : moves R r r1 → stays r1 r2 → moves R r r2.
Proof. intros [] [? ? E]. split; [done|congruence|]. by rewrite E. Qed.

Lemma wp_stillM {A} (c : M (raft S) A) r : node_wf r → stillM c → wp True c (λ _, moves appends r) r.
Proof. intros Hr Hc. eapply wp_mono; [by apply Hc|]. intros a r' H1. by apply stays_moves. Qed.
Lemma wp_still {A B} (c : M (raft S) A) (k : A → M (raft S) B) R r :
  node_wf r → stillM c → (∀ a r1, stays r r1 → wp True (k a) (λ _, moves R r1) r1) → wp True (c ≫= k) (λ _, moves R r) r.
Proof.
  intros Hr Hc Hk. apply wp_bind. eapply wp_mono; [by apply Hc|]. intros a r1 H1.
  eapply wp_mono; [by apply Hk|]. intros b r2 H2. exact (moves_before _ _ _ H1 H2).
Qed.
Lemma wp_then {A B} (c : M (raft S) A) (k : A → M (raft S) B) R r :
  wp True c (λ _, moves R r) r → (∀ a, stillM (k a)) → wp True (c ≫= k) (λ _, moves R r) r.
Proof.
  intros Hc Hk. apply wp_bind. eapply wp_mono; [exact Hc|]. intros a r1 H1.
  eapply wp_mono; [apply Hk, H1|]. intros b r2 H2. exact (moves_after _ _ _ H1 H2).
Qed.
Lemma room_stays r r1 n : stays r r1 → room r n → room r1 n.
Proof. intros [_ _ E]. unfold room. by rewrite E. Qed.

Lemma moves_trans r r1 r2 : node_wf r → moves appends r r1 → moves appends r1 r2 → moves appends r r2.
Proof. intros [Hwf _] [] []. split; [done|congruence|]. by eapply appends_trans. Qed.
Lemma last_u64 (l : raftLog S) : log_wf l → is_u64 (a_last (absLog l)).
Proof.
  intros Hwf. pose proof (absLog_wf l Hwf) as (? & ? & _). pose proof (zlen_nonneg (a_ents (absLog l))).
  unfold is_u64, a_last in *. lia.
Qed.
Lemma maybeUpdate_u64 n pr : is_u64 n → is_u64 (Match pr) → is_u64 (Match (maybeUpdate n pr).1).
Proof. intros. unfold maybeUpdate. simpl. by destruct (_ <? _). Qed.

Lemma collectMatches_u64 ids r ms :
  map_Forall (λ _ pr, is_u64 (Match pr)) (prs r) → collectMatches ids r = Ret ms → Forall is_u64 ms.
Proof.
  intros Hm. revert ms. induction ids as [|i ids IH]; intros ms; simpl; [by intros [= <-]|].
  destruct (prs r !! i) as [pr|] eqn:Hi; [|done]. intros (ms' & E & [= <-])%outcome_bind_Ret.
  constructor; [by apply (Hm i)|]. by apply IH.
Qed.
Lemma wp_maybeCommit r : node_wf r → wp True maybeCommit (λ _, moves appends r) r.
Proof.
  intros Hr. pose proof Hr as [Hwf Hm]. unfold maybeCommit. apply wp_bind, wp_get, wp_bind, wp_reads.
  destruct (collectMatches (peers r) r) as [ms|] eqn:Ems; [|done]. apply collectMatches_u64 in Ems; [|done].
  apply wp_bind, wp_reads. destruct (index _ _) as [mci|] eqn:Ei; [|done]. apply wp_then.
  2: { intros b. eauto 10 with still. }
  unfold wp, runLog. destruct (log_maybeCommit mci (Term r) (rlog r)) as [[l' b]|] eqn:E; [|done]. simpl.
  assert (is_u64 mci).
  { apply index_inv in Ei as [_ Ei%list_elem_of_lookup_2]. rewrite merge_sort_Permutation in Ei. rewrite Forall_forall in Ems. by apply Ems. }
  pose proof (log_maybeCommit_appends _ _ _ _ _ Hwf H1 E) as Ha. split; [|done..]. split; [|done]. by destruct Ha as [[] _].
Qed.

(** ** Appending *)

Lemma stampEntries_contiguous t li es :
  0 ≤ li → li + zlen es < u64_mod - 1 → contiguous (li + 1) (stampEntries t li es) ∧ zlen (stampEntries t li es) = zlen es.
Proof.
  intros Hli Hb. unfold stampEntries, zlen. rewrite length_imap. split; [|done].
  enough (Hgen : ∀ k, Z.of_nat k + li + zlen es < u64_mod - 1 →
    contiguous (li + 1 + Z.of_nat k) (imap (λ i e, mkEntry t (li +w 1 +w Z.of_nat (k + i)) (eType e) (eData e)) es)).
  { specialize (Hgen 0%nat). rewrite Z.add_0_r in Hgen. apply Hgen. lia. }
  clear Hb. induction es as [|e es IH]; intros k Hk; [done|]. rewrite zlen_cons in Hk. pose proof (zlen_nonneg es). simpl. split.
  - rewrite Nat.add_0_r, (w64_id (li + 1)), w64_id by lia. done.
  - replace (li + 1 + Z.of_nat k + 1) with (li + 1 + Z.of_nat (Datatypes.S k)) by lia.
    erewrite imap_ext; [apply IH; lia|]. intros i x _. simpl. do 3 f_equal. lia.
Qed.

Lemma wp_appendEntry es r : node_wf r → room r (zlen es) → wp True (appendEntry es) (λ _, moves appends r) r.
Proof.
  intros Hr Hroom. pose proof Hr as [Hwf Hm]. pose proof (absLog_wf _ Hwf) as (Hb0 & Hb1 & _). pose proof Hwf as (_ & _ & Hm1 & Hm2).
  unfold room in Hroom. unfold appendEntry. apply wp_bind, wp_get, wp_bind. eapply wp_reads_ret; [by apply lastIndex_abs|].
  destruct (stampEntries_contiguous (Term r) (a_last (absLog (rlog r))) es) as [Hc Hlen]; [lia|done|].
  apply wp_bind. unfold wp at 1, runLog. destruct (append _ (rlog r)) as [[l1 x]|] eqn:E; [|done]. simpl.
  assert (Ha : appends (rlog r) l1) by (eapply append_appends; [done..| |exact E]; lia).
  assert (Hr1 : node_wf (set_rlog l1 r)) by (split; [by destruct Ha as [[] _]|done]).
  set (r1 := set_rlog l1 r) in *. apply wp_bind.
  assert (Hpr : ∀ i, wp True (progressOf i) (λ pr r', r' = r1 ∧ is_u64 (Match pr)) r1).
  { intros i. unfold progressOf. apply wp_bind, wp_get. destruct (prs r1 !! i) as [pr|] eqn:Hi; [|done].
    apply wp_ret. split; [done|]. by apply (Hm i). }
  eapply wp_mono; [apply Hpr|]. intros pr ? [-> Hpu]. apply wp_bind.
  eapply wp_reads_ret; [apply lastIndex_abs, Hr1|]. 
  apply wp_bind. eapply wp_mono; [apply still_setProgress; [|exact Hr1]; apply maybeUpdate_u64; [apply last_u64, Hr1|done]|].
  intros ? r2 H2. apply wp_bind. eapply wp_mono; [apply wp_maybeCommit, H2|]. intros ? r3 H3. apply wp_ret.
  apply (moves_trans _ r1); [done|by split|]. exact (moves_before _ _ _ H2 H3).
Qed.
Lemma wp_becomeLeader_log r : node_wf r → room r 1 → wp True becomeLeader (λ _, moves appends r) r.
Proof.
  intros Hr Hroom. unfold becomeLeader. apply wp_bind, wp_get. destruct (decide _); [done|].
  apply wp_still; [done|auto with still|]. intros ? r1 H1. apply wp_bind, wp_modify, wp_bind, wp_modify.
  eapply wp_mono; [apply wp_appendEntry|].
  - by destruct (sy_wf _ _ H1).
  - by apply (room_stays _ _ _ H1).
  - intros ? r2 []. by split.
Qed.
Lemma wp_stepPropose m r : node_wf r → room r (zlen (mEntries m)) → wp True (stepPropose m) (λ _, moves appends r) r.
Proof.
  intros Hr Hroom. unfold stepPropose. apply wp_bind, wp_get. destruct (negb _); [by apply wp_stillM; eauto with still|].
  destruct (decide _); [by apply wp_stillM; eauto with still|]. apply wp_then; [|eauto with still].
  apply wp_appendEntry; [done|]. unfold zlen in *. by rewrite length_map.
Qed.

(** ** Campaigning *)

Lemma wp_solicitVotes_Vote v r : node_wf r → room r 1 → wp True (solicitVotes_Vote v) (λ _, moves appends r) r.
Proof.
  intros Hr Hroom. unfold solicitVotes_Vote. apply wp_bind, wp_get, wp_still; [done|auto with still|]. intros ? r1 H1.
  apply wp_bind, wp_get. destruct (_ <=? _).
  - apply wp_becomeLeader_log; [apply H1|by apply (room_stays _ _ _ H1)].
  - apply wp_stillM; [apply H1|auto with still].
Qed.
Lemma wp_solicitVotes t v r : node_wf r → room r 1 → wp True (solicitVotes t v) (λ _, moves appends r) r.
Proof.
  intros Hr Hroom. unfold solicitVotes. destruct (decide _); [|by apply wp_solicitVotes_Vote].
  apply wp_bind, wp_get, wp_still; [done|auto with still|]. intros ? r1 H1. apply wp_bind, wp_get. destruct (_ <=? _).
  - apply wp_still; [apply H1|auto with still|]. intros ? r2 H2. apply wp_bind, wp_get.
    apply wp_solicitVotes_Vote; [apply H2|]. by eapply room_stays, room_stays.
  - apply wp_stillM; [apply H1|auto with still].
Qed.
Lemma wp_campaign_log r : node_wf r → room r 1 → wp True campaign (λ _, moves appends r) r.
Proof.
  intros Hr Hroom. unfold campaign. apply wp_bind, wp_get. destruct (cPreVote _).
  all: apply wp_still; [done|auto with still|]; intros ? r1 H1; apply wp_bind, wp_get;
    apply wp_solicitVotes; [apply H1|by apply (room_stays _ _ _ H1)].
Qed.
Lemma wp_tick r : node_wf r → room r 1 → wp True tick (λ _, moves appends r) r.
Proof.
  intros Hr Hroom. unfold tick. apply wp_bind, wp_get. destruct (decide _); [by apply wp_stillM; auto with still|].
  unfold tickElection. apply wp_bind, wp_get, wp_still; [done|auto with still|]. intros ? r1 H1. apply wp_bind, wp_get.
  destruct (_ && _); [|apply wp_stillM; [apply H1|auto with still]].
  apply wp_still; [apply H1|auto with still|]. intros ? r2 H2. apply wp_campaign_log; [apply H2|]. by eapply room_stays, room_stays.
Qed.

(** ** Handlers *)

Definition msg_ok (m : Message) : Prop :=
  match mType m with
  | MsgAppend => payload_ok (mLogIndex m) (mLogTerm m) (mEntries m)
  | MsgAppendResp | MsgInstallSnapshotResp => is_u64 (mLogIndex m)
  | MsgInstallSnapshot => from_option (λ sn, snIndex sn < u64_mod - 1) True (mSnapshot m)
  | _ => True
  end.
Definition evolves (l l' : raftLog S) : Prop := grows l l' ∨ ∃ sn, restored l l' sn.

Lemma moves_grows r r' : moves grows r r' → moves evolves r r'.
Proof. intros []. split; [done..|]. by left. Qed.
Lemma moves_appends r r' : moves appends r r' → moves evolves r r'.
Proof. intros Hm. by apply moves_grows, moves_appends_grows. Qed.

Lemma wp_handleAppend m r :
  node_wf r → payload_ok (mLogIndex m) (mLogTerm m) (mEntries m) → wp True (handleAppend m) (λ _, moves grows r) r.
Proof.
  intros Hr Hp. pose proof Hr as [Hwf Hm]. unfold handleAppend. apply wp_bind, wp_get.
  destruct (Z.ltb_spec (mLogIndex m) (committed (rlog r))).
  - eapply wp_mono; [by apply wp_stillM; auto with still|]. intros ? r1. apply moves_appends_grows.
  - apply wp_then; [|intros [?|]; eauto 10 with still]. unfold wp, runLog.
    destruct (maybeAppend _ _ _ _ _) as [[l1 o]|] eqn:E; [|done]. simpl.
    apply maybeAppend_grows in E; [|done..]. split; [|done..]. split; [apply E|done].
Qed.
Lemma wp_handleHeartbeat m r : node_wf r → wp True (handleHeartbeat m) (λ _, moves appends r) r.
Proof.
  intros Hr. unfold handleHeartbeat. apply wp_still; [done|auto with still|]. intros li r1 H1.
  pose proof (sy_wf _ _ H1) as [Hwf Hm]. apply wp_then; [|auto with still]. unfold wp, updLog.
  destruct (commitTo _ _) as [l1|] eqn:E; [|done]. simpl. apply commitTo_appends in E; [|done].
  split; [|done..]. split; [apply E|done].
Qed.
Lemma wp_handleAppendResp m r : node_wf r → is_u64 (mLogIndex m) → wp True (handleAppendResp m) (λ _, moves appends r) r.
Proof.
  intros Hr Hi. pose proof Hr as [Hwf Hm]. unfold handleAppendResp. apply wp_bind, wp_get.
  destruct (prs r !! mFrom m) as [pr|] eqn:Hpr; [|by apply wp_stillM; auto with still]. apply (Hm _) in Hpr. destruct (mReject m).
  - apply wp_stillM; [done|]. apply stillM_bind; [auto with still|]. intros hint.
    destruct (maybeDecrTo _ _ pr) as [pr' ok] eqn:E. apply stillM_bind; [|intros _; auto with still].
    apply still_setProgress. unfold maybeDecrTo in E. destruct (negb _); by injection E as <- _.
  - destruct (maybeUpdate (mLogIndex m) pr) as [pr' up] eqn:E.
    apply wp_still; [done|apply still_setProgress; change pr' with (pr', up).1; rewrite <-E; by apply maybeUpdate_u64|].
    intros ? r1 H1. apply wp_when; intros _; [|by apply stays_moves; destruct H1].
    apply wp_then; [apply wp_maybeCommit, H1|]. auto with still.
Qed.
Lemma wp_handleSnapshot m r :
  node_wf r → from_option (λ sn, snIndex sn < u64_mod - 1) True (mSnapshot m) →
  wp True (handleSnapshot m) (λ _, moves evolves r) r.
Proof.
  intros Hr Hi. pose proof Hr as [Hwf Hm]. unfold handleSnapshot. destruct (mSnapshot m) as [sn|]; simpl in Hi.
  2: { eapply wp_mono; [by apply wp_stillM; auto with still|]. intros ? ?. apply moves_appends. }
  apply wp_then; [|intros [|]; auto with still]. unfold restore. apply wp_bind, wp_get.
  destruct (Z.leb_spec (snIndex sn) (committed (rlog r))).
  { eapply wp_mono; [by apply wp_stillM; auto with still|]. intros ? ?. apply moves_appends. }
  pose proof (absLog_wf _ Hwf) as (? & _). pose proof Hwf as (_ & _ & ? & _).
  apply wp_bind. eapply wp_reads_ret; [apply matchTerm_abs; [done|unfold is_u64; lia]|].
  destruct (Z.eqb_spec (a_term (absLog (rlog r)) (snIndex sn)) (snTerm sn)); (apply wp_then; [|auto with still]).
  - unfold wp, updLog. destruct (commitTo _ _) as [l1|] eqn:E; [|done]. simpl. apply commitTo_appends in E; [|done].
    apply moves_appends. split; [|done..]. split; [apply E|done].
  - unfold wp, updLog. simpl. destruct (log_restore_restored sn (rlog r) Hwf) as []; [lia|done|].
    split; [by split|done|]. right. exists sn. by split.
Qed.

Lemma wp_stepFollower m r : node_wf r → msg_ok m → wp True (stepFollower m) (λ _, moves evolves r) r.
Proof.
  intros Hr Hok. unfold stepFollower, msg_ok in *.
  destruct (mType m); try (eapply wp_mono; [by apply wp_stillM; auto with still|]; intros ? ?; by apply moves_appends).
  all: apply wp_still; [done|eauto with still|]; intros ? r1 H1.
  - eapply wp_mono; [apply wp_handleAppend; [apply H1|done]|]. intros ? ?. apply moves_grows.
  - eapply wp_mono; [apply wp_handleHeartbeat, H1|]. intros ? ?. apply moves_appends.
  - apply wp_handleSnapshot; [apply H1|done].
Qed.
Lemma wp_stepCandidateVote m r : node_wf r → room r 1 → wp True (stepCandidateVote m) (λ _, moves appends r) r.
Proof.
  intros Hr Hroom. unfold stepCandidateVote. apply wp_still; [done|auto with still|]. intros ? r1 H1.
  pose proof (room_stays _ _ _ H1 Hroom) as Hroom1. apply wp_bind, wp_get. destruct (_ <=? _).
  - destruct (decide _).
    + apply wp_still; [apply H1|auto with still|]. intros ? r2 H2. apply wp_bind, wp_get.
      apply wp_solicitVotes; [apply H2|by apply (room_stays _ _ _ H2)].
    + apply wp_then; [|auto with still]. apply wp_becomeLeader_log; [apply H1|done].
  - destruct (_ <=? _); apply wp_stillM; try apply H1; auto with still.
Qed.
Lemma wp_stepCandidate m r : node_wf r → room r 1 → msg_ok m → wp True (stepCandidate m) (λ _, moves evolves r) r.
Proof.
  intros Hr Hroom Hok. unfold stepCandidate, msg_ok in *. apply wp_bind, wp_get.
  assert (Hother : ∀ b : bool, wp True (if b then stepCandidateVote m else mret ()) (λ _, moves evolves r) r).
  { intros [|]; (eapply wp_mono; [|intros ? ?; apply moves_appends]); [by apply wp_stepCandidateVote|].
    by apply wp_stillM; auto with still. }
  destruct (mType m); try (destruct (decide _); [apply (Hother true)|apply (Hother false)]).
  all: apply wp_still; [done|eauto with still|]; intros ? r1 H1.
  - eapply wp_mono; [apply wp_handleAppend; [apply H1|done]|]. intros ? ?. apply moves_grows.
  - eapply wp_mono; [apply wp_handleHeartbeat, H1|]. intros ? ?. apply moves_appends.
  - apply wp_handleSnapshot; [apply H1|done].
Qed.
Lemma wp_stepLeader m r : node_wf r → msg_ok m → wp True (stepLeader m) (λ _, moves appends r) r.
Proof.
  intros Hr Hok. unfold stepLeader, msg_ok in *. destruct (mType m); try (by apply wp_stillM; auto with still).
  - by apply wp_handleAppendResp.
  - apply wp_stillM; [done|]. intros r' Hr'. apply wp_bind, wp_get.
    destruct (prs r' !! mFrom m) as [pr|] eqn:Hpr; [|by apply wp_ret]. apply (proj2 Hr' _) in Hpr.
    apply (stillM_bind (setProgress _ _)); [|auto with still|done]. by apply still_setProgress, maybeUpdate_u64.
Qed.

Lemma wp_stepRole m r : node_wf r → room r 1 → msg_ok m → wp True (stepRole m) (λ _, moves evolves r) r.
Proof.
  intros Hr Hroom Hok. assert (Hstill : ∀ c : M (raft S) (), stillM c → wp True c (λ _, moves evolves r) r).
  { intros c Hc. eapply wp_mono; [by apply wp_stillM|]. intros ? ?. apply moves_appends. }
  unfold stepRole. destruct (mType m); try (apply Hstill; auto with still; fail).
  all: apply wp_bind, wp_get; destruct (state r); try (by apply wp_stepFollower); try (by apply wp_stepCandidate).
  all: eapply wp_mono; [by apply wp_stepLeader|]; intros ? ?; apply moves_appends.
Qed.
Lemma wp_Step m r :
  node_wf r → room r (1 + zlen (mEntries m)) → msg_ok m → wp True (Step m) (λ _, moves evolves r) r.
Proof.
  intros Hr Hroom Hok. pose proof (zlen_nonneg (mEntries m)) as Hn.
  assert (Hroom1 : room r 1) by (unfold room in *; lia).
  assert (Hstill : ∀ A (c : M (raft S) A), stillM c → wp True c (λ _, moves evolves r) r).
  { intros A c Hc. eapply wp_mono; [by apply wp_stillM|]. intros ? ?. apply moves_appends. }
  assert (Hother : wp True (r ← get;
      if inLease m r then rejectInLease m;; mret None
      else if mTerm m =? 0 then stepRole m;; mret None
      else if Term r <? mTerm m then stepNewer m;; stepRole m;; mret None
      else if mTerm m <? Term r then stepStale m;; mret (None : error)
      else stepRole m;; mret None) (λ _, moves evolves r) r).
  { apply wp_bind, wp_get. destruct (inLease m r); [apply Hstill; eauto with still|].
    destruct (_ =? 0); [apply wp_then; [by apply wp_stepRole|auto with still]|].
    destruct (_ <? _).
    { apply wp_still; [done|auto with still|]. intros ? r1 H1.
      apply wp_then; [apply wp_stepRole; [apply H1|by apply (room_stays _ _ _ H1)|done]|auto with still]. }
    destruct (_ <? _); [apply Hstill; eauto with still|]. apply wp_then; [by apply wp_stepRole|auto with still]. }
  unfold Step. destruct (mType m) eqn:Hty; try exact Hother.
  - eapply wp_mono; [apply wp_stepPropose; [done|unfold room in *; lia]|]. intros ? ?. apply moves_appends.
  - apply Hstill; auto with still.
Qed.

(** ** Stepping down *)

Lemma becomeFollower_state t ld r : wp True (becomeFollower t ld) (λ _ r', state r' = StateFollower) r.
Proof.
  unfold becomeFollower. apply wp_bind. eapply (wp_mono _ _ (λ _ _, True)); [unfold wp; by destruct (reset t r) as [[]|]|].
  intros ? r1 _. by apply wp_bind, wp_modify, wp_modify.
Qed.
Lemma handleVoteRequest_state m r : wp True (handleVoteRequest m) (λ _ r', state r' = state r) r.
Proof.
  unfold handleVoteRequest. apply wp_bind, wp_reads. destruct (isUpToDate _ _ _); [|done]. apply wp_bind, wp_get, wp_bind.
  apply (wp_mono _ _ (λ _ r', state r' = state r)).
  - destruct (mType m); try (by apply wp_ret). apply wp_bind, wp_when; intros _; [|by apply wp_ret].
    by apply wp_bind, wp_modify, wp_modify, wp_ret.
  - intros g r1 E. unfold send. apply wp_bind, wp_get, wp_modify. done.
Qed.
(** A follower does not become leader in the same step. *)
Lemma stepRole_follower m r : state r = StateFollower → wp True (stepRole m) (λ _ r', state r' = StateFollower) r.
Proof.
  intros Hs. unfold stepRole.
  assert (Hf : wp True (r ← get; match state r with
      | StateFollower => stepFollower m
      | StatePreCandidate | StateCandidate => stepCandidate m
      | StateLeader => stepLeader m end) (λ _ r', state r' = StateFollower) r).
  { apply wp_bind, wp_get. rewrite Hs. eapply wp_mono; [apply quiet_stepFollower|]. intros ? r1 [].
    congruence. }
  destruct (mType m); try exact Hf; (eapply wp_mono; [apply handleVoteRequest_state|]); intros ? r1; by rewrite Hs.
Qed.

(** The leader's side of a step. *)
Lemma wp_leader_role m r :
  node_wf r → state r = StateLeader → msg_ok m → wp True (stepRole m) (λ _, moves appends r) r.
Proof.
  intros Hr Hs Hok. unfold stepRole.
  destruct (mType m); try (apply wp_stillM; [done|auto with still]; fail).
  all: apply wp_bind, wp_get; rewrite Hs; by apply wp_stepLeader.
Qed.
Lemma wp_leader_step m r :
  node_wf r → state r = StateLeader → room r (1 + zlen (mEntries m)) → msg_ok m →
  wp True (Step m) (λ _ r', state r' = StateFollower ∨ moves appends r r') r.
Proof.
  intros Hr Hs Hroom Hok.
  assert (Hkeep : ∀ A (c : M (raft S) A), wp True c (λ _, moves appends r) r →
    wp True c (λ _ r', state r' = StateFollower ∨ moves appends r r') r).
  { intros A c Hc. eapply wp_mono; [exact Hc|]. auto. }
  assert (Hother : wp True (r ← get;
      if inLease m r then rejectInLease m;; mret None
      else if mTerm m =? 0 then stepRole m;; mret None
      else if Term r <? mTerm m then stepNewer m;; stepRole m;; mret None
      else if mTerm m <? Term r then stepStale m;; mret (None : error)
      else stepRole m;; mret None) (λ _ r', state r' = StateFollower ∨ moves appends r r') r).
  { apply wp_bind, wp_get. destruct (inLease m r); [apply Hkeep, wp_stillM; eauto with still|].
    destruct (_ =? 0); [apply Hkeep, wp_then; [by apply wp_leader_role|auto with still]|].
    destruct (_ <? _).
    { unfold stepNewer. destruct (_ || _).
      - apply wp_bind, wp_ret. apply Hkeep, wp_then; [by apply wp_leader_role|auto with still].
      - apply wp_bind. eapply wp_mono; [apply becomeFollower_state|]. intros ? r1 E. apply wp_bind.
        eapply wp_mono; [by apply stepRole_follower|]. intros ? r2 E2. apply wp_ret. by left. }
    destruct (_ <? _); [apply Hkeep, wp_stillM; eauto with still|].
    apply Hkeep, wp_then; [by apply wp_leader_role|auto with still]. }
  unfold Step. destruct (mType m) eqn:Hty; try exact Hother.
  - apply Hkeep, wp_stepPropose; [done|unfold room in *; lia].
  - apply Hkeep, wp_stillM; auto with still.
Qed.

(** ** Properties *)

(** C30: no input undoes a commit.  Whatever well-formed message a node steps
    on, in whatever role, and on every tick, while indices and terms have room, the log stays well-formed, the
    commit index never falls, and every committed entry that is not compacted
    away is unchanged (appends that conflict, snapshots and term changes
    included). *)
Theorem step_keeps_committed m r e r' :
  node_wf r → msg_ok m → room r (1 + zlen (mEntries m)) →
  Step m r = Ret (e, r') ∨ tick r = Ret ((), r') →
  node_wf r' ∧ storage (rlog r') = storage (rlog r) ∧ committed (rlog r) ≤ committed (rlog r') ∧
  ∀ i, a_base (absLog (rlog r')) < i ≤ committed (rlog r) →
    a_get (absLog (rlog r')) i = a_get (absLog (rlog r)) i.
Proof.
  intros Hr Hok Hroom Hrun. pose proof (zlen_nonneg (mEntries m)).
  assert (Hm : moves evolves r r').
  { destruct Hrun as [Hrun|Hrun]; [by apply (wp_run _ _ _ _ _ (wp_Step m r Hr Hroom Hok) Hrun)|].
    apply moves_appends, (wp_run _ _ _ _ _ (wp_tick r Hr ltac:(unfold room in *; lia)) Hrun). }
  destruct Hm as [Hwf _ [[]|[sn []]]]; split_and!; try done.
  - intros i [_ Hi]. auto.
  - lia.
  - rewrite re_log0. simpl. lia.
Qed.

(** A leader never overwrites its own log.  Whatever message it steps on,
    if it is still leader afterwards then every entry it had is still there, at
    the same index, and the log did not shrink. *)
Theorem leader_append_only m r e r' :
  node_wf r → msg_ok m → room r (1 + zlen (mEntries m)) → state r = StateLeader →
  Step m r = Ret (e, r') → state r' = StateLeader →
  a_last (absLog (rlog r)) ≤ a_last (absLog (rlog r')) ∧
  ∀ i, i ≤ a_last (absLog (rlog r)) → a_get (absLog (rlog r')) i = a_get (absLog (rlog r)) i.
Proof.
  intros Hr Hok Hroom Hs Hrun Hs'.
  destruct (wp_run _ _ _ _ _ (wp_leader_step m r Hr Hs Hroom Hok) Hrun) as [E|[_ _ Ha]]; [congruence|].
  split; [by apply appends_last; [apply Hr|]|apply Ha].
Qed.
End moving.

(** ** Examples *)

Lemma leader1_node : node_wf leader1.
Proof.
  split; [apply leader1_wf|]. simpl. repeat (apply map_Forall_insert_2; [by vm_compute|]). apply map_Forall_empty.
Qed.

Definition propose_one : Message := set_mEntries [ent_ 0 0] (Msg MsgPropose 0).
Lemma propose_runs :
  ∃ e r', Step propose_one leader1 = Ret (e, r') ∧ e = None ∧ state r' = StateLeader ∧ a_last (absLog (rlog r')) = 4.
Proof. apply wp_total. vm_compute. done. Qed.
Lemma propose_room : room leader1 (1 + zlen (mEntries propose_one)).
Proof. unfold room. by vm_compute. Qed.

Lemma step_keeps_committed_witness :
  ∃ r', Step propose_one leader1 = Ret (None, r') ∧ a_last (absLog (rlog r')) = 4 ∧ 1 ≤ committed (rlog r').
Proof.
  destruct propose_runs as (e & r' & E & -> & _ & Hl). exists r'. split; [exact E|]. split; [exact Hl|].
  apply (step_keeps_committed propose_one leader1 None r' leader1_node I propose_room (or_introl E)).
Defined.
Lemma leader_append_only_witness :
  ∃ r', Step propose_one leader1 = Ret (None, r') ∧ state r' = StateLeader ∧
    ∀ i, i ≤ 3 → a_get (absLog (rlog r')) i = a_get (absLog (rlog leader1)) i.
Proof.
  destruct propose_runs as (e & r' & E & -> & Hs & _). exists r'. split; [exact E|]. split; [exact Hs|].
  apply (leader_append_only propose_one leader1 None r' leader1_node I propose_room eq_refl E Hs).
Defined.
