(* ===== verification/Election.v ===== *)
(** * What one call of the core does to term, vote, role and outbox

    [evo] is the relation every input of the core ([tick], [Step]) keeps
    between the states before and after: the term never falls, a ballot cast in
    a term is never changed in that term, and every ballot put in the outbox is
    the ballot the node remembers.  [VI] ties the role of a node to the ballots
    it has seen. *)

From S2P Require Import Prelude RaftTypes Storage RaftLog ReadOnly Raft Quiet.

(** One step of symbolic execution of a method, panics allowed. *)
Ltac wp_step :=
  lazymatch goal with
  | |- wp _ (mbind _ _) _ _ => apply wp_bind
  | |- wp _ (mret _) _ _ => apply wp_ret
  | |- wp _ get _ _ => apply wp_get
  | |- wp _ (modify _) _ _ => apply wp_modify
  | |- wp True (fails _) _ _ => exact I
  | |- wp True (readLog ?f) _ ?s => apply wp_reads; destruct (f (rlog s)); [|exact I]
  | |- wp True (reads ?f) _ ?s => apply wp_reads; destruct (f s); [|exact I]
  | |- wp _ (let '(_, _) := ?x in _) _ _ => destruct x
  end; cbv beta.
Ltac wp_go := repeat wp_step.

(** The ballot a message stands for: voter, term and candidate.  A vote request
    carries the candidate's own ballot. *)
Definition ballot (m : Message) : option (Z * Z * Z) :=
  match mType m with
  | MsgVote => Some (mFrom m, mTerm m, mFrom m)
  | MsgVoteResp => if mReject m then None else Some (mFrom m, mTerm m, mTo m)
  | _ => None
  end.

(** The messages only a leader sends. *)
Definition leader_type (t : MessageType) : Prop :=
  t = MsgAppend ∨ t = MsgHeartbeat ∨ t = MsgInstallSnapshot.

#[export] Instance leader_type_dec t : Decision (leader_type t).
Proof. unfold leader_type. apply _. Defined.

Lemma leader_type_not_pre t : leader_type t → ¬ (t = MsgPreVote ∨ t = MsgPreVoteResp).
Proof. intros [->|[->| ->]] [?|?]; done. Qed.

Section election.
Context {S : Type} `{LogStorage S}.

(** [Req c t]: candidate [c] asked for votes in term [t].
    [G t v]: [v] granted the node its vote in term [t]. *)
Context (Req : Z → Z → Prop) (G : Z → Z → Prop).

(** The ballot is one the node, in state [r], has cast. *)
Definition cast (r : raft S) (t c : Z) : Prop :=
  1 ≤ t ∧ c ≠ NoNode ∧ (t < Term r ∨ (t = Term r ∧ Vote r = c)).

Record good (r : raft S) (m : Message) : Prop := mkGood {
  g_from : mFrom m = id r;
  g_nonneg : 0 ≤ mTerm m;
  g_ballot : ∀ v t c, ballot m = Some (v, t, c) → cast r t c;
  g_req : mType m = MsgVoteResp → mReject m = false → Req (mTo m) (mTerm m);
  g_lead : leader_type (mType m) → 1 ≤ mTerm m
}.

(** A ballot put in the outbox after [r]: it is of [r]'s term or later, and
    agrees with the vote [r] remembers. *)
Definition fresh (r : raft S) (m : Message) : Prop :=
  ∀ v t c, ballot m = Some (v, t, c) →
    Term r ≤ t ∧ (t = Term r → Vote r ≠ NoNode → c = Vote r).

(** One candidate per voter and term. *)
Definition one_vote (ms : list Message) : Prop :=
  ∀ m1 m2 v t c1 c2, m1 ∈ ms → m2 ∈ ms →
    ballot m1 = Some (v, t, c1) → ballot m2 = Some (v, t, c2) → c1 = c2.

Record evo (r r' : raft S) : Prop := mkEvo {
  e_id : id r' = id r;
  e_peers : peers r' = peers r;
  e_prev : prevHardSt r' = prevHardSt r;
  e_storage : storage (rlog r') = storage (rlog r);
  e_Term : Term r ≤ Term r';
  e_Vote : Term r' = Term r → Vote r ≠ NoNode → Vote r' = Vote r;
  e_msgs : ∃ ms, msgs r' = msgs r ++ ms ∧ Forall (good r') ms ∧ Forall (fresh r) ms ∧ one_vote ms
}.

(** What the role says about the ballots. *)
Record VI (r : raft S) : Prop := mkVI {
  vi_term : 0 ≤ Term r;
  vi_self : state r = StateCandidate ∨ state r = StateLeader → Vote r = id r ∧ 1 ≤ Term r;
  vi_cand : state r = StateCandidate →
            ∀ v, votes r !! v = Some true → v = id r ∨ G (Term r) v;
  vi_lead : state r = StateLeader →
            ∃ Q : gset Z, quorum r ≤ Z.of_nat (size Q) ∧ ∀ v, v ∈ Q → v = id r ∨ G (Term r) v
}.

(** A message the network may deliver. *)
Record wf_in (m : Message) : Prop := mkWfIn {
  w_from : mFrom m ≠ NoNode;
  w_nonneg : 0 ≤ mTerm m;
  w_lead : leader_type (mType m) → 1 ≤ mTerm m;
  w_vote : mType m = MsgVote → 1 ≤ mTerm m ∧ Req (mFrom m) (mTerm m);
  w_resp : mType m = MsgVoteResp → mReject m = false → 1 ≤ mTerm m ∧ G (mTerm m) (mFrom m)
}.

(** ** [evo] *)

Lemma cast_evo r r' t c : cast r t c → evo r r' → cast r' t c.
Proof.
  intros (? & ? & Hc) [_ _ _ _ HT HV _]. split_and!; [done..|].
  destruct Hc as [?|[-> Hv]]; [left; lia|].
  destruct (decide (Term r' = Term r)) as [E|]; [|left; lia].
  right. split; [done|]. rewrite HV; congruence.
Qed.
Lemma good_evo r r' m : good r m → evo r r' → good r' m.
Proof.
  intros [] He. constructor; try done.
  - rewrite (e_id _ _ He). done.
  - intros v t c Hb. eapply cast_evo; eauto.
Qed.

Lemma fresh_evo r r' m : fresh r' m → evo r r' → fresh r m.
Proof.
  intros Hf He v t c Hb. destruct (Hf v t c Hb) as [Ht Hc]. pose proof (e_Term _ _ He).
  split; [lia|]. intros -> Hv. pose proof (e_Vote _ _ He) as HV.
  rewrite <-HV by (lia || done). apply Hc; [lia|]. rewrite HV by (lia || done). done.
Qed.

Lemma one_vote_app r ms ms' :
  Forall (good r) ms → Forall (fresh r) ms' → one_vote ms → one_vote ms' → one_vote (ms ++ ms').
Proof.
  intros Hg Hf H1 H2.
  assert (Hx : ∀ m1 m2 v t c1 c2, m1 ∈ ms → m2 ∈ ms' → ballot m1 = Some (v, t, c1) →
    ballot m2 = Some (v, t, c2) → c1 = c2).
  { intros m1 m2 v t c1 c2 Hm1 Hm2 E1 E2. rewrite Forall_forall in Hg, Hf.
    destruct (g_ballot _ _ (Hg _ Hm1) _ _ _ E1) as (_ & Hn & Hc).
    destruct (Hf _ Hm2 _ _ _ E2) as [Ht Hc2]. destruct Hc as [|[-> Hc]]; [lia|].
    symmetry. rewrite <-Hc. apply Hc2; [done|congruence]. }
  intros m1 m2 v t c1 c2 [?|?]%elem_of_app [?|?]%elem_of_app E1 E2.
  - by apply (H1 m1 m2 v t).
  - by apply (Hx m1 m2 v t).
  - symmetry. by apply (Hx m2 m1 v t).
  - by apply (H2 m1 m2 v t).
Qed.

Lemma one_vote_nil : one_vote [].
Proof. intros m1 m2 v t c1 c2 []%not_elem_of_nil. Qed.

#[export] Instance evo_preorder : PreOrder evo.
Proof.
  split.
  - intros r. constructor; try done. exists []. rewrite app_nil_r. auto using one_vote_nil.
  - intros r1 r2 r3 H1 H2. constructor.
    + by rewrite (e_id _ _ H2), (e_id _ _ H1).
    + by rewrite (e_peers _ _ H2), (e_peers _ _ H1).
    + by rewrite (e_prev _ _ H2), (e_prev _ _ H1).
    + by rewrite (e_storage _ _ H2), (e_storage _ _ H1).
    + pose proof (e_Term _ _ H1). pose proof (e_Term _ _ H2). lia.
    + intros Ht Hv. pose proof (e_Term _ _ H1). pose proof (e_Term _ _ H2).
      rewrite (e_Vote _ _ H2); [apply (e_Vote _ _ H1); [lia|done]|lia|].
      rewrite (e_Vote _ _ H1); [done|lia|done].
    + destruct (e_msgs _ _ H1) as (ms & E1 & F1 & N1 & V1), (e_msgs _ _ H2) as (ms' & E2 & F2 & N2 & V2).
      exists (ms ++ ms'). rewrite E2, E1, app_assoc. split_and!; [done|..].
      * apply Forall_app. split; [|done].
        eapply Forall_impl; [exact F1|]. intros m Hg. by eapply good_evo.
      * apply Forall_app. split; [done|].
        eapply Forall_impl; [exact N2|]. intros m Hg. by eapply fresh_evo.
      * by apply (one_vote_app r2).
Qed.

(** [r'] is [r] with another role, term and vote: neither identity nor outbox
    nor storage moved. *)
Record frame (r r' : raft S) : Prop := mkFrame {
  f_id : id r' = id r;
  f_peers : peers r' = peers r;
  f_prev : prevHardSt r' = prevHardSt r;
  f_storage : storage (rlog r') = storage (rlog r);
  f_msgs : msgs r' = msgs r
}.

Lemma frame_trans r1 r2 r3 : frame r1 r2 → frame r2 r3 → frame r1 r3.
Proof. intros [] []. constructor; congruence. Qed.

Lemma frame_evo r r' : frame r r' → Term r ≤ Term r' →
  (Term r' = Term r → Vote r ≠ NoNode → Vote r' = Vote r) → evo r r'.
Proof.
  intros [] ??. constructor; try done. exists []. rewrite app_nil_r. auto using one_vote_nil.
Qed.

Lemma quiet_evo r r' : quiet r r' → 1 ≤ Term r → evo r r'.
Proof.
  intros [] Ht. constructor; try done; [lia|].
  destruct q_msgs as (ms & Hms & Hf). exists ms.
  assert (Hnb : ∀ m, m ∈ ms → ballot m = None).
  { intros m Hm. rewrite Forall_forall in Hf. destruct (Hf m Hm) as (_ & _ & Hb). unfold is_ballot in Hb.
    unfold ballot. destruct (mType m); try done; destruct Hb; auto. }
  split_and!; [done|..].
  - apply Forall_forall. intros m Hm. rewrite Forall_forall in Hf. destruct (Hf m Hm) as (Hfr & Htm & Hb).
    constructor; [congruence|lia| | |lia].
    + rewrite Hnb; done.
    + intros E. destruct Hb. unfold is_ballot. auto.
  - apply Forall_forall. intros m Hm v t c. rewrite Hnb; done.
  - intros m1 m2 v t c1 c2 Hm1 Hm2. rewrite Hnb; done.
Qed.

Lemma quiet_VI r r' : quiet r r' → VI r → VI r'.
Proof.
  intros [] []. constructor; unfold quorum; rewrite ?q_Term, ?q_state, ?q_Vote, ?q_id, ?q_votes, ?q_peers; done.
Qed.

(** A quiet method run by a node that has a term. *)
Lemma quiet_step {A} (c : M (raft S) A) r :
  quietM c → VI r → 1 ≤ Term r → wp True c (λ _ r', evo r r' ∧ VI r') r.
Proof.
  intros Hc Hv Ht. eapply wp_mono; [apply Hc|]. intros a r' Hq.
  split; [by apply quiet_evo|by apply (quiet_VI r)].
Qed.

(** ** Role changes *)

Lemma wp_resetTimeout r :
  wp True resetRandomizedElectionTimeout
    (λ _ r', frame r r' ∧ Term r' = Term r ∧ Vote r' = Vote r ∧ state r' = state r ∧
             votes r' = votes r ∧ lead r' = lead r ∧ rlog r' = rlog r ∧
             cPreVote (cfg r') = cPreVote (cfg r)) r.
Proof.
  unfold resetRandomizedElectionTimeout. wp_go. destruct (cRand (cfg r)) as [rnd|]; [|exact I].
  wp_go. split_and!; done.
Qed.

Definition vote_after (t : Z) (r : raft S) : Z := if Term r =? t then Vote r else NoNode.

Lemma wp_reset t r :
  wp True (reset t)
    (λ _ r', frame r r' ∧ Term r' = t ∧ Vote r' = vote_after t r ∧ state r' = state r ∧
             votes r' = ∅ ∧ rlog r' = rlog r) r.
Proof.
  unfold reset, vote_after. wp_go. apply wp_when; intros Hb; wp_go;
    (eapply wp_mono; [apply wp_resetTimeout|]);
    intros [] r' ([] & HT & HV & Hs & _ & _ & Hl & _); wp_go; simpl in *;
    destruct (Z.eqb_spec (Term r) t); try done; (split_and!; [constructor|..]; simpl; congruence).
Qed.

Lemma wp_becomeFollower t l r :
  wp True (becomeFollower t l)
    (λ _ r', frame r r' ∧ Term r' = t ∧ Vote r' = vote_after t r ∧ state r' = StateFollower ∧
             rlog r' = rlog r) r.
Proof.
  unfold becomeFollower. wp_go. eapply wp_mono; [apply wp_reset|].
  intros [] r' ([] & ? & ? & ? & ? & ?). wp_go. split_and!; [constructor|..]; done.
Qed.

Lemma wp_becomePreCandidate r :
  wp True becomePreCandidate
    (λ _ r', frame r r' ∧ Term r' = Term r ∧ Vote r' = Vote r ∧ state r' = StatePreCandidate) r.
Proof.
  unfold becomePreCandidate. wp_go. case_decide; [exact I|]. wp_go.
  eapply wp_mono; [apply wp_resetTimeout|].
  intros [] r' ([] & ? & ? & ? & ?). split_and!; [constructor|..]; done.
Qed.

Lemma wp_becomeCandidate r :
  wp True becomeCandidate
    (λ _ r', frame r r' ∧ Term r' = Term r +w 1 ∧ Vote r' = id r ∧ state r' = StateCandidate ∧
             votes r' = ∅) r.
Proof.
  unfold becomeCandidate. wp_go. case_decide; [exact I|]. wp_go.
  eapply wp_mono; [apply wp_reset|]. intros [] r' ([] & ? & ? & ? & ? & ?). wp_go.
  split_and!; [constructor|..]; done.
Qed.

Lemma wp_becomeLeader r :
  wp True becomeLeader
    (λ _ r', ∃ r1, frame r r1 ∧ Term r1 = Term r ∧ Vote r1 = Vote r ∧ state r1 = StateLeader ∧
                   quiet r1 r') r.
Proof.
  unfold becomeLeader. wp_go. case_decide; [exact I|]. wp_go.
  eapply wp_mono; [apply wp_reset|]. intros [] r' ([] & HT & HV & ? & ? & ?). wp_go.
  eapply wp_mono; [apply quiet_appendEntry|]. intros [] r'' Hq. eexists. split_and!; [..|exact Hq].
  - constructor; done.
  - done.
  - simpl. rewrite HV. unfold vote_after. by rewrite Z.eqb_refl.
  - done.
Qed.

(** ** Votes *)

Definition stepped (r r' : raft S) : Prop := evo r r' ∧ VI r'.

Lemma stepped_bind {A B} (c : M (raft S) A) (k : A → M (raft S) B) r :
  wp True c (λ _, stepped r) r →
  (∀ a r', stepped r r' → wp True (k a) (λ _, stepped r') r') →
  wp True (c ≫= k) (λ _, stepped r) r.
Proof.
  intros Hc Hk. apply wp_bind. eapply wp_mono; [exact Hc|]. intros a r' Hs.
  eapply wp_mono; [by apply Hk|]. intros b r'' [He Hv].
  split; [|done]. destruct Hs as [He' _]. by transitivity r'.
Qed.

(** The election state is the same. *)
Record keep (r r' : raft S) : Prop := mkKeep {
  k_id : id r' = id r;
  k_peers : peers r' = peers r;
  k_Term : Term r' = Term r;
  k_Vote : Vote r' = Vote r;
  k_state : state r' = state r;
  k_votes : votes r' = votes r
}.

Lemma keep_refl r : keep r r.
Proof. done. Qed.
Lemma keep_trans r1 r2 r3 : keep r1 r2 → keep r2 r3 → keep r1 r3.
Proof. intros [] []. constructor; congruence. Qed.
Lemma keep_VI r r' : keep r r' → VI r → VI r'.
Proof.
  intros [] []. constructor; unfold quorum;
    rewrite ?k_Term0, ?k_state0, ?k_Vote0, ?k_id0, ?k_votes0, ?k_peers0; done.
Qed.

(** The message as [send] queues it. *)
Definition stamped (r : raft S) (m : Message) : Message :=
  let m := set_mFrom (id r) m in
  if (mTerm m =? 0) && negb (bool_decide (mType m = MsgPropose)) then
    match mType m with
    | MsgPreVote | MsgPreVoteResp => m
    | _ => set_mTerm (Term r) m
    end
  else m.

Definition sendable (r : raft S) (m : Message) : Prop := good r m ∧ fresh r m.

Lemma wp_send m r :
  sendable r (stamped r m) →
  wp True (send m) (λ _ r', evo r r' ∧ keep r r') r.
Proof.
  intros [Hg Hf]. unfold send. wp_go. split; [|done]. constructor; try done.
  eexists. split_and!; [done|..].
  - constructor; [|done]. by destruct Hg.
  - by constructor.
  - intros m1 m2 v t c1 c2 ->%list_elem_of_singleton ->%list_elem_of_singleton. congruence.
Qed.

Lemma wp_send_stepped m r :
  VI r → sendable r (stamped r m) → wp True (send m) (λ _, stepped r) r.
Proof.
  intros Hv Hg. eapply wp_mono; [by apply wp_send|]. intros [] r' [He Hk].
  split; [done|by apply (keep_VI r)].
Qed.

(** A message that carries no ballot. *)
Lemma sendable_no_ballot r m :
  mFrom m = id r → 0 ≤ mTerm m → ballot m = None → ¬ leader_type (mType m) →
  (mType m = MsgVoteResp → mReject m = true) → sendable r m.
Proof.
  intros ? ? Hb ? Hr. split; [constructor; try done|].
  - rewrite Hb. done.
  - intros E E'. specialize (Hr E). congruence.
  - intros v t c. by rewrite Hb.
Qed.

(** A message that carries the ballot of the node's current term. *)
Lemma sendable_ballot r m c :
  mFrom m = id r → 1 ≤ Term r → mTerm m = Term r → ballot m = Some (id r, Term r, c) →
  Vote r = c → c ≠ NoNode → (mType m = MsgVoteResp → Req (mTo m) (Term r)) →
  ¬ leader_type (mType m) → sendable r m.
Proof.
  intros ? H1 HT Hb HV Hc HR Hl. split; [constructor; try done|].
  - lia.
  - rewrite Hb. intros v t c' [= <- <- <-]. split_and!; auto.
  - intros E _. rewrite HT. auto.
  - intros v t c'. rewrite Hb. intros [= <- <- <-]. done.
Qed.

Lemma wp_recordVote i g r :
  wp True (recordVote i g)
    (λ _ r', frame r r' ∧ Term r' = Term r ∧ Vote r' = Vote r ∧ state r' = state r ∧
             ∀ v, votes r' !! v = Some true → votes r !! v = Some true ∨ (v = i ∧ g = true)) r.
Proof.
  unfold recordVote. wp_go. destruct (votes r !! i) eqn:E; wp_go.
  - split_and!; [constructor|..]; auto.
  - split_and!; [constructor|..]; auto. simpl. intros v Hv.
    apply lookup_insert_Some in Hv as [[-> ->]|[_ Hv]]; auto.
Qed.

(** Recording a ballot that was granted, or any answer of a pre-vote. *)
Lemma recordVote_stepped i g r :
  VI r → (state r = StateCandidate → g = true → i = id r ∨ G (Term r) i) →
  wp True (recordVote i g) (λ _ r', stepped r r' ∧ frame r r' ∧ state r' = state r ∧ Term r' = Term r ∧ Vote r' = Vote r) r.
Proof.
  intros [] Hi. eapply wp_mono; [apply wp_recordVote|].
  intros ? r' (Hf & HT & HV & Hs & Hv). split_and!; try done.
  split; [apply frame_evo; [done|lia|congruence]|]. destruct Hf. constructor.
  - lia.
  - rewrite Hs, HT, HV, f_id0. done.
  - rewrite Hs, HT, f_id0. intros Hc v [?|[-> ->]]%Hv; auto.
  - unfold quorum. rewrite Hs, HT, f_peers0, f_id0. done.
Qed.

Lemma tally_quorum r :
  VI r → state r = StateCandidate → quorum r ≤ tallyGranted r →
  ∃ Q : gset Z, quorum r ≤ Z.of_nat (size Q) ∧ ∀ v, v ∈ Q → v = id r ∨ G (Term r) v.
Proof.
  intros Hv Hc Ht. exists (dom (filter (λ kv, kv.2 = true) (votes r))). split.
  - unfold tallyGranted in Ht. by rewrite size_dom.
  - intros v Hv'. apply elem_of_dom in Hv' as [b [E Eb]%map_lookup_filter_Some].
    simpl in Eb. subst b. by apply (vi_cand _ Hv).
Qed.

(** A candidate with a quorum of ballots becomes leader. *)
Lemma becomeLeader_stepped r :
  VI r → state r = StateCandidate → quorum r ≤ tallyGranted r →
  wp True becomeLeader (λ _ r', stepped r r' ∧ 1 ≤ Term r') r.
Proof.
  intros Hv Hc Ht. destruct (vi_self _ Hv) as [Hself H1]; [auto|].
  destruct (tally_quorum r Hv Hc Ht) as (Q & HQ & HG).
  eapply wp_mono; [apply wp_becomeLeader|].
  intros [] r' (r1 & Hf & HT & HV & Hs & Hq).
  assert (VI r1).
  { destruct Hf. constructor.
    - lia.
    - rewrite HV, HT, f_id0. done.
    - congruence.
    - intros _. exists Q. unfold quorum. rewrite f_peers0, HT, f_id0. done. }
  assert (evo r r1) by (apply frame_evo; [done|lia|congruence]).
  split; [split|].
  - transitivity r1; [done|]. apply quiet_evo; [done|lia].
  - by apply (quiet_VI r1).
  - rewrite (q_Term _ _ Hq). lia.
Qed.

Lemma wp_sendVoteRequests t vt r :
  (t = MsgVote ∧ vt = Term r ∧ 1 ≤ vt ∧ Vote r = id r ∧ id r ≠ NoNode) ∨ (t = MsgPreVote ∧ 0 ≤ vt) →
  VI r → wp True (sendVoteRequests t vt) (λ _, stepped r) r.
Proof.
  intros Ht Hv. unfold sendVoteRequests. wp_go.
  apply (wp_forM _ _ _ (λ r', evo r r' ∧ keep r r')).
  - split; [reflexivity|apply keep_refl].
  - intros i r' _ [He Hk]. destruct (i =? id r); [by wp_go|].
    eapply wp_mono; [apply wp_send|].
    + destruct Hk. destruct Ht as [(-> & -> & Ht & HV & Hid)|(-> & Ht)]; unfold stamped; simpl.
      * rewrite (proj2 (Z.eqb_neq _ _)) by lia. simpl.
        apply (sendable_ballot _ _ (id r')); simpl; try congruence; try lia.
        { unfold ballot. simpl. congruence. }
        by intros [?|[?|?]].
      * assert (¬ leader_type MsgPreVote) by (by intros [?|[?|?]]).
        destruct (_ =? _); simpl; by apply sendable_no_ballot.
    + intros [] r'' [He' Hk']. split; [by transitivity r'|by apply (keep_trans r r')].
  - intros r' [He Hk]. split; [done|by apply (keep_VI r)].
Qed.

Lemma solicitVotes_Vote_stepped r :
  VI r → state r = StateCandidate → id r ≠ NoNode →
  wp True (solicitVotes_Vote (Term r)) (λ _, stepped r) r.
Proof.
  intros Hv Hc Hid. unfold solicitVotes_Vote. wp_go.
  eapply wp_mono; [apply recordVote_stepped; auto|].
  intros ? r1 ([He Hv1] & Hf & Hs & HT & HV). wp_go.
  destruct (Z.leb_spec (quorum r1) (tallyGranted r1)).
  - eapply wp_mono; [apply becomeLeader_stepped; congruence|].
    intros [] r' ([He' Hv'] & _). split; [by transitivity r1|done].
  - rewrite <-HT. eapply wp_mono; [apply wp_sendVoteRequests; [left|done]|].
    + destruct (vi_self _ Hv1) as [Hself H1]; [rewrite Hs; auto|].
      split_and!; try done. by rewrite (f_id _ _ Hf).
    + intros [] r' [He' Hv']. split; [by transitivity r1|done].
Qed.

(** The step from pre-candidate (or follower) to candidate. *)
Lemma elect_stepped r :
  VI r → id r ≠ NoNode → Term r + 1 < u64_mod →
  wp True (becomeCandidate;; r ← get; solicitVotes_Vote (Term r)) (λ _, stepped r) r.
Proof.
  intros Hv Hid Hb. pose proof (vi_term _ Hv). wp_go.
  eapply wp_mono; [apply wp_becomeCandidate|].
  intros [] r1 (Hf & HT & HV & Hs & Hvs). wp_go. u64_simpl.
  assert (VI r1).
  { destruct Hf. constructor.
    - lia.
    - intros _. split; [congruence|lia].
    - intros _ v. rewrite Hvs, lookup_empty. done.
    - congruence. }
  assert (evo r r1) by (apply frame_evo; [done|lia..]).
  eapply wp_mono; [apply solicitVotes_Vote_stepped; [done..|by rewrite (f_id _ _ Hf)]|].
  intros [] r' [He' Hv']. split; [by transitivity r1|done].
Qed.

Lemma campaign_stepped r :
  VI r → id r ≠ NoNode → Term r + 1 < u64_mod →
  wp True campaign (λ _, stepped r) r.
Proof.
  intros Hv Hid Hb. pose proof (vi_term _ Hv). unfold campaign. wp_go. destruct (cPreVote (cfg r)).
  - wp_go. eapply wp_mono; [apply wp_becomePreCandidate|].
    intros [] r1 (Hf & HT & HV & Hs). wp_go. unfold solicitVotes. rewrite decide_True by done.
    assert (VI r1) by (constructor; try lia; rewrite Hs; naive_solver).
    assert (evo r r1) by (apply frame_evo; [done|lia|congruence]).
    wp_go. eapply wp_mono; [apply recordVote_stepped; [done|congruence]|].
    intros ? r2 ([He2 Hv2] & Hf2 & Hs2 & HT2 & HV2). wp_go.
    assert (evo r r2) by by transitivity r1.
    destruct (_ <=? _).
    + eapply wp_mono; [apply elect_stepped; [done| |lia]|].
      { by rewrite (f_id _ _ Hf2), (f_id _ _ Hf). }
      intros [] r' [??]. split; [by transitivity r2|done].
    + eapply wp_mono; [apply wp_sendVoteRequests; [right|done]|].
      { split; [done|]. apply w64_range. }
      intros [] r' [??]. split; [by transitivity r2|done].
  - by apply elect_stepped.
Qed.

Lemma tick_stepped r :
  VI r → id r ≠ NoNode → Term r + 1 < u64_mod → wp True tick (λ _, stepped r) r.
Proof.
  intros Hv Hid Hb. unfold tick. wp_go. case_decide as Hs.
  { apply quiet_step; [apply quiet_tickHeartbeat|done|]. by apply (vi_self _ Hv); auto. }
  unfold tickElection. wp_go. set (r1 := set_electionElapsed _ r).
  assert (evo r r1) by (apply frame_evo; [done|simpl; lia|done]).
  assert (VI r1) by by apply (keep_VI r).
  destruct (_ && _); wp_go; [|done]. set (r2 := set_electionElapsed _ r1).
  assert (evo r1 r2) by (apply frame_evo; [done|simpl; lia|done]).
  eapply wp_mono; [apply campaign_stepped; [by apply (keep_VI r1)|done..]|].
  intros [] r' [??]. split; [|done]. transitivity r1; [done|by transitivity r2].
Qed.

(** ** [Step] *)

(** Falling back to follower in the current or in a newer term. *)
Lemma becomeFollower_stepped t l r :
  VI r → Term r ≤ t →
  wp True (becomeFollower t l) (λ _ r', stepped r r' ∧ Term r' = t ∧ state r' = StateFollower ∧ id r' = id r) r.
Proof.
  intros Hv Ht. eapply wp_mono; [apply wp_becomeFollower|].
  intros [] r' (Hf & HT & HV & Hs & _). split_and!; [split|done|done|apply Hf].
  - apply frame_evo; [done|lia|]. intros E _. rewrite HV. unfold vote_after.
    destruct (Z.eqb_spec (Term r) t); [done|lia].
  - pose proof (vi_term _ Hv). constructor; rewrite ?Hs; [lia|naive_solver..].
Qed.

(** The term conditions [Step] establishes before it looks at the role. *)
Definition term_checked (m : Message) (r : raft S) : Prop :=
  (¬ (mType m = MsgPreVote ∨ mType m = MsgPreVoteResp) → mTerm m = Term r ∨ mTerm m = 0) ∧
  (state r = StatePreCandidate → Term r + 1 < u64_mod).

Ltac type_cases m := destruct (mType m) eqn:Hty; try done.

Lemma grant_stepped m r :
  VI r → wf_in m → id r ≠ NoNode → mType m = MsgVote → mTerm m = Term r →
  (Vote r = mFrom m ∨ Vote r = NoNode) →
  stepped r (set_electionElapsed 0 (set_Vote (mFrom m) r)).
Proof.
  intros Hv Hw Hid Hty Ht Hcan. set (r' := set_electionElapsed _ _).
  assert (He : evo r r').
  { apply frame_evo; [done|done|]. simpl. intros _ Hn. destruct Hcan; congruence. }
  split; [done|]. destruct Hv as [v1 v2 v3 v4]. constructor; simpl.
  - done.
  - intros Hs. destruct (v2 Hs) as [E ?]. split; [|done]. destruct Hcan; congruence.
  - exact v3.
  - exact v4.
Qed.

(** Refusals, and every answer to a pre-vote. *)
Lemma sendable_resp r t i t0 b :
  t = MsgVoteResp ∧ b = true ∨ t = MsgPreVoteResp → 0 ≤ t0 →
  sendable r (set_mFrom (id r) (set_mTerm t0 (set_mReject b (Msg t i)))).
Proof.
  intros Ht H0. apply sendable_no_ballot; simpl; try done.
  - destruct Ht as [[-> ->]| ->]; done.
  - destruct Ht as [[-> _]| ->]; intros [?|[?|?]]; done.
  - intros ->. destruct Ht as [[_ ->]|?]; done.
Qed.

Lemma stamped_resp r t i b t0 :
  t = MsgVoteResp ∨ t = MsgPreVoteResp → 0 ≤ Term r → 0 ≤ t0 →
  ∃ t1, 0 ≤ t1 ∧ (t = MsgVoteResp → t0 = 0 → t1 = Term r) ∧
    stamped r (set_mTerm t0 (set_mReject b (Msg t i))) =
    set_mFrom (id r) (set_mTerm t1 (set_mReject b (Msg t i))).
Proof.
  intros Ht HT H0. unfold stamped. simpl. destruct (Z.eqb_spec t0 0) as [->|]; simpl.
  - destruct Ht as [-> | ->]; simpl.
    + exists (Term r). done.
    + exists 0. done.
  - exists t0. done.
Qed.

Lemma handleVoteRequest_stepped m r :
  VI r → wf_in m → id r ≠ NoNode → (mType m = MsgVote → mTerm m = Term r) →
  mType m = MsgVote ∨ mType m = MsgPreVote →
  wp True (handleVoteRequest m) (λ _, stepped r) r.
Proof.
  intros Hv Hw Hid Ht Hty. pose proof (vi_term _ Hv) as HT. unfold handleVoteRequest. wp_go.
  destruct Hty as [Hty|Hty]; rewrite Hty; wp_go.
  - rewrite !decide_False by done. specialize (Ht Hty). destruct (w_vote _ Hw Hty) as [H1 HReq].
    destruct (stamped_resp r MsgVoteResp (mFrom m) true 0) as (t1 & Ht1 & _ & E); [auto|lia..|].
    apply wp_when; intros Hg; wp_go.
    + apply andb_true_iff in Hg as [Hg Hu]. rewrite Hg, Hu. simpl.
      rewrite (proj2 (Z.ltb_ge _ _)) in Hg by lia. rewrite orb_false_r in Hg.
      assert (Hcan : Vote r = mFrom m ∨ Vote r = NoNode).
      { apply orb_true_iff in Hg as [Hg|Hg]; [left; lia|right].
        apply andb_true_iff in Hg as [Hg _]. unfold NoNode in *. lia. }
      destruct (grant_stepped m r) as [He Hv']; [done..|]. set (r1 := set_electionElapsed _ _) in *.
      eapply wp_mono; [apply wp_send_stepped; [done|]|].
      * apply (sendable_ballot _ _ (mFrom m)); simpl; try done; [lia|apply Hw| |by intros [?|[?|?]]].
        intros _. by rewrite <-Ht.
      * intros [] r' [??]. split; [by transitivity r1|done].
    + rewrite Hg. simpl. apply wp_send_stepped; [done|].
      change (Msg MsgVoteResp (mFrom m)) with (set_mTerm 0 (Msg MsgVoteResp (mFrom m))).
      change (set_mReject true (set_mTerm 0 ?x)) with (set_mTerm 0 (set_mReject true x)).
      rewrite E. apply sendable_resp; auto.
  - rewrite !decide_True by done. apply wp_send_stepped; [done|].
    destruct (stamped_resp r MsgPreVoteResp (mFrom m) (negb (a && (Term r <? mTerm m))) (mTerm m)) as (t1 & Ht1 & _ & E);
      [auto|lia|apply Hw|].
    rewrite E. apply sendable_resp; auto.
Qed.

Lemma rejectInLease_stepped m r : VI r → wf_in m → wp True (rejectInLease m) (λ _, stepped r) r.
Proof.
  intros Hv Hw. unfold rejectInLease. wp_go. pose proof (vi_term _ Hv). pose proof (w_nonneg _ Hw).
  case_decide; apply wp_send_stepped; try done.
  - destruct (stamped_resp r MsgPreVoteResp (mFrom m) true (mTerm m)) as (t1 & ? & _ & ->); auto.
    apply sendable_resp; auto.
  - destruct (stamped_resp r MsgVoteResp (mFrom m) true (Term r)) as (t1 & ? & _ & ->); auto.
    apply sendable_resp; auto.
Qed.

Lemma stepCandidateVote_stepped m r :
  VI r → id r ≠ NoNode → term_checked m r → state r = StateCandidate ∨ state r = StatePreCandidate →
  (state r = StateCandidate → mReject m = false → G (Term r) (mFrom m)) →
  wp True (stepCandidateVote m) (λ _, stepped r) r.
Proof.
  intros Hv Hid [_ Ha] Hs HG. unfold stepCandidateVote. wp_go.
  eapply wp_mono; [apply recordVote_stepped; [done|]|].
  { intros Hc Hr. right. apply HG; [done|]. by apply negb_true_iff. }
  intros ? r1 ([He Hv1] & Hf & Hs1 & HT & HV). wp_go.
  assert (Hseq : ∀ r', stepped r1 r' → stepped r r').
  { intros r' [??]. split; [by transitivity r1|done]. }
  destruct (Z.leb_spec (quorum r1) (tallyGranted r1)).
  - case_decide as Hp.
    + eapply wp_mono; [apply (elect_stepped r1); [done| |]|].
      * by rewrite (f_id _ _ Hf).
      * rewrite HT. apply Ha. congruence.
      * intros []. exact Hseq.
    + assert (state r1 = StateCandidate) by (rewrite Hs1 in *; by destruct Hs).
      wp_go. eapply wp_mono; [by apply becomeLeader_stepped|].
      intros [] r2 ([He2 Hv2] & HT2). eapply wp_mono; [by apply quiet_step; [apply quiet_bcastAppend|..]|].
      intros [] r' [??]. apply Hseq. split; [by transitivity r2|done].
  - destruct (_ <=? _); wp_go; [|by apply Hseq].
    eapply wp_mono; [by apply becomeFollower_stepped|]. intros [] r' [? _]. by apply Hseq.
Qed.

(** A candidate that hears of a leader of its term follows it. *)
Lemma followLeader_stepped m r (c : M (raft S) ()) :
  VI r → Term r = mTerm m → 1 ≤ mTerm m → quietM c →
  wp True (becomeFollower (mTerm m) (mFrom m);; c) (λ _, stepped r) r.
Proof.
  intros Hv HT H1 Hq. wp_go. eapply wp_mono; [apply becomeFollower_stepped; [done|lia]|].
  intros [] r1 ([He Hv1] & HT1 & _). eapply wp_mono; [apply quiet_step; [done..|lia]|].
  intros [] r' [??]. split; [by transitivity r1|done].
Qed.

Lemma stepCandidate_stepped m r :
  VI r → wf_in m → id r ≠ NoNode → term_checked m r → state r = StateCandidate ∨ state r = StatePreCandidate →
  wp True (stepCandidate m) (λ _, stepped r) r.
Proof.
  intros Hv Hw Hid Ha Hs. unfold stepCandidate. wp_go.
  assert (Hno : stepped r r) by (split; [reflexivity|done]).
  assert (Hlead : leader_type (mType m) → Term r = mTerm m ∧ 1 ≤ mTerm m).
  { intros Hl. pose proof (w_lead _ Hw Hl). destruct Ha as [Ha _]. destruct Ha; [by apply leader_type_not_pre|lia..]. }
  unfold leader_type in Hlead.
  destruct (mType m) eqn:Hty; try (case_decide as Ht; wp_go; [exfalso; revert Ht; by case_decide|exact Hno]).
  - case_decide as Ht; wp_go; [|exact Hno]. apply stepCandidateVote_stepped; auto.
    intros Hc Hr. revert Ht. rewrite decide_False by congruence. done.
  - case_decide as Ht; wp_go; [|exact Hno]. apply stepCandidateVote_stepped; auto.
    intros Hc Hr. destruct (w_resp _ Hw) as [H1 HG]; [done..|].
    destruct Ha as [Ha _]. destruct Ha as [E|]; [rewrite Hty; naive_solver| |lia]. by rewrite <-E.
  - destruct Hlead; [auto|]. apply followLeader_stepped; auto with quiet.
  - destruct Hlead; [auto|]. apply followLeader_stepped; auto with quiet.
  - destruct Hlead; [auto|]. apply followLeader_stepped; auto with quiet.
Qed.

Lemma stepFollower_stepped m r :
  VI r → wf_in m → term_checked m r → wp True (stepFollower m) (λ _, stepped r) r.
Proof.
  intros Hv Hw [Ha _]. destruct (decide (leader_type (mType m))) as [Hl|Hl].
  - apply quiet_step; [apply quiet_stepFollower|done|]. pose proof (w_lead _ Hw Hl).
    destruct Ha; [by apply leader_type_not_pre|lia..].
  - unfold leader_type in Hl. unfold stepFollower. cbn zeta.
    assert (stepped r r) by (split; [reflexivity|done]).
    destruct (mType m); wp_go; auto; exfalso; auto.
Qed.

Lemma stepRole_stepped m r :
  VI r → wf_in m → id r ≠ NoNode → term_checked m r → wp True (stepRole m) (λ _, stepped r) r.
Proof.
  intros Hv Hw Hid Ha. unfold stepRole.
  assert (Hr : wp True (r0 ← get;
      match state r0 with
      | StateFollower => stepFollower m
      | StateLeader => stepLeader m
      | _ => stepCandidate m
      end) (λ _, stepped r) r).
  { wp_go. destruct (state r) eqn:Hs.
    - by apply stepFollower_stepped.
    - apply stepCandidate_stepped; auto.
    - apply stepCandidate_stepped; auto.
    - apply quiet_step; [apply quiet_stepLeader|done|]. apply (vi_self _ Hv); auto. }
  destruct (mType m) eqn:Hty; try exact Hr; apply handleVoteRequest_stepped; auto.
  - rewrite Hty. done.
  - intros _. destruct (w_vote _ Hw Hty). destruct Ha as [Ha _].
    destruct Ha; [rewrite Hty; naive_solver|done|lia].
Qed.

Lemma stepNewer_stepped m r :
  VI r → wf_in m → id r ≠ NoNode → Term r < mTerm m → Term r + 1 < u64_mod →
  wp True (stepNewer m) (λ _ r', stepped r r' ∧ id r' = id r ∧ term_checked m r') r.
Proof.
  intros Hv Hw Hid Ht Hb. unfold stepNewer.
  destruct (bool_decide (mType m = MsgPreVote) || _) eqn:E; wp_go.
  - split_and!; [split; [reflexivity|done]|done|]. split; [|done]. intros Hn. destruct Hn.
    apply orb_true_iff in E as [E|E]; [left; by apply bool_decide_eq_true in E|].
    apply andb_true_iff in E as [E _]. right. by apply bool_decide_eq_true in E.
  - eapply wp_mono; [apply becomeFollower_stepped; [done|lia]|].
    intros [] r' (Hs & HT & Hf & Hid'). split_and!; [done..|]. split; [auto|congruence].
Qed.

Lemma stepStale_stepped m r :
  VI r → wf_in m → mTerm m < Term r → wp True (stepStale m) (λ _, stepped r) r.
Proof.
  intros Hv Hw Ht. pose proof (w_nonneg _ Hw). destruct (decide (mType m = MsgPreVote)) as [E|E].
  - unfold stepStale. wp_go. rewrite E. apply wp_send_stepped; [done|].
    change (set_mReject true (set_mTerm ?t ?x)) with (set_mTerm t (set_mReject true x)).
    destruct (stamped_resp r MsgPreVoteResp (mFrom m) true (Term r)) as (t1 & ? & _ & ->); auto; [lia..|].
    apply sendable_resp; auto.
  - apply quiet_step; [by apply quiet_stepStale_nonballot|done|lia].
Qed.

(** Every message the core is given: [Step] keeps [VI] and takes an [evo] step. *)
Lemma Step_stepped m r :
  VI r → id r ≠ NoNode → Term r + 1 < u64_mod →
  (mType m ≠ MsgPropose → mType m ≠ MsgReadIndex → wf_in m) →
  wp True (Step m) (λ _, stepped r) r.
Proof.
  intros Hv Hid Hb Hw. pose proof (vi_term _ Hv).
  assert (Hno : stepped r r) by (split; [reflexivity|done]).
  assert (Hlead : state r = StateLeader → 1 ≤ Term r) by (intros ?; apply (vi_self _ Hv); auto).
  destruct (decide (mType m = MsgPropose)) as [E|Hp].
  { unfold Step. rewrite E. destruct (decide (state r = StateLeader)).
    - apply quiet_step; [apply quiet_stepPropose|auto..].
    - unfold stepPropose. wp_go. by rewrite bool_decide_false. }
  destruct (decide (mType m = MsgReadIndex)) as [E|Hr].
  { unfold Step. rewrite E. destruct (decide (state r = StateLeader)).
    - apply quiet_step; [apply quiet_stepReadIndex|auto..].
    - unfold stepReadIndex. wp_go. by rewrite bool_decide_false. }
  specialize (Hw Hp Hr).
  enough (wp True (r ← get;
      if inLease m r then rejectInLease m;; mret None
      else if mTerm m =? 0 then stepRole m;; mret None
      else if Term r <? mTerm m then stepNewer m;; stepRole m;; mret None
      else if mTerm m <? Term r then stepStale m;; mret None
      else stepRole m;; mret None) (λ _ : error, stepped r) r) as Hg
    by (unfold Step; destruct (mType m); done).
  wp_go. destruct (inLease m r).
  { wp_go. by eapply wp_mono; [apply rejectInLease_stepped|intros []; wp_go]. }
  destruct (Z.eqb_spec (mTerm m) 0).
  { wp_go. eapply wp_mono; [apply stepRole_stepped; [done..|split; auto]|intros []; by wp_go]. }
  destruct (Z.ltb_spec (Term r) (mTerm m)).
  { wp_go. eapply wp_mono; [by apply stepNewer_stepped|]. intros [] r1 ([??] & Hid1 & Ha). wp_go.
    eapply wp_mono; [apply stepRole_stepped; [done..|congruence|done]|].
    intros [] r' [??]. wp_go. split; [by transitivity r1|done]. }
  destruct (Z.ltb_spec (mTerm m) (Term r)).
  { wp_go. by eapply wp_mono; [apply stepStale_stepped|intros []; wp_go]. }
  wp_go. eapply wp_mono; [apply stepRole_stepped; [done..|split; [|done]]|intros []; by wp_go].
  left. lia.
Qed.

End election.
