(* ===== verification/Replication.v ===== *)
(** * What one input does to log, progress and outbox

    [sent_ok] says of every message the core queues how it reads the state it
    was queued in: an append carries a slice of the log, an acknowledgement an
    index the log holds, a ballot a log comparison.  The lemmas [Step_eff]
    and [tick_eff] relate the states before and after one input: a leader
    only appends entries of its term and commits what a quorum acknowledged; a
    candidate becomes leader by appending one entry; any other node changes its
    log only as a leader's message of its term asks. *)

From S2P Require Import Prelude RaftTypes Storage RaftLog ReadOnly Raft LogSpec RaftSpec Quiet LogSafety Election.

(** Entries behind the last one. *)
Definition a_extend (a : alog) (es : list Entry) : alog := mkALog (a_base a) (a_bterm a) (a_ents a ++ es).

Lemma a_splice_last a es : a_splice a (a_last a + 1) es = a_extend a es.
Proof.
  unfold a_splice, a_extend, a_last. f_equal. f_equal. apply take_ge. unfold zlen. lia.
Qed.
Lemma a_extend_nil a : a_extend a [] = a.
Proof. unfold a_extend. rewrite app_nil_r. by destruct a. Qed.

(** The types of the messages that are only handled in their own term. *)
Definition termed (t : MessageType) : Prop :=
  leader_type t ∨ t = MsgAppendResp ∨ t = MsgInstallSnapshotResp ∨ t = MsgVote.
(** The replies to a leader. *)
Definition reply_type (t : MessageType) : Prop := t = MsgAppendResp ∨ t = MsgHeartbeatResp ∨ t = MsgInstallSnapshotResp.

Section replication.
Context {S : Type} `{LogStorageLaws S}.
Implicit Types r : raft S.

(** A well-formed node whose progress entries hold 64-bit positions. *)
Definition core_wf r : Prop := node_wf r ∧ map_Forall (λ _ pr, 1 ≤ Next pr < u64_mod) (prs r).

(** The append the leader sends to a peer at [pr]: what it holds at and behind
    the position before [Next pr]. *)
Definition append_of r (pr : progress) (m : Message) : Prop :=
  let a := absLog (rlog r) in
  mLogIndex m = Next pr - 1 ∧ mLogTerm m = a_term a (Next pr - 1) ∧ mCommit m = committed (rlog r) ∧
  (a_last a < Next pr ∧ mEntries m = [] ∨
   a_base a < Next pr ≤ a_last a ∧ ∃ hi, Next pr < hi ≤ a_last a + 1 ∧ mEntries m = a_slice a (Next pr) hi).

(** The log holds the append [m0]. *)
Definition matched (a : alog) (m0 : Message) : Prop :=
  a_base a ≤ mLogIndex m0 ∧ a_term a (mLogIndex m0) = mLogTerm m0 ∧ ∀ e, e ∈ mEntries m0 → a_term a (eIndex e) = eTerm e.

(** The index [i] acknowledged on receipt of [inp]: the commit index, or the end
    of an append that matches; 0 acknowledges nothing. *)
Definition answers (inp : option Message) r (i : Z) : Prop :=
  i = 0 ∨ ∃ m0, inp = Some m0 ∧ leader_type (mType m0) ∧ mTerm m0 = Term r ∧
    (i = committed (rlog r) ∨
     mType m0 = MsgAppend ∧ i = mLogIndex m0 + zlen (mEntries m0) ∧ matched (absLog (rlog r)) m0).

(** A reply goes back to the leader that sent the message. *)
Definition replies (inp : option Message) r (m : Message) : Prop :=
  ∃ m0, inp = Some m0 ∧ leader_type (mType m0) ∧ mTerm m0 ≤ Term r ∧ mTo m = mFrom m0.
Definition to_peer r (m : Message) (Q : progress → Prop) : Prop :=
  mTerm m = Term r ∧ state r = StateLeader ∧ mTo m ≠ id r ∧ ∃ pr, prs r !! mTo m = Some pr ∧ Q pr.

Definition sent_ok (inp : option Message) r (m : Message) : Prop :=
  mFrom m = id r ∧
  match mType m with
  | MsgAppend => to_peer r m (λ pr, append_of r pr m)
  | MsgHeartbeat => to_peer r m (λ pr, mCommit m = Z.min (Match pr) (committed (rlog r)))
  | MsgInstallSnapshot =>
      mTerm m = Term r ∧ state r = StateLeader ∧ mTo m ≠ id r ∧
      mSnapshot m = Some (v_snap (view (storage (rlog r)))) ∧ v_off (view (storage (rlog r))) ≠ 0
  | MsgHeartbeatResp => replies inp r m
  | MsgAppendResp =>
      mTerm m = Term r ∧ replies inp r m ∧
      if mReject m then 0 ≤ mRejectHint m ≤ mLogIndex m ∧ mLogIndex m < u64_mod ∧ mRejectHint m < u64_mod - 1
      else answers inp r (mLogIndex m)
  | MsgInstallSnapshotResp => mTerm m = Term r ∧ replies inp r m ∧ answers inp r (mLogIndex m)
  | MsgVote =>
      state r = StateCandidate ∧ mTerm m = Term r ∧
      mLogIndex m = a_last (absLog (rlog r)) ∧ mLogTerm m = a_lastTerm (absLog (rlog r))
  | MsgVoteResp =>
      mReject m = false → ∃ m0, inp = Some m0 ∧ mType m0 = MsgVote ∧ mFrom m0 = mTo m ∧ mTerm m0 = Term r ∧
        mTerm m = Term r ∧ a_upToDate (absLog (rlog r)) (mLogIndex m0) (mLogTerm m0) = true
  | _ => True
  end.

(** ** Methods that only queue messages *)

Record calm (inp : option Message) r r' : Prop := mkCalm {
  ca_rlog : rlog r' = rlog r;
  ca_prs : prs r' = prs r;
  ca_Term : Term r' = Term r;
  ca_state : state r' = state r;
  ca_id : id r' = id r;
  ca_peers : peers r' = peers r;
  ca_msgs : ∃ ms, msgs r' = msgs r ++ ms ∧ Forall (sent_ok inp r) ms
}.

Lemma sent_ok_eq inp r r' m :
  rlog r' = rlog r → prs r' = prs r → Term r' = Term r → state r' = state r → id r' = id r →
  sent_ok inp r m → sent_ok inp r' m.
Proof.
  intros E1 E2 E3 E4 E5. unfold sent_ok, to_peer, append_of, answers, replies. by rewrite E1, E2, E3, E4, E5.
Qed.
Lemma calm_refl inp r : calm inp r r.
Proof. split; try done. exists []. by rewrite app_nil_r. Qed.
Lemma calm_trans inp r1 r2 r3 : calm inp r1 r2 → calm inp r2 r3 → calm inp r1 r3.
Proof.
  intros [] []. split; try congruence. destruct ca_msgs0 as (ms & E & Hf), ca_msgs1 as (ms' & E' & Hf').
  exists (ms ++ ms'). rewrite E', E, app_assoc. split; [done|]. apply Forall_app. split; [done|].
  eapply Forall_impl; [exact Hf'|]. intros m. by apply sent_ok_eq.
Qed.
Lemma calm_wf inp r r' : calm inp r r' → core_wf r → core_wf r'.
Proof. intros []. unfold core_wf, node_wf. by rewrite ca_rlog0, ca_prs0. Qed.

(** In role [s], the method queues messages and leaves the rest alone. *)
Definition calmM (inp : option Message) (s : StateType) {A} (c : M (raft S) A) : Prop :=
  ∀ r, core_wf r → state r = s → wp True c (λ _ r', calm inp r r') r.

Lemma calmM_ret inp s {A} (a : A) : calmM inp s (mret a).
Proof. intros r _ _. apply wp_ret, calm_refl. Qed.
Lemma calmM_get inp s : calmM inp s get.
Proof. intros r _ _. apply wp_get, calm_refl. Qed.
Lemma calmM_fails inp s {A} w : calmM inp s (fails w : M (raft S) A).
Proof. done. Qed.
Lemma calmM_reads inp s {A} (f : raft S → outcome A) : calmM inp s (reads f).
Proof. intros r _ _. apply wp_reads. destruct (f r); [apply calm_refl|done]. Qed.
Lemma calmM_readLog inp s {A} (f : raftLog S → outcome A) : calmM inp s (readLog f).
Proof. apply calmM_reads. Qed.
Lemma calmM_bind inp s {A B} (c : M (raft S) A) (k : A → M (raft S) B) :
  calmM inp s c → (∀ a, calmM inp s (k a)) → calmM inp s (c ≫= k).
Proof.
  intros Hc Hk r Hr Hs. apply wp_bind. eapply wp_mono; [by apply Hc|]. intros a r1 H1.
  eapply wp_mono; [apply Hk; [by apply (calm_wf inp r)|]|].
  - by rewrite (ca_state _ _ _ H1).
  - intros b r2. by apply calm_trans.
Qed.
Lemma calmM_when inp s b (c : M (raft S) ()) : calmM inp s c → calmM inp s (when b c).
Proof. destruct b; [done|]. intros _. apply calmM_ret. Qed.
Lemma calmM_forM inp s {A} (xs : list A) (f : A → M (raft S) ()) : (∀ x, calmM inp s (f x)) → calmM inp s (forM xs f).
Proof. intros Hf. induction xs as [|x xs IH]; [apply calmM_ret|]. by apply calmM_bind. Qed.
(** The updates of the fields [calm] does not mention. *)
Definition aside (f : raft S → raft S) : Prop := ∀ inp r, calm inp r (f r).
Lemma calmM_modify inp s f : aside f → calmM inp s (modify f).
Proof. intros Hf r _ _. apply wp_modify, Hf. Qed.
Lemma wp_send_calm inp m r :
  sent_ok inp r (stamped r m) → wp True (send m) (λ _ r', calm inp r r') r.
Proof.
  intros Hm. unfold send. apply wp_bind, wp_get, wp_modify. split; try done.
  eexists. split; [reflexivity|]. by constructor.
Qed.
(** Messages nothing is said of. *)
Lemma calmM_send_plain inp s m :
  (mType m ∈ [MsgPreVote; MsgPreVoteResp]) ∨ (mType m = MsgVoteResp ∧ mReject m = true) →
  calmM inp s (send m).
Proof.
  intros Hm r Hr Hs. apply wp_send_calm. unfold sent_ok, stamped. cbn [mTerm set_mFrom mType].
  destruct m as [t ? ? ? ? ? ? ? rj]. simpl in *. rewrite !elem_of_cons in Hm.
  destruct (_ && _); destruct Hm as [[->|[->|[]%not_elem_of_nil]]|[-> ->]]; done.
Qed.
End replication.

Create HintDb calm.
#[export] Hint Resolve calmM_ret calmM_get calmM_fails calmM_reads calmM_readLog calmM_bind calmM_when calmM_forM : calm.
#[export] Hint Extern 1 (aside _) => (intros ? ?; split; try done; exists []; by rewrite app_nil_r) : calm.
#[export] Hint Extern 1 (calmM _ _ (modify _)) => apply calmM_modify : calm.
#[export] Hint Extern 2 (calmM _ _ (match ?x with _ => _ end)) => destruct x : calm.
#[export] Hint Extern 2 (calmM _ _ (let '(_, _) := ?x in _)) => destruct x : calm.

Section queueing.
Context {S : Type} `{LogStorageLaws S}.
Implicit Types r : raft S.
Context (inp : option Message).

(** ** The leader's messages *)

(** A loop over the peers that reads the state it started from. *)
Lemma wp_forM_calm {A} (xs : list A) (f : A → M (raft S) ()) s r :
  core_wf r → state r = s → (∀ x r', calm inp r r' → core_wf r' → state r' = s → wp True (f x) (λ _ r'', calm inp r' r'') r') →
  wp True (forM xs f) (λ _ r', calm inp r r') r.
Proof.
  intros Hr Hs Hf. apply (wp_forM _ _ _ (calm inp r)); [apply calm_refl| |done]. intros x r' _ Hc.
  eapply wp_mono; [apply Hf; [done|by apply (calm_wf inp r)|by rewrite (ca_state _ _ _ Hc)]|].
  intros [] r''. by apply calm_trans.
Qed.

Lemma calm_bcastHeartbeatWithCtx ctx : calmM (S:=S) inp StateLeader (bcastHeartbeatWithCtx ctx).
Proof.
  intros r Hr Hs. unfold bcastHeartbeatWithCtx. apply wp_bind, wp_get. apply (wp_forM_calm _ _ StateLeader); [done..|].
  intros i r' Hc Hr' Hs'. destruct (Z.eqb_spec i (id r)) as [|Hne]; [by apply (calmM_ret inp StateLeader)|].
  unfold progressOf. apply wp_bind, wp_bind, wp_get. destruct (prs r' !! i) as [pr|] eqn:Hp; [|done].
  apply wp_ret, wp_bind, wp_get, wp_send_calm. unfold stamped. simpl. split; [done|]. simpl.
  split_and!; [done|done|simpl; by rewrite (ca_id _ _ _ Hc)|]. by exists pr.
Qed.
Lemma calm_bcastHeartbeat : calmM (S:=S) inp StateLeader bcastHeartbeat.
Proof. unfold bcastHeartbeat. pose proof calm_bcastHeartbeatWithCtx. eauto with calm. Qed.
Hint Resolve calm_bcastHeartbeatWithCtx calm_bcastHeartbeat : calm.
Lemma calm_sendReadIndex m : calmM (S:=S) inp StateLeader (sendReadIndex m).
Proof. unfold sendReadIndex. eauto 15 with calm. Qed.
Hint Resolve calm_sendReadIndex : calm.
Lemma calm_releasePending : calmM (S:=S) inp StateLeader releasePendingReadIndexMessages.
Proof. unfold releasePendingReadIndexMessages. eauto 15 with calm. Qed.
Lemma calm_stepReadIndex m : calmM (S:=S) inp StateLeader (stepReadIndex m).
Proof. unfold stepReadIndex. eauto 15 with calm. Qed.
Lemma calm_tickHeartbeat : calmM (S:=S) inp StateLeader tickHeartbeat.
Proof. unfold tickHeartbeat. eauto 15 with calm. Qed.

Lemma calm_sendSnapshot i r :
  core_wf r → state r = StateLeader → i ≠ id r → wp True (sendSnapshot i) (λ _ r', calm inp r r') r.
Proof.
  intros Hr Hs Hi. unfold sendSnapshot. apply wp_bind. eapply wp_reads_ret; [apply law_snap|]. cbv beta iota.
  destruct (Z.eqb_spec (snIndex (v_snap (view (storage (rlog r))))) 0); [by apply (calmM_ret inp StateLeader)|].
  apply wp_send_calm. by unfold stamped.
Qed.

(** The entries of one append. *)
Lemma entriesToSend_abs lo r :
  log_wf (rlog r) → 1 ≤ lo < u64_mod →
  let a := absLog (rlog r) in
  (a_last a < lo ∧ entriesToSend lo r = Ret (Ok [])) ∨
  (lo ≤ a_base a ∧ entriesToSend lo r = Ret (Err ErrCompacted)) ∨
  (a_base a < lo ≤ a_last a ∧ ∃ hi, lo < hi ≤ a_last a + 1 ∧ entriesToSend lo r = Ret (Ok (a_slice a lo hi))).
Proof.
  intros Hwf Hlo a. pose proof (absLog_wf _ Hwf) as (H0' & H1 & _). fold a in H0', H1. unfold entriesToSend.
  rewrite lastIndex_abs by done. fold a. simpl. destruct (Z.ltb_spec (a_last a) lo); [by left|]. right.
  rewrite (w64_id (a_last a + 1)) by lia. rewrite (w64_id (a_last a + 1 - lo)) by lia.
  set (hi := if (0 <? cMaxEntriesPerAppend (cfg r)) && _ then _ else _).
  assert (Hhi : lo < hi ≤ a_last a + 1).
  { unfold hi. destruct (Z.ltb_spec 0 (cMaxEntriesPerAppend (cfg r))); simpl; [|lia].
    destruct (Z.ltb_spec (cMaxEntriesPerAppend (cfg r)) (a_last a + 1 - lo)); [|lia]. rewrite w64_id by lia. lia. }
  clearbody hi. destruct (decide (lo ≤ a_base a)).
  - left. split; [done|]. by apply slice_compacted; [|lia|].
  - right. split; [lia|]. exists hi. split; [done|]. rewrite slice_abs by (done || fold a; lia).
    fold a. by rewrite Z.min_l by lia.
Qed.

Lemma calm_sendAppend i r :
  core_wf r → state r = StateLeader → i ≠ id r → wp True (sendAppend i) (λ _ r', calm inp r r') r.
Proof.
  intros Hr Hs Hi. pose proof Hr as [[Hwf _] Hn]. unfold sendAppend. apply wp_bind, wp_get.
  destruct (prs r !! i) as [pr|] eqn:Hp; [|by apply (calmM_ret inp StateLeader)].
  specialize (Hn i pr Hp). simpl in Hn. rewrite w64_id by lia.
  apply wp_bind. eapply wp_reads_ret; [apply term_abs; [done|unfold is_u64; lia]|]. apply wp_bind.
  destruct (entriesToSend_abs (Next pr) r Hwf Hn) as [(Hl & E)|[(Hl & E)|(Hl & hi & Hhi & E)]];
    (eapply wp_reads_ret; [exact E|]).
  2: { by apply calm_sendSnapshot. }
  all: apply wp_send_calm; unfold stamped; simpl; (split; [done|]); simpl; (split_and!; [done..|]); exists pr;
    (split; [done|]); (split_and!; [done..|]).
  - by left.
  - right. eauto.
Qed.
Lemma calm_bcastAppend : calmM (S:=S) inp StateLeader bcastAppend.
Proof.
  intros r Hr Hs. unfold bcastAppend. apply wp_bind, wp_get. apply (wp_forM_calm _ _ StateLeader); [done..|].
  intros i r' Hc Hr' Hs'. destruct (Z.eqb_spec i (id r)) as [|Hne]; [by apply (calmM_ret inp StateLeader)|].
  apply calm_sendAppend; [done..|]. by rewrite (ca_id _ _ _ Hc).
Qed.
Lemma calm_handleHeartbeatResp m r :
  core_wf r → state r = StateLeader → mFrom m ≠ id r → wp True (handleHeartbeatResp m) (λ _ r', calm inp r r') r.
Proof.
  intros Hr Hs Hi. unfold handleHeartbeatResp. apply wp_bind, wp_get, wp_bind.
  eapply (wp_mono _ _ (λ _ r', calm inp r r')).
  - destruct (prs r !! mFrom m); [|by apply (calmM_ret inp StateLeader)].
    apply wp_bind, wp_reads. destruct (lastIndex (rlog r)); [|done]. apply wp_when; intros _; [|apply calm_refl].
    by apply calm_sendAppend.
  - intros _ r1 H1. eapply wp_mono; [|intros ? r2; apply (calm_trans _ _ r1), H1].
    match goal with |- wp _ ?c _ _ => assert (calmM inp StateLeader c) as Hc by eauto 15 with calm end.
    apply Hc; [by apply (calm_wf inp r)|]. by rewrite (ca_state _ _ _ H1).
Qed.

(** ** Vote requests and refusals *)

Lemma calm_sendVoteRequests r :
  core_wf r → state r = StateCandidate → Term r ≠ 0 →
  wp True (sendVoteRequests MsgVote (Term r)) (λ _ r', calm inp r r') r.
Proof.
  intros Hr Hs Ht. pose proof Hr as [[Hwf _] _]. unfold sendVoteRequests.
  apply wp_bind. eapply wp_reads_ret; [by apply lastIndex_abs|].
  apply wp_bind. eapply wp_reads_ret; [by apply lastTerm_abs|]. apply wp_bind, wp_get.
  apply (wp_forM_calm _ _ StateCandidate); [done..|].
  intros i r' Hc Hr' Hs'. destruct (_ =? _); [by apply (calmM_ret inp StateCandidate)|].
  apply wp_send_calm. unfold stamped. simpl. rewrite (proj2 (Z.eqb_neq _ _)) by done. simpl. split; [done|]. simpl.
  by rewrite (ca_Term _ _ _ Hc), (ca_rlog _ _ _ Hc).
Qed.
Lemma calm_sendPreVotes s t : calmM (S:=S) inp s (sendVoteRequests MsgPreVote t).
Proof.
  unfold sendVoteRequests. repeat (apply calmM_bind; [auto with calm|intros ?]). apply calmM_forM. intros i.
  destruct (_ =? _); [auto with calm|]. apply calmM_send_plain. left. simpl. set_solver.
Qed.
Lemma calm_recordVote s i g : calmM (S:=S) inp s (recordVote i g).
Proof. unfold recordVote. eauto 15 with calm. Qed.
Lemma calm_rejectInLease s m : calmM (S:=S) inp s (rejectInLease m).
Proof.
  unfold rejectInLease. apply calmM_bind; [auto with calm|]. intros r. destruct (decide _); apply calmM_send_plain.
  - left. simpl. set_solver.
  - by right.
Qed.
Lemma calm_stepStale m r :
  inp = Some m → core_wf r → mTerm m ≤ Term r → wp True (stepStale m) (λ _ r', calm inp r r') r.
Proof.
  intros Hi Hr Ht. unfold stepStale. apply wp_bind, wp_get.
  destruct (mType m) eqn:Hty; try (apply wp_ret, calm_refl).
  1: { apply (calmM_send_plain inp (state r)); [left; simpl; set_solver|done..]. }
  all: assert (Hl : leader_type (mType m)) by (rewrite Hty; unfold leader_type; auto).
  all: apply wp_send_calm; unfold stamped; simpl; (split; [done|]); simpl.
  2: { exists m; split_and!; [done|done|lia|done]. }
  all: split_and!; [done|exists m; split_and!; [done|done|lia|done]|by left].
Qed.
Lemma calm_handleVoteRequest m r :
  inp = Some m → core_wf r → mType m = MsgPreVote ∨ mType m = MsgVote ∧ mTerm m = Term r →
  wp True (handleVoteRequest m) (λ _ r', calm inp r r') r.
Proof.
  intros Hi Hr Ht. pose proof Hr as [[Hwf _] _]. unfold handleVoteRequest. apply wp_bind.
  eapply wp_reads_ret; [by apply isUpToDate_abs|]. apply wp_bind, wp_get, wp_bind.
  destruct Ht as [Hty|[Hty Ht]]; rewrite Hty.
  - apply wp_ret. rewrite !decide_True by done. eapply calmM_send_plain; [|done|reflexivity]. left. simpl. set_solver.
  - rewrite !decide_False by done. apply wp_bind. set (g := _ && _).
    eapply (wp_mono _ _ (λ _ r', calm inp r r')).
    { match goal with |- wp _ ?c _ _ => assert (calmM inp (state r) c) as Hc by eauto 15 with calm end. by apply Hc. }
    intros _ r1 Hc. apply wp_ret. eapply wp_mono; [|intros ? r2; apply (calm_trans _ _ r1), Hc].
    apply wp_send_calm. unfold stamped, sent_ok. simpl. split; [done|].
    intros [_ Hu]%negb_false_iff%andb_true_iff. exists m.
    rewrite (ca_Term _ _ _ Hc), (ca_rlog _ _ _ Hc). by split_and!.
Qed.

(** ** The leader's own moves *)

(** A quorum acknowledged the commit index, at which the entry is of the
    leader's term. *)
Definition commits r : Prop :=
  ∃ Q : gset Z, quorum r ≤ Z.of_nat (size Q) ∧ a_term (absLog (rlog r)) (committed (rlog r)) = Term r ∧
    ∀ p, p ∈ Q → p ∈ peers r ∧ ∃ pr, prs r !! p = Some pr ∧ committed (rlog r) ≤ Match pr.

(** The input acknowledges index [i] for peer [p] in term [t]. *)
Definition acks (t p i : Z) : Prop :=
  ∃ m0, inp = Some m0 ∧ mFrom m0 = p ∧ mTerm m0 = t ∧ mLogIndex m0 = i ∧
    (mType m0 = MsgAppendResp ∧ mReject m0 = false ∨ mType m0 = MsgInstallSnapshotResp).
Definition follows (t p : Z) (pr pr' : progress) : Prop :=
  (Match pr' = Match pr ∨ acks t p (Match pr')) ∧ (Next pr' ≤ Next pr ∨ acks t p (Next pr' - 1)).

Record leads r r' : Prop := mkLeads {
  ld_wf : core_wf r';
  ld_state : state r' = StateLeader;
  ld_Term : Term r' = Term r;
  ld_id : id r' = id r;
  ld_peers : peers r' = peers r;
  ld_log : ∃ es, absLog (rlog r') = a_extend (absLog (rlog r)) es ∧ Forall (λ e, eTerm e = Term r) es;
  ld_prs : ∀ p pr', p ≠ id r → prs r' !! p = Some pr' → ∃ pr, prs r !! p = Some pr ∧ follows (Term r) p pr pr';
  ld_commit : committed (rlog r') = committed (rlog r) ∨ commits r';
  ld_msgs : ∃ ms, msgs r' = msgs r ++ ms ∧ Forall (sent_ok inp r') ms
}.

Lemma commits_eq r r' :
  rlog r' = rlog r → prs r' = prs r → Term r' = Term r → peers r' = peers r → commits r → commits r'.
Proof. intros E1 E2 E3 E4. unfold commits, quorum. by rewrite E1, E2, E3, E4. Qed.
Lemma follows_refl t p pr : follows t p pr pr.
Proof. split; left; lia. Qed.
Lemma leads_refl r : core_wf r → state r = StateLeader → leads r r.
Proof.
  intros Hr Hs. split; try done; [|eauto using follows_refl|by left|].
  - exists []. by rewrite a_extend_nil.
  - exists []. by rewrite app_nil_r.
Qed.
Lemma leads_calm r r1 r' : leads r r1 → calm inp r1 r' → leads r r'.
Proof.
  intros [] Hc. pose proof (calm_wf _ _ _ Hc ld_wf0). destruct Hc. split; try done; try congruence.
  - by rewrite ca_rlog0.
  - by rewrite ca_prs0.
  - rewrite ca_rlog0. destruct ld_commit0 as [|Hc]; [by left|right]. by apply (commits_eq r1).
  - destruct ld_msgs0 as (ms & E & Hf), ca_msgs0 as (ms' & E' & Hf'). exists (ms ++ ms'). rewrite E', E, app_assoc.
    split; [done|]. apply Forall_app. split; (eapply Forall_impl; [done|]); intros m; by apply sent_ok_eq.
Qed.

(** [maybeCommit] before it answers the reads it unblocks. *)
Record committing r r1 : Prop := mkCommitting {
  cm_eq : ∃ l, r1 = set_rlog l r;
  cm_wf : core_wf r1;
  cm_log : absLog (rlog r1) = absLog (rlog r);
  cm_commit : committed (rlog r1) = committed (rlog r) ∨ commits r1
}.
Lemma leads_committing r r1 r2 :
  leads r r1 → committed (rlog r1) = committed (rlog r) → msgs r1 = msgs r → committing r1 r2 → leads r r2.
Proof.
  intros [] Hc Hm [[l ->] Hwf Hl Hcm]. split; try done.
  - by rewrite Hl.
  - destruct Hcm as [E|]; [left; congruence|by right].
  - exists []. simpl. by rewrite app_nil_r, Hm.
Qed.

Lemma collectMatches_map ids r ms :
  collectMatches ids r = Ret ms →
  ms = map (λ p, default 0 (Match <$> prs r !! p)) ids ∧ ∀ p, p ∈ ids → is_Some (prs r !! p).
Proof.
  revert ms. induction ids as [|i ids IH]; intros ms; simpl; [intros [= <-]; split; [done|by intros ? ?%not_elem_of_nil]|].
  destruct (prs r !! i) as [pr|] eqn:Hi; [|done]. intros (ms' & E & [= <-])%outcome_bind_Ret.
  destruct (IH _ E) as [-> Hs]. simpl. split; [done|]. intros p [->|Hp]%elem_of_cons; [by rewrite Hi|by apply Hs].
Qed.
Lemma count_ge_map {A} (f : A → Z) n xs : count_ge n (map f xs) = zlen (filter (λ x, n ≤ f x) xs).
Proof.
  unfold count_ge, zlen. induction xs as [|x xs IH]; [done|]. rewrite map_cons, !filter_cons.
  destruct (decide (n ≤ f x)); simpl; lia.
Qed.

Lemma maybeCommit_eff r :
  core_wf r → state r = StateLeader → Term r ≠ 0 → NoDup (peers r) →
  wp True maybeCommit (λ _ r', ∃ r1, committing r r1 ∧ calm inp r1 r') r.
Proof.
  intros Hr Hs HT Hnd. pose proof Hr as [[Hwf Hm] Hn]. unfold maybeCommit. apply wp_bind, wp_get, wp_bind, wp_reads.
  destruct (collectMatches (peers r) r) as [ms|] eqn:Ems; [|done].
  pose proof (collectMatches_u64 _ _ _ Hm Ems) as Hu. apply collectMatches_map in Ems as [Ems Hsome].
  set (f := λ p, default 0 (Match <$> prs r !! p)) in Ems.
  set (sm := merge_sort Z.le ms). assert (Hp : sm ≡ₚ ms) by apply merge_sort_Permutation.
  apply wp_bind, wp_reads. destruct (index sm _) as [mci|] eqn:Ei; [|done]. apply index_inv in Ei as [Hlt Ei].
  assert (Hmci : is_u64 mci).
  { rewrite Forall_forall in Hu. apply Hu. rewrite <-Hp. by eapply list_elem_of_lookup_2. }
  assert (Hlen : zlen sm = zlen (peers r)) by (unfold zlen; rewrite Hp, Ems; by rewrite length_map).
  pose proof (Z.div_pos (zlen (peers r)) 2 (zlen_nonneg _) ltac:(lia)).
  destruct (kth_from_end sm (quorum r) mci) as [Hq _]; [apply StronglySorted_merge_sort; intros ?; lia|unfold quorum in *; lia|done|].
  rewrite (count_ge_perm _ _ _ Hp), Ems, count_ge_map in Hq.
  destruct (log_maybeCommit_abs (rlog r) mci (Term r) Hwf Hmci HT) as (l1 & E & Hwf1 & Ea & Ec & _ & _).
  apply wp_bind. unfold wp at 1, runLog. rewrite E. cbn [mbind outcome_bind].
  assert (Hc : committing r (set_rlog l1 r)).
  { split; [by eexists|by split; [split|]|done|]. cbn [rlog set_rlog]. rewrite Ec. destruct (_ && _) eqn:Eb; [right|by left].
    apply andb_true_iff in Eb as [_ Eb%Z.eqb_eq]. exists (list_to_set (filter (λ x, mci ≤ f x) (peers r))).
    rewrite size_list_to_set by by apply NoDup_filter. cbn [rlog set_rlog quorum peers prs Term]. rewrite Ea, Ec.
    split_and!; [done|done|]. intros p Hp'. apply elem_of_list_to_set, list_elem_of_filter in Hp' as [Hf Hin].
    split; [done|]. destruct (Hsome p Hin) as [pr Hpr]. exists pr. split; [done|]. unfold f in Hf. by rewrite Hpr in Hf. }
  destruct (_ && _); simpl.
  - apply wp_bind. eapply wp_mono; [apply calm_releasePending; [apply Hc|done]|].
    intros [] r' Hc'. apply wp_ret. by exists (set_rlog l1 r).
  - apply wp_ret. exists (set_rlog l1 r). split; [done|apply calm_refl].
Qed.

Lemma a_last_extend a es : a_last (a_extend a es) = a_last a + zlen es.
Proof. unfold a_last, a_extend. simpl. rewrite zlen_app. lia. Qed.

(** Stamped entries behind the last one. *)
Lemma append_stamped t es (l : raftLog S) :
  log_wf l → a_last (absLog l) + zlen es < u64_mod - 1 → es ≠ [] →
  ∃ l1 x, append (stampEntries t (a_last (absLog l)) es) l = Ret (l1, x) ∧
    log_wf l1 ∧ committed l1 = committed l ∧ storage l1 = storage l ∧
    absLog l1 = a_extend (absLog l) (stampEntries t (a_last (absLog l)) es).
Proof.
  intros Hwf Hb Hne. pose proof (absLog_wf l Hwf) as (? & ? & _). pose proof Hwf as (_ & _ & ? & ?).
  destruct (stampEntries_contiguous t (a_last (absLog l)) es) as [Hc Hlen]; [lia|done|].
  destruct (stampEntries t (a_last (absLog l)) es) as [|e es'] eqn:E.
  { destruct Hne. apply zlen_zero. rewrite <-Hlen. done. }
  pose proof Hc as [Hi _]. rewrite zlen_cons in Hlen. pose proof (zlen_nonneg es').
  destruct (append_abs l e es' Hwf) as (l1 & E1 & Hwf' & Ea & Ec & Ep & Es); [by rewrite Hi|lia|lia|].
  exists l1. eexists. rewrite E1. split_and!; try done. by rewrite Ea, Hi, a_splice_last.
Qed.
Lemma stampEntries_term t li es : Forall (λ e, eTerm e = t) (stampEntries t li es).
Proof.
  apply Forall_forall. intros e He. unfold stampEntries in He. apply elem_of_lookup_imap in He as (i & y & -> & _). done.
Qed.

Lemma setProgress_leads i pr r :
  core_wf r → state r = StateLeader → is_u64 (Match pr) → 1 ≤ Next pr < u64_mod →
  (i ≠ id r → ∃ pr0, prs r !! i = Some pr0 ∧ follows (Term r) i pr0 pr) →
  leads r (set_prs (<[i:=pr]> (prs r)) r).
Proof.
  intros Hr Hs Hm Hn Hf. pose proof Hr as [[Hwf Hm'] Hn']. split; try done; cbn [prs set_prs].
  - split; [split; [done|]|]; cbn [prs set_prs]; by apply map_Forall_insert_2.
  - exists []. by rewrite a_extend_nil.
  - intros p pr' Hp [[<- <-]|[_ E]]%lookup_insert_Some; [by apply Hf|]. eauto using follows_refl.
  - by left.
  - exists []. by rewrite app_nil_r.
Qed.
Lemma maybeUpdate_next n pr : 0 ≤ n < u64_mod - 1 → 1 ≤ Next pr < u64_mod → 1 ≤ Next (maybeUpdate n pr).1 < u64_mod.
Proof. intros. unfold maybeUpdate. simpl. rewrite w64_id by lia. destruct (_ <? _); lia. Qed.

Lemma progressOf_eq i r : wp True (progressOf i) (λ pr r', r' = r ∧ prs r !! i = Some pr) r.
Proof. unfold progressOf. apply wp_bind, wp_get. by destruct (prs r !! i). Qed.

Lemma appendEntry_eff es r :
  core_wf r → state r = StateLeader → Term r ≠ 0 → NoDup (peers r) → es ≠ [] → room r (zlen es) →
  wp True (appendEntry es) (λ _ r', leads r r' ∧
    absLog (rlog r') = a_extend (absLog (rlog r)) (stampEntries (Term r) (a_last (absLog (rlog r))) es) ∧
    ∀ p, p ≠ id r → prs r' !! p = prs r !! p) r.
Proof.
  intros Hr Hs HT Hnd Hne Hroom. pose proof Hr as [[Hwf Hm] Hn]. unfold room in Hroom. unfold appendEntry.
  apply wp_bind, wp_get, wp_bind. eapply wp_reads_ret; [by apply lastIndex_abs|].
  destruct (append_stamped (Term r) es (rlog r) Hwf Hroom Hne) as (l1 & x & E1 & Hwf1 & Ec1 & Es1 & Ea1).
  apply wp_bind. unfold wp at 1, runLog. rewrite E1. cbn [mbind outcome_bind]. set (r1 := set_rlog l1 r).
  assert (Hr1 : core_wf r1) by (by split; [split|]).
  assert (HL1 : leads r r1).
  { split; try done; [|eauto using follows_refl|by left|exists []; by rewrite app_nil_r].
    eexists. split; [exact Ea1|apply stampEntries_term]. }
  apply wp_bind. eapply wp_mono; [apply progressOf_eq|]. intros pr ? [-> Hpr].
  apply wp_bind. eapply wp_reads_ret; [by apply lastIndex_abs|].
  unfold setProgress. apply wp_bind, wp_bind, wp_get, wp_modify. set (r2 := set_prs _ r1).
  pose proof (absLog_wf _ Hwf1) as (? & ? & _). pose proof (last_u64 _ Hwf1) as Hlast.
  assert (HL2 : leads r1 r2).
  { apply setProgress_leads; try done.
    - apply maybeUpdate_u64; [done|]. by apply (Hm (id r)).
    - apply maybeUpdate_next; [|by apply (Hn (id r))].
      change (0 ≤ a_last (absLog l1) < u64_mod - 1). unfold is_u64 in Hlast. lia. }
  apply wp_bind. eapply wp_mono; [apply maybeCommit_eff; try done; apply HL2|].
  intros _ r' (r3 & Hc3 & Hc'). apply wp_ret.
  assert (HL12 : leads r r2).
  { split; try done; [apply HL2|exact (ld_log r r1 HL1)| |by left|exists []; by rewrite app_nil_r].
    intros p pr' Hp E. cbn [prs set_prs r2] in E. rewrite lookup_insert_ne in E by done. exists pr'. split; [done|apply follows_refl]. }
  pose proof (leads_committing r r2 r3 HL12 Ec1 eq_refl Hc3) as HL3. split; [by eapply leads_calm|].
  destruct Hc3 as [[l3 ->] _ El3 _]. rewrite (ca_rlog _ _ _ Hc'), El3, (ca_prs _ _ _ Hc'). split; [done|].
  intros p Hp. cbn [prs set_rlog set_prs r2]. by rewrite lookup_insert_ne.
Qed.

Lemma stepPropose_eff m r :
  core_wf r → state r = StateLeader → Term r ≠ 0 → NoDup (peers r) → room r (zlen (mEntries m)) →
  wp True (stepPropose m) (λ _, leads r) r.
Proof.
  intros Hr Hs HT Hnd Hroom. unfold stepPropose. apply wp_bind, wp_get. rewrite bool_decide_true by done. simpl.
  destruct (decide (mEntries m = [])) as [|Hne]; [by apply wp_ret, leads_refl|].
  apply wp_bind. eapply wp_mono; [apply appendEntry_eff; try done|].
  - by intros ?%fmap_nil_inv.
  - unfold room, zlen in *. by rewrite length_map.
  - intros _ r1 (H1 & _). apply wp_bind. eapply wp_mono; [apply calm_bcastAppend; apply H1|].
    intros ? r2 H2. apply wp_ret. by eapply leads_calm.
Qed.

(** ** Acknowledgements *)

Lemma decrHint_loop_le fuel hint ht (l : raftLog S) h :
  0 ≤ hint < u64_mod → decrHint_loop fuel hint ht l = Ret h → 0 ≤ h ≤ hint.
Proof.
  revert hint. induction fuel as [|fuel IH]; intros hint Hh; simpl; [intros [= <-]; lia|].
  destruct (Z.ltb_spec 0 hint); [|intros [= <-]; lia]. intros ([t|] & _ & E)%outcome_bind_Ret; [|injection E as <-; lia].
  destruct (_ <=? _); [injection E as <-; lia|]. rewrite w64_id in E by lia. apply IH in E; lia.
Qed.
Lemma decrHint_le m r h :
  0 ≤ mRejectHint m < u64_mod → log_wf (rlog r) → decrHint m r = Ret h → 0 ≤ h ≤ mRejectHint m.
Proof.
  intros Hm Hwf. unfold decrHint. destruct (_ <? _); [|intros [= <-]; lia]. rewrite lastIndex_abs by done. simpl.
  pose proof (last_u64 _ Hwf) as [? ?]. destruct (Z.ltb_spec (a_last (absLog (rlog r))) (mRejectHint m)); intros ?%decrHint_loop_le; lia.
Qed.

(** What the leader relies on in an acknowledgement. *)
Definition resp_ok (m : Message) : Prop :=
  match mType m with
  | MsgAppendResp =>
      if mReject m then 0 ≤ mRejectHint m ≤ mLogIndex m ∧ mLogIndex m < u64_mod ∧ mRejectHint m < u64_mod - 1 else 0 ≤ mLogIndex m < u64_mod - 1
  | MsgInstallSnapshotResp => 0 ≤ mLogIndex m < u64_mod - 1
  | _ => True
  end.

Lemma follows_update m pr t :
  inp = Some m → mTerm m = t → 0 ≤ mLogIndex m < u64_mod - 1 →
  (mType m = MsgAppendResp ∧ mReject m = false ∨ mType m = MsgInstallSnapshotResp) →
  follows t (mFrom m) pr (maybeUpdate (mLogIndex m) pr).1.
Proof.
  intros Hi Ht Hb Hty. assert (Ha : acks t (mFrom m) (mLogIndex m)) by (exists m; by split_and!).
  unfold maybeUpdate, follows. simpl. rewrite w64_id by lia. destruct (_ <? _), (_ <? _); rewrite ?Z.add_simpl_r;
    (split; [auto|]); auto; left; lia.
Qed.

Lemma handleAppendResp_eff m r :
  inp = Some m → core_wf r → state r = StateLeader → Term r ≠ 0 → NoDup (peers r) →
  mType m = MsgAppendResp → mTerm m = Term r → resp_ok m → mFrom m ≠ id r →
  wp True (handleAppendResp m) (λ _, leads r) r.
Proof.
  intros Hi Hr Hs HT Hnd Hty Ht Hok Hf. unfold resp_ok in Hok. rewrite Hty in Hok. pose proof Hr as [[Hwf Hm] Hn].
  unfold handleAppendResp. apply wp_bind, wp_get.
  destruct (prs r !! mFrom m) as [pr|] eqn:Hpr; [|by apply wp_ret, leads_refl].
  pose proof (Hm _ _ Hpr) as Hpm. pose proof (Hn _ _ Hpr) as Hpn. simpl in Hpm, Hpn. destruct (mReject m) eqn:Hrj.
  - apply wp_bind, wp_reads. destruct (decrHint m r) as [hint|] eqn:Eh; [|done].
    apply decrHint_le in Eh; [|lia|done]. unfold maybeDecrTo. destruct (Z.eqb_spec (Next pr -w 1) (mLogIndex m)) as [E|]; simpl.
    2: { unfold setProgress. apply wp_bind, wp_bind, wp_get, wp_modify, wp_ret. apply setProgress_leads; try done.
         exists pr. split; [done|apply follows_refl]. }
    rewrite w64_id in E by lia. rewrite w64_id by lia. destruct (Z.ltb_spec (hint + 1) 1); [lia|].
    unfold setProgress. apply wp_bind, wp_bind, wp_get, wp_modify. set (r1 := set_prs _ r).
    assert (HL1 : leads r r1).
    { apply setProgress_leads; simpl; try done; [lia|]. intros _. exists pr. split; [done|]. split; left; simpl; lia. }
    eapply wp_mono; [apply calm_sendAppend; [apply HL1|done..]|]. intros ? r2 H2. by eapply leads_calm.
  - destruct (maybeUpdate (mLogIndex m) pr) as [pr' up] eqn:Eu. assert (Epr : pr' = (maybeUpdate (mLogIndex m) pr).1) by by rewrite Eu.
    unfold setProgress. apply wp_bind, wp_bind, wp_get, wp_modify. set (r1 := set_prs _ r).
    assert (HL1 : leads r r1).
    { apply setProgress_leads; try done; rewrite Epr.
      - apply maybeUpdate_u64; [unfold is_u64; lia|done].
      - by apply maybeUpdate_next.
      - intros _. exists pr. split; [done|]. apply follows_update; auto. }
    apply wp_when; intros _; [|done]. apply wp_bind. eapply wp_mono; [apply maybeCommit_eff; try done; apply HL1|].
    intros b r3 (r2 & Hc & Hc'). pose proof (leads_committing r r1 r2 HL1 eq_refl eq_refl Hc) as HL2.
    pose proof (leads_calm _ _ _ HL2 Hc') as HL3. apply wp_when; intros _; [|done].
    eapply wp_mono; [apply calm_bcastAppend; apply HL3|]. intros ? r4 H4. by eapply leads_calm.
Qed.
Lemma stepLeader_eff m r :
  inp = Some m → core_wf r → state r = StateLeader → Term r ≠ 0 → NoDup (peers r) →
  (termed (mType m) → mTerm m = Term r) → resp_ok m → (reply_type (mType m) → mFrom m ≠ id r) →
  wp True (stepLeader m) (λ _, leads r) r.
Proof.
  intros Hi Hr Hs HT Hnd Ht Hok Hf. unfold stepLeader. pose proof (leads_refl r Hr Hs) as Hrefl. unfold termed, reply_type in *.
  destruct (mType m) eqn:Hty; try (by apply wp_ret).
  - apply handleAppendResp_eff; auto.
  - eapply wp_mono; [apply calm_handleHeartbeatResp; auto|]. intros ? r1 H1. by eapply leads_calm.
  - assert (mFrom m ≠ id r) by auto. apply wp_bind, wp_get. destruct (prs r !! mFrom m) as [pr|] eqn:Hpr; [|by apply wp_ret].
    pose proof Hr as [[Hwf Hm] Hn]. unfold resp_ok in Hok. rewrite Hty in Hok.
    unfold setProgress. apply wp_bind, wp_bind, wp_get, wp_modify. set (r1 := set_prs _ r).
    assert (HL1 : leads r r1).
    { apply setProgress_leads; try done.
      - apply maybeUpdate_u64; [unfold is_u64; lia|by apply (Hm (mFrom m))].
      - apply maybeUpdate_next; [done|by apply (Hn (mFrom m))].
      - intros _. exists pr. split; [done|]. apply follows_update; auto 6. }
    eapply wp_mono; [apply calm_sendAppend; [apply HL1|done..]|]. intros ? r2 H2. by eapply leads_calm.
Qed.

(** ** Changes of role *)

(** The node in term [t] with fresh progress entries, its log and outbox as
    before. *)
Record resets (t : Z) r r' : Prop := mkResets {
  rs_rlog : rlog r' = rlog r;
  rs_id : id r' = id r;
  rs_peers : peers r' = peers r;
  rs_msgs : msgs r' = msgs r;
  rs_Term : Term r' = t;
  rs_prs : ∀ p pr, prs r' !! p = Some pr →
    is_u64 (Match pr) ∧ (p ≠ id r → Match pr = 0) ∧ Next pr = a_last (absLog (rlog r)) + 1
}.
Lemma resets_wf t r r' : core_wf r → resets t r r' → core_wf r'.
Proof.
  intros [[Hwf _] _] []. pose proof (last_u64 _ Hwf). pose proof (absLog_wf _ Hwf) as (? & ? & _). unfold is_u64 in *.
  split; [split; [by rewrite rs_rlog0|]|]; intros p pr Hp; destruct (rs_prs0 p pr Hp) as (? & _ & E); simpl; [done|lia].
Qed.

Lemma initProgress_lookup self li ids p pr :
  initProgress self li ids !! p = Some pr → pr = mkProgress (if p =? self then li else 0) (li +w 1).
Proof.
  unfold initProgress. assert (Hz : (∅ : gmap Z progress) !! p = Some pr → pr = mkProgress (if p =? self then li else 0) (li +w 1)) by done.
  revert Hz. generalize (∅ : gmap Z progress). induction ids as [|i ids IH]; simpl; [auto|]. intros m Hm. apply IH.
  by intros [[-> <-]|[_ ?]]%lookup_insert_Some; auto.
Qed.
Lemma reset_eff t r : core_wf r → wp True (reset t) (λ _ r', resets t r r' ∧ state r' = state r ∧ votes r' = ∅) r.
Proof.
  intros [[Hwf _] _]. unfold reset. apply wp_bind, wp_get, wp_bind.
  eapply (wp_mono _ _ (λ _ r1, rlog r1 = rlog r ∧ id r1 = id r ∧ peers r1 = peers r ∧ msgs r1 = msgs r ∧ Term r1 = t ∧ state r1 = state r)).
  { apply wp_when; [intros _; by apply wp_bind, wp_modify, wp_modify|]. intros Et%negb_false_iff%Z.eqb_eq. by split_and!. }
  intros ? r1 (E1 & E2 & E3 & E4 & E5 & E6). do 3 apply wp_bind, wp_modify. apply wp_bind.
  eapply (wp_mono _ _ (λ _ r2, rlog r2 = rlog r ∧ id r2 = id r ∧ peers r2 = peers r ∧ msgs r2 = msgs r ∧ Term r2 = t ∧ state r2 = state r)).
  { unfold resetRandomizedElectionTimeout. apply wp_bind, wp_get. destruct (cRand _); [|done].
    apply wp_bind, wp_reads. destruct (Intn _ _) as [[? ?]|]; [|done]. by apply wp_bind, wp_modify, wp_modify. }
  clear -Hwf. intros ? r2 (E1 & E2 & E3 & E4 & E5 & E6). apply wp_bind, wp_modify, wp_bind.
  eapply wp_reads_ret; [apply lastIndex_abs; cbn [rlog set_votes]; by rewrite E1|].
  apply wp_bind, wp_modify, wp_bind, wp_modify, wp_modify. cbn [rlog set_votes]. rewrite E1.
  split; [|done]. split; try done. cbn [prs]. intros p pr ->%initProgress_lookup. simpl.
  pose proof (last_u64 _ Hwf). pose proof (absLog_wf _ Hwf) as (? & ? & _). unfold is_u64 in *. rewrite w64_id by lia.
  destruct (Z.eqb_spec p (id r)); split_and!; try done; lia.
Qed.
Lemma becomeFollower_eff t ld r :
  core_wf r → wp True (becomeFollower t ld) (λ _ r', resets t r r' ∧ state r' = StateFollower) r.
Proof.
  intros Hr. unfold becomeFollower. apply wp_bind. eapply wp_mono; [by apply reset_eff|].
  intros ? r1 ([] & _). by apply wp_bind, wp_modify, wp_modify.
Qed.
Lemma becomeCandidate_eff r :
  core_wf r → wp True becomeCandidate (λ _ r', resets (Term r +w 1) r r' ∧ state r' = StateCandidate ∧ votes r' = ∅) r.
Proof.
  intros Hr. unfold becomeCandidate. apply wp_bind, wp_get. destruct (decide _); [done|]. apply wp_bind.
  eapply wp_mono; [by apply reset_eff|]. intros ? r1 ([] & _ & Hv). by apply wp_bind, wp_modify, wp_modify.
Qed.

(** A candidate that won its term. *)
Record wins r r' : Prop := mkWins {
  wi_wf : core_wf r';
  wi_state : state r' = StateLeader;
  wi_cand : state r = StateCandidate;
  wi_Term : Term r' = Term r;
  wi_id : id r' = id r;
  wi_peers : peers r' = peers r;
  wi_log : absLog (rlog r') = a_extend (absLog (rlog r)) [mkEntry (Term r) (a_last (absLog (rlog r)) + 1) EntryNoop []];
  wi_prs : ∀ p pr, p ≠ id r → prs r' !! p = Some pr → Match pr = 0 ∧ Next pr = a_last (absLog (rlog r)) + 1;
  wi_commit : committed (rlog r') = committed (rlog r) ∨ commits r';
  wi_msgs : ∃ ms, msgs r' = msgs r ++ ms ∧ Forall (sent_ok inp r') ms
}.
Lemma wins_calm r r1 r' : wins r r1 → calm inp r1 r' → wins r r'.
Proof.
  intros [] Hc. pose proof (calm_wf _ _ _ Hc wi_wf0). destruct Hc. split; try done; try congruence.
  - by rewrite ca_prs0.
  - rewrite ca_rlog0. destruct wi_commit0 as [|Hc]; [by left|right]. by apply (commits_eq r1).
  - destruct wi_msgs0 as (ms & E & Hf), ca_msgs0 as (ms' & E' & Hf'). exists (ms ++ ms'). rewrite E', E, app_assoc.
    split; [done|]. apply Forall_app. split; (eapply Forall_impl; [done|]); intros m; by apply sent_ok_eq.
Qed.
Lemma becomeLeader_eff r :
  core_wf r → state r = StateCandidate → Term r ≠ 0 → NoDup (peers r) → room r 1 → wp True becomeLeader (λ _, wins r) r.
Proof.
  intros Hr Hs HT Hnd Hroom. unfold becomeLeader. apply wp_bind, wp_get. destruct (decide _); [done|]. apply wp_bind.
  eapply wp_mono; [by apply reset_eff|]. intros ? r1 (Hre & _ & _). pose proof (resets_wf _ _ _ Hr Hre) as Hr1.
  apply wp_bind, wp_modify, wp_bind, wp_modify. set (r2 := set_state _ _).
  assert (E2 : rlog r2 = rlog r) by apply Hre. pose proof (last_u64 _ (proj1 (proj1 Hr))) as [? ?]. unfold room in Hroom.
  eapply wp_mono; [apply appendEntry_eff|].
  - done.
  - done.
  - by rewrite (rs_Term _ _ _ Hre : Term r2 = _).
  - by rewrite (rs_peers _ _ _ Hre : peers r2 = _).
  - done.
  - unfold room. rewrite E2. done.
  - intros ? r3 ([] & El & Ep). rewrite E2, (rs_Term _ _ _ Hre : Term r2 = _) in *.
    rewrite (rs_peers _ _ _ Hre : peers r2 = _), (rs_id _ _ _ Hre : id r2 = _), (rs_msgs _ _ _ Hre : msgs r2 = _) in *.
    split; try done.
    + rewrite El. unfold stampEntries. simpl. rewrite Z.add_0_r, !w64_id by (rewrite ?w64_id; lia). done.
    + intros p pr Hp E. rewrite Ep in E by done. destruct (rs_prs _ _ _ Hre p pr E) as (_ & ? & ?). auto.
Qed.

(** ** The other nodes *)

(** What a leader's message of the node's term makes of its log. *)
Definition obeys (m0 : Message) (l l' : raftLog S) : Prop :=
  match mType m0 with
  | MsgAppend =>
      payload_ok (mLogIndex m0) (mLogTerm m0) (mEntries m0) ∧ committed l ≤ mLogIndex m0 ∧
      a_term (absLog l) (mLogIndex m0) = mLogTerm m0 ∧
      absLog l' = a_accept (absLog l) (mLogIndex m0) (mEntries m0) ∧
      committed l' = Z.max (committed l) (Z.min (mCommit m0) (mLogIndex m0 + zlen (mEntries m0)))
  | MsgHeartbeat =>
      absLog l' = absLog l ∧ committed l' = Z.max (committed l) (Z.min (mCommit m0) (a_last (absLog l)))
  | MsgInstallSnapshot =>
      ∃ sn, mSnapshot m0 = Some sn ∧ committed l < snIndex sn ∧ committed l' = snIndex sn ∧
        (a_term (absLog l) (snIndex sn) = snTerm sn ∧ absLog l' = absLog l ∨
         a_term (absLog l) (snIndex sn) ≠ snTerm sn ∧ absLog l' = mkALog (snIndex sn) (snTerm sn) [])
  | _ => False
  end.
Definition same_entries (l l' : raftLog S) : Prop := absLog l' = absLog l ∧ committed l' = committed l.

Record shifts r r' : Prop := mkShifts {
  sh_wf : core_wf r';
  sh_state : state r' ≠ StateLeader;
  sh_id : id r' = id r;
  sh_peers : peers r' = peers r;
  sh_log : same_entries (rlog r) (rlog r') ∨ ∃ m0, inp = Some m0 ∧ mTerm m0 = Term r' ∧ obeys m0 (rlog r) (rlog r');
  sh_cand : state r' = StateCandidate → same_entries (rlog r) (rlog r') ∧
    (state r = StateCandidate ∧ Term r' = Term r ∨ Term r' = Term r + 1);
  sh_msgs : ∃ ms, msgs r' = msgs r ++ ms ∧ Forall (sent_ok inp r') ms
}.

(** Queuing messages, and falling back to follower first. *)
Lemma shifts_calm r r' : core_wf r → state r ≠ StateLeader → calm inp r r' → shifts r r'.
Proof.
  intros Hr Hs Hc. pose proof (calm_wf _ _ _ Hc Hr). destruct Hc. split; try done; try congruence.
  - left. split; by rewrite ca_rlog0.
  - intros E. split; [split; by rewrite ca_rlog0|]. left. split; congruence.
  - destruct ca_msgs0 as (ms & E & Hf). exists ms. split; [done|]. eapply Forall_impl; [done|]. intros m. by apply sent_ok_eq.
Qed.
Lemma shifts_resets t r r1 r' :
  resets t r r1 → state r1 ≠ StateCandidate → state r' = StateFollower → shifts r1 r' → shifts r r'.
Proof.
  intros [] Hc Hf []. split; try done; try congruence.
  - rewrite <-rs_rlog0. done.
  - by rewrite <-rs_msgs0.
Qed.

Lemma a_term_accept a idx es :
  alog_wf a → contiguous (idx + 1) es → Forall (λ e, eTerm e ≠ 0) es → a_base a ≤ idx ≤ a_last a →
  a_term (a_accept a idx es) idx = a_term a idx.
Proof.
  intros Hw Hc Ht Hi. destruct (a_accept_spec a idx es Hw Hc Ht Hi) as (_ & E & _ & _). unfold a_term.
  rewrite E by lia. assert (a_base (a_accept a idx es) = a_base a ∧ a_bterm (a_accept a idx es) = a_bterm a) as [-> ->]; [|done].
  unfold a_accept. by destruct (_ =? 0).
Qed.
Lemma maybeAppend_cases idx t c es (l l' : raftLog S) o :
  log_wf l → payload_ok idx t es → committed l ≤ idx → maybeAppend idx t c es l = Ret (l', o) →
  (o = None ∧ l' = l) ∨
  (o = Some (idx + zlen es) ∧ a_term (absLog l) idx = t ∧ log_wf l' ∧ absLog l' = a_accept (absLog l) idx es ∧
   committed l' = Z.max (committed l) (Z.min c (idx + zlen es)) ∧
   a_base (absLog l') ≤ idx ∧ a_term (absLog l') idx = t ∧ ∀ e, e ∈ es → a_term (absLog l') (eIndex e) = eTerm e).
Proof.
  intros Hwf (Hi & Hc & Ht & Hb & Hz) Hle E.
  destruct (decide (a_term (absLog l) idx = t)) as [<-|Hne].
  2: { rewrite maybeAppend_reject in E by done. injection E as <- <-. by left. }
  right. pose proof (absLog_wf l Hwf) as Haw. pose proof Haw as (? & _). pose proof Hwf as (_ & _ & Hm & Hl).
  destruct (decide (es = [])) as [->|Hne].
  { unfold maybeAppend in E. rewrite matchTerm_abs, Z.eqb_refl in E by done. simpl in E.
    change (zlen (@nil Entry)) with 0 in *. rewrite Z.add_0_r in *. rewrite w64_id in E by done.
    apply outcome_bind_Ret in E as (l1 & E & [= -> <-]).
    destruct (decide (Z.min c idx ≤ a_last (absLog l))) as [Hle'|Hgt].
    2: { by rewrite commitTo_panic in E by (done || lia). }
    destruct (commitTo_abs l (Z.min c idx) Hwf Hle') as (l1 & E1 & Hwf' & Ea & Ec & _). rewrite E in E1. injection E1 as <-.
    rewrite Ea, Ec. split_and!; try done; [lia|]. by intros e ?%not_elem_of_nil. }
  assert (Hr : a_base (absLog l) ≤ idx ≤ a_last (absLog l)).
  { destruct (decide (a_term (absLog l) idx = 0)) as [E0|E0]; [|by apply a_term_pos]. destruct (Hz E0) as [?|?]; [lia|done]. }
  assert (Hf : append_fits l idx es) by (split_and!; done || lia).
  destruct (decide (no_committed_conflict l es)) as [Hn|Hn]; [|by rewrite maybeAppend_conflict in E].
  destruct (maybeAppend_abs l idx c es Hwf Hf Hn) as (l1 & E1 & Hwf' & Ea & Ec & _). rewrite E in E1. injection E1 as <- ->.
  destruct (a_accept_spec (absLog l) idx es Haw Hc Ht Hr) as (Hin & _).
  rewrite Ea, Ec. split_and!; try done; [|by apply a_term_accept]. unfold a_accept. destruct (_ =? 0); simpl; lia.
Qed.

(** What the handlers rely on in a leader's message. *)
Definition request_ok (m : Message) : Prop :=
  match mType m with
  | MsgAppend => payload_ok (mLogIndex m) (mLogTerm m) (mEntries m)
  | MsgInstallSnapshot => from_option (λ sn, snIndex sn < u64_mod - 1) True (mSnapshot m)
  | _ => True
  end.

(** A move of the log, then one message. *)
Lemma shifts_moved m l1 r r2 :
  inp = Some m → mTerm m = Term r → state r = StateFollower → core_wf (set_rlog l1 r) →
  obeys m (rlog r) l1 ∨ same_entries (rlog r) l1 → calm inp (set_rlog l1 r) r2 → shifts r r2 ∧ state r2 = StateFollower.
Proof.
  intros Hi Ht Hs Hr1 Ho Hc. pose proof (calm_wf _ _ _ Hc Hr1). destruct Hc. split; [|by rewrite ca_state0]. split; try done.
  - by rewrite ca_state0; simpl; rewrite Hs.
  - destruct Ho as [Ho|Ho]; [right|left; by rewrite ca_rlog0]. exists m. rewrite ca_Term0, ca_rlog0. done.
  - rewrite ca_state0. simpl. by rewrite Hs.
  - destruct ca_msgs0 as (ms & Ems & Hf). exists ms. split; [done|]. eapply Forall_impl; [done|]. intros x. by apply sent_ok_eq.
Qed.
Lemma handleAppend_eff m r :
  inp = Some m → core_wf r → state r = StateFollower → mType m = MsgAppend → mTerm m = Term r → request_ok m →
  wp True (handleAppend m) (λ _ r', shifts r r' ∧ state r' = StateFollower) r.
Proof.
  intros Hi Hr Hs Hty Ht Hok. unfold request_ok in Hok. rewrite Hty in Hok. pose proof Hr as [[Hwf Hm] Hn].
  assert (Hlt : leader_type (mType m)) by (rewrite Hty; by left).
  unfold handleAppend. apply wp_bind, wp_get. destruct (Z.ltb_spec (mLogIndex m) (committed (rlog r))).
  { eapply wp_mono; [apply (wp_send_calm inp)|].
    - unfold stamped, sent_ok. simpl. split_and!; [done|done|exists m; split_and!; [done|done|lia|done]|]. right. exists m. auto.
    - intros ? r1 Hc. split; [apply shifts_calm; [done|by rewrite Hs|done]|]. by rewrite (ca_state _ _ _ Hc). }
  apply wp_bind. unfold wp at 1, runLog. destruct (maybeAppend _ _ _ _ _) as [[l1 o]|] eqn:E; [|done]. cbn [mbind outcome_bind].
  apply maybeAppend_cases in E as [[-> ->]|(-> & Hat & Hwf1 & Ea & Ec & Hb1 & Hm1 & Hm2)]; [| |done..].
  - replace (set_rlog (rlog r) r) with r by (by destruct r).
    apply wp_bind. eapply wp_reads_ret; [by apply lastIndex_abs|]. pose proof (last_u64 _ Hwf) as Hlu.
    pose proof (absLog_wf _ Hwf) as (? & ? & _). destruct Hok as ([? ?] & _). unfold is_u64 in Hlu.
    set (j := Z.min (mLogIndex m) (a_last (absLog (rlog r)))).
    destruct (findConflictByTerm_loop_spec (rlog r) (Z.to_nat j) j (mLogTerm m) Hwf) as (i & Eh & Hi' & _); [lia..|].
    apply wp_bind. eapply wp_reads_ret; [exact Eh|]. cbv beta iota.
    eapply wp_mono; [apply (wp_send_calm inp)|].
    + unfold stamped, sent_ok. simpl. split_and!; [done|done|exists m; split_and!; [done|done|simpl; lia|done]|lia..].
    + intros ? r1 Hc. split; [apply shifts_calm; [done|by rewrite Hs|done]|]. by rewrite (ca_state _ _ _ Hc).
  - set (r1 := set_rlog l1 r). assert (Hr1 : core_wf r1) by (by split; [split|]).
    eapply wp_mono; [apply (wp_send_calm inp)|].
    + unfold stamped, sent_ok. simpl. split_and!; [done|done|exists m; split_and!; [done|done|simpl; lia|done]|]. right. exists m. split_and!; try done. right. done.
    + intros ? r2. apply (shifts_moved m); try done. left. unfold obeys. rewrite Hty. by split_and!.
Qed.

Lemma handleHeartbeat_eff m r :
  inp = Some m → core_wf r → state r = StateFollower → mType m = MsgHeartbeat → mTerm m = Term r →
  wp True (handleHeartbeat m) (λ _ r', shifts r r' ∧ state r' = StateFollower) r.
Proof.
  intros Hi Hr Hs Hty Ht. pose proof Hr as [[Hwf Hm] Hn]. unfold handleHeartbeat. apply wp_bind.
  eapply wp_reads_ret; [by apply lastIndex_abs|]. apply wp_bind. unfold wp at 1, updLog.
  destruct (commitTo_abs (rlog r) (Z.min (mCommit m) (a_last (absLog (rlog r)))) Hwf) as (l1 & -> & Hwf1 & Ea & Ec & _); [lia|].
  cbn [mbind outcome_bind]. eapply wp_mono; [apply (wp_send_calm inp)|].
  - unfold stamped, sent_ok. simpl. split; [done|]. exists m. split_and!; [done|rewrite Hty; right; by left|simpl; lia|done].
  - intros ? r2. apply (shifts_moved m); [done|done|done|by split; [split|]|]. left. unfold obeys. by rewrite Hty.
Qed.
Lemma handleSnapshot_eff m r :
  inp = Some m → core_wf r → state r = StateFollower → mType m = MsgInstallSnapshot → mTerm m = Term r → request_ok m →
  wp True (handleSnapshot m) (λ _ r', shifts r r' ∧ state r' = StateFollower) r.
Proof.
  intros Hi Hr Hs Hty Ht Hok. unfold request_ok in Hok. rewrite Hty in Hok. pose proof Hr as [[Hwf Hm] Hn].
  assert (Hlt : leader_type (mType m)) by (rewrite Hty; by right; right).
  unfold handleSnapshot. destruct (mSnapshot m) as [sn|] eqn:Esn; simpl in Hok.
  2: { apply wp_ret. split; [|done]. apply shifts_calm; [done|by rewrite Hs|apply calm_refl]. }
  assert (Hsend : ∀ l1 i, core_wf (set_rlog l1 r) → i = committed l1 → obeys m (rlog r) l1 ∨ same_entries (rlog r) l1 →
    wp True (send (set_mLogIndex i (Msg MsgInstallSnapshotResp (mFrom m)))) (λ _ r', shifts r r' ∧ state r' = StateFollower) (set_rlog l1 r)).
  { intros l1 i Hr1 -> Ho. eapply wp_mono; [apply (wp_send_calm inp)|].
    - unfold stamped, sent_ok. simpl. split_and!; [done|done|exists m; split_and!; [done|done|simpl; lia|done]|]. right. exists m. auto.
    - intros ? r2. by apply (shifts_moved m). }
  pose proof (absLog_wf _ Hwf) as (? & _). pose proof Hwf as (_ & _ & ? & _).
  unfold restore. apply wp_bind, wp_bind, wp_get. destruct (Z.leb_spec (snIndex sn) (committed (rlog r))).
  { apply wp_ret. simpl. apply wp_bind, wp_get. replace r with (set_rlog (rlog r) r) at 3 by (by destruct r).
    apply Hsend; [by destruct r|done|by right]. }
  apply wp_bind. eapply wp_reads_ret; [apply matchTerm_abs; [done|unfold is_u64; lia]|]. cbv beta.
  destruct (Z.eqb_spec (a_term (absLog (rlog r)) (snIndex sn)) (snTerm sn)) as [E|E]; apply wp_bind; unfold wp at 1, updLog.
  - destruct (commitTo _ _) as [l1|] eqn:El; [|done]. cbn [mbind outcome_bind]. apply wp_ret. simpl. apply wp_bind, wp_get.
    destruct (decide (snIndex sn ≤ a_last (absLog (rlog r)))) as [Hle|Hgt].
    2: { by rewrite commitTo_panic in El by (done || lia). }
    destruct (commitTo_abs (rlog r) (snIndex sn) Hwf Hle) as (l2 & E2 & Hwf2 & Ea & Ec & _). rewrite El in E2. injection E2 as <-.
    apply Hsend; [by split; [split|]|done|]. left. unfold obeys. rewrite Hty. exists sn. rewrite Ec, Ea. split_and!; [done|lia|lia|by left].
  - cbn [mbind outcome_bind]. apply wp_ret. simpl.
    destruct (log_restore_abs (rlog r) sn Hwf) as (Hwf1 & Ea & Ec & _ & _); [lia|]. apply wp_bind.
    eapply wp_reads_ret; [by apply lastIndex_abs|]. apply Hsend; [by split; [split|]| |].
    + cbn [rlog set_rlog]. rewrite Ea, Ec. unfold a_last. simpl. change (zlen (@nil Entry)) with 0. lia.
    + left. unfold obeys. rewrite Hty. exists sn. rewrite Ec, Ea. split_and!; [done|lia|done|by right].
Qed.

Lemma stepFollower_eff m r :
  inp = Some m → core_wf r → state r = StateFollower → (termed (mType m) → mTerm m = Term r) → request_ok m →
  wp True (stepFollower m) (λ _ r', shifts r r' ∧ state r' = StateFollower) r.
Proof.
  intros Hi Hr Hs Ht Hok. unfold stepFollower, termed, leader_type in *.
  assert (Hrefl : shifts r r ∧ state r = StateFollower).
  { split; [|done]. apply shifts_calm; [done|by rewrite Hs|apply calm_refl]. }
  set (r1 := set_lead (mFrom m) (set_electionElapsed 0 r)).
  destruct (mType m) eqn:Hty; try (by apply wp_ret); apply wp_bind, wp_bind, wp_modify, wp_modify;
    (eapply (wp_mono _ _ (λ _ r', shifts r1 r' ∧ state r' = StateFollower));
      [|intros ? r' [[] ?]; split; [by split|done]]).
  - apply handleAppend_eff; try done. apply Ht. auto.
  - apply handleHeartbeat_eff; try done. apply Ht. auto.
  - apply handleSnapshot_eff; try done. apply Ht. auto 7.
Qed.

(** ** Campaigns *)

Lemma lone_vote r : 2 ≤ zlen (peers r) → votes r = ∅ →
  wp True (recordVote (id r) true) (λ _ r', calm inp r r' ∧ tallyGranted r' < quorum r') r.
Proof.
  intros Hp Hv. unfold recordVote. apply wp_bind, wp_get. rewrite Hv, lookup_empty. apply wp_bind, wp_modify, wp_ret. split.
  - split; try done. exists []. by rewrite app_nil_r.
  - unfold tallyGranted, quorum. cbn [votes peers set_votes]. rewrite insert_empty, map_filter_singleton_True by done.
    rewrite map_size_singleton. assert (1 ≤ zlen (peers r) / 2) by (apply Z.div_le_lower_bound; lia). lia.
Qed.
(** A node that enters the next term as candidate. *)
Lemma elect_eff r :
  core_wf r → 2 ≤ zlen (peers r) → 0 ≤ Term r → Term r + 1 < u64_mod →
  wp True (becomeCandidate;; r ← get; solicitVotes_Vote (Term r)) (λ _ r', shifts r r') r.
Proof.
  intros Hr Hp Ht Hb. apply wp_bind. eapply wp_mono; [by apply becomeCandidate_eff|]. intros ? r1 (Hre & Hs & Hv).
  pose proof (resets_wf _ _ _ Hr Hre) as Hr1. rewrite w64_id in Hre by lia. apply wp_bind, wp_get.
  unfold solicitVotes_Vote. apply wp_bind, wp_get, wp_bind.
  eapply wp_mono; [apply lone_vote; [by rewrite (rs_peers _ _ _ Hre)|done]|]. intros ? r2 [Hc2 Ht2]. apply wp_bind, wp_get.
  rewrite (proj2 (Z.leb_gt _ _)) by lia. pose proof (calm_wf _ _ _ Hc2 Hr1) as Hr2. rewrite <-(ca_Term _ _ _ Hc2).
  eapply wp_mono; [apply calm_sendVoteRequests; [done|by rewrite (ca_state _ _ _ Hc2)|]|].
  { rewrite (ca_Term _ _ _ Hc2), (rs_Term _ _ _ Hre). lia. }
  intros ? r3 Hc3. pose proof (calm_trans _ _ _ _ Hc2 Hc3) as Hc. pose proof (calm_wf _ _ _ Hc Hr1).
  destruct Hc, Hre. split; try done; try congruence.
  - left. split; congruence.
  - intros _. split; [split; congruence|]. right. congruence.
  - rewrite <-rs_msgs0. destruct ca_msgs0 as (ms & E & Hf). exists ms. split; [done|]. eapply Forall_impl; [done|]. intros m. by apply sent_ok_eq.
Qed.
(** A round of pre-votes changes role and timers only. *)
Definition polls r r' : Prop :=
  rlog r' = rlog r ∧ prs r' = prs r ∧ Term r' = Term r ∧ id r' = id r ∧ peers r' = peers r ∧ msgs r' = msgs r ∧
  state r' = StatePreCandidate.
Lemma becomePreCandidate_eff r : wp True becomePreCandidate (λ _ r', polls r r' ∧ votes r' = ∅) r.
Proof.
  unfold becomePreCandidate, resetRandomizedElectionTimeout. apply wp_bind, wp_get. destruct (decide _); [done|].
  do 4 apply wp_bind, wp_modify. apply wp_bind, wp_get. destruct (cRand _); [|done].
  apply wp_bind, wp_reads. destruct (Intn _ _) as [[? ?]|]; [|done]. by apply wp_bind, wp_modify, wp_modify.
Qed.
Lemma shifts_polls r r1 r' : polls r r1 → core_wf r1 → calm inp r1 r' → shifts r r'.
Proof.
  intros (E1 & E2 & E3 & E4 & E5 & E6 & E7) Hr Hc. apply (shifts_calm r1) in Hc as []; [|done|by rewrite E7].
  split; try done; try congruence.
  - by rewrite <-E1.
  - intros Hs. destruct (sh_cand0 Hs) as [? [[? ?]|?]]; [congruence|]. split; [by rewrite <-E1|]. right. congruence.
  - by rewrite <-E6.
Qed.
Lemma solicitVotes_plain : solicitVotes (S:=S) MsgVote = solicitVotes_Vote.
Proof. reflexivity. Qed.
Lemma campaign_eff r :
  core_wf r → 2 ≤ zlen (peers r) → 0 ≤ Term r → Term r + 1 < u64_mod → wp True campaign (λ _ r', shifts r r') r.
Proof.
  intros Hr Hp Ht Hb. unfold campaign. apply wp_bind, wp_get. destruct (cPreVote (cfg r)).
  2: { rewrite solicitVotes_plain. by apply elect_eff. }
  apply wp_bind. eapply wp_mono; [apply becomePreCandidate_eff|]. intros ? r1 (Hc & Hv1).
  apply wp_bind, wp_get. unfold solicitVotes. rewrite decide_True by done. apply wp_bind, wp_get, wp_bind.
  assert (core_wf r1 ∧ 2 ≤ zlen (peers r1)) as [Hr1 Hp1].
  { destruct Hc as (E1 & E2 & _ & _ & E5 & _). unfold core_wf, node_wf. by rewrite E1, E2, E5. }
  eapply wp_mono; [by apply lone_vote|]. intros ? r2 [Hc2 Ht2]. apply wp_bind, wp_get.
  rewrite (proj2 (Z.leb_gt _ _)) by lia. pose proof (calm_wf _ _ _ Hc2 Hr1) as Hr2.
  eapply wp_mono; [exact (calm_sendPreVotes (state r2) _ r2 Hr2 eq_refl)|]. intros ? r3 Hc3.
  apply (shifts_polls r r1); [done..|]. by apply (calm_trans _ _ r2).
Qed.

(** ** One input *)

Definition effect r r' : Prop := (state r = StateLeader ∧ leads r r') ∨ wins r r' ∨ shifts r r'.
Lemma effect_calm r r' : core_wf r → calm inp r r' → effect r r'.
Proof.
  intros Hr Hc. destruct (decide (state r = StateLeader)); [left|right; right; by apply shifts_calm].
  split; [done|]. eapply leads_calm; [by apply leads_refl|done].
Qed.

(** What the node and the input have to satisfy. *)
Record ready_for r : Prop := mkReadyFor {
  rf_wf : core_wf r;
  rf_room : room r 2;
  rf_nodup : NoDup (peers r);
  rf_peers : 2 ≤ zlen (peers r);
  rf_Term : 0 ≤ Term r;
  rf_bound : Term r + 1 < u64_mod;
  rf_voted : state r = StateLeader ∨ state r = StateCandidate → Term r ≠ 0
}.

Lemma tick_eff r : ready_for r → wp True tick (λ _ r', effect r r') r.
Proof.
  intros []. unfold tick. apply wp_bind, wp_get. destruct (decide (state r = StateLeader)) as [Hs|Hs].
  { eapply wp_mono; [by apply calm_tickHeartbeat|]. intros ? r'. by apply effect_calm. }
  unfold tickElection. apply wp_bind, wp_get, wp_bind, wp_modify, wp_bind, wp_get. set (r1 := set_electionElapsed _ r).
  assert (Hr1 : shifts r r1). { apply shifts_calm; [done..|]. split; try done. exists []. by rewrite app_nil_r. }
  destruct (_ && _); [|apply wp_ret; by right; right]. apply wp_bind, wp_modify.
  eapply wp_mono; [by apply campaign_eff|]. intros ? r' []. right. right. by split.
Qed.

Lemma effect_after r r1 r' :
  rlog r1 = rlog r → state r1 = state r → Term r1 = Term r → id r1 = id r → peers r1 = peers r → msgs r1 = msgs r →
  prs r1 = prs r → effect r1 r' → effect r r'.
Proof.
  intros E1 E2 E3 E4 E5 E6 E7 [[Hs []]|[[]|[]]]; [left|right; left|right; right].
  - split; [congruence|]. split; try done; try congruence; rewrite <-?E1, <-?E3, <-?E4, <-?E6, <-?E7; done.
  - split; try done; try congruence; rewrite <-?E1, <-?E3, <-?E4, <-?E6; done.
  - split; try done; try congruence; rewrite <-?E1, <-?E2, <-?E3, <-?E6; done.
Qed.
Lemma recordVote_eff i g r :
  wp True (recordVote i g) (λ _ r1, rlog r1 = rlog r ∧ state r1 = state r ∧ Term r1 = Term r ∧ id r1 = id r ∧
    peers r1 = peers r ∧ msgs r1 = msgs r ∧ prs r1 = prs r) r.
Proof.
  unfold recordVote. apply wp_bind, wp_get. destruct (votes r !! i); [by apply wp_ret|]. by apply wp_bind, wp_modify, wp_ret.
Qed.
Lemma effect_resets t r r' : core_wf r → resets t r r' → state r' = StateFollower → effect r r'.
Proof.
  intros Hr Hre Hs. right. right. eapply shifts_resets; [done|by rewrite Hs|done|].
  apply shifts_calm; [by eapply resets_wf|by rewrite Hs|apply calm_refl].
Qed.
Lemma stepCandidateVote_eff m r :
  ready_for r → state r = StatePreCandidate ∨ state r = StateCandidate → wp True (stepCandidateVote m) (λ _ r', effect r r') r.
Proof.
  intros [] Hs. unfold stepCandidateVote. apply wp_bind. eapply wp_mono; [apply recordVote_eff|].
  intros ? r1 (E1 & E2 & E3 & E4 & E5 & E6 & E7).
  assert (Hr1 : core_wf r1) by (unfold core_wf, node_wf; by rewrite E1, E7).
  apply (wp_mono _ _ (λ _ r', effect r1 r')); [|intros ? r'; by apply effect_after].
  apply wp_bind, wp_get. destruct (_ <=? _).
  - destruct (decide _) as [Hp|Hp].
    + eapply (wp_mono _ _ (λ _ r', shifts r1 r')); [|intros ? r' ?; by right; right].
      rewrite solicitVotes_plain. apply elect_eff; rewrite ?E3, ?E5; done.
    + assert (Hc : state r1 = StateCandidate) by (destruct Hs; congruence). apply wp_bind.
      eapply wp_mono; [apply becomeLeader_eff; rewrite ?E3, ?E5; auto; [apply rf_voted0; right; congruence|]|].
      { unfold room in *. rewrite E1. lia. }
      intros ? r2 Hw. eapply wp_mono; [apply calm_bcastAppend; apply Hw|]. intros ? r3 Hc3. right. left. exact (wins_calm _ _ _ Hw Hc3).
  - destruct (_ <=? _).
    + eapply wp_mono; [by apply becomeFollower_eff|]. intros ? r2 [Hre Hf]. by eapply effect_resets.
    + apply wp_ret, effect_calm; [done|apply calm_refl].
Qed.
Lemma stepCandidate_eff m r :
  inp = Some m → ready_for r → state r = StatePreCandidate ∨ state r = StateCandidate →
  (termed (mType m) → mTerm m = Term r) → request_ok m → wp True (stepCandidate m) (λ _ r', effect r r') r.
Proof.
  intros Hi Hrf Hs Ht Hok. pose proof (rf_wf _ Hrf) as Hr. unfold stepCandidate. apply wp_bind, wp_get.
  set (vr := if decide _ then MsgPreVoteResp else MsgVoteResp). clearbody vr.
  assert (Hother : wp True (if decide (mType m = vr) then stepCandidateVote m else mret ()) (λ _ r', effect r r') r).
  { destruct (decide _); [by apply stepCandidateVote_eff|]. apply wp_ret, effect_calm; [done|apply calm_refl]. }
  assert (Hobey : ∀ h : Message → M (raft S) (),
    (∀ r1, core_wf r1 → state r1 = StateFollower → mTerm m = Term r1 → wp True (h m) (λ _ r', shifts r1 r' ∧ state r' = StateFollower) r1) →
    wp True (becomeFollower (mTerm m) (mFrom m);; h m) (λ _ r', effect r r') r).
  { intros h Hh. apply wp_bind. eapply wp_mono; [by apply becomeFollower_eff|]. intros ? r1 [Hre Hf].
    eapply wp_mono; [apply Hh; [by eapply resets_wf|done|by rewrite (rs_Term _ _ _ Hre)]|]. intros ? r2 [H2 Hs2].
    right. right. eapply shifts_resets; try done. by rewrite Hf. }
  destruct (mType m) eqn:Hty; try exact Hother; apply Hobey; intros r1 Hr1 Hs1 Ht1.
  - by apply handleAppend_eff.
  - by apply handleHeartbeat_eff.
  - by apply handleSnapshot_eff.
Qed.

(** What the code relies on in a delivered message. *)
Record input_ok r (m : Message) : Prop := mkInputOk {
  io_resp : resp_ok m;
  io_request : request_ok m;
  io_termed : termed (mType m) → 1 ≤ mTerm m;
  io_from : reply_type (mType m) → mFrom m ≠ id r
}.
Lemma stepRole_eff m r :
  inp = Some m → ready_for r → input_ok r m → (termed (mType m) → mTerm m = Term r) → wp True (stepRole m) (λ _ r', effect r r') r.
Proof.
  intros Hi Hrf [] Ht. pose proof (rf_wf _ Hrf) as Hr. unfold stepRole.
  assert (Hother : wp True (r ← get; match state r with
      | StateFollower => stepFollower m
      | StatePreCandidate | StateCandidate => stepCandidate m
      | StateLeader => stepLeader m end) (λ _ r', effect r r') r).
  { apply wp_bind, wp_get. destruct (state r) eqn:Hs.
    - eapply wp_mono; [by apply stepFollower_eff|]. intros ? r' [? _]. by right; right.
    - apply stepCandidate_eff; auto.
    - apply stepCandidate_eff; auto.
    - eapply wp_mono; [apply stepLeader_eff; auto; apply Hrf; auto|]. intros ? r' ?. by left. }
  unfold termed in *. destruct (mType m) eqn:Hty; try exact Hother;
    (eapply wp_mono; [apply calm_handleVoteRequest; auto 8|]; intros ? r'; by apply effect_calm).
Qed.
Lemma ready_for_resets t r r1 : ready_for r → t + 1 < u64_mod → 0 ≤ t → resets t r r1 → state r1 = StateFollower → ready_for r1.
Proof.
  intros [] Ht Ht0 Hre Hs. pose proof (resets_wf _ _ _ rf_wf0 Hre). destruct Hre. split; try done.
  - unfold room in *. by rewrite rs_rlog0.
  - by rewrite rs_peers0.
  - by rewrite rs_peers0.
  - lia.
  - lia.
  - intros [?|?]; congruence.
Qed.
Lemma Step_eff m r :
  inp = Some m → ready_for r → input_ok r m → mTerm m + 1 < u64_mod → room r (zlen (mEntries m)) →
  wp True (Step m) (λ _ r', effect r r') r.
Proof.
  intros Hi Hrf Hok Hb Hn. pose proof (rf_wf _ Hrf) as Hr.
  assert (Hthen : ∀ A (a : A) (c : M (raft S) ()), wp True c (λ _ r', effect r r') r → wp True (c;; mret a) (λ _ r', effect r r') r).
  { intros A a c Hc. apply wp_bind. eapply wp_mono; [exact Hc|]. intros ? r' ?. by apply wp_ret. }
  assert (Hother : wp True (r ← get;
      if inLease m r then rejectInLease m;; mret None
      else if mTerm m =? 0 then stepRole m;; mret None
      else if Term r <? mTerm m then stepNewer m;; stepRole m;; mret None
      else if mTerm m <? Term r then stepStale m;; mret (None : error)
      else stepRole m;; mret None) (λ _ r', effect r r') r).
  { apply wp_bind, wp_get. destruct (inLease m r).
    { apply Hthen. eapply wp_mono; [by apply (calm_rejectInLease (state r))|]. intros ? r'. by apply effect_calm. }
    destruct (Z.eqb_spec (mTerm m) 0) as [E0|Hne0]; [apply Hthen, stepRole_eff; auto; intros Ht%(io_termed _ _ Hok); lia|].
    destruct (Z.ltb_spec (Term r) (mTerm m)).
    { unfold stepNewer. destruct (_ || _) eqn:Epv.
      - apply wp_bind, wp_ret. apply Hthen, stepRole_eff; auto. intros Ht. exfalso. clear -Ht Epv. unfold termed, leader_type in Ht.
        destruct (mType m); naive_solver.
      - apply wp_bind. eapply wp_mono; [by apply becomeFollower_eff|]. intros ? r1 [Hre Hf].
        assert (Hrf1 : ready_for r1) by (apply (ready_for_resets (mTerm m) r); auto; pose proof (rf_Term _ Hrf); lia).
        assert (Hok1 : input_ok r1 m) by (destruct Hok; split; auto; by rewrite (rs_id _ _ _ Hre)).
        assert (Hboth : wp True (stepRole m) (λ _ r', effect r1 r' ∧ state r' = StateFollower) r1).
        { apply wp_and; [|by apply stepRole_follower]. apply stepRole_eff; auto. intros _. by rewrite (rs_Term _ _ _ Hre). }
        apply wp_bind. eapply wp_mono; [exact Hboth|]. intros ? r2 [He Hs2]. apply wp_ret. right. right.
        destruct He as [[Hs _]|[Hw|Hsh]]; [congruence|by destruct Hw; congruence|].
        eapply shifts_resets; try done. by rewrite Hf. }
    destruct (Z.ltb_spec (mTerm m) (Term r)).
    { apply Hthen. eapply wp_mono; [apply (calm_stepStale m r); [done..|lia]|]. intros ? r'. by apply effect_calm. }
    apply Hthen, stepRole_eff; auto. intros _. lia. }
  unfold Step. destruct (mType m) eqn:Hty; try exact Hother.
  - destruct (decide (state r = StateLeader)) as [Hs|Hs].
    + eapply wp_mono; [apply stepPropose_eff; auto; try apply Hrf; auto|].
      * intros ? r' ?. by left.
    + unfold stepPropose. apply wp_bind, wp_get. rewrite bool_decide_false by done. apply wp_ret, effect_calm; [done|apply calm_refl].
  - destruct (decide (state r = StateLeader)) as [Hs|Hs].
    + eapply wp_mono; [by apply calm_stepReadIndex|]. intros ? r'. by apply effect_calm.
    + unfold stepReadIndex. apply wp_bind, wp_get. rewrite bool_decide_false by done. apply wp_ret, effect_calm; [done|apply calm_refl].
Qed.
End queueing.
