(* ===== verification/Batch.v ===== *)
(** * One batch of the core: Ready, the writes, Advance (src/raft/node.go)

    [batch] is what [Ready] hands out.  [wp_Advance] says what the core is once
    the batch was written and acknowledged, [HasReady_cases] what it means that
    nothing is left to hand out, and [newRaft_boots] what [newRaft] builds from
    a storage. *)

From S2P Require Import Prelude RaftTypes Storage RaftLog ReadOnly Raft Node LogSpec RaftSpec Persist Quiet LogSafety Election Replication.

Section batch.
Context {S : Type} `{LogStorageLaws S}.
Implicit Types r : raft S.
Implicit Types l : raftLog S.

(** The batch the core hands out. *)
Definition batch r : Ready :=
  let l := rlog r in
  let h := hardState r in
  let rhs := if bool_decide (h = prevHardSt r) then None else Some h in
  mkReady rhs (u_entries (unst l)) (u_snapshot (unst l)) (a_slice (absLog l) (applied l + 1) (committed l + 1))
    (msgs r) (readStates r)
    ((0 <? zlen (u_entries (unst l))) || bool_decide (is_Some (u_snapshot (unst l))) ||
     match rhs with
     | Some h => negb (hsTerm h =? hsTerm (prevHardSt r)) || negb (hsVote h =? hsVote (prevHardSt r))
     | None => false
     end).
Lemma ReadyOf_batch r : log_wf (rlog r) → ReadyOf r = Ret (batch r).
Proof. intros Hwf. unfold ReadyOf. by rewrite nextCommittedEnts_abs. Qed.

(** The storage presents what another one does. *)
Lemma same_view l (st : S) :
  view st = view (storage l) → absLog (set_storage st l) = absLog l ∧ (log_wf l → log_wf (set_storage st l)).
Proof.
  intros E. assert (Ha : absLog (set_storage st l) = absLog l) by (unfold absLog; simpl; by rewrite E).
  split; [done|]. unfold log_wf. rewrite Ha. unfold unst_wf. simpl. by rewrite E.
Qed.

(** The log [l] over the storage [st], which presents it: what is written is
    readable, and the log unchanged. *)
Definition written l (st : S) : Prop :=
  absLog (set_storage st l) = absLog l ∧ log_wf (set_storage st l) ∧ stores st (absLog l).

Lemma written_rebase l st st' :
  absLog (set_storage st l) = absLog l → written (set_storage st l) st' ↔ written l st'.
Proof. intros E. unfold written. rewrite E. done. Qed.

Lemma wp_updLog pf f l' (Q : () → raft S → Prop) r : f (rlog r) = Ret l' → Q () (set_rlog l' r) → wp pf (updLog f) Q r.
Proof. intros E HQ. unfold wp, updLog. by rewrite E. Qed.

(** The core after its batch was acknowledged. *)
Record acknowledged r (st : S) (n' : Node S) : Prop := mkAcknowledged {
  ak_pending : pendingReady n' = None;
  ak_msgs : msgs (n_r n') = [];
  ak_reads : readStates (n_r n') = [];
  ak_prs : prs (n_r n') = prs r;
  ak_hard : hardState (n_r n') = hardState r;
  ak_prev : prevHardSt (n_r n') = hardState r;
  ak_log : rlog (n_r n') = mkRaftLog st (mkUnstable None [] (a_last (absLog (rlog r)) + 1)) (committed (rlog r)) (committed (rlog r))
}.

Lemma wp_Advance r (st : S) :
  log_wf (rlog r) → written (rlog r) st →
  wp False Advance (λ _, acknowledged r st) (mkNode (set_rlog (set_storage st (rlog r)) r) (Some (batch r))).
Proof.
  intros Hwf (Ha & Hwf' & Hst). destruct (next_ents _ Hwf) as [Hlen Hcont]. set (l := rlog r) in *.
  destruct (advance_log (set_storage st l) Hwf') as (l1 & E1 & E2 & _); [by rewrite Ha|]. rewrite Ha in E2.
  unfold Advance. apply wp_bind, wp_get. cbn [pendingReady]. apply wp_bind, wp_zoom. unfold advanceRaft.
  cbn [rdHardState rdEntries rdSnapshot rdCommittedEntries batch n_r]. fold l.
  set (r1 := set_rlog (set_storage st l) r). apply wp_bind.
  apply (wp_mono _ _ (λ _ r2, r2 = set_prevHardSt (hardState r) r1)).
  { case_bool_decide as Hh; [apply wp_ret|by apply wp_modify]. unfold r1. rewrite Hh. by destruct r. }
  intros _ ? ->. set (r2 := set_prevHardSt (hardState r) r1). apply wp_bind.
  apply (wp_mono _ _ (λ _ r3, r3 = set_rlog l1 r2)).
  { destruct (last (u_entries (unst l))) as [e|] eqn:Hl; simpl in E1; rewrite Hl in E1; [by eapply wp_updLog|].
    apply wp_ret. injection E1 as <-. by destruct r. }
  intros _ ? ->. apply wp_bind. set (l2 := set_unst (mkUnstable None [] (a_last (absLog l) + 1)) (set_storage st l)) in *.
  apply (wp_mono _ _ (λ _ r3, r3 = set_rlog l2 r2)).
  { simpl in E2. destruct (u_snapshot (unst l)) as [sn|]; [eapply wp_updLog; [done|]|apply wp_ret];
      cbn [rlog set_rlog]; by rewrite E2. }
  intros _ ? ->. apply wp_bind.
  apply (wp_mono _ _ (λ _ r3, r3 = set_rlog (set_applied (committed l) l2) r2)).
  { pose proof Hwf as (_ & _ & Hm & _). pose proof (absLog_wf l Hwf) as (? & _).
    destruct (last (a_slice _ _ _)) as [e|] eqn:Hl.
    - pose proof (contiguous_last _ _ _ Hcont Hl) as Hi. replace (eIndex e) with (committed l) by (unfold l in *; lia).
      assert (0 < zlen (a_slice (absLog l) (applied l + 1) (committed l + 1))).
      { apply last_Some in Hl as [es ->]. rewrite zlen_app. change (zlen [e]) with 1. pose proof (zlen_nonneg es). lia. }
      eapply wp_updLog; [|done]. unfold appliedTo. cbn [rlog set_rlog l2 committed applied set_unst set_storage].
      destruct (Z.eqb_spec (committed l) 0); [unfold l in *; lia|].
      by rewrite (proj2 (Z.ltb_ge _ _)), (proj2 (Z.ltb_ge _ _)) by lia.
    - apply last_None in Hl. rewrite Hl in Hlen. change (zlen (@nil Entry)) with 0 in Hlen. apply wp_ret.
      replace (committed l) with (applied l) by (unfold l in *; lia). done. }
  intros _ ? ->. apply wp_bind, wp_modify, wp_modify, wp_modify. by split.
Qed.

(** The acknowledged core has nothing left to hand out. *)
Lemma acknowledged_quiet r st n' :
  acknowledged r st n' → log_wf (rlog (n_r n')) → HasReady n' = Ret false.
Proof.
  intros [] Hwf. unfold HasReady. rewrite ak_pending0, ak_msgs0, ak_reads0. rewrite hasNextCommittedEnts_abs by done.
  rewrite ak_hard0, ak_prev0, ak_log0. simpl. rewrite Z.ltb_irrefl. by rewrite bool_decide_true.
Qed.
(** A core with nothing to hand out is settled already. *)
Lemma HasReady_cases r :
  log_wf (rlog r) →
  ∃ b, HasReady (mkNode r None) = Ret b ∧
    (b = false → msgs r = [] ∧ settled (rlog r) ∧ applied (rlog r) = committed (rlog r) ∧ hardState r = prevHardSt r).
Proof.
  intros Hwf. unfold HasReady, settled. cbn [pendingReady n_r]. rewrite hasNextCommittedEnts_abs by done.
  pose proof Hwf as (_ & _ & ? & _).
  destruct (Z.ltb_spec 0 (zlen (msgs r))); [by exists true|]. destruct (_ <? zlen (readStates r)); [by exists true|].
  destruct (Z.ltb_spec 0 (zlen (u_entries (unst (rlog r))))); [by exists true|].
  case_bool_decide as Hsn; [by exists true|]. simpl. eexists. split; [done|].
  intros [Hlt%Z.ltb_ge Hh%negb_false_iff%bool_decide_eq_true]%orb_false_iff.
  pose proof (zlen_nonneg (msgs r)). pose proof (zlen_nonneg (u_entries (unst (rlog r)))).
  split_and!; [apply zlen_zero; lia|by apply eq_None_not_Some|apply zlen_zero; lia|lia|done].
Qed.
Lemma stores_inj (st : S) a a' : stores st a → stores st a' → a = a'.
Proof. intros (E1 & E2 & E3) (E1' & E2' & E3'). destruct a, a'. simpl in *. congruence. Qed.

(** ** Starting from a storage *)

Record boots_from (c : Config) (st : S) r : Prop := mkBootsFrom {
  bt_wf : core_wf r;
  bt_settled : settled (rlog r);
  bt_storage : storage (rlog r) = st;
  bt_stores : stores st (absLog (rlog r));
  bt_Term : Term r = hsTerm (v_hard (view st));
  bt_Vote : Vote r = hsVote (v_hard (view st));
  bt_committed : committed (rlog r) = Z.max (v_off (view st)) (hsCommit (v_hard (view st)));
  bt_applied : applied (rlog r) = v_off (view st);
  bt_prev : prevHardSt r = hardState r;
  bt_state : state r = StateFollower;
  bt_msgs : msgs r = []
}.
Lemma newRaft_boots c (st : S) r : view_wf (view st) → newRaft c st = Ret (Ok r) → boots_from c st r.
Proof.
  intros Hv E. destruct (newLog_abs st Hv) as (l & El & Hwf & Ha & Ec & Ep & Es). unfold newRaft in E. rewrite El in E. simpl in E.
  rewrite law_hard in E. simpl in E. simpl in Es. set (hs := v_hard (view st)) in *.
  assert (Hset : settled l).
  { unfold newLog in El. rewrite law_first, law_last in El by done. simpl in El. by injection El as <-. }
  apply outcome_bind_Ret in E as (l1 & E1 & E).
  assert (H1 : log_wf l1 ∧ committed l1 = Z.max (v_off (view st)) (hsCommit hs) ∧ unst l1 = unst l ∧ storage l1 = storage l ∧
    applied l1 = applied l ∧ absLog l1 = absLog l).
  { rewrite Ec in E1. destruct (Z.ltb_spec (v_off (view st)) (hsCommit hs)).
    - destruct (commitTo_unst _ _ _ E1) as (? & ? & ?). destruct (decide (hsCommit hs ≤ a_last (absLog l))) as [Hle|Hgt].
      + destruct (commitTo_abs l (hsCommit hs) Hwf Hle) as (l2 & E2 & ? & ? & Ec2 & _). rewrite E1 in E2. injection E2 as <-.
        split_and!; try done. by rewrite Ec2, Ec.
      + by rewrite commitTo_panic in E1 by (done || lia).
    - injection E1 as <-. split_and!; try done. lia. }
  destruct H1 as (Hwf1 & Hc1 & Hu1 & Hs1 & Hap1 & Ha1). apply outcome_bind_Ret in E as ([[] r1] & E2 & [= ->]).
  match type of E2 with becomeFollower _ _ ?x = _ => set (r0 := x) in * end.
  assert (Hn0 : core_wf r0) by (split; [split|]; [done|apply map_Forall_empty..]).
  destruct (wp_run _ _ _ _ _ (becomeFollower_eff (Term r0) NoNode r0 Hn0) E2) as [Hre Hst].
  pose proof (resets_wf _ _ _ Hn0 Hre) as Hwf2.
  destruct (wp_run _ _ _ _ _ (wp_becomeFollower (Term r0) NoNode r0) E2) as ([] & ET & EV & _). destruct Hre.
  assert (Est : stores st (absLog (rlog r))).
  { rewrite rs_rlog. change (rlog r0) with l1. rewrite Ha1, Ha. done. }
  unfold vote_after in EV. rewrite Z.eqb_refl in EV.
  split; try done; rewrite ?rs_rlog; change (rlog r0) with l1; try congruence.
  - unfold settled. by rewrite Hu1.
  - exact Hc1.
  - rewrite f_prev. unfold hardState. rewrite rs_Term, EV, rs_rlog. done.
Qed.
End batch.
