(* ===== verification/LogTree.v ===== *)
(** * The logs of all leaders as one tree

    Raft's argument on logs, away from any code.  A [ghost] holds what no node
    stores: the log of the leader of each term ([logs]), how long it was when
    the leader was elected ([start]), the elected terms in the order of the
    elections ([terms]), which index of which term's log each node has made
    durable ([wit]), and a lower bound on each node's snapshot ([floor]).

    A log is [grown] when each of its entries comes with the whole prefix the
    leader of the entry's term had: two grown logs that have an entry of the
    same term at the same index agree up to it.  [chosen_kept] is leader
    completeness: an entry a majority made durable in its term is in the log of
    every leader of a later term. *)

From S2P Require Import Prelude RaftTypes Storage RaftLog LogSpec Replication.

(** ** Logs, counted from 1 *)

Definition get (F : list Entry) (i : Z) : option Entry := if i <=? 0 then None else F !! Z.to_nat (i - 1).
Definition tm (F : list Entry) (i : Z) : Z := from_option eTerm 0 (get F i).
Definition pre (n : Z) (F : list Entry) : list Entry := take (Z.to_nat n) F.
Definition agree (n : Z) (F G : list Entry) : Prop := ∀ i, i ≤ n → get F i = get G i.

Lemma get_range F i e : get F i = Some e → 1 ≤ i ≤ zlen F.
Proof. unfold get, zlen. destruct (Z.leb_spec i 0); [done|]. intros Hl%lookup_lt_Some. lia. Qed.
Lemma get_some F i : 1 ≤ i ≤ zlen F → ∃ e, get F i = Some e.
Proof.
  intros Hi. unfold get. destruct (Z.leb_spec i 0); [lia|]. apply lookup_lt_is_Some. unfold zlen in *. lia.
Qed.
Lemma get_tm F i e : get F i = Some e → tm F i = eTerm e.
Proof. intros E. unfold tm. by rewrite E. Qed.
Lemma tm_get F i : tm F i ≠ 0 → ∃ e, get F i = Some e ∧ eTerm e = tm F i.
Proof. unfold tm. destruct (get F i) as [e|]; simpl; [eauto|done]. Qed.
Lemma get_pre n F i : get (pre n F) i = if decide (i ≤ n) then get F i else None.
Proof.
  unfold get, pre. destruct (Z.leb_spec i 0); [by case_decide|]. case_decide.
  - apply lookup_take_lt. lia.
  - apply lookup_take_ge. lia.
Qed.
Lemma zlen_pre n F : 0 ≤ n ≤ zlen F → zlen (pre n F) = n.
Proof. apply zlen_take. Qed.
Lemma get_app_l F G i : i ≤ zlen F → get (F ++ G) i = get F i.
Proof.
  intros Hi. unfold get. destruct (Z.leb_spec i 0); [done|]. apply lookup_app_l. unfold zlen in *. lia.
Qed.
Lemma get_app_r F G i : zlen F < i → get (F ++ G) i = get G (i - zlen F).
Proof.
  intros Hi. pose proof (zlen_nonneg F). unfold get. destruct (Z.leb_spec i 0); [lia|]. destruct (Z.leb_spec (i - zlen F) 0); [lia|].
  rewrite lookup_app_r by (unfold zlen in *; lia). f_equal. unfold zlen in *. lia.
Qed.
Lemma list_get_eq F G : (∀ i, get F i = get G i) → F = G.
Proof.
  intros Hg. apply list_eq. intros k. specialize (Hg (Z.of_nat k + 1)). unfold get in Hg.
  destruct (Z.leb_spec (Z.of_nat k + 1) 0); [lia|]. by replace (Z.to_nat (Z.of_nat k + 1 - 1)) with k in Hg by lia.
Qed.

Lemma agree_refl n F : agree n F F.
Proof. done. Qed.
Lemma agree_sym n F G : agree n F G → agree n G F.
Proof. intros Ha i Hi. by rewrite Ha. Qed.
Lemma agree_trans n F G K : agree n F G → agree n G K → agree n F K.
Proof. intros H1 H2 i Hi. by rewrite H1, H2. Qed.
Lemma agree_le n k F G : k ≤ n → agree n F G → agree k F G.
Proof. intros Hk Ha i Hi. apply Ha. lia. Qed.
Ltac agree_down := eapply agree_le; [|eassumption]; lia.
Lemma agree_tm n F G i : agree n F G → i ≤ n → tm F i = tm G i.
Proof. intros Ha Hi. unfold tm. by rewrite Ha. Qed.
Lemma agree_zlen n F G : agree n F G → n ≤ zlen G → n ≤ zlen F.
Proof.
  intros Ha Hn. destruct (decide (1 ≤ n)); [|pose proof (zlen_nonneg F); lia].
  destruct (get_some G n) as [e He]; [lia|]. rewrite <-Ha in He by lia. apply get_range in He. lia.
Qed.
Lemma agree_pre n F : agree n (pre n F) F.
Proof. intros i Hi. rewrite get_pre. by case_decide. Qed.
Lemma agree_app n F G : n ≤ zlen F → agree n (F ++ G) F.
Proof. intros Hn i Hi. apply get_app_l. lia. Qed.
Lemma agree_none n F G : n ≤ 0 → agree n F G.
Proof. intros Hn i Hi. unfold get. destruct (Z.leb_spec i 0); [done|lia]. Qed.

(** ** A node's log is the end of a whole one *)

Definition rep (a : alog) (F : list Entry) : Prop :=
  0 ≤ a_base a ≤ zlen F ∧ a_ents a = drop (Z.to_nat (a_base a)) F ∧ a_bterm a = tm F (a_base a).

#[export] Instance alog_eq_dec : EqDecision alog.
Proof. solve_decision. Defined.

Section rep.
Context (a : alog) (F : list Entry) (Hrep : rep a F).

Lemma rep_last : a_last a = zlen F.
Proof. destruct Hrep as (Hb & He & _). unfold a_last. rewrite He, zlen_drop by lia. lia. Qed.
Lemma rep_get i : a_base a < i → a_get a i = get F i.
Proof.
  intros Hi. destruct Hrep as (Hb & He & _). unfold a_get, get. destruct (Z.leb_spec i (a_base a)); [lia|].
  destruct (Z.leb_spec i 0); [lia|]. rewrite He, lookup_drop. f_equal. lia.
Qed.
Lemma rep_term i : a_base a ≤ i → a_term a i = tm F i.
Proof.
  intros Hi. destruct Hrep as (_ & _ & Ht). unfold a_term. destruct (Z.eqb_spec i (a_base a)) as [->|]; [done|].
  rewrite rep_get by lia. unfold tm. by destruct (get F i).
Qed.
Lemma rep_lastTerm : a_lastTerm a = tm F (zlen F).
Proof. unfold a_lastTerm. rewrite rep_last, rep_term; [done|]. destruct Hrep. lia. Qed.
Lemma rep_slice lo hi : a_base a < lo → a_slice a lo hi = take (Z.to_nat (hi - lo)) (drop (Z.to_nat (lo - 1)) F).
Proof.
  intros Hlo. destruct Hrep as (Hb & He & _). unfold a_slice. rewrite He, drop_drop. do 2 f_equal. lia.
Qed.
Lemma rep_extend es : rep (a_extend a es) (F ++ es).
Proof.
  destruct Hrep as (Hb & He & Ht). split; [|split].
  - simpl. rewrite zlen_app. pose proof (zlen_nonneg es). lia.
  - simpl. rewrite He, drop_app_le; [done|]. unfold zlen in *. lia.
  - simpl. rewrite Ht. unfold tm. by rewrite get_app_l by lia.
Qed.
Lemma rep_splice k es : a_base a < k ≤ zlen F + 1 → rep (a_splice a k es) (pre (k - 1) F ++ es).
Proof.
  intros Hk. destruct Hrep as (Hb & He & Ht). pose proof (zlen_nonneg es). split; [|split].
  - simpl. rewrite zlen_app, zlen_pre by lia. lia.
  - simpl. rewrite He, drop_app_le; [|unfold pre; rewrite length_take; unfold zlen in *; lia].
    f_equal. unfold pre. rewrite take_drop_commute. do 2 f_equal. lia.
  - simpl. rewrite Ht. unfold tm. rewrite get_app_l by (rewrite zlen_pre; lia). rewrite get_pre. case_decide; [done|lia].
Qed.
Lemma rep_pre n : a_base a ≤ n ≤ zlen F → rep (mkALog (a_base a) (a_bterm a) (take (Z.to_nat (n - a_base a)) (a_ents a))) (pre n F).
Proof.
  intros Hn. destruct Hrep as (Hb & He & Ht). split; [|split]; simpl; [rewrite zlen_pre; lia| |].
  - rewrite He. unfold pre. rewrite take_drop_commute. do 2 f_equal. lia.
  - rewrite Ht. unfold tm. rewrite get_pre. by case_decide; [|lia].
Qed.
Lemma rep_compact k : a_base a ≤ k ≤ zlen F → rep (mkALog k (a_term a k) (drop (Z.to_nat (k - a_base a)) (a_ents a))) F.
Proof.
  intros Hk. destruct Hrep as (Hb & He & Ht). split; [|split]; simpl; [lia| |by apply rep_term; lia].
  rewrite He, drop_drop. f_equal. lia.
Qed.
End rep.
Lemma rep_snapshot F k t : 0 ≤ k ≤ zlen F → t = tm F k → rep (mkALog k t []) (pre k F).
Proof.
  intros Hk ->. split; [|split]; simpl; [rewrite zlen_pre; lia| |].
  - by rewrite drop_ge by (unfold pre; rewrite length_take; lia).
  - unfold tm. rewrite get_pre. by case_decide.
Qed.

Lemma rep_unique a F F' : rep a F → rep a F' → agree (a_base a) F F' → F = F'.
Proof.
  intros HF HF' Ha. apply list_get_eq. intros i. destruct (decide (i ≤ a_base a)); [by apply Ha|].
  rewrite <-(rep_get a F), <-(rep_get a F') by (done || lia). done.
Qed.

Lemma agree_iff n F G : agree n F G ↔ pre n F = pre n G.
Proof.
  split.
  - intros Ha. apply list_get_eq. intros i. rewrite !get_pre. case_decide; [by apply Ha|done].
  - intros E i Hi. pose proof (agree_pre n F i Hi). pose proof (agree_pre n G i Hi). congruence.
Qed.
#[export] Instance agree_dec n F G : Decision (agree n F G).
Proof. refine (cast_if (decide (pre n F = pre n G))); by rewrite agree_iff. Defined.

(** ** The tree *)

Record ghost : Type := mkGhost {
  logs : Z → list Entry;
  start : Z → Z;
  terms : list Z;
  wit : Z → Z → Z → Prop;
  floor : Z → Z
}.

(** [F] holds the first [c] entries of term [t]'s log, which has them. *)
Definition holds (g : ghost) (F : list Entry) (t c : Z) : Prop := c ≤ zlen (logs g t) ∧ agree c F (logs g t).
#[export] Instance holds_dec g F t c : Decision (holds g F t c).
Proof. unfold holds. apply _. Defined.
(** The leader of a later term does not. *)
Definition lost (g : ghost) (t c : Z) : Prop := ∃ u, u ∈ terms g ∧ t < u ∧ ¬ holds g (logs g u) t c.
Definition grown (g : ghost) (F : list Entry) : Prop :=
  ∀ i e, get F i = Some e → eTerm e ∈ terms g ∧ agree i F (logs g (eTerm e)).

Record tree (g : ghost) : Prop := mkTree {
  tr_pos : ∀ t, t ∈ terms g → 1 ≤ t;
  tr_grown : ∀ t, t ∈ terms g → grown g (logs g t);
  tr_index : ∀ t i e, t ∈ terms g → get (logs g t) i = Some e → eIndex e = i;
  tr_start : ∀ t, t ∈ terms g → 0 ≤ start g t ≤ zlen (logs g t);
  tr_own : ∀ t i e, t ∈ terms g → get (logs g t) i = Some e → start g t < i → eTerm e = t;
  tr_old : ∀ t i e, t ∈ terms g → get (logs g t) i = Some e → i ≤ start g t → eTerm e < t;
  tr_wit : ∀ v t c, wit g v t c → t ∈ terms g;
  tr_down : ∀ v t c c', wit g v t c → c' ≤ c → wit g v t c'
}.

Section tree.
Context (g : ghost) (Htree : tree g).
Implicit Types F G : list Entry.

Lemma tree_le t i e : t ∈ terms g → get (logs g t) i = Some e → eTerm e ≤ t.
Proof.
  intros Ht Hi. destruct (decide (i ≤ start g t)).
  - pose proof (tr_old _ Htree t i e Ht Hi). lia.
  - pose proof (tr_own _ Htree t i e Ht Hi). lia.
Qed.
Lemma tree_tm_le t i : t ∈ terms g → tm (logs g t) i ≤ t.
Proof.
  intros Ht. unfold tm. destruct (get (logs g t) i) as [e|] eqn:E; simpl; [by eapply tree_le|].
  pose proof (tr_pos _ Htree t Ht). lia.
Qed.
Lemma tree_owned t c : t ∈ terms g → start g t < c ≤ zlen (logs g t) → tm (logs g t) c = t.
Proof.
  intros Ht Hc. destruct (tr_start _ Htree t Ht). destruct (get_some (logs g t) c) as [e He]; [lia|].
  rewrite (get_tm _ _ _ He). apply (tr_own _ Htree t c); [done..|lia].
Qed.

Lemma grown_entry F i e : grown g F → get F i = Some e → eIndex e = i ∧ 1 ≤ eTerm e ∧ get (logs g (eTerm e)) i = Some e.
Proof.
  intros HF Hi. destruct (HF i e Hi) as [Ht Ha]. assert (Hg : get (logs g (eTerm e)) i = Some e) by (rewrite <-Ha; [done|lia]).
  split_and!; [by eapply tr_index|by apply (tr_pos _ Htree)|done].
Qed.
Lemma grown_mono F i j : grown g F → 1 ≤ i ≤ j → j ≤ zlen F → tm F i ≤ tm F j.
Proof.
  intros HF Hij Hj. destruct (get_some F j) as [e He]; [lia|]. destruct (HF j e He) as [Ht Ha].
  rewrite (agree_tm _ _ _ i Ha) by lia. rewrite (get_tm _ _ _ He). by apply tree_tm_le.
Qed.
Lemma grown_tm_pos F i : grown g F → 1 ≤ i ≤ zlen F → 1 ≤ tm F i.
Proof.
  intros HF Hi. destruct (get_some F i Hi) as [e He]. rewrite (get_tm _ _ _ He). by apply (grown_entry F i e).
Qed.
Lemma grown_tm_zero F i : grown g F → 0 ≤ i ≤ zlen F → tm F i = 0 → i = 0.
Proof. intros HF Hi E. destruct (decide (i = 0)); [done|]. pose proof (grown_tm_pos F i HF). lia. Qed.
(** Log matching. *)
Lemma grown_match F G i : grown g F → grown g G → tm F i = tm G i → tm F i ≠ 0 → agree i F G.
Proof.
  intros HF HG E Hn. destruct (tm_get F i Hn) as (e & He & Et). rewrite E in Hn, Et.
  destruct (tm_get G i Hn) as (e' & He' & Et'). destruct (HF i e He) as [_ Ha], (HG i e' He') as [_ Ha'].
  rewrite Et in Ha. rewrite Et' in Ha'. by apply (agree_trans i F (logs g (tm G i))), agree_sym.
Qed.
(** A grown log is known by its end. *)
Lemma grown_unique a F F' : rep a F → rep a F' → grown g F → grown g F' → F = F'.
Proof.
  intros HF HF' Hg Hg'. apply (rep_unique a); [done..|]. pose proof HF as (Hb & _ & E). pose proof HF' as (_ & _ & E').
  destruct (decide (a_base a = 0)) as [->|Hne]; [by apply agree_none|]. apply grown_match; [done..|congruence|].
  intros E0%grown_tm_zero; done.
Qed.
Lemma grown_pre F n : grown g F → grown g (pre n F).
Proof.
  intros HF i e. rewrite get_pre. case_decide; [|done]. intros Hi. destruct (HF i e Hi) as [Ht Ha]. split; [done|].
  eapply agree_trans; [|exact Ha]. eapply agree_le; [|apply agree_pre]. done.
Qed.

(** Accepting a slice of a leader's log. *)
Definition carried (t idx lt : Z) (es : list Entry) : Prop :=
  t ∈ terms g ∧ 0 ≤ idx ≤ zlen (logs g t) ∧ lt = tm (logs g t) idx ∧
  ∀ k e, es !! k = Some e → get (logs g t) (idx + 1 + Z.of_nat k) = Some e.

Lemma carried_len t idx lt es : carried t idx lt es → idx + zlen es ≤ zlen (logs g t).
Proof.
  intros (_ & Hi & _ & He). destruct (decide (es = [])) as [->|Hne]; [change (zlen (@nil Entry)) with 0; lia|].
  destruct (lookup_lt_is_Some_2 es (length es - 1)) as [e E]; [destruct es; simpl in *; [done|lia]|].
  pose proof (He _ _ E) as Hg%get_range. unfold zlen in *. destruct es; [done|]. simpl in *. lia.
Qed.
Lemma carried_ok t idx lt es : carried t idx lt es → contiguous (idx + 1) es ∧ Forall (λ e, eTerm e ≠ 0) es.
Proof.
  intros (Ht & Hi & _ & He). split.
  - revert idx Hi He. induction es as [|e es IH]; intros idx Hi He; [done|]. split.
    + pose proof (He 0%nat e eq_refl) as Hg. apply (tr_index _ Htree) in Hg; [lia|done].
    + pose proof (get_range _ _ _ (He 0%nat e eq_refl)). apply (IH (idx + 1)); [lia|]. intros k e' Hk.
      specialize (He (Datatypes.S k) e' Hk). by replace (idx + 1 + 1 + Z.of_nat k) with (idx + 1 + Z.of_nat (Datatypes.S k)) by lia.
  - apply Forall_lookup. intros k e Hk. pose proof (He k e Hk) as Hg.
    destruct (grown_entry _ _ _ (tr_grown _ Htree t Ht) Hg) as (_ & ? & _). lia.
Qed.
Lemma carried_match F t idx : grown g F → t ∈ terms g → 0 ≤ idx ≤ zlen (logs g t) → tm F idx = tm (logs g t) idx → agree idx F (logs g t).
Proof.
  intros HF Ht Hi E. destruct (decide (tm F idx = 0)) as [E0|Hne]; [|by apply grown_match; [|apply (tr_grown _ Htree)|..]].
  apply agree_none. rewrite E in E0. apply (grown_tm_zero _ _ (tr_grown _ Htree t Ht) Hi) in E0. lia.
Qed.
(** Every entry of the slice matches: so does the whole prefix. *)
Lemma carried_matched F t idx lt es :
  grown g F → carried t idx lt es → tm F idx = lt → (∀ e, e ∈ es → tm F (eIndex e) = eTerm e) → agree (idx + zlen es) F (logs g t).
Proof.
  intros HF Hc Hl He. pose proof (carried_len _ _ _ _ Hc). pose proof (carried_ok _ _ _ _ Hc) as [Hco _].
  destruct Hc as (Ht & Hi & -> & Hg). destruct (decide (es = [])) as [->|Hne].
  { change (zlen (@nil Entry)) with 0 in *. rewrite Z.add_0_r. by apply carried_match. }
  destruct (lookup_lt_is_Some_2 es (length es - 1)) as [e E]; [destruct es; simpl in *; [done|lia]|].
  pose proof (Hg _ _ E) as Hge. pose proof (contiguous_lookup _ _ _ _ Hco E) as Hx.
  assert (Hn : idx + zlen es = eIndex e) by (rewrite Hx; unfold zlen; destruct es; [done|simpl; lia]).
  apply list_elem_of_lookup_2 in E. rewrite <-Hx in Hge. pose proof (get_range _ _ _ Hge). rewrite Hn in *.
  apply carried_match; [done|done|lia|]. rewrite (He e E). by rewrite (get_tm _ _ _ Hge).
Qed.
Lemma accept_carried a F t idx lt es :
  rep a F → grown g F → carried t idx lt es → a_base a ≤ idx → a_term a idx = lt →
  let n := idx + zlen es in
  ∃ F', rep (a_accept a idx es) F' ∧ grown g F' ∧ agree n F' (logs g t) ∧ agree idx F' F ∧
    (F' = F ∨ F' = pre n (logs g t) ∧ ¬ agree n F (logs g t)).
Proof.
  intros Hrep HF Hc Hb Hl n. pose proof (carried_len _ _ _ _ Hc) as Hlen. destruct (carried_ok _ _ _ _ Hc) as [Hco Hnz].
  pose proof Hc as (Ht & Hi & Elt & Hg). pose proof (tr_grown _ Htree t Ht) as HT. pose proof (zlen_nonneg es).
  rewrite (rep_term a F Hrep) in Hl by done. assert (Hai : agree idx F (logs g t)) by (apply carried_match; [done..|congruence]).
  assert (Hil : idx ≤ zlen F) by (apply (agree_zlen _ _ _ Hai); lia). assert (H0 : 0 ≤ a_base a) by (destruct Hrep; lia).
  unfold a_accept. destruct (a_findConflict_spec a idx es Hco Hnz) as [(-> & _ & Hm)|(es1 & e & es2 & Hes & -> & He1 & He2 & He3 & Hm)];
    [lia|rewrite (rep_last a F Hrep); lia| |].
  - exists F. simpl. split_and!; try done; [|by left]. apply (carried_matched F t idx lt es); try done. intros e He.
    rewrite Forall_forall in Hm. rewrite <-(Hm e He). symmetry. apply rep_term; [done|].
    apply list_elem_of_lookup in He as [k Hk]. rewrite (contiguous_lookup _ _ _ _ Hco Hk). lia.
  - set (k := eIndex e) in *. pose proof (zlen_nonneg es1). destruct (Z.eqb_spec k 0); [lia|].
    assert (Hd : drop (Z.to_nat (k - idx - 1)) es = e :: es2).
    { rewrite Hes, drop_app_length'; [done|]. unfold zlen in *. lia. }
    rewrite Hd. assert (Hk : get (logs g t) k = Some e).
    { rewrite He1. apply Hg. rewrite Hes. by apply list_lookup_middle. }
    assert (Hn : n = k + zlen es2). { unfold n. rewrite Hes, zlen_app, zlen_cons. lia. }
    assert (Hak : agree (k - 1) F (logs g t)).
    { replace (k - 1) with (idx + zlen es1) by lia. apply (carried_matched F t idx lt es1); [done| |done|].
      - split_and!; try done; try lia. intros j x Hx. apply Hg. rewrite Hes. by apply lookup_app_l_Some.
      - intros x Hx. rewrite Forall_forall in Hm. rewrite <-(Hm x Hx). symmetry. apply rep_term; [done|].
        rewrite Hes in Hco. apply contiguous_app in Hco as [Hco1 _]. apply list_elem_of_lookup in Hx as [j Hj].
        rewrite (contiguous_lookup _ _ _ _ Hco1 Hj). lia. }
    rewrite (rep_last a F Hrep) in He2. pose proof (zlen_nonneg es2).
    assert (EF : pre (k - 1) F ++ e :: es2 = pre n (logs g t)).
    { apply list_get_eq. intros i. rewrite get_pre. destruct (decide (i ≤ k - 1)).
      - rewrite get_app_l by (rewrite zlen_pre; lia). rewrite get_pre. rewrite !decide_True by lia. apply Hak. lia.
      - rewrite get_app_r by (rewrite zlen_pre; lia). rewrite zlen_pre by lia. case_decide.
        + unfold get at 1. destruct (Z.leb_spec (i - (k - 1)) 0); [lia|].
          destruct (lookup_lt_is_Some_2 (e :: es2) (Z.to_nat (i - (k - 1) - 1))) as [x Hx]; [simpl; unfold zlen in *; lia|].
          rewrite Hx. symmetry. assert (Hx' : es !! (length es1 + Z.to_nat (i - (k - 1) - 1))%nat = Some x).
          { rewrite Hes. by rewrite lookup_app_r, Nat.add_comm, Nat.add_sub by lia. }
          apply Hg in Hx'. rewrite <-Hx'. f_equal. unfold zlen in *. lia.
        + unfold get. destruct (_ <=? 0); [done|]. apply lookup_ge_None. simpl. unfold zlen in *. lia. }
    exists (pre n (logs g t)). split_and!.
    + rewrite <-EF. apply rep_splice; [done|lia].
    + by apply grown_pre.
    + apply agree_pre.
    + apply (agree_trans _ _ (logs g t)); [|by apply agree_sym]. eapply agree_le; [|apply agree_pre]. lia.
    + right. split; [done|]. intros Ha. destruct He3. rewrite (rep_term a F Hrep) by lia.
      rewrite (agree_tm _ _ _ k Ha) by lia. by apply get_tm.
Qed.
End tree.

(** ** Leader completeness *)

(** Two majorities of a list of members intersect. *)
Lemma quorum_intersect (P : list Z) (Q1 Q2 : gset Z) :
  NoDup P → (∀ v, v ∈ Q1 → v ∈ P) → (∀ v, v ∈ Q2 → v ∈ P) →
  zlen P / 2 + 1 ≤ Z.of_nat (size Q1) → zlen P / 2 + 1 ≤ Z.of_nat (size Q2) → ∃ v, v ∈ Q1 ∧ v ∈ Q2.
Proof.
  intros Hn H1 H2 Hs1 Hs2. destruct (decide (Q1 ∩ Q2 ≡ ∅)) as [Hd|Hd].
  2: { apply set_choose in Hd as [v Hv]. exists v. set_solver. }
  exfalso. assert (Hsz : (size (Q1 ∪ Q2) ≤ length P)%nat).
  { rewrite <-(size_list_to_set (C := gset Z) P) by done. apply subseteq_size. set_solver. }
  rewrite size_union in Hsz by set_solver.
  pose proof (Z.mod_pos_bound (zlen P) 2 ltac:(lia)). pose proof (Z.div_mod (zlen P) 2 ltac:(lia)).
  unfold zlen in *. lia.
Qed.

Section completeness.
Context (P : list Z) (HP : NoDup P).
Implicit Types F G : list Entry.

Implicit Types Q : gset Z.

Definition majority Q : Prop := (∀ v, v ∈ Q → v ∈ P) ∧ zlen P / 2 + 1 ≤ Z.of_nat (size Q).

Lemma majority_other Q v : 2 ≤ zlen P → zlen P / 2 + 1 ≤ Z.of_nat (size Q) → ∃ q : Z, q ∈ Q ∧ q ≠ v.
Proof.
  clear HP. intros H2 HQ. destruct (decide (Q ∖ {[v]} ≡ ∅)) as [He|[q Hq]%set_choose]; [|exists q; set_solver].
  exfalso. assert (Hs : (size Q ≤ size ({[v]} : gset Z))%nat) by (apply subseteq_size; intros x Hx; specialize (He x); apply elem_of_singleton; destruct (decide (x = v)); set_solver). rewrite size_singleton in Hs.
  pose proof (Z.div_le_mono 2 (zlen P) 2) as Hd. change (2 `div` 2) with 1 in Hd. lia.
Qed.
Lemma majority_meet Q1 Q2 : majority Q1 → majority Q2 → ∃ v, v ∈ Q1 ∧ v ∈ Q2.
Proof. intros [H1 S1] [H2 S2]. by apply (quorum_intersect P). Qed.

(** The electors of term [u]: of what each had made durable by then of an
    earlier term, the new leader's log has it, or that of a leader elected
    before had already lost it. *)
Definition electors (voted : Z → Z → Prop) (g : ghost) (u : Z) (older : list Z) : Prop :=
  ∃ Q, majority Q ∧ ∀ v, v ∈ Q → voted v u ∧ ∀ t c, t < u → wit g v t c → start g t < c →
    holds g (logs g u) t c ∨ ∃ w, w ∈ older ∧ t < w ∧ ¬ holds g (logs g w) t c.
Definition elections (voted : Z → Z → Prop) (g : ghost) : Prop :=
  ∀ newer u older, terms g = newer ++ u :: older → electors voted g u older.

(** The entry at [i] is of term [t], and a majority made it durable. *)
Definition certified (g : ghost) (t i : Z) : Prop :=
  t ∈ terms g ∧ start g t < i ≤ zlen (logs g t) ∧ ∃ Q, majority Q ∧ ∀ q, q ∈ Q → wit g q t i.
(** The first [c] entries of [F] are those below a certified entry of a term of
    at most [T]. *)
Definition secure (g : ghost) (T c : Z) F : Prop :=
  c ≤ 0 ∨ ∃ t i, t ≤ T ∧ certified g t i ∧ c ≤ i ∧ agree c F (logs g t).

Lemma secure_mono g T T' c F : T ≤ T' → secure g T c F → secure g T' c F.
Proof. intros HT [?|(t & i & ? & ?)]; [by left|]. right. exists t, i. split; [lia|done]. Qed.
Lemma secure_le g T c c' F : c' ≤ c → secure g T c F → secure g T c' F.
Proof.
  intros Hc [?|(t & i & ? & ? & ? & Ha)]; [left; lia|]. right. exists t, i. split_and!; [done..|lia|]. agree_down.
Qed.
Lemma secure_agree g T c F F' : agree c F' F → secure g T c F → secure g T c F'.
Proof.
  intros Ha [?|(t & i & ? & ? & ? & Ha')]; [by left|]. right. exists t, i. split_and!; [done..|]. by eapply agree_trans.
Qed.

Section argument.
Context (voted : Z → Z → Prop) (g : ghost) (Htree : tree g) (Hel : elections voted g).

(** What a majority made durable, but for nodes that never voted in a later
    term, no later leader has lost. *)
Lemma chosen_kept t c Q :
  majority Q → start g t < c → (∀ q, q ∈ Q → wit g q t c ∨ ∀ u, t < u → ¬ voted q u) →
  ∀ u, u ∈ terms g → t < u → holds g (logs g u) t c.
Proof.
  intros HQ Hc Hw. assert (Hgen : ∀ older newer, terms g = newer ++ older → ∀ u, u ∈ older → t < u → holds g (logs g u) t c).
  { induction older as [|u' older IH]; intros newer E u Hu Ht; [by apply not_elem_of_nil in Hu|].
    assert (IH' : ∀ w, w ∈ older → t < w → holds g (logs g w) t c) by (apply (IH (newer ++ [u'])); by rewrite <-app_assoc).
    apply elem_of_cons in Hu as [->|Hu]; [|by apply IH'].
    destruct (Hel newer u' older E) as (Q' & HQ' & HE). destruct (majority_meet Q Q' HQ HQ') as (v & Hv & Hv').
    destruct (HE v Hv') as [Hvote Hk]. destruct (Hw v Hv) as [Hwit|Hno]; [|by destruct (Hno u' Ht)].
    destruct (Hk t c Ht Hwit Hc) as [?|(w & Hw' & Htw & Hn)]; [done|]. by destruct Hn; apply IH'. }
  by apply (Hgen (terms g) []).
Qed.
Lemma certified_kept t i u : certified g t i → u ∈ terms g → t < u → holds g (logs g u) t i.
Proof. intros (_ & Hi & Q & HQ & Hw) Hu Htu. apply (chosen_kept t i Q); [done|lia| |done..]. auto. Qed.
Lemma certified_agree t i t' i' c : certified g t i → certified g t' i' → c ≤ i → c ≤ i' → agree c (logs g t) (logs g t').
Proof.
  intros Hc Hc' Hi Hi'. pose proof Hc as (Ht & _). pose proof Hc' as (Ht' & _). destruct (Z.lt_trichotomy t t') as [Hlt|[->|Hlt]].
  - destruct (certified_kept t i t' Hc Ht' Hlt) as [_ Ha]. apply agree_sym. agree_down.
  - done.
  - destruct (certified_kept t' i' t Hc' Ht Hlt) as [_ Ha]. agree_down.
Qed.
Lemma secure_unique T T' c c' k F F' : secure g T c F → secure g T' c' F' → k ≤ c → k ≤ c' → agree k F F'.
Proof.
  intros HF HF' Hk Hk'. destruct (decide (k ≤ 0)); [by apply agree_none|].
  destruct HF as [?|(t & i & _ & Hc & Hi & Ha)]; [lia|]. destruct HF' as [?|(t' & i' & _ & Hc' & Hi' & Ha')]; [lia|].
  apply (agree_trans k F (logs g t)); [agree_down|]. apply (agree_trans k _ (logs g t')).
  - apply (certified_agree t i t' i'); try done; lia.
  - apply agree_sym. agree_down.
Qed.
(** A secure prefix, and the leader of a term not below. *)
Lemma secure_leader T c F u : secure g T c F → u ∈ terms g → T ≤ u → holds g F u c ∧ agree c F (logs g u).
Proof.
  intros [Hc|(t & i & HT & Hce & Hi & Ha)] Hu Hle.
  { split; [split|]; [pose proof (zlen_nonneg (logs g u)); lia|by apply agree_none..]. }
  assert (c ≤ zlen (logs g u) ∧ agree c (logs g t) (logs g u)) as [Hl Hag].
  { pose proof Hce as (Ht & Hil & _). destruct (decide (t = u)) as [->|Hne]; [split; [lia|done]|].
    destruct (certified_kept t i u Hce Hu) as [Hz Ha']; [lia|]. apply agree_sym in Ha'.
    split; [|agree_down]. apply (agree_le _ c) in Ha'; [|done]. apply agree_sym in Ha'. apply (agree_zlen _ _ _ Ha'). lia. }
  pose proof (agree_trans _ _ _ _ Ha Hag). by split.
Qed.
(** A secure prefix, and any leader. *)
Lemma secure_holds T c F u : secure g T c F → u ∈ terms g → holds g F u c ∨ lost g u c.
Proof.
  intros [Hc|(t & i & HT & Hce & Hi & Ha)] Hu.
  { left. split; [pose proof (zlen_nonneg (logs g u)); lia|by apply agree_none]. }
  destruct (decide (t ≤ u)) as [Hle|Hgt].
  - left. apply (secure_leader t c F u); [|done..]. right. by exists t, i.
  - destruct (decide (holds g (logs g t) u c)) as [[Hz Ha']|Hn].
    + left. split; [done|]. by eapply agree_trans.
    + right. exists t. split_and!; [apply Hce|lia|done].
Qed.

(** ** What one node's log says of what it made durable *)

Definition faithful (v : Z) F : Prop := ∀ t c, wit g v t c → holds g F t c ∨ lost g t c.

Lemma holds_extend F es t c : holds g F t c → holds g (F ++ es) t c.
Proof.
  intros [Hz Ha]. split; [done|]. eapply agree_trans; [|exact Ha]. apply agree_app. by eapply agree_zlen.
Qed.
Lemma faithful_extend v F es : faithful v F → faithful v (F ++ es).
Proof. intros Hf t c Hw. destruct (Hf t c Hw); [left; by apply holds_extend|by right]. Qed.
(** A log that disagreed with the leader's is replaced by a prefix of it. *)
Lemma faithful_replace v F n u :
  u ∈ terms g → (∀ t c, wit g v t c → t ≤ u) → ¬ agree n F (logs g u) → faithful v F → faithful v (pre n (logs g u)).
Proof.
  intros Hu Hle Hn Hf t c Hw. destruct (Hf t c Hw) as [[Hz Ha]|]; [|by right].
  destruct (decide (holds g (logs g u) t c)) as [[_ Ha']|Hnh].
  - left. split; [done|]. destruct (decide (c ≤ n)) as [Hc|Hc].
    + eapply agree_trans; [|exact Ha']. by eapply agree_le; [|apply agree_pre].
    + destruct Hn. apply (agree_le c); [lia|]. apply (agree_trans c F (logs g t)); [done|by apply agree_sym].
  - right. exists u. split_and!; try done. specialize (Hle t c Hw). destruct (decide (t = u)) as [->|]; [|lia].
    by destruct Hnh.
Qed.

(** ** Ballots *)

(** The candidate's last entry, at [li] of term [lt], is not behind entry [c] of
    term [t]. *)
Definition reaches (li lt t c : Z) : Prop := t < lt ∨ lt = t ∧ c ≤ li.

Lemma grant_reaches a F li lt t c :
  rep a F → grown g F → a_upToDate a li lt = true → t ∈ terms g → start g t < c → holds g F t c → reaches li lt t c.
Proof.
  intros Hr HF Hu Ht Hc [Hz Ha]. pose proof (tr_start _ Htree t Ht). unfold a_upToDate in Hu.
  rewrite (rep_lastTerm a F Hr), (rep_last a F Hr) in Hu. pose proof (agree_zlen _ _ _ Ha Hz).
  assert (Hm : t ≤ tm F (zlen F)).
  { rewrite <-(tree_owned g Htree t c), <-(agree_tm _ _ _ c Ha) by (done || lia). apply (grown_mono g Htree); [done|lia..]. }
  apply orb_true_iff in Hu as [Hu|[Hu Hu']%andb_true_iff]; [apply Z.ltb_lt in Hu; left; lia|].
  apply Z.eqb_eq in Hu. apply Z.leb_le in Hu'. unfold reaches. lia.
Qed.
Lemma elected_holds F t c :
  grown g F → t ∈ terms g → start g t < c → reaches (zlen F) (tm F (zlen F)) t c → holds g F t c ∨ lost g t c.
Proof.
  intros HF Ht Hc Hr. pose proof (tr_pos _ Htree t Ht). set (li := zlen F) in *. set (lt := tm F li) in *.
  assert (Hlt : lt ≠ 0) by (destruct Hr; lia). destruct (tm_get F li Hlt) as (e & He & Ee). fold lt in Ee.
  destruct (HF li e He) as [Hin Ha]. destruct (grown_entry g Htree F li e HF He) as (_ & _ & Hge). rewrite Ee in *.
  pose proof (get_range _ _ _ Hge) as Hli. destruct (decide (t = lt)) as [->|Hne].
  { left. destruct Hr as [?|[_ ?]]; [lia|]. split; [lia|]. agree_down. }
  assert (t < lt) by (destruct Hr; lia). destruct (decide (holds g (logs g lt) t c)) as [[Hz Ha']|Hn]; [|right; by exists lt].
  left. split; [done|]. assert (c ≤ li).
  { destruct (decide (c ≤ li)); [done|]. exfalso. pose proof (agree_zlen _ _ _ Ha' Hz).
    pose proof (grown_mono g Htree (logs g lt) li c (tr_grown _ Htree lt Hin)) as Hm.
    rewrite (get_tm _ _ _ Hge), Ee, (agree_tm _ _ _ c Ha') in Hm by lia.
    pose proof (tree_tm_le g Htree t c Ht). lia. }
  apply (agree_trans c F (logs g lt)); [agree_down|done].
Qed.
End argument.
End completeness.

(** ** Growth *)

(** [g'] is [g] later: leaders append to their logs, more are elected, more
    becomes durable. *)
Record gext (g g' : ghost) : Prop := mkGext {
  gx_terms : ∃ new, terms g' = new ++ terms g;
  gx_logs : ∀ t, t ∈ terms g → ∃ es, logs g' t = logs g t ++ es;
  gx_start : ∀ t, t ∈ terms g → start g' t = start g t;
  gx_wit : ∀ v t c, wit g v t c → wit g' v t c;
  gx_floor : ∀ v, floor g v ≤ floor g' v
}.

Lemma gext_trans g1 g2 g3 : gext g1 g2 → gext g2 g3 → gext g1 g3.
Proof.
  intros [[n1 E1]] [[n2 E2]]. assert (Hin : ∀ t, t ∈ terms g1 → t ∈ terms g2) by (intros t ?; rewrite E1; apply elem_of_app; by right).
  split; auto.
  - exists (n2 ++ n1). by rewrite E2, E1, app_assoc.
  - intros t Ht. destruct (gx_logs0 t Ht) as [es1 Es1], (gx_logs1 t (Hin t Ht)) as [es2 Es2]. exists (es1 ++ es2). by rewrite Es2, Es1, app_assoc.
  - intros t Ht. rewrite gx_start1, gx_start0; auto.
  - intros v. etrans; [apply gx_floor0|apply gx_floor1].
Qed.

Section growth.
Context (g g' : ghost) (Htree : tree g) (Hx : gext g g').

Lemma terms_ext t : t ∈ terms g → t ∈ terms g'.
Proof. destruct (gx_terms _ _ Hx) as [new ->]. set_solver. Qed.
Lemma logs_ext t n : t ∈ terms g → n ≤ zlen (logs g t) → agree n (logs g' t) (logs g t) ∧ n ≤ zlen (logs g' t).
Proof.
  intros Ht Hn. destruct (gx_logs _ _ Hx t Ht) as [es ->]. split; [by apply agree_app|].
  rewrite zlen_app. pose proof (zlen_nonneg es). lia.
Qed.
Lemma holds_ext F t c : t ∈ terms g → holds g F t c → holds g' F t c.
Proof.
  intros Ht [Hz Ha]. destruct (logs_ext t c Ht Hz) as [Ha' Hz']. split; [done|]. eapply agree_trans; [exact Ha|]. by apply agree_sym.
Qed.
Lemma grown_ext F : grown g F → grown g' F.
Proof.
  intros HF i e Hi. destruct (HF i e Hi) as [Ht Ha]. split; [by apply terms_ext|].
  destruct (grown_entry g Htree F i e HF Hi) as (_ & _ & Hg%get_range).
  destruct (logs_ext (eTerm e) i Ht) as [Ha' _]; [lia|]. eapply agree_trans; [exact Ha|]. by apply agree_sym.
Qed.
Context (Htree' : tree g').
(** What a leader appended is of its term. *)
Lemma logs_new t i e : t ∈ terms g → zlen (logs g t) < i → get (logs g' t) i = Some e → eTerm e = t.
Proof.
  intros Ht Hi He. apply (tr_own _ Htree' t i e); [by apply terms_ext|done|]. rewrite (gx_start _ _ Hx t Ht).
  destruct (tr_start _ Htree t Ht). lia.
Qed.
Lemma loses_ext u t c :
  u ∈ terms g → t ∈ terms g → t < u → ¬ holds g (logs g u) t c → ¬ holds g' (logs g' u) t c.
Proof.
  intros Hu Ht Htu Hn [Hz Ha]. apply Hn. clear Hn. pose proof (tree_tm_le g' Htree' t) as Hle.
  assert (Hold : ∀ i e, i ≤ c → get (logs g' u) i = Some e → i ≤ zlen (logs g u)).
  { intros i e Hi He. destruct (decide (i ≤ zlen (logs g u))); [done|]. exfalso.
    pose proof (logs_new u i e Hu ltac:(lia) He). specialize (Hle i (terms_ext t Ht)).
    rewrite <-(agree_tm _ _ _ i Ha Hi), (get_tm _ _ _ He) in Hle. lia. }
  destruct (decide (c ≤ 0)) as [Hc|Hc].
  { split; [pose proof (zlen_nonneg (logs g t)); lia|by apply agree_none]. }
  destruct (get_some (logs g' t) c) as [e He]; [lia|]. pose proof He as He'. rewrite <-Ha in He' by lia.
  pose proof (Hold c e ltac:(lia) He') as Hcu. destruct (logs_ext u c Hu Hcu) as [Hau _].
  assert (Hct : c ≤ zlen (logs g t)).
  { destruct (decide (c ≤ zlen (logs g t))); [done|]. exfalso. pose proof (logs_new t c e Ht ltac:(lia) He) as Et.
    rewrite Hau in He' by lia. destruct (grown_entry g Htree _ c e (tr_grown _ Htree u Hu) He') as (_ & _ & Hg).
    rewrite Et in Hg. apply get_range in Hg. lia. }
  destruct (logs_ext t c Ht Hct) as [Hat _]. split; [done|].
  apply (agree_trans c _ (logs g' u)); [by apply agree_sym|]. by apply (agree_trans c _ (logs g' t)).
Qed.
Lemma lost_ext t c : t ∈ terms g → lost g t c → lost g' t c.
Proof. intros Ht (u & Hu & Htu & Hn). exists u. split_and!; [by apply terms_ext|done|by apply loses_ext]. Qed.
Lemma faithful_ext v F : (∀ t c, wit g' v t c → wit g v t c) → faithful g v F → faithful g' v F.
Proof.
  intros Hw Hf t c Hw'. apply Hw in Hw'. pose proof (tr_wit _ Htree _ _ _ Hw') as Ht.
  destruct (Hf t c Hw'); [left; by apply holds_ext|right; by apply lost_ext].
Qed.
Lemma carried_ext t idx lt es : carried g t idx lt es → carried g' t idx lt es.
Proof.
  intros (Ht & Hi & -> & He). destruct (logs_ext t (zlen (logs g t)) Ht) as [Ha Hz]; [lia|]. split_and!; [by apply terms_ext|lia|lia|..].
  - symmetry. apply (agree_tm _ _ _ idx Ha). lia.
  - intros k e Hk. specialize (He k e Hk). rewrite Ha; [done|]. apply get_range in He. lia.
Qed.
Context (P : list Z).
Lemma certified_ext t i : certified P g t i → certified P g' t i.
Proof.
  intros (Ht & Hi & Q & HQ & Hw). split; [by apply terms_ext|]. rewrite (gx_start _ _ Hx t Ht).
  destruct (logs_ext t i Ht) as [_ Hz]; [lia|]. split; [lia|]. exists Q. split; [done|]. intros q Hq. apply (gx_wit _ _ Hx). auto.
Qed.
Lemma secure_ext T c F : secure P g T c F → secure P g' T c F.
Proof.
  intros [?|(t & i & HT & Hc & Hi & Ha)]; [by left|]. right. exists t, i. split_and!; [done|by apply certified_ext|done|].
  destruct Hc as (Ht & Hil & _). destruct (logs_ext t c Ht) as [Ha' _]; [lia|]. eapply agree_trans; [exact Ha|]. by apply agree_sym.
Qed.
(** Electors keep their word: none makes more durable of an earlier term. *)
Lemma electors_ext (voted voted' : Z → Z → Prop) u older :
  (∀ v w, voted v w → voted' v w) → (∀ v w t c, voted v w → t < w → wit g' v t c → wit g v t c) →
  u ∈ terms g → (∀ w, w ∈ older → w ∈ terms g) → electors P voted g u older → electors P voted' g' u older.
Proof.
  intros Hv Hw Hu Ho (Q & HQ & HE). exists Q. split; [done|]. intros v Hin. destruct (HE v Hin) as [Hvu Hk].
  split; [by apply Hv|]. intros t c Htu Hwit Hs. apply (Hw _ u) in Hwit; [|done..]. pose proof (tr_wit _ Htree _ _ _ Hwit) as Ht.
  rewrite (gx_start _ _ Hx t Ht) in Hs. destruct (Hk t c Htu Hwit Hs) as [[Hz Ha]|(w & Hw' & Htw & Hn)].
  - left. destruct (logs_ext t c Ht Hz) as [Ha' Hz']. split; [done|].
    destruct (logs_ext u c Hu) as [Hau _]; [by eapply agree_zlen|].
    apply (agree_trans c _ (logs g u)); [done|]. apply (agree_trans c _ (logs g t)); [done|by apply agree_sym].
  - right. exists w. split_and!; [done..|]. apply loses_ext; auto.
Qed.
Lemma elections_ext (voted voted' : Z → Z → Prop) new :
  terms g' = new ++ terms g → (∀ v w, voted v w → voted' v w) → (∀ v w t c, voted v w → t < w → wit g' v t c → wit g v t c) →
  (∀ newer u older, new = newer ++ u :: older → electors P voted' g' u (older ++ terms g)) →
  elections P voted g → elections P voted' g'.
Proof.
  intros En Hv Hw Hnew He newer u older E. rewrite En in E. apply app_eq_inv in E as [(k & E1 & E2)|(k & E1 & E2)].
  - destruct k as [|u' k]; simpl in E2.
    + rewrite app_nil_r in E1. symmetry in E2. apply (electors_ext voted); auto; [..|by apply (He [])].
      * rewrite E2. by left.
      * intros w Hin. rewrite E2. by right.
    + injection E2 as -> ->. by apply (Hnew newer).
  - apply (electors_ext voted); auto; [..|by apply (He k)].
    + rewrite E2. set_solver.
    + intros w Hin. rewrite E2. set_solver.
Qed.
End growth.

(** ** The steps of the ghost *)

(** The leader of term [t] appends [es]. *)
Definition g_append (t : Z) (es : list Entry) (g : ghost) : ghost :=
  mkGhost (λ u, if decide (u = t) then logs g t ++ es else logs g u) (start g) (terms g) (wit g) (floor g).
(** A candidate with log [F] is elected in term [t] and appends [e]. *)
Definition g_elect (t : Z) (F : list Entry) (e : Entry) (g : ghost) : ghost :=
  mkGhost (λ u, if decide (u = t) then F ++ [e] else logs g u) (λ u, if decide (u = t) then zlen F else start g u)
    (t :: terms g) (wit g) (floor g).
(** Node [v] has made durable, of term [t], all indices up to those in [A], and
    a snapshot at [b]. *)
Definition g_note (v t : Z) (A : Z → Prop) (b : Z) (g : ghost) : ghost :=
  mkGhost (logs g) (start g) (terms g)
    (λ v' t' c, wit g v' t' c ∨ v' = v ∧ t' = t ∧ ∃ i, A i ∧ c ≤ i)
    (λ v', if decide (v' = v) then Z.max (floor g v) b else floor g v').

Section steps.
Context (g : ghost) (Htree : tree g).

(** Entries of term [t], numbered behind [n]. *)
Definition fresh_entries (t n : Z) (es : list Entry) : Prop :=
  ∀ k e, es !! k = Some e → eTerm e = t ∧ eIndex e = n + 1 + Z.of_nat k.

Lemma gext_append t es : gext g (g_append t es g).
Proof.
  split; try done; simpl.
  - by exists [].
  - intros u Hu. case_decide as E; [subst; by exists es|]. exists []. by rewrite app_nil_r.
Qed.
Lemma grown_own g' F t es :
  t ∈ terms g' → grown g' F → agree (zlen (F ++ es)) (F ++ es) (logs g' t) →
  (∀ k e, es !! k = Some e → eTerm e = t) → grown g' (F ++ es).
Proof.
  intros Ht HF Ha He i e Hi. pose proof (get_range _ _ _ Hi) as Hr. destruct (decide (i ≤ zlen F)).
  - rewrite get_app_l in Hi by done. destruct (HF i e Hi) as [Hin Ha']. split; [done|]. eapply agree_trans; [by apply agree_app|done].
  - rewrite get_app_r in Hi by lia. unfold get in Hi. destruct (_ <=? 0); [done|]. rewrite (He _ _ Hi). split; [done|]. agree_down.
Qed.
Lemma fresh_get t F es i e : fresh_entries t (zlen F) es → zlen F < i → get (F ++ es) i = Some e → eTerm e = t ∧ eIndex e = i.
Proof.
  intros Hf Hi He. rewrite get_app_r in He by done. unfold get in He. destruct (Z.leb_spec (i - zlen F) 0); [done|].
  destruct (Hf _ _ He) as [? ->]. split; [done|]. lia.
Qed.
Lemma tree_append t es : t ∈ terms g → fresh_entries t (zlen (logs g t)) es → tree (g_append t es g).
Proof.
  intros Ht Hf. pose proof (gext_append t es) as Hx. pose proof (zlen_nonneg es).
  assert (Hcase : ∀ u i e, u ∈ terms g → get (logs (g_append t es g) u) i = Some e →
    get (logs g u) i = Some e ∨ u = t ∧ zlen (logs g t) < i ∧ eTerm e = t ∧ eIndex e = i).
  { intros u i e Hu. simpl. case_decide as E; [subst|auto]. destruct (decide (i ≤ zlen (logs g t))).
    - rewrite get_app_l by done. auto.
    - intros Hi. right. split; [done|]. split; [lia|]. apply (fresh_get t (logs g t) es); [done|lia|done]. }
  split; try apply Htree; simpl in *.
  - intros u Hu. case_decide as E; [subst|by apply (grown_ext g _ Htree Hx), Htree].
    apply (grown_own _ _ t); [done|by apply (grown_ext g _ Htree Hx), Htree| |].
    + simpl. by rewrite decide_True.
    + intros k e Hk. by apply (Hf k).
  - intros u i e Hu [Hi|(_ & _ & _ & ->)]%Hcase; [by eapply tr_index|done|done].
  - intros u Hu. destruct (tr_start _ Htree u Hu). case_decide; subst; rewrite ?zlen_app; lia.
  - intros u i e Hu [Hi|(-> & ? & ? & _)]%Hcase; [by eapply tr_own|done|done].
  - intros u i e Hu [Hi|(-> & ? & ? & _)]%Hcase; [by eapply tr_old| |done]. destruct (tr_start _ Htree t Hu). lia.
Qed.

Lemma gext_elect t F e : t ∉ terms g → gext g (g_elect t F e g).
Proof.
  intros Ht. split; try done; simpl.
  - by exists [t].
  - intros u Hu. rewrite decide_False by (by intros ->). exists []. by rewrite app_nil_r.
  - intros u Hu. by rewrite decide_False by (by intros ->).
Qed.
Lemma tree_elect t F e :
  t ∉ terms g → 1 ≤ t → grown g F → (∀ i, tm F i < t) → eTerm e = t → eIndex e = zlen F + 1 → tree (g_elect t F e g).
Proof.
  intros Ht H1 HF Hlt Et Ei. pose proof (gext_elect t F e Ht) as Hx.
  assert (Hf : fresh_entries t (zlen F) [e]).
  { intros k x Hk. apply list_lookup_singleton_Some in Hk as [-> <-]. split; [done|]. lia. }
  assert (Hcase : ∀ i x, get (F ++ [e]) i = Some x → get F i = Some x ∨ zlen F < i ∧ eTerm x = t ∧ eIndex x = i).
  { intros i x Hi. destruct (decide (i ≤ zlen F)); [left; by rewrite get_app_l in Hi|].
    right. split; [lia|]. apply (fresh_get t F [e]); [done|lia|done]. }
  assert (Hin : ∀ u, u ∈ t :: terms g → u = t ∨ u ∈ terms g ∧ u ≠ t).
  { intros u [->|Hu]%elem_of_cons; [by left|]. right. split; [done|]. by intros ->. }
  split; simpl.
  - intros u [->|[Hu _]]%Hin; [done|by eapply tr_pos].
  - intros u [->|[Hu Hne]]%Hin; [|rewrite decide_False by done; by apply (grown_ext g _ Htree Hx), Htree]. rewrite decide_True by done.
    apply (grown_own _ _ t); [by left|by apply (grown_ext g _ Htree Hx)| |].
    + simpl. by rewrite decide_True.
    + intros k x Hk. by apply (Hf k).
  - intros u i x [->|[Hu Hne]]%Hin; [|rewrite decide_False by done; by apply (tr_index _ Htree)]. rewrite decide_True by done.
    intros [Hi|(_ & _ & ->)]%Hcase; [by apply (grown_entry g Htree F)|done].
  - intros u [->|[Hu Hne]]%Hin; [|rewrite !decide_False by done; by apply (tr_start _ Htree)]. rewrite !decide_True by done.
    rewrite zlen_app. change (zlen [e]) with 1. pose proof (zlen_nonneg F). lia.
  - intros u i x [->|[Hu Hne]]%Hin; [|rewrite !decide_False by done; by apply (tr_own _ Htree)]. rewrite !decide_True by done.
    intros [Hi%get_range|(_ & ? & _)]%Hcase; [lia|done].
  - intros u i x [->|[Hu Hne]]%Hin; [|rewrite !decide_False by done; by apply (tr_old _ Htree)]. rewrite !decide_True by done.
    intros [Hi|(? & _ & _)]%Hcase; [|lia]. intros _. rewrite <-(get_tm _ _ _ Hi). apply Hlt.
  - intros v u c Hw. right. by eapply tr_wit.
  - apply Htree.
Qed.

Lemma gext_note v t A b : gext g (g_note v t A b g).
Proof.
  split; try done; simpl.
  - by exists [].
  - intros u _. exists []. by rewrite app_nil_r.
  - auto.
  - intros u. case_decide; [subst|]; lia.
Qed.
Lemma tree_note v t A b : (∀ i, A i → t ∈ terms g) → tree (g_note v t A b g).
Proof.
  intros Ht. split; try apply Htree; simpl.
  - intros v' t' c [Hw|(_ & -> & i & HA & _)]; [by eapply tr_wit|by apply (Ht i)].
  - intros v' t' c c' [Hw|(-> & -> & i & HA & Hi)] Hc; [left; by eapply tr_down|]. right. split_and!; [done..|].
    exists i. split; [done|lia].
Qed.
End steps.
