(* ===== verification/Cluster.v ===== *)
(** * A cluster of nodes under their driver (src/server/drive.go, [drain])

    A [host] is a node with the phase its driver is in: the body of [drain] is
    cut where the process can crash, after every write to the storage, after
    the sync, after the send.  [h_disks] are the contents the storage may have
    after a crash: the synced one, those written since, the beginnings of a
    batch of entries that was torn ([torn]), and a snapshot under the hard
    states that were on disk before it ([unflushed]).
    [exec] runs one action of the cluster (a tick, a delivery, a client
    request, a piece of [drain], a crash, a restart); the network keeps every
    message ever sent, so it loses, duplicates, delays and reorders.

    The file ends with election safety for this system. *)

From S2P Require Import Prelude RaftTypes Storage RaftLog ReadOnly Raft Node Quiet Election LogTree.

Inductive phase : Type :=
| PIdle
| PSnap (rd : Ready)
| PEnts (rd : Ready)
| PHard (rd : Ready)
| PSync (rd : Ready)
| PSend (rd : Ready)
| PAdvance (rd : Ready).

Record host (S : Type) : Type := mkHost {
  h_node : Node S;
  h_phase : phase;
  h_disks : list S
}.
Arguments mkHost {S}.
Arguments h_node {S}.
Arguments h_phase {S}.
Arguments h_disks {S}.

Inductive status (S : Type) : Type :=
| Up (h : host S)
| Down (st : S).
Arguments Up {S}.
Arguments Down {S}.

Record Cluster (S : Type) : Type := mkCluster {
  c_hosts : gmap Z (status S);
  c_net : list Message;
  c_elected : list (Z * Z)
}.
Arguments mkCluster {S}.
Arguments c_hosts {S}.
Arguments c_net {S}.
Arguments c_elected {S}.

(** What the driver hands to the core: a tick, a delivered message, a client's
    proposal or read. *)
Inductive input : Type :=
| InTick
| InRecv (m : Message)
| InPropose (data : list byte)
| InRead (ctx : list byte).

Inductive action (S : Type) : Type :=
| ActInput (i : Z) (inp : input)
| ActDrive (i : Z)
| ActCrash (i : Z) (k : nat)
| ActRestart (i : Z) (rnd : Rand)
| ActMaint (i : Z) (st : S).
Arguments ActInput {S}.
Arguments ActDrive {S}.
Arguments ActCrash {S}.
Arguments ActRestart {S}.
Arguments ActMaint {S}.

#[export] Instance Message_eq_dec : EqDecision Message.
Proof. solve_decision. Defined.

Section driver.
Context {S : Type} `{LogStorage S}.

Definition h_raft (h : host S) : raft S := n_r (h_node h).
Definition h_storage (h : host S) : S := storage (rlog (h_raft h)).

(** A write to the shared storage. *)
Definition putStorage (st : S) (h : host S) (ph : phase) : host S :=
  let r := h_raft h in
  mkHost (mkNode (set_rlog (set_storage st (rlog r)) r) (pendingReady (h_node h))) ph (h_disks h ++ [st]).

Definition setPhase (ph : phase) (h : host S) : host S := mkHost (h_node h) ph (h_disks h).

(** ** What a crash may leave

    The log file is written in order and torn anywhere, so a batch of entries
    may survive up to any of them.  The snapshot file is durable at once, even
    where the hard states written before it are not. *)
Definition addDisks (sts : list S) (h : host S) : host S := mkHost (h_node h) (h_phase h) (h_disks h ++ sts).
Definition torn (es : list Entry) (st : S) : list S :=
  omap (λ k, match AppendEntries (take k es) st with Ret (st', None) => Some st' | _ => None end) (seq 1 (length es - 1)).
Definition unflushed (st : S) (disks : list S) : list S :=
  omap (λ s, match HardStateOf s with
             | Ret (Ok hs) => match SetHardState hs st with Ret (st', None) => Some st' | _ => None end
             | _ => None
             end) disks.
Definition putSnapshot (st : S) (h : host S) (ph : phase) : host S :=
  addDisks (unflushed st (h_disks h)) (putStorage st h ph).
Definition putEntries (es : list Entry) (st : S) (h : host S) (ph : phase) : host S :=
  addDisks (torn es (h_storage h)) (putStorage st h ph).

(** One piece of the loop body of [drain]; an [Err] makes [drain] return it. *)
Definition drive (h : host S) : outcome (result errkind (host S * list Message)) :=
  match h_phase h with
  | PIdle =>
      b ← HasReady (h_node h);
      if (b : bool) then
        '(rd, n) ← Node_Ready (h_node h);
        Ret (Ok (mkHost n (PSnap rd) (h_disks h), []))
      else Ret (Ok (h, []))
  | PSnap rd =>
      match rdSnapshot rd with
      | None => Ret (Ok (setPhase (PEnts rd) h, []))
      | Some sn =>
          '(st, e) ← ApplySnapshot sn (h_storage h);
          match e with
          | None | Some ErrCompacted => Ret (Ok (putSnapshot st h (PEnts rd), []))
          | Some e => Ret (Err e)
          end
      end
  | PEnts rd =>
      if 0 <? zlen (rdEntries rd) then
        '(st, e) ← AppendEntries (rdEntries rd) (h_storage h);
        match e with
        | None => Ret (Ok (putEntries (rdEntries rd) st h (PHard rd), []))
        | Some e => Ret (Err e)
        end
      else Ret (Ok (setPhase (PHard rd) h, []))
  | PHard rd =>
      match rdHardState rd with
      | None => Ret (Ok (setPhase (PSync rd) h, []))
      | Some hs =>
          '(st, e) ← SetHardState hs (h_storage h);
          match e with
          | None => Ret (Ok (putStorage st h (PSync rd), []))
          | Some e => Ret (Err e)
          end
      end
  | PSync rd =>
      if rdMustSync rd
      then Ret (Ok (mkHost (h_node h) (PSend rd) [h_storage h], []))
      else Ret (Ok (setPhase (PSend rd) h, []))
  | PSend rd => Ret (Ok (setPhase (PAdvance rd) h, rdMessages rd))
  | PAdvance rd =>
      '(_, n) ← Advance (h_node h);
      Ret (Ok (mkHost n PIdle (h_disks h), []))
  end.

(** [handleRequest]'s messages, and [Step] or [Tick] for the rest. *)
Definition runInput (inp : input) (n : Node S) : outcome (Node S) :=
  match inp with
  | InTick => '(_, n) ← Node_Tick n; Ret n
  | InRecv m => '(_, n) ← Node_Step m n; Ret n
  | InPropose data =>
      '(_, n) ← Node_Step (set_mEntries [mkEntry 0 0 EntryNormal data] (Msg MsgPropose 0)) n; Ret n
  | InRead ctx => '(_, n) ← Node_Step (set_mContext ctx (Msg MsgReadIndex 0)) n; Ret n
  end.

(** Only sent messages are delivered, and only to their addressee. *)
Definition deliverable (net : list Message) (i : Z) (inp : input) : bool :=
  match inp with
  | InRecv m => bool_decide (m ∈ net) && (mTo m =? i)
  | _ => true
  end.

End driver.

Section cluster.
Context {S : Type} `{LogStorageLaws S}.
Context (conf : Z → Config) (P : list Z).

Definition elected_by (i : Z) (n : Node S) : list (Z * Z) :=
  if decide (Node_State n = StateLeader) then [(Node_Term n, i)] else [].

(** One action.  A term at the top of its width takes no more input. *)
Definition exec (a : action S) (c : Cluster S) : option (Cluster S) :=
  match a with
  | ActInput i inp =>
      match c_hosts c !! i with
      | Some (Up h) =>
          match h_phase h with
          | PIdle =>
              if (Term (h_raft h) + 1 <? u64_mod) && deliverable (c_net c) i inp then
                match runInput inp (h_node h) with
                | Ret n => Some (mkCluster (<[i := Up (mkHost n PIdle (h_disks h))]> (c_hosts c))
                                   (c_net c) (elected_by i n ++ c_elected c))
                | Panic _ => None
                end
              else None
          | _ => None
          end
      | _ => None
      end
  | ActDrive i =>
      match c_hosts c !! i with
      | Some (Up h) =>
          match drive h with
          | Ret (Ok (h', ms)) => Some (mkCluster (<[i := Up h']> (c_hosts c)) (c_net c ++ ms) (c_elected c))
          | _ => None
          end
      | _ => None
      end
  | ActCrash i k =>
      match c_hosts c !! i with
      | Some (Up h) =>
          match h_disks h !! k with
          | Some st => Some (mkCluster (<[i := Down st]> (c_hosts c)) (c_net c) (c_elected c))
          | None => None
          end
      | _ => None
      end
  | ActRestart i rnd =>
      match c_hosts c !! i with
      | Some (Down st) =>
          match NewNode (set_cRand (Some rnd) (conf i)) st with
          | Ret (Ok n) => Some (mkCluster (<[i := Up (mkHost n PIdle [st])]> (c_hosts c)) (c_net c) (c_elected c))
          | _ => None
          end
      | _ => None
      end
  | ActMaint i st' =>
      match c_hosts c !! i with
      | Some (Up h) =>
          if decide (v_hard (view st') = v_hard (view (h_storage h)))
          then Some (mkCluster (<[i := Up (putSnapshot st' h (h_phase h))]> (c_hosts c)) (c_net c) (c_elected c))
          else None
      | Some (Down st) =>
          if decide (v_hard (view st') = v_hard (view st))
          then Some (mkCluster (<[i := Down st']> (c_hosts c)) (c_net c) (c_elected c))
          else None
      | None => None
      end
  end.

(** Every member is down with an empty hard state, nothing was ever sent. *)
Definition initial (c : Cluster S) : Prop :=
  c_net c = [] ∧ c_elected c = [] ∧
  ∀ i st, c_hosts c !! i = Some st →
    i ∈ P ∧ ∃ s, st = Down s ∧ v_hard (view s) = zeroHardState.

Inductive reachable (c0 : Cluster S) : Cluster S → Prop :=
| reach_init : initial c0 → reachable c0 c0
| reach_step c a c' : reachable c0 c → exec a c = Some c' → reachable c0 c'.

(** All members are configured with the same voters. *)
Definition same_voters : Prop :=
  ∀ i, i ∈ P → cID (conf i) = i ∧ cPeers (conf i) ≡ₚ P ∧ validate (conf i) = None.

(** A schedule: actions, and deliveries of the [k]-th message ever sent. *)
Definition play1 (mv : action S + Z * nat) (c : Cluster S) : option (Cluster S) :=
  match mv with
  | inl a => exec a c
  | inr (i, k) => m ← c_net c !! k; exec (ActInput i (InRecv m)) c
  end.
Fixpoint play (mvs : list (action S + Z * nat)) (c : Cluster S) : option (Cluster S) :=
  match mvs with
  | [] => Some c
  | mv :: mvs => c' ← play1 mv c; play mvs c'
  end.

Lemma reachable_play c0 mvs c c' : reachable c0 c → play mvs c = Some c' → reachable c0 c'.
Proof.
  revert c. induction mvs as [|mv mvs IH]; intros c Hr E; simpl in E; [by injection E as <-|].
  apply bind_Some in E as (c1 & E1 & E). apply (IH c1); [|done].
  destruct mv as [a|[i k]]; unfold play1 in E1; [exact (reach_step c0 c a c1 Hr E1)|].
  apply bind_Some in E1 as (m & _ & E1). exact (reach_step c0 c _ c1 Hr E1).
Qed.

(** ** Invariant *)

Definition requested (net : list Message) (c t : Z) : Prop :=
  ∃ m, m ∈ net ∧ mType m = MsgVote ∧ mFrom m = c ∧ mTerm m = t.
Definition granted (net : list Message) (i t v : Z) : Prop :=
  ∃ m, m ∈ net ∧ ballot m = Some (v, t, i).

(** The hard state remembers the ballot. *)
Definition cast_hs (hs : HardState) (t c : Z) : Prop :=
  t < hsTerm hs ∨ (t = hsTerm hs ∧ hsVote hs = c).

Definition TV (hs : HardState) : Z * Z := (hsTerm hs, hsVote hs).

(** The storage is never ahead of the core. *)
Definition behind (hs : HardState) (r : raft S) : Prop :=
  0 ≤ hsTerm hs ≤ Term r ∧ (hsTerm hs = Term r → hsVote hs ≠ NoNode → Vote r = hsVote hs).

(** The batch is the one [Ready] computed from this state. *)
Definition ready_ok (rd : Ready) (n : Node S) : Prop :=
  let r := n_r n in
  pendingReady n = Some rd ∧ rdMessages rd = msgs r ∧
  (rdHardState rd = None ∧ hardState r = prevHardSt r ∨ rdHardState rd = Some (hardState r)) ∧
  (rdMustSync rd = false → TV (prevHardSt r) = TV (hardState r)).

(** The term and vote on disk, phase by phase. *)
Definition phase_ok (h : host S) : Prop :=
  let r := h_raft h in
  let all Q := ∀ s, s ∈ h_disks h → Q (TV (v_hard (view s))) in
  match h_phase h with
  | PIdle => all (λ tv, tv = TV (prevHardSt r))
  | PSnap rd | PEnts rd | PHard rd => ready_ok rd (h_node h) ∧ all (λ tv, tv = TV (prevHardSt r))
  | PSync rd => ready_ok rd (h_node h) ∧ TV (v_hard (view (h_storage h))) = TV (hardState r) ∧
                all (λ tv, tv = TV (prevHardSt r) ∨ tv = TV (hardState r))
  | PSend rd | PAdvance rd => ready_ok rd (h_node h) ∧ all (λ tv, tv = TV (hardState r))
  end.

(** The ballots of voter [i] among [ms] name one candidate per term. *)
Definition votes_of (i : Z) (ms : list Message) : Prop :=
  ∀ m1 m2 t c1 c2, m1 ∈ ms → m2 ∈ ms →
    ballot m1 = Some (i, t, c1) → ballot m2 = Some (i, t, c2) → c1 = c2.

Record host_inv (net : list Message) (i : Z) (h : host S) : Prop := mkHostInv {
  hi_id : id (h_raft h) = i;
  hi_peers : peers (h_raft h) ≡ₚ P;
  hi_VI : VI (granted net i) (h_raft h);
  hi_msgs : Forall (good (requested net) (h_raft h)) (msgs (h_raft h));
  hi_votes : votes_of i (net ++ msgs (h_raft h));
  hi_cur : h_storage h ∈ h_disks h;
  hi_behind : ∀ s, s ∈ h_disks h → behind (v_hard (view s)) (h_raft h);
  hi_cast : ∀ m t c, m ∈ net → ballot m = Some (i, t, c) →
            cast (h_raft h) t c ∧ ∀ s, s ∈ h_disks h → cast_hs (v_hard (view s)) t c;
  hi_phase : phase_ok h
}.

Definition status_inv (net : list Message) (i : Z) (st : status S) : Prop :=
  match st with
  | Up h => host_inv net i h
  | Down s => votes_of i net ∧ 0 ≤ hsTerm (v_hard (view s)) ∧
              ∀ m t c, m ∈ net → ballot m = Some (i, t, c) → cast_hs (v_hard (view s)) t c
  end.

(** What holds of every sent message. *)
Record msg_inv (net : list Message) (m : Message) : Prop := mkMsgInv {
  mi_from : mFrom m ∈ P;
  mi_nonneg : 0 ≤ mTerm m;
  mi_lead : leader_type (mType m) → 1 ≤ mTerm m;
  mi_ballot : ∀ v t c, ballot m = Some (v, t, c) → 1 ≤ t ∧ c ≠ NoNode;
  mi_req : mType m = MsgVoteResp → mReject m = false → requested net (mTo m) (mTerm m)
}.

(** A leader had a quorum of ballots, its own aside. *)
Definition was_elected (net : list Message) (t a : Z) : Prop :=
  a ∈ P ∧ ∃ Q : gset Z, zlen P / 2 + 1 ≤ Z.of_nat (size Q) ∧ ∀ v, v ∈ Q → v = a ∨ granted net a t v.

Record inv (c : Cluster S) : Prop := mkInv {
  inv_hosts : ∀ i st, c_hosts c !! i = Some st → i ∈ P ∧ status_inv (c_net c) i st;
  inv_msgs : ∀ m, m ∈ c_net c → msg_inv (c_net c) m;
  inv_votes : ∀ i, votes_of i (c_net c);
  inv_elected : ∀ t a, (t, a) ∈ c_elected c → was_elected (c_net c) t a
}.

(** ** Facts on ballots and growing networks *)

Lemma ballot_from m v t c : ballot m = Some (v, t, c) → v = mFrom m ∧ t = mTerm m.
Proof. unfold ballot. destruct (mType m); try done; [|case_match; [done|]]; by intros [= <- <- <-]. Qed.

Lemma requested_mono net net' c t : net ⊆ net' → requested net c t → requested net' c t.
Proof. intros Hs (m & Hm & ?). exists m. auto. Qed.
Lemma granted_mono net net' i t v : net ⊆ net' → granted net i t v → granted net' i t v.
Proof. intros Hs (m & Hm & ?). exists m. auto. Qed.
Lemma good_mono net net' (r : raft S) m : net ⊆ net' → good (requested net) r m → good (requested net') r m.
Proof. intros Hs []. constructor; auto. intros. apply (requested_mono net); auto. Qed.
Lemma VI_mono net net' i (r : raft S) : net ⊆ net' → VI (granted net i) r → VI (granted net' i) r.
Proof.
  intros Hs []. constructor; auto.
  - intros Hc v Hv. destruct (vi_cand Hc v Hv); [auto|]. right. by apply (granted_mono net).
  - intros Hl. destruct (vi_lead Hl) as (Q & HQ & Hg). exists Q. split; [done|]. intros v Hv.
    destruct (Hg v Hv); [auto|]. right. by apply (granted_mono net).
Qed.
Lemma was_elected_mono net net' t a : net ⊆ net' → was_elected net t a → was_elected net' t a.
Proof.
  intros Hs (Ha & Q & HQ & Hg). split; [done|]. exists Q. split; [done|]. intros v Hv.
  destruct (Hg v Hv); [auto|]. right. by apply (granted_mono net).
Qed.
Lemma msg_inv_mono net net' m : net ⊆ net' → msg_inv net m → msg_inv net' m.
Proof. intros Hs []. constructor; auto. intros. apply (requested_mono net); auto. Qed.

(** Messages of other nodes carry no ballot of [i]. *)
Lemma votes_of_others i ms ms' ms'' :
  (∀ m, m ∈ ms' → mFrom m ≠ i) → votes_of i (ms ++ ms'') → votes_of i ((ms ++ ms') ++ ms'').
Proof.
  intros Ho Hv m1 m2 t c1 c2 H1 H2 E1 E2.
  assert (Hin : ∀ m c, m ∈ (ms ++ ms') ++ ms'' → ballot m = Some (i, t, c) → m ∈ ms ++ ms'').
  { intros m c Hm E. rewrite !elem_of_app in Hm. rewrite elem_of_app.
    destruct Hm as [[?|Hm]|?]; auto. apply ballot_from in E as [E _]. by destruct (Ho m Hm). }
  apply (Hv m1 m2 t c1 c2); eauto.
Qed.
Lemma others_in i (net ms : list Message) m t c :
  (∀ m, m ∈ ms → mFrom m ≠ i) → m ∈ net ++ ms → ballot m = Some (i, t, c) → m ∈ net.
Proof.
  intros Ho [Hm|Hm]%elem_of_app E; [done|]. apply ballot_from in E as [E _]. by destruct (Ho m Hm).
Qed.

Lemma status_inv_others net ms i st :
  (∀ m, m ∈ ms → mFrom m ≠ i) → status_inv net i st → status_inv (net ++ ms) i st.
Proof.
  intros Ho. assert (Hs : net ⊆ net ++ ms) by set_solver. destruct st as [h|s]; simpl.
  - intros []. constructor; auto.
    + by apply (VI_mono net).
    + eapply Forall_impl; [done|]. intros m. by apply good_mono.
    + by apply votes_of_others.
    + intros m t c Hm E. apply (hi_cast0 m t c); [|done]. by eapply others_in.
  - intros (Hv & Ht & Hc). split_and!; [|done|].
    + rewrite <-(app_nil_r (net ++ ms)). apply votes_of_others; [done|]. by rewrite app_nil_r.
    + intros m t c Hm E. apply (Hc m t c); [|done]. by eapply others_in.
Qed.

(** The rest of the cluster, when host [i] changed and sent [ms]. *)
Lemma inv_update c i st ms el :
  inv c → i ∈ P →
  (∀ m, m ∈ ms → mFrom m = i ∧ msg_inv (c_net c ++ ms) m) →
  status_inv (c_net c ++ ms) i st → votes_of i (c_net c ++ ms) →
  (∀ t a, (t, a) ∈ el → was_elected (c_net c ++ ms) t a) →
  inv (mkCluster (<[i := st]> (c_hosts c)) (c_net c ++ ms) (el ++ c_elected c)).
Proof.
  intros [Hh Hm Hv He] Hi Hms Hst Hvi Hel. assert (Hs : c_net c ⊆ c_net c ++ ms) by set_solver.
  constructor; simpl.
  - intros j st' [[-> <-]|[Hne E]]%lookup_insert_Some; [done|]. destruct (Hh j st' E) as [Hj Hj'].
    split; [done|]. apply status_inv_others; [|done]. intros m Hin. destruct (Hms m Hin). congruence.
  - intros m [Hin|Hin]%elem_of_app; [|by apply Hms]. apply (msg_inv_mono (c_net c)); auto.
  - intros j. destruct (decide (j = i)) as [->|]; [done|].
    rewrite <-(app_nil_r (c_net c ++ ms)). apply votes_of_others; [|by rewrite app_nil_r].
    intros m Hin. destruct (Hms m Hin). congruence.
  - intros t a [Hin|Hin]%elem_of_app; [by apply Hel|]. apply (was_elected_mono (c_net c)); auto.
Qed.

(** The common case: nothing is sent and nobody is elected. *)
Lemma inv_update_host c i st :
  inv c → i ∈ P → status_inv (c_net c) i st →
  inv (mkCluster (<[i := st]> (c_hosts c)) (c_net c) (c_elected c)).
Proof.
  intros Hc Hi Hst. rewrite <-(app_nil_r (c_net c)). apply (inv_update c i st [] []); auto.
  - by intros m []%not_elem_of_nil.
  - by rewrite app_nil_r.
  - rewrite app_nil_r. apply Hc.
  - by intros t a []%not_elem_of_nil.
Qed.

(** ** Inputs *)

Lemma wf_deliver c i m :
  inv c → 0 ∉ P → m ∈ c_net c → mTo m = i → wf_in (requested (c_net c)) (granted (c_net c) i) m.
Proof.
  intros Hc Hz Hm Hto. destruct (inv_msgs _ Hc m Hm). constructor; auto.
  - intros E. unfold NoNode in E. congruence.
  - intros E. split; [|by exists m].
    apply (mi_ballot0 (mFrom m) (mTerm m) (mFrom m)). unfold ballot. by rewrite E.
  - intros E Er. assert (Hb : ballot m = Some (mFrom m, mTerm m, i)) by (unfold ballot; rewrite E, Er; by subst).
    split; [by destruct (mi_ballot0 _ _ _ Hb)|]. by exists m.
Qed.

Lemma runInput_stepped c i h inp n :
  inv c → 0 ∉ P → i ∈ P → host_inv (c_net c) i h → Term (h_raft h) + 1 < u64_mod →
  deliverable (c_net c) i inp = true → runInput inp (h_node h) = Ret n →
  stepped (requested (c_net c)) (granted (c_net c) i) (h_raft h) (n_r n) ∧
  pendingReady n = pendingReady (h_node h).
Proof.
  intros Hc Hz Hi Hh Ht Hd Hr. set (st := stepped _ _ _).
  assert (Hid : id (h_raft h) ≠ NoNode) by (rewrite (hi_id _ _ _ Hh); unfold NoNode; congruence).
  assert (Hgen : ∀ A (c : M (raft S) A),
    wp True c (λ _, st) (h_raft h) → ∀ a, onRaft c (h_node h) = Ret (a, n) →
    st (n_r n) ∧ pendingReady n = pendingReady (h_node h)).
  { intros A d Hw a Ha. eapply (wp_run _ (λ _ n', st (n_r n') ∧ pendingReady n' = _)); [|exact Ha].
    apply wp_zoom. eapply wp_mono; [exact Hw|]. by intros ? ? ?. }
  pose proof (hi_VI _ _ _ Hh) as Hv.
  destruct inp as [|m|data|ctx]; simpl in Hr; apply outcome_bind_Ret in Hr as ([a n'] & Hr & [= ->]);
    (eapply Hgen; [|exact Hr]); [by apply tick_stepped|..]; apply Step_stepped; auto; try done.
  intros _ _. apply andb_true_iff in Hd as [Hm Hto]. apply bool_decide_eq_true in Hm.
  apply wf_deliver; auto. by apply Z.eqb_eq.
Qed.

Lemma behind_evo Req (r r' : raft S) hs : evo Req r r' → behind hs r → behind hs r'.
Proof.
  intros He [Ht Hv]. pose proof (e_Term _ _ _ He). split; [lia|]. intros E Hn.
  rewrite (e_Vote _ _ _ He); [apply Hv; [lia|done]|lia|]. rewrite Hv; [done|lia|done].
Qed.

(** The ballots already known and the ballots of one input agree. *)
Lemma votes_evo net i (r r' : raft S) :
  evo (requested net) r r' → votes_of i (net ++ msgs r) →
  (∀ m t c, m ∈ net → ballot m = Some (i, t, c) → cast r t c) →
  Forall (good (requested net) r) (msgs r) → votes_of i (net ++ msgs r').
Proof.
  intros He Hv Hc Hg. destruct (e_msgs _ _ _ He) as (ms & -> & Hg' & Hf & H1).
  rewrite app_assoc. set (old := net ++ msgs r) in *.
  assert (Hold : ∀ m t c, m ∈ old → ballot m = Some (i, t, c) → cast r t c).
  { intros m t c [Hm|Hm]%elem_of_app E; [by eapply Hc|]. rewrite Forall_forall in Hg.
    by eapply (g_ballot _ _ _ (Hg m Hm)). }
  assert (Hx : ∀ m1 m2 t c1 c2, m1 ∈ old → m2 ∈ ms →
    ballot m1 = Some (i, t, c1) → ballot m2 = Some (i, t, c2) → c1 = c2).
  { intros m1 m2 t c1 c2 Hm1 Hm2 E1 E2. rewrite Forall_forall in Hf.
    destruct (Hold _ _ _ Hm1 E1) as (_ & Hn & Hcase). destruct (Hf m2 Hm2 _ _ _ E2) as [Hle Heq].
    destruct Hcase as [?|[-> HV]]; [lia|]. rewrite Heq; congruence. }
  intros m1 m2 t c1 c2 [?|?]%elem_of_app [?|?]%elem_of_app E1 E2.
  - by apply (Hv m1 m2 t).
  - by apply (Hx m1 m2 t).
  - symmetry. by apply (Hx m2 m1 t).
  - by apply (H1 m1 m2 i t).
Qed.

Lemma host_inv_input c i h inp n :
  inv c → 0 ∉ P → i ∈ P → host_inv (c_net c) i h → h_phase h = PIdle → Term (h_raft h) + 1 < u64_mod →
  deliverable (c_net c) i inp = true → runInput inp (h_node h) = Ret n →
  host_inv (c_net c) i (mkHost n PIdle (h_disks h)).
Proof.
  intros Hc Hz Hi Hh Hp Ht Hd Hr.
  destruct (runInput_stepped c i h inp n) as [[He Hv] _]; auto. destruct Hh.
  unfold phase_ok in hi_phase0. rewrite Hp in hi_phase0.
  constructor; simpl; auto; unfold h_storage, h_raft in *; simpl in *.
  - by rewrite (e_id _ _ _ He).
  - by rewrite (e_peers _ _ _ He).
  - destruct (e_msgs _ _ _ He) as (ms & -> & Hg & _). apply Forall_app. split; [|done].
    eapply Forall_impl; [done|]. intros m Hm. by eapply good_evo.
  - eapply votes_evo; eauto. intros m t c' Hm E. by destruct (hi_cast0 m t c' Hm E).
  - by rewrite (e_storage _ _ _ He).
  - intros s Hs. by eapply behind_evo; [|apply hi_behind0].
  - intros m t c' Hm E. destruct (hi_cast0 m t c' Hm E). split; [by eapply cast_evo|done].
  - unfold phase_ok. simpl. unfold h_raft. simpl. by rewrite (e_prev _ _ _ He).
Qed.

(** ** The driver *)

(** A write that leaves the core alone, in any phase. *)
Lemma host_inv_write net i h st ph :
  host_inv net i h → behind (v_hard (view st)) (h_raft h) →
  (∀ m t c, m ∈ net → ballot m = Some (i, t, c) → cast_hs (v_hard (view st)) t c) →
  phase_ok (putStorage st h ph) → host_inv net i (putStorage st h ph).
Proof.
  intros [] Hb Hc Hp. constructor; simpl; auto; unfold h_storage, h_raft in *; simpl in *.
  - by destruct hi_VI0.
  - eapply Forall_impl; [done|]. intros m []. by constructor.
  - set_solver.
  - intros s [?| ->%list_elem_of_singleton]%elem_of_app; [by apply hi_behind0|done].
  - intros m t c Hm E. destruct (hi_cast0 m t c Hm E) as [? Hd]. split; [done|].
    intros s [?| ->%list_elem_of_singleton]%elem_of_app; [by apply Hd|]. by eapply Hc.
Qed.

(** The same when the write keeps the hard state of the storage. *)
Lemma host_inv_write_log net i h st ph :
  host_inv net i h → v_hard (view st) = v_hard (view (h_storage h)) →
  phase_ok (putStorage st h ph) → host_inv net i (putStorage st h ph).
Proof.
  intros Hh E Hp. pose proof (hi_cur _ _ _ Hh) as Hcur. apply host_inv_write; auto; rewrite E.
  - by apply (hi_behind _ _ _ Hh).
  - intros m t c Hm Hb. by apply (hi_cast _ _ _ Hh m t c Hm Hb).
Qed.

(** More contents a crash may leave, under hard states it could leave already. *)
Lemma host_inv_disks net i h sts :
  host_inv net i h → (∀ st, st ∈ sts → ∃ s, s ∈ h_disks h ∧ v_hard (view st) = v_hard (view s)) →
  host_inv net i (addDisks sts h).
Proof.
  intros [] Hs.
  assert (Hall : ∀ Q : HardState → Prop, (∀ s, s ∈ h_disks h → Q (v_hard (view s))) → ∀ s, s ∈ h_disks h ++ sts → Q (v_hard (view s))).
  { intros Q HQ s [?|(s0 & ? & ->)%Hs]%elem_of_app; by apply HQ. }
  constructor; simpl; auto; unfold h_storage, h_raft in *; simpl in *.
  - set_solver.
  - apply (Hall (λ hs, behind hs (n_r (h_node h)))), hi_behind0.
  - intros m t c Hm E. destruct (hi_cast0 m t c Hm E) as [? Hd]. split; [done|]. by apply (Hall (λ hs, cast_hs hs t c)).
  - unfold phase_ok in *. simpl. destruct (h_phase h); destruct_and?; split_and?; try done;
      (intros s [?|(s0 & ? & ->)%Hs]%elem_of_app; by auto).
Qed.
Lemma torn_append es st st' : st' ∈ torn es st → ∃ k, (1 ≤ k < length es)%nat ∧ AppendEntries (take k es) st = Ret (st', None).
Proof.
  unfold torn. intros (k & Hk%elem_of_seq & E)%list_elem_of_omap. exists k. split; [lia|].
  by destruct (AppendEntries _ _) as [[? []]|]; try done; injection E as ->.
Qed.
Lemma unflushed_view st disks st' :
  st' ∈ unflushed st disks → ∃ s, s ∈ disks ∧ view st' = mkView (v_hard (view s)) (v_snap (view st)) (v_ents (view st)).
Proof.
  unfold unflushed. intros (s & Hs & E)%list_elem_of_omap. exists s. split; [done|]. rewrite law_hard in E.
  destruct (SetHardState _ _) as [[? []]|] eqn:Eh; try done. injection E as ->. by eapply law_set_hard_view.
Qed.
Lemma host_inv_snapshot net i h st ph : host_inv net i (putStorage st h ph) → host_inv net i (putSnapshot st h ph).
Proof.
  intros Hh. apply host_inv_disks; [done|]. intros st' (s & Hs & ->)%unflushed_view. exists s. split; [set_solver|done].
Qed.
Lemma host_inv_entries net i h es st ph :
  h_storage h ∈ h_disks h → host_inv net i (putStorage st h ph) → host_inv net i (putEntries es st h ph).
Proof.
  intros Hcur Hh. apply host_inv_disks; [done|]. intros st' (k & _ & Ha)%torn_append. exists (h_storage h).
  split; [set_solver|by eapply law_append_hard].
Qed.

Lemma host_inv_phase net i h ph :
  host_inv net i h → phase_ok (setPhase ph h) → host_inv net i (setPhase ph h).
Proof. intros [] Hp. by constructor. Qed.

Lemma ready_ok_of rd n n' :
  Node_Ready n = Ret (rd, n') → n_r n' = n_r n ∧ ready_ok rd n'.
Proof.
  unfold Node_Ready, ready_ok, ReadyOf. unfold mbind at 1, M_bind, reads.
  destruct (nextCommittedEnts (rlog (n_r n))); [|done]. cbn. intros [= <- <-]. cbn.
  split_and!; try done.
  - case_bool_decide; auto.
  - destruct (bool_decide_reflect (hardState (n_r n) = prevHardSt (n_r n))) as [Eq|_]; [by rewrite Eq|].
    intros [_ Hs]%orb_false_iff.
    apply orb_false_iff in Hs as [Ht Hv].
    apply negb_false_iff, Z.eqb_eq in Ht, Hv. unfold TV. simpl in *. congruence.
Qed.

Lemma behind_TV hs (r : raft S) : 0 ≤ Term r → TV hs = TV (hardState r) → behind hs r.
Proof. unfold TV, hardState, behind. simpl. intros ? [= -> ->]. split; [lia|done]. Qed.

Lemma cast_TV hs (r : raft S) t c : cast r t c → TV hs = TV (hardState r) → cast_hs hs t c.
Proof. unfold TV, hardState, cast_hs. simpl. intros (_ & _ & Hc) [= -> ->]. done. Qed.

(** [Advance] keeps the election state, the storage and clears the outbox. *)
Lemma Advance_spec rd n n' :
  ready_ok rd n → Advance n = Ret ((), n') →
  id (n_r n') = id (n_r n) ∧ peers (n_r n') = peers (n_r n) ∧ keep (n_r n) (n_r n') ∧
  storage (rlog (n_r n')) = storage (rlog (n_r n)) ∧ msgs (n_r n') = [] ∧
  TV (prevHardSt (n_r n')) = TV (hardState (n_r n)).
Proof.
  intros (Hp & _ & Hhs & _) Ha. unfold Advance in Ha.
  eapply (wp_run _ (λ _ n', id (n_r n') = id (n_r n) ∧ peers (n_r n') = peers (n_r n) ∧ keep (n_r n) (n_r n') ∧
    storage (rlog (n_r n')) = storage (rlog (n_r n)) ∧ msgs (n_r n') = [] ∧
    TV (prevHardSt (n_r n')) = TV (hardState (n_r n)))); [|exact Ha].
  apply wp_bind, wp_get. rewrite Hp. apply wp_bind, wp_zoom. clear Ha.
  enough (wp True (advanceRaft rd) (λ _ r', keep (n_r n) r' ∧ storage (rlog r') = storage (rlog (n_r n)) ∧
    msgs r' = [] ∧ TV (prevHardSt r') = TV (hardState (n_r n))) (n_r n)) as Hw.
  { eapply wp_mono; [exact Hw|]. intros [] r' (Hk & ?). apply wp_modify. simpl. destruct Hk. split_and!; try done; naive_solver. }
  unfold advanceRaft. apply wp_bind.
  assert (Hstep : ∀ (A : Type) (o : option A) (f : A → raftLog S → outcome (raftLog S)) (I : raft S → Prop) r,
    (∀ a l l', f a l = Ret l' → storage l' = storage l) →
    (∀ l r, I r → storage l = storage (rlog r) → I (set_rlog l r)) → I r →
    wp True match o with Some a => updLog (f a) | None => mret () end (λ _, I) r).
  { intros A o f I r Hf HI Hr. destruct o as [a|]; [|by apply wp_ret]. unfold wp, updLog.
    destruct (f a (rlog r)) as [l|] eqn:E; simpl; [|done]. apply HI; [done|]. by eapply Hf. }
  set (I := λ r', keep (n_r n) r' ∧ storage (rlog r') = storage (rlog (n_r n)) ∧
                  TV (prevHardSt r') = TV (hardState (n_r n))).
  assert (HI : ∀ l r, I r → storage l = storage (rlog r) → I (set_rlog l r)).
  { intros l r ([] & Hs & Htv) Hl. split_and!; [by constructor|simpl; congruence|done]. }
  eapply (wp_mono _ _ (λ _, I)).
  { destruct Hhs as [[-> Heq]| ->]; [apply wp_ret|apply wp_modify]; split_and!; try done. by rewrite Heq. }
  intros [] r1 H1. apply wp_bind. eapply wp_mono; [apply Hstep; [|done|exact H1]|].
  { intros e l l'. unfold stableTo. intros (u & _ & [= <-])%outcome_bind_Ret. done. }
  intros [] r2 H2. apply wp_bind. eapply wp_mono; [apply Hstep; [|done|exact H2]|].
  { by intros sn l l' [= <-]. }
  intros [] r3 H3. apply wp_bind. eapply wp_mono; [apply Hstep; [|done|exact H3]|].
  { intros e l l'. unfold appliedTo. repeat case_match; try done; by intros [= <-]. }
  intros [] r4 ([] & Hs4 & Htv4). wp_go. split_and!; done.
Qed.

(** The pieces of [drain] that send nothing. *)
Lemma drive_ready net i h h' ms :
  host_inv net i h → h_phase h = PIdle → drive h = Ret (Ok (h', ms)) → ms = [] ∧ host_inv net i h'.
Proof.
  intros Hh Hp Hd. pose proof (hi_phase _ _ _ Hh) as Hph. unfold phase_ok in Hph. unfold drive in Hd.
  rewrite Hp in Hd, Hph. apply outcome_bind_Ret in Hd as (b & _ & Hd). destruct b; [|by injection Hd as <- <-].
  apply outcome_bind_Ret in Hd as ([rd n] & Hr & [= <- <-]). split; [done|].
  apply ready_ok_of in Hr as [En Hr]. unfold h_raft in *. destruct Hh.
  constructor; unfold phase_ok, h_storage, h_raft in *; simpl; rewrite ?En; auto.
Qed.

(** The writes of a batch before its hard state. *)
Lemma host_inv_write_batch net i h st rd ph :
  host_inv net i h → h_phase h = PSnap rd ∨ h_phase h = PEnts rd → ph = PEnts rd ∨ ph = PHard rd →
  v_hard (view st) = v_hard (view (h_storage h)) → host_inv net i (putStorage st h ph).
Proof.
  intros Hh Hp Hq E. apply host_inv_write_log; [done..|]. pose proof (hi_cur _ _ _ Hh). destruct Hh. unfold phase_ok in *.
  destruct Hp as [Hp|Hp]; rewrite Hp in hi_phase0; destruct hi_phase0 as [Hr Hall];
    (destruct Hq as [->| ->]; (split; [done|]); intros s [?| ->%list_elem_of_singleton]%elem_of_app; rewrite ?E; by apply Hall).
Qed.
Lemma drive_snap net i h h' ms rd :
  host_inv net i h → h_phase h = PSnap rd → drive h = Ret (Ok (h', ms)) → ms = [] ∧ host_inv net i h'.
Proof.
  intros Hh Hp Hd. pose proof (hi_phase _ _ _ Hh) as Hph. pose proof (hi_cur _ _ _ Hh) as Hcur.
  unfold phase_ok in Hph. unfold drive in Hd. rewrite Hp in Hd, Hph. destruct Hph as [Hr Hall].
  destruct (rdSnapshot rd) as [sn|].
  - apply outcome_bind_Ret in Hd as ([st e] & Ha & Hd). apply law_install_hard in Ha.
    assert (host_inv net i (putSnapshot st h (PEnts rd))).
    { apply host_inv_snapshot. eapply host_inv_write_batch; [done|by left|by left|done]. }
    by destruct e as [[]|]; try done; injection Hd as <- <-.
  - injection Hd as <- <-. split; [done|]. by apply host_inv_phase.
Qed.

Lemma drive_ents net i h h' ms rd :
  host_inv net i h → h_phase h = PEnts rd → drive h = Ret (Ok (h', ms)) → ms = [] ∧ host_inv net i h'.
Proof.
  intros Hh Hp Hd. pose proof (hi_phase _ _ _ Hh) as Hph. pose proof (hi_cur _ _ _ Hh) as Hcur.
  unfold phase_ok in Hph. unfold drive in Hd. rewrite Hp in Hd, Hph. destruct Hph as [Hr Hall].
  destruct (_ <? _).
  - apply outcome_bind_Ret in Hd as ([st e] & Ha & Hd). apply law_append_hard in Ha.
    destruct e; [done|]. injection Hd as <- <-. split; [done|].
    apply host_inv_entries; [done|]. eapply host_inv_write_batch; [done|by right|by right|done].
  - injection Hd as <- <-. split; [done|]. by apply host_inv_phase.
Qed.

Lemma drive_hard net i h h' ms rd :
  host_inv net i h → h_phase h = PHard rd → drive h = Ret (Ok (h', ms)) → ms = [] ∧ host_inv net i h'.
Proof.
  intros Hh Hp Hd. pose proof (hi_phase _ _ _ Hh) as Hph. pose proof (hi_cur _ _ _ Hh) as Hcur.
  unfold phase_ok in Hph. unfold drive in Hd. rewrite Hp in Hd, Hph. destruct Hph as [Hr Hall].
  pose proof (vi_term _ _ (hi_VI _ _ _ Hh)) as H0'.
  destruct Hr as (Hpr & Hms & [[Eh Heq]|Eh] & Hsync); rewrite Eh in Hd.
  - injection Hd as <- <-. split; [done|]. apply host_inv_phase; [done|].
    split_and!; [split_and!; auto|..]; simpl.
    + etransitivity; [by apply Hall|]. unfold h_raft. simpl. by rewrite <-Heq.
    + intros s Hs. left. by apply Hall.
  - apply outcome_bind_Ret in Hd as ([st e] & Est & Hd). pose proof (law_set_hard_view _ _ _ _ Est) as Hst.
    destruct e; [done|]. injection Hd as <- <-. split; [done|].
    assert (Etv : TV (v_hard (view st)) = TV (hardState (h_raft h))) by by rewrite Hst.
    apply host_inv_write; [done|by apply behind_TV| |].
    + intros m t c Hm E. eapply cast_TV; [|done]. by apply (hi_cast _ _ _ Hh m t c Hm E).
    + split_and!; [split_and!; auto|done|].
      intros s [?| ->%list_elem_of_singleton]%elem_of_app; [left; by apply Hall|by right].
Qed.

Lemma drive_sync net i h h' ms rd :
  host_inv net i h → h_phase h = PSync rd → drive h = Ret (Ok (h', ms)) → ms = [] ∧ host_inv net i h'.
Proof.
  intros Hh Hp Hd. pose proof (hi_phase _ _ _ Hh) as Hph. pose proof (hi_cur _ _ _ Hh) as Hcur.
  unfold phase_ok in Hph. unfold drive in Hd. rewrite Hp in Hd, Hph. destruct Hph as (Hr & Htv & Hall).
  destruct (rdMustSync rd) eqn:Es; injection Hd as <- <-; (split; [done|]).
  - destruct Hh. constructor; simpl; auto; unfold h_storage, h_raft in *; simpl.
    + by apply list_elem_of_singleton.
    + intros s ->%list_elem_of_singleton. by apply hi_behind0.
    + intros m t c Hm E. destruct (hi_cast0 m t c Hm E) as [? Hd]. split; [done|].
      intros s ->%list_elem_of_singleton. by apply Hd.
    + split; [done|]. simpl. by intros s ->%list_elem_of_singleton.
  - apply host_inv_phase; [done|]. split; [done|]. simpl. intros s Hs.
    destruct Hr as (_ & _ & _ & Hns). destruct (Hall s Hs) as [->| ->]; [by apply Hns|done].
Qed.

Lemma drive_advance net i h h' ms rd :
  host_inv net i h → h_phase h = PAdvance rd → drive h = Ret (Ok (h', ms)) → ms = [] ∧ host_inv net i h'.
Proof.
  intros Hh Hp Hd. pose proof (hi_phase _ _ _ Hh) as Hph.
  unfold phase_ok in Hph. unfold drive in Hd. rewrite Hp in Hd, Hph. destruct Hph as (Hr & Hall).
  apply outcome_bind_Ret in Hd as ([[] n] & Ha & [= <- <-]). split; [done|].
  destruct (Advance_spec rd _ _ Hr Ha) as (Eid & Eps & Hk & Est & Ems & Etv).
  destruct Hh. constructor; simpl; unfold h_storage, h_raft in *; simpl; rewrite ?Eid, ?Eps, ?Ems, ?Est; auto.
  - by apply (keep_VI _ (n_r (h_node h))).
  - intros m1 m2 t c1 c2. rewrite app_nil_r. intros H1 H2.
    apply (hi_votes0 m1 m2 t c1 c2); apply elem_of_app; auto.
  - intros s Hs. destruct (hi_behind0 s Hs) as [Hb Hv], Hk. split; [by rewrite k_Term|].
    by rewrite k_Term, k_Vote.
  - intros m t c Hm E. destruct (hi_cast0 m t c Hm E) as [Hc Hd]. split; [|done].
    unfold cast in *. destruct Hk. by rewrite k_Term, k_Vote.
  - unfold phase_ok. simpl. unfold h_raft. simpl. rewrite Etv. exact Hall.
Qed.

(** Sending: every disk the host could crash to already holds the term and the
    vote the messages rest on. *)
Lemma drive_send net i h h' ms rd :
  i ∈ P → host_inv net i h → h_phase h = PSend rd → drive h = Ret (Ok (h', ms)) →
  (∀ m, m ∈ ms → mFrom m = i ∧ msg_inv (net ++ ms) m) ∧
  host_inv (net ++ ms) i h' ∧ votes_of i (net ++ ms).
Proof.
  intros Hi Hh Hp Hd. pose proof (hi_phase _ _ _ Hh) as Hph.
  unfold phase_ok in Hph. unfold drive in Hd. rewrite Hp in Hd, Hph. destruct Hph as (Hr & Hall).
  injection Hd as <- <-. pose proof (proj1 (proj2 Hr)) as ->. fold (h_raft h) in *.
  set (ms := msgs (h_raft h)). assert (Hsub : net ⊆ net ++ ms) by set_solver.
  pose proof (hi_msgs _ _ _ Hh) as Hg. rewrite Forall_forall in Hg. fold ms in Hg.
  destruct Hh. split_and!.
  - intros m Hm. destruct (Hg m Hm). split; [congruence|]. constructor; auto; [congruence|..].
    + intros v t c E. by destruct (g_ballot v t c E) as (? & ? & _).
    + intros. apply (requested_mono net); auto.
  - constructor; simpl; auto; unfold h_storage, h_raft in *; simpl.
    + by apply (VI_mono net).
    + eapply Forall_impl; [done|]. intros m. by apply good_mono.
    + intros m1 m2 t c1 c2 H1 H2. apply (hi_votes0 m1 m2 t c1 c2); set_solver.
    + intros m t c Hm E.
      assert (Hc : cast (n_r (h_node h)) t c).
      { apply elem_of_app in Hm as [Hm|Hm]; [by apply (hi_cast0 m t c)|]. by apply (g_ballot _ _ _ (Hg m Hm) i). }
      split; [done|]. intros s Hs. by eapply cast_TV; [|apply Hall].
    + by split.
  - done.
Qed.

Lemma inv_drive c i h h' ms :
  inv c → c_hosts c !! i = Some (Up h) → drive h = Ret (Ok (h', ms)) →
  inv (mkCluster (<[i := Up h']> (c_hosts c)) (c_net c ++ ms) (c_elected c)).
Proof.
  intros Hc Eh Hd. destruct (inv_hosts _ Hc i _ Eh) as [Hi Hh]. simpl in Hh.
  assert (Hno : ms = [] ∧ host_inv (c_net c) i h' →
    inv (mkCluster (<[i := Up h']> (c_hosts c)) (c_net c ++ ms) (c_elected c))).
  { intros [-> Hh']. rewrite app_nil_r. by apply inv_update_host. }
  destruct (h_phase h) as [|rd|rd|rd|rd|rd|rd] eqn:Ep.
  - by apply Hno, (drive_ready _ _ h).
  - by apply Hno, (drive_snap _ _ h _ _ rd).
  - by apply Hno, (drive_ents _ _ h _ _ rd).
  - by apply Hno, (drive_hard _ _ h _ _ rd).
  - by apply Hno, (drive_sync _ _ h _ _ rd).
  - destruct (drive_send (c_net c) i h h' ms rd) as (Hm & Hh' & Hv); try done.
    apply (inv_update c i (Up h') ms []); auto. by intros t a []%not_elem_of_nil.
  - by apply Hno, (drive_advance _ _ h _ _ rd).
Qed.

(** ** Restart *)

Lemma newLog_storage st (l : raftLog S) : newLog st = Ret (Ok l) → storage l = st.
Proof.
  unfold newLog. intros (f & _ & E)%outcome_bind_Ret. destruct f; [|done].
  apply outcome_bind_Ret in E as (la & _ & E). destruct la; [|done]. by injection E as <-.
Qed.

Lemma newRaft_spec c st (r : raft S) :
  newRaft c st = Ret (Ok r) →
  id r = cID c ∧ peers r ≡ₚ cPeers c ∧ Term r = hsTerm (v_hard (view st)) ∧
  Vote r = hsVote (v_hard (view st)) ∧ state r = StateFollower ∧ msgs r = [] ∧
  storage (rlog r) = st ∧ TV (prevHardSt r) = TV (v_hard (view st)).
Proof.
  unfold newRaft. intros (rl & Hl & E)%outcome_bind_Ret. destruct rl as [rl|]; [|done].
  rewrite law_hard in E. simpl in E. apply outcome_bind_Ret in E as (rl' & Hc & E).
  apply outcome_bind_Ret in E as ([[] r'] & Hb & [= ->]).
  assert (Hst : storage rl' = st).
  { apply newLog_storage in Hl. destruct (_ <? _); [|by injection Hc as <-].
    apply keeps_commitTo in Hc. congruence. }
  eapply wp_run in Hb; [|apply wp_becomeFollower]. destruct Hb as ([] & HT & HV & Hs & Hl').
  simpl in *. unfold vote_after in HV. simpl in HV. rewrite Z.eqb_refl in HV.
  split_and!; try done; try congruence.
  - rewrite f_peers. apply merge_sort_Permutation.
  - rewrite f_prev. done.
Qed.

Lemma inv_restart c i rnd st n :
  same_voters → inv c → c_hosts c !! i = Some (Down st) →
  NewNode (set_cRand (Some rnd) (conf i)) st = Ret (Ok n) →
  inv (mkCluster (<[i := Up (mkHost n PIdle [st])]> (c_hosts c)) (c_net c) (c_elected c)).
Proof.
  intros Hsv Hc Eh Hn. destruct (inv_hosts _ Hc i _ Eh) as [Hi (Hv & Ht & Hca)].
  destruct (Hsv i Hi) as (Hid & Hps & _).
  unfold NewNode in Hn. destruct (validate _); [done|]. apply outcome_bind_Ret in Hn as (r & Hr & Hn).
  destruct r as [r|]; [|done]. injection Hn as <-.
  apply newRaft_spec in Hr as (Eid & Eps & HT & HV & Hs & Hms & Hst & Htv). simpl in Eid, Eps.
  apply inv_update_host; [done..|]. constructor; simpl; unfold h_storage, h_raft; simpl; rewrite ?Hms, ?Hst.
  - congruence.
  - by rewrite Eps.
  - constructor; rewrite ?Hs; [lia|naive_solver..].
  - done.
  - by rewrite app_nil_r.
  - by apply list_elem_of_singleton.
  - intros s ->%list_elem_of_singleton. split; [lia|congruence].
  - intros m t cd Hm E. pose proof (Hca m t cd Hm E) as Hcast.
    destruct (mi_ballot _ _ (inv_msgs _ Hc m Hm) _ _ _ E). split.
    + split_and!; [done..|]. rewrite HT, HV. exact Hcast.
    + by intros s ->%list_elem_of_singleton.
  - intros s ->%list_elem_of_singleton. done.
Qed.

(** ** The invariant holds in every reachable cluster *)

Lemma same_voters_nonzero : same_voters → (0 ∉ P) ∧ NoDup P.
Proof.
  intros Hs. destruct P as [|i P'] eqn:E; [split; [by intros []%not_elem_of_nil|constructor]|].
  destruct (Hs i) as (_ & Hp & Hv); [rewrite E; by left|]. rewrite <-E in *.
  apply validate_ok in Hv as (_ & _ & _ & Hz & Hn & _). by rewrite <-Hp.
Qed.

Lemma inv_init c : initial c → inv c.
Proof.
  intros (En & Ee & Hh). constructor; rewrite ?En, ?Ee; try (by intros ? ?%not_elem_of_nil).
  - intros i st Hst. destruct (Hh i st Hst) as (Hi & s & -> & Es). split; [done|]. simpl. rewrite Es. split_and!.
    + by intros m1 m2 t c1 c2 ?%not_elem_of_nil.
    + done.
    + by intros m t c' ?%not_elem_of_nil.
  - by intros i m1 m2 t c1 c2 ?%not_elem_of_nil.
  - by intros t a ?%not_elem_of_nil.
Qed.

Lemma inv_input c i h inp n :
  same_voters → inv c → c_hosts c !! i = Some (Up h) → h_phase h = PIdle →
  Term (h_raft h) + 1 < u64_mod → deliverable (c_net c) i inp = true → runInput inp (h_node h) = Ret n →
  inv (mkCluster (<[i := Up (mkHost n PIdle (h_disks h))]> (c_hosts c)) (c_net c) (elected_by i n ++ c_elected c)).
Proof.
  intros Hsv Hc Eh Hp Ht Hd Hr. destruct (same_voters_nonzero Hsv) as [Hz _].
  destruct (inv_hosts _ Hc i _ Eh) as [Hi Hh]. simpl in Hh.
  pose proof (host_inv_input c i h inp n Hc Hz Hi Hh Hp Ht Hd Hr) as Hh'.
  rewrite <-(app_nil_r (c_net c)). apply inv_update; rewrite ?app_nil_r; auto.
  - by intros m ?%not_elem_of_nil.
  - apply Hc.
  - intros t a. unfold elected_by. case_decide as Hl; [|by intros ?%not_elem_of_nil].
    intros [= -> ->]%list_elem_of_singleton. destruct Hh'. unfold h_raft in *. simpl in *.
    split; [done|]. destruct (vi_lead _ _ hi_VI0 Hl) as (Q & HQ & Hg). exists Q.
    unfold quorum, zlen in HQ. rewrite hi_peers0, hi_id0 in *. done.
Qed.

Lemma inv_maint c i st' st :
  inv c → c_hosts c !! i = Some st →
  match st with
  | Up h => v_hard (view st') = v_hard (view (h_storage h)) →
            inv (mkCluster (<[i := Up (putSnapshot st' h (h_phase h))]> (c_hosts c)) (c_net c) (c_elected c))
  | Down s => v_hard (view st') = v_hard (view s) →
            inv (mkCluster (<[i := Down st']> (c_hosts c)) (c_net c) (c_elected c))
  end.
Proof.
  intros Hc Eh. destruct (inv_hosts _ Hc i _ Eh) as [Hi Hh]. destruct st as [h|s]; simpl in Hh; intros E.
  - apply inv_update_host; [done..|]. apply host_inv_snapshot, host_inv_write_log; [done..|].
    destruct Hh. unfold phase_ok in *. simpl. destruct (h_phase h); destruct_and?; (split_and?; try done);
      try (intros s [?| ->%list_elem_of_singleton]%elem_of_app; rewrite ?E; by auto).
    unfold h_storage. simpl. by rewrite E.
  - apply inv_update_host; [done..|]. simpl. by rewrite E.
Qed.

Lemma inv_exec a c c' : same_voters → inv c → exec a c = Some c' → inv c'.
Proof.
  intros Hsv Hc. destruct a as [i inp|i|i k|i rnd|i st']; simpl;
    destruct (c_hosts c !! i) as [[h|st]|] eqn:Eh; try done.
  - destruct (h_phase h) eqn:Ep; try done. destruct (_ && _) eqn:Eg; [|done].
    apply andb_true_iff in Eg as [Et Ed]. apply Z.ltb_lt in Et.
    destruct (runInput inp (h_node h)) as [n|] eqn:Er; [|done]. intros [= <-]. by eapply inv_input.
  - destruct (drive h) as [[[h' ms]|]|] eqn:Ed; try done. intros [= <-]. by eapply inv_drive.
  - destruct (h_disks h !! k) as [s|] eqn:Ek; [|done]. intros [= <-].
    destruct (inv_hosts _ Hc i _ Eh) as [Hi Hh]. apply inv_update_host; [done..|].
    apply list_elem_of_lookup_2 in Ek. destruct Hh. split_and!.
    + apply Hc.
    + by destruct (hi_behind0 s Ek) as [[? _] _].
    + intros m t cd Hm E. by apply (hi_cast0 m t cd Hm E).
  - destruct (NewNode _ st) as [[n|]|] eqn:En; try done. intros [= <-]. by eapply inv_restart.
  - case_decide; [|done]. intros [= <-]. by apply (inv_maint c i st' (Up h)).
  - case_decide; [|done]. intros [= <-]. by apply (inv_maint c i st' (Down st)).
Qed.

Lemma inv_reachable c0 c : same_voters → reachable c0 c → inv c.
Proof. intros Hsv. induction 1; [by apply inv_init|by eapply inv_exec]. Qed.

(** ** Election safety *)

(** A ballot for somebody else answers a vote request. *)
Lemma granted_requested c t a v : inv c → granted (c_net c) a t v → v ≠ a → granted (c_net c) a t a.
Proof.
  intros Hc (m & Hm & Hb) Hne.
  assert (Hr : mType m = MsgVoteResp ∧ mReject m = false ∧ mTo m = a ∧ mTerm m = t).
  { unfold ballot in Hb. destruct (mType m) eqn:E; try done; [congruence|].
    destruct (mReject m); [done|]. by injection Hb as <- <- <-. }
  destruct Hr as (Ht & Hrj & <- & <-).
  destruct (mi_req _ _ (inv_msgs _ Hc m Hm) Ht Hrj) as (m' & Hm' & Hty & Hf & HT).
  exists m'. split; [done|]. unfold ballot. by rewrite Hty, Hf, HT.
Qed.

(** In a cluster of two or more, the elected node's own ballot was sent. *)
Lemma was_elected_self c t a b :
  inv c → was_elected (c_net c) t a → NoDup P → b ∈ P → b ≠ a → granted (c_net c) a t a.
Proof.
  intros Hc (Ha & Q & HQ & Hg) Hn Hb Hne.
  destruct (decide (Q ⊆ {[a]})) as [Hs|Hs].
  - exfalso. apply subseteq_size in Hs. rewrite size_singleton in Hs.
    assert ((size ({[a; b]} : gset Z) ≤ length P)%nat).
    { rewrite <-(size_list_to_set (C := gset Z) P) by done. apply subseteq_size. set_solver. }
    rewrite size_union, !size_singleton in * by set_solver.
    pose proof (Z.mod_pos_bound (zlen P) 2 ltac:(lia)). pose proof (Z.div_mod (zlen P) 2 ltac:(lia)).
    unfold zlen in *. lia.
  - assert (∃ w, w ∈ Q ∧ w ≠ a) as (w & Hw & Hwa).
    { destruct (decide (Q ∖ {[a]} ≡ ∅)) as [E|E].
      { destruct Hs. intros x Hx. destruct (decide (x = a)); set_solver. }
      apply set_choose in E as [w Hw]. exists w. set_solver. }
    destruct (Hg w Hw) as [?|Hgr]; [done|]. by eapply granted_requested.
Qed.

Lemma granted_unique c t a b v :
  inv c → granted (c_net c) a t v → granted (c_net c) b t v → a = b.
Proof. intros Hc (m & Hm & E) (m' & Hm' & E'). by apply (inv_votes _ Hc v m m' t). Qed.

Lemma elected_unique c t a b :
  NoDup P → inv c → was_elected (c_net c) t a → was_elected (c_net c) t b → a = b.
Proof.
  intros Hn Hc Hea Heb. destruct (decide (a = b)) as [|Hne]; [done|]. exfalso.
  assert (Hin : ∀ x w, x ∈ P → w = x ∨ granted (c_net c) x t w → w ∈ P).
  { intros x w Hx [->|(m & Hm & [-> _]%ballot_from)]; [done|]. apply (inv_msgs _ Hc m Hm). }
  pose proof Hea as (Ha & Q1 & HQ1 & Hg1). pose proof Heb as (Hb & Q2 & HQ2 & Hg2).
  destruct (quorum_intersect P Q1 Q2) as (v & H1 & H2); eauto.
  assert (Hva : granted (c_net c) a t v).
  { destruct (Hg1 v H1) as [->|]; [|done]. by apply (was_elected_self c t a b). }
  assert (Hvb : granted (c_net c) b t v).
  { destruct (Hg2 v H2) as [->|]; [|done]. apply (was_elected_self c t b a); auto. }
  by apply Hne, (granted_unique c t a b v).
Qed.

(** ** Properties *)

(** C3: at most one node is ever elected in a term: over any execution with
    ticks, deliveries of lost, duplicated, delayed or reordered messages,
    client requests, crashes at any point of the driver's loop (losing what was
    not synced, batches of entries torn included) and restarts, two nodes that were leader in the same term are
    the same node. *)
Theorem election_safety c0 c t a b :
  same_voters → reachable c0 c → (t, a) ∈ c_elected c → (t, b) ∈ c_elected c → a = b.
Proof.
  intros Hs Hr Ha Hb. pose proof (inv_reachable c0 c Hs Hr) as Hi.
  apply (elected_unique c t); [by apply same_voters_nonzero|done|by apply inv_elected..].
Qed.

(** A node votes at most once per term, crashes included: all ballots of
    one voter and term that were ever put on the wire name one candidate. *)
Theorem one_vote_per_term c0 c v t a b :
  same_voters → reachable c0 c → granted (c_net c) a t v → granted (c_net c) b t v → a = b.
Proof. intros Hs Hr. by apply granted_unique, (inv_reachable c0). Qed.

(** Persist before send: when a ballot is on the wire, every content the
    voter's storage could be recovered with after a crash already remembers it
    (a later term, or that vote). *)
Theorem sent_ballot_is_durable c0 c v t a h s :
  same_voters → reachable c0 c → granted (c_net c) a t v →
  c_hosts c !! v = Some (Up h) → s ∈ h_disks h → cast_hs (v_hard (view s)) t a.
Proof.
  intros Hs Hr (m & Hm & Hb) Hh Hd. pose proof (inv_reachable c0 c Hs Hr) as Hi.
  destruct (inv_hosts _ Hi v _ Hh) as [_ Hv]. by apply (hi_cast _ _ _ Hv m t a Hm Hb).
Qed.

End cluster.

(** ** A concrete election: three nodes, node 1 wins term 1 with node 2's vote *)

Definition conf3 (i : Z) : Config := mkConfig i [1; 2; 3] 10 1 0 true (Some (mkRand (λ _, 3) 0)).
Definition init3 : Cluster mem.Storage :=
  mkCluster (list_to_map [(1, Down mem.New); (2, Down mem.New); (3, Down mem.New)]) [] [].
Definition moves (l : list (action mem.Storage)) : list (action mem.Storage + Z * nat) := map inl l.
Definition drain14 (i : Z) := moves (replicate 14 (ActDrive i)).
Definition schedule3 : list (action mem.Storage + Z * nat) :=
  moves (map (λ i, ActRestart i (mkRand (λ _, 3) 0)) [1; 2; 3]) ++
  moves (replicate 13 (ActInput 1 InTick)) ++ drain14 1 ++
  [inr (2, 0%nat)] ++ drain14 2 ++ [inr (1, 2%nat)] ++ drain14 1 ++
  [inr (2, 3%nat)] ++ drain14 2 ++ [inr (1, 5%nat)] ++ drain14 1.
Definition final3 : Cluster mem.Storage := default init3 (play conf3 schedule3 init3).

Lemma same_voters3 : same_voters conf3 [1; 2; 3].
Proof.
  intros i Hi. rewrite !elem_of_cons in Hi.
  destruct Hi as [->|[->|[->|[]%not_elem_of_nil]]]; by split_and!.
Qed.
Lemma initial3 : initial [1; 2; 3] init3.
Proof.
  split_and!; [done..|]. intros i st. unfold init3. cbn [c_hosts].
  intros Hi%elem_of_list_to_map_2. rewrite !elem_of_cons in Hi. rewrite !elem_of_cons.
  destruct Hi as [[= -> ->]|[[= -> ->]|[[= -> ->]|[]%not_elem_of_nil]]]; (split; [auto|]); by exists mem.New.
Qed.
Lemma play3 : play conf3 schedule3 init3 = Some final3.
Proof. by vm_compute. Qed.
Lemma reachable3 : reachable conf3 [1; 2; 3] init3 final3.
Proof. exact (reachable_play _ _ _ _ _ _ (reach_init _ _ _ initial3) play3). Qed.

Lemma election_safety_witness :
  c_elected final3 = [(1, 1)] ∧ ((1, 1) ∈ c_elected final3 → 1 = 1).
Proof.
  split; [by vm_compute|]. intros Hin.
  exact (election_safety conf3 [1; 2; 3] init3 final3 1 1 1 same_voters3 reachable3 Hin Hin).
Defined.
Lemma granted3 : granted (c_net final3) 1 1 2.
Proof.
  assert (E : ballot <$> c_net final3 !! 5%nat = Some (Some (2, 1, 1))) by by vm_compute.
  apply fmap_Some in E as (m & Em & Eb). exists m. split; [exact (list_elem_of_lookup_2 _ _ _ Em)|by symmetry].
Qed.
Lemma one_vote_per_term_witness : granted (c_net final3) 1 1 2 ∧ 1 = 1.
Proof.
  split; [exact granted3|].
  exact (one_vote_per_term conf3 [1; 2; 3] init3 final3 2 1 1 1 same_voters3 reachable3 granted3 granted3).
Defined.
