(* ===== verification/LogInv.v ===== *)
(** * The invariant behind state machine safety

    What the cluster of [Cluster] keeps about logs, relative to a [ghost] (see
    [LogTree]): every log a host has, in memory or on a disk it may crash to,
    is the end of a [grown] log that is [faithful] to what the host
    acknowledged; every commit index is [secure]; every message on the wire
    says something true of the ghost.  The file ends with how the parts of the
    invariant survive steps of other hosts. *)

From S2P Require Import Prelude RaftTypes Storage RaftLog ReadOnly Raft Node LogSpec RaftSpec Persist Quiet.
From S2P Require Import LogSafety Election Replication Batch LogTree Cluster.

Section loginv.
Context {S : Type} `{LogStorageLaws S} (P : list Z).
Implicit Types r : raft S.
Implicit Types F : list Entry.

(** The log a storage presents. *)
Definition vlog (st : S) : alog := mkALog (v_off (view st)) (snTerm (v_snap (view st))) (v_ents (view st)).
Lemma stores_vlog st a : stores st a ↔ vlog st = a.
Proof.
  unfold stores, vlog. split; [|by intros <-]. intros (E1 & E2 & E3). destruct a. simpl in *. congruence.
Qed.

(** ** Logs *)

Record log_ok (g : ghost) (v : Z) (a : alog) F : Prop := mkLogOk {
  lo_rep : rep a F;
  lo_grown : grown g F;
  lo_faithful : faithful g v F;
  lo_base : ∃ T, secure P g T (a_base a) F;
  lo_floor : floor g v ≤ a_base a
}.
(** A commit index in term [T] over a snapshot at [b]: at most [b], or certified
    in a term of at most [T]. *)
Definition commit_ok (g : ghost) (T b : Z) F (c : Z) : Prop := c ≤ b ∨ secure P g T c F.

Lemma commit_secure g v T a b F c : log_ok g v a F → b ≤ a_base a → commit_ok g T b F c → ∃ T', secure P g T' c F.
Proof. intros [] Hb [Hc|Hc]; [|by exists T]. destruct lo_base0 as [T' Hs]. exists T'. eapply secure_le; [|exact Hs]. lia. Qed.

(** ** Messages *)

(** What every message satisfies on its own. *)
Record sane (m : Message) : Prop := mkSane {
  sn_request : request_ok m;
  sn_resp : resp_ok m;
  sn_termed : termed (mType m) → 1 ≤ mTerm m;
  sn_other : leader_type (mType m) ∨ reply_type (mType m) → mTo m ≠ mFrom m
}.

(** A granted ballot: the candidate's log reaches all the voter had made durable
    of earlier terms and no later leader had lost. *)
Definition vote_ok (g : ghost) (net : list Message) (m : Message) : Prop :=
  ∃ m0, m0 ∈ net ∧ mType m0 = MsgVote ∧ mFrom m0 = mTo m ∧ mTerm m0 = mTerm m ∧
    ∀ t c, t < mTerm m → wit g (mFrom m) t c → start g t < c → reaches (mLogIndex m0) (mLogTerm m0) t c ∨ lost g t c.

Definition told (g : ghost) (net : list Message) (m : Message) : Prop :=
  let t := mTerm m in
  match mType m with
  | MsgAppend =>
      t ∈ terms g ∧
      (carried g t (mLogIndex m) (mLogTerm m) (mEntries m) ∧ secure P g t (mCommit m) (logs g t) ∨
       mLogTerm m = 0 ∧ mEntries m = [] ∧ 0 < mLogIndex m ≤ floor g (mTo m))
  | MsgHeartbeat => t ∈ terms g ∧ (mCommit m ≤ 0 ∨ wit g (mTo m) t (mCommit m) ∧ secure P g t (mCommit m) (logs g t))
  | MsgInstallSnapshot =>
      t ∈ terms g ∧ ∃ sn, mSnapshot m = Some sn ∧ 1 ≤ snIndex sn ≤ zlen (logs g t) ∧
        snTerm sn = tm (logs g t) (snIndex sn) ∧ secure P g t (snIndex sn) (logs g t)
  | MsgVoteResp => mReject m = false → vote_ok g net m
  | _ => True
  end.

(** The index a message acknowledges. *)
Definition claims (m : Message) : option Z :=
  match mType m with
  | MsgAppendResp => if mReject m then None else Some (mLogIndex m)
  | MsgInstallSnapshotResp => Some (mLogIndex m)
  | _ => None
  end.
Definition acked (g : ghost) (m : Message) : Prop :=
  ∀ i, claims m = Some i → i ≤ 0 ∨
    mTerm m ∈ terms g ∧ wit g (mFrom m) (mTerm m) i ∧ (i ≤ zlen (logs g (mTerm m)) ∨ i ≤ floor g (mFrom m)).
Definition sent_inv (g : ghost) (net : list Message) (m : Message) : Prop := sane m ∧ told g net m ∧ acked g m.

(** A message in the outbox of a node: what it acknowledges the node's log holds,
    though perhaps not yet its disk. *)
Definition acking (g : ghost) r F (m : Message) : Prop :=
  ∀ i, claims m = Some i → i ≤ 0 ∨
    mTerm m = Term r ∧ mTerm m ∈ terms g ∧ (∀ c, c ≤ i → holds g F (Term r) c ∨ lost g (Term r) c) ∧
    (i ≤ zlen (logs g (Term r)) ∨ i ≤ floor g (id r)).
Record queued (g : ghost) (net : list Message) r F (m : Message) : Prop := mkQueued {
  qu_sane : sane m;
  qu_told : told g net m;
  qu_acking : acking g r F m;
  qu_from : mFrom m = id r;
  qu_ballot : ∀ v t c, ballot m = Some (v, t, c) → t = Term r
}.

(** ** Roles *)

Definition voted (net : list Message) (v t : Z) : Prop := ∃ c, granted net c t v.
(** No election of [v] in term [t] can succeed: a majority voted otherwise. *)
Definition doomed (net : list Message) (v t : Z) : Prop :=
  ∃ Q, majority P Q ∧ ∀ w, w ∈ Q → w ≠ v ∧ ¬ granted net v t w ∧ ∃ s c, t ≤ s ∧ (s, c) ≠ (t, v) ∧ granted net c s w.

Record cand_ok (g : ghost) (net : list Message) (el : list (Z * Z)) r F : Prop := mkCandOk {
  cd_new : (Term r, id r) ∉ el;
  cd_votes : ∀ m, m ∈ net ++ msgs r → mType m = MsgVote → mFrom m = id r → mTerm m = Term r →
    mLogIndex m = zlen F ∧ mLogTerm m = tm F (zlen F);
  cd_commit : commit_ok g (Term r - 1) (floor g (id r)) F (committed (rlog r));
  cd_fit : (∀ i, tm F i < Term r) ∧ secure P g (Term r - 1) (a_base (absLog (rlog r))) F ∨ doomed net (id r) (Term r)
}.
Record lead_ok (g : ghost) (el : list (Z * Z)) r F : Prop := mkLeadOk {
  ll_elected : (Term r, id r) ∈ el;
  ll_log : F = logs g (Term r);
  ll_base : secure P g (Term r) (a_base (absLog (rlog r))) F;
  ll_prs : ∀ p pr, p ≠ id r → prs r !! p = Some pr →
    (Match pr ≤ 0 ∨ wit g p (Term r) (Match pr)) ∧ (Next pr - 1 ≤ zlen F ∨ Next pr - 1 ≤ floor g p)
}.

(** ** Hosts *)

Record node_ok (g : ghost) (net : list Message) (el : list (Z * Z)) r F : Prop := mkNodeOk {
  no_log : log_ok g (id r) (absLog (rlog r)) F;
  no_commit : commit_ok g (Term r) (floor g (id r)) F (committed (rlog r));
  no_wit : ∀ t c, wit g (id r) t c → t ≤ Term r;
  no_cand : state r = StateCandidate → cand_ok g net el r F;
  no_lead : state r = StateLeader → lead_ok g el r F;
  no_msgs : Forall (queued g net r F) (msgs r)
}.
Record disk_ok (g : ghost) (v : Z) (st : S) F : Prop := mkDiskOk {
  dk_wf : view_wf (view st);
  dk_log : log_ok g v (vlog st) F;
  dk_commit : commit_ok g (hsTerm (v_hard (view st))) (a_base (vlog st)) F (hsCommit (v_hard (view st)));
  dk_wit : ∀ t c, wit g v t c → t ≤ hsTerm (v_hard (view st))
}.

(** How far the driver has come with the batch of the core. *)
Definition batch_ok (h : host S) : Prop :=
  let r := h_raft h in
  let l := rlog r in
  let pending rd := rd = batch r ∧ pendingReady (h_node h) = Some rd in
  (∀ sn, u_snapshot (unst l) = Some sn → u_entries (unst l) = []) ∧
  match h_phase h with
  | PIdle => pendingReady (h_node h) = None ∧ persistable l
  | PSnap rd => pending rd ∧ persistable l
  | PEnts rd => pending rd ∧ based l
  | PHard rd | PSync rd | PSend rd | PAdvance rd => pending rd ∧ stores (storage l) (absLog l)
  end.
(** The entries to write start behind the commit index on disk, at the end of the
    log there or where they contradict it. *)
Definition apart (l : raftLog S) : Prop :=
  ∀ e es, u_entries (unst l) = e :: es →
    hsCommit (v_hard (view (storage l))) < eIndex e ∧
    (a_last (vlog (storage l)) < eIndex e ∨ a_term (vlog (storage l)) (eIndex e) ≠ eTerm e).
(** All of the log is on every disk. *)
Definition held (h : host S) : Prop :=
  settled (rlog (h_raft h)) ∨ match h_phase h with PSend _ | PAdvance _ => True | _ => False end.
Record host_ok (g : ghost) (net : list Message) (el : list (Z * Z)) (h : host S) : Prop := mkHostOk {
  ho_wf : core_wf (h_raft h);
  ho_node : ∃ F, node_ok g net el (h_raft h) F ∧ (held h → ∀ s, s ∈ h_disks h → disk_ok g (id (h_raft h)) s F);
  ho_disks : ∀ s, s ∈ h_disks h → (∃ F, disk_ok g (id (h_raft h)) s F) ∧
    hsCommit (v_hard (view s)) ≤ committed (rlog (h_raft h));
  ho_bases : ∀ s, s ∈ h_disks h → a_base (vlog s) ≤ a_base (vlog (h_storage h));
  ho_apart : match h_phase h with PIdle | PSnap _ | PEnts _ => apart (rlog (h_raft h)) | _ => True end;
  ho_batch : batch_ok h
}.
Definition status_ok (g : ghost) (net : list Message) (el : list (Z * Z)) (i : Z) (st : status S) : Prop :=
  match st with
  | Up h => host_ok g net el h
  | Down s => ∃ F, disk_ok g i s F
  end.

(** The entry is below a certified one. *)
Definition decided (g : ghost) (e : Entry) : Prop :=
  ∃ t i, certified P g t i ∧ eIndex e ≤ i ∧ get (logs g t) (eIndex e) = Some e.

(** [A] holds the entries handed out to apply, with the node they went to. *)
Record safe (c : Cluster S) (A : list (Z * Entry)) (g : ghost) : Prop := mkSafe {
  sf_inv : inv P c;
  sf_tree : tree g;
  sf_elections : elections P (voted (c_net c)) g;
  sf_terms : ∀ t, t ∈ terms g ↔ ∃ a, (t, a) ∈ c_elected c;
  sf_wit : ∀ v t k, wit g v t k → k ≤ zlen (logs g t) ∨ lost g t k;
  sf_hosts : ∀ i st, c_hosts c !! i = Some st → status_ok g (c_net c) (c_elected c) i st;
  sf_msgs : ∀ m, m ∈ c_net c → sent_inv g (c_net c) m;
  sf_applied : ∀ i e, (i, e) ∈ A → decided g e
}.

(** ** A step of host [v], in term [T] when it ends *)

Record step_by (v T : Z) (g g' : ghost) (net ms : list Message) (el el' : list (Z * Z)) : Prop := mkStepBy {
  sb_tree : tree g;
  sb_tree' : tree g';
  sb_gext : gext g g';
  sb_wit : ∀ w t c, wit g' w t c → wit g w t c ∨ w = v ∧ t = T;
  sb_floor : ∀ w, w ≠ v → floor g' w = floor g w;
  sb_terms : ∀ t a, (t, a) ∈ el → t ∈ terms g;
  sb_logs : ∀ t, t ∈ terms g → logs g' t = logs g t ∨ (t, v) ∈ el;
  sb_cast : ∀ c s, granted net c s v → s ≤ T;
  sb_sent : ∀ m, m ∈ ms → mFrom m = v ∧ ∀ w t c, ballot m = Some (w, t, c) → t = T ∧ ∀ c', granted net c' T v → c' = c;
  sb_el : ∃ new, el' = new ++ el ∧ ∀ t a, (t, a) ∈ new → a = v
}.

Section other.
Context (v T : Z) (g g' : ghost) (net ms : list Message) (el el' : list (Z * Z)).
Context (Hsb : step_by v T g g' net ms el el').
#[local] Abbreviation net' := (net ++ ms).

Lemma log_ok_ext i a F :
  (∀ t c, wit g' i t c → wit g i t c ∨ holds g' F t c ∨ lost g' t c) → floor g' i ≤ a_base a → log_ok g i a F → log_ok g' i a F.
Proof.
  destruct Hsb. intros Hw Hfl []. split; try done.
  - by apply (grown_ext g).
  - intros t c [Hwit|?]%Hw; [|done]. pose proof (tr_wit _ sb_tree0 _ _ _ Hwit).
    destruct (lo_faithful0 t c Hwit); [left; by apply (holds_ext g)|right; by apply (lost_ext g)].
  - destruct lo_base0 as [T' Hb]. exists T'. by apply (secure_ext g).
Qed.
Lemma commit_ok_ext T' b b' F c : b ≤ b' → commit_ok g T' b F c → commit_ok g' T' b' F c.
Proof. destruct Hsb. intros Hb [?|?]; [left; lia|right; by apply (secure_ext g)]. Qed.
Lemma floor_ext i : floor g i ≤ floor g' i.
Proof. apply (gx_floor _ _ (sb_gext _ _ _ _ _ _ _ _ Hsb)). Qed.

Lemma granted_new c t w : granted net' c t w → granted net c t w ∨ w = v ∧ t = T ∧ ∀ c', granted net c' T v → c' = c.
Proof.
  intros (m & Hm & Hb). apply elem_of_app in Hm as [Hm|Hm]; [left; by exists m|right].
  destruct (sb_sent _ _ _ _ _ _ _ _ Hsb m Hm) as [Hf Hn]. pose proof (ballot_from _ _ _ _ Hb) as [-> _].
  destruct (Hn _ _ _ Hb) as [-> ?]. done.
Qed.
Lemma doomed_ext i t : doomed net i t → doomed net' i t.
Proof.
  intros (Q & HQ & Hd). exists Q. split; [done|]. intros w Hw. destruct (Hd w Hw) as (Hwi & Hng & s & c & Hs & Hsc & Hg).
  split_and!; [done| |].
  - intros [?|(-> & -> & Hu)]%granted_new; [done|]. pose proof (sb_cast _ _ _ _ _ _ _ _ Hsb c s Hg).
    assert (s = T) as -> by lia. apply Hu in Hg as ->. done.
  - exists s, c. split_and!; try done. apply (granted_mono net); [set_solver|done].
Qed.
Lemma vote_ok_ext m : (mFrom m = v → mTerm m ≤ T) → vote_ok g net m → vote_ok g' net' m.
Proof.
  destruct Hsb. intros Hm (m0 & Hin & Hty & Hf & Ht & Hr). exists m0. split_and!; [set_solver|done..|].
  intros t c Htm Hwit Hs. apply sb_wit0 in Hwit as [Hwit|[Hv ->]]; [|specialize (Hm Hv); lia].
  pose proof (tr_wit _ sb_tree0 _ _ _ Hwit) as Hin'. rewrite (gx_start _ _ sb_gext0 t Hin') in Hs.
  destruct (Hr t c Htm Hwit Hs); [by left|right; by apply (lost_ext g)].
Qed.
(** A secure prefix of a leader's log, later. *)
Lemma secure_logs_ext t c : t ∈ terms g → secure P g t c (logs g t) → secure P g' t c (logs g' t).
Proof.
  destruct Hsb. intros Ht Hs. pose proof (secure_ext g g' sb_tree0 sb_gext0 P t c _ Hs) as Hs'. eapply secure_agree; [|exact Hs'].
  destruct Hs as [Hc|(t0 & i & _ & Hce & Hi & Ha)]; [by apply agree_none|]. apply (logs_ext g g' sb_gext0); [done|].
  apply (agree_zlen _ _ _ Ha). destruct Hce as (_ & ? & _). lia.
Qed.
Lemma told_ext m : (mFrom m = v → mType m = MsgVoteResp → mReject m = false → mTerm m ≤ T) → told g net m → told g' net' m.
Proof.
  intros Hm. pose proof Hsb as []. unfold told. destruct (mType m); try done.
  - intros Hv Hrj. apply vote_ok_ext; auto.
  - intros [Ht Hc]. split; [by apply (terms_ext g)|]. destruct Hc as [[Hc Hs]|(? & ? & ?)].
    + left. split; [by apply (carried_ext g)|by apply secure_logs_ext].
    + right. split_and!; try done; [lia|]. pose proof (gx_floor _ _ sb_gext0 (mTo m)). lia.
  - intros [Ht Hc]. split; [by apply (terms_ext g)|]. destruct Hc as [?|[Hw Hs]]; [by left|right].
    split; [by apply (gx_wit _ _ sb_gext0)|by apply secure_logs_ext].
  - intros (Ht & sn & Esn & Hi & Et & Hs). split; [by apply (terms_ext g)|]. exists sn.
    destruct (logs_ext g g' sb_gext0 (mTerm m) (snIndex sn) Ht) as [Ha Hz]; [lia|].
    split_and!; try done; [lia| |by apply secure_logs_ext]. rewrite Et. symmetry. by apply (agree_tm _ _ _ _ Ha).
Qed.
Lemma acked_ext m : acked g m → acked g' m.
Proof.
  destruct Hsb. intros Ha i Hi. destruct (Ha i Hi) as [?|(Ht & Hw & Hb)]; [by left|right].
  split_and!; [by apply (terms_ext g)|by apply (gx_wit _ _ sb_gext0)|].
  destruct Hb; [left|right].
  - by apply (logs_ext g g' sb_gext0).
  - pose proof (gx_floor _ _ sb_gext0 (mFrom m)). lia.
Qed.
Lemma acking_ext r F m : acking g r F m → acking g' r F m.
Proof.
  destruct Hsb. intros Ha i Hi. destruct (Ha i Hi) as [?|(Et & Ht & Hh & Hb)]; [by left|right]. rewrite Et in *.
  split_and!; [done|by apply (terms_ext g)|..].
  - intros c Hc. destruct (Hh c Hc); [left; by apply (holds_ext g)|right; by apply (lost_ext g)].
  - destruct Hb; [left; by apply (logs_ext g g' sb_gext0)|right]. pose proof (gx_floor _ _ sb_gext0 (id r)). lia.
Qed.
Lemma queued_ext r F m :
  (mFrom m = v → mType m = MsgVoteResp → mReject m = false → mTerm m ≤ T) → queued g net r F m → queued g' net' r F m.
Proof. intros Hm []. split; try done; [by apply told_ext|by apply acking_ext]. Qed.
Lemma sent_inv_ext m : m ∈ net → sent_inv g net m → sent_inv g' net' m.
Proof.
  intros Hm (Hs & Ht & Ha). split_and!; [done| |by apply acked_ext]. apply told_ext; [|done]. intros Hf Hty Hrj.
  apply (sb_cast _ _ _ _ _ _ _ _ Hsb (mTo m)). exists m. split; [done|]. unfold ballot. by rewrite Hty, Hrj, Hf.
Qed.
Lemma disk_ok_ext i st F : i ≠ v → disk_ok g i st F → disk_ok g' i st F.
Proof.
  intros Hne []. pose proof Hsb as []. split; try done.
  - apply log_ok_ext; try done; [|rewrite sb_floor0 by done; apply dk_log0]. intros t c [?|[? _]]%sb_wit0; [by left|done].
  - by apply (commit_ok_ext _ (a_base (vlog st))).
  - intros t c [?|[? _]]%sb_wit0; [by eapply dk_wit0|done].
Qed.

Lemma host_ok_other i h :
  i ≠ v → id (h_raft h) = i → (∀ t, (t, i) ∈ el → (t, v) ∈ el → False) → host_ok g net el h → host_ok g' net' el' h.
Proof.
  intros Hne Hid Hu []. pose proof Hsb as []. split; try done.
  - destruct ho_node0 as [F [[] Hheld]]. exists F. rewrite Hid in *. split; [|intros Hh s Hs; apply disk_ok_ext; auto]. split.
    + rewrite Hid. apply log_ok_ext; try done; [|rewrite sb_floor0 by done; apply no_log0]. intros t c [?|[? _]]%sb_wit0; [by left|done].
    + rewrite Hid. apply (commit_ok_ext _ (floor g i)); [apply floor_ext|done].
    + rewrite Hid. intros t c [?|[? _]]%sb_wit0; [by eapply no_wit0|done].
    + intros Hs. destruct (no_cand0 Hs). destruct sb_el0 as (new & Eel & Hnew). rewrite Hid in *. split; rewrite ?Hid.
      * rewrite Eel. intros [Hin|?]%elem_of_app; [|done]. by apply Hnew in Hin.
      * intros m Hin Hty Hf. apply cd_votes0; try done. rewrite !elem_of_app in *. destruct Hin as [[?|Hin]|?]; auto.
        destruct (sb_sent0 m Hin). congruence.
      * apply (commit_ok_ext _ (floor g i)); [apply floor_ext|done].
      * destruct cd_fit0 as [[? ?]|?]; [left|right]; [split; [done|by apply (secure_ext g)]|]. by apply doomed_ext.
    + intros Hs. destruct (no_lead0 Hs). destruct sb_el0 as (new & Eel & Hnew). rewrite Hid in *. split; rewrite ?Hid.
      * rewrite Eel. apply elem_of_app. by right.
      * destruct (sb_logs0 (Term (h_raft h))) as [->|?]; [by eapply sb_terms0|done|by destruct (Hu (Term (h_raft h)))].
      * by apply (secure_ext g).
      * intros p pr Hp Hpr. destruct (ll_prs0 p pr Hp Hpr) as [Hm Hn]. split.
        { destruct Hm; [by left|right]. by apply (gx_wit _ _ sb_gext0). }
        destruct Hn; [by left|right]. pose proof (gx_floor _ _ sb_gext0 p). lia.
    + eapply Forall_impl; [done|]. intros m Hq. apply queued_ext; [|done]. rewrite (qu_from _ _ _ _ _ Hq). congruence.
  - intros s Hs. destruct (ho_disks0 s Hs) as [[F Hd] ?]. split; [|done]. exists F. apply disk_ok_ext; [congruence|done].
Qed.
End other.

(** ** The whole cluster *)

Lemma step_elections v T g g' net ms el el' nw :
  step_by v T g g' net ms el el' → elections P (voted net) g → terms g' = nw ++ terms g →
  (∀ newer u older, nw = newer ++ u :: older → electors P (voted (net ++ ms)) g' u (older ++ terms g)) →
  elections P (voted (net ++ ms)) g'.
Proof.
  intros [] He Enw Hnew. apply (elections_ext g g') with (voted := voted net) (new := nw); try done.
  - intros w u [c Hg]. exists c. apply (granted_mono net); [set_solver|done].
  - intros w u t k [c' Hg] Htu [?|[-> ->]]%sb_wit0; [done|]. specialize (sb_cast0 _ _ Hg). lia.
Qed.

Lemma decided_ext g g' e : tree g → gext g g' → decided g e → decided g' e.
Proof.
  intros Ht Hx (t & i & Hc & Hi & Hg). exists t, i. split_and!; [by apply (certified_ext g)|done|].
  pose proof Hc as (Hin & Hil & _). destruct (logs_ext g g' Hx t i Hin) as [Ha _]; [lia|]. by rewrite Ha.
Qed.

Lemma safe_step (conf : Z → Config) c A g v T st ms el' g' nw A' :
  NoDup P → safe c A g →
  inv P (mkCluster (<[v := st]> (c_hosts c)) (c_net c ++ ms) el') →
  step_by v T g g' (c_net c) ms (c_elected c) el' →
  terms g' = nw ++ terms g → (∀ t, t ∈ terms g' ↔ ∃ a, (t, a) ∈ el') →
  (∀ newer u older, nw = newer ++ u :: older → electors P (voted (c_net c ++ ms)) g' u (older ++ terms g)) →
  (∀ t k, wit g' v t k → wit g v t k ∨ k ≤ zlen (logs g' t) ∨ lost g' t k) →
  status_ok g' (c_net c ++ ms) el' v st → (∀ m, m ∈ ms → sent_inv g' (c_net c ++ ms) m) →
  (∀ i e, (i, e) ∈ A' → (i, e) ∈ A ∨ decided g' e) →
  safe (mkCluster (<[v := st]> (c_hosts c)) (c_net c ++ ms) el') A' g'.
Proof.
  intros HP [] Hinv Hsb Enw Hterms Hnew Hwit Hst Hms HA. pose proof Hsb as []. split; simpl; try done.
  - by apply (step_elections v T g g' (c_net c) ms (c_elected c) el' nw).
  - assert (Hold : ∀ w t k, wit g w t k → k ≤ zlen (logs g' t) ∨ lost g' t k).
    { intros w t k Hw. pose proof (tr_wit _ sb_tree0 _ _ _ Hw). destruct (sf_wit0 w t k Hw); [left|right; by apply (lost_ext g)].
      by apply (logs_ext g g' sb_gext0). }
    intros w t k Hw. destruct (sb_wit0 w t k Hw) as [?|[-> _]]; [by eapply Hold|].
    destruct (Hwit t k Hw); [by eapply Hold|done].
  - intros i st' [[<- <-]|[Hne Hi]]%lookup_insert_Some; [done|]. specialize (sf_hosts0 i st' Hi). destruct st' as [h|s]; simpl in *.
    + apply (host_ok_other v T g g' (c_net c) ms (c_elected c) el' Hsb i); try done.
      * destruct (inv_hosts _ _ sf_inv0 i _ Hi) as [_ Hh]. apply Hh.
      * intros t H1 H2. apply Hne. symmetry. eapply (elected_unique conf P c t); try done; by apply (inv_elected _ _ sf_inv0).
    + destruct sf_hosts0 as [F Hd]. exists F. by eapply disk_ok_ext.
  - intros m [Hm|Hm]%elem_of_app; [|by apply Hms]. eapply sent_inv_ext; [exact Hsb|auto..].
  - intros i e [?|?]%HA; [|done]. apply (decided_ext g); eauto.
Qed.

(** The ghost does not move. *)
Lemma step_by_refl v T g net el : tree g → (∀ c s, granted net c s v → s ≤ T) → (∀ t a, (t, a) ∈ el → t ∈ terms g) →
  step_by v T g g net [] el el.
Proof.
  intros Ht Hc He. split; try done; auto.
  - split; try done; [by exists []|]. intros t _. exists []. by rewrite app_nil_r.
  - by intros m ?%not_elem_of_nil.
  - exists []. split; [done|]. by intros t a ?%not_elem_of_nil.
Qed.
Lemma safe_still (conf : Z → Config) c A g v st A' :
  NoDup P → safe c A g → inv P (mkCluster (<[v := st]> (c_hosts c)) (c_net c) (c_elected c)) →
  is_Some (c_hosts c !! v) → status_ok g (c_net c) (c_elected c) v st → (∀ i e, (i, e) ∈ A' → (i, e) ∈ A ∨ decided g e) →
  safe (mkCluster (<[v := st]> (c_hosts c)) (c_net c) (c_elected c)) A' g.
Proof.
  intros HP Hs Hinv [st0 Hv] Hst HA. pose proof Hs as [].
  assert (∃ T, ∀ c' s, granted (c_net c) c' s v → s ≤ T) as [T HT].
  { destruct (inv_hosts _ _ sf_inv0 v _ Hv) as [_ Hh]. destruct st0 as [h|s]; simpl in Hh.
    - exists (Term (h_raft h)). intros c' s (m & Hm & Hb). destruct (hi_cast _ _ _ _ Hh m s c' Hm Hb) as [(_ & _ & ?) _]. lia.
    - destruct Hh as (_ & _ & Hh). exists (hsTerm (v_hard (view s))). intros c' s' (m & Hm & Hb).
      specialize (Hh m s' c' Hm Hb). unfold cast_hs in Hh. lia. }
  rewrite <-(app_nil_r (c_net c)) in *. eapply (safe_step conf c A g v T _ [] _ g []); rewrite ?app_nil_r in *; try done.
  - apply step_by_refl; [done|done|]. intros t a Hin. apply sf_terms0. eauto.
  - intros newer u older E. by destruct newer.
  - by left.
  - by intros m ?%not_elem_of_nil.
Qed.
End loginv.
