(* ===== verification/LogDrive.v ===== *)
(** * The driver keeps the invariant (src/server/drive.go, [drain])

    Every piece of [drain] that [Cluster.drive] cuts it into: the writes put a
    log on disk the core already has, or the beginning of it that a torn batch
    of entries leaves ([disk_ok_pre]), sending turns what the outbox
    acknowledges into what the node has made durable, and what goes to the
    state machine is decided. *)

From S2P Require Import Prelude RaftTypes Storage RaftLog ReadOnly Raft Node LogSpec RaftSpec Persist Quiet.
From S2P Require Import LogSafety Election Replication Batch LogTree Cluster LogInv.

Section logdrive.
Context {S : Type} `{LogStorageLaws S} (conf : Z → Config) (P : list Z) (HP : NoDup P).
Implicit Types r : raft S.
Implicit Types F : list Entry.

(** Nothing the invariant reads of the node moved. *)
Lemma node_ok_eq g net el r r' F :
  absLog (rlog r') = absLog (rlog r) → committed (rlog r') = committed (rlog r) → id r' = id r → Term r' = Term r →
  state r' = state r → prs r' = prs r → msgs r' = msgs r → node_ok P g net el r F → node_ok P g net el r' F.
Proof.
  intros E1 E2 E3 E4 E5 E6 E7 []. split; rewrite ?E1, ?E2, ?E3, ?E4, ?E5, ?E7; try done.
  - intros Hs. destruct (no_cand Hs). split; rewrite ?E1, ?E2, ?E3, ?E4, ?E7; done.
  - intros Hs. destruct (no_lead Hs). split; rewrite ?E1, ?E3, ?E4, ?E6; done.
  - eapply Forall_impl; [done|]. intros m []. split; try done; rewrite ?E3, ?E4; try done.
    unfold acking. by rewrite E3, E4.
Qed.

Section drive.
Context (g : ghost) (net : list Message) (el : list (Z * Z)) (Htree : tree g) (Hel : elections P (voted net) g).

(** A new disk that holds the log of the core under the hard state of an old
    one. *)
Lemma disk_ok_log r F st s0 F0 :
  node_ok P g net el r F → disk_ok P g (id r) s0 F0 → hsCommit (v_hard (view s0)) ≤ committed (rlog r) →
  v_hard (view st) = v_hard (view s0) → vlog st = absLog (rlog r) → a_base (vlog s0) ≤ a_base (absLog (rlog r)) →
  view_wf (view st) → disk_ok P g (id r) st F.
Proof.
  intros [] [] Hc Eh El Hb Hw. split; rewrite ?Eh, ?El; try done. destruct dk_commit as [?|Hs]; [left; lia|right].
  destruct (commit_secure _ _ _ _ _ _ _ _ no_log (lo_floor _ _ _ _ _ no_log) no_commit) as [T HT]. eapply secure_agree; [|exact Hs].
  by apply (secure_unique P HP (voted net) g Hel T (hsTerm (v_hard (view s0))) (committed (rlog r)) (hsCommit (v_hard (view s0)))).
Qed.
(** The same under the hard state of the core. *)
Lemma disk_ok_hard r F st :
  node_ok P g net el r F → v_hard (view st) = hardState r → vlog st = absLog (rlog r) → view_wf (view st) →
  disk_ok P g (id r) st F.
Proof.
  intros [] Eh El Hw. split; rewrite ?Eh, ?El; try done. destruct no_commit; [left|by right]. pose proof (lo_floor _ _ _ _ _ no_log).
  simpl. lia.
Qed.

(** Writing the storage under the core. *)
Lemma host_ok_put h st ph :
  host_ok P g net el h → a_base (vlog (h_storage h)) ≤ a_base (vlog st) →
  (match ph with PIdle | PSnap _ | PEnts _ => apart (set_storage st (rlog (h_raft h))) | _ => True end) →
  let l := rlog (h_raft h) in
  absLog (set_storage st l) = absLog l → log_wf (set_storage st l) →
  (∀ F, node_ok P g net el (h_raft h) F → disk_ok P g (id (h_raft h)) st F) →
  hsCommit (v_hard (view st)) ≤ committed l → (held (putStorage st h ph) → held h) → batch_ok (putStorage st h ph) → host_ok P g net el (putStorage st h ph).
Proof.
  intros [] Hba Hap l Ea Hw Hd Hc Hhe Hb. destruct ho_node as [F [Hn Hheld]]. split; try done.
  - unfold core_wf, node_wf in *. destruct ho_wf as [[_ ?] ?]. done.
  - exists F. split; [by apply (node_ok_eq g net el (h_raft h))|]. simpl.
    intros Hh s [Hs| ->%list_elem_of_singleton]%elem_of_app; [by apply Hheld; [apply Hhe|]|by apply Hd].
  - simpl. intros s [Hs| ->%list_elem_of_singleton]%elem_of_app; [by apply ho_disks|]. split; [|done]. exists F. by apply Hd.
  - simpl. intros s [Hs| ->%list_elem_of_singleton]%elem_of_app; [|done]. etransitivity; [by apply ho_bases|done].
Qed.
(** More contents a crash may leave. *)
Lemma host_ok_disks h sts :
  host_ok P g net el h →
  (∀ s, s ∈ sts → hsCommit (v_hard (view s)) ≤ committed (rlog (h_raft h)) ∧ a_base (vlog s) ≤ a_base (vlog (h_storage h)) ∧
    ∃ F, disk_ok P g (id (h_raft h)) s F) →
  (held h → ∀ F s, node_ok P g net el (h_raft h) F → s ∈ sts → disk_ok P g (id (h_raft h)) s F) →
  host_ok P g net el (addDisks sts h).
Proof.
  intros [] Hs Hh. destruct ho_node as [F [Hn Hheld]]. split; try done; simpl.
  - exists F. split; [done|]. intros Hhe s [?|?]%elem_of_app; [by apply Hheld|by apply Hh].
  - intros s [?|(? & _ & ?)%Hs]%elem_of_app; [by apply ho_disks|done].
  - intros s [?|(_ & ? & _)%Hs]%elem_of_app; [by apply ho_bases|done].
Qed.
(** The snapshot is on disk, some hard states are not. *)
Lemma host_ok_snapshot h st ph :
  host_ok P g net el h → host_ok P g net el (putStorage st h ph) → v_hard (view st) = v_hard (view (h_storage h)) →
  vlog st = absLog (set_storage st (rlog (h_raft h))) → view_wf (view st) → host_ok P g net el (putSnapshot st h ph).
Proof.
  intros Hh Hh' Ehard Ev Hw.
  assert (Hd : ∀ s F, s ∈ unflushed st (h_disks h) → node_ok P g net el (h_raft (putStorage st h ph)) F →
    hsCommit (v_hard (view s)) ≤ committed (rlog (h_raft h)) ∧ vlog s = vlog st ∧ disk_ok P g (id (h_raft h)) s F).
  { intros s' F (s & Hs & E)%unflushed_view HF. assert (Hin : s ∈ h_disks (putStorage st h ph)) by set_solver.
    destruct (ho_disks _ _ _ _ _ Hh' s Hin) as [[F0 Hd0] Hc]. pose proof (ho_bases _ _ _ _ _ Hh' s Hin) as Hb.
    assert (El : vlog s' = vlog st) by (unfold vlog, v_off; by rewrite E).
    split_and!; [by rewrite E|done|]. apply (disk_ok_log _ F s' s F0 HF Hd0); try done; simpl.
    - by rewrite E.
    - by rewrite El.
    - unfold h_storage in Hb. simpl in Hb. by rewrite <-Ev.
    - unfold view_wf, v_last, v_off in *. by rewrite E. }
  destruct (ho_node _ _ _ _ _ Hh') as [F [HF _]]. apply host_ok_disks; [done|..].
  - intros s Hs. destruct (Hd s F Hs HF) as (? & El & ?). split_and!; [done| |by exists F]. by rewrite El.
  - intros _ F' s HF' Hs. by apply Hd.
Qed.
(** A batch of entries is on disk up to some entry. *)
Lemma disk_ok_pre r F s0 F0 st st' n e :
  node_ok P g net el r F → disk_ok P g (id r) s0 F0 → disk_ok P g (id r) st F → vlog st = absLog (rlog r) →
  v_hard (view st') = v_hard (view st) → v_hard (view st) = v_hard (view s0) → stores st' (a_pre n (absLog (rlog r))) → view_wf (view st') →
  a_base (absLog (rlog r)) < eIndex e ≤ n → n ≤ a_last (absLog (rlog r)) → a_get (absLog (rlog r)) (eIndex e) = Some e →
  a_base (vlog s0) ≤ a_base (absLog (rlog r)) → hsCommit (v_hard (view s0)) < eIndex e →
  a_last (vlog s0) < eIndex e ∨ a_term (vlog s0) (eIndex e) ≠ eTerm e →
  disk_ok P g (id r) st' (pre n F).
Proof.
  intros [] Hd0 Hd Ev Eh Eh0 Hst%stores_vlog Hw Hi Hn Hg Hb Hc Hap. pose proof no_log as []. pose proof lo_rep as [Hbz _].
  rewrite (rep_last _ _ lo_rep) in Hn. rewrite (rep_get _ _ lo_rep) in Hg by lia. destruct Hd0 as [_ [Hr0 _ Hf0 _ _] _ _].
  assert (Hag : ∀ k, k ≤ n → agree k (pre n F) F) by (intros k Hk; eapply agree_le; [|apply agree_pre]; lia).
  split; [done|split|..]; rewrite ?Hst, ?Eh; simpl.
  - by apply rep_pre; [|lia].
  - by apply grown_pre.
  - intros t c Hwit. destruct (lo_faithful t c Hwit) as [[Hz Ha]|?]; [|by right]. destruct (decide (c ≤ n)) as [Hcn|Hcn].
    { left. split; [done|]. eapply agree_trans; [by apply Hag|done]. }
    destruct (Hf0 t c Hwit) as [[_ Ha0]|?]; [|by right]. exfalso.
    assert (Hg0 : get F0 (eIndex e) = Some e) by (rewrite Ha0 by lia; rewrite <-Ha by lia; done).
    pose proof (get_range _ _ _ Hg0). rewrite (rep_last _ _ Hr0), (rep_term _ _ Hr0) in Hap by lia.
    unfold tm in Hap. rewrite Hg0 in Hap. simpl in Hap. destruct Hap; [lia|done].
  - destruct lo_base as [T HT]. exists T. eapply secure_agree; [|exact HT]. apply Hag. lia.
  - done.
  - destruct (dk_commit _ _ _ _ _ Hd) as [Hc'|Hs]; [left; rewrite Ev in Hc'; done|right].
    eapply secure_agree; [|exact Hs]. apply Hag. rewrite Eh0. lia.
  - apply (dk_wit _ _ _ _ _ Hd).
Qed.
Lemma host_ok_phase h ph :
  host_ok P g net el h → match ph with PIdle | PSnap _ | PEnts _ => apart (rlog (h_raft h)) | _ => True end → (held (setPhase ph h) → held h) → batch_ok (setPhase ph h) → host_ok P g net el (setPhase ph h).
Proof. intros [] Hap Hhe Hb. destruct ho_node as [F [Hn Hheld]]. split; try done. exists F. split; [done|]. intros Hh. by apply Hheld, Hhe. Qed.

(** ** Taking and writing a batch *)

Lemma batch_put st r : absLog (set_storage st (rlog r)) = absLog (rlog r) → batch (set_rlog (set_storage st (rlog r)) r) = batch r.
Proof. intros E. unfold batch. cbn [rlog set_rlog]. rewrite E. done. Qed.

Lemma drive_idle_ok h h' ms :
  host_ok P g net el h → h_phase h = PIdle → drive h = Ret (Ok (h', ms)) → ms = [] ∧ host_ok P g net el h'.
Proof.
  intros Hh Hp Hd. unfold drive in Hd. rewrite Hp in Hd. apply outcome_bind_Ret in Hd as (b & _ & Hd).
  destruct b; [|by injection Hd as <- <-]. apply outcome_bind_Ret in Hd as ([rd n] & Hr & [= <- <-]). split; [done|].
  unfold Node_Ready in Hr. unfold mbind at 1, M_bind, reads in Hr. pose proof (ho_wf _ _ _ _ _ Hh) as [[Hwf _] _].
  unfold h_raft in *. rewrite (ReadyOf_batch _ Hwf) in Hr. injection Hr as <- <-. destruct Hh. rewrite Hp in ho_apart. split; try done.
  - destruct ho_node as [F [Hn Hheld]]. exists F. split; [done|]. intros [Hs|[]]. apply Hheld. by left.
  - unfold batch_ok in *. rewrite Hp in ho_batch. simpl. tauto.
Qed.
Lemma drive_snap_ok i h h' ms rd :
  host_ok P g net el h → host_inv P net i h → h_phase h = PSnap rd → drive h = Ret (Ok (h', ms)) → ms = [] ∧ host_ok P g net el h'.
Proof.
  intros Hh Hi Hp Hd. pose proof (ho_batch _ _ _ _ _ Hh) as (Hal & Hb). rewrite Hp in Hb.
  destruct Hb as [[-> Hpend] Hper]. pose proof (ho_apart _ _ _ _ _ Hh) as Hap. rewrite Hp in Hap. pose proof (ho_wf _ _ _ _ _ Hh) as [[Hwf _] _]. unfold drive in Hd. rewrite Hp in Hd. simpl in Hd.
  destruct (u_snapshot (unst (rlog (h_raft h)))) as [sn|] eqn:Esn.
  2: { injection Hd as <- <-. split; [done|]. apply host_ok_phase; [done|done|by intros [?|[]]; left|]. unfold h_raft in *.
       assert (Hno : ∀ sn, u_snapshot (unst (rlog (n_r (h_node h)))) ≠ Some sn) by (by rewrite Esn).
       split; [by intros sn Hs%Hno|]. split; [by split|]. by intros sn Hs%Hno. }
  apply outcome_bind_Ret in Hd as ([st e] & Ha & Hd).
  destruct (persist_snapshot _ _ _ _ Hwf Hper Esn Ha) as (Eabs & Hwf' & Hbased & Ehard).
  assert (Hgo : host_ok P g net el (putSnapshot st h (PEnts (batch (h_raft h))))); [|by destruct e as [[]|]; try done; injection Hd as <- <-].
  pose proof (hi_cur _ _ _ _ Hi) as Hcur. destruct (ho_disks _ _ _ _ _ Hh _ Hcur) as [[F0 Hd0] Hc0].
  destruct (Hbased sn Esn) as [Ev1 Ev2]. cbn [storage set_storage] in Ev1, Ev2.
  assert (Hvl : vlog st = absLog (rlog (h_raft h))) by (unfold vlog, v_off, absLog; rewrite Ev1, Ev2, Esn; by rewrite (Hal sn eq_refl)).
  assert (Hbs : a_base (vlog (h_storage h)) ≤ a_base (absLog (rlog (h_raft h)))).
  { unfold absLog. rewrite Esn. simpl. destruct (Hper sn Esn). unfold h_storage. lia. }
  apply host_ok_snapshot; [done| |done|by rewrite Eabs|apply Hwf'].
  apply host_ok_put; try done.
  - by rewrite Hvl.
  - intros x xs Ex. simpl in Ex. by rewrite (Hal sn eq_refl) in Ex.
  - intros F Hn. apply (disk_ok_log _ F st (h_storage h) F0); try done. apply Hwf'.
  - by rewrite Ehard.
  - intros [?|[]]. by left.
  - unfold batch_ok. simpl. unfold h_raft in *. simpl. rewrite batch_put by done. split; [intros ? _; exact (Hal sn eq_refl)|]. done.
Qed.
Lemma drive_ents_ok i h h' ms rd :
  host_ok P g net el h → host_inv P net i h → h_phase h = PEnts rd → drive h = Ret (Ok (h', ms)) → ms = [] ∧ host_ok P g net el h'.
Proof.
  intros Hh Hi Hp Hd. pose proof (ho_batch _ _ _ _ _ Hh) as (Hal & Hb). rewrite Hp in Hb.
  destruct Hb as [[-> Hpend] Hbased]. pose proof (ho_wf _ _ _ _ _ Hh) as [[Hwf _] _]. unfold drive in Hd. rewrite Hp in Hd. simpl in Hd.
  destruct (u_entries (unst (rlog (h_raft h)))) as [|x xs] eqn:Ee.
  { injection Hd as <- <-. split; [done|]. apply host_ok_phase; [done|done|by intros [?|[]]; left|]. split; [intros sn _; exact Ee|].
    simpl. split; [done|]. by apply persist_none. }
  destruct (Z.ltb_spec 0 (zlen (x :: xs))); [|rewrite zlen_cons in *; pose proof (zlen_nonneg xs); lia].
  apply outcome_bind_Ret in Hd as ([st e] & Ha & Hd). destruct e; [done|]. injection Hd as <- <-. split; [done|].
  destruct (persist_entries _ _ _ _ Hwf Hbased Ee Ha) as (Eabs & Hwf' & Hst & Ehard).
  pose proof (hi_cur _ _ _ _ Hi) as Hcur. destruct (ho_disks _ _ _ _ _ Hh _ Hcur) as [[F0 Hd0] Hc0].
  pose proof (ho_apart _ _ _ _ _ Hh) as Hap. rewrite Hp in Hap. destruct (Hap x xs Ee) as [Hcx Hdx].
  destruct (based_absLog _ Hwf Hbased) as [Eb _]. apply stores_vlog in Hst.
  assert (Hbs : a_base (vlog (h_storage h)) = a_base (absLog (rlog (h_raft h)))) by exact Eb.
  assert (Hd : ∀ F, node_ok P g net el (h_raft h) F → disk_ok P g (id (h_raft h)) st F).
  { intros F Hn. apply (disk_ok_log _ F st (h_storage h) F0); try done; [lia|apply Hwf']. }
  apply host_ok_disks; [apply host_ok_put; try done|..].
  - rewrite Hst. lia.
  - by rewrite Ehard.
  - intros [?|[]]. by left.
  - unfold batch_ok. simpl. unfold h_raft in *. simpl. rewrite batch_put, Eabs by done. split; [intros sn Hs; discriminate (Hal sn Hs)|]. split; [done|]. by apply stores_vlog.
  - intros s (k & Hk & Ea)%torn_append. assert (Hk' : (1 ≤ k ≤ length (x :: xs))%nat) by lia.
    destruct (persist_torn _ _ _ _ _ Hwf Hbased Ee Hk' Ea) as (Hs1 & Hs2 & Hs3 & Hs4 & Hs5).
    pose proof (law_append_hard _ _ _ _ Ea) as Eh. destruct (ho_node _ _ _ _ _ Hh) as [F [Hn _]]. split_and!.
    + by rewrite Eh.
    + apply stores_vlog in Hs1. rewrite Hs1. change (h_storage _) with st. by rewrite Hst.
    + exists (pre (eIndex x - 1 + Z.of_nat k) F). apply (disk_ok_pre (h_raft h) F (h_storage h) F0 st s _ x); try done; [by apply Hd|by rewrite Eh, Ehard|lia].
  - intros [[_ Hs]|[]]. change (u_entries (unst (rlog (h_raft h))) = []) in Hs. congruence.
Qed.
Lemma drive_hard_ok h h' ms rd :
  host_ok P g net el h → h_phase h = PHard rd → drive h = Ret (Ok (h', ms)) → ms = [] ∧ host_ok P g net el h'.
Proof.
  intros Hh Hp Hd. pose proof (ho_batch _ _ _ _ _ Hh) as (Hal & Hb). rewrite Hp in Hb.
  destruct Hb as [[-> Hpend] Hst]. pose proof (ho_wf _ _ _ _ _ Hh) as [[Hwf _] _]. unfold drive in Hd. rewrite Hp in Hd. simpl in Hd.
  case_bool_decide as Ehs; simpl in Hd.
  { injection Hd as <- <-. split; [done|]. apply host_ok_phase; [done|done|by intros [?|[]]; left|done]. }
  apply outcome_bind_Ret in Hd as ([st e] & Ha & Hd). destruct e; [done|]. injection Hd as <- <-. split; [done|].
  destruct (persist_hard _ _ _ Hwf Ha) as (Eabs & Hwf' & Ehard & Hsto). apply Hsto in Hst.
  apply host_ok_put; try done.
  - unfold vlog, v_off. simpl. rewrite (law_set_hard_view _ _ _ _ Ha). done.
  - intros F Hn. apply disk_ok_hard; try done; [by apply stores_vlog|apply Hwf'].
  - by rewrite Ehard.
  - intros [?|[]]. by left.
  - unfold batch_ok. simpl. unfold h_raft in *. simpl. rewrite batch_put, Eabs by done. done.
Qed.
Lemma drive_sync_ok h h' ms rd :
  host_ok P g net el h → (h_storage h ∈ h_disks h) → h_phase h = PSync rd → drive h = Ret (Ok (h', ms)) → ms = [] ∧ host_ok P g net el h'.
Proof.
  intros Hh Hcur Hp Hd. pose proof (ho_batch _ _ _ _ _ Hh) as (Hal & Hb). rewrite Hp in Hb.
  destruct Hb as [[-> Hpend] Hst]. unfold drive in Hd. rewrite Hp in Hd. destruct (rdMustSync (batch (h_raft h))) eqn:Es;
    injection Hd as <- <-; (split; [done|]).
  - pose proof (ho_wf _ _ _ _ _ Hh) as [[Hwf _] _]. destruct Hh. destruct ho_node as [F [Hn Hheld]]. split; try done; simpl.
    + exists F. split; [done|]. intros _ s ->%list_elem_of_singleton. destruct (ho_disks _ Hcur) as [[F0 Hd0] Hc0]. apply stores_vlog in Hst.
      apply (disk_ok_log _ F _ (h_storage h) F0); try done; [unfold h_storage; by rewrite Hst|apply Hwf].
    + intros s ->%list_elem_of_singleton. by apply ho_disks.
    + by intros s ->%list_elem_of_singleton.
  - apply host_ok_phase; [done|done| |done]. intros _. left.
    unfold batch in Es. cbn [rdMustSync] in Es. apply orb_false_iff in Es as [Es _]. apply orb_false_iff in Es as [E1 E2].
    apply Z.ltb_ge in E1. apply bool_decide_eq_false in E2. split; [by apply eq_None_not_Some|].
    apply zlen_zero. pose proof (zlen_nonneg (u_entries (unst (rlog (h_raft h))))). lia.
Qed.
End drive.

(** ** Sending *)

(** What a batch commits is decided. *)
Lemma batch_decided g net el r F e :
  tree g → log_wf (rlog r) → node_ok P g net el r F → e ∈ rdCommittedEntries (batch r) → decided P g e.
Proof.
  intros Ht Hwf Hn He. destruct Hn. destruct (commit_secure _ _ _ _ _ _ _ _ no_log (lo_floor _ _ _ _ _ no_log) no_commit) as [T HT].
  destruct (next_ents _ Hwf) as [Hlen Hc]. simpl in He. apply list_elem_of_lookup in He as [k Hk].
  pose proof (contiguous_lookup _ _ _ _ Hc Hk) as Hi. pose proof (lookup_lt_Some _ _ _ Hk) as Hkl.
  pose proof Hwf as (_ & _ & ? & _). pose proof (absLog_wf _ Hwf) as (? & _).
  assert (Hle : eIndex e ≤ committed (rlog r)) by (unfold zlen in Hlen; lia).
  rewrite (rep_slice _ F) in Hk by (apply no_log || lia). apply lookup_take_Some in Hk as [Hk _]. rewrite lookup_drop in Hk.
  assert (Hg : get F (eIndex e) = Some e).
  { unfold get. destruct (Z.leb_spec (eIndex e) 0); [lia|]. rewrite <-Hk. f_equal. lia. }
  destruct HT as [?|(t & i & _ & Hce & Hci & Ha)]; [lia|]. exists t, i. split_and!; [done|lia|]. rewrite <-Ha; [done|lia].
Qed.


(** What the outbox acknowledges. *)
Definition acknowledges r (i : Z) : Prop := 0 < i ∧ ∃ m, m ∈ msgs r ∧ claims m = Some i.
Definition g_send r (g : ghost) : ghost := g_note (id r) (Term r) (acknowledges r) (floor g (id r)) g.

(** The entries [drain] applies: those of the batch, once its messages are sent. *)
Definition applied_by (i : Z) (h : host S) : list (Z * Entry) :=
  match h_phase h with PSend rd => (λ e, (i, e)) <$> rdCommittedEntries rd | _ => [] end.

Section send.
Context (c : Cluster S) (A : list (Z * Entry)) (g : ghost) (i : Z) (h : host S) (Hsafe : safe P c A g).
Context (Hhi : host_inv P (c_net c) i h) (Hho : host_ok P g (c_net c) (c_elected c) h).
#[local] Abbreviation r := (h_raft h).
#[local] Abbreviation net := (c_net c).
#[local] Abbreviation el := (c_elected c).

(** The acknowledgements of the outbox, in the log [F] of the core. *)
Lemma acknowledges_holds F j k :
  node_ok P g net el r F → acknowledges r j → k ≤ j → Term r ∈ terms g ∧ (holds g F (Term r) k ∨ lost g (Term r) k).
Proof.
  intros Hn (Hj & m & Hm & Hc) Hk. pose proof (no_msgs _ _ _ _ _ _ Hn) as Hq. rewrite Forall_forall in Hq.
  destruct (qu_acking _ _ _ _ _ _ (Hq m Hm) j Hc) as [?|(Et & Ht & Hh & _)]; [lia|]. rewrite Et in Ht. auto.
Qed.
Lemma send_step_by : step_by i (Term r) g (g_send r g) net (msgs r) el el.
Proof.
  destruct (ho_node _ _ _ _ _ Hho) as [F [Hn _]]. destruct Hsafe, Hhi. pose proof (no_msgs _ _ _ _ _ _ Hn) as Hq. rewrite Forall_forall in Hq.
  split; try done.
  - apply tree_note; [done|]. intros j Hj. by apply (acknowledges_holds F j j Hn Hj).
  - by apply gext_note.
  - intros w t k [?|(-> & -> & _)]; [by left|right]. by rewrite hi_id.
  - intros w Hw. simpl. rewrite decide_False by congruence. done.
  - intros t a Hin. apply sf_terms. eauto.
  - by left.
  - intros k s (m & Hm & Hb). destruct (hi_cast m s k Hm Hb) as [(_ & _ & ?) _]. lia.
  - intros m Hm. destruct (Hq m Hm). split; [congruence|]. intros w t k Hb. pose proof (qu_ballot _ _ _ Hb) as ->. split; [done|].
    intros k' (m' & Hm' & Hb'). pose proof (ballot_from _ _ _ _ Hb) as [-> _]. rewrite qu_from, hi_id in Hb.
    apply (hi_votes m' m (Term r)); set_solver.
  - exists []. split; [done|]. by intros t a ?%not_elem_of_nil.
Qed.
Lemma send_log_ok F a : node_ok P g net el r F → log_ok P g i a F → log_ok P (g_send r g) i a F.
Proof.
  intros Hn Hl. eapply log_ok_ext; [apply send_step_by| | |done].
  - intros t k [?|(_ & -> & j & Hj & Hk)]; [by left|right]. destruct (acknowledges_holds F j k Hn Hj Hk) as [Ht Hh].
    pose proof send_step_by as []. destruct Hh; [left; by apply (holds_ext g)|right; by apply (lost_ext g)].
  - simpl. rewrite decide_True by (symmetry; apply Hhi). pose proof (lo_floor _ _ _ _ _ Hl).
    rewrite (hi_id _ _ _ _ Hhi). lia.
Qed.
Lemma send_node_ok F : node_ok P g net el r F → node_ok P (g_send r g) (net ++ msgs r) el r F.
Proof.
  intros Hn. pose proof send_step_by as Hsb. pose proof (hi_id _ _ _ _ Hhi) as Hid. pose proof Hsb as []. pose proof Hn as []. split; rewrite ?Hid in *.
  - by apply send_log_ok.
  - eapply commit_ok_ext; [exact Hsb|apply (gx_floor _ _ sb_gext)|by rewrite ?Hid in *].
  - intros t k [?|[_ ->]]%sb_wit; [by eapply no_wit|done].
  - intros Hs. destruct (no_cand Hs). split; try done.
    + intros m Hm. apply cd_votes. rewrite !elem_of_app in *. tauto.
    + eapply commit_ok_ext; [exact Hsb|apply (gx_floor _ _ sb_gext)|by rewrite ?Hid in *].
    + destruct cd_fit as [[? ?]|?]; [left; split; [done|by apply (secure_ext g)]|right]. by eapply doomed_ext.
  - intros Hs. destruct (no_lead Hs). split; try done.
    + by apply (secure_ext g).
    + intros p pr Hp Hpr. destruct (ll_prs p pr Hp Hpr) as [Hm Hx]. split.
      { destruct Hm; [by left|right]. by apply (gx_wit _ _ sb_gext). }
      destruct Hx; [by left|right]. pose proof (gx_floor _ _ sb_gext p). lia.
  - eapply Forall_impl; [done|]. intros m Hq. eapply queued_ext; [done| |done]. intros Hf Hty Hrj.
    rewrite (qu_ballot _ _ _ _ _ _ Hq (mFrom m) (mTerm m) (mTo m)); [done|]. unfold ballot. by rewrite Hty, Hrj.
Qed.
Lemma send_disk_ok F s :
  node_ok P g net el r F → disk_ok P g (id r) s F → TV (v_hard (view s)) = TV (hardState r) → disk_ok P (g_send r g) (id r) s F.
Proof.
  intros Hn Hd Htv. pose proof (hi_id _ _ _ _ Hhi) as Hid. destruct Hd. rewrite Hid in *. pose proof send_step_by as Hsb. split; try done.
  - by apply send_log_ok.
  - by eapply commit_ok_ext.
  - intros t k [?|[_ ->]]%(sb_wit _ _ _ _ _ _ _ _ Hsb); [by eapply dk_wit|]. unfold TV, hardState in Htv. simpl in Htv. injection Htv as -> _. done.
Qed.
Lemma send_sent_inv F m : node_ok P g net el r F → m ∈ msgs r → sent_inv P (g_send r g) (net ++ msgs r) m.
Proof.
  intros Hn Hm. pose proof (send_node_ok F Hn) as Hn'. pose proof (no_msgs _ _ _ _ _ _ Hn') as Hq. rewrite Forall_forall in Hq.
  destruct (Hq m Hm). split_and!; try done. intros k Hk. destruct (decide (k ≤ 0)) as [Hk0|Hk0]; [by left|right].
  destruct (qu_acking k Hk) as [?|(Et & Ht & _ & Hb)]; [done|]. rewrite Et, qu_from in *. split_and!; [done|..].
  - right. split_and!; [done..|]. exists k. split; [|done]. split; [lia|]. by exists m.
  - by destruct Hb; [left|right].
Qed.
Lemma send_safe rd :
  c_hosts c !! i = Some (Up h) → h_phase h = PSend rd →
  safe P (mkCluster (<[i := Up (setPhase (PAdvance rd) h)]> (c_hosts c)) (net ++ rdMessages rd) el) (A ++ applied_by i h) (g_send r g).
Proof.
  intros Hi Hp. destruct (ho_node _ _ _ _ _ Hho) as [F [Hn Hheld]]. pose proof (ho_batch _ _ _ _ _ Hho) as (Hal & Hb).
  rewrite Hp in Hb. destruct Hb as [[Erd Hpend] Hst]. pose proof (hi_phase _ _ _ _ Hhi) as Hph. unfold phase_ok in Hph. rewrite Hp in Hph.
  destruct Hph as [_ Htv]. pose proof (hi_id _ _ _ _ Hhi) as Hid.
  assert (Hd : drive h = Ret (Ok (setPhase (PAdvance rd) h, rdMessages rd))) by (unfold drive; by rewrite Hp).
  pose proof (inv_drive conf P c i h _ _ (sf_inv _ _ _ _ Hsafe) Hi Hd) as Hinv. rewrite Erd in Hinv |- *. cbn [rdMessages batch] in Hinv |- *.
  apply (safe_step P conf c A g i (Term r) _ (msgs r) el (g_send r g) []); try done.
  - apply send_step_by.
  - apply Hsafe.
  - intros newer u older E. by destruct newer.
  - intros t k [?|(_ & -> & j & Hj & Hk)]; [by left|right]. destruct (acknowledges_holds F j k Hn Hj Hk) as [_ [[? _]|?]]; [by left|by right].
  - split; try done; simpl.
    + apply Hho.
    + exists F. split; [by apply send_node_ok|]. intros _ s Hs. apply send_disk_ok; auto. apply Hheld; [|done]. right. by rewrite Hp.
    + intros s Hs. split; [|by apply (ho_disks _ _ _ _ _ Hho)]. exists F. apply send_disk_ok; auto. apply Hheld; [|done]. right. by rewrite Hp.
    + apply (ho_bases _ _ _ _ _ Hho).
    + rewrite Erd in Hpend. by split_and!.
  - intros m Hm. by apply (send_sent_inv F).
  - intros j e [?|Hx]%elem_of_app; [by left|right]. unfold applied_by in Hx. rewrite Hp in Hx.
    apply list_elem_of_fmap in Hx as (x & [= -> ->] & Hx). rewrite Erd in Hx. destruct send_step_by.
    apply (decided_ext P g); try done. eapply batch_decided; try done. apply Hho.
Qed.
End send.

(** ** Advance *)

(** The core after [Advance]. *)
Lemma drive_advance_ok g net el i h h' ms rd :
  host_ok P g net el h → host_inv P net i h → h_phase h = PAdvance rd → drive h = Ret (Ok (h', ms)) →
  ms = [] ∧ host_ok P g net el h'.
Proof.
  intros Hh Hi Hp Hd. pose proof (ho_batch _ _ _ _ _ Hh) as (Hal & Hb). rewrite Hp in Hb.
  destruct Hb as [[-> Hpend] Hst]. pose proof (ho_wf _ _ _ _ _ Hh) as [[Hwf Hm] Hn]. unfold drive in Hd. rewrite Hp in Hd.
  apply outcome_bind_Ret in Hd as ([[] n] & Ha & [= <- <-]). split; [done|].
  pose proof (hi_phase _ _ _ _ Hi) as Hph. unfold phase_ok in Hph. rewrite Hp in Hph. destruct Hph as [Hr _].
  destruct (Advance_spec _ _ _ Hr Ha) as (Eid & _ & Hk & _). set (l := rlog (h_raft h)) in *.
  rename Hst into Hsto.
  assert (El : set_storage (storage l) l = l) by (by destruct l).
  assert (Hack : acknowledged (h_raft h) (storage l) n).
  { assert (Hw : written l (storage l)) by (unfold written; by rewrite El).
    pose proof (wp_Advance (h_raft h) (storage l) Hwf Hw) as HA. fold l in HA. rewrite El in HA.
    assert (Er : set_rlog l (h_raft h) = h_raft h) by (unfold l; by destruct (h_raft h)).
    assert (En : h_node h = mkNode (h_raft h) (Some (batch (h_raft h)))) by (rewrite <-Hpend; unfold h_raft; by destruct (h_node h)).
    rewrite Er, <-En in HA. unfold wp in HA. by rewrite Ha in HA. }
  destruct Hack. pose proof (absLog_wf _ Hwf) as Haw. pose proof Hwf as (_ & _ & ? & ?).
  destruct (settled_wf (storage l) (mkUnstable None [] (a_last (absLog l) + 1)) (committed l) (committed l) (absLog l) Haw Hsto eq_refl) as [Ea Hwf'];
    [unfold l in *; lia|done|].
  assert (Eabs : absLog (rlog (n_r n)) = absLog l) by (by rewrite ak_log).
  assert (Ecom : committed (rlog (n_r n)) = committed l) by (by rewrite ak_log).
  destruct Hk. split; simpl.
  - split; [split|]; unfold h_raft; simpl; rewrite ?ak_log, ?ak_prs; done.
  - destruct (ho_node _ _ _ _ _ Hh) as [F [HF Hheld]]. exists F. unfold h_raft in *. simpl. split.
    2: { rewrite Eid. intros _. apply Hheld. right. by rewrite Hp. }
    apply (node_ok_eq g net el (set_msgs [] (n_r (h_node h)))); try done.
    destruct HF. split; try done.
    + intros Hs. destruct (no_cand Hs). split; try done. intros m Hmm. apply cd_votes. simpl in Hmm. rewrite app_nil_r in Hmm. apply elem_of_app. by left.
    + intros Hs. destruct (no_lead Hs). by split.
  - unfold h_raft. simpl. rewrite Eid, Ecom. apply (ho_disks _ _ _ _ _ Hh).
  - unfold h_storage, h_raft. simpl. rewrite ak_log. apply (ho_bases _ _ _ _ _ Hh).
  - intros x xs Ex. unfold h_raft in Ex. simpl in Ex. by rewrite ak_log in Ex.
  - unfold batch_ok, h_raft. simpl. rewrite ak_log. done.
Qed.
Lemma safe_drive c A g i h h' ms :
  safe P c A g → c_hosts c !! i = Some (Up h) → drive h = Ret (Ok (h', ms)) →
  ∃ g', safe P (mkCluster (<[i := Up h']> (c_hosts c)) (c_net c ++ ms) (c_elected c)) (A ++ applied_by i h) g'.
Proof.
  intros Hs Hi Hd. pose proof Hs as []. pose proof (sf_hosts i _ Hi) as Hh. simpl in Hh.
  destruct (inv_hosts _ _ sf_inv i _ Hi) as [_ Hhi]. simpl in Hhi. pose proof (inv_drive conf P c i h h' ms sf_inv Hi Hd) as Hinv.
  assert (Hno : ms = [] ∧ host_ok P g (c_net c) (c_elected c) h' → (∀ rd, h_phase h ≠ PSend rd) →
    ∃ g', safe P (mkCluster (<[i := Up h']> (c_hosts c)) (c_net c ++ ms) (c_elected c)) (A ++ applied_by i h) g').
  { intros [-> Hh'] Hne. assert (applied_by i h = []) as ->. { unfold applied_by. destruct (h_phase h); try done. by destruct (Hne rd). }
    exists g. rewrite !app_nil_r in *. apply (safe_still P conf c A); try done. by auto. }
  destruct (h_phase h) as [|rd|rd|rd|rd|rd|rd] eqn:Ep; try (apply Hno; [|done]).
  - by eapply drive_idle_ok.
  - by eapply drive_snap_ok.
  - by eapply drive_ents_ok.
  - by eapply drive_hard_ok.
  - eapply drive_sync_ok; try done. apply Hhi.
  - exists (g_send (h_raft h) g). unfold drive in Hd. rewrite Ep in Hd. injection Hd as <- <-. by apply send_safe.
  - by eapply drive_advance_ok.
Qed.

(** ** Crash and restart *)

Lemma safe_crash c A g i h st :
  safe P c A g → c_hosts c !! i = Some (Up h) → st ∈ h_disks h →
  inv P (mkCluster (<[i := Down st]> (c_hosts c)) (c_net c) (c_elected c)) →
  safe P (mkCluster (<[i := Down st]> (c_hosts c)) (c_net c) (c_elected c)) A g.
Proof.
  intros Hs Hi Hst Hinv. apply (safe_still P conf c A); eauto. simpl.
  destruct (inv_hosts _ _ (sf_inv _ _ _ _ Hs) i _ Hi) as [_ Hhi]. rewrite <-(hi_id _ _ _ _ Hhi).
  by apply (ho_disks _ _ _ _ _ (sf_hosts _ _ _ _ Hs i _ Hi)).
Qed.

(** The restarted node trusts the snapshot on its disk. *)
Definition g_boot (i : Z) (st : S) (g : ghost) : ghost := g_note i 0 (λ _, False) (a_base (vlog st)) g.
Lemma boot_step_by g net el i st F T :
  tree g → disk_ok P g i st F → (∀ t a, (t, a) ∈ el → t ∈ terms g) → (∀ c s, granted net c s i → s ≤ T) →
  step_by i T g (g_boot i st g) net [] el el ∧ floor (g_boot i st g) i = a_base (vlog st) ∧ (∀ t c, wit (g_boot i st g) i t c → wit g i t c).
Proof.
  intros Ht [] He Hc. split_and!.
  - split; try done; [by apply tree_note|by apply gext_note|..|by auto| |].
    + intros w t c [?|(_ & _ & ? & [] & _)]. by left.
    + intros w Hw. simpl. by rewrite decide_False.
    + by intros m ?%not_elem_of_nil.
    + exists []. split; [done|]. by intros t a ?%not_elem_of_nil.
  - simpl. rewrite decide_True by done. pose proof (lo_floor _ _ _ _ _ dk_log). simpl in *. lia.
  - by intros t c [?|(_ & _ & ? & [] & _)].
Qed.
Lemma boot_host_ok cf g net el st F r :
  disk_ok P g (id r) st F → floor g (id r) = a_base (vlog st) → boots_from cf st r → host_ok P g net el (mkHost (mkNode r None) PIdle [st]).
Proof.
  intros Hd Hfl []. apply stores_vlog in bt_stores. destruct bt_settled as [Hsn Hue].
  assert (Hno : ∀ s, u_snapshot (unst (rlog r)) ≠ Some s) by (by rewrite Hsn).
  split; simpl; unfold h_raft; simpl.
  - done.
  - exists F. split; [|by intros _ s ->%list_elem_of_singleton]. destruct Hd. split; rewrite ?bt_msgs, ?bt_state; try done.
    + by rewrite <-bt_stores.
    + rewrite Hfl, bt_Term, bt_committed. simpl. destruct dk_commit as [Hc|Hc]; simpl in Hc; [left; lia|].
      destruct (decide (hsCommit (v_hard (view st)) ≤ v_off (view st))); [left; lia|right]. rewrite Z.max_r by lia. done.
    + by rewrite bt_Term.
  - intros s ->%list_elem_of_singleton. split; [by exists F|]. lia.
  - intros s ->%list_elem_of_singleton. unfold h_storage, h_raft. simpl. by rewrite bt_storage.
  - intros x xs Ex. unfold h_raft in Ex. simpl in Ex. congruence.
  - unfold batch_ok, h_raft. simpl. split; [by intros s ?%Hno|]. split; [done|]. by intros s ?%Hno.
Qed.
Lemma safe_restart c A g i rnd st n :
  safe P c A g → c_hosts c !! i = Some (Down st) → NewNode (set_cRand (Some rnd) (conf i)) st = Ret (Ok n) →
  inv P (mkCluster (<[i := Up (mkHost n PIdle [st])]> (c_hosts c)) (c_net c) (c_elected c)) →
  ∃ g', safe P (mkCluster (<[i := Up (mkHost n PIdle [st])]> (c_hosts c)) (c_net c) (c_elected c)) A g'.
Proof.
  intros Hs Hi Hn Hinv. pose proof Hs as []. destruct (sf_hosts i _ Hi) as [F Hd]. exists (g_boot i st g).
  destruct (inv_hosts _ _ Hinv i (Up (mkHost n PIdle [st]))) as [_ Hhi]; [simpl; by rewrite lookup_insert_eq|]. simpl in Hhi.
  pose proof (hi_id _ _ _ _ Hhi) as Hid.
  destruct (boot_step_by g (c_net c) (c_elected c) i st F (hsTerm (v_hard (view st))) sf_tree Hd) as (Hsb & Hfl & Hw).
  { intros t a Hin. apply sf_terms. eauto. }
  { destruct (inv_hosts _ _ sf_inv i _ Hi) as [_ (_ & _ & Hc)]. intros k s (m & Hm & Hb). specialize (Hc m s k Hm Hb). unfold cast_hs in Hc. lia. }
  rewrite <-(app_nil_r (c_net c)) in Hinv |- *. eapply (safe_step P conf c A g i _ _ [] _ _ []); try done.
  - intros newer u older E. by destruct newer.
  - intros t k ?%Hw. by left.
  - unfold NewNode in Hn. destruct (validate _); [done|]. apply outcome_bind_Ret in Hn as ([r|] & Hr & [= <-]).
    pose proof Hd as []. apply (newRaft_boots _ _ _ dk_wf) in Hr. change (h_raft _) with r in Hid.
    simpl. eapply (boot_host_ok _ _ _ _ st F r); rewrite ?Hid; [|exact Hfl|exact Hr]. split; try done.
    + eapply log_ok_ext; [exact Hsb| |by rewrite Hfl|done]. intros t k ?%Hw. by left.
    + by eapply commit_ok_ext.
    + intros t k ?%Hw. by eapply dk_wit.
  - by intros m ?%not_elem_of_nil.
  - auto.
Qed.

(** ** Compaction *)

(** [st] is the storage of the idle host after [ApplySnapshot] of a snapshot at
    the applied index (src/sim/loop.go, [maybeCompact]). *)
Definition compacts (h : host S) (st : S) : Prop :=
  let l := rlog (h_raft h) in
  h_phase h = PIdle ∧ settled l ∧ a_base (absLog l) < applied l ∧
  ∃ sn e, snIndex sn = applied l ∧ snTerm sn = a_term (absLog l) (applied l) ∧ ApplySnapshot sn (storage l) = Ret (st, e).
Definition a_compact (a : alog) (k : Z) : alog := mkALog k (a_term a k) (drop (Z.to_nat (k - a_base a)) (a_ents a)).

Lemma view_compact (l : raftLog S) sn :
  log_wf l → settled l → a_base (absLog l) < snIndex sn ≤ a_last (absLog l) → snTerm sn = a_term (absLog l) (snIndex sn) →
  view_install (view (storage l)) sn = drop (Z.to_nat (snIndex sn - a_base (absLog l))) (a_ents (absLog l)).
Proof.
  intros Hwf Hset Hk Ht. pose proof (settled_stores l Hwf Hset) as Hst. pose proof (stores_last _ _ Hst) as El. destruct Hst as (Eo & _ & Ee).
  unfold view_install. rewrite El, Eo, Ee. destruct (Z.ltb_spec (snIndex sn) (a_last (absLog l))).
  - unfold a_term, a_get in Ht. destruct (Z.eqb_spec (snIndex sn) (a_base (absLog l))); [lia|].
    destruct (Z.leb_spec (snIndex sn) (a_base (absLog l))); [lia|]. unfold a_last, zlen in *.
    destruct (lookup_lt_is_Some_2 (a_ents (absLog l)) (Z.to_nat (snIndex sn - a_base (absLog l) - 1))) as [e He]; [lia|].
    rewrite He in Ht |- *. by rewrite Ht, Z.eqb_refl.
  - symmetry. apply drop_ge. unfold a_last, zlen in *. lia.
Qed.
Lemma compacts_log h st :
  log_wf (rlog (h_raft h)) → compacts h st →
  let l := rlog (h_raft h) in
  vlog st = a_compact (absLog l) (applied l) ∧ absLog (set_storage st l) = a_compact (absLog l) (applied l) ∧
  log_wf (set_storage st l) ∧ v_hard (view st) = v_hard (view (storage l)).
Proof.
  intros Hwf (_ & Hset & Hb & sn & e & Ei & Et & Ha) l. fold l in Hwf, Hset, Hb, Ei, Et, Ha. pose proof (absLog_wf l Hwf) as (Ha0 & Hal & Hac).
  pose proof Hwf as (Hv & (Hu & _ & _) & Hm & Hl). pose proof (settled_stores l Hwf Hset) as Hst. pose proof (stores_last _ _ Hst) as El.
  destruct (law_install (storage l) sn Hv) as (st' & e' & E' & Hview). { destruct Hst as (-> & _). lia. }
  rewrite Ha in E'. injection E' as <- <-. rewrite (view_compact l sn) in Hview by (done || lia || congruence).
  assert (Hvl : vlog st = a_compact (absLog l) (applied l)).
  { unfold vlog, a_compact, v_off. rewrite Hview. simpl. by rewrite Ei, Et. }
  assert (Hla : a_last (a_compact (absLog l) (applied l)) = a_last (absLog l)).
  { unfold a_last, a_compact in *. simpl. rewrite zlen_drop by lia. lia. }
  assert (Hwc : alog_wf (a_compact (absLog l) (applied l))).
  { split; [simpl; lia|]. rewrite Hla. split; [done|]. unfold a_compact. simpl.
    replace (applied l + 1) with (a_base (absLog l) + 1 + Z.of_nat (Z.to_nat (applied l - a_base (absLog l)))) by lia.
    apply contiguous_drop; [done|]. unfold a_last, zlen in *. lia. }
  destruct Hset as [Hsn Hue]. rewrite Hsn in Hu. destruct Hu as [_ Hu].
  destruct (settled_wf st (unst l) (committed l) (applied l) (a_compact (absLog l) (applied l)) Hwc) as [E1 E2]; try done.
  - by apply stores_vlog.
  - rewrite Hla, <-El. specialize (Hu Hue). destruct (unst l) as [us ue uo]. simpl in *. subst. f_equal; lia.
  - simpl. lia.
  - by rewrite Hla.
  - split_and!; try done. by rewrite Hview.
Qed.

(** A node whose snapshot moved up to an applied entry. *)
Lemma node_ok_compact g net el r st F :
  let l := rlog r in let a' := a_compact (absLog l) (applied l) in
  log_wf l → absLog (set_storage st l) = a' → a_base (absLog l) < applied l →
  node_ok P g net el r F → node_ok P g net el (set_rlog (set_storage st l) r) F.
Proof.
  intros l a' Hwf Ea Hb Hn. pose proof Hwf as (_ & _ & Hm & Hl). destruct Hn. pose proof no_log as [].
  assert (Hsec : ∀ T, commit_ok P g T (floor g (id r)) F (committed l) → secure P g T (applied l) F).
  { intros T [Hc|Hs]; [unfold l in *; lia|]. eapply secure_le; [|exact Hs]. unfold l in *. lia. }
  split; simpl; rewrite ?Ea; try done.
  - split; try done; simpl.
    + apply rep_compact; [done|]. rewrite <-(rep_last _ _ lo_rep). unfold l in *. lia.
    + exists (Term r). by apply Hsec.
    + unfold l in *. lia.
  - intros Hs. destruct (no_cand Hs). split; simpl; rewrite ?Ea; try done. destruct cd_fit as [[? _]|?]; [left|by right].
    split; [done|]. by apply Hsec.
  - intros Hs. destruct (no_lead Hs). split; simpl; rewrite ?Ea; try done. by apply Hsec.
  - eapply Forall_impl; [done|]. intros m []. by split.
Qed.
Lemma safe_compact c A g i h st :
  safe P c A g → c_hosts c !! i = Some (Up h) → compacts h st →
  inv P (mkCluster (<[i := Up (putSnapshot st h (h_phase h))]> (c_hosts c)) (c_net c) (c_elected c)) →
  safe P (mkCluster (<[i := Up (putSnapshot st h (h_phase h))]> (c_hosts c)) (c_net c) (c_elected c)) A g.
Proof.
  intros Hs Hi Hco Hinv. apply (safe_still P conf c A); eauto. simpl. pose proof (sf_hosts _ _ _ _ Hs i _ Hi) as Hh. simpl in Hh.
  destruct (inv_hosts _ _ (sf_inv _ _ _ _ Hs) i _ Hi) as [_ Hhi]. simpl in Hhi. pose proof Hh as []. pose proof ho_wf as [[Hwf Hm] Hn].
  destruct (compacts_log h st Hwf Hco) as (Ev & Ea & Hw & Eh). destruct Hco as (Hp & Hset & Hb & _).
  destruct ho_node as [F [HF Hheld]]. destruct (ho_disks _ (hi_cur _ _ _ _ Hhi)) as [[F0 Hd0] Hc0].
  pose proof (node_ok_compact g (c_net c) (c_elected c) (h_raft h) st F Hwf Ea Hb HF) as HF'.
  assert (Hd : disk_ok P g (id (h_raft h)) st F).
  { apply (disk_ok_log g (c_net c) (c_elected c) (sf_elections _ _ _ _ Hs) _ F st (h_storage h) F0 HF'); try done; simpl.
    - congruence.
    - rewrite Ea. simpl. destruct (settled_stores _ Hwf Hset) as (E & _). unfold h_storage. lia.
    - apply Hw. }
  apply host_ok_snapshot; [apply Hs|apply Hs|done| |done|by rewrite Ea|apply Hw].
  split; unfold putStorage; simpl.
  - split; [split|]; done.
  - exists F. split; [done|]. intros _ s [Hin| ->%list_elem_of_singleton]%elem_of_app; [|done]. apply Hheld; [by left|done].
  - intros s [Hin| ->%list_elem_of_singleton]%elem_of_app; [by apply ho_disks|]. split; [by exists F|]. by rewrite Eh.
  - intros s [Hin| ->%list_elem_of_singleton]%elem_of_app; [|done]. etransitivity; [by apply ho_bases|].
    change (a_base (vlog (h_storage h)) ≤ a_base (vlog st)). rewrite Ev. simpl. destruct (settled_stores _ Hwf Hset) as (E & _). unfold h_storage. lia.
  - rewrite Hp. intros x xs Ex. simpl in Ex. destruct Hset. unfold h_raft in *. congruence.
  - destruct ho_batch as [Hal Hb']. rewrite Hp in *. destruct Hb' as [Hpe _]. split; [done|]. split; [done|]. intros sn. simpl.
    destruct Hset as [Hsn _]. unfold h_raft in *. simpl. by rewrite Hsn.
Qed.
End logdrive.
