(* ===== verification/LogInput.v ===== *)
(** * The inputs of the core keep the invariant

    What [Replication] says one input does ([effect]: a leader appends and
    commits, a candidate is elected, any other node obeys a leader) carries the
    invariant of [LogInv] over it. *)

From S2P Require Import Prelude RaftTypes Storage RaftLog ReadOnly Raft Node LogSpec RaftSpec Persist Quiet.
From S2P Require Import LogSafety Election Replication Batch LogTree Cluster LogInv LogDrive.

Section loginput.
Context {S : Type} `{LogStorageLaws S} (conf : Z → Config) (P : list Z) (HP : NoDup P).
Implicit Types r : raft S.
Implicit Types F : list Entry.

(** ** What the core queues says something true *)

Section outbox.
Context (g : ghost) (net : list Message) (el : list (Z * Z)) (Htree : tree g) (Hel : elections P (voted net) g).
Context (inp : option Message) (r : raft S) (F : list Entry).
Context (Hwf : core_wf r) (Hlog : log_ok P g (id r) (absLog (rlog r)) F).
Context (Hcom : commit_ok P g (Term r) (floor g (id r)) F (committed (rlog r))).
Context (Hlead : state r = StateLeader → lead_ok P g el r F ∧ Term r ∈ terms g ∧ u_snapshot (unst (rlog r)) = None).
Context (Hinp : ∀ m0, inp = Some m0 → leader_type (mType m0) ∨ mType m0 = MsgVote → m0 ∈ net ∧ mTo m0 = id r ∧ sent_inv P g net m0).

Lemma lead_commit : state r = StateLeader → secure P g (Term r) (committed (rlog r)) (logs g (Term r)).
Proof.
  intros Hs. destruct (Hlead Hs) as ([] & _ & _). rewrite <-ll_log. destruct Hcom as [Hc|Hc]; [|done].
  eapply secure_le; [|exact ll_base]. pose proof (lo_floor _ _ _ _ _ Hlog). lia.
Qed.
Lemma told_append m : sent_ok inp r m → mType m = MsgAppend → told P g net m ∧ payload_ok (mLogIndex m) (mLogTerm m) (mEntries m).
Proof.
  intros [_ Hm] Hty. unfold told. rewrite Hty in *. destruct Hm as (Et & Hs & Hto & pr & Hpr & Ei & Elt & Ec & Hcase).
  destruct (Hlead Hs) as ([] & Ht & _). pose proof (lo_rep _ _ _ _ _ Hlog) as Hrep. pose proof (rep_last _ _ Hrep) as Hla.
  destruct (ll_prs _ _ Hto Hpr) as [_ Hnx]. destruct Hwf as [[Hlw _] Hn]. specialize (Hn _ _ Hpr). simpl in Hn.
  pose proof (absLog_wf _ Hlw) as (Hb0 & Hal & _). pose proof lead_commit as Hsec. rewrite Et.
  assert (Hreal : carried g (Term r) (mLogIndex m) (mLogTerm m) (mEntries m) → mLogIndex m + zlen (mEntries m) < u64_mod - 1 →
    (Term r ∈ terms g ∧ (carried g (Term r) (mLogIndex m) (mLogTerm m) (mEntries m) ∧ secure P g (Term r) (mCommit m) (logs g (Term r)) ∨
     mLogTerm m = 0 ∧ mEntries m = [] ∧ 0 < mLogIndex m ≤ floor g (mTo m))) ∧ payload_ok (mLogIndex m) (mLogTerm m) (mEntries m)).
  { intros Hc Hb. destruct (carried_ok g Htree _ _ _ _ Hc) as [Hco Hnz]. pose proof Hc as (_ & Hi & E & _). split.
    - split; [done|]. left. split; [done|]. rewrite Ec. auto.
    - pose proof (zlen_nonneg (mEntries m)). split_and!; [unfold is_u64; lia|done..|]. intros E0. left. rewrite E0 in E. symmetry in E.
      by apply (grown_tm_zero g Htree _ _ (tr_grown _ Htree _ Ht)) in E. }
  rewrite Hla in *. destruct Hcase as [[Hlt Ees]|[Hlt (hi & Hhi & Ees)]].
  - rewrite Ees in *. change (zlen (@nil Entry)) with 0 in *. destruct (decide (Next pr - 1 ≤ zlen F)) as [Hle|Hgt].
    + assert (Next pr - 1 = zlen F) as E by lia. apply Hreal; [|lia]. split_and!; [done|rewrite <- ?ll_log; lia..| |by intros k e ?].
      rewrite Elt, <-ll_log, Ei. apply (rep_term _ _ Hrep). destruct Hrep. lia.
    + destruct Hnx as [?|Hnx]; [lia|]. assert (E0 : mLogTerm m = 0).
      { rewrite Elt, (rep_term _ _ Hrep) by (destruct Hrep; lia). unfold tm. destruct (get F (Next pr - 1)) eqn:E; [|done]. apply get_range in E. lia. }
      pose proof (zlen_nonneg F). split; [split; [done|]; right; split_and!; try done; lia|].
      split_and!; [unfold is_u64; lia|done|done|change (zlen (@nil Entry)) with 0; lia|]. by right.
  - assert (Hzl : zlen (mEntries m) = hi - Next pr).
    { rewrite Ees, (rep_slice _ _ Hrep) by lia. rewrite zlen_take; [done|]. rewrite zlen_drop; lia. }
    apply Hreal; [|lia]. split_and!; [done|rewrite <- ?ll_log; lia..| |].
    + rewrite Elt, <-ll_log, Ei. apply (rep_term _ _ Hrep). lia.
    + intros k e. rewrite Ees, (rep_slice _ _ Hrep) by lia. intros [Hk _]%lookup_take_Some. rewrite lookup_drop in Hk.
      rewrite <-ll_log, Ei. unfold get. destruct (Z.leb_spec (Next pr - 1 + 1 + Z.of_nat k) 0); [lia|]. rewrite <-Hk. f_equal. lia.
Qed.
Lemma told_heartbeat m : sent_ok inp r m → mType m = MsgHeartbeat → told P g net m.
Proof.
  intros [_ Hm] Hty. unfold told. rewrite Hty in *. destruct Hm as (Et & Hs & Hto & pr & Hpr & Ec).
  destruct (Hlead Hs) as ([] & Ht & _). rewrite Et. split; [done|]. destruct (ll_prs _ _ Hto Hpr) as [[?|Hw] _]; [left; lia|right]. split.
  - eapply tr_down; [done|exact Hw|lia].
  - eapply secure_le; [|by apply lead_commit]. lia.
Qed.
Lemma told_snapshot m :
  sent_ok inp r m → mType m = MsgInstallSnapshot → told P g net m ∧ from_option (λ sn, snIndex sn < u64_mod - 1) True (mSnapshot m).
Proof.
  intros [_ Hm] Hty. unfold told. rewrite Hty in *. destruct Hm as (Et & Hs & Hto & Esn & Hz).
  destruct (Hlead Hs) as ([] & Ht & Hnone). rewrite Et, Esn. pose proof (lo_rep _ _ _ _ _ Hlog) as Hrep. pose proof Hrep as (Hb & _ & Htm).
  assert (a_base (absLog (rlog r)) = snIndex (v_snap (view (storage (rlog r)))) ∧
    a_bterm (absLog (rlog r)) = snTerm (v_snap (view (storage (rlog r))))) as [E1 E2] by (unfold absLog; by rewrite Hnone).
  destruct Hwf as [[(Hv & _) _] _]. destruct Hv as (Hv0 & Hv1 & _). pose proof (zlen_nonneg (v_ents (view (storage (rlog r))))).
  unfold v_last, v_off in *. simpl. split; [|lia]. split; [done|]. eexists. split; [reflexivity|]. rewrite <-E1, <-E2, <-ll_log.
  split_and!; [lia|lia|done|done].
Qed.
Lemma told_vote m : sent_ok inp r m → mType m = MsgVoteResp → told P g net m ∧ (mReject m = false → mTerm m = Term r).
Proof.
  intros [Hf Hm] Hty. unfold told. rewrite Hty in *. split; intros Hrj; destruct (Hm Hrj) as (m0 & Hi & Hty0 & Hf0 & Ht0 & Ht & Hup); [|done].
  destruct (Hinp m0 Hi) as (Hin & Hto & _); [by right|]. exists m0. split_and!; try done; [congruence|].
  rewrite Ht, Hf. intros t c Htt Hw Hs. pose proof (tr_wit _ Htree _ _ _ Hw) as Hin'. destruct Hlog.
  destruct (lo_faithful t c Hw) as [Hh|?]; [left|by right]. by eapply grant_reaches.
Qed.
(** What a leader's message of the node's term makes the node acknowledge. *)
Lemma leader_input m0 : inp = Some m0 → leader_type (mType m0) →
  mTerm m0 ∈ terms g ∧ 1 ≤ mTerm m0 ∧ mFrom m0 ≠ id r ∧ sent_inv P g net m0 ∧ mTo m0 = id r.
Proof.
  intros Hi Hty. destruct (Hinp m0 Hi) as (_ & Hto & Hsi); [by left|]. pose proof Hsi as ([] & Ht & _).
  assert (Hin : mTerm m0 ∈ terms g) by (unfold told in Ht; destruct Hty as [E|[E|E]]; rewrite E in Ht; apply Ht).
  split_and!; try done; [by apply (tr_pos _ Htree)|]. rewrite <-Hto. apply not_eq_sym. auto.
Qed.
Lemma matched_agree m0 : inp = Some m0 → mType m0 = MsgAppend → matched (absLog (rlog r)) m0 →
  let n := mLogIndex m0 + zlen (mEntries m0) in
  n ≤ zlen (logs g (mTerm m0)) ∧ agree n F (logs g (mTerm m0)) ∧ 0 ≤ n < u64_mod - 1.
Proof.
  intros Hi Hty (Hb & Hl & He) n. destruct (leader_input m0 Hi) as (Ht & _ & _ & ([] & Htold & _) & Hto); [by left|].
  unfold request_ok in sn_request. rewrite Hty in sn_request. destruct sn_request as ([Hi0 _] & _ & _ & Hbd & _).
  pose proof (zlen_nonneg (mEntries m0)). destruct Hlog. rewrite (rep_term _ _ lo_rep) in Hl by done.
  unfold told in Htold. rewrite Hty in Htold. destruct Htold as [_ [[Hc _]|(E0 & Ees & Hfl)]].
  - pose proof (carried_ok g Htree _ _ _ _ Hc) as [Hco _]. split_and!; [by apply (carried_len g _ _ _ _ Hc)| |lia|done].
    apply (carried_matched g Htree F _ _ (mLogTerm m0)); try done. intros e Hin. rewrite <-(He e Hin). symmetry. apply (rep_term _ _ lo_rep).
    apply list_elem_of_lookup in Hin as [k Hk]. rewrite (contiguous_lookup _ _ _ _ Hco Hk). lia.
  - exfalso. rewrite Hto in Hfl. pose proof (lo_rep) as (Hbl & _).
    assert (mLogIndex m0 = a_base (absLog (rlog r))) as E by lia. rewrite E0 in Hl. rewrite E in *.
    apply (grown_tm_zero g Htree F) in Hl; [lia|done|lia].
Qed.
Lemma answers_ok i : answers inp r i → 0 ≤ i < u64_mod - 1 ∧
  (i ≤ 0 ∨ Term r ∈ terms g ∧ (∀ c, c ≤ i → holds g F (Term r) c ∨ lost g (Term r) c) ∧ (i ≤ zlen (logs g (Term r)) ∨ i ≤ floor g (id r))).
Proof.
  destruct Hwf as [[Hlw _] _]. pose proof (absLog_wf _ Hlw) as (? & ? & _). pose proof Hlw as (_ & _ & ? & ?).
  intros [->|(m0 & Hi & Hty & Et & Hc)]; [split; [lia|by left]|]. destruct (leader_input m0 Hi Hty) as (Ht & _). rewrite Et in Ht.
  destruct Hc as [->|(Hap & -> & Hm)].
  - split; [lia|]. right. destruct Hcom as [Hf|Hs].
    + destruct Hlog. destruct lo_base as [T Hb]. split_and!; [done| |by right]. intros c Hc.
      apply (secure_holds P HP (voted net) g Hel T); [|done]. eapply secure_le; [|exact Hb]. lia.
    + destruct (secure_leader P HP (voted net) g Hel _ _ _ (Term r) Hs Ht) as [[Hz Ha] _]; [lia|].
      split_and!; [done| |by left]. intros c Hc. left. split; [lia|agree_down].
  - destruct (matched_agree m0 Hi Hap Hm) as (Hz & Ha & Hn). rewrite Et in *. split; [done|]. right. split_and!; [done| |by left].
    intros c Hc. left. split; [lia|agree_down].
Qed.
Lemma sent_queued m : (state r = StateCandidate → 1 ≤ Term r) → sent_ok inp r m → queued P g net r F m.
Proof.
  intros Hcand Hm. pose proof Hm as [Hf Hty].
  assert (Hrep : ∀ m', replies inp r m' → 1 ≤ Term r ∧ mTo m' ≠ id r).
  { intros m' (m0 & Hi & Hl & Ht & ->). destruct (leader_input m0 Hi Hl) as (_ & ? & ? & _). split; [lia|done]. }
  assert (Hld : state r = StateLeader → 1 ≤ Term r).
  { intros Hs. destruct (Hlead Hs) as (_ & Ht & _). by apply (tr_pos _ Htree). }
  pose proof (told_append m Hm) as Hap. pose proof (told_heartbeat m Hm) as Hhb. pose proof (told_snapshot m Hm) as Hsn.
  pose proof (told_vote m Hm) as Hvt.
  assert (Hno : ∀ m', mType m' ∉ [MsgAppendResp; MsgInstallSnapshotResp] → acking g r F m').
  { intros m' Hn i. unfold claims. destruct (mType m'); try done; destruct Hn; rewrite !elem_of_cons; auto. }
  split; [split| | |done|].
  - unfold request_ok. destruct (mType m) eqn:E; try done; [by apply Hap|by apply Hsn].
  - unfold resp_ok. destruct (mType m) eqn:E; try done; destruct Hty as (_ & _ & Ha).
    + destruct (mReject m); [done|]. by apply answers_ok.
    + by apply answers_ok.
  - unfold termed, leader_type. intros Ht. destruct (mType m) eqn:E; try (exfalso; clear -Ht; intuition congruence).
    1: by destruct Hty as (Hs & -> & _); auto.
    all: destruct Hty as (-> & Hs & _); auto; by apply (Hrep m).
  - unfold leader_type, reply_type. rewrite Hf. intros Ht. destruct (mType m) eqn:E; try (exfalso; clear -Ht; intuition congruence).
    1,3,5: by destruct Hty as (_ & _ & ? & _).
    2: by apply Hrep.
    all: destruct Hty as (_ & Hs & _); by apply Hrep.
  - unfold told in *. destruct (mType m) eqn:E; try done; [apply Hvt|apply Hap|apply Hhb|apply Hsn]; done.
  - destruct (decide (mType m ∈ [MsgAppendResp; MsgInstallSnapshotResp])) as [Hin|Hn]; [|by apply Hno].
    intros i. unfold claims. rewrite !elem_of_cons in Hin. destruct Hin as [E|[E|[]%not_elem_of_nil]]; rewrite E in *; destruct Hty as (Et & _ & Ha).
    + destruct (mReject m); [done|]. intros [= <-]. destruct (answers_ok _ Ha) as [_ [?|?]]; [by left|right]. by rewrite Et.
    + intros [= <-]. destruct (answers_ok _ Ha) as [_ [?|?]]; [by left|right]. by rewrite Et.
  - intros v t c. unfold ballot. destruct (mType m) eqn:E; try done; [|destruct (mReject m) eqn:Er; [done|]]; intros [= _ <- _].
    + apply Hty.
    + by apply Hvt.
Qed.
End outbox.
(** ** One input *)

Section input.
Context (c : Cluster S) (A : list (Z * Entry)) (g : ghost) (i : Z) (h : host S) (n : Node S) (inp : option Message).
#[local] Abbreviation r := (h_raft h).
#[local] Abbreviation r' := (n_r n).
#[local] Abbreviation net := (c_net c).
#[local] Abbreviation el := (c_elected c).
#[local] Abbreviation h' := (mkHost n PIdle (h_disks h)).
#[local] Abbreviation el' := (elected_by i n ++ c_elected c).
Context (Hsafe : safe P c A g) (H2 : 2 ≤ zlen P) (Hi : c_hosts c !! i = Some (Up h)) (Hidle : h_phase h = PIdle).
(** The last batch was handed out. *)
Context (Hmsgs : msgs r = []) (Hset : settled (rlog r)) (Hprev : hardState r = prevHardSt r).
(** The input was sent to this node, or comes from a client. *)
Context (Hsent : ∀ m0, inp = Some m0 → m0 ∈ net ∧ mTo m0 = i ∨ mType m0 = MsgPropose ∨ mType m0 = MsgReadIndex).
Context (Hstep : stepped (requested net) (granted net i) r r') (Hpend : pendingReady n = None).
Context (Hevo : evolves (rlog r) (rlog r')).
Context (Hinv : inv P (mkCluster (<[i := Up h']> (c_hosts c)) net el')).

Lemma host_before : host_inv P net i h ∧ host_ok P g net el h.
Proof. split; [apply (inv_hosts _ _ (sf_inv _ _ _ _ Hsafe) i _ Hi)|apply (sf_hosts _ _ _ _ Hsafe i _ Hi)]. Qed.
Lemma id_before : id r = i.
Proof. apply host_before. Qed.
Lemma id_after : id r' = i.
Proof. rewrite <-id_before. apply Hstep. Qed.
Lemma log_before : ∃ F, node_ok P g net el r F ∧ ∀ s, s ∈ h_disks h → disk_ok P g i s F ∧ hsTerm (v_hard (view s)) = Term r.
Proof.
  destruct host_before as [Hh []]. destruct ho_node as [F [Hn Hd]]. exists F. split; [done|]. intros s Hs. split.
  - rewrite <-id_before. apply Hd; [by left|done].
  - destruct Hh. unfold phase_ok in hi_phase. rewrite Hidle in hi_phase. specialize (hi_phase s Hs). rewrite <-Hprev in hi_phase.
    by injection hi_phase.
Qed.
Lemma ballots_past k t : granted net k t i → t ≤ Term r.
Proof. intros (m & Hm & Hb). destruct host_before as [[] _]. destruct (hi_cast m t k Hm Hb) as [(_ & _ & ?) _]. lia. Qed.
Lemma sent_before m0 : inp = Some m0 → leader_type (mType m0) ∨ mType m0 = MsgVote ∨ reply_type (mType m0) →
  m0 ∈ net ∧ mTo m0 = i ∧ sent_inv P g net m0.
Proof.
  intros E Hty. destruct (Hsent m0 E) as [[? ?]|Hc]; [split_and!; [done..|by apply (sf_msgs _ _ _ _ Hsafe)]|].
  exfalso. clear -Hty Hc. unfold leader_type, reply_type in Hty. intuition congruence.
Qed.
Lemma terms_elected t a : (t, a) ∈ el → t ∈ terms g.
Proof. intros Hin. apply (sf_terms _ _ _ _ Hsafe). eauto. Qed.
Lemma term_grows : Term r ≤ Term r'.
Proof. apply Hstep. Qed.

Lemma no_install : log_wf (rlog r) → a_base (absLog (rlog r')) = a_base (absLog (rlog r)) → u_snapshot (unst (rlog r')) = None.
Proof.
  intros (_ & _ & ? & _) E. destruct Hevo as [[]|[sn []]]; [rewrite gr_snap; apply Hset|].
  rewrite re_log in E. simpl in E. unfold h_raft in *. lia.
Qed.

(** What the input appended stands apart from the disk. *)
Lemma input_apart : log_wf (rlog r) → storage (rlog r') = storage (rlog r) → apart (rlog r').
Proof.
  intros Hlw Es e es Ee. destruct host_before as [Hh Hho]. destruct (ho_disks _ _ _ _ _ Hho _ (hi_cur _ _ _ _ Hh)) as [_ Hc].
  destruct Hevo as [[]|[sn []]].
  - rewrite Es. destruct (gr_parts Hset e es Ee) as [Hle Hap]. pose proof (settled_stores _ Hlw Hset) as Hst%stores_vlog.
    rewrite Hst. split; [unfold h_storage in Hc; lia|done].
  - unfold absLog in re_log. rewrite re_snap in re_log. injection re_log as Eu. by rewrite Eu in Ee.
Qed.
(** The host after the input, from the node. *)
Lemma input_host_ok g' F F' :
  core_wf r' → node_ok P g net el r F → tree g' → grown g' F → node_ok P g' net el' r' F' →
  (∀ s, s ∈ h_disks h → disk_ok P g' i s F) → host_ok P g' net el' h'.
Proof.
  intros Hw' Hn Ht' HF Hn' Hd. destruct host_before as [Hh Hho]. pose proof (ho_wf _ _ _ _ _ Hho) as [[Hlw _] _].
  pose proof Hw' as [[Hlw' _] _]. pose proof id_after as Hid. destruct Hstep as [[] _].
  assert (Hcc : committed (rlog r) ≤ committed (rlog r')) by (destruct Hevo as [[]|[sn []]]; lia).
  assert (Hno : ∀ sn, u_snapshot (unst (rlog r)) ≠ Some sn) by (destruct Hset as [E _]; by rewrite E).
  split; try done; unfold h_raft; simpl.
  - exists F'. split; [done|]. rewrite Hid. intros [Hs'|[]] s Hs.
    assert (F' = F) as ->; [|by apply Hd]. pose proof (settled_stores _ Hlw' Hs') as H1'. pose proof (settled_stores _ Hlw Hset) as H1.
    unfold h_raft in H1'. simpl in H1'. rewrite e_storage in H1'. pose proof (stores_inj _ _ _ H1' H1) as Ea. destruct Hn as [[] _ _ _ _ _], Hn' as [[] _ _ _ _ _].
    rewrite Ea in lo_rep0. by apply (grown_unique g' Ht' (absLog (rlog r))).
  - intros s Hs. rewrite Hid. split; [exists F; by apply Hd|]. pose proof (proj2 (ho_disks _ _ _ _ _ Hho s Hs)). lia.
  - unfold h_storage, h_raft. simpl. rewrite e_storage. apply (ho_bases _ _ _ _ _ Hho).
  - by apply input_apart.
  - unfold batch_ok, h_raft. simpl. split.
    + intros sn Hsn. destruct Hevo as [[]|[sn' []]]; [rewrite gr_snap in Hsn; by destruct (Hno sn)|].
      unfold absLog in re_log. rewrite re_snap in re_log. by injection re_log.
    + split; [done|]. intros sn Hsn. destruct Hevo as [[]|[sn' []]]; [rewrite gr_snap in Hsn; by destruct (Hno sn)|].
      rewrite re_storage. rewrite re_snap in Hsn. injection Hsn as <-. by apply settled_install.
Qed.
(** *** Obeying a leader *)

Section obeying.
Context (F : list Entry) (Hn : node_ok P g net el r F) (Hlw : log_wf (rlog r)) (m0 : Message) (Hi0 : inp = Some m0) (Et : mTerm m0 = Term r').
#[local] Abbreviation l := (rlog r).
#[local] Abbreviation t := (Term r').
Definition next_log (a : alog) (k : Z) : Prop := ∃ F', log_ok P g i a F' ∧ commit_ok P g t (floor g i) F' k.

Lemma base_committed : 0 ≤ a_base (absLog l) ≤ committed l ∧ floor g i ≤ a_base (absLog l) ∧ committed l ≤ zlen F.
Proof.
  pose proof Hlw as (_ & _ & ? & ?). pose proof (absLog_wf _ Hlw) as (? & _). destruct Hn as [[] _ _ _ _ _]. rewrite id_before in lo_floor.
  rewrite <-(rep_last _ _ lo_rep). unfold h_raft in *. lia.
Qed.
Lemma log_ok_before : log_ok P g i (absLog l) F.
Proof. rewrite <-id_before. apply Hn. Qed.
Lemma commit_before : commit_ok P g t (floor g i) F (committed l).
Proof.
  rewrite <-id_before. destruct (no_commit _ _ _ _ _ _ Hn); [by left|right]. eapply secure_mono; [apply term_grows|done].
Qed.
Lemma wit_before u k : wit g i u k → u ≤ t.
Proof. intros Hw. rewrite <-id_before in Hw. apply (no_wit _ _ _ _ _ _ Hn) in Hw. pose proof term_grows. unfold h_raft in *. lia. Qed.
(** A leader's log takes the place of one that disagreed with it. *)
Lemma log_ok_replace a k F' :
  t ∈ terms g → rep a F' → grown g F' → F' = F ∨ F' = pre k (logs g t) ∧ ¬ agree k F (logs g t) →
  (∃ T, secure P g T (a_base a) F') → floor g i ≤ a_base a → log_ok P g i a F'.
Proof.
  intros Ht Hr HF' Hc Hb Hf. pose proof log_ok_before as []. split; try done. destruct Hc as [->|[-> Hna]]; [done|].
  apply (faithful_replace g i F k t Ht wit_before Hna lo_faithful).
Qed.
Lemma obeys_append : mType m0 = MsgAppend → obeys m0 l (rlog r') → next_log (absLog (rlog r')) (committed (rlog r')).
Proof.
  intros Hty Ho. unfold obeys in Ho. rewrite Hty in Ho. destruct Ho as (_ & Hci & Hat & -> & ->).
  destruct (sent_before m0 Hi0) as (_ & Hto & _ & Htold & _); [left; by left|]. unfold told in Htold. rewrite Hty, Et in Htold.
  destruct Htold as [Ht Hcase]. pose proof base_committed as (Hb & Hfl & Hcl). pose proof log_ok_before as [].
  destruct Hcase as [[Hca Hs]|(E0 & _ & Hf)].
  2: { exfalso. rewrite Hto in Hf. assert (mLogIndex m0 = a_base (absLog l)) as E by lia. rewrite E0, E in *.
       rewrite (rep_term _ _ lo_rep) in Hat by lia. apply (grown_tm_zero g (sf_tree _ _ _ _ Hsafe)) in Hat; [lia|done|]. destruct lo_rep. lia. }
  destruct (accept_carried g (sf_tree _ _ _ _ Hsafe) (absLog l) F t _ _ _ lo_rep lo_grown Hca) as (F' & Hr' & HF' & Ha' & Hai & HcF); [lia|done|].
  exists F'. assert (Eb : a_base (a_accept (absLog l) (mLogIndex m0) (mEntries m0)) = a_base (absLog l)).
  { unfold a_accept. by destruct (_ =? 0). }
  split.
  - eapply log_ok_replace; try done; rewrite Eb; [|done]. destruct lo_base as [T HT]. exists T. eapply secure_agree; [|exact HT]. agree_down.
  - set (k := Z.min _ _). destruct (decide (k ≤ committed l)) as [Hk|Hk].
    + rewrite Z.max_l by done. destruct commit_before as [?|Hse]; [by left|right]. eapply secure_agree; [|exact Hse]. agree_down.
    + rewrite Z.max_r by lia. right. apply (secure_agree P g t k (logs g t)); [|eapply secure_le; [|exact Hs]; lia].
      eapply agree_le; [|exact Ha']. lia.
Qed.
Lemma obeys_heartbeat : mType m0 = MsgHeartbeat → obeys m0 l (rlog r') → next_log (absLog (rlog r')) (committed (rlog r')).
Proof.
  intros Hty Ho. unfold obeys in Ho. rewrite Hty in Ho. destruct Ho as (-> & ->).
  destruct (sent_before m0 Hi0) as (_ & Hto & _ & Htold & _); [left; right; by left|]. unfold told in Htold. rewrite Hty, Et, Hto in Htold.
  destruct Htold as [Ht Hcase]. pose proof base_committed as (Hb & Hfl & Hcl). exists F. split; [apply log_ok_before|].
  set (k := Z.min _ _). destruct (decide (k ≤ committed l)) as [Hk|Hk]; [rewrite Z.max_l by done; apply commit_before|].
  rewrite Z.max_r by lia. right. destruct Hcase as [?|[Hw Hs]]; [lia|]. apply (secure_le P g t _ k) in Hs; [|lia].
  apply (tr_down _ (sf_tree _ _ _ _ Hsafe) _ _ _ k) in Hw; [|lia]. pose proof log_ok_before as [].
  destruct (lo_faithful _ _ Hw) as [[_ Ha]|(u & Hu & Htu & Hno)]; [by eapply secure_agree|]. exfalso. apply Hno.
  destruct (secure_leader P HP _ g (sf_elections _ _ _ _ Hsafe) t k (logs g t) u Hs Hu) as [[Hz Ha] _]; [lia|].
  split; [by apply (agree_zlen _ _ _ Ha)|by apply agree_sym].
Qed.
Lemma obeys_snapshot : mType m0 = MsgInstallSnapshot → obeys m0 l (rlog r') → next_log (absLog (rlog r')) (committed (rlog r')).
Proof.
  intros Hty Ho. unfold obeys in Ho. rewrite Hty in Ho. destruct Ho as (sn & Esn & Hci & -> & Hcase).
  destruct (sent_before m0 Hi0) as (_ & _ & _ & Htold & _); [left; right; by right|]. unfold told in Htold. rewrite Hty, Et, Esn in Htold.
  destruct Htold as (Ht & sn' & [= <-] & Hk & Hst & Hs). pose proof base_committed as (Hb & Hfl & Hcl). pose proof log_ok_before as [].
  set (k := snIndex sn) in *. pose proof (tr_grown _ (sf_tree _ _ _ _ Hsafe) t Ht) as HT. rewrite (rep_term _ _ lo_rep) in Hcase by lia.
  destruct Hcase as [[Ek ->]|[Nk ->]].
  - exists F. split; [apply log_ok_before|]. right. eapply secure_agree; [|exact Hs].
    apply (carried_match g (sf_tree _ _ _ _ Hsafe)); [done..|lia|congruence].
  - assert (Hp : secure P g t k (pre k (logs g t))) by (eapply secure_agree; [apply agree_pre|exact Hs]).
    exists (pre k (logs g t)). split; [|by right]. apply (log_ok_replace _ k); try done.
    + apply rep_snapshot; [lia|done].
    + by apply grown_pre.
    + right. split; [done|]. intros Ha. apply Nk. rewrite Hst. by apply (agree_tm _ _ _ k Ha).
    + by exists t.
    + simpl. lia.
Qed.
End obeying.

(** *** Not becoming leader *)

Lemma shifts_log F :
  node_ok P g net el r F → log_wf (rlog r) → shifts inp r r' →
  ∃ F', log_ok P g i (absLog (rlog r')) F' ∧ commit_ok P g (Term r') (floor g i) F' (committed (rlog r')) ∧
    (same_entries (rlog r) (rlog r') → F' = F).
Proof.
  intros Hn Hlw Hsh. destruct (decide (absLog (rlog r') = absLog (rlog r) ∧ committed (rlog r') = committed (rlog r))) as [[E1 E2]|Hne].
  { exists F. rewrite E1, E2. split_and!; [by apply log_ok_before|by apply commit_before|done]. }
  destruct (sh_log _ _ _ Hsh) as [?|(m0 & Hi0 & Et & Ho)]; [done|].
  assert (Hnext : next_log (absLog (rlog r')) (committed (rlog r'))).
  { destruct (mType m0) eqn:Hty; try (unfold obeys in Ho; by rewrite Hty in Ho).
    - by apply (obeys_append F Hn Hlw m0).
    - by apply (obeys_heartbeat F Hn Hlw m0).
    - by apply (obeys_snapshot F Hn Hlw m0). }
  destruct Hnext as [F' [H3 H4]]. exists F'. split_and!; [done..|]. intros Hse. by destruct Hne.
Qed.

(** A later term was won by votes this node did not take part in. *)
Lemma doomed_later T u : Term r < T ≤ u → u ∈ terms g → doomed P net i T.
Proof.
  intros HT Hu. apply list_elem_of_split in Hu as (newer & older & E).
  destruct (sf_elections _ _ _ _ Hsafe newer u older E) as (Q & HQ & Hv). exists Q. split; [done|]. intros w Hw.
  destruct (Hv w Hw) as [[k Hk] _]. assert (Hwi : w ≠ i) by (intros ->; apply ballots_past in Hk; lia).
  assert (Hng : ¬ granted net i T w).
  { intros Hg. apply (granted_requested P c T i w (sf_inv _ _ _ _ Hsafe)) in Hg; [|done]. apply ballots_past in Hg. lia. }
  split_and!; [done..|]. exists u, k. split_and!; [lia| |done]. intros [= -> ->]. done.
Qed.
Lemma stands F :
  node_ok P g net el r F → core_wf r' → absLog (rlog r') = absLog (rlog r) → committed (rlog r') = committed (rlog r) →
  Term r' = Term r + 1 → (∀ m, m ∈ msgs r' → sent_ok inp r' m) → cand_ok P g net el r' F.
Proof.
  intros Hn Hw Ea Ec Et Hs. pose proof id_after as Hid. pose proof (sf_tree _ _ _ _ Hsafe) as Htree.
  destruct (log_ok_before F Hn) as []. split; rewrite ?Hid, ?Ea, ?Ec, ?Et.
  - intros Hin. pose proof (inv_elected _ _ (sf_inv _ _ _ _ Hsafe) _ _ Hin) as He.
    destruct (majority_other P (list_to_set P) i H2) as (b & Hb & Hbi).
    { rewrite size_list_to_set by done. pose proof (Z.div_lt (zlen P) 2). unfold zlen in *. lia. }
    apply elem_of_list_to_set in Hb. apply (was_elected_self conf P c _ i b (sf_inv _ _ _ _ Hsafe)) in He; [|done..]. apply ballots_past in He. lia.
  - intros m [Hm|Hm]%elem_of_app Hty Hf Htm.
    + exfalso. assert (granted net i (mTerm m) i) as ?%ballots_past; [|lia]. exists m. split; [done|]. unfold ballot. by rewrite Hty, Hf.
    + destruct (Hs m Hm) as [_ Hv]. rewrite Hty, Ea in Hv. destruct Hv as (_ & _ & -> & ->).
      split; [by apply rep_last|by apply rep_lastTerm].
  - rewrite Z.add_simpl_r, <-id_before. apply Hn.
  - rewrite Z.add_simpl_r. destruct (decide (Term r < tm F (zlen F))) as [Hlt|Hge].
    { right. destruct (host_before) as [[] _]. pose proof (vi_term _ _ hi_VI). destruct (tm_get F (zlen F)) as (e & He & Ee); [lia|].
      destruct (lo_grown _ _ He) as [Hin _]. apply (doomed_later _ (eTerm e)); [lia|done]. }
    assert (Hall : ∀ j, tm F j < Term r + 1).
    { intros j. destruct (get F j) as [e|] eqn:E.
      - apply get_range in E. pose proof (grown_mono g Htree F j (zlen F) lo_grown). lia.
      - unfold tm. rewrite E. simpl. destruct (host_before) as [[] _]. pose proof (vi_term _ _ hi_VI). lia. }
    destruct lo_base as [T [Hb|(u & k & HT & Hce & Hk & Ha)]]; [left; split; [done|by left]|].
    destruct (decide (u ≤ Term r)) as [Hu|Hu].
    + left. split; [done|]. right. by exists u, k.
    + right. apply (doomed_later _ u); [lia|apply Hce].
Qed.
Lemma shifts_node F : node_ok P g net el r F → log_wf (rlog r) → shifts inp r r' → ∃ F', node_ok P g net el r' F'.
Proof.
  intros Hn Hlw Hsh. destruct (shifts_log F Hn Hlw Hsh) as (F' & Hl & Hc & Hsame). exists F'. pose proof id_after as Hid. rewrite <-Hid in Hl, Hc.
  destruct Hsh. destruct sh_msgs as (ms & Ems & Hf). rewrite Hmsgs in Ems. simpl in Ems. split; try done.
  - rewrite Hid. intros u k. by apply (wit_before F Hn).
  - intros Hs. destruct (sh_cand Hs) as [Hse Hcase]. rewrite (Hsame Hse). destruct Hse as [Ea Ec].
    assert (Hms : ∀ m, m ∈ msgs r' → sent_ok inp r' m) by (rewrite Ems; by apply Forall_forall).
    destruct Hcase as [[Hs0 Et]|Et]; [|by apply stands].
    destruct (no_cand _ _ _ _ _ _ Hn Hs0). split; rewrite ?Ea, ?Ec, ?Et, ?sh_id; try done.
    intros m [Hm|Hm]%elem_of_app Hty Hf' Htm; [apply cd_votes; auto; rewrite Hmsgs; apply elem_of_app; by left|].
    destruct (Hms m Hm) as [_ Hv]. rewrite Hty, Ea in Hv. destruct Hv as (_ & _ & -> & ->).
    pose proof (lo_rep _ _ _ _ _ (no_log _ _ _ _ _ _ Hn)). split; [by apply rep_last|by apply rep_lastTerm].
  - rewrite Ems. eapply Forall_impl; [exact Hf|]. intros m Hm. apply (sent_queued g net el (sf_tree _ _ _ _ Hsafe) (sf_elections _ _ _ _ Hsafe) inp); try done.
    + intros m0 Hi0 Hty. rewrite Hid. apply sent_before; tauto.
    + intros Hs. destruct Hstep as [_ []]. apply vi_self. by left.
Qed.
Lemma safe_shifts : shifts inp r r' → safe P (mkCluster (<[i := Up h']> (c_hosts c)) net el') A g.
Proof.
  intros Hsh. destruct log_before as (F & Hn & Hd). destruct host_before as [_ Hho]. pose proof (ho_wf _ _ _ _ _ Hho) as [[Hlw _] _].
  destruct (shifts_node F Hn Hlw Hsh) as [F' Hn']. assert (Eel : elected_by i n = []).
  { unfold elected_by, Node_State. rewrite decide_False; [done|]. apply Hsh. }
  pose proof Hinv as Hinv'. rewrite Eel in Hinv' |- *. apply (safe_still P conf c A); try done; [|by auto]. simpl.
  pose proof (input_host_ok g F F') as Hok. rewrite Eel in Hok. apply Hok; try done; try apply Hsh; try apply Hn; [apply Hsafe|].
  intros s Hs. by apply Hd.
Qed.

(** *** Leading *)

Section leading.
Context (F es : list Entry) (Hn : node_ok P g net el r F) (Hcw : core_wf r) (Hs : state r = StateLeader) (Hld : leads inp r r').
Context (Ees : absLog (rlog r') = a_extend (absLog (rlog r)) es) (Hfr : fresh_entries (Term r) (zlen F) es).
#[local] Abbreviation t := (Term r).
#[local] Abbreviation cc := (committed (rlog r')).

Lemma lead_before : lead_ok P g el r F ∧ t ∈ terms g.
Proof. pose proof (no_lead _ _ _ _ _ _ Hn Hs) as Hl. split; [done|]. apply (terms_elected t (id r)), Hl. Qed.
Lemma lead_term : Term r' = t.
Proof. apply Hld. Qed.
Lemma lead_ack p k : acks inp t p k → k ≤ 0 ∨ wit g p t k ∧ (k ≤ zlen F ∨ k ≤ floor g p).
Proof.
  intros (m0 & Hi0 & <- & Ht & <- & Hty). destruct lead_before as [[] _]. rewrite ll_log, <-Ht.
  destruct (sent_before m0 Hi0) as (_ & _ & _ & _ & Ha). { right. right. unfold reply_type. tauto. }
  assert (claims m0 = Some (mLogIndex m0)) as Hc. { unfold claims. destruct Hty as [[-> ->]| ->]; done. }
  destruct (Ha _ Hc) as [?|(_ & ? & ?)]; [by left|by right].
Qed.
Lemma lead_prs p pr' : p ≠ i → prs r' !! p = Some pr' →
  (Match pr' ≤ 0 ∨ wit g p t (Match pr')) ∧ (Next pr' - 1 ≤ zlen F ∨ Next pr' - 1 ≤ floor g p).
Proof.
  intros Hp Hpr. rewrite <-id_before in Hp. destruct (ld_prs _ _ _ Hld p pr' Hp Hpr) as (pr & Hpr0 & Hm & Hx).
  destruct lead_before as [[] _]. destruct (ll_prs p pr Hp Hpr0) as [Hm0 Hx0]. split.
  - destruct Hm as [->|[?|[? _]]%lead_ack]; [done|by left|by right].
  - destruct Hx as [?|[?|[_ ?]]%lead_ack]; [|pose proof (zlen_nonneg F); left; lia|done].
    destruct Hx0; [left|right]; lia.
Qed.
Lemma lead_rep : rep (absLog (rlog r')) (F ++ es).
Proof. rewrite Ees. apply rep_extend, Hn. Qed.
Lemma lead_tree : tree (g_append t es g).
Proof. destruct lead_before as [[] Ht]. apply tree_append; [apply Hsafe|done|]. by rewrite <-ll_log. Qed.
(** A new commit index is in the log as it was on disk. *)
Lemma lead_commits : commits r' →
  start g t < cc ≤ zlen F ∧ ∃ Q, majority P Q ∧ ∀ q, q ∈ Q → q = i ∨ wit g q t cc.
Proof.
  intros (Q & HQ & Ht & Hq). destruct lead_before as [[] Hin]. pose proof (tr_pos _ (sf_tree _ _ _ _ Hsafe) t Hin) as Hpos.
  destruct (ld_wf _ _ _ Hld) as [[Hlw' _] _]. pose proof Hlw' as (_ & _ & ? & _). rewrite (rep_term _ _ lead_rep), lead_term in Ht by lia.
  destruct (tm_get (F ++ es) cc) as (e & He & Ete); [lia|]. rewrite Ht in Ete. pose proof (get_range _ _ _ He) as Hcc.
  assert (Hst : start g t < cc).
  { destruct (decide (cc ≤ start g t)) as [Hle|]; [|lia]. pose proof (tr_old _ lead_tree t cc e Hin) as Ho. simpl in Ho.
    rewrite decide_True, <-ll_log in Ho by done. specialize (Ho He Hle). lia. }
  destruct host_before as [[] _]. rewrite (ld_peers _ _ _ Hld) in Hq. unfold quorum in HQ. rewrite (ld_peers _ _ _ Hld) in HQ.
  assert (HQ' : majority P Q). { split; [intros v Hv; rewrite <-hi_peers; by apply Hq|]. unfold zlen in *. by rewrite <-hi_peers. }
  assert (Hw : ∀ q, q ∈ Q → q = i ∨ wit g q t cc).
  { intros q Hq'. destruct (decide (q = i)) as [|Hne]; [by left|right]. destruct (Hq q Hq') as [_ (pr & Hpr & Hm)].
    destruct (lead_prs q pr Hne Hpr) as [[?|Hw] _]; [lia|]. by apply (tr_down _ (sf_tree _ _ _ _ Hsafe) _ _ (Match pr)). }
  split; [|by exists Q]. split; [done|]. destruct (majority_other P Q i H2 (proj2 HQ')) as (q & Hq' & Hqi).
  destruct (Hw q Hq') as [?|Hwq]; [done|]. rewrite ll_log. destruct (sf_wit _ _ _ _ Hsafe q t cc Hwq) as [?|(u & Hu & Htu & Hno)]; [done|].
  exfalso. apply Hno. apply (chosen_kept P HP _ g (sf_elections _ _ _ _ Hsafe) t cc Q); try done. intros v Hv.
  destruct (Hw v Hv) as [->|?]; [right|by left]. intros u' Hu' [k Hk%ballots_past]. lia.
Qed.
(** [B] holds the commit index the leader counted itself in for. *)
Context (B : Z → Prop) (HB : ∀ k, B k → k = cc ∧ commits r') (HcB : cc = committed (rlog r) ∨ B cc).
Definition g_lead : ghost := g_note i t B (floor g i) (g_append t es g).
#[local] Abbreviation F' := (F ++ es).

Lemma lead_logs : logs g_lead t = F'.
Proof. simpl. rewrite decide_True by done. destruct lead_before as [[] _]. by rewrite <-ll_log. Qed.
Lemma lead_step_by : step_by i t g g_lead net [] el el'.
Proof.
  destruct lead_before as [[] Ht]. pose proof lead_tree as Ht'. split; [apply Hsafe|by apply tree_note|..].
  - eapply gext_trans; [by apply gext_append|by apply gext_note].
  - intros w u k [?|(-> & -> & _)]; [by left|by right].
  - intros w Hw. simpl. by rewrite decide_False.
  - apply terms_elected.
  - intros u Hu. simpl. case_decide as E; [right|by left]. by rewrite E, <-id_before.
  - intros k s Hk. by apply (ballots_past k).
  - by intros m ?%not_elem_of_nil.
  - exists (elected_by i n). split; [done|]. intros u a. unfold elected_by. case_decide; [|by intros ?%not_elem_of_nil].
    by intros [= _ ->]%list_elem_of_singleton.
Qed.
Lemma lead_wit u k : wit g_lead i u k → wit g i u k ∨ u = t ∧ k ≤ zlen F.
Proof.
  intros [?|(_ & -> & j & [-> Hj]%HB & Hk)]; [by left|right]. split; [done|]. pose proof (proj1 (lead_commits Hj)). lia.
Qed.
Lemma lead_holds k : k ≤ zlen F → holds g_lead F t k.
Proof.
  intros Hk. unfold holds. rewrite lead_logs, zlen_app. pose proof (zlen_nonneg es). split; [lia|]. by apply agree_sym, agree_app.
Qed.
Lemma lead_log_ok a : log_ok P g i a F → log_ok P g_lead i a F.
Proof.
  intros Hl. eapply log_ok_ext; [apply lead_step_by| | |done].
  - intros u k [?|[-> Hk]]%lead_wit; [by left|right; left]. by apply lead_holds.
  - simpl. rewrite decide_True by done. pose proof (lo_floor _ _ _ _ _ Hl). lia.
Qed.
Lemma lead_commit_ok : commit_ok P g_lead t (floor g_lead i) F' cc.
Proof.
  pose proof lead_step_by as Hsb. destruct HcB as [->|Hb].
  - pose proof (no_commit _ _ _ _ _ _ Hn) as Hc. rewrite id_before in Hc. apply (commit_ok_ext P _ _ _ _ _ _ _ _ Hsb _ _ (floor g_lead i)) in Hc.
    + destruct Hc as [?|Hc]; [by left|right]. eapply secure_agree; [|exact Hc]. apply agree_app. by apply base_committed, Hcw.
    + apply (gx_floor _ _ (sb_gext _ _ _ _ _ _ _ _ Hsb)).
  - right. destruct (HB _ Hb) as [_ Hcs]. destruct (lead_commits Hcs) as [Hcc (Q & HQ & Hq)]. right. exists t, cc.
    rewrite lead_logs. split_and!; [done| |done|done]. destruct lead_before as [_ Ht]. split_and!; [done|simpl; lia| |].
    { rewrite lead_logs, zlen_app. pose proof (zlen_nonneg es). lia. }
    exists Q. split; [done|]. intros q [->|?]%Hq; [right|by left]. split_and!; [done..|]. by exists cc.
Qed.
Lemma lead_lead_ok : lead_ok P g_lead el' r' F'.
Proof.
  pose proof lead_step_by as Hsb. pose proof Hsb as []. destruct lead_before as [[] Ht]. pose proof id_after as Hid. pose proof lead_term as Et.
  split; rewrite ?Hid, ?Et.
  - apply elem_of_app. right. by rewrite <-id_before.
  - by rewrite lead_logs.
  - rewrite Ees. simpl. eapply secure_agree; [|apply (secure_ext g); done]. apply agree_app. apply (lo_rep _ _ _ _ _ (no_log _ _ _ _ _ _ Hn)).
  - intros p pr' Hp Hpr. destruct (lead_prs p pr' Hp Hpr) as [Hm Hx]. split.
    + destruct Hm; [by left|right]. by apply (gx_wit _ _ sb_gext).
    + rewrite zlen_app. pose proof (zlen_nonneg es). pose proof (gx_floor _ _ sb_gext p). destruct Hx; [left|right]; lia.
Qed.
Lemma lead_node_ok : node_ok P g_lead net el' r' F'.
Proof.
  pose proof lead_step_by as Hsb. pose proof Hsb as []. pose proof id_after as Hid. pose proof lead_term as Et. destruct lead_before as [_ Ht].
  assert (Hlo : log_ok P g_lead i (absLog (rlog r')) F').
  { pose proof (lead_log_ok _ (log_ok_before F Hn)) as []. split.
    - apply lead_rep.
    - rewrite <-lead_logs. by apply (tr_grown _ sb_tree').
    - by apply faithful_extend.
    - rewrite Ees. simpl. destruct lo_base as [T HT]. exists T. eapply secure_agree; [|exact HT]. apply agree_app, lo_rep.
    - by rewrite Ees. }
  split; rewrite ?Hid, ?Et; try done.
  - apply lead_commit_ok.
  - intros u k [?|[_ ->]]%sb_wit; [|done]. rewrite <-Et. by apply (wit_before F Hn u k).
  - rewrite (ld_state _ _ _ Hld). done.
  - intros _. apply lead_lead_ok.
  - destruct (ld_msgs _ _ _ Hld) as (ms & Ems & Hf). rewrite Hmsgs in Ems. simpl in Ems. rewrite Ems. eapply Forall_impl; [exact Hf|].
    intros m Hm. pose proof (step_elections P _ _ _ _ _ _ _ _ [] Hsb (sf_elections _ _ _ _ Hsafe) eq_refl) as Hel. rewrite app_nil_r in Hel.
    apply (sent_queued g_lead net el' sb_tree' (Hel ltac:(by intros [] ? ?)) inp); rewrite ?Hid, ?Et; try done.
    + apply Hld.
    + apply lead_commit_ok.
    + intros _. split_and!; [apply lead_lead_ok|done|]. apply no_install; [apply Hcw|by rewrite Ees].
    + intros m0 Hi0 Hty. destruct (sent_before m0 Hi0) as (Hin & Hto & Hsi); [tauto|]. split_and!; [done..|].
      rewrite <-(app_nil_r net). by eapply sent_inv_ext.
    + intros _. by apply (tr_pos _ sb_tree').
Qed.

Lemma lead_disk_ok s : disk_ok P g i s F → hsTerm (v_hard (view s)) = t → disk_ok P g_lead i s F.
Proof.
  intros [] Et. pose proof lead_step_by as Hsb. split; try done.
  - by apply lead_log_ok.
  - by eapply commit_ok_ext.
  - intros u k [?|[-> _]]%lead_wit; [by eapply dk_wit|lia].
Qed.
Lemma lead_safe : safe P (mkCluster (<[i := Up h']> (c_hosts c)) net el') A g_lead.
Proof.
  pose proof lead_step_by as Hsb. pose proof Hinv as Hinv'. destruct lead_before as [[] Ht]. rewrite <-(app_nil_r net) in Hinv' |- *.
  apply (safe_step P conf c A g i t _ [] el' g_lead [] A); rewrite ?app_nil_r in *; try done.
  - intros u. split.
    + intros (a & Ha)%(sf_terms _ _ _ _ Hsafe). exists a. apply elem_of_app. by right.
    + intros (a & [Ha|Ha]%elem_of_app); [|by apply (terms_elected u a)]. unfold elected_by in Ha.
      case_decide; [|by apply not_elem_of_nil in Ha]. apply list_elem_of_singleton in Ha as [= -> ->]. unfold Node_Term. by rewrite lead_term.
  - intros newer u older E. by destruct newer.
  - intros u k [?|[-> Hk]]%lead_wit; [by left|right; left]. rewrite lead_logs, zlen_app. pose proof (zlen_nonneg es). lia.
  - apply (input_host_ok g_lead F F'); try done.
    + apply Hld.
    + apply Hsb.
    + apply (grown_ext g); [apply Hsb|apply Hsb|apply Hn].
    + apply lead_node_ok.
    + intros s Hsd. destruct log_before as (F0 & Hn0 & Hd0). destruct (Hd0 s Hsd) as [Hd Et].
      assert (F0 = F) as ->; [|by apply lead_disk_ok].
      apply (grown_unique g (sf_tree _ _ _ _ Hsafe) (absLog (rlog r))); [apply Hn0|apply Hn|apply Hn0|apply Hn].
  - by intros m ?%not_elem_of_nil.
  - auto.
Qed.
End leading.

Lemma extends_fresh F es : node_ok P g net el r F → log_wf (rlog r) → log_wf (rlog r') → absLog (rlog r') = a_extend (absLog (rlog r)) es →
  Forall (λ e, eTerm e = Term r) es → fresh_entries (Term r) (zlen F) es.
Proof.
  intros Hn Hlw Hlw' E Hf k e Hk. rewrite Forall_forall in Hf. split; [by eapply Hf, list_elem_of_lookup_2|].
  destruct (absLog_wf _ Hlw') as (_ & _ & Hc). rewrite E in Hc. simpl in Hc. apply contiguous_app in Hc as [_ Hc].
  rewrite (contiguous_lookup _ _ _ _ Hc Hk), <-(rep_last _ _ (lo_rep _ _ _ _ _ (no_log _ _ _ _ _ _ Hn))). unfold a_last. lia.
Qed.
Lemma safe_leads : state r = StateLeader → leads inp r r' → ∃ g', safe P (mkCluster (<[i := Up h']> (c_hosts c)) net el') A g'.
Proof.
  intros Hs Hld. destruct log_before as (F & Hn & _). destruct host_before as [_ Hho]. pose proof (ho_wf _ _ _ _ _ Hho) as Hcw.
  destruct (ld_log _ _ _ Hld) as (es & Ees & Hes).
  assert (Hfr : fresh_entries (Term r) (zlen F) es) by (apply extends_fresh; try done; [apply Hcw|apply (ld_wf _ _ _ Hld)]).
  destruct (ld_commit _ _ _ Hld) as [Hc|Hc].
  - eexists. apply (lead_safe F es) with (B := λ _, False); try done. by left.
  - eexists. apply (lead_safe F es) with (B := λ k, k = committed (rlog r')); try done; by right.
Qed.

(** *** Winning an election *)

Section winning.
Context (F : list Entry) (Hn : node_ok P g net el r F) (Hcw : core_wf r) (Hw : wins inp r r').
#[local] Abbreviation t := (Term r).
#[local] Abbreviation noop := (mkEntry t (a_last (absLog (rlog r)) + 1) EntryNoop []).
#[local] Abbreviation F' := (F ++ [noop]).
Definition g_win : ghost := g_elect t F noop g.

Lemma win_term : Term r' = t.
Proof. apply Hw. Qed.
Lemma win_cand : cand_ok P g net el r F.
Proof. apply (no_cand _ _ _ _ _ _ Hn), Hw. Qed.
Lemma win_elected_by : elected_by i n = [(t, i)].
Proof. unfold elected_by, Node_State, Node_Term. by rewrite decide_True, win_term by apply Hw. Qed.
Lemma win_was_elected : was_elected P net t i.
Proof. apply (inv_elected _ _ Hinv). simpl. rewrite win_elected_by. by left. Qed.
Lemma win_new : t ∉ terms g.
Proof.
  intros (a & Ha)%(sf_terms _ _ _ _ Hsafe). pose proof (inv_elected _ _ (sf_inv _ _ _ _ Hsafe) _ _ Ha) as He.
  assert (a = i) as -> by (by apply (elected_unique conf P c t a i HP (sf_inv _ _ _ _ Hsafe) He win_was_elected)).
  apply (cd_new _ _ _ _ _ _ win_cand). by rewrite id_before.
Qed.
(** The voters, this node among them, and the ballots it has from the others. *)
Lemma win_voters : ∃ Q, majority P Q ∧ ∀ v, v ∈ Q → granted net i t v.
Proof.
  destruct win_was_elected as (Hip & Q & HQ & Hg). exists Q.
  assert (Hgr : ∀ v, v ∈ Q → granted net i t v).
  { intros v Hv. destruct (Hg v Hv) as [->|?]; [|done]. destruct (majority_other P Q i H2 HQ) as (q & Hq & Hqi).
    destruct (Hg q Hq) as [?|Hgq]; [done|]. by apply (granted_requested P c t i q (sf_inv _ _ _ _ Hsafe)). }
  split; [split; [|done]|done]. intros v Hv. destruct (Hgr v Hv) as (m & Hm & [-> _]%ballot_from).
  apply (inv_msgs _ _ (sf_inv _ _ _ _ Hsafe) m Hm).
Qed.
Lemma win_fit : (∀ j, tm F j < t) ∧ secure P g (t - 1) (a_base (absLog (rlog r))) F.
Proof.
  destruct (cd_fit _ _ _ _ _ _ win_cand) as [?|(Q2 & HQ2 & Hd)]; [done|]. exfalso.
  destruct win_voters as (Q & HQ & Hg). destruct (majority_meet P HP Q Q2 HQ HQ2) as (w & Hw1 & Hw2).
  destruct (Hd w Hw2) as (_ & Hno & _). apply Hno. rewrite id_before. auto.
Qed.
Lemma win_tree : tree g_win.
Proof.
  pose proof (lo_rep _ _ _ _ _ (no_log _ _ _ _ _ _ Hn)) as Hrep. apply tree_elect; [apply Hsafe|apply win_new| |apply Hn|apply win_fit|done|].
  - destruct host_before as [[] _]. apply (vi_self _ _ hi_VI). left. apply Hw.
  - simpl. by rewrite (rep_last _ _ Hrep).
Qed.
Lemma win_logs : logs g_win t = F'.
Proof. simpl. by rewrite decide_True. Qed.
Lemma win_step_by : step_by i t g g_win net [] el el'.
Proof.
  split; [apply Hsafe|apply win_tree|apply gext_elect, win_new|..].
  - by left.
  - done.
  - apply terms_elected.
  - intros u Hu. left. simpl. rewrite decide_False; [done|]. intros ->. by destruct win_new.
  - intros k s Hk. by apply (ballots_past k).
  - by intros m ?%not_elem_of_nil.
  - exists (elected_by i n). split; [done|]. rewrite win_elected_by. by intros u a [= _ ->]%list_elem_of_singleton.
Qed.
(** What its voters had made durable the new leader has. *)
Lemma win_kept v u k : granted net i t v → u < t → wit g v u k → start g u < k → holds g F u k ∨ lost g u k.
Proof.
  intros Hg Hu Hwit Hst. pose proof (log_ok_before F Hn) as []. destruct (decide (v = i)) as [->|Hne]; [by apply lo_faithful|].
  destruct Hg as (m & Hm & Hb). assert (mType m = MsgVoteResp ∧ mReject m = false ∧ mFrom m = v ∧ mTerm m = t ∧ mTo m = i) as (Hty & Hrj & Hf & Et & Hto).
  { unfold ballot in Hb. destruct (mType m); try done; [injection Hb; congruence|]. destruct (mReject m); [done|]. by injection Hb. }
  destruct (sf_msgs _ _ _ _ Hsafe m Hm) as (_ & Htold & _). unfold told in Htold. rewrite Hty in Htold.
  destruct (Htold Hrj) as (m0 & Hm0 & Hty0 & Hf0 & Et0 & Hr). rewrite Hf, Et in *.
  destruct (Hr u k Hu Hwit Hst) as [Hre|?]; [|by right].
  destruct (cd_votes _ _ _ _ _ _ win_cand m0) as [Ei El]; [apply elem_of_app; by left|done|rewrite id_before; congruence|done|].
  rewrite Ei, El in Hre. apply (elected_holds g (sf_tree _ _ _ _ Hsafe) F u k); try done. by apply (tr_wit _ (sf_tree _ _ _ _ Hsafe) v u k).
Qed.
Lemma win_electors : electors P (voted net) g_win t (terms g).
Proof.
  destruct win_voters as (Q & HQ & Hg). exists Q. split; [done|]. intros v Hv. split; [exists i; by apply Hg|]. intros u k Hu Hwit Hst.
  pose proof (tr_wit _ (sf_tree _ _ _ _ Hsafe) _ _ _ Hwit) as Hin. pose proof win_step_by as [].
  rewrite (gx_start _ _ sb_gext u Hin) in Hst. rewrite win_logs.
  destruct (win_kept v u k (Hg v Hv) Hu Hwit Hst) as [Hh|(w & Hw1 & Hw2 & Hno)].
  - left. by apply holds_extend, (holds_ext g).
  - right. exists w. split_and!; [done..|]. by apply (loses_ext g).
Qed.
Lemma win_commit : committed (rlog r') = committed (rlog r).
Proof.
  destruct (wi_commit _ _ _ Hw) as [?|(Q & HQ & Ht & Hq)]; [done|]. exfalso. destruct host_before as [[] _].
  destruct (wi_wf _ _ _ Hw) as [[Hlw' _] _]. pose proof Hlw' as (_ & _ & ? & _). pose proof (absLog_wf _ Hlw') as (? & _).
  unfold quorum in HQ. rewrite (wi_peers _ _ _ Hw) in HQ. destruct (majority_other P Q i H2) as (q & Hq' & Hqi); [unfold zlen in *; by rewrite <-hi_peers|].
  destruct (Hq q Hq') as [_ (pr & Hpr & Hm)]. rewrite <-hi_id in Hqi. destruct (wi_prs _ _ _ Hw q pr Hqi Hpr) as [E _].
  assert (Hz : committed (rlog r') = 0) by lia. assert (Hb : a_base (absLog (rlog r')) = 0) by lia.
  pose proof (rep_extend _ _ (lo_rep _ _ _ _ _ (no_log _ _ _ _ _ _ Hn)) [noop]) as Hrep. rewrite <-(wi_log _ _ _ Hw) in Hrep.
  rewrite Hz, (rep_term _ _ Hrep) in Ht by lia. rewrite (wi_Term _ _ _ Hw) in Ht. change (tm F' 0) with 0 in Ht.
  destruct (vi_self _ _ hi_VI) as [_ ?]; [left; apply Hw|lia].
Qed.
Lemma win_log_ok a : log_ok P g i a F → log_ok P g_win i a F.
Proof.
  intros Hl. eapply log_ok_ext; [apply win_step_by| | |done]; [by left|]. apply Hl.
Qed.
Lemma win_commit_ok : commit_ok P g_win t (floor g_win i) F' (committed (rlog r')).
Proof.
  pose proof win_step_by as Hsb. pose proof (no_commit _ _ _ _ _ _ Hn) as Hc. rewrite win_commit. rewrite id_before in Hc.
  apply (commit_ok_ext P _ _ _ _ _ _ _ _ Hsb _ _ (floor g_win i)) in Hc; [|done].
  destruct Hc as [?|Hc]; [by left|right]. eapply secure_agree; [|exact Hc]. apply agree_app. by apply base_committed, Hcw.
Qed.
Lemma win_lead_ok : lead_ok P g_win el' r' F'.
Proof.
  pose proof win_step_by as Hsb. pose proof Hsb as []. pose proof id_after as Hid. pose proof win_term as Et. destruct win_fit as [_ Hb].
  pose proof (lo_rep _ _ _ _ _ (no_log _ _ _ _ _ _ Hn)) as Hrep.
  split; rewrite ?Hid, ?Et, ?win_elected_by.
  - by left.
  - by rewrite win_logs.
  - rewrite (wi_log _ _ _ Hw). simpl. eapply secure_agree; [|apply (secure_ext g); try done; eapply secure_mono; [|exact Hb]; lia].
    apply agree_app, Hrep.
  - intros p pr' Hp Hpr. rewrite <-id_before in Hp. destruct (wi_prs _ _ _ Hw p pr' Hp Hpr) as [-> ->]. split; [by left|left].
    rewrite zlen_app. change (zlen [noop]) with 1. rewrite (rep_last _ _ Hrep). lia.
Qed.
Lemma win_node_ok : node_ok P g_win net el' r' F'.
Proof.
  pose proof win_step_by as Hsb. pose proof Hsb as []. pose proof id_after as Hid. pose proof win_term as Et.
  assert (Ht : t ∈ terms g_win) by (by left).
  assert (Hlo : log_ok P g_win i (absLog (rlog r')) F').
  { pose proof (win_log_ok _ (log_ok_before F Hn)) as []. rewrite (wi_log _ _ _ Hw). split.
    - by apply rep_extend.
    - rewrite <-win_logs. by apply (tr_grown _ sb_tree').
    - by apply faithful_extend.
    - simpl. destruct lo_base as [T HT]. exists T. eapply secure_agree; [|exact HT]. apply agree_app, lo_rep.
    - done. }
  split; rewrite ?Hid, ?Et; try done.
  - apply win_commit_ok.
  - intros u k [?|[_ ->]]%sb_wit; [|done]. rewrite <-Et. by apply (wit_before F Hn u k).
  - rewrite (wi_state _ _ _ Hw). done.
  - intros _. apply win_lead_ok.
  - destruct (wi_msgs _ _ _ Hw) as (ms & Ems & Hf). rewrite Hmsgs in Ems. simpl in Ems. rewrite Ems. eapply Forall_impl; [exact Hf|].
    intros m Hm. pose proof (step_elections P _ _ _ _ _ _ _ _ [t] Hsb (sf_elections _ _ _ _ Hsafe) eq_refl) as Hel. rewrite app_nil_r in Hel.
    apply (sent_queued g_win net el' sb_tree') with (inp := inp); rewrite ?Hid, ?Et; try done.
    + apply Hel. intros newer u older E. destruct newer as [|? []]; [|done..]. injection E as <- <-. apply win_electors.
    + apply Hw.
    + apply win_commit_ok.
    + intros _. split_and!; [apply win_lead_ok|done|]. apply no_install; [apply Hcw|by rewrite (wi_log _ _ _ Hw)].
    + intros m0 Hi0 Hty. destruct (sent_before m0 Hi0) as (Hin & Hto & Hsi); [tauto|]. split_and!; [done..|].
      rewrite <-(app_nil_r net). by eapply sent_inv_ext.
    + intros _. by apply (tr_pos _ sb_tree').
Qed.
Lemma win_safe : safe P (mkCluster (<[i := Up h']> (c_hosts c)) net el') A g_win.
Proof.
  pose proof win_step_by as Hsb. pose proof Hinv as Hinv'. rewrite <-(app_nil_r net) in Hinv' |- *.
  apply (safe_step P conf c A g i t _ [] el' g_win [t] A); rewrite ?app_nil_r in *; try done.
  - intros u. rewrite win_elected_by. split.
    + intros [->|(a & Ha)%(sf_terms _ _ _ _ Hsafe)]%elem_of_cons; [exists i; by left|exists a; by right].
    + intros (a & [[= -> _]|Ha]%elem_of_cons); [by left|right]. by apply (terms_elected u a).
  - intros newer u older E. destruct newer as [|? []]; [|done..]. injection E as <- <-. apply win_electors.
  - by left.
  - apply (input_host_ok g_win F F'); try done.
    + apply Hw.
    + apply Hsb.
    + apply (grown_ext g); [apply Hsb|apply Hsb|apply Hn].
    + apply win_node_ok.
    + intros s Hsd. destruct log_before as (F0 & Hn0 & Hd0). destruct (Hd0 s Hsd) as [Hd Et].
      assert (F0 = F) as ->.
      { apply (grown_unique g (sf_tree _ _ _ _ Hsafe) (absLog (rlog r))); [apply Hn0|apply Hn|apply Hn0|apply Hn]. }
      destruct Hd. split; [done|by apply win_log_ok|by eapply commit_ok_ext|done].
  - by intros m ?%not_elem_of_nil.
  - auto.
Qed.
End winning.

Lemma safe_effect : effect inp r r' → ∃ g', safe P (mkCluster (<[i := Up h']> (c_hosts c)) net el') A g'.
Proof.
  intros [[Hs Hld]|[Hw|Hsh]]; [by apply safe_leads| |exists g; by apply safe_shifts].
  destruct log_before as (F & Hn & _). destruct host_before as [_ Hho]. exists (g_win F). apply (win_safe F Hn); [apply Hho|done].
Qed.
End input.

(** ** From the driver's side *)

(** The message an input runs [Step] with. *)
Definition input_msg (inp : input) : option Message :=
  match inp with
  | InTick => None
  | InRecv m => Some m
  | InPropose data => Some (set_mEntries [mkEntry 0 0 EntryNormal data] (Msg MsgPropose 0))
  | InRead ctx => Some (set_mContext ctx (Msg MsgReadIndex 0))
  end.
(** The driver has handed out all the core had ([drain] runs until [HasReady] is
    false), and neither indices nor terms are at the top of their width. *)
Definition admits (inp : input) (h : host S) : bool :=
  match HasReady (h_node h) with Ret b => negb b | Panic _ => false end &&
  (a_last (absLog (rlog (h_raft h))) + (2 + from_option (λ m, zlen (mEntries m)) 0 (input_msg inp)) <? u64_mod - 1) &&
  (from_option mTerm 0 (input_msg inp) + 1 <? u64_mod).

Lemma sane_msg_ok m : sane m → msg_ok m.
Proof.
  intros [Hq Hp _ _]. revert Hq Hp. unfold msg_ok, request_ok, resp_ok, is_u64. destruct (mType m); try done; [|lia]. destruct (mReject m); lia.
Qed.
Lemma ready_for_input net i h n : 2 ≤ zlen P → host_inv P net i h → core_wf (h_raft h) → Term (h_raft h) + 1 < u64_mod →
  room (h_raft h) (2 + n) → 0 ≤ n → ready_for (h_raft h).
Proof.
  intros H2 [] Hw Ht Hr Hn. destruct hi_VI. split; try done.
  - unfold room in *. lia.
  - by rewrite hi_peers.
  - unfold zlen in *. by rewrite hi_peers.
  - intros Hs. destruct vi_self; [tauto|]. lia.
Qed.
Lemma runInput_effect c A g i h inp n :
  2 ≤ zlen P → safe P c A g → c_hosts c !! i = Some (Up h) → Term (h_raft h) + 1 < u64_mod → admits inp h = true →
  deliverable (c_net c) i inp = true → runInput inp (h_node h) = Ret n →
  evolves (rlog (h_raft h)) (rlog (n_r n)) ∧ effect (input_msg inp) (h_raft h) (n_r n).
Proof.
  intros H2 Hs Hi Ht [[_ Hroom]%andb_true_iff Hmt]%andb_true_iff Hd Hr. apply Z.ltb_lt in Hroom, Hmt.
  destruct (inv_hosts _ _ (sf_inv _ _ _ _ Hs) i _ Hi) as [_ Hh]. simpl in Hh. pose proof (ho_wf _ _ _ _ _ (sf_hosts _ _ _ _ Hs i _ Hi)) as Hw.
  set (r := h_raft h) in *. set (k := from_option _ _ _) in Hroom.
  assert (Hk : 0 ≤ k) by (unfold k; destruct (input_msg inp); simpl; [apply zlen_nonneg|done]).
  pose proof (ready_for_input _ i h k H2 Hh Hw Ht Hroom Hk) as Hrf.
  assert (Hgen : ∀ B (d : M (raft S) B) (a : B), wp True d (λ _ r', evolves (rlog r) (rlog r') ∧ effect (input_msg inp) r r') r →
    onRaft d (h_node h) = Ret (a, n) → evolves (rlog r) (rlog (n_r n)) ∧ effect (input_msg inp) r (n_r n)).
  { intros B d a Hwp Ha. eapply (wp_run _ (λ _ n', evolves (rlog r) (rlog (n_r n')) ∧ effect (input_msg inp) r (n_r n'))); [|exact Ha].
    apply wp_zoom. eapply wp_mono; [exact Hwp|]. by intros ? ? ?. }
  assert (Hmsg : ∀ m, input_msg inp = Some m → msg_ok m → input_ok r m →
    wp True (Step m) (λ _ r', evolves (rlog r) (rlog r') ∧ effect (input_msg inp) r r') r).
  { intros m E Hok Hio. unfold k in Hroom. rewrite E in Hroom, Hmt. simpl in Hroom, Hmt. apply wp_and.
    - eapply wp_mono; [apply wp_Step; [apply Hw| |done]|by intros ? ? []]. unfold room. lia.
    - apply Step_eff; try done. unfold room. lia. }
  destruct inp as [|m|data|ctx]; simpl in Hr; apply outcome_bind_Ret in Hr as ([a n'] & Hr & [= ->]); (eapply Hgen; [|exact Hr]).
  - apply wp_and; [|by apply tick_eff]. eapply wp_mono; [apply wp_tick; [apply Hw|]|by intros ? ? [? ? ?]%moves_appends].
    unfold room. lia.
  - apply andb_true_iff in Hd as [Hin Hto]. apply bool_decide_eq_true in Hin. apply Z.eqb_eq in Hto.
    destruct (sf_msgs _ _ _ _ Hs m Hin) as (Hsa & _). apply Hmsg; [done|by apply sane_msg_ok|]. destruct Hsa. split; try done.
    intros Hty E. apply sn_other; [by right|]. rewrite E, Hto. symmetry. apply Hh.
  - apply Hmsg; try done. split; try done; unfold termed, leader_type, reply_type; simpl; intuition congruence.
  - apply Hmsg; try done. split; try done; unfold termed, leader_type, reply_type; simpl; intuition congruence.
Qed.
Lemma safe_input c A g i h inp n :
  same_voters conf P → 2 ≤ zlen P → safe P c A g → c_hosts c !! i = Some (Up h) → h_phase h = PIdle →
  Term (h_raft h) + 1 < u64_mod → admits inp h = true → deliverable (c_net c) i inp = true → runInput inp (h_node h) = Ret n →
  ∃ g', safe P (mkCluster (<[i := Up (mkHost n PIdle (h_disks h))]> (c_hosts c)) (c_net c) (elected_by i n ++ c_elected c)) A g'.
Proof.
  intros Hsv H2 Hs Hi Hp Ht Had Hd Hr. destruct (same_voters_nonzero conf P Hsv) as [Hz _].
  destruct (inv_hosts _ _ (sf_inv _ _ _ _ Hs) i _ Hi) as [Hip Hh]. simpl in Hh. pose proof (sf_hosts _ _ _ _ Hs i _ Hi) as Hho. simpl in Hho.
  destruct (runInput_effect c A g i h inp n H2 Hs Hi Ht Had Hd Hr) as [Hev Heff].
  destruct (runInput_stepped P c i h inp n (sf_inv _ _ _ _ Hs) Hz Hip Hh Ht Hd Hr) as [Hst Hpe].
  pose proof (ho_batch _ _ _ _ _ Hho) as [_ Hb]. rewrite Hp in Hb. destruct Hb as [Hpn _]. rewrite Hpn in Hpe.
  pose proof (inv_input conf P c i h inp n Hsv (sf_inv _ _ _ _ Hs) Hi Hp Ht Hd Hr) as Hinv.
  destruct (HasReady_cases (h_raft h)) as (b & Eb & Hb); [apply Hho|]. unfold h_raft in Eb. rewrite <-Hpn in Eb.
  assert (En : mkNode (n_r (h_node h)) (pendingReady (h_node h)) = h_node h) by (by destruct (h_node h)). rewrite En in Eb.
  unfold admits in Had. rewrite Eb in Had. destruct b; [done|]. destruct (Hb eq_refl) as (Hm & Hset & _ & Hprev).
  apply (safe_effect c A g i h n (input_msg inp)); try done.
  intros m0 E. destruct inp as [|m|data|ctx]; simpl in E; try done; injection E as <-; [left|by right; left|by right; right].
  apply andb_true_iff in Hd as [Hin Hto]. apply bool_decide_eq_true in Hin. by apply Z.eqb_eq in Hto.
Qed.
End loginput.
