(* ===== verification/Safety.v ===== *)
(** * State machine safety

    A [run] is an execution of [Cluster] from blank disks in which the driver
    hands the core an input only when [drain] has nothing left to do, as
    src/server/drive.go does, and storages are compacted only at an applied
    index.  It records, with the node they went to, the entries handed out to
    the state machines.  The theorems are those of the Raft paper, for this
    code: the entries applied at one index are the same on all nodes, committed
    logs agree, logs match, and the newest leader has every applied entry. *)

From S2P Require Import Prelude RaftTypes Storage RaftLog ReadOnly Raft Node LogSpec RaftSpec Persist Quiet.
From S2P Require Import LogSafety Election Replication Batch LogTree Cluster LogInv LogDrive LogInput.

Section safety.
Context {S : Type} `{LogStorageLaws S} (conf : Z → Config) (P : list Z).

(** ** Runs *)

(** The storage holds no log and no hard state. *)
Definition blank (st : S) : Prop := v_snap (view st) = zeroSnapshot ∧ v_ents (view st) = [].

(** What the driver keeps to. *)
Definition admitted (a : action S) (c : Cluster S) : Prop :=
  match a with
  | ActInput i inp => match c_hosts c !! i with Some (Up h) => admits inp h = true | _ => True end
  | ActMaint i st => match c_hosts c !! i with Some (Up h) => compacts h st | _ => False end
  | _ => True
  end.
(** The entries an action hands out to the state machine. *)
Definition applies (a : action S) (c : Cluster S) : list (Z * Entry) :=
  match a with
  | ActDrive i => match c_hosts c !! i with Some (Up h) => applied_by i h | _ => [] end
  | _ => []
  end.

Inductive run (c0 : Cluster S) : Cluster S → list (Z * Entry) → Prop :=
| run_init : initial P c0 → (∀ i st, c_hosts c0 !! i = Some (Down st) → blank st) → run c0 c0 []
| run_step c A a c' : run c0 c A → admitted a c → exec conf a c = Some c' → run c0 c' (A ++ applies a c).

(** ** Every run keeps the invariant *)

Definition g_init : ghost := mkGhost (λ _, []) (λ _, 0) [] (λ _ _ _, False) (λ _, 0).

Lemma blank_disk_ok i st : v_hard (view st) = zeroHardState → blank st → disk_ok P g_init i st [].
Proof.
  intros Eh [Es Ee]. split.
  - unfold view_wf, v_last, v_off. rewrite Es, Ee. done.
  - unfold vlog, v_off. rewrite Es, Ee. split; try done; simpl.
    + intros k e Hk%get_range. change (zlen (@nil Entry)) with 0 in Hk. lia.
    + by intros t k [].
    + exists 0. by left.
  - left. unfold vlog, v_off. rewrite Eh, Es. done.
  - done.
Qed.
Lemma safe_init c : same_voters conf P → initial P c → (∀ i st, c_hosts c !! i = Some (Down st) → blank st) → safe P c [] g_init.
Proof.
  intros Hsv Hc Hb. pose proof Hc as (En & Ee & Hh). split; rewrite ?En, ?Ee; try done.
  - by apply (inv_reachable conf P c c Hsv), reach_init.
  - split; try done; intros t; intros; by destruct (not_elem_of_nil t).
  - intros newer u older E. by destruct newer.
  - intros t. split; [by intros ?%not_elem_of_nil|]. by intros (a & ?%not_elem_of_nil).
  - intros i st Hi. destruct (Hh i st Hi) as (_ & s & -> & Ehs). exists []. by eapply blank_disk_ok, Hb.
  - by intros m ?%not_elem_of_nil.
  - by intros i e ?%not_elem_of_nil.
Qed.

Context (Hsv : same_voters conf P) (H2 : 2 ≤ zlen P).
Lemma safe_exec c A g a c' : safe P c A g → admitted a c → exec conf a c = Some c' → ∃ g', safe P c' (A ++ applies a c) g'.
Proof.
  intros Hs Had Hex. pose proof (inv_exec conf P a c c' Hsv (sf_inv _ _ _ _ Hs) Hex) as Hinv. destruct (same_voters_nonzero conf P Hsv) as [_ HP].
  destruct a as [i inp|i|i k|i rnd|i st']; simpl in *; destruct (c_hosts c !! i) as [[h|st]|] eqn:Eh; try done; rewrite ?app_nil_r.
  - destruct (h_phase h) eqn:Ep; try done. destruct (_ && _) eqn:Eg; [|done]. apply andb_true_iff in Eg as [Et Ed]. apply Z.ltb_lt in Et.
    destruct (runInput inp (h_node h)) as [n|] eqn:Er; [|done]. injection Hex as <-. by eapply safe_input.
  - destruct (drive h) as [[[h' ms]|]|] eqn:Ed; try done. injection Hex as <-. by eapply safe_drive.
  - destruct (h_disks h !! k) as [s|] eqn:Ek; [|done]. injection Hex as <-. exists g.
    eapply safe_crash; try done. by eapply list_elem_of_lookup_2.
  - destruct (NewNode _ _) as [[n|]|] eqn:En; try done. injection Hex as <-. by eapply safe_restart.
  - destruct (decide _); [|done]. injection Hex as <-. exists g. by eapply safe_compact.
Qed.
Lemma safe_run c0 c A : run c0 c A → ∃ g, safe P c A g.
Proof.
  induction 1 as [Hi Hb|c A a c' Hr [g IH] Had Hex]; [exists g_init; by apply safe_init|by eapply safe_exec].
Qed.

(** ** Properties *)

(** The log of an up host, in the ghost. *)
Lemma safe_log c A g i h :
  safe P c A g → c_hosts c !! i = Some (Up h) →
  ∃ F, rep (absLog (rlog (h_raft h))) F ∧ grown g F ∧ (∃ T, secure P g T (committed (rlog (h_raft h))) F) ∧
    (state (h_raft h) = StateLeader → F = logs g (Term (h_raft h)) ∧ Term (h_raft h) ∈ terms g).
Proof.
  intros Hs Hi. destruct (ho_node _ _ _ _ _ (sf_hosts _ _ _ _ Hs i _ Hi)) as [F [[] _]]. exists F. destruct no_log. split_and!; try done.
  - by eapply commit_secure.
  - intros Hl. destruct (no_lead Hl). split; [done|]. apply (sf_terms _ _ _ _ Hs). eauto.
Qed.
End safety.

Section properties.
Context {S : Type} `{LogStorageLaws S} (conf : Z → Config) (P : list Z).

(** C1: state machine safety: in a cluster of at least two voters, no two nodes
    ever apply different entries at the same index, over any run with lost,
    duplicated, delayed and reordered messages, crashes at any point of the
    driver's loop, restarts and log compaction.  A restart finds what any of the
    writes since the last sync left, a batch of entries cut after any of them,
    or a snapshot without the hard states written before it.  The storage is
    one that keeps its contract: the return of a log suffix that a snapshot
    emptied in memory is not covered. *)
Theorem state_machine_safety c0 c A i j e e' :
  same_voters conf P → 2 ≤ zlen P → run (S:=S) conf P c0 c A → (i, e) ∈ A → (j, e') ∈ A → eIndex e = eIndex e' → e = e'.
Proof.
  intros Hsv H2 Hr Hi Hj E. destruct (safe_run conf P Hsv H2 _ _ _ Hr) as [g []]. destruct (same_voters_nonzero conf P Hsv) as [_ HP].
  destruct (sf_applied _ _ Hi) as (t & k & Hc & Hk & He), (sf_applied _ _ Hj) as (t' & k' & Hc' & Hk' & He').
  pose proof (certified_agree P HP _ g sf_elections t k t' k' (eIndex e) Hc Hc' Hk ltac:(lia)) as Ha.
  rewrite <-E, <-(Ha (eIndex e)), He in He' by lia. by injection He'.
Qed.

(** The committed parts of the logs of two nodes agree wherever neither has
    compacted its log. *)
Theorem committed_logs_agree c0 c A i j h h' k :
  same_voters conf P → 2 ≤ zlen P → run (S:=S) conf P c0 c A → c_hosts c !! i = Some (Up h) → c_hosts c !! j = Some (Up h') →
  let l := rlog (h_raft h) in let l' := rlog (h_raft h') in
  a_base (absLog l) < k ≤ committed l → a_base (absLog l') < k ≤ committed l' →
  ∃ e, a_get (absLog l) k = Some e ∧ a_get (absLog l') k = Some e.
Proof.
  intros Hsv H2 Hr Hi Hj l l' Hk Hk'. destruct (safe_run conf P Hsv H2 _ _ _ Hr) as [g Hs]. destruct (same_voters_nonzero conf P Hsv) as [_ HP].
  destruct (safe_log P c A g i h Hs Hi) as (F & Hrep & _ & [T HT] & _), (safe_log P c A g j h' Hs Hj) as (F' & Hrep' & _ & [T' HT'] & _).
  pose proof (ho_wf _ _ _ _ _ (sf_hosts _ _ _ _ Hs i _ Hi)) as [[(_ & _ & _ & Hl) _] _]. fold l in Hl, Hrep, HT. fold l' in Hrep', HT'.
  rewrite (rep_get _ _ Hrep), (rep_get _ _ Hrep') by lia.
  destruct (get_some F k) as [e He]. { rewrite <-(rep_last _ _ Hrep). destruct Hrep. lia. }
  exists e. split; [done|]. rewrite <-He. symmetry.
  by apply (secure_unique P HP _ g (sf_elections _ _ _ _ Hs) T T' _ _ k F F' HT HT'); try lia.
Qed.

(** C5: log matching: in the runs of a cluster of at least two voters, two logs
    that have an entry of the same term at the same index have the same entries
    at all lower indices that neither has compacted. *)
Theorem log_matching c0 c A i j h h' k e e' q :
  same_voters conf P → 2 ≤ zlen P → run (S:=S) conf P c0 c A → c_hosts c !! i = Some (Up h) → c_hosts c !! j = Some (Up h') →
  let a := absLog (rlog (h_raft h)) in let a' := absLog (rlog (h_raft h')) in
  a_get a k = Some e → a_get a' k = Some e' → eTerm e = eTerm e' → a_base a < q ≤ k → a_base a' < q → a_get a q = a_get a' q.
Proof.
  intros Hsv H2 Hr Hi Hj a a' He He' Et Hq Hq'. destruct (safe_run conf P Hsv H2 _ _ _ Hr) as [g Hs].
  destruct (safe_log P c A g i h Hs Hi) as (F & Hrep & HF & _), (safe_log P c A g j h' Hs Hj) as (F' & Hrep' & HF' & _).
  fold a in Hrep. fold a' in Hrep'. rewrite (rep_get _ _ Hrep) in * by lia. rewrite (rep_get _ _ Hrep') in * by lia.
  pose proof (grown_entry g (sf_tree _ _ _ _ Hs) F k e HF He) as (_ & Hp & _).
  apply (grown_match g F F' k HF HF'); rewrite ?(get_tm _ _ _ He), ?(get_tm _ _ _ He'); lia.
Qed.

(** C4: leader completeness: in the runs of a cluster of at least two voters, a
    leader no other was elected after has every entry any node has applied, in
    its log or below its snapshot. *)
Theorem leader_completeness c0 c A i j h e :
  same_voters conf P → 2 ≤ zlen P → run (S:=S) conf P c0 c A → (i, e) ∈ A → c_hosts c !! j = Some (Up h) →
  state (h_raft h) = StateLeader → (∀ t a, (t, a) ∈ c_elected c → t ≤ Term (h_raft h)) →
  let a := absLog (rlog (h_raft h)) in
  eIndex e ≤ a_last a ∧ (a_base a < eIndex e → a_get a (eIndex e) = Some e).
Proof.
  intros Hsv H2 Hr He Hj Hl Hmax a. destruct (safe_run conf P Hsv H2 _ _ _ Hr) as [g Hs]. destruct (same_voters_nonzero conf P Hsv) as [_ HP].
  destruct (safe_log P c A g j h Hs Hj) as (F & Hrep & HF & _ & Hld). destruct (Hld Hl) as [EF Ht]. fold a in Hrep.
  destruct (sf_applied _ _ _ _ Hs _ _ He) as (t & k & Hc & Hk & Hg).
  assert (Hle : t ≤ Term (h_raft h)). { destruct Hc as [(a0 & Ha)%(sf_terms _ _ _ _ Hs) _]. by apply (Hmax t a0). }
  assert (Hsec : secure P g t (eIndex e) (logs g t)) by (right; by exists t, k).
  destruct (secure_leader P HP _ g (sf_elections _ _ _ _ Hs) _ _ _ _ Hsec Ht Hle) as [[Hz Ha] _].
  rewrite (rep_last _ _ Hrep), EF. split; [done|]. intros Hb. rewrite (rep_get _ _ Hrep), EF, <-Ha; done.
Qed.
End properties.

(** ** A concrete run: node 1 is elected and has a command applied on two nodes,
    the third crashes while it writes the two entries and keeps the first *)

Section playing.
Context {S : Type} `{LogStorageLaws S} (conf : Z → Config) (P : list Z).

Definition admittedb (a : action S) (c : Cluster S) : bool :=
  match a with
  | ActInput i inp => match c_hosts c !! i with Some (Up h) => admits inp h | _ => true end
  | ActMaint _ _ => false
  | _ => true
  end.
Definition move (mv : action S + Z * nat) (c : Cluster S) : option (action S) :=
  match mv with inl a => Some a | inr (i, k) => m ← c_net c !! k; Some (ActInput i (InRecv m)) end.
Fixpoint playA (mvs : list (action S + Z * nat)) (c : Cluster S) (A : list (Z * Entry)) : option (Cluster S * list (Z * Entry)) :=
  match mvs with
  | [] => Some (c, A)
  | mv :: mvs =>
      a ← move mv c;
      if admittedb a c then c' ← exec conf a c; playA mvs c' (A ++ applies a c) else None
  end.
Lemma run_playA c0 mvs c A c' A' : run conf P c0 c A → playA mvs c A = Some (c', A') → run conf P c0 c' A'.
Proof.
  revert c A. induction mvs as [|mv mvs IH]; intros c A Hr E; simpl in E; [by injection E as <- <-|].
  apply bind_Some in E as (a & _ & E). destruct (admittedb a c) eqn:Ea; [|done]. apply bind_Some in E as (c1 & E1 & E).
  apply (IH c1 (A ++ applies a c)); [|done]. apply (run_step conf P c0 c A a c1); [done| |done].
  unfold admitted, admittedb in *. destruct a; try done. by destruct (c_hosts c !! i) as [[]|].
Qed.
End playing.

Definition cmd3 : Entry := mkEntry 1 2 EntryNormal [Byte.x07].
Definition schedule_cmd : list (action mem.Storage + Z * nat) :=
  schedule3 ++ moves [ActInput 1 (InPropose [Byte.x07])] ++ drain14 1 ++ [inr (2, 8%nat)] ++ drain14 2 ++
  [inr (1, 10%nat)] ++ drain14 1 ++ [inr (2, 11%nat)] ++ drain14 2 ++
  [inr (3, 9%nat)] ++ moves (replicate 3 (ActDrive 3)) ++ moves [ActCrash 3 2; ActRestart 3 (mkRand (λ _, 3) 0)].
Definition final_cmd : Cluster mem.Storage * list (Z * Entry) := default (init3, []) (playA conf3 schedule_cmd init3 []).
#[local] Abbreviation c3 := (final_cmd.1).
#[local] Abbreviation A3 := (final_cmd.2).
(** What [f] reads of host [i], which is up. *)
Definition at3 {B} (d : B) (f : host mem.Storage → B) (i : Z) : B := match c_hosts c3 !! i with Some (Up h) => f h | _ => d end.
Definition log3 : Z → alog := at3 (mkALog 0 0 []) (λ h, absLog (rlog (h_raft h))).
Definition committed3 : Z → Z := at3 0 (λ h, committed (rlog (h_raft h))).

Lemma run3 : run conf3 [1; 2; 3] init3 c3 A3.
Proof.
  apply (run_playA conf3 [1; 2; 3] init3 schedule_cmd init3 []).
  - apply run_init; [exact initial3|]. intros i st. unfold init3. cbn [c_hosts]. intros Hi%elem_of_list_to_map_2.
    rewrite !elem_of_cons in Hi. destruct Hi as [[= _ ->]|[[= _ ->]|[[= _ ->]|[]%not_elem_of_nil]]]; done.
  - assert (E : is_Some (playA conf3 schedule_cmd init3 [])) by (by vm_compute; eexists). destruct E as [[c A] E].
    unfold final_cmd. by rewrite E.
Qed.
Lemma up3 i : i ∈ [1; 2; 3] → ∃ h, c_hosts c3 !! i = Some (Up h) ∧ ∀ B (d : B) f, at3 d f i = f h.
Proof.
  intros Hi. assert (E : at3 false (λ _, true) i = true).
  { rewrite !elem_of_cons in Hi. by destruct Hi as [->|[->|[->|[]%not_elem_of_nil]]]; vm_compute. }
  unfold at3 in *. destruct (c_hosts c3 !! i) as [[h|]|]; try done. by exists h.
Qed.
Lemma applied3 i : i ∈ [1; 2] → (i, cmd3) ∈ A3.
Proof.
  intros Hi. apply (list_elem_of_lookup_2 A3 (if decide (i = 1) then 1%nat else 3%nat)).
  rewrite !elem_of_cons in Hi. by destruct Hi as [->|[->|[]%not_elem_of_nil]]; vm_compute.
Qed.

Example torn3 : a_ents (log3 3) = [mkEntry 1 1 EntryNoop []].
Proof. by vm_compute. Qed.

Lemma state_machine_safety_witness : (1, cmd3) ∈ A3 ∧ (2, cmd3) ∈ A3 ∧ cmd3 = cmd3.
Proof.
  split_and!; [apply applied3; repeat constructor|apply applied3; repeat constructor|].
  apply (state_machine_safety conf3 [1; 2; 3] init3 c3 A3 1 2 cmd3 cmd3 same_voters3); [done|exact run3|apply applied3; repeat constructor..|done].
Defined.
Lemma committed_logs_agree_witness : ∃ e, a_get (log3 1) 2 = Some e ∧ a_get (log3 2) 2 = Some e.
Proof.
  assert (Hl : a_base (log3 1) = 0 ∧ a_base (log3 2) = 0 ∧ committed3 1 = 2 ∧ committed3 2 = 2) by (by vm_compute).
  destruct (up3 1) as (h1 & E1 & R1); [repeat constructor|]. destruct (up3 2) as (h2 & E2 & R2); [repeat constructor|].
  unfold log3, committed3 in *. rewrite !R1, !R2 in *. destruct Hl as (B1 & B2 & C1 & C2).
  apply (committed_logs_agree conf3 [1; 2; 3] init3 c3 A3 1 2 h1 h2 2 same_voters3); [done|exact run3|done..|lia|lia].
Defined.
Lemma log_matching_witness : a_get (log3 1) 2 = Some cmd3 ∧ a_get (log3 1) 1 = a_get (log3 2) 1.
Proof.
  assert (Hl : a_get (log3 1) 2 = Some cmd3 ∧ a_get (log3 2) 2 = Some cmd3 ∧ a_base (log3 1) = 0 ∧ a_base (log3 2) = 0) by (by vm_compute).
  destruct (up3 1) as (h1 & E1 & R1); [repeat constructor|]. destruct (up3 2) as (h2 & E2 & R2); [repeat constructor|].
  unfold log3 in *. rewrite !R1, !R2 in *. destruct Hl as (L1 & L2 & B1 & B2). split; [done|].
  apply (log_matching conf3 [1; 2; 3] init3 c3 A3 1 2 h1 h2 2 cmd3 cmd3 1 same_voters3); [done|exact run3|done..|lia|lia].
Defined.
Lemma leader_completeness_witness : 2 ≤ a_last (log3 1) ∧ (a_base (log3 1) < 2 → a_get (log3 1) 2 = Some cmd3).
Proof.
  assert (Hl : at3 StateFollower (λ h, state (h_raft h)) 1 = StateLeader) by (by vm_compute).
  assert (Ht : Forall (λ x, x.1 ≤ at3 0 (λ h, Term (h_raft h)) 1) (c_elected c3)) by (vm_compute; by repeat constructor).
  rewrite Forall_forall in Ht. destruct (up3 1) as (h1 & E1 & R1); [repeat constructor|]. unfold log3. rewrite !R1 in *.
  apply (leader_completeness conf3 [1; 2; 3] init3 c3 A3 2 1 h1 cmd3 same_voters3);
    [done|exact run3|apply applied3; repeat constructor|done|done|].
  intros t a Hin. exact (Ht _ Hin).
Defined.
