(* ===== verification/KvCodec.v ===== *)
(** * The command codec of the key-value store (src/kv/codec.go, command.go)

    Commands are serialized big-endian, with a presence flag in front of every
    byte slice whose nil-ness is meaningful; a Go [[]byte] of this package is
    an [option (list byte)], [None] being nil.  A Go [string] is its bytes.
    The decoder is a cursor over the buffer; every read is written with Go's
    index checks, so that a panic of the source would be one of the model. *)

From S2P Require Import Prelude.

(** ** command.go: data *)

Definition OpType : Type := byte.
Definition OpInvalid : OpType := x00.
Definition OpGet : OpType := x01.
Definition OpPut : OpType := x02.
Definition OpDelete : OpType := x03.
Definition OpCAS : OpType := x04.

Record Command : Type := mkCommand {
  cmdClientID : Z;
  cmdSeq : Z;
  cmdOp : OpType;
  cmdKey : list byte;
  cmdValue : option (list byte);
  cmdExpect : option (list byte)
}.

(** The errors of the decoder, with the numbers their texts print. *)
Inductive kv_error : Type :=
| ErrTruncated (off want have : Z)
| ErrFlag (flag : byte) (off : Z)
| ErrTrailing (n : Z)
| ErrCommandVersion (v : byte)
| ErrOp (op : byte)
| ErrSnapshotVersion (v : byte)
| ErrSessionCount (n : Z)
| ErrKeyCount (n : Z).

#[export] Instance Command_eq_dec : EqDecision Command.
Proof. solve_decision. Defined.
#[export] Instance kv_error_eq_dec : EqDecision kv_error.
Proof. solve_decision. Defined.

(** ** codec.go: encoding *)

Definition flagAbsent : byte := x00.
Definition flagPresent : byte := x01.

Definition appendUint64 (buf : list byte) (v : Z) : list byte := buf ++ be_enc 8 v.
Definition appendUint32 (buf : list byte) (v : Z) : list byte := buf ++ be_enc 4 v.
Definition appendString (buf s : list byte) : list byte :=
  appendUint32 buf (w32 (zlen s)) ++ s.
Definition appendOptBytes (buf : list byte) (b : option (list byte)) : list byte :=
  match b with
  | None => buf ++ [flagAbsent]
  | Some b => appendUint32 (buf ++ [flagPresent]) (w32 (zlen b)) ++ b
  end.

(** ** codec.go: the decoder *)

Record decoder : Type := mkDecoder {
  d_buf : list byte;
  d_off : Z
}.

(** A method of the decoder: it may return an error, and must not panic. *)
Definition D (A : Type) : Type := decoder → outcome (result kv_error (A * decoder)).
#[export] Instance D_ret : MRet D := λ A a d, Ret (Ok (a, d)).
#[export] Instance D_bind : MBind D := λ A B k c d,
  match c d with
  | Ret (Ok (a, d')) => k a d'
  | Ret (Err e) => Ret (Err e)
  | Panic w => Panic w
  end.
Definition throw {A} (e : kv_error) : D A := λ _, Ret (Err e).

Definition remaining (d : decoder) : Z := zlen (d_buf d) - d_off d.
Definition skip (n : Z) (d : decoder) : decoder := mkDecoder (d_buf d) (d_off d + n).

Definition dec_byte : D byte := λ d,
  if remaining d <? 1 then Ret (Err (ErrTruncated (d_off d) 1 0)) else
  b ← index (d_buf d) (d_off d);
  Ret (Ok (b, skip 1 d)).

(** [binary.BigEndian.UintN(d.buf[d.off:])]: the first [n] bytes of the slice,
    which panics on a shorter one. *)
Definition bigEndian (n : Z) (d : decoder) : outcome Z :=
  tail ← slice_from (d_buf d) (d_off d);
  head ← slice_to tail n;
  Ret (be_dec head).

Definition dec_uint64 : D Z := λ d,
  if remaining d <? 8 then Ret (Err (ErrTruncated (d_off d) 8 (remaining d))) else
  v ← bigEndian 8 d;
  Ret (Ok (v, skip 8 d)).

Definition dec_uint32 : D Z := λ d,
  if remaining d <? 4 then Ret (Err (ErrTruncated (d_off d) 4 (remaining d))) else
  v ← bigEndian 4 d;
  Ret (Ok (v, skip 4 d)).

Definition bytesN (n : Z) : D (list byte) := λ d,
  if remaining d <? n then Ret (Err (ErrTruncated (d_off d) n (remaining d))) else
  b ← slice_of (d_buf d) (d_off d) (d_off d + n);
  Ret (Ok (b, skip n d)).

Definition dec_string : D (list byte) := n ← dec_uint32; bytesN n.

Definition optBytes : D (option (list byte)) :=
  flag ← dec_byte;
  if decide (flag = flagAbsent) then mret None
  else if decide (flag = flagPresent) then
    n ← dec_uint32;
    b ← bytesN n;
    mret (Some b)
  else λ d, Ret (Err (ErrFlag flag (d_off d - 1))).

Definition finish : D () := λ d,
  if negb (remaining d =? 0) then Ret (Err (ErrTrailing (remaining d))) else Ret (Ok ((), d)).

(** ** command.go: commands *)

Definition commandEncodingVersion : byte := x01.

Definition EncodeCommand (c : Command) : list byte :=
  let buf := [commandEncodingVersion] in
  let buf := appendUint64 buf (cmdClientID c) in
  let buf := appendUint64 buf (cmdSeq c) in
  let buf := buf ++ [cmdOp c] in
  let buf := appendString buf (cmdKey c) in
  let buf := appendOptBytes buf (cmdValue c) in
  appendOptBytes buf (cmdExpect c).

Definition valid_op (op : OpType) : bool := (b2z OpGet <=? b2z op) && (b2z op <=? b2z OpCAS).

Definition decodeCommand : D Command :=
  version ← dec_byte;
  if negb (bool_decide (version = commandEncodingVersion)) then throw (ErrCommandVersion version) else
  client ← dec_uint64;
  seq ← dec_uint64;
  op ← dec_byte;
  if negb (valid_op op) then throw (ErrOp op) else
  key ← dec_string;
  value ← optBytes;
  expect ← optBytes;
  _ ← finish;
  mret (mkCommand client seq op key value expect).

(** The result without the cursor. *)
Definition runD {A} (c : D A) (data : list byte) : outcome (result kv_error A) :=
  match c (mkDecoder data 0) with
  | Ret (Ok (a, _)) => Ret (Ok a)
  | Ret (Err e) => Ret (Err e)
  | Panic w => Panic w
  end.

Definition DecodeCommand (data : list byte) : outcome (result kv_error Command) :=
  runD decodeCommand data.

(** ** Well-formed data *)

(** A slice whose length its 4-byte length field can hold. *)
Definition short (b : list byte) : Prop := zlen b < u32_mod.
Definition short_opt (b : option (list byte)) : Prop := from_option short True b.

Record wf_command (c : Command) : Prop := mkWfCommand {
  wf_client : is_u64 (cmdClientID c);
  wf_seq : is_u64 (cmdSeq c);
  wf_op : valid_op (cmdOp c) = true;
  wf_key : short (cmdKey c);
  wf_value : short_opt (cmdValue c);
  wf_expect : short_opt (cmdExpect c)
}.

(** ** The decoder as a parser of the remaining bytes *)

(** The bytes not yet read. *)
Definition rest (d : decoder) : list byte := drop (Z.to_nat (d_off d)) (d_buf d).
Definition dec_wf (d : decoder) : Prop := 0 ≤ d_off d ≤ zlen (d_buf d).

(** [c] reads exactly [enc] and returns [a]. *)
Definition reads_as {A} (c : D A) (enc : list byte) (a : A) : Prop :=
  ∀ d tl, dec_wf d → rest d = enc ++ tl →
    ∃ d', c d = Ret (Ok (a, d')) ∧ dec_wf d' ∧ rest d' = tl.

(** [c] never panics, and what it accepts is a prefix related to the result. *)
Definition parser {A} (c : D A) (R : A → list byte → Prop) : Prop :=
  ∀ d, dec_wf d →
    match c d with
    | Ret (Ok (a, d')) => dec_wf d' ∧ ∃ enc, rest d = enc ++ rest d' ∧ R a enc
    | Ret (Err _) => True
    | Panic _ => False
    end.

Lemma rest_length d : dec_wf d → zlen (rest d) = remaining d.
Proof. intros [??]. unfold rest, remaining. by rewrite zlen_drop by lia. Qed.

Lemma skip_app d n : dec_wf d → 0 ≤ n ≤ remaining d →
  dec_wf (skip n d) ∧ rest d = take (Z.to_nat n) (rest d) ++ rest (skip n d).
Proof.
  unfold dec_wf, remaining, rest, skip. intros [? ?] [? ?]. simpl. split; [lia|].
  rewrite Z2Nat.inj_add, <-drop_drop by lia. by rewrite take_drop.
Qed.

Lemma rest_skip d n pre tl :
  dec_wf d → rest d = pre ++ tl → zlen pre = n → dec_wf (skip n d) ∧ rest (skip n d) = tl.
Proof.
  intros Hd Hr Hn. pose proof (zlen_nonneg pre).
  assert (n ≤ remaining d) by (rewrite <-rest_length, Hr, zlen_app by done; pose proof (zlen_nonneg tl); lia).
  destruct (skip_app d n) as [Hw E]; [done|lia|]. split; [done|].
  rewrite Hr in E at 1. rewrite Hr in E. unfold zlen in Hn.
  rewrite take_app_length' in E by lia. by apply app_inv_head in E.
Qed.

(** ** Rules *)

Lemma reads_as_ret {A} (a : A) : reads_as (mret a) [] a.
Proof. intros d tl Hd Hr. by exists d. Qed.
Lemma reads_as_bind {A B} (c : D A) (k : A → D B) e1 e2 a b :
  reads_as c e1 a → reads_as (k a) e2 b → reads_as (c ≫= k) (e1 ++ e2) b.
Proof.
  intros Hc Hk d tl Hd Hr. rewrite <-app_assoc in Hr.
  destruct (Hc d _ Hd Hr) as (d1 & E1 & Hd1 & Hr1). destruct (Hk d1 _ Hd1 Hr1) as (d2 & E2 & Hd2).
  exists d2. unfold mbind, D_bind. by rewrite E1.
Qed.
Lemma parser_ret {A} (a : A) : parser (mret a) (λ b enc, b = a ∧ enc = []).
Proof. intros d Hd. split; [done|]. by exists []. Qed.
Lemma parser_throw {A} e (R : A → list byte → Prop) : parser (throw e) R.
Proof. done. Qed.
Lemma parser_bind {A B} (c : D A) (k : A → D B) R R' :
  parser c R → (∀ a, parser (k a) (R' a)) →
  parser (c ≫= k) (λ b enc, ∃ a e1 e2, enc = e1 ++ e2 ∧ R a e1 ∧ R' a b e2).
Proof.
  intros Hc Hk d Hd. specialize (Hc d Hd). unfold mbind, D_bind.
  destruct (c d) as [[[a d']|]|]; [|done..]. destruct Hc as (Hd' & e1 & E1 & H1).
  specialize (Hk a d' Hd'). destruct (k a d') as [[[b d'']|]|]; [|done..].
  destruct Hk as (Hd'' & e2 & E2 & H2). split; [done|]. exists (e1 ++ e2). rewrite E1, E2, app_assoc.
  split; [done|]. by exists a, e1, e2.
Qed.
(** Sequencing with the bytes read so far. *)
Lemma parser_seq {A B} (c : D A) (k : A → D B) R (R' : B → list byte → Prop) :
  parser c R → (∀ a enc, R a enc → parser (k a) (λ b enc', R' b (enc ++ enc'))) →
  parser (c ≫= k) R'.
Proof.
  intros Hc Hk d Hd. specialize (Hc d Hd). unfold mbind, D_bind.
  destruct (c d) as [[[a d']|]|]; [|done..]. destruct Hc as (Hd' & e1 & E1 & H1).
  specialize (Hk a e1 H1 d' Hd'). destruct (k a d') as [[[b d'']|]|]; [|done..].
  destruct Hk as (Hd'' & e2 & E2 & H2). split; [done|]. exists (e1 ++ e2).
  by rewrite E1, E2, app_assoc.
Qed.
Lemma parser_return {A} (a : A) (R : A → list byte → Prop) : R a [] → parser (mret a) R.
Proof. intros HR d Hd. split; [done|]. by exists []. Qed.
Lemma parser_mono {A} (c : D A) (R R' : A → list byte → Prop) :
  parser c R → (∀ a enc, R a enc → R' a enc) → parser c R'.
Proof.
  intros Hc HR d Hd. specialize (Hc d Hd). destruct (c d) as [[[a d']|]|]; [|done..].
  destruct Hc as (Hd' & enc & E & Ha). split; [done|]. exists enc. auto.
Qed.

Lemma parser_ext {A} (c c' : D A) R : (∀ d, c d = c' d) → parser c R → parser c' R.
Proof. intros He Hc d Hd. rewrite <-He. by apply Hc. Qed.
Lemma D_bind_assoc {A B C} (c : D A) (k : A → D B) (k' : B → D C) d :
  ((c ≫= k) ≫= k') d = (c ≫= (λ a, k a ≫= k')) d.
Proof. unfold mbind, D_bind. by destruct (c d) as [[[a d']|]|]. Qed.

(** ** Primitive reads *)

Lemma bigEndian_spec n d : dec_wf d → 0 ≤ n ≤ remaining d →
  bigEndian n d = Ret (be_dec (take (Z.to_nat n) (rest d))).
Proof.
  intros Hd Hn. pose proof Hd as [??]. unfold bigEndian. rewrite slice_from_ok by done. simpl.
  fold (rest d). by rewrite slice_to_ok by (rewrite rest_length; done).
Qed.

(** A fixed-width big-endian integer. *)
Definition uintN (n : Z) : D Z := λ d,
  if remaining d <? n then Ret (Err (ErrTruncated (d_off d) n (remaining d))) else
  v ← bigEndian n d;
  Ret (Ok (v, skip n d)).

Lemma reads_uintN n v : 0 ≤ v < 256 ^ Z.of_nat n → reads_as (uintN (Z.of_nat n)) (be_enc n v) v.
Proof.
  intros Hv d tl Hd Hr. assert (Hz : zlen (be_enc n v) = Z.of_nat n) by apply zlen_be_enc.
  assert (Hn : Z.of_nat n ≤ remaining d).
  { rewrite <-rest_length, Hr, zlen_app by done. pose proof (zlen_nonneg tl). lia. }
  unfold uintN. destruct (Z.ltb_spec (remaining d) (Z.of_nat n)); [lia|].
  rewrite bigEndian_spec by (done || lia). simpl.
  destruct (rest_skip d (Z.of_nat n) (be_enc n v) tl) as [??]; [done..|].
  rewrite Hr, Nat2Z.id, take_app_length' by (by rewrite length_be_enc).
  rewrite be_dec_enc, Z.mod_small by done. by eexists.
Qed.
Lemma parser_uintN n :
  parser (uintN (Z.of_nat n)) (λ v enc, enc = be_enc n v ∧ 0 ≤ v < 256 ^ Z.of_nat n).
Proof.
  intros d Hd. unfold uintN. destruct (Z.ltb_spec (remaining d) (Z.of_nat n)); [done|].
  rewrite bigEndian_spec by (done || lia). simpl.
  destruct (skip_app d (Z.of_nat n)) as [Hd' E]; [done|lia|]. split; [done|].
  exists (take (Z.to_nat (Z.of_nat n)) (rest d)). split; [done|].
  set (enc := take _ _). assert (Hl : length enc = n).
  { unfold enc. rewrite length_take. pose proof (rest_length d Hd) as Hz. unfold zlen in Hz. lia. }
  split; [by rewrite be_enc_dec|]. rewrite <-Hl. apply be_dec_range.
Qed.

Lemma reads_uint64 v : is_u64 v → reads_as dec_uint64 (be_enc 8 v) v.
Proof. apply (reads_uintN 8). Qed.
Lemma reads_uint32 v : is_u32 v → reads_as dec_uint32 (be_enc 4 v) v.
Proof. apply (reads_uintN 4). Qed.
Lemma parser_uint64 : parser dec_uint64 (λ v enc, enc = be_enc 8 v ∧ is_u64 v).
Proof. apply (parser_uintN 8). Qed.
Lemma parser_uint32 : parser dec_uint32 (λ v enc, enc = be_enc 4 v ∧ is_u32 v).
Proof. apply (parser_uintN 4). Qed.

Lemma reads_byte b : reads_as dec_byte [b] b.
Proof.
  intros d tl Hd Hr. destruct (rest_skip d 1 [b] tl) as [??]; [done..|]. unfold dec_byte.
  pose proof (rest_length d Hd) as Hl. rewrite Hr in Hl. unfold zlen in Hl. simpl in Hl.
  destruct (Z.ltb_spec (remaining d) 1); [lia|].
  rewrite (index_lookup _ _ b); [simpl; by eexists|apply Hd|].
  rewrite <-(Nat.add_0_r (Z.to_nat _)), <-lookup_drop. fold (rest d). by rewrite Hr.
Qed.
Lemma parser_byte : parser dec_byte (λ b enc, enc = [b]).
Proof.
  intros d Hd. unfold dec_byte. destruct (Z.ltb_spec (remaining d) 1); [done|].
  destruct (skip_app d 1) as [Hd' E]; [done|lia|]. unfold remaining in *. pose proof Hd as [??].
  destruct (index_total (d_buf d) (d_off d)) as (b & Hb & ->); [lia|]. simpl. split; [done|].
  exists [b]. split; [|done]. rewrite E at 1. f_equal. change (Z.to_nat 1) with 1%nat.
  unfold rest. rewrite (drop_S _ b) by done. done.
Qed.

Lemma reads_bytesN b : reads_as (bytesN (zlen b)) b b.
Proof.
  intros d tl Hd Hr. destruct (rest_skip d (zlen b) b tl) as [??]; [done..|]. unfold bytesN.
  assert (zlen b ≤ remaining d).
  { rewrite <-rest_length, Hr, zlen_app by done. pose proof (zlen_nonneg tl). lia. }
  destruct (Z.ltb_spec (remaining d) (zlen b)); [lia|]. pose proof Hd as [??]. pose proof (zlen_nonneg b).
  unfold remaining in *. rewrite slice_of_ok by lia. simpl. fold (rest d).
  rewrite Hr, take_app_length' by (unfold zlen; lia). by eexists.
Qed.
Lemma parser_bytesN n : 0 ≤ n → parser (bytesN n) (λ b enc, enc = b ∧ zlen b = n).
Proof.
  intros Hn d Hd. unfold bytesN. destruct (Z.ltb_spec (remaining d) n); [done|].
  destruct (skip_app d n) as [Hd' E]; [done|lia|]. pose proof Hd as [??]. pose proof (rest_length d Hd).
  unfold remaining in *. rewrite slice_of_ok by lia. simpl. split; [done|].
  replace (d_off d + n - d_off d) with n by lia. fold (rest d). eexists. split; [exact E|].
  split; [done|]. apply zlen_take. lia.
Qed.

(** ** Strings and optional slices *)

(** What the encoders append. *)
Definition enc_string (s : list byte) : list byte := be_enc 4 (w32 (zlen s)) ++ s.
Definition enc_opt (b : option (list byte)) : list byte :=
  match b with None => [flagAbsent] | Some b => [flagPresent] ++ enc_string b end.

Lemma appendString_enc buf s : appendString buf s = buf ++ enc_string s.
Proof. unfold appendString, appendUint32, enc_string. by rewrite app_assoc. Qed.
Lemma appendOptBytes_enc buf b : appendOptBytes buf b = buf ++ enc_opt b.
Proof. destruct b; [|done]. simpl. unfold appendUint32, enc_string. by rewrite <-!app_assoc. Qed.

Lemma short_w32 s : short s → w32 (zlen s) = zlen s.
Proof. intros Hs. apply w32_id. pose proof (zlen_nonneg s). done. Qed.
Lemma short_u32 s : short s → is_u32 (zlen s).
Proof. intros Hs. pose proof (zlen_nonneg s). done. Qed.

Lemma reads_string s : short s → reads_as dec_string (enc_string s) s.
Proof.
  intros Hs. unfold dec_string, enc_string. rewrite short_w32 by done.
  eapply reads_as_bind; [by apply reads_uint32, short_u32|apply reads_bytesN].
Qed.
Lemma parser_string : parser dec_string (λ s enc, enc = enc_string s ∧ short s).
Proof.
  intros d Hd. unfold dec_string. pose proof (parser_uint32 d Hd) as Hn. unfold mbind, D_bind.
  destruct (dec_uint32 d) as [[[n d']|]|]; [|done..]. destruct Hn as (Hd' & e1 & E1 & -> & Hn).
  destruct Hn as [Hn0 Hn1]. pose proof (parser_bytesN n Hn0 d' Hd') as Hb.
  destruct (bytesN n d') as [[[b d'']|]|]; [|done..]. destruct Hb as (Hd'' & e2 & E2 & -> & Hl).
  split; [done|]. assert (Hs : short b) by (unfold short; lia). exists (enc_string b). split; [|done].
  unfold enc_string. rewrite short_w32, Hl, <-app_assoc, <-E2 by done. done.
Qed.

Lemma reads_opt b : short_opt b → reads_as optBytes (enc_opt b) b.
Proof.
  intros Hs. unfold optBytes. destruct b as [b|]; simpl.
  - change (flagPresent :: enc_string b) with ([flagPresent] ++ enc_string b).
    eapply reads_as_bind; [apply reads_byte|]. rewrite decide_False, decide_True by done.
    unfold enc_string. rewrite short_w32 by done.
    eapply reads_as_bind; [by apply reads_uint32, short_u32|].
    rewrite <-(app_nil_r b) at 2. eapply reads_as_bind; [apply reads_bytesN|apply reads_as_ret].
  - change [flagAbsent] with ([flagAbsent] ++ []).
    eapply reads_as_bind; [apply reads_byte|]. rewrite decide_True by done. apply reads_as_ret.
Qed.
Lemma parser_opt : parser optBytes (λ b enc, enc = enc_opt b ∧ short_opt b).
Proof.
  unfold optBytes. eapply parser_mono.
  - eapply (parser_bind _ _ _ (λ flag b enc, (flag = flagAbsent ∧ b = None ∧ enc = []) ∨
      (flag = flagPresent ∧ ∃ s, b = Some s ∧ enc = enc_string s ∧ short s))); [apply parser_byte|].
    intros flag. case_decide as Ha.
    { eapply parser_mono; [apply parser_ret|]. intros b enc [-> ->]. auto. }
    case_decide as Hp; [|done].
    apply (parser_ext (s ← dec_string; mret (Some s))); [intros d; apply D_bind_assoc|].
    eapply parser_mono.
    { eapply parser_bind; [apply parser_string|]. intros s. apply parser_ret. }
    intros b enc (s & e1 & e2 & -> & (-> & Hs) & -> & ->). right. split; [done|].
    exists s. by rewrite app_nil_r.
  - intros b enc (flag & e1 & e2 & -> & -> & [(-> & -> & ->)|(-> & s & -> & -> & Hs)]); done.
Qed.

(** ** Commands *)

Definition enc_command (c : Command) : list byte :=
  [commandEncodingVersion] ++ be_enc 8 (cmdClientID c) ++ be_enc 8 (cmdSeq c) ++ [cmdOp c] ++
  enc_string (cmdKey c) ++ enc_opt (cmdValue c) ++ enc_opt (cmdExpect c).

Lemma EncodeCommand_enc c : EncodeCommand c = enc_command c.
Proof.
  unfold EncodeCommand, enc_command. rewrite !appendOptBytes_enc, appendString_enc.
  unfold appendUint64. by rewrite <-!app_assoc.
Qed.

Lemma dec_wf_start data : dec_wf (mkDecoder data 0).
Proof. split; simpl; [lia|apply zlen_nonneg]. Qed.

Lemma runD_reads_as {A} (c : D A) data a : reads_as c data a → runD c data = Ret (Ok a).
Proof.
  intros Hr. destruct (Hr (mkDecoder data 0) []) as (d & E & _); [apply dec_wf_start|by rewrite app_nil_r|].
  unfold runD. by rewrite E.
Qed.

Lemma runD_parser {A} (c : D A) R data :
  parser c R →
  match runD c data with
  | Ret (Ok a) => ∃ enc tl, data = enc ++ tl ∧ R a enc
  | Ret (Err _) => True
  | Panic _ => False
  end.
Proof.
  intros Hp. specialize (Hp (mkDecoder data 0) (dec_wf_start data)). unfold runD.
  destruct (c _) as [[[a d]|]|]; [|done..]. destruct Hp as (_ & enc & E & HR). eauto.
Qed.

(** Reading to the very end. *)
Lemma finish_spec d u d' : dec_wf d → finish d = Ret (Ok (u, d')) → d' = d ∧ rest d = [].
Proof.
  intros Hd. unfold finish. destruct (Z.eqb_spec (remaining d) 0) as [E|]; [|done]. simpl. intros [= _ <-].
  split; [done|]. apply zlen_zero. by rewrite rest_length.
Qed.
(** [finish] succeeds exactly at the end of the input. *)
Lemma finish_end d : dec_wf d → rest d = [] → finish d = Ret (Ok ((), d)).
Proof.
  intros Hd Hr. unfold finish. by rewrite <-rest_length, Hr by done.
Qed.

(** The body of a decoder that ends with [finish]. *)
Lemma runD_finish {A} (c : D A) (data : list byte) a :
  reads_as c data a → runD (x ← c; _ ← finish; mret x) data = Ret (Ok a).
Proof.
  intros Hr. destruct (Hr (mkDecoder data 0) []) as (d & E & Hd & Hrest);
    [apply dec_wf_start|by rewrite app_nil_r|].
  unfold runD, mbind, D_bind. rewrite E. by rewrite finish_end.
Qed.
Lemma runD_finish_inv {A} (c : D A) R (data : list byte) :
  parser c R →
  match runD (x ← c; _ ← finish; mret x) data with
  | Ret (Ok a) => R a data
  | Ret (Err _) => True
  | Panic _ => False
  end.
Proof.
  intros Hp. specialize (Hp (mkDecoder data 0) (dec_wf_start data)). unfold runD, mbind, D_bind.
  destruct (c _) as [[[a d]|]|]; [|done..]. destruct Hp as (Hd & enc & E & HR).
  destruct (finish d) as [[[u d']|]|] eqn:Ef; [|done|].
  - apply finish_spec in Ef as [-> Hr]; [|done]. rewrite Hr, app_nil_r in E. simpl.
    change (data = enc) in E. by subst enc.
  - unfold finish in Ef. by destruct (negb _).
Qed.

(** [decodeCommand] up to its last test. *)
Definition commandBody : D Command :=
  version ← dec_byte;
  if negb (bool_decide (version = commandEncodingVersion)) then throw (ErrCommandVersion version) else
  client ← dec_uint64;
  seq ← dec_uint64;
  op ← dec_byte;
  if negb (valid_op op) then throw (ErrOp op) else
  key ← dec_string;
  value ← optBytes;
  expect ← optBytes;
  mret (mkCommand client seq op key value expect).

Lemma decodeCommand_body data :
  DecodeCommand data = runD (c ← commandBody; _ ← finish; mret c) data.
Proof.
  unfold DecodeCommand, runD, decodeCommand, commandBody, mbind, D_bind, throw, mret, D_ret.
  repeat (case_match; simplify_eq; try done).
Qed.

Lemma reads_command c : wf_command c → reads_as commandBody (enc_command c) c.
Proof.
  intros []. unfold commandBody, enc_command.
  eapply reads_as_bind; [apply reads_byte|]. rewrite bool_decide_true by done. cbn [negb].
  eapply reads_as_bind; [by apply reads_uint64|]. eapply reads_as_bind; [by apply reads_uint64|].
  eapply reads_as_bind; [apply reads_byte|]. rewrite wf_op0. cbn [negb].
  eapply reads_as_bind; [by apply reads_string|]. eapply reads_as_bind; [by apply reads_opt|].
  rewrite <-(app_nil_r (enc_opt (cmdExpect c))).
  eapply reads_as_bind; [by apply reads_opt|]. destruct c. apply reads_as_ret.
Qed.
Lemma parser_command : parser commandBody (λ c enc, enc = enc_command c ∧ wf_command c).
Proof.
  unfold commandBody. eapply parser_seq; [apply parser_byte|]. intros v ? ->.
  case_bool_decide; simpl; [subst v|done].
  eapply parser_seq; [apply parser_uint64|]. intros client ? [-> Hclient].
  eapply parser_seq; [apply parser_uint64|]. intros seq ? [-> Hseq].
  eapply parser_seq; [apply parser_byte|]. intros op ? ->.
  destruct (valid_op op) eqn:Hop; simpl; [|done].
  eapply parser_seq; [apply parser_string|]. intros key ? [-> Hkey].
  eapply parser_seq; [apply parser_opt|]. intros value ? [-> Hvalue].
  eapply parser_seq; [apply parser_opt|]. intros expect ? [-> Hexpect].
  apply parser_return. split; [|done]. unfold enc_command. by rewrite app_nil_r.
Qed.

(** ** Properties *)

(** C31: decoding an encoded well-formed command gives the command back, with nil and empty
    slices kept apart. *)
Theorem command_roundtrip c : wf_command c → DecodeCommand (EncodeCommand c) = Ret (Ok c).
Proof.
  intros Hc. rewrite decodeCommand_body, EncodeCommand_enc. by apply runD_finish, reads_command.
Qed.

(** C32: decoding never panics, whatever the bytes, and is strict: it accepts
    only the encoding of the command it returns, which is well-formed. *)
Theorem command_decode_strict data :
  match DecodeCommand data with
  | Ret (Ok c) => data = EncodeCommand c ∧ wf_command c
  | Ret (Err _) => True
  | Panic _ => False
  end.
Proof.
  rewrite decodeCommand_body. pose proof (runD_finish_inv commandBody _ data parser_command) as Hd.
  destruct (runD _ data) as [[c|]|]; [|done..]. by rewrite EncodeCommand_enc.
Qed.

Lemma command_roundtrip_witness :
  let c := mkCommand 7 1 OpCAS [x61] (Some []) None in DecodeCommand (EncodeCommand c) = Ret (Ok c).
Proof.
  apply (command_roundtrip (mkCommand 7 1 OpCAS [x61] (Some []) None)). by constructor.
Defined.
