(* ===== verification/KvStateMachine.v ===== *)
(** * The replicated key-value state machine (src/kv/kv.go)

    [StateMachine] is the store with the session table.  Go maps are [gmap]s;
    where the source iterates over one ([Snapshot]), the iteration order is an
    argument, any permutation of the keys.  [bytes.Clone] keeps a slice from
    being shared; model values are never shared, so it is the identity. *)

From S2P Require Import Prelude KvCodec.

(** ** Data *)

Definition Status : Type := byte.
Definition StatusOK : Status := x00.
Definition StatusNotFound : Status := x01.
Definition StatusCASMismatch : Status := x02.
Definition StatusStaleSeq : Status := x03.

Record Result : Type := mkResult {
  resStatus : Status;
  resValue : option (list byte);
  resVersion : Z
}.
Record ValueRecord : Type := mkValueRecord {
  recValue : option (list byte);
  recVersion : Z
}.
Record Session : Type := mkSession {
  sessLastSeq : Z;
  sessLastResult : Result
}.
Record StateMachine : Type := mkStateMachine {
  data : gmap (list byte) ValueRecord;
  sessions : gmap Z Session
}.

#[export] Instance Result_eq_dec : EqDecision Result.
Proof. solve_decision. Defined.
#[export] Instance ValueRecord_eq_dec : EqDecision ValueRecord.
Proof. solve_decision. Defined.
#[export] Instance Session_eq_dec : EqDecision Session.
Proof. solve_decision. Defined.

Definition NewStateMachine : StateMachine := mkStateMachine ∅ ∅.
Definition set_data (v : gmap (list byte) ValueRecord) (m : StateMachine) : StateMachine :=
  mkStateMachine v (sessions m).
Definition set_sessions (v : gmap Z Session) (m : StateMachine) : StateMachine :=
  mkStateMachine (data m) v.

(** The zero values a missing key reads as. *)
Definition zeroRecord : ValueRecord := mkValueRecord None 0.
Definition zeroSession : Session := mkSession 0 (mkResult StatusOK None 0).
Definition statusOnly (s : Status) : Result := mkResult s None 0.

(** ** Commands *)

Definition kv_get (key : list byte) (m : StateMachine) : Result :=
  match data m !! key with
  | None => statusOnly StatusNotFound
  | Some rec => mkResult StatusOK (recValue rec) (recVersion rec)
  end.

(** [bytes.Equal] does not tell nil from empty. *)
Definition bytesEqual (a b : option (list byte)) : bool := bool_decide (default [] a = default [] b).

(** Stores [value] under [key] with the next version. *)
Definition kv_store (key : list byte) (value : option (list byte)) : M StateMachine Result :=
  m ← get;
  let rec := mkValueRecord value (recVersion (default zeroRecord (data m !! key)) +w 1) in
  modify (set_data (<[key := rec]> (data m)));;
  mret (mkResult StatusOK None (recVersion rec)).

Definition cas (cmd : Command) : M StateMachine Result :=
  m ← get;
  let mismatch cur := mret (mkResult StatusCASMismatch (recValue cur) (recVersion cur)) in
  match cmdExpect cmd, data m !! cmdKey cmd with
  | None, Some cur => mismatch cur
  | Some _, None => mret (statusOnly StatusCASMismatch)
  | Some expect, Some cur =>
      if bytesEqual (recValue cur) (Some expect) then kv_store (cmdKey cmd) (cmdValue cmd)
      else mismatch cur
  | None, None => kv_store (cmdKey cmd) (cmdValue cmd)
  end.

Definition execute (cmd : Command) : M StateMachine Result :=
  if decide (cmdOp cmd = OpGet) then gets (kv_get (cmdKey cmd))
  else if decide (cmdOp cmd = OpPut) then kv_store (cmdKey cmd) (cmdValue cmd)
  else if decide (cmdOp cmd = OpDelete) then
    m ← get;
    match data m !! cmdKey cmd with
    | None => mret (statusOnly StatusNotFound)
    | Some _ => modify (set_data (delete (cmdKey cmd) (data m)));; mret (statusOnly StatusOK)
    end
  else if decide (cmdOp cmd = OpCAS) then cas cmd
  else fails PanicInvalidOp.

Definition Apply (cmd : Command) : M StateMachine Result :=
  m ← get;
  let run :=
    res ← execute cmd;
    m ← get;
    modify (set_sessions (<[cmdClientID cmd := mkSession (cmdSeq cmd) res]> (sessions m)));;
    mret res in
  match sessions m !! cmdClientID cmd with
  | Some sess =>
      if cmdSeq cmd =? sessLastSeq sess then mret (sessLastResult sess)
      else if cmdSeq cmd <? sessLastSeq sess then mret (statusOnly StatusStaleSeq)
      else run
  | None => run
  end.

Definition Read (key : list byte) (m : StateMachine) : Result := kv_get key m.
Definition Len (m : StateMachine) : Z := Z.of_nat (size (data m)).

(** ** Snapshots *)

(** Go's order of strings. *)
Fixpoint str_leb (a b : list byte) : bool :=
  match a, b with
  | [], _ => true
  | _, [] => false
  | x :: a, y :: b => if b2z x <? b2z y then true else if b2z y <? b2z x then false else str_leb a b
  end.
Definition str_le (a b : list byte) : Prop := str_leb a b = true.
#[export] Instance str_le_dec a b : Decision (str_le a b).
Proof. unfold str_le. apply _. Defined.

Definition snapshotEncodingVersion : byte := x01.

(** One iteration of the two loops of [Snapshot]. *)
Definition appendSession (m : StateMachine) (buf : list byte) (id : Z) : list byte :=
  let sess := default zeroSession (sessions m !! id) in
  let buf := appendUint64 buf id in
  let buf := appendUint64 buf (sessLastSeq sess) in
  let buf := buf ++ [resStatus (sessLastResult sess)] in
  let buf := appendOptBytes buf (resValue (sessLastResult sess)) in
  appendUint64 buf (resVersion (sessLastResult sess)).
Definition appendKey (m : StateMachine) (buf : list byte) (k : list byte) : list byte :=
  let rec := default zeroRecord (data m !! k) in
  let buf := appendString buf k in
  let buf := appendOptBytes buf (recValue rec) in
  appendUint64 buf (recVersion rec).

(** [ids] and [keys] are the orders in which the two maps are iterated. *)
Definition Snapshot (ids : list Z) (keys : list (list byte)) (m : StateMachine) : list byte :=
  let buf := [snapshotEncodingVersion] in
  let clientIDs := merge_sort Z.le ids in
  let buf := appendUint64 buf (zlen clientIDs) in
  let buf := foldl (appendSession m) buf clientIDs in
  let keys := merge_sort str_le keys in
  let buf := appendUint64 buf (zlen keys) in
  foldl (appendKey m) buf keys.

(** The loops of [Restore], on the number of entries left to read. *)
Fixpoint restoreSessions (n : nat) (acc : gmap Z Session) : D (gmap Z Session) :=
  match n with
  | O => mret acc
  | Datatypes.S n =>
      id ← dec_uint64;
      seq ← dec_uint64;
      st ← dec_byte;
      value ← optBytes;
      version ← dec_uint64;
      restoreSessions n (<[id := mkSession seq (mkResult st value version)]> acc)
  end.
Fixpoint restoreKeys (n : nat) (acc : gmap (list byte) ValueRecord) : D (gmap (list byte) ValueRecord) :=
  match n with
  | O => mret acc
  | Datatypes.S n =>
      key ← dec_string;
      value ← optBytes;
      version ← dec_uint64;
      restoreKeys n (<[key := mkValueRecord value version]> acc)
  end.

(** [n] entries of at least [sz] bytes fit the rest of the input. *)
Definition checkCount (n sz : Z) (e : kv_error) : D () := λ d,
  if remaining d / sz <? n then Ret (Err e) else Ret (Ok ((), d)).

Definition restoreBody : D StateMachine :=
  version ← dec_byte;
  if negb (bool_decide (version = snapshotEncodingVersion)) then throw (ErrSnapshotVersion version) else
  nSessions ← dec_uint64;
  _ ← checkCount nSessions 26 (ErrSessionCount nSessions);
  ss ← restoreSessions (Z.to_nat nSessions) ∅;
  nKeys ← dec_uint64;
  _ ← checkCount nKeys 13 (ErrKeyCount nKeys);
  kvs ← restoreKeys (Z.to_nat nKeys) ∅;
  mret (mkStateMachine kvs ss).

Definition Restore (snapshot : list byte) : M StateMachine (option kv_error) := λ m,
  r ← runD (x ← restoreBody; _ ← finish; mret x) snapshot;
  match r with
  | Ok m' => Ret (None, m')
  | Err e => Ret (Some e, m)
  end.

Lemma kv_store_eq key value m :
  kv_store key value m =
    let v := recVersion (default zeroRecord (data m !! key)) +w 1 in
    Ret (mkResult StatusOK None v, set_data (<[key := mkValueRecord value v]> (data m)) m).
Proof. done. Qed.

(** ** Lemmas: the order of strings *)

#[export] Instance str_le_total : Total str_le.
Proof.
  unfold str_le. intros a. induction a as [|x a IH]; intros [|y b]; simpl; auto.
  bdestr; auto; try lia.
Qed.
#[export] Instance str_le_trans : Transitive str_le.
Proof.
  unfold str_le. intros a. induction a as [|x a IH]; intros [|y b] [|z c]; simpl; try done.
  bdestr; try done; try lia. apply IH.
Qed.
#[export] Instance str_le_antisymm : AntiSymm (=) str_le.
Proof.
  unfold str_le. intros a. induction a as [|x a IH]; intros [|y b]; simpl; try done.
  bdestr; try done; try lia. intros H1 H2. assert (x = y) as -> by (apply b2z_inj; lia). f_equal. auto.
Qed.
#[export] Instance Zle_antisymm : AntiSymm (=) Z.le.
Proof. intros x y. lia. Qed.
#[export] Instance Zle_total : Total Z.le.
Proof. intros x y. lia. Qed.
#[export] Instance Zle_trans : Transitive Z.le.
Proof. intros x y z. lia. Qed.

(** Sorting forgets the order of the input. *)
Lemma merge_sort_unique {A} (R : relation A) `{∀ x y, Decision (R x y), !Total R, !Transitive R,
    !AntiSymm (=) R} (l l' : list A) : l ≡ₚ l' → merge_sort R l = merge_sort R l'.
Proof.
  intros Hp. apply (StronglySorted_unique R); [apply StronglySorted_merge_sort..|]; [done..|].
  by rewrite !merge_sort_Permutation.
Qed.

(** ** Lemmas: what snapshots are made of *)

Definition enc_session (p : Z * Session) : list byte :=
  be_enc 8 p.1 ++ be_enc 8 (sessLastSeq p.2) ++ [resStatus (sessLastResult p.2)] ++
  enc_opt (resValue (sessLastResult p.2)) ++ be_enc 8 (resVersion (sessLastResult p.2)).
Definition enc_key (p : list byte * ValueRecord) : list byte :=
  enc_string p.1 ++ enc_opt (recValue p.2) ++ be_enc 8 (recVersion p.2).

(** The entries of the two maps, in the order of the keys given. *)
Definition entries_of {K A} `{Countable K} (z : A) (m : gmap K A) (ks : list K) : list (K * A) :=
  map (λ k, (k, default z (m !! k))) ks.

Lemma foldl_appendSession m ids buf :
  foldl (appendSession m) buf ids = buf ++ concat (map enc_session (entries_of zeroSession (sessions m) ids)).
Proof.
  revert buf. induction ids as [|id ids IH]; intros buf; simpl; [by rewrite app_nil_r|].
  rewrite IH. unfold appendSession, enc_session, appendUint64. simpl. rewrite appendOptBytes_enc.
  by rewrite <-!app_assoc.
Qed.
Lemma foldl_appendKey m ks buf :
  foldl (appendKey m) buf ks = buf ++ concat (map enc_key (entries_of zeroRecord (data m) ks)).
Proof.
  revert buf. induction ks as [|k ks IH]; intros buf; simpl; [by rewrite app_nil_r|].
  rewrite IH. unfold appendKey, enc_key, appendUint64. simpl. rewrite appendOptBytes_enc, appendString_enc.
  by rewrite <-!app_assoc.
Qed.

(** The keys of a map, in the order [ks] they are iterated in. *)
Definition iterates {K A} `{Countable K} (ks : list K) (m : gmap K A) : Prop :=
  ks ≡ₚ (map_to_list m).*1.

Lemma entries_of_iterates {K A} `{Countable K} (z : A) (m : gmap K A) ks :
  iterates ks m → entries_of z m ks ≡ₚ map_to_list m.
Proof.
  unfold iterates, entries_of. intros ->.
  assert (Ha : ∀ l : list (K * A), (∀ k x, (k, x) ∈ l → m !! k = Some x) →
    map (λ k, (k, default z (m !! k))) l.*1 = l).
  { intros l. induction l as [|[k x] l IH]; intros Hl; [done|]. simpl. rewrite (Hl k x) by (by left). simpl.
    f_equal. apply IH. intros k' x' ?. apply Hl. by right. }
  rewrite Ha; [done|]. intros k x. by apply elem_of_map_to_list.
Qed.

Lemma foldl_insert_list {K A} `{Countable K} (l : list (K * A)) :
  foldl (λ acc p, <[p.1 := p.2]> acc) (∅ : gmap K A) l = list_to_map (reverse l).
Proof.
  induction l as [|p l IH] using rev_ind; [done|].
  rewrite foldl_app, reverse_app. simpl. by rewrite IH.
Qed.
Lemma foldl_insert_map {K A} `{Countable K} (l : list (K * A)) (m : gmap K A) :
  l ≡ₚ map_to_list m → foldl (λ acc p, <[p.1 := p.2]> acc) ∅ l = m.
Proof.
  intros Hl. rewrite foldl_insert_list, <-(list_to_map_to_list m).
  apply list_to_map_proper.
  - rewrite reverse_Permutation, Hl. apply NoDup_fst_map_to_list.
  - by rewrite reverse_Permutation.
Qed.

(** ** Well-formed states *)

Definition wf_result (r : Result) : Prop := short_opt (resValue r) ∧ is_u64 (resVersion r).
Definition wf_session (id : Z) (s : Session) : Prop :=
  is_u64 id ∧ is_u64 (sessLastSeq s) ∧ wf_result (sessLastResult s).
Definition wf_record (k : list byte) (r : ValueRecord) : Prop :=
  short k ∧ short_opt (recValue r) ∧ is_u64 (recVersion r).
Definition wf_maps (m : StateMachine) : Prop :=
  map_Forall wf_session (sessions m) ∧ map_Forall wf_record (data m).
(** The counts fit their 8-byte fields. *)
Definition wf_sm (m : StateMachine) : Prop :=
  wf_maps m ∧ is_u64 (Z.of_nat (size (sessions m))) ∧ is_u64 (Z.of_nat (size (data m))).

(** ** Lemmas: reading a snapshot back *)

Lemma reads_sessions l acc :
  Forall (λ p, wf_session p.1 p.2) l →
  reads_as (restoreSessions (length l) acc) (concat (map enc_session l))
    (foldl (λ acc p, <[p.1 := p.2]> acc) acc l).
Proof.
  intros Hl. revert acc. induction Hl as [|[id [seq [st v ver]]] l (Hid & Hseq & Hv & Hver) Hl IH]; intros acc; [apply reads_as_ret|].
  cbn [map concat length restoreSessions foldl]. unfold enc_session at 1.
  cbn [fst snd sessLastSeq sessLastResult resStatus resValue resVersion] in *. rewrite <-!app_assoc.
  eapply reads_as_bind; [by apply reads_uint64|]. eapply reads_as_bind; [by apply reads_uint64|].
  eapply reads_as_bind; [apply reads_byte|].
  eapply reads_as_bind; [by apply reads_opt|]. eapply reads_as_bind; [by apply reads_uint64|]. apply IH.
Qed.
Lemma reads_keys l acc :
  Forall (λ p, wf_record p.1 p.2) l →
  reads_as (restoreKeys (length l) acc) (concat (map enc_key l))
    (foldl (λ acc p, <[p.1 := p.2]> acc) acc l).
Proof.
  intros Hl. revert acc. induction Hl as [|[k [v ver]] l (Hk & Hv & Hver) Hl IH]; intros acc; [apply reads_as_ret|].
  cbn [map concat length restoreKeys foldl]. unfold enc_key at 1.
  cbn [fst snd recValue recVersion] in *. rewrite <-!app_assoc.
  eapply reads_as_bind; [by apply reads_string|].
  eapply reads_as_bind; [by apply reads_opt|]. eapply reads_as_bind; [by apply reads_uint64|]. apply IH.
Qed.

Lemma enc_opt_length b : 1 ≤ zlen (enc_opt b).
Proof.
  destruct b as [l|]; [|done]. unfold enc_opt. rewrite zlen_app. pose proof (zlen_nonneg (enc_string l)).
  change (zlen [flagPresent]) with 1. lia.
Qed.
Lemma enc_session_length p : 26 ≤ zlen (enc_session p).
Proof.
  unfold enc_session. pose proof (enc_opt_length (resValue (sessLastResult p.2))).
  autorewrite with zlen. lia.
Qed.
Lemma enc_key_length p : 13 ≤ zlen (enc_key p).
Proof.
  unfold enc_key, enc_string. pose proof (enc_opt_length (recValue p.2)). pose proof (zlen_nonneg p.1).
  autorewrite with zlen. lia.
Qed.
Lemma concat_min_length {A} (f : A → list byte) sz l :
  (∀ p, sz ≤ zlen (f p)) → sz * zlen l ≤ zlen (concat (map f l)).
Proof.
  intros Hf. induction l as [|p l IH]; [rewrite zlen_nil, Z.mul_0_r; apply zlen_nonneg|].
  cbn [map concat]. rewrite zlen_app, zlen_cons. specialize (Hf p). lia.
Qed.

(** A count that the bytes behind it bear out. *)
Lemma reads_count {A} n sz e (c : D A) enc a :
  0 < sz → sz * n ≤ zlen enc → reads_as c enc a → reads_as (_ ← checkCount n sz e; c) enc a.
Proof.
  intros Hsz Hn Hc d tl Hd Hr. unfold checkCount, mbind, D_bind.
  assert (n ≤ remaining d / sz).
  { apply Z.div_le_lower_bound; [lia|]. rewrite <-rest_length, Hr, zlen_app by done.
    pose proof (zlen_nonneg tl). lia. }
  destruct (Z.ltb_spec (remaining d / sz) n); [lia|]. by apply Hc.
Qed.

Lemma reads_snapshot ids keys m :
  wf_sm m → iterates ids (sessions m) → iterates keys (data m) →
  reads_as restoreBody (Snapshot ids keys m) m.
Proof.
  intros ([Hs Hk] & Hns & Hnk) Hi Hki. unfold Snapshot.
  set (ids' := merge_sort Z.le ids). set (keys' := merge_sort str_le keys).
  assert (Hi' : iterates ids' (sessions m)) by (unfold iterates, ids'; by rewrite merge_sort_Permutation).
  assert (Hk' : iterates keys' (data m)) by (unfold iterates, keys'; by rewrite merge_sort_Permutation).
  rewrite foldl_appendKey, foldl_appendSession. unfold appendUint64. rewrite <-!app_assoc.
  set (sl := entries_of zeroSession (sessions m) ids'). set (kl := entries_of zeroRecord (data m) keys').
  pose proof (entries_of_iterates zeroSession _ _ Hi') as Hsl. fold sl in Hsl.
  pose proof (entries_of_iterates zeroRecord _ _ Hk') as Hkl. fold kl in Hkl.
  assert (Els : zlen ids' = zlen sl) by (unfold sl, entries_of, zlen; by rewrite length_map).
  assert (Elk : zlen keys' = zlen kl) by (unfold kl, entries_of, zlen; by rewrite length_map).
  assert (Hzs : zlen sl = Z.of_nat (size (sessions m))) by (unfold zlen; by rewrite Hsl, length_map_to_list).
  assert (Hzk : zlen kl = Z.of_nat (size (data m))) by (unfold zlen; by rewrite Hkl, length_map_to_list).
  rewrite Els, Elk. unfold restoreBody.
  eapply reads_as_bind; [apply reads_byte|]. rewrite bool_decide_true by done. cbn [negb].
  eapply reads_as_bind; [apply reads_uint64; by rewrite Hzs|].
  apply reads_count; [lia|rewrite zlen_app; pose proof (concat_min_length enc_session 26 sl enc_session_length);
    match goal with |- _ ≤ _ + zlen ?x => pose proof (zlen_nonneg x) end; lia|].
  unfold zlen at 1. rewrite Nat2Z.id.
  eapply reads_as_bind; [apply reads_sessions|].
  { apply Forall_forall. intros [id s] Hin. rewrite Hsl in Hin. by apply Hs, elem_of_map_to_list. }
  eapply reads_as_bind; [apply reads_uint64; by rewrite Hzk|].
  apply reads_count; [lia|apply concat_min_length, enc_key_length|].
  unfold zlen at 1. rewrite Nat2Z.id. rewrite <-(app_nil_r (concat _)).
  eapply reads_as_bind; [apply reads_keys|].
  { apply Forall_forall. intros [k v] Hin. rewrite Hkl in Hin. by apply Hk, elem_of_map_to_list. }
  rewrite (foldl_insert_map sl (sessions m)), (foldl_insert_map kl (data m)) by done. destruct m. apply reads_as_ret.
Qed.

Lemma parser_sessions n acc :
  map_Forall wf_session acc →
  parser (restoreSessions n acc) (λ m _, map_Forall wf_session m).
Proof.
  revert acc. induction n as [|n IH]; intros acc Hacc; [by apply parser_return|]. cbn [restoreSessions].
  eapply parser_seq; [apply parser_uint64|]. intros id ? [_ Hid].
  eapply parser_seq; [apply parser_uint64|]. intros seq ? [_ Hseq].
  eapply parser_seq; [apply parser_byte|]. intros st ? _.
  eapply parser_seq; [apply parser_opt|]. intros v ? [_ Hv].
  eapply parser_seq; [apply parser_uint64|]. intros ver ? [_ Hver].
  apply IH, map_Forall_insert_2; [|done]. by split_and!.
Qed.
Lemma parser_keys n acc :
  map_Forall wf_record acc → parser (restoreKeys n acc) (λ m _, map_Forall wf_record m).
Proof.
  revert acc. induction n as [|n IH]; intros acc Hacc; [by apply parser_return|]. cbn [restoreKeys].
  eapply parser_seq; [apply parser_string|]. intros k ? [_ Hk].
  eapply parser_seq; [apply parser_opt|]. intros v ? [_ Hv].
  eapply parser_seq; [apply parser_uint64|]. intros ver ? [_ Hver].
  apply IH, map_Forall_insert_2; [|done]. by split_and!.
Qed.
Lemma parser_count n sz e : parser (checkCount n sz e) (λ _ enc, enc = []).
Proof. intros d Hd. unfold checkCount. destruct (_ <? _); [done|]. split; [done|]. by exists []. Qed.

Lemma parser_restore : parser restoreBody (λ m _, wf_maps m).
Proof.
  unfold restoreBody. eapply parser_seq; [apply parser_byte|]. intros v ? _.
  destruct (negb _); [done|].
  eapply parser_seq; [apply parser_uint64|]. intros n ? _.
  eapply parser_seq; [apply parser_count|]. intros ? ? _.
  eapply parser_seq; [apply parser_sessions, map_Forall_empty|]. intros ss ? Hss.
  eapply parser_seq; [apply parser_uint64|]. intros k ? _.
  eapply parser_seq; [apply parser_count|]. intros ? ? _.
  eapply parser_seq; [apply parser_keys, map_Forall_empty|]. intros ks ? Hks.
  by apply parser_return.
Qed.

(** ** Lemmas: applying commands *)

Fixpoint applyAll (cmds : list Command) : M StateMachine (list Result) :=
  match cmds with
  | [] => mret []
  | c :: cmds => r ← Apply c; rs ← applyAll cmds; mret (r :: rs)
  end.

(** The commands of a sequence that execute: those above the highest sequence
    number their client has shown so far. *)
Definition newer (last : gmap Z Z) (c : Command) : bool :=
  match last !! cmdClientID c with Some s => s <? cmdSeq c | None => true end.
Fixpoint fresh (last : gmap Z Z) (cmds : list Command) : list Command :=
  match cmds with
  | [] => []
  | c :: cmds =>
      if newer last c
      then c :: fresh (<[cmdClientID c := cmdSeq c]> last) cmds
      else fresh last cmds
  end.

(** Executes commands on the store alone. *)
Fixpoint executeAll (cmds : list Command) : M StateMachine () :=
  match cmds with
  | [] => mret ()
  | c :: cmds => _ ← execute c; executeAll cmds
  end.

(** [execute] neither reads nor writes the sessions, and only an invalid
    operation makes it panic. *)
Lemma execute_store c m ss :
  valid_op (cmdOp c) = true →
  ∃ r m', execute c m = Ret (r, m') ∧ sessions m' = sessions m ∧
    execute c (set_sessions ss m) = Ret (r, set_sessions ss m').
Proof.
  intros Hv. unfold execute, cas, kv_store, gets, modify, fails, mbind, M_bind, mret, M_ret, get, kv_get; simpl.
  repeat (case_decide; [repeat (case_match; simpl in *; simplify_eq); do 2 eexists; split_and!; done|]).
  exfalso. unfold valid_op, OpGet, OpPut, OpDelete, OpCAS in *.
  apply andb_true_iff in Hv as [H5%Z.leb_le H6%Z.leb_le].
  assert (Hc : b2z (cmdOp c) = 1 ∨ b2z (cmdOp c) = 2 ∨ b2z (cmdOp c) = 3 ∨ b2z (cmdOp c) = 4).
  { change (b2z x01) with 1 in H5. change (b2z x04) with 4 in H6. lia. }
  destruct Hc as [E|[E|[E|E]]].
  - apply (b2z_inj (cmdOp c) x01) in E. done.
  - apply (b2z_inj (cmdOp c) x02) in E. done.
  - apply (b2z_inj (cmdOp c) x03) in E. done.
  - apply (b2z_inj (cmdOp c) x04) in E. done.
Qed.

(** The highest sequence number applied, per client. *)
Definition lastSeqs (m : StateMachine) : gmap Z Z := sessLastSeq <$> sessions m.

(** [Apply] executes a newer command and records it; anything else leaves the
    state as it is. *)
Lemma Apply_newer_eq c m :
  newer (lastSeqs m) c = true →
  Apply c m = match execute c m with
              | Ret (r, m') => Ret (r, set_sessions (<[cmdClientID c := mkSession (cmdSeq c) r]> (sessions m')) m')
              | Panic w => Panic w
              end.
Proof.
  unfold newer, lastSeqs. rewrite lookup_fmap. intros Hn. unfold Apply. unfold mbind at 1, M_bind. simpl.
  destruct (sessions m !! cmdClientID c) as [s|]; simpl in Hn; unfold mbind, M_bind;
    [|by destruct (execute c m) as [[??]|]].
  apply Z.ltb_lt in Hn. destruct (Z.eqb_spec (cmdSeq c) (sessLastSeq s)); [lia|].
  destruct (Z.ltb_spec (cmdSeq c) (sessLastSeq s)); [lia|]. by destruct (execute c m) as [[??]|].
Qed.
Lemma Apply_newer c m r m' :
  newer (lastSeqs m) c = true → execute c m = Ret (r, m') →
  Apply c m = Ret (r, set_sessions (<[cmdClientID c := mkSession (cmdSeq c) r]> (sessions m')) m').
Proof. intros Hn He. rewrite Apply_newer_eq by done. by rewrite He. Qed.
Lemma Apply_older c m :
  newer (lastSeqs m) c = false →
  ∃ s, sessions m !! cmdClientID c = Some s ∧ cmdSeq c ≤ sessLastSeq s ∧
    Apply c m = Ret (if cmdSeq c =? sessLastSeq s then sessLastResult s else statusOnly StatusStaleSeq, m).
Proof.
  unfold newer, lastSeqs. rewrite lookup_fmap. unfold Apply. unfold mbind at 1, M_bind. simpl.
  destruct (sessions m !! cmdClientID c) as [s|]; simpl; [|done]. intros Hn%Z.ltb_ge.
  exists s. split_and!; [done|done|]. destruct (Z.eqb_spec (cmdSeq c) (sessLastSeq s)); [done|].
  destruct (Z.ltb_spec (cmdSeq c) (sessLastSeq s)); [done|lia].
Qed.

Lemma lastSeqs_record c r m :
  lastSeqs (set_sessions (<[cmdClientID c := mkSession (cmdSeq c) r]> (sessions m)) m) =
  <[cmdClientID c := cmdSeq c]> (lastSeqs m).
Proof. unfold lastSeqs. simpl. by rewrite fmap_insert. Qed.

Lemma executeAll_store cmds m ss m' :
  Forall (λ c, valid_op (cmdOp c) = true) cmds →
  executeAll cmds m = Ret ((), m') → executeAll cmds (set_sessions ss m) = Ret ((), set_sessions ss m').
Proof.
  intros Hv. revert m. induction Hv as [|c cmds Hc Hv IH]; intros m; simpl; [by intros [= <-]|].
  destruct (execute_store c m ss Hc) as (r & m1 & E & _ & E'). unfold mbind, M_bind. rewrite E, E'. apply IH.
Qed.

Lemma fresh_Forall (Q : Command → Prop) last cmds : Forall Q cmds → Forall Q (fresh last cmds).
Proof. intros HQ. revert last. induction HQ; intros last; simpl; [done|]. case_match; auto. Qed.

Lemma applyAll_fresh cmds m :
  Forall (λ c, valid_op (cmdOp c) = true) cmds →
  ∃ rs m' m'', applyAll cmds m = Ret (rs, m') ∧
    executeAll (fresh (lastSeqs m) cmds) m = Ret ((), m'') ∧ data m' = data m''.
Proof.
  intros Hv. revert m. induction Hv as [|c cmds Hc Hv IH]; intros m; simpl; [by exists [], m, m|].
  unfold mbind, M_bind. destruct (newer (lastSeqs m) c) eqn:Hn.
  - destruct (execute_store c m ∅ Hc) as (r & m1 & E & Es & _). rewrite (Apply_newer c m r m1 Hn E).
    set (m2 := set_sessions _ _). destruct (IH m2) as (rs & m' & m'' & E1 & E2 & Ed). rewrite E1.
    assert (El : lastSeqs m2 = <[cmdClientID c:=cmdSeq c]> (lastSeqs m)).
    { unfold m2. rewrite lastSeqs_record. unfold lastSeqs. by rewrite Es. }
    rewrite El in E2. cbn [executeAll]. unfold mbind, M_bind. rewrite E.
    apply (executeAll_store _ _ (sessions m1)) in E2.
    2: by apply fresh_Forall.
    replace (set_sessions (sessions m1) m2) with m1 in E2 by (by destruct m1).
    eexists _, _, _. split_and!; [done|exact E2|]. done.
  - destruct (Apply_older c m Hn) as (s & _ & _ & E). rewrite E.
    destruct (IH m) as (rs & m' & m'' & E1 & E2 & Ed). rewrite E1. by eexists _, _, _.
Qed.

(** No command executes twice. *)
Lemma fresh_above last cmds c :
  c ∈ fresh last cmds → newer last c = true.
Proof.
  revert last. induction cmds as [|c' cmds IH]; intros last; simpl; [by intros ?%not_elem_of_nil|].
  destruct (newer last c') eqn:Hn; [|by apply IH].
  intros [->|Hin]%elem_of_cons; [done|]. apply IH in Hin. unfold newer in *.
  destruct (decide (cmdClientID c' = cmdClientID c)) as [Ec|Ec].
  - rewrite Ec in *. rewrite lookup_insert_eq in Hin. destruct (last !! _); [|done].
    apply Z.ltb_lt in Hin, Hn. apply Z.ltb_lt. lia.
  - by rewrite lookup_insert_ne in Hin.
Qed.
Lemma fresh_NoDup last cmds : NoDup (map (λ c, (cmdClientID c, cmdSeq c)) (fresh last cmds)).
Proof.
  revert last. induction cmds as [|c cmds IH]; intros last; simpl; [constructor|].
  destruct (newer last c) eqn:Hn; [|apply IH]. simpl. constructor; [|apply IH].
  intros Hin. apply list_elem_of_fmap in Hin as (c' & E & Hin). injection E as E1 E2.
  apply fresh_above in Hin. unfold newer in Hin. rewrite <-E1, lookup_insert_eq in Hin.
  apply Z.ltb_lt in Hin. lia.
Qed.

Lemma execute_sessions c m r m' : execute c m = Ret (r, m') → sessions m' = sessions m.
Proof.
  unfold execute, cas, kv_store, gets, modify, fails, mbind, M_bind, mret, M_ret, get.
  repeat case_match; intros; by simplify_eq.
Qed.

(** Commands of other clients do not touch a session. *)
Lemma applyAll_others cmds m id rs m' :
  Forall (λ c, cmdClientID c ≠ id) cmds → applyAll cmds m = Ret (rs, m') →
  sessions m' !! id = sessions m !! id.
Proof.
  intros Ho. revert m rs. induction Ho as [|c cmds Hc Ho IH]; intros m rs; simpl; [by intros [= _ <-]|].
  unfold mbind, M_bind. destruct (Apply c m) as [[r m1]|] eqn:E; [|done].
  destruct (applyAll cmds m1) as [[rs' m2]|] eqn:E'; [|done]. intros [= _ <-].
  rewrite (IH _ _ E'). clear IH E'. unfold Apply in E. unfold mbind at 1, M_bind in E. simpl in E.
  destruct (sessions m !! cmdClientID c) as [s|].
  - destruct (_ =? _); [by injection E as _ <-|]. destruct (_ <? _); [by injection E as _ <-|].
    unfold mbind, M_bind in E. destruct (execute c m) as [[r0 m0]|] eqn:Ex; [|done].
    injection E as _ <-. simpl. rewrite lookup_insert_ne by done. by rewrite (execute_sessions c m r0 m0).
  - unfold mbind, M_bind in E. destruct (execute c m) as [[r0 m0]|] eqn:Ex; [|done].
    injection E as _ <-. simpl. rewrite lookup_insert_ne by done. by rewrite (execute_sessions c m r0 m0).
Qed.

Lemma execute_wf c m r m' :
  wf_maps m → wf_command c → execute c m = Ret (r, m') → wf_maps m' ∧ wf_result r.
Proof.
  intros [Hs Hd] []. assert (H0 : is_u64 0) by done.
  assert (Hput : ∀ r m', kv_store (cmdKey c) (cmdValue c) m = Ret (r, m') → wf_maps m' ∧ wf_result r).
  { intros r0 m0. rewrite kv_store_eq. intros [= <- <-]. pose proof (w64_range) as Hw.
    split; [split; [done|]|split; [done|apply Hw]]. simpl.
    apply map_Forall_insert_2; [|done]. split_and!; [done..|apply Hw]. }
  assert (Hget : ∀ rec, data m !! cmdKey c = Some rec → short_opt (recValue rec) ∧ is_u64 (recVersion rec)).
  { intros rec E. by apply Hd in E as (_ & ? & ?). }
  unfold execute. case_decide.
  { unfold gets, kv_get. intros [= <- <-]. split; [done|]. destruct (data m !! cmdKey c) eqn:E; [|done]. by apply Hget. }
  case_decide; [apply Hput|]. case_decide.
  { unfold mbind, M_bind, get, modify. destruct (data m !! cmdKey c); intros [= <- <-]; (split; [|done]); [|done].
    split; [done|]. simpl. by apply map_Forall_delete. }
  case_decide; [|done]. unfold cas, mbind, M_bind, get.
  destruct (cmdExpect c), (data m !! cmdKey c) eqn:E; try apply Hput; try (intros [= <- <-]; split; [done|]; try done; by apply Hget).
  destruct (bytesEqual _ _); [apply Hput|]. intros [= <- <-]. split; [done|]. by apply Hget.
Qed.

(** ** Properties *)

(** Every state reached by applying decoded commands has its fields within
    their widths, so that it can be snapshotted. *)
Theorem apply_preserves_wf c m r m' :
  wf_maps m → wf_command c → Apply c m = Ret (r, m') → wf_maps m' ∧ wf_result r.
Proof.
  intros Hm Hc Ha. destruct (newer (lastSeqs m) c) eqn:Hn.
  - rewrite Apply_newer_eq in Ha by done. destruct (execute c m) as [[r0 m0]|] eqn:Ex; [|done].
    injection Ha as -> <-. destruct (execute_wf c m r m0 Hm Hc Ex) as [[Hs Hd] Hr]. split; [|done].
    split; [|done]. simpl. apply map_Forall_insert_2; [|done]. destruct Hc. by split_and!.
  - destruct (Apply_older c m Hn) as (s & Es & _ & E). rewrite E in Ha. injection Ha as <- <-.
    split; [done|]. case_match; [|done]. by apply Hm in Es as (_ & _ & ?).
Qed.

(** C7: exactly once: whatever retries, duplicates and stale commands a sequence
    holds, applying it changes the store as executing each newer command once
    does, and no (client, sequence number) pair executes twice. *)
Theorem apply_exactly_once cmds m :
  Forall (λ c, valid_op (cmdOp c) = true) cmds →
  ∃ rs m' m'', applyAll cmds m = Ret (rs, m') ∧
    executeAll (fresh (lastSeqs m) cmds) m = Ret ((), m'') ∧ data m' = data m'' ∧
    NoDup (map (λ c, (cmdClientID c, cmdSeq c)) (fresh (lastSeqs m) cmds)).
Proof.
  intros Hv. destruct (applyAll_fresh cmds m Hv) as (rs & m' & m'' & E1 & E2 & Ed).
  exists rs, m', m''. split_and!; [done..|]. apply fresh_NoDup.
Qed.

(** A retry is answered with the recorded result and changes nothing, even
    after other clients' commands were applied in between. *)
Theorem retry_replays_result c m r m1 others rs m2 :
  newer (lastSeqs m) c = true → Apply c m = Ret (r, m1) →
  Forall (λ c', cmdClientID c' ≠ cmdClientID c) others → applyAll others m1 = Ret (rs, m2) →
  Apply c m2 = Ret (r, m2).
Proof.
  intros Hn Ha Ho Hall. rewrite (Apply_newer_eq c m Hn) in Ha.
  destruct (execute c m) as [[r' m0]|]; [|done]. injection Ha as -> <-.
  apply (applyAll_others _ _ (cmdClientID c)) in Hall; [|done]. simpl in Hall. rewrite lookup_insert_eq in Hall.
  destruct (Apply_older c m2) as (s & Es & _ & E).
  { unfold newer, lastSeqs. rewrite lookup_fmap, Hall. simpl. apply Z.ltb_irrefl. }
  rewrite E. rewrite Hall in Es. injection Es as <-. simpl. by rewrite Z.eqb_refl.
Qed.

(** C17: restoring a snapshot gives back the state it was taken from, sessions
    included, whatever the order in which the maps were iterated. *)
Theorem snapshot_roundtrip ids keys m m0 :
  wf_sm m → iterates ids (sessions m) → iterates keys (data m) →
  Restore (Snapshot ids keys m) m0 = Ret (None, m).
Proof.
  intros Hw Hi Hk. unfold Restore. by rewrite (runD_finish _ _ m (reads_snapshot ids keys m Hw Hi Hk)).
Qed.

(** Snapshots are deterministic: the bytes do not depend on the order in
    which Go iterates the maps. *)
Theorem snapshot_deterministic ids ids' keys keys' m :
  ids ≡ₚ ids' → keys ≡ₚ keys' → Snapshot ids keys m = Snapshot ids' keys' m.
Proof.
  intros Hi Hk. unfold Snapshot.
  by rewrite (merge_sort_unique Z.le ids ids' Hi), (merge_sort_unique str_le keys keys' Hk).
Qed.

(** [Restore] never panics; on an error the state is unchanged, and a state
    it accepts has every field within its width. *)
Theorem restore_total bytes m :
  match Restore bytes m with
  | Ret (Some _, m') => m' = m
  | Ret (None, m') => wf_maps m'
  | Panic _ => False
  end.
Proof.
  unfold Restore. pose proof (runD_finish_inv restoreBody _ bytes parser_restore) as Hp.
  destruct (runD _ bytes) as [[m'|e]|]; done.
Qed.

(** A compare-and-swap stores exactly when the current value is the expected
    one (absent, for a nil expectation); otherwise it reports the value that
    defeated it and changes nothing. *)
Theorem cas_spec c m :
  cmdOp c = OpCAS →
  let cur := data m !! cmdKey c in
  let holds := match cmdExpect c with
               | None => cur = None
               | Some e => ∃ rec, cur = Some rec ∧ default [] (recValue rec) = e
               end in
  ∃ r m', execute c m = Ret (r, m') ∧
    (holds → resStatus r = StatusOK ∧ resVersion r = recVersion (default zeroRecord cur) +w 1 ∧
             data m' = <[cmdKey c := mkValueRecord (cmdValue c) (resVersion r)]> (data m)) ∧
    (¬ holds → m' = m ∧ r = mkResult StatusCASMismatch (cur ≫= recValue) (recVersion (default zeroRecord cur))).
Proof.
  intros Hop cur holds. unfold execute. rewrite Hop. rewrite !decide_False, decide_True by done.
  unfold cas. unfold mbind at 1, M_bind. simpl. fold cur. subst holds.
  destruct (cmdExpect c) as [e|], cur as [rec|] eqn:Ec; rewrite ?kv_store_eq; simpl.
  - destruct (bytesEqual (recValue rec) (Some e)) eqn:Eb; unfold bytesEqual in Eb; simpl in Eb.
    + apply bool_decide_eq_true in Eb. rewrite kv_store_eq. do 2 eexists. split_and!; [reflexivity| |].
      * intros _. simpl. fold cur. rewrite Ec. done.
      * intros []. by exists rec.
    + apply bool_decide_eq_false in Eb. do 2 eexists. split_and!; [reflexivity| |done].
      intros (rec' & [= <-] & E). done.
  - do 2 eexists. split_and!; [reflexivity|by intros (? & ? & _)|by intros _].
  - do 2 eexists. split_and!; [reflexivity|by intros ?|by intros _].
  - do 2 eexists. split_and!; [reflexivity| |done]. intros _. simpl. fold cur. by rewrite Ec.
Qed.

(** ** Witnesses *)

Definition cmd_put : Command := mkCommand 7 1 OpPut [x61] (Some [x78]) None.
Definition cmd_cas : Command := mkCommand 8 1 OpCAS [x61] (Some [x79]) (Some [x78]).
Definition sm1 : StateMachine :=
  mkStateMachine {[ [x61] := mkValueRecord (Some [x78]) 1 ]} {[ 7 := mkSession 1 (mkResult StatusOK None 1) ]}.

Lemma wf_cmd_put : wf_command cmd_put.
Proof. by constructor. Qed.
Lemma wf_sm1 : wf_sm sm1.
Proof. split; [split; apply map_Forall_singleton; by split_and!|by split]. Qed.

Lemma apply_preserves_wf_witness : wf_maps sm1 ∧ wf_result (mkResult StatusOK None 1).
Proof.
  exact (apply_preserves_wf cmd_put NewStateMachine _ _ (conj (map_Forall_empty _) (map_Forall_empty _))
           wf_cmd_put eq_refl).
Defined.
Lemma apply_exactly_once_witness :
  fresh ∅ [cmd_put; cmd_put; cmd_cas] = [cmd_put; cmd_cas] ∧
  ∃ rs m' m'', applyAll [cmd_put; cmd_put; cmd_cas] NewStateMachine = Ret (rs, m') ∧
    executeAll (fresh (lastSeqs NewStateMachine) [cmd_put; cmd_put; cmd_cas]) NewStateMachine = Ret ((), m'') ∧
    data m' = data m'' ∧
    NoDup (map (λ c, (cmdClientID c, cmdSeq c)) (fresh (lastSeqs NewStateMachine) [cmd_put; cmd_put; cmd_cas])).
Proof.
  split; [by vm_compute|]. apply (apply_exactly_once [cmd_put; cmd_put; cmd_cas] NewStateMachine).
  by repeat constructor.
Defined.
Lemma snapshot_roundtrip_witness :
  Restore (Snapshot [7] [[x61]] sm1) NewStateMachine = Ret (None, sm1).
Proof.
  apply (snapshot_roundtrip [7] [[x61]] sm1 NewStateMachine wf_sm1); unfold iterates; simpl;
    by rewrite map_to_list_singleton.
Defined.
