(* ===== verification/Server.v ===== *)
(** * The production runtime (src/server/server.go, drive.go)

    [Server] is the Go struct: the node, whose log holds the storage, the kv
    state machine and the waiter tables.  A channel is an identifier;
    [sv_answers] lists what was sent on channels and [sv_sent] what was handed
    to the transport, in order.  [drain] is the loop over [Ready] batches,
    [srv_step] one iteration of the drive loop.  The transport, the listeners
    and the clock are outside: their effect is the event that [srv_step] takes. *)

From S2P Require Import Prelude RaftTypes Storage RaftLog ReadOnly Raft Node KvCodec.
From S2P Require Import KvStateMachine.

(** The storage's durability barrier. *)
Class SyncStorage (S : Type) := SyncOf : S → S * error.

(** The fields of [Config] that the drive loop reads; listeners, addresses and
    the data directory are the environment's. *)
Record srv_config : Type := mkSrvConfig {
  sc_ID : Z;
  sc_Peers : list Z;
  sc_TickIntervalMillis : Z;
  sc_ElectionTicks : Z;
  sc_HeartbeatTicks : Z
}.

Definition withDefaults (c : srv_config) : srv_config :=
  let tick := if sc_TickIntervalMillis c <=? 0 then 20 else sc_TickIntervalMillis c in
  let hb := if sc_HeartbeatTicks c <=? 0 then 5 else sc_HeartbeatTicks c in
  let el := if sc_ElectionTicks c <=? hb then s64 (10 * hb) else sc_ElectionTicks c in
  mkSrvConfig (sc_ID c) (sc_Peers c) tick el hb.

Record opResult : Type := mkOpResult {
  or_res : Result;
  or_notLeader : bool;
  or_leaderID : Z
}.
Definition zeroResult : Result := mkResult StatusOK None 0.
Definition answered (res : Result) : opResult := mkOpResult res false 0.
Definition redirect (leader : Z) : opResult := mkOpResult zeroResult true leader.

Inductive reqKind : Type :=
| reqPropose (cmd : Command)
| reqRead (key : list byte).
Record request : Type := mkRequest {
  rq_kind : reqKind;
  rq_resp : Z
}.

Record readWaiter : Type := mkReadWaiter {
  rw_key : list byte;
  rw_resp : Z
}.

Record Server (S : Type) : Type := mkServer {
  sv_node : Node S;
  sv_sm : StateMachine;
  sv_applied : Z;
  sv_prevLeader : bool;
  sv_readToken : Z;
  sv_pendingReads : list ReadState;
  sv_writeWaiters : gmap (Z * Z) Z;
  sv_readWaiters : gmap (list byte) readWaiter;
  sv_answers : list (Z * opResult);
  sv_sent : list Message
}.
Arguments mkServer {S}.
Arguments sv_node {S}.
Arguments sv_sm {S}.
Arguments sv_applied {S}.
Arguments sv_prevLeader {S}.
Arguments sv_readToken {S}.
Arguments sv_pendingReads {S}.
Arguments sv_writeWaiters {S}.
Arguments sv_readWaiters {S}.
Arguments sv_answers {S}.
Arguments sv_sent {S}.

Section setters.
Context {S : Type}.
Definition set_node v (s : Server S) : Server S := mkServer v (sv_sm s) (sv_applied s) (sv_prevLeader s) (sv_readToken s) (sv_pendingReads s) (sv_writeWaiters s) (sv_readWaiters s) (sv_answers s) (sv_sent s).
Definition set_sm v (s : Server S) : Server S := mkServer (sv_node s) v (sv_applied s) (sv_prevLeader s) (sv_readToken s) (sv_pendingReads s) (sv_writeWaiters s) (sv_readWaiters s) (sv_answers s) (sv_sent s).
Definition set_sapplied v (s : Server S) : Server S := mkServer (sv_node s) (sv_sm s) v (sv_prevLeader s) (sv_readToken s) (sv_pendingReads s) (sv_writeWaiters s) (sv_readWaiters s) (sv_answers s) (sv_sent s).
Definition set_prevLeader v (s : Server S) : Server S := mkServer (sv_node s) (sv_sm s) (sv_applied s) v (sv_readToken s) (sv_pendingReads s) (sv_writeWaiters s) (sv_readWaiters s) (sv_answers s) (sv_sent s).
Definition set_readToken v (s : Server S) : Server S := mkServer (sv_node s) (sv_sm s) (sv_applied s) (sv_prevLeader s) v (sv_pendingReads s) (sv_writeWaiters s) (sv_readWaiters s) (sv_answers s) (sv_sent s).
Definition set_pendingReads v (s : Server S) : Server S := mkServer (sv_node s) (sv_sm s) (sv_applied s) (sv_prevLeader s) (sv_readToken s) v (sv_writeWaiters s) (sv_readWaiters s) (sv_answers s) (sv_sent s).
Definition set_writeWaiters v (s : Server S) : Server S := mkServer (sv_node s) (sv_sm s) (sv_applied s) (sv_prevLeader s) (sv_readToken s) (sv_pendingReads s) v (sv_readWaiters s) (sv_answers s) (sv_sent s).
Definition set_readWaiters v (s : Server S) : Server S := mkServer (sv_node s) (sv_sm s) (sv_applied s) (sv_prevLeader s) (sv_readToken s) (sv_pendingReads s) (sv_writeWaiters s) v (sv_answers s) (sv_sent s).
Definition set_answers v (s : Server S) : Server S := mkServer (sv_node s) (sv_sm s) (sv_applied s) (sv_prevLeader s) (sv_readToken s) (sv_pendingReads s) (sv_writeWaiters s) (sv_readWaiters s) v (sv_sent s).
Definition set_sent v (s : Server S) : Server S := mkServer (sv_node s) (sv_sm s) (sv_applied s) (sv_prevLeader s) (sv_readToken s) (sv_pendingReads s) (sv_writeWaiters s) (sv_readWaiters s) (sv_answers s) v.
End setters.

(** What makes the drive loop return. *)
Inductive srv_error : Type :=
| ErrStorage (e : errkind)
| ErrRestore (e : kv_error).
Inductive new_error : Type :=
| ErrServerID
| ErrServerPeers
| ErrNewNode (e : node_error)
| ErrNewRestore (e : kv_error).

Section server.
Context {S : Type} `{LogStorage S} `{!SyncStorage S}.

(** ** server.go: New *)

Definition raftConfig (c : srv_config) (ids : list Z) (rnd : Rand) : Config :=
  mkConfig (sc_ID c) ids (sc_ElectionTicks c) (sc_HeartbeatTicks c) 0 true (Some rnd).
(** [st] is the opened storage, [ids] the order in which the peers are
    iterated, [rnd] the node's source of randomness. *)
Definition NewServer (c : srv_config) (ids : list Z) (rnd : Rand) (st : S) : outcome (result new_error (Server S)) :=
  if sc_ID c =? 0 then Ret (Err ErrServerID) else
  if negb (bool_decide (sc_ID c ∈ sc_Peers c)) then Ret (Err ErrServerPeers) else
  let c := withDefaults c in
  rn ← NewNode (raftConfig c ids rnd) st;
  match rn with
  | Err e => Ret (Err (ErrNewNode e))
  | Ok node =>
      let s := mkServer node NewStateMachine 0 false 0 [] ∅ ∅ [] [] in
      sn ← SnapshotOf st;
      match sn with
      | Ok sn =>
          if 0 <? snIndex sn then
            if 0 <? zlen (snData sn) then
              '(e, m) ← Restore (snData sn) (sv_sm s);
              match e with
              | Some e => Ret (Err (ErrNewRestore e))
              | None => Ret (Ok (set_sapplied (snIndex sn) (set_sm m s)))
              end
            else Ret (Ok (set_sapplied (snIndex sn) s))
          else Ret (Ok s)
      | Err _ => Ret (Ok s)
      end
  end.

(** ** drive.go *)

(** Runs a method of the node, or of the state machine. *)
Definition onNode {A} (c : M (Node S) A) : M (Server S) A := zoom sv_node set_node c.
Definition onSM {A} (c : M StateMachine A) : M (Server S) A := zoom sv_sm set_sm c.
(** [ch <- r] *)
Definition answer (ch : Z) (r : opResult) : M (Server S) () :=
  s ← get; modify (set_answers (sv_answers s ++ [(ch, r)])).

(** The storage the node reads through. *)
Definition stor (s : Server S) : S := storage (rlog (n_r (sv_node s))).
Definition putStor (st : S) (s : Server S) : Server S :=
  let n := sv_node s in
  set_node (mkNode (set_rlog (set_storage st (rlog (n_r n))) (n_r n)) (pendingReady n)) s.
(** A storage call of [drain]: [Some e] makes it return [e]. *)
Definition onStor (f : S → outcome (S * error)) (ok : errkind → bool) : M (Server S) (option srv_error) := λ s,
  '(st, e) ← f (stor s);
  Ret (match e with
       | Some e => if ok e then None else Some (ErrStorage e)
       | None => None
       end, putStor st s).

Definition handleRequest (rq : request) : M (Server S) () :=
  match rq_kind rq with
  | reqPropose cmd =>
      e ← onNode (Node_Step (set_mEntries [mkEntry 0 0 EntryNormal (EncodeCommand cmd)] (Msg MsgPropose 0)));
      s ← get;
      match e with
      | Some _ => answer (rq_resp rq) (redirect (Node_Leader (sv_node s)))
      | None => modify (set_writeWaiters (<[(cmdClientID cmd, cmdSeq cmd) := rq_resp rq]> (sv_writeWaiters s)))
      end
  | reqRead key =>
      s ← get;
      modify (set_readToken (sv_readToken s +w 1));;
      let token := be_enc 8 (sv_readToken s +w 1) in
      e ← onNode (Node_Step (set_mContext token (Msg MsgReadIndex 0)));
      s ← get;
      match e with
      | Some _ => answer (rq_resp rq) (redirect (Node_Leader (sv_node s)))
      | None => modify (set_readWaiters (<[token := mkReadWaiter key (rq_resp rq)]> (sv_readWaiters s)))
      end
  end.

(** The waiters are answered in the order of the two maps' iteration. *)
Definition checkLeadership : M (Server S) () :=
  s ← get;
  let isLeader := bool_decide (Node_State (sv_node s) = StateLeader) in
  when (sv_prevLeader s && negb isLeader)
    (let lead := Node_Leader (sv_node s) in
     forM (map_to_list (sv_writeWaiters s)) (λ '(k, ch),
       answer ch (redirect lead);;
       s ← get; modify (set_writeWaiters (delete k (sv_writeWaiters s))));;
     forM (map_to_list (sv_readWaiters s)) (λ '(k, w),
       answer (rw_resp w) (redirect lead);;
       s ← get; modify (set_readWaiters (delete k (sv_readWaiters s))));;
     modify (set_pendingReads []));;
  modify (set_prevLeader isLeader).

Definition serveRead (rs : ReadState) : M (Server S) () :=
  s ← get;
  match sv_readWaiters s !! rsRequestCtx rs with
  | None => mret ()
  | Some w =>
      modify (set_readWaiters (delete (rsRequestCtx rs) (sv_readWaiters s)));;
      answer (rw_resp w) (answered (Read (rw_key w) (sv_sm s)))
  end.

(** The loop of [servePendingReads]: the reads that stay. *)
Fixpoint serveLoop (rss : list ReadState) : M (Server S) (list ReadState) :=
  match rss with
  | [] => mret []
  | rs :: rss =>
      s ← get;
      if rsIndex rs <=? sv_applied s then serveRead rs;; serveLoop rss
      else kept ← serveLoop rss; mret (rs :: kept)
  end.
Definition servePendingReads : M (Server S) () :=
  s ← get;
  if zlen (sv_pendingReads s) =? 0 then mret () else
  kept ← serveLoop (sv_pendingReads s);
  modify (set_pendingReads kept).

Definition applyEntry (e : Entry) : M (Server S) () :=
  s ← get;
  if eIndex e <=? sv_applied s then mret () else
  modify (set_sapplied (eIndex e));;
  if bool_decide (eType e = EntryNormal) && (0 <? zlen (eData e)) then
    r ← reads (λ _, DecodeCommand (eData e));
    match r with
    | Err _ => mret ()
    | Ok cmd =>
        res ← onSM (Apply cmd);
        s ← get;
        let k := (cmdClientID cmd, cmdSeq cmd) in
        match sv_writeWaiters s !! k with
        | Some ch => answer ch (answered res);;
                     s ← get; modify (set_writeWaiters (delete k (sv_writeWaiters s)))
        | None => mret ()
        end;;
        servePendingReads
    end
  else servePendingReads.

Definition releaseRead (rs : ReadState) : M (Server S) () :=
  s ← get;
  if rsIndex rs <=? sv_applied s then serveRead rs
  else modify (set_pendingReads (sv_pendingReads s ++ [rs])).

(** Continues unless an error is to be returned. *)
Definition unless_error {A} (c : M (Server S) (option srv_error)) (k : M (Server S) (result srv_error A))
    : M (Server S) (result srv_error A) :=
  e ← c; match e with Some e => mret (Err e) | None => k end.

(** Step (1) of [drain]: snapshot, entries, hard state, one sync. *)
Definition persistReady (rd : Ready) : M (Server S) (result srv_error ()) :=
  unless_error (match rdSnapshot rd with
                | Some sn => onStor (ApplySnapshot sn) (λ e, bool_decide (e = ErrCompacted))
                | None => mret None
                end) (
  unless_error (if 0 <? zlen (rdEntries rd) then onStor (AppendEntries (rdEntries rd)) (λ _, false)
                else mret None) (
  unless_error (match rdHardState rd with
                | Some hs => onStor (SetHardState hs) (λ _, false)
                | None => mret None
                end) (
  unless_error (if rdMustSync rd then onStor (λ st, Ret (SyncOf st)) (λ _, false) else mret None) (
  mret (Ok ()))))).

(** Step (3): the snapshot, the committed entries, the reads. *)
Definition applyReady (rd : Ready) : M (Server S) (result srv_error ()) :=
  unless_error (match rdSnapshot rd with
                | Some sn =>
                    e ← (if 0 <? zlen (snData sn) then onSM (Restore (snData sn)) else mret None);
                    match e with
                    | Some e => mret (Some (ErrRestore e))
                    | None =>
                        s ← get;
                        when (sv_applied s <? snIndex sn) (modify (set_sapplied (snIndex sn)));;
                        mret None
                    end
                | None => mret None
                end) (
  forM (rdCommittedEntries rd) applyEntry;;
  forM (rdReadStates rd) releaseRead;;
  mret (Ok ())).

(** One iteration of [drain]'s loop. *)
Definition drainBatch : M (Server S) (result srv_error ()) :=
  rd ← onNode Node_Ready;
  r ← persistReady rd;
  match r with
  | Err e => mret (Err e)
  | Ok _ =>
      when (0 <? zlen (rdMessages rd)) (s ← get; modify (set_sent (sv_sent s ++ rdMessages rd)));;
      r ← applyReady rd;
      match r with
      | Err e => mret (Err e)
      | Ok _ => onNode Advance;; mret (Ok ())
      end
  end.

(** The loop of [drain], on the number of batches allowed; [None] when they
    do not suffice.  One is enough ([drain_settles]). *)
Fixpoint drainLoop (fuel : nat) : M (Server S) (option (result srv_error ())) :=
  b ← reads (λ s, HasReady (sv_node s));
  if (b : bool) then
    match fuel with
    | O => mret None
    | Datatypes.S fuel =>
        r ← drainBatch;
        match r with
        | Err e => mret (Some (Err e))
        | Ok _ => drainLoop fuel
        end
    end
  else mret (Some (Ok ())).

Definition drain (fuel : nat) : M (Server S) (option (result srv_error ())) :=
  checkLeadership;; drainLoop fuel.

(** What the drive loop's select delivers. *)
Inductive srv_event : Type :=
| EvTick
| EvRecv (m : Message)
| EvRequest (rq : request).

(** One iteration of [driveLoop]. *)
Definition srv_step (fuel : nat) (ev : srv_event) : M (Server S) (option (result srv_error ())) :=
  match ev with
  | EvTick => onNode Node_Tick;; drain fuel
  | EvRecv m => _ ← onNode (Node_Step m); drain fuel
  | EvRequest rq => handleRequest rq;; drain fuel
  end.

(** [driveLoop] over the events that arrive before its context is cancelled
    or the transport closes. *)
Fixpoint driveLoop (fuel : nat) (evs : list srv_event) : M (Server S) (option (result srv_error ())) :=
  match evs with
  | [] => mret (Some (Ok ()))
  | ev :: evs =>
      r ← srv_step fuel ev;
      match r with
      | Some (Ok _) => driveLoop fuel evs
      | _ => mret r
      end
  end.

End server.
