(* ===== verification/Framing.v ===== *)
(** * WAL record framing (src/storage/disk/framing.go)

    A frame is [payloadLen(4) crc32c(4) payload], big-endian.  The encoders
    build byte lists; the decoders are written with Go's slice bounds checks.
    [crc32c] is the Castagnoli CRC of [hash/crc32], bit by bit. *)

From S2P Require Import Prelude RaftTypes.

(** ** crc32.Checksum(p, crc32.MakeTable(crc32.Castagnoli)) *)

Definition castagnoli : Z := 0x82f63b78.

Fixpoint crc_bits (n : nat) (crc : Z) : Z :=
  match n with
  | O => crc
  | S n => crc_bits n (if Z.odd crc then Z.lxor (Z.shiftr crc 1) castagnoli else Z.shiftr crc 1)
  end.
Definition crc_byte (crc : Z) (b : byte) : Z := crc_bits 8 (Z.lxor crc (b2z b)).
Definition crc32c (p : list byte) : Z :=
  w32 (Z.lxor (foldl crc_byte 0xffffffff p) 0xffffffff).

(** ** Constants *)

Definition frameHeaderSize : Z := 8.
Definition sanityMaxPayload : Z := Z.shiftl 64 20.

Definition recType : Type := byte.
Definition recEntry : recType := x01.
Definition recHardState : recType := x02.
Definition recTruncateSuffix : recType := x03.

(** The one error of the decoders, [errTornFrame]. *)
Inductive disk_error : Type := errTornFrame.

(** ** Records *)

Definition encodeEntry (e : Entry) : list byte :=
  [recEntry] ++ be_enc 8 (eTerm e) ++ be_enc 8 (eIndex e) ++ [eType e] ++
  be_enc 4 (w32 (zlen (eData e))) ++ eData e.

(** [binary.BigEndian.UintN(b[lo:hi])] *)
Definition field (b : list byte) (lo hi : Z) : outcome Z := be_dec <$> slice_of b lo hi.

Definition decodeEntry (body : list byte) : outcome (result disk_error Entry) :=
  if zlen body <? 8 + 8 + 1 + 4 then Ret (Err errTornFrame) else
  term ← field body 0 8;
  idx ← field body 8 16;
  ty ← index body 16;
  dataLen ← field body 17 21;
  if negb (21 + dataLen =? zlen body) then Ret (Err errTornFrame) else
  data ← (if 0 <? dataLen then slice_from body 21 else Ret []);
  Ret (Ok (mkEntry term idx ty data)).

Definition encodeHardState (st : HardState) : list byte :=
  [recHardState] ++ be_enc 8 (hsTerm st) ++ be_enc 8 (hsVote st) ++ be_enc 8 (hsCommit st).

Definition decodeHardState (body : list byte) : outcome (result disk_error HardState) :=
  if negb (zlen body =? 8 + 8 + 8) then Ret (Err errTornFrame) else
  term ← field body 0 8;
  vote ← field body 8 16;
  commit ← field body 16 24;
  Ret (Ok (mkHardState term vote commit)).

Definition encodeTruncateSuffix (meta : SnapshotMetadata) : list byte :=
  [recTruncateSuffix] ++ be_enc 8 (smIndex meta) ++ be_enc 8 (smTerm meta).

Definition decodeTruncateSuffix (body : list byte) : outcome (result disk_error SnapshotMetadata) :=
  if negb (zlen body =? 8 + 8) then Ret (Err errTornFrame) else
  idx ← field body 0 8;
  term ← field body 8 16;
  Ret (Ok (mkSnapshotMetadata idx term)).

(** ** Frames *)

Definition appendFrame (dst payload : list byte) : list byte :=
  dst ++ be_enc 4 (w32 (zlen payload)) ++ be_enc 4 (crc32c payload) ++ payload.

(** The payload and the bytes consumed. *)
Definition readFrame (buf : list byte) (off : Z) : outcome (result disk_error (list byte * Z)) :=
  if zlen buf <? off + frameHeaderSize then Ret (Err errTornFrame) else
  payloadLen ← field buf off (off + 4);
  wantCRC ← field buf (off + 4) (off + 8);
  if (payloadLen =? 0) || (sanityMaxPayload <? payloadLen) then Ret (Err errTornFrame) else
  let start := off + frameHeaderSize in
  let fin := start + payloadLen in
  if (zlen buf <? fin) || (fin <? start) then Ret (Err errTornFrame) else
  p ← slice_of buf start fin;
  if negb (crc32c p =? wantCRC) then Ret (Err errTornFrame) else
  Ret (Ok (p, fin - off)).

#[local] Arguments index : simpl never.
#[local] Arguments slice_of : simpl never.
#[local] Arguments field : simpl never.

(** ** Lemmas: fields *)

Lemma slice_of_mid {A} (pre mid post : list A) :
  slice_of (pre ++ mid ++ post) (zlen pre) (zlen pre + zlen mid) = Ret mid.
Proof.
  pose proof (zlen_nonneg pre). pose proof (zlen_nonneg mid). pose proof (zlen_nonneg post).
  rewrite slice_of_ok by (rewrite ?zlen_app; lia). f_equal.
  replace (zlen pre + zlen mid - zlen pre) with (zlen mid) by lia. unfold zlen. rewrite !Nat2Z.id.
  by rewrite drop_app_length, take_app_length.
Qed.

(** A big-endian integer between two known neighbours. *)
Lemma field_at b pre n v post lo hi :
  b = pre ++ be_enc n v ++ post → zlen pre = lo → hi = lo + Z.of_nat n → 0 ≤ v < 256 ^ Z.of_nat n →
  field b lo hi = Ret v.
Proof.
  intros -> <- -> Hv. unfold field. replace (Z.of_nat n) with (zlen (be_enc n v)) by apply zlen_be_enc.
  rewrite slice_of_mid. simpl. by rewrite be_dec_enc, Z.mod_small.
Qed.

Lemma field_ok b lo hi : 0 ≤ lo ≤ hi → hi ≤ zlen b →
  ∃ v, field b lo hi = Ret v ∧ 0 ≤ v < 256 ^ (hi - lo).
Proof.
  intros. unfold field. rewrite slice_of_ok by lia. eexists. split; [done|].
  set (l := take _ _). replace (hi - lo) with (zlen l); [apply be_dec_range|].
  unfold l, zlen in *. rewrite length_take, length_drop. lia.
Qed.

(** ** Lemmas: records *)

Definition wf_entry (e : Entry) : Prop :=
  is_u64 (eTerm e) ∧ is_u64 (eIndex e) ∧ zlen (eData e) + 22 ≤ sanityMaxPayload.
Definition wf_hard (h : HardState) : Prop := is_u64 (hsTerm h) ∧ is_u64 (hsVote h) ∧ is_u64 (hsCommit h).
Definition wf_meta (s : SnapshotMetadata) : Prop := is_u64 (smIndex s) ∧ is_u64 (smTerm s).

Create Rewrite HintDb body.
#[export] Hint Rewrite @zlen_app @zlen_cons @zlen_nil zlen_be_enc : body.
(** Takes the next step of a computation in [outcome]. *)
Ltac oret := cbn [mbind outcome_bind negb orb andb].
(** Solves the side conditions of [field_at] on a body written as appends. *)
Ltac body := first [done | by rewrite <-?app_assoc | autorewrite with body; done | autorewrite with body; lia].

Lemma decodeEntry_ok e : wf_entry e →
  decodeEntry (be_enc 8 (eTerm e) ++ be_enc 8 (eIndex e) ++ [eType e] ++ be_enc 4 (zlen (eData e)) ++ eData e) = Ret (Ok e).
Proof.
  intros (Ht & Hi & Hd). pose proof (zlen_nonneg (eData e)). change sanityMaxPayload with 67108864 in Hd.
  set (t := be_enc 8 (eTerm e)). set (i := be_enc 8 (eIndex e)). set (n := be_enc 4 (zlen (eData e))).
  set (b := t ++ i ++ [eType e] ++ n ++ eData e).
  assert (Hl : zlen b = 21 + zlen (eData e)) by (unfold b, t, i, n; autorewrite with body; lia).
  unfold decodeEntry. rewrite Hl. destruct (Z.ltb_spec (21 + zlen (eData e)) (8 + 8 + 1 + 4)); [lia|].
  rewrite (field_at b [] 8 (eTerm e) (i ++ [eType e] ++ n ++ eData e) 0 8) by body. oret.
  rewrite (field_at b t 8 (eIndex e) ([eType e] ++ n ++ eData e) 8 16) by body. oret.
  assert (Hx : index b 16 = Ret (eType e)).
  { apply index_lookup; [lia|]. unfold b. rewrite app_assoc.
    rewrite lookup_app_r by (rewrite length_app; unfold t, i; rewrite !length_be_enc; lia).
    rewrite length_app. unfold t, i. by rewrite !length_be_enc. }
  rewrite Hx. oret.
  rewrite (field_at b (t ++ i ++ [eType e]) 4 (zlen (eData e)) (eData e) 17 21).
  2: { unfold b. by rewrite <-!app_assoc. }
  2: { unfold t, i. by autorewrite with body. }
  2: done.
  2: change (256 ^ Z.of_nat 4) with u32_mod; lia.
  oret. rewrite Z.eqb_refl. oret. destruct (Z.ltb_spec 0 (zlen (eData e))).
  - unfold slice_from. rewrite Hl.
    assert (Hs : slice_of b 21 (21 + zlen (eData e)) = Ret (eData e)).
    { replace b with ((t ++ i ++ [eType e] ++ n) ++ eData e ++ []) by (unfold b; rewrite app_nil_r, <-!app_assoc; done).
      rewrite <-(slice_of_mid (t ++ i ++ [eType e] ++ n) (eData e) []).
      unfold t, i, n. by autorewrite with body. }
    rewrite Hs. by destruct e.
  - assert (E : eData e = []) by (apply zlen_zero; lia). simpl. destruct e. simpl in E. by subst.
Qed.

Lemma encodeEntry_eq e : wf_entry e →
  encodeEntry e = recEntry :: be_enc 8 (eTerm e) ++ be_enc 8 (eIndex e) ++ [eType e] ++ be_enc 4 (zlen (eData e)) ++ eData e.
Proof.
  intros (_ & _ & Hd). unfold encodeEntry. rewrite w32_id; [done|].
  pose proof (zlen_nonneg (eData e)). change sanityMaxPayload with 67108864 in Hd. lia.
Qed.

Lemma decodeHardState_ok h : wf_hard h →
  decodeHardState (be_enc 8 (hsTerm h) ++ be_enc 8 (hsVote h) ++ be_enc 8 (hsCommit h)) = Ret (Ok h).
Proof.
  intros (Ht & Hv & Hc). set (t := be_enc 8 (hsTerm h)). set (v := be_enc 8 (hsVote h)).
  set (c := be_enc 8 (hsCommit h)). set (b := t ++ v ++ c). unfold decodeHardState.
  replace (zlen b) with 24 by (unfold b, t, v, c; by autorewrite with body). rewrite Z.eqb_refl. oret.
  rewrite (field_at b [] 8 (hsTerm h) (v ++ c) 0 8) by body. oret.
  rewrite (field_at b t 8 (hsVote h) c 8 16) by body. oret.
  rewrite (field_at b (t ++ v) 8 (hsCommit h) [] 16 24); [by destruct h|..].
  - unfold b. by rewrite app_nil_r, <-app_assoc.
  - unfold t, v. by autorewrite with body.
  - done.
  - done.
Qed.
Lemma decodeTruncateSuffix_ok m : wf_meta m →
  decodeTruncateSuffix (be_enc 8 (smIndex m) ++ be_enc 8 (smTerm m)) = Ret (Ok m).
Proof.
  intros (Hi & Ht). set (i := be_enc 8 (smIndex m)). set (t := be_enc 8 (smTerm m)). set (b := i ++ t).
  unfold decodeTruncateSuffix. replace (zlen b) with 16 by (unfold b, t, i; by autorewrite with body). rewrite Z.eqb_refl. oret.
  rewrite (field_at b [] 8 (smIndex m) t 0 8) by body. oret.
  rewrite (field_at b i 8 (smTerm m) [] 8 16) by (done || (unfold b; by rewrite app_nil_r)).
  by destruct m.
Qed.

(** ** Lemmas: frames *)

(** The frame of a payload. *)
Definition frame (p : list byte) : list byte := be_enc 4 (w32 (zlen p)) ++ be_enc 4 (crc32c p) ++ p.

Lemma appendFrame_eq dst p : appendFrame dst p = dst ++ frame p.
Proof. done. Qed.

(** A payload [readFrame] can return. *)
Definition wf_payload (p : list byte) : Prop := 0 < zlen p ≤ sanityMaxPayload.

Lemma wf_payload_u32 p : wf_payload p → w32 (zlen p) = zlen p ∧ is_u32 (zlen p).
Proof.
  intros [? Hp]. change sanityMaxPayload with 67108864 in Hp. split; [apply w32_id; lia|split; lia].
Qed.
Lemma zlen_frame p : zlen (frame p) = 8 + zlen p.
Proof. unfold frame. autorewrite with body. lia. Qed.

Lemma crc32c_u32 p : is_u32 (crc32c p).
Proof. apply w32_range. Qed.

(** The header of a frame that is complete up to its payload. *)
Lemma readFrame_header pre p post :
  wf_payload p →
  field (pre ++ be_enc 4 (w32 (zlen p)) ++ be_enc 4 (crc32c p) ++ post) (zlen pre) (zlen pre + 4) = Ret (zlen p) ∧
  field (pre ++ be_enc 4 (w32 (zlen p)) ++ be_enc 4 (crc32c p) ++ post) (zlen pre + 4) (zlen pre + 8) = Ret (crc32c p).
Proof.
  intros Hp. destruct (wf_payload_u32 p Hp) as [Hw Hu]. rewrite Hw. split.
  - by apply (field_at _ pre 4 (zlen p) (be_enc 4 (crc32c p) ++ post)).
  - apply (field_at _ (pre ++ be_enc 4 (zlen p)) 4 (crc32c p) post).
    + by rewrite <-!app_assoc.
    + by rewrite zlen_app, zlen_be_enc.
    + lia.
    + apply crc32c_u32.
Qed.

(** Reading a whole frame, wherever it stands. *)
Lemma readFrame_ok pre p post :
  wf_payload p → readFrame (pre ++ frame p ++ post) (zlen pre) = Ret (Ok (p, 8 + zlen p)).
Proof.
  intros Hp. destruct (wf_payload_u32 p Hp) as [Hw Hu]. pose proof Hp as [Hp0 Hp1].
  destruct (readFrame_header pre p (p ++ post) Hp) as [H1 H2].
  assert (Hb : pre ++ frame p ++ post =
    pre ++ be_enc 4 (w32 (zlen p)) ++ be_enc 4 (crc32c p) ++ p ++ post) by (unfold frame; by rewrite <-!app_assoc).
  pose proof (zlen_nonneg pre). pose proof (zlen_nonneg post).
  assert (Hl : zlen (pre ++ frame p ++ post) = zlen pre + 8 + zlen p + zlen post)
    by (rewrite !zlen_app, zlen_frame; lia).
  unfold readFrame, frameHeaderSize. rewrite Hl.
  destruct (Z.ltb_spec (zlen pre + 8 + zlen p + zlen post) (zlen pre + 8)); [lia|].
  rewrite Hb, H1. oret. rewrite H2. oret.
  destruct (Z.eqb_spec (zlen p) 0); [lia|]. destruct (Z.ltb_spec sanityMaxPayload (zlen p)); [lia|]. oret.
  destruct (Z.ltb_spec (zlen pre + 8 + zlen p + zlen post) (zlen pre + 8 + zlen p)); [lia|].
  destruct (Z.ltb_spec (zlen pre + 8 + zlen p) (zlen pre + 8)); [lia|]. oret.
  assert (Hs : slice_of (pre ++ be_enc 4 (w32 (zlen p)) ++ be_enc 4 (crc32c p) ++ p ++ post)
    (zlen pre + 8) (zlen pre + 8 + zlen p) = Ret p).
  { rewrite <-(slice_of_mid (pre ++ be_enc 4 (w32 (zlen p)) ++ be_enc 4 (crc32c p)) p post).
    rewrite <-!app_assoc. f_equal; autorewrite with body; lia. }
  rewrite Hs. oret. rewrite Z.eqb_refl. oret. do 3 f_equal. lia.
Qed.

(** A frame cut short is torn, whatever the checksum. *)
Lemma readFrame_torn pre p n :
  wf_payload p → (n < length (frame p))%nat → readFrame (pre ++ take n (frame p)) (zlen pre) = Ret (Err errTornFrame).
Proof.
  intros Hp Hn. pose proof Hp as [Hp0 Hp1]. pose proof (zlen_nonneg pre).
  assert (Hl : zlen (pre ++ take n (frame p)) = zlen pre + Z.of_nat n).
  { rewrite zlen_app. unfold zlen at 2. rewrite length_take. lia. }
  pose proof (zlen_frame p) as Hf. unfold zlen in Hf at 1. unfold readFrame, frameHeaderSize. rewrite Hl.
  destruct (Z.ltb_spec (zlen pre + Z.of_nat n) (zlen pre + 8)); [done|].
  assert (Ht : take n (frame p) = be_enc 4 (w32 (zlen p)) ++ be_enc 4 (crc32c p) ++ take (n - 8) p).
  { unfold frame. rewrite !take_app_ge by (rewrite ?length_be_enc; lia). rewrite !length_be_enc. do 3 f_equal. lia. }
  rewrite Ht. destruct (readFrame_header pre p (take (n - 8) p) Hp) as [-> ->]. oret.
  destruct (_ || _); [done|]. destruct (Z.ltb_spec (zlen pre + Z.of_nat n) (zlen pre + 8 + zlen p)); [done|].
  unfold zlen in *. lia.
Qed.

(** [readFrame] never panics and never returns more than the buffer holds. *)
Lemma readFrame_total buf off :
  0 ≤ off ≤ zlen buf →
  match readFrame buf off with
  | Ret (Ok (p, n)) => n = 8 + zlen p ∧ wf_payload p ∧ off + n ≤ zlen buf ∧
      slice_of buf (off + 8) (off + n) = Ret p
  | Ret (Err _) => True
  | Panic _ => False
  end.
Proof.
  intros Hoff. unfold readFrame, frameHeaderSize. destruct (Z.ltb_spec (zlen buf) (off + 8)); [done|].
  destruct (field_ok buf off (off + 4)) as (len & -> & Hlen); [lia..|]. oret.
  destruct (field_ok buf (off + 4) (off + 8)) as (crc & -> & Hcrc); [lia..|]. oret.
  destruct (Z.eqb_spec len 0); [done|]. destruct (Z.ltb_spec sanityMaxPayload len); [done|]. oret.
  destruct (Z.ltb_spec (zlen buf) (off + 8 + len)); [done|].
  destruct (Z.ltb_spec (off + 8 + len) (off + 8)); [done|]. oret.
  replace (off + 4 - off) with 4 in Hlen by lia.
  destruct (slice_of buf (off + 8) (off + 8 + len)) as [p|] eqn:Es.
  2: { rewrite slice_of_ok in Es by lia. done. }
  oret. destruct (negb _); [done|].
  assert (zlen p = len).
  { rewrite slice_of_ok in Es by lia. injection Es as <-. unfold zlen in *. rewrite length_take, length_drop. lia. }
  split_and!; [lia|split; lia|lia|]. replace (off + (off + 8 + len - off)) with (off + 8 + len) by lia. done.
Qed.

(** ** What the format promises *)

(** A frame is read back whole or reported torn.  Wherever a frame stands in
    the file its payload is returned with the bytes it took, and a file that
    ends inside the frame reads as torn at the same offset, at every cut. *)
Theorem frame_whole_or_torn pre p post n :
  wf_payload p →
  readFrame (appendFrame pre p ++ post) (zlen pre) = Ret (Ok (p, 8 + zlen p)) ∧
  ((n < length (frame p))%nat → readFrame (pre ++ take n (frame p)) (zlen pre) = Ret (Err errTornFrame)).
Proof.
  intros Hp. split; [|by apply readFrame_torn]. rewrite appendFrame_eq, <-app_assoc. by apply readFrame_ok.
Qed.

(** [readFrame] is safe on any bytes: no index panics, and an accepted
    payload is non-empty, within the size limit, and part of the file. *)
Theorem readFrame_safe buf off :
  0 ≤ off ≤ zlen buf →
  match readFrame buf off with
  | Ret (Ok (p, n)) => n = 8 + zlen p ∧ 0 < zlen p ≤ sanityMaxPayload ∧ off + n ≤ zlen buf ∧
      slice_of buf (off + 8) (off + n) = Ret p
  | Ret (Err _) => True
  | Panic _ => False
  end.
Proof. apply readFrame_total. Qed.

(** A record above the size limit is written but never read back.
    [appendFrame] accepts any payload; one of more than 64 MiB reads as torn,
    so recovery cuts the log there and loses it with all that follows. *)
Theorem oversized_record_lost pre p post :
  sanityMaxPayload < zlen p < u32_mod →
  readFrame (appendFrame pre p ++ post) (zlen pre) = Ret (Err errTornFrame).
Proof.
  intros [Hp Hu]. rewrite appendFrame_eq, <-app_assoc. pose proof (zlen_nonneg pre). pose proof (zlen_nonneg post).
  assert (Hz : 0 ≤ zlen p) by apply zlen_nonneg.
  assert (Hb : pre ++ frame p ++ post =
    pre ++ be_enc 4 (zlen p) ++ (be_enc 4 (crc32c p) ++ p ++ post)) by (unfold frame; rewrite w32_id by lia; by rewrite <-!app_assoc).
  assert (Hl : zlen (pre ++ frame p ++ post) = zlen pre + 8 + zlen p + zlen post)
    by (rewrite !zlen_app, zlen_frame; lia).
  unfold readFrame, frameHeaderSize. rewrite Hl.
  destruct (Z.ltb_spec (zlen pre + 8 + zlen p + zlen post) (zlen pre + 8)); [lia|]. rewrite Hb.
  rewrite (field_at _ pre 4 (zlen p) (be_enc 4 (crc32c p) ++ p ++ post) (zlen pre) (zlen pre + 4))
    by first [done|lia|split; change (256 ^ Z.of_nat 4) with u32_mod; lia]. oret.
  destruct (field_ok (pre ++ be_enc 4 (zlen p) ++ be_enc 4 (crc32c p) ++ p ++ post) (zlen pre + 4) (zlen pre + 8))
    as (crc & -> & _); [lia|rewrite <-Hb, Hl; lia|]. oret.
  destruct (Z.ltb_spec sanityMaxPayload (zlen p)); [|lia]. by rewrite orb_true_r.
Qed.

(** Every WAL record decodes to what was encoded. *)
Theorem record_roundtrip e h m :
  wf_entry e → wf_hard h → wf_meta m →
  (body ← slice_from (encodeEntry e) 1; decodeEntry body) = Ret (Ok e) ∧
  (body ← slice_from (encodeHardState h) 1; decodeHardState body) = Ret (Ok h) ∧
  (body ← slice_from (encodeTruncateSuffix m) 1; decodeTruncateSuffix body) = Ret (Ok m).
Proof.
  intros He Hh Hm. assert (Hs1 : ∀ (t : byte) b, slice_from (t :: b) 1 = Ret b).
  { intros t b. rewrite slice_from_ok; [done|]. rewrite zlen_cons. pose proof (zlen_nonneg b). lia. }
  split_and!.
  - rewrite encodeEntry_eq, Hs1 by done. oret. by apply decodeEntry_ok.
  - unfold encodeHardState. cbn [app]. rewrite Hs1. oret. by apply decodeHardState_ok.
  - unfold encodeTruncateSuffix. cbn [app]. rewrite Hs1. oret. by apply decodeTruncateSuffix_ok.
Qed.

Lemma frame_whole_or_torn_witness :
  readFrame (appendFrame [x07] [x01; x02] ++ [x09]) 1 = Ret (Ok ([x01; x02], 10)) ∧
  readFrame ([x07] ++ take 9 (frame [x01; x02])) 1 = Ret (Err errTornFrame).
Proof.
  destruct (frame_whole_or_torn [x07] [x01; x02] [x09] 9) as [H1 H2]; [by vm_compute|].
  split; [exact H1|]. apply H2. vm_compute. lia.
Defined.
