(* ===== verification/Disk.v ===== *)
(** * The production storage: WAL, snapshots, recovery
      (src/storage/disk/disk.go, wal.go, snapshot.go)

    [Storage] is the Go struct together with the directory it owns.  A file is
    its bytes and how many of them were fsynced; a segment or snapshot file
    name is the number it is formed from (the names are zero-padded, so their
    order is the numbers' order).  Operating-system calls succeed; what a crash
    does to unsynced bytes is [crash] of DiskWal.  The test hooks are nil. *)

From S2P Require Import Prelude RaftTypes Storage Framing.

Module disk.

(** ** Files *)

Record file : Type := mkFile {
  f_data : list byte;
  f_synced : Z
}.
Record directory : Type := mkDirectory {
  d_segs : gmap Z file;
  d_snaps : gmap Z (list byte)
}.
Definition emptyFile : file := mkFile [] 0.
Definition set_segs (v : gmap Z file) (d : directory) : directory := mkDirectory v (d_snaps d).
Definition set_snaps (v : gmap Z (list byte)) (d : directory) : directory := mkDirectory (d_segs d) v.
(** The names of a directory, sorted. *)
Definition sorted_keys {A} (m : gmap Z A) : list Z := merge_sort Z.le (map_to_list m).*1.

Record Storage : Type := mkStorage {
  dir : directory;
  hardState : HardState;
  snapshot : Snapshot;
  snapshotTruncationPending : bool;
  (* entries[i] holds the entry at index snapshot.Metadata.Index + 1 + i *)
  entries : list Entry;
  buf : list byte;
  (* the active segment's sequence number, while it is open *)
  seg : option Z;
  segSize : Z;
  segSeq : Z;
  noSync : bool
}.

Definition set_dir v s := mkStorage v (hardState s) (snapshot s) (snapshotTruncationPending s) (entries s) (buf s) (seg s) (segSize s) (segSeq s) (noSync s).
Definition set_hardState v s := mkStorage (dir s) v (snapshot s) (snapshotTruncationPending s) (entries s) (buf s) (seg s) (segSize s) (segSeq s) (noSync s).
Definition set_snapshot v s := mkStorage (dir s) (hardState s) v (snapshotTruncationPending s) (entries s) (buf s) (seg s) (segSize s) (segSeq s) (noSync s).
Definition set_pending v s := mkStorage (dir s) (hardState s) (snapshot s) v (entries s) (buf s) (seg s) (segSize s) (segSeq s) (noSync s).
Definition set_entries v s := mkStorage (dir s) (hardState s) (snapshot s) (snapshotTruncationPending s) v (buf s) (seg s) (segSize s) (segSeq s) (noSync s).
Definition set_buf v s := mkStorage (dir s) (hardState s) (snapshot s) (snapshotTruncationPending s) (entries s) v (seg s) (segSize s) (segSeq s) (noSync s).
Definition set_active v size seq s := mkStorage (dir s) (hardState s) (snapshot s) (snapshotTruncationPending s) (entries s) (buf s) v size seq (noSync s).
Definition DisableSync s := mkStorage (dir s) (hardState s) (snapshot s) (snapshotTruncationPending s) (entries s) (buf s) (seg s) (segSize s) (segSeq s) true.

Definition maxSegmentSize : Z := Z.shiftl 16 20.

Definition offset (s : Storage) : Z := snIndex (snapshot s).

(** [&Storage{dir: dir}] *)
Definition fresh_storage (d : directory) : Storage :=
  mkStorage d zeroHardState zeroSnapshot false [] [] None 0 0 false.

Definition Close (s : Storage) : Storage := set_active None (segSize s) (segSeq s) s.

(** ** disk.go: reads and appends *)

Definition disk_AppendEntries (es : list Entry) (s : Storage) : outcome (Storage * error) :=
  if decide (es = []) then Ret (s, None) else
  let off := offset s in
  first ← eIndex <$> index es 0;
  lastI ← eIndex <$> index es (zlen es - 1);
  if lastI <=? off then Ret (s, None) else
  '(es, first) ← (if first <=? off then
                    es' ← slice_from es (off +w 1 -w first);
                    first' ← eIndex <$> index es' 0;
                    Ret (es', first')
                  else Ret (es, first));
  let pos := first -w (off +w 1) in
  if zlen (entries s) <? pos then Ret (s, Some ErrUnavailable) else
  kept ← slice_to (entries s) pos;
  let s := set_entries (kept ++ es) s in
  Ret (set_buf (foldl (λ b e, appendFrame b (encodeEntry e)) (buf s) es) s, None).

Definition disk_SetHardState (st : HardState) (s : Storage) : outcome (Storage * error) :=
  let s := set_hardState st s in
  Ret (set_buf (appendFrame (buf s) (encodeHardState st)) s, None).

Definition disk_HardState (s : Storage) : outcome (result errkind HardState) :=
  Ret (Ok (hardState s)).

Definition disk_Entries (lo hi : Z) (s : Storage) : outcome (result errkind (list Entry)) :=
  let off := offset s in
  if lo <=? off then Ret (Err ErrCompacted) else
  let lastI := off +w zlen (entries s) in
  if lastI +w 1 <? hi then Ret (Err ErrUnavailable) else
  if hi <? lo then Ret (Err ErrUnavailable) else
  if lo =? hi then Ret (Ok []) else
  out ← slice_of (entries s) (lo -w off -w 1) (hi -w off -w 1);
  Ret (Ok out).

Definition disk_Term (i : Z) (s : Storage) : outcome (result errkind Z) :=
  let off := offset s in
  if i =? off then Ret (Ok (snTerm (snapshot s))) else
  if i <? off then Ret (Err ErrCompacted) else
  if off +w zlen (entries s) <? i then Ret (Err ErrUnavailable) else
  e ← index (entries s) (i -w off -w 1);
  Ret (Ok (eTerm e)).

Definition disk_FirstIndex (s : Storage) : outcome (result errkind Z) :=
  Ret (Ok (offset s +w 1)).

Definition disk_LastIndex (s : Storage) : outcome (result errkind Z) :=
  Ret (Ok (offset s +w zlen (entries s))).

Definition disk_Snapshot (s : Storage) : outcome (result errkind Snapshot) :=
  Ret (Ok (snapshot s)).

(** ** wal.go: writing *)

Definition rotateSegment (seq : Z) (s : Storage) : Storage :=
  let s := set_active (Some seq) 0 seq s in
  (* O_CREATE keeps a file that is already there *)
  let f := default emptyFile (d_segs (dir s) !! seq) in
  set_dir (set_segs (<[seq := f]> (d_segs (dir s))) (dir s)) s.

(** Appends [bytes] to the file of the active segment; [None] when it is closed. *)
Definition writeSegment (bytes : list byte) (sync : bool) (s : Storage) : option Storage :=
  match seg s with
  | None => None
  | Some q =>
      let f := default emptyFile (d_segs (dir s) !! q) in
      let data := f_data f ++ bytes in
      let f := mkFile data (if sync then zlen data else f_synced f) in
      Some (set_dir (set_segs (<[q := f]> (d_segs (dir s))) (dir s)) s)
  end.

Definition syncBuffered (durable : bool) (s : Storage) : Storage * error :=
  if zlen (buf s) =? 0 then (s, None) else
  let s := if maxSegmentSize <=? segSize s then rotateSegment (segSeq s +w 1) s else s in
  match writeSegment (buf s) durable s with
  | None => (s, Some ErrOther)
  | Some s' => (set_buf [] (set_active (seg s') (segSize s' + zlen (buf s')) (segSeq s') s'), None)
  end.

Definition Sync (s : Storage) : Storage * error := syncBuffered (negb (noSync s)) s.

(** ** snapshot.go *)

Definition snapshotFlagTruncateSuffix : byte := x01.

Definition snapPayload (snap : Snapshot) (truncateSuffix : bool) : list byte :=
  be_enc 8 (snIndex snap) ++ be_enc 8 (snTerm snap) ++ be_enc 4 (w32 (zlen (snData snap))) ++
  snData snap ++ [if truncateSuffix then snapshotFlagTruncateSuffix else x00].

(** The snapshot and its flag. *)
Definition parseSnapPayload (payload : list byte) : outcome (result disk_error (Snapshot * bool)) :=
  if zlen payload <? 20 then Ret (Err errTornFrame) else
  idx ← field payload 0 8;
  term ← field payload 8 16;
  dataLen ← field payload 16 20;
  let dataEnd := 20 + dataLen in
  if negb (zlen payload =? dataEnd) && negb (zlen payload =? dataEnd + 1) then Ret (Err errTornFrame) else
  data ← (if 0 <? dataLen then slice_of payload 20 dataEnd else Ret []);
  let snap := mkSnapshot (mkSnapshotMetadata idx term) data in
  if zlen payload =? dataEnd + 1 then
    flags ← index payload dataEnd;
    if negb (Z.land (b2z flags) (255 - b2z snapshotFlagTruncateSuffix) =? 0) then Ret (Err errTornFrame)
    else Ret (Ok (snap, negb (Z.land (b2z flags) (b2z snapshotFlagTruncateSuffix) =? 0)))
  else Ret (Ok (snap, false)).

Definition writeSnapshotFile (snap : Snapshot) (truncateSuffix : bool) (s : Storage) : Storage :=
  let framed := appendFrame [] (snapPayload snap truncateSuffix) in
  set_dir (set_snaps (<[snIndex snap := framed]> (d_snaps (dir s))) (dir s)) s.

Definition disk_ApplySnapshot (snap : Snapshot) (s : Storage) : outcome (Storage * error) :=
  if snIndex snap <=? offset s then Ret (s, Some ErrCompacted) else
  let off := offset s in
  let lastI := off +w zlen (entries s) in
  retainSuffix ← (if snIndex snap <? lastI then
                    e ← index (entries s) (snIndex snap -w off -w 1);
                    Ret (eTerm e =? snTerm snap)
                  else Ret false);
  let truncateSuffix := (snIndex snap <? lastI) && negb (retainSuffix : bool) in
  let s := writeSnapshotFile snap truncateSuffix s in
  es ← (if (retainSuffix : bool) then slice_from (entries s) (snIndex snap -w off) else Ret []);
  let s := set_pending truncateSuffix (set_snapshot snap (set_entries es s)) in
  if truncateSuffix then
    let s := set_buf (appendFrame (buf s) (encodeTruncateSuffix (snMetadata snap))) s in
    let '(s, e) := syncBuffered true s in
    match e with
    | Some e => Ret (s, Some e)
    | None => Ret (set_pending false s, None)
    end
  else Ret (s, None).

Definition readSnapshotFile (data : list byte) : outcome (result disk_error (Snapshot * bool)) :=
  r ← readFrame data 0;
  match r with
  | Err e => Ret (Err e)
  | Ok (payload, _) => parseSnapPayload payload
  end.

(** The loop of [loadLatestSnapshot] over the names, newest first. *)
Fixpoint firstIntact (names : list Z) (snaps : gmap Z (list byte)) : outcome (option (Snapshot * bool)) :=
  match names with
  | [] => Ret None
  | n :: names =>
      r ← readSnapshotFile (default [] (snaps !! n));
      match r with
      | Ok st => Ret (Some st)
      | Err _ => firstIntact names snaps
      end
  end.

Definition loadLatestSnapshot (s : Storage) : outcome Storage :=
  r ← firstIntact (reverse (sorted_keys (d_snaps (dir s)))) (d_snaps (dir s));
  match r with
  | Some (sn, trunc) => Ret (set_pending trunc (set_snapshot sn s))
  | None => Ret s
  end.

(** ** wal.go: recovery *)

Definition applyEntryRecord (e : Entry) (s : Storage) : outcome (Storage * option disk_error) :=
  let off := offset s in
  if eIndex e <=? off then Ret (s, None) else
  let pos := eIndex e -w (off +w 1) in
  if zlen (entries s) <? pos then Ret (s, Some errTornFrame) else
  kept ← slice_to (entries s) pos;
  Ret (set_entries (kept ++ [e]) s, None).

Definition truncateSuffix (idx : Z) (s : Storage) : outcome Storage :=
  let off := offset s in
  if idx <=? off then Ret (set_entries [] s) else
  let keep := idx -w off in
  if keep <? zlen (entries s) then
    es ← slice_to (entries s) keep;
    Ret (set_entries es s)
  else Ret s.

Definition applyRecord (payload : list byte) (s : Storage) : outcome (Storage * option disk_error) :=
  if zlen payload =? 0 then Ret (s, Some errTornFrame) else
  ty ← index payload 0;
  body ← slice_from payload 1;
  if decide (ty = recEntry) then
    r ← decodeEntry body;
    match r with Err e => Ret (s, Some e) | Ok e => applyEntryRecord e s end
  else if decide (ty = recHardState) then
    r ← decodeHardState body;
    match r with Err e => Ret (s, Some e) | Ok st => Ret (set_hardState st s, None) end
  else if decide (ty = recTruncateSuffix) then
    r ← decodeTruncateSuffix body;
    match r with
    | Err e => Ret (s, Some e)
    | Ok meta =>
        s ← truncateSuffix (smIndex meta) s;
        if snapshotTruncationPending s && bool_decide (meta = snMetadata (snapshot s))
        then Ret (set_pending false s, None) else Ret (s, None)
    end
  else Ret (s, Some errTornFrame).

(** The loop of [replaySegment], on the number of frames left to try; a frame
    takes at least one byte, so the length of the data is enough.  [Some off]:
    the segment is torn at [off]. *)
Fixpoint replayLoop (fuel : nat) (data : list byte) (off : Z) (s : Storage) : outcome (Storage * option Z) :=
  match fuel with
  | O => Ret (s, None)
  | S fuel =>
      if off <? zlen data then
        r ← readFrame data off;
        match r with
        | Err _ => Ret (s, Some off)
        | Ok (payload, n) =>
            '(s, e) ← applyRecord payload s;
            match e with
            | Some _ => Ret (s, Some off)
            | None => replayLoop fuel data (off + n) s
            end
        end
      else Ret (s, None)
  end.

Definition truncateSegment (q size : Z) (s : Storage) : Storage :=
  let f := default emptyFile (d_segs (dir s) !! q) in
  set_dir (set_segs (<[q := mkFile (take (Z.to_nat size) (f_data f)) size]> (d_segs (dir s))) (dir s)) s.

(** Whether the segment was torn. *)
Definition replaySegment (q : Z) (s : Storage) : outcome (Storage * bool) :=
  let data := f_data (default emptyFile (d_segs (dir s) !! q)) in
  '(s, torn) ← replayLoop (length data) data 0 s;
  match torn with
  | Some off => Ret (truncateSegment q off s, true)
  | None => Ret (s, false)
  end.

Definition removeSegments (qs : list Z) (s : Storage) : Storage :=
  set_dir (set_segs (foldl (λ m q, delete q m) (d_segs (dir s)) qs) (dir s)) s.

Definition listSegments (s : Storage) : list Z := sorted_keys (d_segs (dir s)).

(** The replay loop of [Open]: the segments that remain. *)
Fixpoint replayAll (segs done : list Z) (s : Storage) : outcome (Storage * list Z) :=
  match segs with
  | [] => Ret (s, done)
  | q :: segs =>
      '(s, torn) ← replaySegment q s;
      if (torn : bool) then Ret (removeSegments segs s, done ++ [q])
      else replayAll segs (done ++ [q]) s
  end.

Definition openActiveSegment (segs : list Z) (s : Storage) : Storage :=
  match last segs with
  | None => rotateSegment 1 s
  | Some q =>
      let f := default emptyFile (d_segs (dir s) !! q) in
      set_active (Some q) (zlen (f_data f)) q s
  end.

Definition Open (d : directory) : outcome (Storage * error) :=
  s ← loadLatestSnapshot (fresh_storage d);
  '(s, segs) ← replayAll (listSegments s) [] s;
  let repair := snapshotTruncationPending s in
  let s := if repair then set_entries [] s else s in
  let s := openActiveSegment segs s in
  if repair then
    let s := set_buf (appendFrame (buf s) (encodeTruncateSuffix (snMetadata (snapshot s)))) s in
    let '(s, e) := syncBuffered true s in
    match e with
    | Some e => Ret (Close s, Some e)
    | None => Ret (set_pending false s, None)
    end
  else Ret (s, None).

End disk.
