(* ===== verification/DiskRecovery.v ===== *)
(** * What the production storage promises

    As a [LogStorage] it behaves as the in-memory storage does ([disk_laws]).
    As a WAL it is a redo log: the bytes on disk are frames of records, a crash
    leaves whole frames and at most one cut, and [Open] folds the records over
    the newest snapshot ([redoAll], [Open_spec]). *)

From S2P Require Import Prelude RaftTypes Storage Framing Disk.
Import disk.

(** ** The mirror as an in-memory storage *)

Definition mirror (s : Storage) : mem.Storage := mem.mkStorage (hardState s) (snapshot s) (entries s).
Definition mirrored (r : Storage * error) : mem.Storage * error := (mirror r.1, r.2).

Lemma disk_append_mem es s :
  mirrored <$> disk_AppendEntries es s = mem.mem_AppendEntries es (mirror s).
Proof.
  unfold disk_AppendEntries, mem.mem_AppendEntries. case_decide; [done|]. cbn [mbind outcome_bind].
  destruct (eIndex <$> index es 0) as [first|]; [|done]. cbn [mbind outcome_bind].
  destruct (eIndex <$> index es (zlen es - 1)) as [lastI|]; [|done]. cbn [mbind outcome_bind].
  change (mem.offset (mirror s)) with (offset s). destruct (lastI <=? offset s); [done|].
  destruct (if first <=? offset s then _ else _) as [[es' first']|]; [|done]. cbn [mbind outcome_bind].
  change (mem.entries (mirror s)) with (entries s). destruct (_ <? _); [done|].
  by destruct (slice_to (entries s) _).
Qed.

Lemma syncBuffered_mirror b s : mirror (syncBuffered b s).1 = mirror s.
Proof.
  unfold syncBuffered, writeSegment, rotateSegment, mirror. destruct (_ =? _); [done|].
  destruct (_ <=? _); simpl; [done|]. by destruct (seg s).
Qed.
Lemma syncBuffered_open b s : is_Some (seg s) → (syncBuffered b s).2 = None ∧ is_Some (seg (syncBuffered b s).1).
Proof.
  unfold syncBuffered, writeSegment, rotateSegment. intros [q Hq]. destruct (_ =? _); [by split; [|exists q]|].
  destruct (_ <=? _); simpl; [done|]. rewrite Hq. simpl. by rewrite Hq.
Qed.

Lemma disk_install_mem sn s :
  is_Some (seg s) → mirrored <$> disk_ApplySnapshot sn s = mem.mem_ApplySnapshot sn (mirror s).
Proof.
  intros Hseg. unfold disk_ApplySnapshot, mem.mem_ApplySnapshot. change (mem.offset (mirror s)) with (offset s).
  destruct (_ <=? _); [done|]. change (mem.entries (mirror s)) with (entries s).
  destruct (if snIndex sn <? _ then _ else _) as [retain|]; [|done]. cbn [mbind outcome_bind].
  change (entries (writeSnapshotFile _ _ s)) with (entries s).
  destruct (if retain then slice_from (entries s) _ else Ret []) as [es|]; [|done]. cbn [mbind outcome_bind].
  destruct (_ && negb retain); [|done].
  match goal with |- context [syncBuffered true ?x] => set (s2 := x) end.
  pose proof (syncBuffered_mirror true s2) as Hm. destruct (syncBuffered_open true s2) as [He _]; [done|].
  destruct (syncBuffered true s2) as [s3 e]. simpl in Hm, He. subst e. cbn. unfold mirrored. simpl.
  change (mirror (set_pending false s3)) with (mirror s3). by rewrite Hm.
Qed.

(** The same without the open segment: only the error may differ. *)
Lemma disk_install_any sn s s' e :
  disk_ApplySnapshot sn s = Ret (s', e) →
  ∃ m e', mem.mem_ApplySnapshot sn (mirror s) = Ret (m, e') ∧ mirror s' = m.
Proof.
  unfold disk_ApplySnapshot, mem.mem_ApplySnapshot. change (mem.offset (mirror s)) with (offset s).
  destruct (_ <=? _); [intros [= <- <-]; by eexists _, _|]. change (mem.entries (mirror s)) with (entries s).
  destruct (if snIndex sn <? _ then _ else _) as [retain|]; [|done]. cbn [mbind outcome_bind].
  change (entries (writeSnapshotFile _ _ s)) with (entries s).
  destruct (if retain then slice_from (entries s) _ else Ret []) as [es|]; [|done]. cbn [mbind outcome_bind].
  destruct (_ && negb retain); [|intros [= <- <-]; by eexists _, _].
  match goal with |- context [syncBuffered true ?x] => set (s2 := x) end.
  pose proof (syncBuffered_mirror true s2) as Hm. destruct (syncBuffered true s2) as [s3 [e3|]]; simpl in Hm;
    intros [= <- <-]; eexists _, _; (split; [done|]); [|change (mirror (set_pending false s3)) with (mirror s3)];
    by rewrite Hm.
Qed.

#[global] Instance disk_LogStorage : LogStorage Storage := {|
  AppendEntries := disk_AppendEntries;
  SetHardState := disk_SetHardState;
  HardStateOf := disk_HardState;
  Entries := disk_Entries;
  TermOf := disk_Term;
  FirstIndex := disk_FirstIndex;
  LastIndex := disk_LastIndex;
  ApplySnapshot := disk_ApplySnapshot;
  SnapshotOf := disk_Snapshot
|}.

Definition disk_view (s : Storage) : storage_view := mem.mem_view (mirror s).

Lemma disk_append s e es :
  view_wf (disk_view s) → append_ok (disk_view s) e es →
  ∃ s', disk_AppendEntries (e :: es) s = Ret (s', None) ∧
    disk_view s' = mkView (hardState s) (snapshot s) (view_append (disk_view s) (e :: es)).
Proof.
  intros Hw Ha. destruct (mem.mem_append (mirror s) e es Hw Ha) as (m' & E & V).
  rewrite <-disk_append_mem in E. destruct (disk_AppendEntries (e :: es) s) as [[s' e']|]; [|done].
  injection E as Em Ee. simpl in *. subst. by exists s'.
Qed.
Lemma disk_append_hard s es s' e :
  disk_AppendEntries es s = Ret (s', e) → hardState s' = hardState s.
Proof.
  intros E. pose proof (disk_append_mem es s) as Hm. rewrite E in Hm. symmetry in Hm.
  by apply mem.mem_append_hard in Hm.
Qed.
Lemma disk_install s sn :
  view_wf (disk_view s) → v_off (disk_view s) < snIndex sn < u64_mod - 1 →
  ∃ s' e, disk_ApplySnapshot sn s = Ret (s', e) ∧
    disk_view s' = mkView (hardState s) sn (view_install (disk_view s) sn).
Proof.
  intros Hw Hi. destruct (mem.mem_install (mirror s) sn Hw Hi) as (m' & E & V).
  assert (Hex : ∃ s' e, disk_ApplySnapshot sn s = Ret (s', e)).
  { unfold disk_ApplySnapshot, mem.mem_ApplySnapshot in *. change (mem.offset (mirror s)) with (offset s) in E.
    destruct (_ <=? _); [by eexists _, _|]. change (mem.entries (mirror s)) with (entries s) in E.
    destruct (if snIndex sn <? _ then _ else _) as [retain|]; [|done]. cbn [mbind outcome_bind] in *.
    change (entries (writeSnapshotFile _ _ s)) with (entries s).
    destruct (if retain then slice_from (entries s) _ else Ret []) as [es|]; [|done]. cbn [mbind outcome_bind].
    destruct (_ && _); [|by eexists _, _]. destruct (syncBuffered true _) as [s3 [e3|]]; by eexists _, _. }
  destruct Hex as (s' & e & Ed). exists s', e. split; [done|].
  apply disk_install_any in Ed as (m & e' & Em & <-). rewrite E in Em. injection Em as -> _. done.
Qed.
Lemma disk_install_hard s sn s' e :
  disk_ApplySnapshot sn s = Ret (s', e) → hardState s' = hardState s.
Proof. intros (m & e' & Em & <-)%disk_install_any. by apply mem.mem_install_hard in Em. Qed.

Lemma disk_set_hard_view s h s' e :
  disk_SetHardState h s = Ret (s', e) → disk_view s' = mkView h (v_snap (disk_view s)) (v_ents (disk_view s)).
Proof. by intros [= <- _]. Qed.

#[global] Instance disk_laws : LogStorageLaws Storage := {|
  view := disk_view;
  law_hard s := eq_refl;
  law_snap s := eq_refl;
  law_first s := mem.mem_first (mirror s);
  law_last s := mem.mem_last (mirror s);
  law_term s := mem.mem_term (mirror s);
  law_entries s := mem.mem_entries (mirror s);
  law_append := disk_append;
  law_set_hard s h _ _ := ex_intro _ _ eq_refl;
  law_set_hard_view := disk_set_hard_view;
  law_install := disk_install;
  law_append_hard := disk_append_hard;
  law_install_hard := disk_install_hard
|}.

(** ** Records *)

Inductive rec : Type :=
| REntry (e : Entry)
| RHard (h : HardState)
| RTrunc (m : SnapshotMetadata).

#[export] Instance rec_eq_dec : EqDecision rec.
Proof. solve_decision. Defined.

Definition payload (r : rec) : list byte :=
  match r with
  | REntry e => encodeEntry e
  | RHard h => encodeHardState h
  | RTrunc m => encodeTruncateSuffix m
  end.
Definition wf_rec (r : rec) : Prop :=
  match r with
  | REntry e => wf_entry e
  | RHard h => wf_hard h
  | RTrunc m => wf_meta m
  end.
Definition frames (rs : list rec) : list byte := concat (map (λ r, frame (payload r)) rs).

(** Replaying one record; [None] when it leaves a gap. *)
Definition redo (s : Storage) (r : rec) : option Storage :=
  match r with
  | REntry e =>
      if eIndex e <=? offset s then Some s
      else if zlen (entries s) <? eIndex e - offset s - 1 then None
      else Some (set_entries (take (Z.to_nat (eIndex e - offset s - 1)) (entries s) ++ [e]) s)
  | RHard h => Some (set_hardState h s)
  | RTrunc m =>
      let s := set_entries (if smIndex m <=? offset s then []
                            else take (Z.to_nat (smIndex m - offset s)) (entries s)) s in
      Some (if snapshotTruncationPending s && bool_decide (m = snMetadata (snapshot s))
            then set_pending false s else s)
  end.
Fixpoint redoAll (rs : list rec) (s : Storage) : option Storage :=
  match rs with
  | [] => Some s
  | r :: rs => s ← redo s r; redoAll rs s
  end.

(** The snapshot index leaves room for one more. *)
Definition base_ok (s : Storage) : Prop := 0 ≤ offset s < u64_mod - 1.

Lemma payload_wf r : wf_rec r → wf_payload (payload r).
Proof.
  unfold wf_payload. change sanityMaxPayload with 67108864. destruct r as [e|h|m]; simpl.
  - intros (_ & _ & Hd). change sanityMaxPayload with 67108864 in Hd. unfold encodeEntry.
    pose proof (zlen_nonneg (eData e)). autorewrite with body. lia.
  - intros _. unfold encodeHardState. autorewrite with body. lia.
  - intros _. unfold encodeTruncateSuffix. autorewrite with body. lia.
Qed.

Lemma redo_frame s r s' : redo s r = Some s' →
  dir s' = dir s ∧ snapshot s' = snapshot s ∧ buf s' = buf s ∧ seg s' = seg s ∧ segSize s' = segSize s ∧
  segSeq s' = segSeq s ∧ noSync s' = noSync s.
Proof. destruct r; simpl; repeat case_match; intros; simplify_eq; done. Qed.

Lemma applyRecord_redo r s :
  wf_rec r → base_ok s →
  applyRecord (payload r) s = Ret (match redo s r with Some s' => (s', None) | None => (s, Some errTornFrame) end).
Proof.
  intros Hw [Hb1 Hb2]. assert (Hne : ∀ (t : byte) b, (zlen (t :: b) =? 0) = false).
  { intros t b. rewrite zlen_cons. pose proof (zlen_nonneg b). apply Z.eqb_neq. lia. }
  assert (Hs1 : ∀ (t : byte) b, slice_from (t :: b) 1 = Ret b).
  { intros t b. rewrite slice_from_ok; [done|]. rewrite zlen_cons. pose proof (zlen_nonneg b). lia. }
  assert (Hi0 : ∀ (t : byte) b, index (t :: b) 0 = Ret t) by done.
  unfold applyRecord. destruct r as [e|h|m]; cbn [wf_rec payload redo] in Hw |- *.
  - rewrite encodeEntry_eq by done. rewrite Hne, Hi0. oret.
    rewrite Hs1. oret. rewrite decide_True by done. rewrite decodeEntry_ok by done. oret.
    unfold applyEntryRecord. destruct (Z.leb_spec (eIndex e) (offset s)); [done|].
    destruct Hw as (_ & [? ?] & _). rewrite (w64_id (offset s + 1)) by lia. rewrite w64_id by lia.
    replace (eIndex e - (offset s + 1)) with (eIndex e - offset s - 1) by lia.
    destruct (Z.ltb_spec (zlen (entries s)) (eIndex e - offset s - 1)); [done|].
    by rewrite slice_to_ok by lia.
  - unfold encodeHardState. cbn [app]. rewrite Hne, Hi0. oret.
    rewrite Hs1. oret. rewrite decide_False, decide_True by done. by rewrite decodeHardState_ok by done.
  - unfold encodeTruncateSuffix. cbn [app]. rewrite Hne, Hi0. oret.
    rewrite Hs1. oret. rewrite !decide_False, decide_True by done. rewrite decodeTruncateSuffix_ok by done. oret.
    destruct Hw as [[? ?] _]. unfold truncateSuffix. destruct (Z.leb_spec (smIndex m) (offset s)); oret.
    { by destruct (_ && _). }
    rewrite w64_id by lia. destruct (Z.ltb_spec (smIndex m - offset s) (zlen (entries s))).
    + rewrite slice_to_ok by lia. oret. by destruct (_ && _).
    + oret. rewrite take_ge by (unfold zlen in *; lia).
      replace (set_entries (entries s) s) with s by (by destruct s). by destruct (_ && _).
Qed.

Lemma redoAll_app rs rs' s : redoAll (rs ++ rs') s = redoAll rs s ≫= redoAll rs'.
Proof.
  revert s. induction rs as [|r rs IH]; intros s; [done|]. simpl. destruct (redo s r); simpl; [apply IH|done].
Qed.
Lemma redoAll_prefix rs rs' s s' : redoAll (rs ++ rs') s = Some s' → ∃ s1, redoAll rs s = Some s1.
Proof. rewrite redoAll_app. destruct (redoAll rs s); [by eauto|done]. Qed.

Lemma redoAll_frame rs s s' : redoAll rs s = Some s' →
  dir s' = dir s ∧ snapshot s' = snapshot s ∧ buf s' = buf s ∧ seg s' = seg s ∧ segSize s' = segSize s ∧
  segSeq s' = segSeq s ∧ noSync s' = noSync s.
Proof.
  revert s. induction rs as [|r rs IH]; intros s; simpl; [by intros [= <-]|].
  intros (s1 & E & E')%bind_Some. apply redo_frame in E. apply IH in E'. destruct_and!. split_and!; congruence.
Qed.
Lemma base_ok_redo r s s' : base_ok s → redo s r = Some s' → base_ok s'.
Proof. unfold base_ok, offset. intros Hb (_ & -> & _)%redo_frame. done. Qed.

(** What [redo] depends on, and what it yields. *)
Definition core (s : Storage) : HardState * Snapshot * list Entry := (hardState s, snapshot s, entries s).

Lemma redo_core r s t s' :
  core s = core t → redo s r = Some s' → ∃ t', redo t r = Some t' ∧ core s' = core t'.
Proof.
  unfold core. intros [= Eh Es Ee]. assert (Eo : offset s = offset t) by (unfold offset; by rewrite Es).
  destruct r as [e|h|m]; simpl; rewrite <-?Eo, <-?Ee.
  - repeat case_match; intros; simplify_eq; eexists; (split; [done|]); simpl; congruence.
  - intros [= <-]. eexists. split; [done|]. simpl. congruence.
  - intros E. injection E as E. subst s'. eexists. split; [done|].
    destruct (snapshotTruncationPending s && _), (snapshotTruncationPending t && _); simpl; congruence.
Qed.
Lemma redoAll_core rs s t s' :
  core s = core t → redoAll rs s = Some s' → ∃ t', redoAll rs t = Some t' ∧ core s' = core t'.
Proof.
  revert s t. induction rs as [|r rs IH]; intros s t Hc; simpl; [intros [= <-]; by eauto|].
  intros (s1 & E & E')%bind_Some. destruct (redo_core r s t s1 Hc E) as (t1 & Et & Hc1).
  rewrite Et. simpl. by eapply IH.
Qed.

(** The pending flag survives unless the snapshot's own marker is replayed. *)
Lemma redo_pending r s s' :
  redo s r = Some s' →
  snapshotTruncationPending s' = snapshotTruncationPending s && negb (bool_decide (r = RTrunc (snMetadata (snapshot s)))).
Proof.
  destruct r as [e|h|m]; simpl.
  - rewrite ?andb_true_r. repeat case_match; intros; by simplify_eq.
  - rewrite ?andb_true_r. by intros [= <-].
  - intros [= <-]. destruct (snapshotTruncationPending s) eqn:Ep; simpl; [|done].
    case_bool_decide as Em; simpl.
    + by rewrite bool_decide_true by congruence.
    + rewrite Ep, bool_decide_false; [done|]. congruence.
Qed.
Lemma redoAll_no_pending rs s s' :
  redoAll rs s = Some s' → snapshotTruncationPending s = false → snapshotTruncationPending s' = false.
Proof.
  revert s. induction rs as [|r rs IH]; intros s; simpl; [by intros [= <-]|].
  intros (s1 & E & E')%bind_Some Hp. apply (IH s1); [done|]. apply redo_pending in E. by rewrite E, Hp.
Qed.
Lemma redoAll_pending rs s s' :
  redoAll rs s = Some s' → RTrunc (snMetadata (snapshot s)) ∈ rs → snapshotTruncationPending s' = false.
Proof.
  revert s. induction rs as [|r rs IH]; intros s; simpl; [by intros _ ?%not_elem_of_nil|].
  intros (s1 & E & E')%bind_Some Hin. pose proof (redo_frame _ _ _ E) as (_ & Es & _).
  apply elem_of_cons in Hin as [<-|Hin]; [|apply (IH s1); [done|by rewrite Es]].
  apply (redoAll_no_pending rs s1); [done|]. apply redo_pending in E.
  rewrite bool_decide_true in E by done. by rewrite andb_false_r in E.
Qed.

(** ** Replaying under a later snapshot

    [behind s t]: [t] has the later snapshot, and holds the entries of [s] above
    it whenever [s] reaches past it. *)
Definition behind (s t : Storage) : Prop :=
  hardState s = hardState t ∧ offset s ≤ offset t ∧
  (offset t - offset s < zlen (entries s) →
   entries t = drop (Z.to_nat (offset t - offset s)) (entries s)).

Lemma redo_behind r s t s' :
  behind s t → redo s r = Some s' → ∃ t', redo t r = Some t' ∧ behind s' t'.
Proof.
  intros (Hh & Ho & Hd) E. unfold behind. pose proof (zlen_nonneg (entries s)) as Hs. pose proof (zlen_nonneg (entries t)) as Ht.
  destruct r as [e|h|m]; simpl in *.
  - destruct (Z.leb_spec (eIndex e) (offset s)).
    { injection E as <-. destruct (Z.leb_spec (eIndex e) (offset t)); [|lia]. by exists t. }
    destruct (Z.ltb_spec (zlen (entries s)) (eIndex e - offset s - 1)); [done|]. injection E as <-.
    set (k := Z.to_nat (eIndex e - offset s - 1)).
    assert (Hk : zlen (take k (entries s) ++ [e]) = eIndex e - offset s).
    { rewrite zlen_app. unfold k. rewrite zlen_take by lia. change (zlen [e]) with 1. lia. }
    destruct (Z.leb_spec (eIndex e) (offset t)).
    { exists t. split; [done|]. split_and!; [done|done|]. change (offset (set_entries _ s)) with (offset s). cbn. lia. }
    assert (Hfit : eIndex e - offset t - 1 ≤ zlen (entries t)).
    { destruct (Z.lt_ge_cases (offset t - offset s) (zlen (entries s))); [|lia].
      rewrite Hd, zlen_drop by lia. lia. }
    destruct (Z.ltb_spec (zlen (entries t)) (eIndex e - offset t - 1)); [lia|].
    eexists. split; [done|]. split_and!; [done|done|]. intros _.
    change (offset (set_entries _ s)) with (offset s). change (offset (set_entries _ t)) with (offset t). cbn [entries set_entries].
    destruct (Z.lt_ge_cases (offset t - offset s) (zlen (entries s))).
    + rewrite Hd by done. rewrite drop_app_le by (rewrite length_take; unfold k, zlen in *; lia).
      f_equal. rewrite take_drop_commute. do 2 f_equal. unfold k. lia.
    + assert (eIndex e = offset t + 1) by lia.
      replace (Z.to_nat (eIndex e - offset t - 1)) with 0%nat by lia. simpl.
      rewrite drop_app_ge by (rewrite length_take; unfold k, zlen in *; lia).
      rewrite length_take. replace (_ - _)%nat with 0%nat; [done|]. unfold k, zlen in *. lia.
  - injection E as <-. eexists. split; [done|]. by split_and!.
  - injection E as <-. eexists. split; [done|].
    set (es := if smIndex m <=? offset s then [] else _). set (et := if smIndex m <=? offset t then [] else _).
    assert (Hgoal : offset t - offset s < zlen es → et = drop (Z.to_nat (offset t - offset s)) es).
    { unfold es, et. destruct (Z.leb_spec (smIndex m) (offset s)); [by intros ?; rewrite zlen_nil in *; lia|].
      intros Hl. assert (Hm : offset t < smIndex m ∧ offset t - offset s < zlen (entries s)).
      { unfold zlen in Hl. rewrite length_take in Hl. unfold zlen. lia. }
      destruct (Z.leb_spec (smIndex m) (offset t)); [lia|]. rewrite Hd by lia.
      rewrite take_drop_commute. do 2 f_equal. lia. }
    destruct (_ && _), (_ && _); split_and!; done.
Qed.
Lemma redoAll_behind rs s t s' :
  behind s t → redoAll rs s = Some s' → ∃ t', redoAll rs t = Some t' ∧ behind s' t'.
Proof.
  revert s t. induction rs as [|r rs IH]; intros s t Hb; simpl; [intros [= <-]; by eauto|].
  intros (s1 & E & E')%bind_Some. destruct (redo_behind r s t s1 Hb E) as (t1 & -> & Hb1). simpl. by eapply IH.
Qed.

(** ** Segments *)

Lemma frames_app rs rs' : frames (rs ++ rs') = frames rs ++ frames rs'.
Proof. unfold frames. by rewrite map_app, concat_app. Qed.

(** The tail of a segment: nothing, or a frame cut short. *)
Definition torn (tail : list byte) : Prop :=
  ∃ r n, wf_rec r ∧ (0 < n < length (frame (payload r)))%nat ∧ tail = take n (frame (payload r)).

(** A prefix of the bytes of a batch is whole records and a cut. *)
Lemma frames_prefix rs n :
  Forall wf_rec rs → ∃ k tail, take n (frames rs) = frames (take k rs) ++ tail ∧ (tail = [] ∨ torn tail).
Proof.
  intros Hw. revert n. induction Hw as [|r rs Hr Hw IH]; intros n.
  { exists 0%nat, []. split; [by destruct n|auto]. }
  change (frames (r :: rs)) with (frame (payload r) ++ frames rs).
  destruct (le_lt_dec (length (frame (payload r))) n) as [Hle|Hlt].
  - destruct (IH (n - length (frame (payload r)))%nat) as (k & tail & E & Ht). exists (S k), tail.
    split; [|done]. rewrite take_app_ge by done. rewrite E. unfold frames. simpl. by rewrite app_assoc.
  - exists 0%nat, (take n (frame (payload r))). rewrite take_app_le by lia. split; [done|].
    destruct n as [|n]; [by left|]. right. exists r, (S n). split; [done|]. split; [lia|done].
Qed.

Lemma length_frame p : length (frame p) = (8 + length p)%nat.
Proof. pose proof (zlen_frame p). unfold zlen in *. lia. Qed.

Lemma replayLoop_end fuel data s : replayLoop fuel data (zlen data) s = Ret (s, None).
Proof. destruct fuel; [done|]. simpl. by rewrite Z.ltb_irrefl. Qed.

(** The loop reads whole frames and stops at the end or at the cut. *)
Lemma replayLoop_frames fuel pre rs tail s s' :
  Forall wf_rec rs → base_ok s → redoAll rs s = Some s' → tail = [] ∨ torn tail →
  (length (frames rs ++ tail) ≤ fuel)%nat →
  replayLoop fuel (pre ++ frames rs ++ tail) (zlen pre) s =
    Ret (s', if decide (tail = []) then None else Some (zlen pre + zlen (frames rs))).
Proof.
  intros Hw. revert fuel pre s. induction Hw as [|r rs Hr Hw IH]; intros fuel pre s Hb E Ht Hf.
  - simpl in E. injection E as <-. rewrite Z.add_0_r. change (frames [] ++ tail) with tail in *.
    destruct Ht as [->|(r & n & Hr & Hn & ->)].
    + rewrite app_nil_r. rewrite decide_True by done. apply replayLoop_end.
    + rewrite length_take in Hf. destruct fuel as [|fuel]; [lia|]. cbn [replayLoop].
      assert (Hl : zlen (pre ++ take n (frame (payload r))) = zlen pre + Z.of_nat n).
      { rewrite zlen_app. unfold zlen at 2. rewrite length_take. lia. }
      rewrite Hl. destruct (Z.ltb_spec (zlen pre) (zlen pre + Z.of_nat n)); [|lia].
      rewrite readFrame_torn by (by apply payload_wf || lia). oret.
      rewrite decide_False; [done|]. intros E%(f_equal length). rewrite length_take in E. simpl in E. lia.
  - simpl in E. apply bind_Some in E as (s1 & E1 & E).
    change (frames (r :: rs)) with (frame (payload r) ++ frames rs) in *. rewrite <-app_assoc in *.
    pose proof (payload_wf r Hr) as Hp. pose proof Hp as [Hp0 _].
    rewrite length_app, length_frame in Hf.
    destruct fuel as [|fuel]; [lia|]. cbn [replayLoop].
    assert (Hl : zlen (pre ++ frame (payload r) ++ frames rs ++ tail) =
      zlen pre + (8 + zlen (payload r)) + zlen (frames rs ++ tail)) by (rewrite !zlen_app, zlen_frame; lia).
    rewrite Hl. pose proof (zlen_nonneg (frames rs ++ tail)).
    destruct (Z.ltb_spec (zlen pre) (zlen pre + (8 + zlen (payload r)) + zlen (frames rs ++ tail))); [|lia].
    rewrite readFrame_ok by done. oret. rewrite applyRecord_redo, E1 by done. oret.
    rewrite app_assoc. replace (zlen pre + (8 + zlen (payload r))) with (zlen (pre ++ frame (payload r)))
      by (rewrite zlen_app, zlen_frame; lia).
    rewrite IH; [|by eapply base_ok_redo|done|done|unfold zlen in *; lia].
    do 2 f_equal. case_decide; [done|]. f_equal. rewrite !zlen_app. lia.
Qed.

Definition segData (d : directory) (q : Z) : list byte := f_data (default emptyFile (d_segs d !! q)).

Lemma replaySegment_whole q rs s s' :
  Forall wf_rec rs → base_ok s → redoAll rs s = Some s' → segData (dir s) q = frames rs →
  replaySegment q s = Ret (s', false).
Proof.
  intros Hw Hb E Hd. unfold replaySegment. fold (segData (dir s) q). rewrite Hd.
  pose proof (replayLoop_frames (length (frames rs)) [] rs [] s s' Hw Hb E (or_introl eq_refl)) as Hl.
  rewrite app_nil_r in Hl. change (zlen (@nil byte)) with 0 in Hl. simpl in Hl. rewrite Hl by done. done.
Qed.
Lemma replaySegment_torn q rs tail s s' :
  Forall wf_rec rs → base_ok s → redoAll rs s = Some s' → torn tail → segData (dir s) q = frames rs ++ tail →
  replaySegment q s = Ret (truncateSegment q (zlen (frames rs)) s', true).
Proof.
  intros Hw Hb E Ht Hd. unfold replaySegment. fold (segData (dir s) q). rewrite Hd.
  pose proof (replayLoop_frames (length (frames rs ++ tail)) [] rs tail s s' Hw Hb E (or_intror Ht)) as Hl.
  change (zlen (@nil byte)) with 0 in Hl. simpl in Hl. rewrite Hl by done. oret. rewrite decide_False; [done|].
  destruct Ht as (r & n & _ & Hn & ->). intros E'%(f_equal length). rewrite length_take in E'. simpl in E'. lia.
Qed.

Lemma replayAll_whole segs dn rss s s' :
  Forall2 (λ q rs, segData (dir s) q = frames rs) segs rss → Forall wf_rec (concat rss) → base_ok s →
  redoAll (concat rss) s = Some s' → replayAll segs dn s = Ret (s', dn ++ segs).
Proof.
  intros Hd. remember (dir s) as d eqn:Ed. revert s dn Ed. induction Hd as [|q rs segs rss Hq Hd IH]; intros s dn Ed Hw Hb; simpl.
  { intros [= <-]. by rewrite app_nil_r. }
  rewrite redoAll_app. intros (s1 & E1 & E)%bind_Some. apply Forall_app in Hw as [Hw1 Hw2].
  rewrite (replaySegment_whole q rs s s1) by congruence. oret.
  rewrite IH; try done.
  - by rewrite <-app_assoc.
  - apply redoAll_frame in E1 as (-> & _). done.
  - unfold base_ok, offset in *. apply redoAll_frame in E1 as (_ & -> & _). done.
Qed.
(** Whole segments, and a last one that may be cut. *)
Lemma replayAll_torn segs q dn rss rs tail s s' :
  Forall2 (λ q rs, segData (dir s) q = frames rs) segs rss → segData (dir s) q = frames rs ++ tail → torn tail →
  Forall wf_rec (concat rss ++ rs) → base_ok s → redoAll (concat rss ++ rs) s = Some s' →
  replayAll (segs ++ [q]) dn s = Ret (truncateSegment q (zlen (frames rs)) s', dn ++ segs ++ [q]).
Proof.
  intros Hd. remember (dir s) as d eqn:Ed. revert s dn Ed. induction Hd as [|q' rs' segs rss Hq Hd IH]; intros s dn Ed Hq' Ht Hw Hb; simpl.
  - intros E. rewrite (replaySegment_torn q rs tail s s') by (done || congruence). oret. done.
  - simpl in Hw. rewrite <-app_assoc, redoAll_app in *. intros (s1 & E1 & E)%bind_Some. apply Forall_app in Hw as [Hw1 Hw2].
    rewrite (replaySegment_whole q' rs' s s1) by congruence. oret.
    rewrite IH; try done.
    + by rewrite <-app_assoc.
    + apply redoAll_frame in E1 as (-> & _). done.
    + unfold base_ok, offset in *. apply redoAll_frame in E1 as (_ & -> & _). done.
Qed.

(** ** Directories *)

Lemma sorted_keys_unique {A} (m : gmap Z A) l :
  StronglySorted Z.le l → l ≡ₚ (map_to_list m).*1 → sorted_keys m = l.
Proof.
  intros Hs Hp. apply (StronglySorted_unique Z.le); [|done|by rewrite Hp; apply merge_sort_Permutation].
  apply StronglySorted_merge_sort; intros ?; lia.
Qed.
Lemma sorted_keys_sorted {A} (m : gmap Z A) : StronglySorted Z.le (sorted_keys m).
Proof. apply StronglySorted_merge_sort; intros ?; lia. Qed.
Lemma sorted_keys_perm {A} (m : gmap Z A) : sorted_keys m ≡ₚ (map_to_list m).*1.
Proof. apply merge_sort_Permutation. Qed.
Lemma elem_of_sorted_keys {A} (m : gmap Z A) k : k ∈ sorted_keys m ↔ is_Some (m !! k).
Proof.
  rewrite sorted_keys_perm, list_elem_of_fmap. split.
  - intros ([k' x] & -> & Hx%elem_of_map_to_list). by exists x.
  - intros [x Hx]. exists (k, x). split; [done|]. by apply elem_of_map_to_list.
Qed.
Lemma NoDup_sorted_keys {A} (m : gmap Z A) : NoDup (sorted_keys m).
Proof. rewrite sorted_keys_perm. apply NoDup_fst_map_to_list. Qed.

(** Overwriting a file keeps the names; a new highest number comes last. *)
Lemma sorted_keys_overwrite {A} (m : gmap Z A) k v : is_Some (m !! k) → sorted_keys (<[k := v]> m) = sorted_keys m.
Proof.
  intros [x Hx]. apply sorted_keys_unique; [apply sorted_keys_sorted|].
  rewrite sorted_keys_perm, <-insert_delete_eq, map_to_list_insert by apply lookup_delete_eq.
  rewrite <-(insert_delete_id m k x) at 1 by done. by rewrite map_to_list_insert by apply lookup_delete_eq.
Qed.
Lemma sorted_keys_newest {A} (m : gmap Z A) k v :
  (∀ q, is_Some (m !! q) → q < k) → sorted_keys (<[k := v]> m) = sorted_keys m ++ [k].
Proof.
  intros Hk. assert (Hn : m !! k = None).
  { destruct (m !! k) as [x|] eqn:E; [|done]. specialize (Hk k). rewrite E in Hk. assert (k < k) by (apply Hk; eauto). lia. }
  apply sorted_keys_unique.
  - apply StronglySorted_app_2; [|apply sorted_keys_sorted|by repeat constructor].
    intros x y Hx%elem_of_sorted_keys ->%list_elem_of_singleton. specialize (Hk x Hx). lia.
  - rewrite map_to_list_insert by done. simpl. rewrite Permutation_app_comm. simpl. by rewrite sorted_keys_perm.
Qed.

(** ** Snapshot files *)

Definition wf_snap (sn : Snapshot) : Prop :=
  is_u64 (snIndex sn) ∧ is_u64 (snTerm sn) ∧ zlen (snData sn) + 21 ≤ sanityMaxPayload.

Lemma snapPayload_parse sn fl : wf_snap sn → parseSnapPayload (snapPayload sn fl) = Ret (Ok (sn, fl)).
Proof.
  intros (Hi & Ht & Hd). pose proof (zlen_nonneg (snData sn)). change sanityMaxPayload with 67108864 in Hd.
  unfold snapPayload. rewrite w32_id by lia. set (fb := if fl then snapshotFlagTruncateSuffix else x00).
  set (i := be_enc 8 (snIndex sn)). set (t := be_enc 8 (snTerm sn)). set (n := be_enc 4 (zlen (snData sn))).
  set (b := i ++ t ++ n ++ snData sn ++ [fb]).
  assert (Hl : zlen b = 21 + zlen (snData sn)) by (unfold b, i, t, n; autorewrite with body; lia).
  unfold parseSnapPayload. rewrite Hl. destruct (Z.ltb_spec (21 + zlen (snData sn)) 20); [lia|].
  rewrite (field_at b [] 8 (snIndex sn) (t ++ n ++ snData sn ++ [fb]) 0 8) by body. oret.
  rewrite (field_at b i 8 (snTerm sn) (n ++ snData sn ++ [fb]) 8 16) by body. oret.
  rewrite (field_at b (i ++ t) 4 (zlen (snData sn)) (snData sn ++ [fb]) 16 20).
  2: { unfold b. by rewrite <-!app_assoc. }
  2: { unfold t, i. by autorewrite with body. }
  2: done.
  2: change (256 ^ Z.of_nat 4) with u32_mod; lia.
  oret. replace (20 + zlen (snData sn) + 1) with (21 + zlen (snData sn)) by lia. rewrite Z.eqb_refl.
  rewrite andb_false_r.
  assert (Hs : (if 0 <? zlen (snData sn) then slice_of b 20 (20 + zlen (snData sn)) else Ret []) = Ret (snData sn)).
  { destruct (Z.ltb_spec 0 (zlen (snData sn))).
    - replace b with ((i ++ t ++ n) ++ snData sn ++ [fb]) by (unfold b; by rewrite <-!app_assoc).
      rewrite <-(slice_of_mid (i ++ t ++ n) (snData sn) [fb]). unfold i, t, n. by autorewrite with body.
    - f_equal. symmetry. apply zlen_zero. lia. }
  rewrite Hs. oret.
  assert (Hx : index b (20 + zlen (snData sn)) = Ret fb).
  { apply index_lookup; [lia|]. replace b with ((i ++ t ++ n ++ snData sn) ++ [fb]) by (unfold b; by rewrite <-!app_assoc).
    assert (Hle : length (i ++ t ++ n ++ snData sn) = Z.to_nat (20 + zlen (snData sn))).
    { rewrite !length_app. unfold i, t, n. rewrite !length_be_enc. unfold zlen. lia. }
    rewrite lookup_app_r, Hle, Nat.sub_diag by lia. done. }
  rewrite Hx. oret. destruct sn as [[]]. by destruct fl.
Qed.

Lemma snapPayload_wf sn fl : wf_snap sn → wf_payload (snapPayload sn fl).
Proof.
  intros (_ & _ & Hd). unfold wf_payload, snapPayload. change sanityMaxPayload with 67108864 in *.
  pose proof (zlen_nonneg (snData sn)). autorewrite with body. lia.
Qed.
Lemma readSnapshotFile_ok sn fl :
  wf_snap sn → readSnapshotFile (appendFrame [] (snapPayload sn fl)) = Ret (Ok (sn, fl)).
Proof.
  intros Hw. unfold readSnapshotFile. rewrite appendFrame_eq.
  pose proof (readFrame_ok [] (snapPayload sn fl) [] (snapPayload_wf sn fl Hw)) as Hr.
  rewrite app_nil_r in Hr. change (zlen (@nil byte)) with 0 in Hr. rewrite Hr. oret. by apply snapPayload_parse.
Qed.

(** The newest snapshot file is read first. *)
Lemma firstIntact_newest snaps sn fl :
  wf_snap sn → (∀ q, is_Some (snaps !! q) → q < snIndex sn) →
  let snaps' := <[snIndex sn := appendFrame [] (snapPayload sn fl)]> snaps in
  firstIntact (reverse (sorted_keys snaps')) snaps' = Ret (Some (sn, fl)).
Proof.
  intros Hw Hk snaps'. unfold snaps'. rewrite sorted_keys_newest by done. rewrite reverse_app.
  cbn [reverse rev_append app firstIntact]. rewrite lookup_insert_eq. change (default [] (Some ?x)) with x.
  by rewrite readSnapshotFile_ok.
Qed.

(** ** Opening a directory *)

(** The storage [Open] starts replaying from. *)
Definition start (d : directory) (sn : Snapshot) (fl : bool) : Storage :=
  set_pending fl (set_snapshot sn (fresh_storage d)).

(** The newest intact snapshot file is [sn], with flag [fl]. *)
Definition loaded (d : directory) (sn : Snapshot) (fl : bool) : Prop :=
  ∃ o, firstIntact (reverse (sorted_keys (d_snaps d))) (d_snaps d) = Ret o ∧
    match o with Some p => p = (sn, fl) | None => sn = zeroSnapshot ∧ fl = false end.

(** The segments hold the records [concat rss ++ rs], the last one a cut frame
    behind them. *)
Record holds (d : directory) (qs : list Z) (q : Z) (rss : list (list rec)) (rs : list rec) (tail : list byte)
    : Prop := mkHolds {
  ho_names : sorted_keys (d_segs d) = qs ++ [q];
  ho_whole : Forall2 (λ q rs, segData d q = frames rs) qs rss;
  ho_last : segData d q = frames rs ++ tail;
  ho_tail : tail = [] ∨ torn tail;
  ho_wf : Forall wf_rec (concat rss ++ rs)
}.

Lemma load_loaded d sn fl : loaded d sn fl → loadLatestSnapshot (fresh_storage d) = Ret (start d sn fl).
Proof.
  intros (o & E & Ho). unfold loadLatestSnapshot. change (dir (fresh_storage d)) with d. rewrite E. oret.
  destruct o as [p|]; [by subst p|]. by destruct Ho as [-> ->].
Qed.

Lemma holds_fresh_name d qs q rss rs tail : holds d qs q rss rs tail → q ∉ qs.
Proof.
  intros Hh Hin. pose proof (NoDup_sorted_keys (d_segs d)) as Hn. rewrite (ho_names _ _ _ _ _ _ Hh) in Hn.
  apply NoDup_app in Hn as (_ & Hd & _). by apply (Hd q Hin), list_elem_of_singleton.
Qed.
Lemma holds_max d qs q rss rs tail k : holds d qs q rss rs tail → is_Some (d_segs d !! k) → k ≤ q.
Proof.
  intros Hh Hk%elem_of_sorted_keys. pose proof (sorted_keys_sorted (d_segs d)) as Hs.
  rewrite (ho_names _ _ _ _ _ _ Hh) in Hs, Hk. clear Hh. induction qs as [|q' qs IH]; simpl in *.
  - apply list_elem_of_singleton in Hk. lia.
  - apply StronglySorted_inv in Hs as [Hs Hf]. apply elem_of_cons in Hk as [->|Hk]; [|by apply IH].
    rewrite Forall_forall in Hf. apply Hf, elem_of_app. right. by left.
Qed.

(** Rewriting the last segment. *)
Lemma holds_rewrite d qs q rss rs tail rs' tail' f sn :
  holds d qs q rss rs tail → f_data f = frames rs' ++ tail' → tail' = [] ∨ torn tail' →
  Forall wf_rec (concat rss ++ rs') →
  holds (mkDirectory (<[q := f]> (d_segs d)) sn) qs q rss rs' tail'.
Proof.
  intros Hh Hf Ht Hw. pose proof (holds_fresh_name _ _ _ _ _ _ Hh) as Hq. destruct Hh. constructor; try done; simpl.
  - rewrite sorted_keys_overwrite; [done|]. apply elem_of_sorted_keys. rewrite ho_names0.
    apply elem_of_app. right. by left.
  - clear -ho_whole0 Hq. induction ho_whole0 as [|q' r ql rl E Ho IH]; constructor.
    + unfold segData in *. simpl. rewrite lookup_insert_ne; [done|]. set_solver.
    + apply IH. set_solver.
  - unfold segData. simpl. by rewrite lookup_insert_eq.
Qed.
(** Adding a segment behind a whole one. *)
Lemma holds_rotate d qs q rss rs q' rs' tail' f sn :
  holds d qs q rss rs [] → q < q' → f_data f = frames rs' ++ tail' → tail' = [] ∨ torn tail' → Forall wf_rec rs' →
  holds (mkDirectory (<[q' := f]> (d_segs d)) sn) (qs ++ [q]) q' (rss ++ [rs]) rs' tail'.
Proof.
  intros Hh Hlt Hf Ht Hw. assert (Hmax : ∀ k, is_Some (d_segs d !! k) → k < q').
  { intros k Hk. pose proof (holds_max _ _ _ _ _ _ k Hh Hk). lia. }
  assert (Hn : d_segs d !! q' = None).
  { destruct (d_segs d !! q') eqn:E; [|done]. specialize (Hmax q'). rewrite E in Hmax. assert (q' < q') by eauto. lia. }
  destruct Hh. rewrite app_nil_r in ho_last0. constructor; try done; simpl.
  - rewrite sorted_keys_newest by done. by rewrite ho_names0.
  - assert (Hw' : Forall2 (λ q rs, segData d q = frames rs) (qs ++ [q]) (rss ++ [rs])).
    { apply Forall2_app; [done|]. by repeat constructor. }
    assert (Hin : ∀ k, k ∈ qs ++ [q] → k ≠ q').
    { intros k Hk ->. rewrite <-ho_names0 in Hk. apply elem_of_sorted_keys in Hk. rewrite Hn in Hk. by destruct Hk. }
    clear -Hw' Hin. induction Hw' as [|k r ks rl E Ho IH]; constructor.
    + unfold segData in *. simpl. rewrite lookup_insert_ne; [done|]. intros ->. apply (Hin k); [by left|done].
    + apply IH. intros k' Hk'. apply Hin. by right.
  - unfold segData. simpl. by rewrite lookup_insert_eq.
  - rewrite concat_app, Forall_app. simpl. rewrite app_nil_r. done.
Qed.

Definition all_synced (d : directory) : Prop := ∀ q f, d_segs d !! q = Some f → f_synced f = zlen (f_data f).

Lemma all_synced_insert d q f sn :
  all_synced d → f_synced f = zlen (f_data f) → all_synced (mkDirectory (<[q := f]> (d_segs d)) sn).
Proof. intros Hd Hf q' f' Hq. simpl in Hq. apply lookup_insert_Some in Hq as [[<- <-]|[_ Hq]]; [done|]. by apply (Hd q'). Qed.

(** The state after the replay, when no truncation marker is missing. *)
Record opened (d : directory) (qs : list Z) (q : Z) rss rs (s1 s' : Storage) : Prop := mkOpened {
  op_core : core s' = core s1;
  op_buf : buf s' = [];
  op_seg : seg s' = Some q ∧ segSeq s' = q;
  op_pending : snapshotTruncationPending s' = false;
  op_snaps : d_snaps (dir s') = d_snaps d;
  op_holds : holds (dir s') qs q rss rs [];
  op_synced : all_synced d → all_synced (dir s');
  op_sync : noSync s' = false
}.

Lemma replay_spec d qs q rss rs tail sn fl s1 :
  holds d qs q rss rs tail → 0 ≤ snIndex sn < u64_mod - 1 →
  redoAll (concat rss ++ rs) (start d sn fl) = Some s1 →
  ∃ s2, replayAll (qs ++ [q]) [] (start d sn fl) = Ret (s2, qs ++ [q]) ∧ core s2 = core s1 ∧
    snapshotTruncationPending s2 = snapshotTruncationPending s1 ∧ buf s2 = [] ∧
    d_snaps (dir s2) = d_snaps d ∧ holds (dir s2) qs q rss rs [] ∧
    (all_synced d → all_synced (dir s2)) ∧ noSync s2 = false.
Proof.
  intros Hh Hb E. pose proof Hh as []. pose proof (redoAll_frame _ _ _ E) as (Ed & Es & Ebuf & _ & _ & _ & En).
  destruct ho_tail0 as [->|Ht].
  - exists s1. rewrite app_nil_r in ho_last0. rewrite (replayAll_whole _ _ (rss ++ [rs]) _ s1).
    + rewrite Ed. by split_and!.
    + apply Forall2_app; [done|]. by repeat constructor.
    + rewrite concat_app. simpl. by rewrite app_nil_r.
    + done.
    + rewrite concat_app. simpl. by rewrite app_nil_r.
  - assert (Hcut : take (Z.to_nat (zlen (frames rs))) (f_data (default emptyFile (d_segs d !! q))) = frames rs).
    { fold (segData d q). rewrite ho_last0. unfold zlen. by rewrite Nat2Z.id, take_app_length. }
    eexists. rewrite (replayAll_torn qs q [] rss rs tail _ s1); try done. split_and!; try done.
    + simpl. by rewrite Ed.
    + simpl. rewrite Ed. simpl. eapply holds_rewrite; [done| |by left|done]. simpl. by rewrite app_nil_r.
    + simpl. rewrite Ed. simpl. intros Ha. apply all_synced_insert; [done|]. simpl. by rewrite Hcut.
Qed.

Lemma Open_spec d qs q rss rs tail sn fl s1 :
  holds d qs q rss rs tail → loaded d sn fl → 0 ≤ snIndex sn < u64_mod - 1 →
  redoAll (concat rss ++ rs) (start d sn fl) = Some s1 → snapshotTruncationPending s1 = false →
  ∃ s', Open d = Ret (s', None) ∧ opened d qs q rss rs s1 s'.
Proof.
  intros Hh Hl Hb E Hp. destruct (replay_spec _ _ _ _ _ _ _ _ _ Hh Hb E) as (s2 & Er & Ec & Ep & Ebuf & Esn & Hh2 & Hy & En).
  unfold Open. rewrite (load_loaded d sn fl Hl). oret. unfold listSegments. change (dir (start d sn fl)) with d.
  rewrite (ho_names _ _ _ _ _ _ Hh), Er. oret. rewrite Ep, Hp. eexists. split; [done|].
  unfold openActiveSegment. rewrite last_snoc. constructor; simpl; try done. by rewrite Ep.
Qed.
