(* ===== verification/DiskNames.v ===== *)
(** * File names of the storage directory (src/storage/disk/wal.go, snapshot.go)

    Disk refers to a segment or a snapshot by its number.  Here are the names
    the code gives them, the directory listings it takes apart and the scan of
    a segment's number, and the proof that the names and the numbers are
    interchangeable: the lists [Open] works through, sorted as strings, are
    those of Disk, sorted by number, whatever else is in the directory. *)

From stdpp Require Import sorting.
From Stdlib Require String.
From S2P Require Import Prelude GoStrings RaftTypes Storage KvStateMachine Framing Disk DiskRecovery.
Import (notations) String.
Import disk.

(** ** Names *)

(** [fmt.Sprintf("%020d", v)]. *)
Definition padded (v : Z) : list byte := replicate (20 - length (FormatUint v)) x30 ++ FormatUint v.
Definition segmentName (seq : Z) : list byte := $"wal-" ++ padded seq ++ $".seg".
Definition snapshotName (index : Z) : list byte := $"snap-" ++ padded index ++ $".snap".
(** The name a snapshot is written under before it is renamed. *)
Definition tmpName (index : Z) : list byte := snapshotName index ++ $".tmp".

Definition HasPrefix (s p : list byte) : bool := bool_decide (is_Some (TrimPrefix p s)).
Definition HasSuffix (s p : list byte) : bool := HasPrefix (reverse s) (reverse p).

(** What [os.ReadDir] tells of an entry: its name and whether it is a directory. *)
Definition dirent : Type := list byte * bool.
Definition matches (prefix suffix : list byte) (e : dirent) : bool := negb e.2 && HasPrefix e.1 prefix && HasSuffix e.1 suffix.
Definition listed (prefix suffix : list byte) (ents : list dirent) : list (list byte) := (filter (matches prefix suffix) ents).*1.
(** [listSegments]. *)
Definition segmentFiles (ents : list dirent) : list (list byte) := merge_sort str_le (listed ($"wal-") ($".seg") ents).
(** The names [loadLatestSnapshot] tries, from the last. *)
Definition snapshotFiles (ents : list dirent) : list (list byte) := merge_sort str_le (listed ($"snap-") ($".snap") ents).

(** ** Scanning a number *)

(** The blanks [fmt.Sscanf] skips before an operand; a newline among them is an
    error. *)
Definition skipSpace (s : list byte) : option (list byte) :=
  let rest := TrimLeft s in
  if decide (x0a ∈ take (length s - length rest) s) then None else Some rest.
(** The digits in front of [s], at most [w] of them, and what follows. *)
Fixpoint scanDigits (w : nat) (s : list byte) : list byte * list byte :=
  match w, s with
  | S w, c :: s' => match digitOf c with Some _ => let '(tok, rest) := scanDigits w s' in (c :: tok, rest) | None => ([], s) end
  | _, _ => ([], s)
  end.
(** [fmt.Sscanf(name, "wal-%020d.seg", &seq)]; [None] is an error. *)
Definition parseSegmentSeq (name : list byte) : option Z :=
  s ← TrimPrefix ($"wal-") name;
  s ← skipSpace s;
  let '(tok, rest) := scanDigits 20 s in
  match ParseUint tok with
  | Err _ => None
  | Ok seq => _ ← TrimPrefix ($".seg") rest; Some seq
  end.

(** ** Padded numbers *)

Lemma digits_length fuel v acc : (length (digits fuel v acc) ≤ fuel + length acc)%nat.
Proof.
  revert v acc. induction fuel as [|fuel IH]; intros v acc; simpl; [lia|]. destruct (v <? 10); simpl; [lia|].
  etrans; [apply IH|]. simpl. lia.
Qed.
Lemma value_zeros k ds : value 0 (replicate k x30 ++ ds) = value 0 ds.
Proof. induction k as [|k IH]; simpl; [done|]. unfold value in *. simpl. exact IH. Qed.
Lemma padded_digits v : is_u64 v → length (padded v) = 20%nat ∧ Forall is_digit (padded v) ∧ value 0 (padded v) = v.
Proof.
  intros Hv. destruct (FormatUint_digits v Hv) as (_ & Hd & Hval). unfold padded. split_and!.
  - rewrite length_app, length_replicate. pose proof (digits_length 20 v []) as Hl. fold (FormatUint v) in Hl. change (length (@nil byte)) with 0%nat in Hl. lia.
  - apply Forall_app. split; [|done]. apply Forall_replicate. unfold is_digit. by vm_compute.
  - by rewrite value_zeros.
Qed.
Lemma value_between n ds : Forall is_digit ds →
  n * 10 ^ zlen ds ≤ value n ds < (n + 1) * 10 ^ zlen ds.
Proof.
  revert n. induction ds as [|c ds IH]; intros n Hd; [change (zlen (@nil byte)) with 0; unfold value; simpl; lia|].
  apply Forall_cons in Hd as [Hc Hd]. unfold is_digit in Hc. specialize (IH (n * 10 + (b2z c - 48)) Hd). unfold value in *. simpl.
  rewrite zlen_cons, Z.pow_add_r by (pose proof (zlen_nonneg ds); lia). change (10 ^ 1) with 10.
  pose proof (Z.pow_pos_nonneg 10 (zlen ds) ltac:(lia) (zlen_nonneg ds)). nia.
Qed.
(** Between strings of as many digits the order of strings is that of numbers. *)
Lemma digits_order n u v t : length u = length v → Forall is_digit u → Forall is_digit v → value n u ≤ value n v → str_le (u ++ t) (v ++ t).
Proof.
  revert n v. induction u as [|c u IH]; intros n [|d v] Hl Hu Hv Hle; simplify_eq/=; [by destruct (total str_le t t)|].
  apply Forall_cons in Hu as [Hc Hu], Hv as [Hd Hv]. unfold str_le. simpl.
  destruct (Z.ltb_spec (b2z c) (b2z d)); [done|]. destruct (Z.ltb_spec (b2z d) (b2z c)) as [Hlt|Hge].
  - exfalso. unfold value in Hle. simpl in Hle. pose proof (value_between (n * 10 + (b2z c - 48)) u Hu) as H1.
    pose proof (value_between (n * 10 + (b2z d - 48)) v Hv) as H2. unfold value in *. replace (zlen v) with (zlen u) in H2 by (unfold zlen; lia).
    pose proof (Z.pow_pos_nonneg 10 (zlen u) ltac:(lia) (zlen_nonneg u)). nia.
  - assert (Ec : b2z c = b2z d) by lia. unfold value in Hle. simpl in Hle. rewrite Ec in Hle. by eapply IH.
Qed.

(** ** Names and numbers *)

Definition ascending (name : Z → list byte) : Prop := ∀ a b, is_u64 a → is_u64 b → a ≤ b → str_le (name a) (name b).
Lemma padded_order pre t a b : is_u64 a → is_u64 b → a ≤ b → str_le (pre ++ padded a ++ t) (pre ++ padded b ++ t).
Proof.
  intros Ha Hb Hab. destruct (padded_digits a Ha) as (La & Da & Va), (padded_digits b Hb) as (Lb & Db & Vb).
  induction pre as [|c pre IH]; simpl.
  - apply (digits_order 0); [by rewrite La, Lb|done|done|]. by rewrite Va, Vb.
  - unfold str_le in *. simpl. by rewrite Z.ltb_irrefl.
Qed.
Lemma segmentName_ascending : ascending segmentName.
Proof. intros a b. apply padded_order. Qed.
Lemma snapshotName_ascending : ascending snapshotName.
Proof. intros a b. apply padded_order. Qed.
Lemma names_sorted name l : ascending name → Forall is_u64 l → StronglySorted Z.le l → StronglySorted str_le (name <$> l).
Proof.
  intros Hname Hl Hs. induction Hs as [|a l Hs IH Ha]; simpl; [constructor|]. apply Forall_cons in Hl as [Hal Hl]. constructor; [by apply IH|].
  apply Forall_fmap. rewrite Forall_forall in *. intros b Hb. by apply Hname; [|apply Hl|apply Ha].
Qed.
Definition u64_keys {A} (m : gmap Z A) : Prop := ∀ q, is_Some (m !! q) → is_u64 q.
(** Sorting the names of a map's keys as strings. *)
Lemma sort_names {A} (m : gmap Z A) name names :
  ascending name → u64_keys m → names ≡ₚ name <$> (map_to_list m).*1 → merge_sort str_le names = name <$> sorted_keys m.
Proof.
  intros Hname Hm Hp. apply (StronglySorted_unique str_le); [apply StronglySorted_merge_sort; apply _| |].
  - apply names_sorted; [done| |apply sorted_keys_sorted]. apply Forall_forall. intros q Hq%elem_of_sorted_keys. by apply Hm.
  - by rewrite merge_sort_Permutation, Hp, sorted_keys_perm.
Qed.

(** ** Listings *)

(** The files of [d] in a directory listing. *)
Definition files (name : Z → list byte) (ks : list Z) : list dirent := (λ k, (name k, false)) <$> ks.
(** An entry that is neither a segment nor a snapshot. *)
Definition foreign (e : dirent) : Prop := matches ($"wal-") ($".seg") e = false ∧ matches ($"snap-") ($".snap") e = false.

Lemma HasPrefix_app p t : HasPrefix (p ++ t) p = true.
Proof. unfold HasPrefix. apply bool_decide_eq_true. exists t. by apply TrimPrefix_Some. Qed.
Lemma HasSuffix_app s t : HasSuffix (s ++ t) t = true.
Proof. unfold HasSuffix. rewrite reverse_app. apply HasPrefix_app. Qed.
Lemma segment_matches q : matches ($"wal-") ($".seg") (segmentName q, false) = true ∧ matches ($"snap-") ($".snap") (segmentName q, false) = false.
Proof. split; [|done]. change (HasPrefix (segmentName q) ($"wal-") && HasSuffix (segmentName q) ($".seg") = true). unfold segmentName. by rewrite HasPrefix_app, app_assoc, HasSuffix_app. Qed.
Lemma snapshot_matches i : matches ($"wal-") ($".seg") (snapshotName i, false) = false ∧ matches ($"snap-") ($".snap") (snapshotName i, false) = true.
Proof. split; [done|]. change (HasPrefix (snapshotName i) ($"snap-") && HasSuffix (snapshotName i) ($".snap") = true). unfold snapshotName. by rewrite HasPrefix_app, app_assoc, HasSuffix_app. Qed.
(** What a crash leaves of a snapshot that was not yet renamed. *)
Lemma tmp_foreign i : foreign (tmpName i, false).
Proof.
  split; [done|]. assert (HasSuffix (tmpName i) ($".snap") = false) as E by (unfold tmpName, HasSuffix; by rewrite reverse_app).
  unfold matches. cbn [fst snd]. by rewrite E, andb_false_r.
Qed.
Lemma listed_foreign prefix suffix ents : Forall (λ e, matches prefix suffix e = false) ents → listed prefix suffix ents = [].
Proof.
  unfold listed. induction 1 as [|e ents He _ IH]; [done|]. rewrite filter_cons_False; [done|]. rewrite He. by intros [].
Qed.
Lemma listed_files prefix suffix name ks : (∀ k, matches prefix suffix (name k, false) = true) → listed prefix suffix (files name ks) = name <$> ks.
Proof.
  intros Hm. unfold listed, files. induction ks as [|k ks IH]; simpl; [done|]. rewrite filter_cons_True; [|apply Is_true_true, Hm]. simpl. f_equal. exact IH.
Qed.
Lemma listed_perm prefix suffix ents ents' : ents ≡ₚ ents' → listed prefix suffix ents ≡ₚ listed prefix suffix ents'.
Proof. unfold listed. by intros ->. Qed.
Lemma listed_app prefix suffix ents ents' : listed prefix suffix (ents ++ ents') = listed prefix suffix ents ++ listed prefix suffix ents'.
Proof. unfold listed. by rewrite filter_app, fmap_app. Qed.

(** ** Scanning a name *)

Lemma digitOf_digit c : is_digit c → ∃ d, digitOf c = Some d.
Proof. unfold is_digit, digitOf. intros Hc. rewrite (proj2 (Z.leb_le _ _)), (proj2 (Z.ltb_lt _ _)) by lia. by eexists. Qed.
Lemma scanDigits_all ds t : Forall is_digit ds → scanDigits (length ds) (ds ++ t) = (ds, t).
Proof.
  induction 1 as [|c ds Hc _ IH]; [done|]. simpl. destruct (digitOf_digit c Hc) as [d ->]. by rewrite IH.
Qed.
Lemma skipSpace_digit c s : is_digit c → skipSpace (c :: s) = Some (c :: s).
Proof.
  intros Hc. assert (E : TrimLeft (c :: s) = c :: s).
  { unfold TrimLeft. cbn [trimWith length]. case_match eqn:Ef; [|done]. destruct p as [i p]. exfalso.
    apply list_find_Some in Ef as (Hi & [r Hr%TrimPrefix_Some] & _). unfold is_digit in Hc.
    apply list_elem_of_lookup_2 in Hi. unfold spaces in Hi. repeat (apply elem_of_cons in Hi as [->|Hi]); [simplify_eq/=; destruct Hc as [H1 H2]; vm_compute in H1, H2; first [by apply H1|discriminate H2]..|].
    by apply not_elem_of_nil in Hi. }
  unfold skipSpace. by rewrite E, Nat.sub_diag, take_0.
Qed.
Lemma parseSegmentSeq_name q : is_u64 q → parseSegmentSeq (segmentName q) = Some q.
Proof.
  intros Hq. destruct (padded_digits q Hq) as (Hl & Hd & Hv). unfold parseSegmentSeq, segmentName.
  rewrite (proj2 (TrimPrefix_Some _ _ (padded q ++ $".seg"))) by done. cbn [mbind option_bind].
  assert (Hs : skipSpace (padded q ++ $".seg") = Some (padded q ++ $".seg")).
  { destruct (padded q) as [|c ds] eqn:Ep; [done|]. apply Forall_cons in Hd as [Hc _]. by apply (skipSpace_digit c (ds ++ _)). }
  rewrite Hs. cbn [mbind option_bind]. rewrite <-Hl, scanDigits_all by done. unfold ParseUint. rewrite decide_False by (intros E; by rewrite E in Hl).
  rewrite parseDigits_digits, Hv; [done|done|lia|]. rewrite Hv. apply Hq.
Qed.

(** ** Properties *)

(** C19: names and numbers are interchangeable.  Whatever the order in which the
    directory is read, and with temporary files and foreign entries in it, the
    code's listings of segments and snapshots, sorted as strings, are the names
    of the numbers in increasing order, and the number scanned from a segment's
    name is the one it was formed from: appending resumes in the segment with
    the highest number. *)
Theorem names_refine_numbers (d : directory) tmps others ents :
  u64_keys (d_segs d) → u64_keys (d_snaps d) → Forall foreign others →
  ents ≡ₚ files segmentName (map_to_list (d_segs d)).*1 ++ files snapshotName (map_to_list (d_snaps d)).*1 ++ files tmpName tmps ++ others →
  segmentFiles ents = segmentName <$> sorted_keys (d_segs d) ∧
  snapshotFiles ents = snapshotName <$> sorted_keys (d_snaps d) ∧
  omap parseSegmentSeq (segmentFiles ents) = sorted_keys (d_segs d).
Proof.
  intros Hg Hn Ho Hp. assert (Hfor : Forall foreign (files tmpName tmps ++ others)).
  { apply Forall_app. split; [|done]. apply Forall_fmap, Forall_true. apply tmp_foreign. }
  assert (Hseg : segmentFiles ents = segmentName <$> sorted_keys (d_segs d)).
  { apply (sort_names _ _ _ segmentName_ascending Hg). rewrite (listed_perm _ _ _ _ Hp), !listed_app, listed_files by apply segment_matches.
    rewrite (listed_foreign _ _ (files snapshotName _)) by (apply Forall_fmap, Forall_true; apply snapshot_matches).
    rewrite <-listed_app, listed_foreign by (eapply Forall_impl; [exact Hfor|by intros e []]). by rewrite !app_nil_r. }
  split_and!; [done| |].
  - apply (sort_names _ _ _ snapshotName_ascending Hn). rewrite (listed_perm _ _ _ _ Hp), !listed_app.
    rewrite (listed_foreign _ _ (files segmentName _)) by (apply Forall_fmap, Forall_true; apply segment_matches).
    rewrite listed_files by apply snapshot_matches.
    rewrite <-listed_app, listed_foreign by (eapply Forall_impl; [exact Hfor|by intros e []]). by rewrite !app_nil_r.
  - rewrite Hseg. assert (Hall : Forall is_u64 (sorted_keys (d_segs d))) by (apply Forall_forall; intros q Hq%elem_of_sorted_keys; auto).
    clear Hseg. induction Hall as [|q l Hq _ IH]; [done|].
    rewrite fmap_cons. cbn [omap list_omap]. rewrite parseSegmentSeq_name by done. f_equal. exact IH.
Qed.

(** ** Examples *)

(** Segments 2 and 10 (whose unpadded names would sort the other way), a
    snapshot, a temporary file, a directory and a foreign file. *)
Definition dir2 : directory := mkDirectory (<[2 := emptyFile]> (<[10 := emptyFile]> ∅)) (<[7 := []]> ∅).
Definition others2 : list dirent := [($"wal-old", true); ($"wal-2.bak", false)].
Definition listing2 : list dirent :=
  [($"wal-old", true); (tmpName 9, false); (segmentName 10, false); (snapshotName 7, false); (segmentName 2, false); ($"wal-2.bak", false)].

(** Witness for [names_refine_numbers]. *)
Lemma names_refine_numbers_witness :
  segmentFiles listing2 = segmentName <$> [2; 10] ∧ snapshotFiles listing2 = [snapshotName 7] ∧ omap parseSegmentSeq (segmentFiles listing2) = [2; 10].
Proof.
  assert (E : sorted_keys (d_segs dir2) = [2; 10] ∧ sorted_keys (d_snaps dir2) = [7]) by (vm_compute; done).
  destruct E as [E1 E2]. destruct (names_refine_numbers dir2 [9] others2 listing2) as (H1 & H2 & H3).
  - intros q Hq. unfold dir2 in Hq. simpl in Hq. apply lookup_insert_is_Some in Hq as [<-|[_ [<-|[_ Hq]]%lookup_insert_is_Some]]; [done..|].
    rewrite lookup_empty in Hq. by destruct Hq.
  - intros q Hq. unfold dir2 in Hq. simpl in Hq. apply lookup_insert_is_Some in Hq as [<-|[_ Hq]]; [done|].
    rewrite lookup_empty in Hq. by destruct Hq.
  - repeat constructor.
  - change (map_to_list (d_segs dir2)).*1 with (map fst (map_to_list (d_segs dir2))).
    apply (bool_decide_unpack _). vm_compute. exact I.
  - rewrite E1 in H1, H3. rewrite E2 in H2. done.
Defined.
