(* ===== verification/DiskWal.v ===== *)
(** * The WAL as a redo log: crashes and recovery

    [wal_inv s ws bs] ties the production storage to the records in its
    segments ([ws]) and in its buffer ([bs]): folding them over the snapshot
    gives the in-memory mirror, except that a snapshot which reaches the end of
    the log empties it in memory only ([owed]; see [stale_suffix_returns]).
    Every operation keeps it ([wal_reachable]), records being below the frame
    limit of 64 MiB ([wf_rec]).  A crash loses bytes that were not fsynced; what
    [Open] recovers is the fold of the synced records and a prefix of the
    buffered ones. *)

From S2P Require Import Prelude RaftTypes Storage Framing Disk DiskRecovery.
Import disk.

(** ** Crashes *)

(** A crash keeps the synced bytes of a file and some prefix of the rest. *)
Definition survives (cut : nat) (f : file) : file :=
  let n := Z.min (zlen (f_data f)) (Z.max (f_synced f) (Z.of_nat cut)) in
  mkFile (take (Z.to_nat n) (f_data f)) n.
Definition crash (cut : Z → nat) (d : directory) : directory :=
  mkDirectory (map_imap (λ q f, Some (survives (cut q) f)) (d_segs d)) (d_snaps d).

(** [Sync] between its write and its fsync. *)
Definition inSync (s : Storage) : Storage := (syncBuffered false s).1.

Lemma survives_synced cut f : f_synced f = zlen (f_data f) → survives cut f = f.
Proof.
  intros E. unfold survives. rewrite E, Z.min_l by lia. unfold zlen. rewrite Nat2Z.id, firstn_all.
  destruct f as [data n]. simpl in *. by rewrite E.
Qed.
Lemma crash_synced cut d : all_synced d → crash cut d = d.
Proof.
  intros Hd. destruct d as [segs snaps]. unfold crash. simpl. f_equal. apply map_eq. intros q.
  rewrite map_lookup_imap. destruct (segs !! q) as [f|] eqn:E; [|done]. simpl. f_equal. by apply survives_synced, (Hd q).
Qed.
Lemma crash_insert cut m q f sn :
  all_synced (mkDirectory m sn) →
  crash cut (mkDirectory (<[q := f]> m) sn) = mkDirectory (<[q := survives (cut q) f]> m) sn.
Proof.
  intros Hd. unfold crash. simpl. f_equal. apply map_eq. intros q'. rewrite map_lookup_imap.
  destruct (decide (q = q')) as [<-|Hne]; [by rewrite !lookup_insert_eq|]. rewrite !lookup_insert_ne by done.
  destruct (m !! q') as [f'|] eqn:E; [|done]. simpl. f_equal. by apply survives_synced, (Hd q').
Qed.

(** A written but unsynced batch survives as whole records and a cut. *)
Lemma survives_batch cut rs bs :
  Forall wf_rec bs →
  ∃ k tail n, survives cut (mkFile (frames rs ++ frames bs) (zlen (frames rs))) =
      mkFile (frames (rs ++ take k bs) ++ tail) n ∧
    n = zlen (frames (rs ++ take k bs) ++ tail) ∧ (tail = [] ∨ torn tail).
Proof.
  intros Hw. unfold survives. cbn [f_data f_synced].
  set (n := Z.min (zlen (frames rs ++ frames bs)) (Z.max (zlen (frames rs)) (Z.of_nat cut))).
  assert (Hn : zlen (frames rs) ≤ n ≤ zlen (frames rs ++ frames bs)) by (unfold n; rewrite zlen_app; pose proof (zlen_nonneg (frames bs)); lia).
  destruct (frames_prefix bs (Z.to_nat n - length (frames rs)) Hw) as (k & tail & E & Ht).
  assert (Etake : take (Z.to_nat n) (frames rs ++ frames bs) = frames (rs ++ take k bs) ++ tail).
  { rewrite take_app_ge by (unfold zlen in *; lia). by rewrite E, frames_app, app_assoc. }
  exists k, tail, n. rewrite Etake. split_and!; [done| |done]. rewrite <-Etake. rewrite zlen_take; [done|].
  pose proof (zlen_nonneg (frames rs)). lia.
Qed.

Lemma frames_one r : frames [r] = frame (payload r).
Proof. change (frames [r]) with (frame (payload r) ++ []). apply app_nil_r. Qed.
Lemma frames_empty rs : (zlen (frames rs) =? 0) = bool_decide (rs = []).
Proof.
  destruct rs as [|r rs]; [done|]. rewrite bool_decide_false by done. apply Z.eqb_neq.
  change (frames (r :: rs)) with (frame (payload r) ++ frames rs). rewrite zlen_app.
  unfold zlen at 1. rewrite length_frame. pose proof (zlen_nonneg (frames rs)). lia.
Qed.

(** ** The invariant *)

(** An entry whose index leaves room for one more. *)
Definition small (r : rec) : Prop :=
  match r with REntry e => eIndex e < u64_mod - 1 | _ => True end.

(** What replaying the log owes the storage [s]: its hard state, its snapshot and
    its entries.  A snapshot that reaches the end of the log empties it in
    memory only, so above it the replay may still hold entries. *)
Definition owed (s : Storage) (es : list Entry) : Prop := es = entries s ∨ entries s = [] ∧ 0 < offset s.
Definition mirrors (t s : Storage) : Prop :=
  hardState t = hardState s ∧ snapshot t = snapshot s ∧ owed s (entries t).

Lemma mirrors_core t s : core t = core s → mirrors t s.
Proof. unfold core. intros [= Eh Es Ee]. split_and!; [done|done|by left]. Qed.
Lemma mirrors_of_core t t' s : core t = core t' → mirrors t s → mirrors t' s.
Proof. unfold core, mirrors. intros [= <- <- <-]. done. Qed.
Lemma mirrors_to_core t s s' : core s = core s' → mirrors t s → mirrors t s'.
Proof. unfold core, mirrors, owed, offset. intros [= <- <- <-]. done. Qed.
(** The first entry logged above the snapshot overwrites the stale ones. *)
Lemma redo_mirrors r t s s' :
  mirrors t s → redo s r = Some s' → ∃ t', redo t r = Some t' ∧ mirrors t' s'.
Proof.
  intros (Eh & Es & He) E. assert (Eo : offset t = offset s) by (unfold offset; by rewrite Es).
  destruct He as [Ee|[Ee Hp]].
  { destruct (redo_core r s t s') as (t' & -> & Ec); [unfold core; congruence|done|].
    exists t'. split; [done|]. by apply mirrors_core. }
  unfold mirrors, owed. destruct r as [e|h|m]; simpl in *; rewrite ?Eo, ?Ee in *.
  - destruct (Z.leb_spec (eIndex e) (offset s)).
    { injection E as <-. exists t. split_and!; try done. by right. }
    change (zlen (@nil Entry)) with 0 in E. destruct (Z.ltb_spec 0 (eIndex e - offset s - 1)); [done|]. injection E as <-.
    pose proof (zlen_nonneg (entries t)). destruct (Z.ltb_spec (zlen (entries t)) (eIndex e - offset s - 1)); [lia|].
    eexists. split; [done|]. replace (Z.to_nat (eIndex e - offset s - 1)) with 0%nat by lia. split_and!; [done|done|by left].
  - injection E as <-. eexists. split; [done|]. split_and!; [done|done|by right].
  - injection E as <-. eexists. split; [done|]. rewrite take_nil.
    destruct (_ && _), (_ && _), (_ <=? _); simpl; (split_and!; [done|done|by right]).
Qed.
Lemma redoAll_mirrors rs t s s' :
  mirrors t s → redoAll rs s = Some s' → ∃ t', redoAll rs t = Some t' ∧ mirrors t' s'.
Proof.
  revert t s. induction rs as [|r rs IH]; intros t s Hm; simpl; [intros [= <-]; by eauto|].
  intros (s1 & E & E')%bind_Some. destruct (redo_mirrors r t s s1 Hm E) as (t1 & Et & Hm1).
  rewrite Et. simpl. by eapply IH.
Qed.

Record wal_inv (s : Storage) (ws bs : list rec) : Prop := mkWalInv {
  wi_segs : ∃ qs rss rs, holds (dir s) qs (segSeq s) rss rs [] ∧ ws = concat rss ++ rs;
  wi_synced : all_synced (dir s);
  wi_sync : noSync s = false;
  wi_buf : buf s = frames bs;
  wi_wf : Forall wf_rec bs;
  wi_small : Forall small (ws ++ bs);
  wi_seg : seg s = Some (segSeq s) ∧ 0 ≤ segSeq s;
  wi_pending : snapshotTruncationPending s = false;
  wi_snap : ∃ fl, loaded (dir s) (snapshot s) fl ∧ (fl = true → RTrunc (snMetadata (snapshot s)) ∈ ws);
  wi_keys k : is_Some (d_snaps (dir s) !! k) → k ≤ offset s;
  wi_marks m : RTrunc m ∈ ws ++ bs → smIndex m ≤ offset s;
  wi_base : base_ok s;
  wi_redo : ∃ s1, redoAll (ws ++ bs) (start (dir s) (snapshot s) false) = Some s1 ∧ mirrors s1 s
}.

Lemma redo_view r s s' : small r → view_wf (disk_view s) → redo s r = Some s' → view_wf (disk_view s').
Proof.
  unfold view_wf, v_last, v_off, disk_view, mem.mem_view, mirror. simpl. intros Hs (H0 & Hl & Hc) E.
  pose proof (zlen_nonneg (entries s)). destruct r as [e|h|m]; simpl in E.
  - destruct (Z.leb_spec (eIndex e) (offset s)); [by injection E as <-|].
    destruct (Z.ltb_spec (zlen (entries s)) (eIndex e - offset s - 1)); [done|]. injection E as <-. simpl in *.
    unfold offset in *. rewrite zlen_app, zlen_take by lia. change (zlen [e]) with 1. split_and!; [done|lia|].
    apply contiguous_app. split; [by apply contiguous_take|]. rewrite zlen_take by lia. simpl. split; [lia|done].
  - by injection E as <-.
  - injection E as <-. unfold offset. destruct (_ && _); simpl; (destruct (smIndex m <=? _); simpl;
      (split_and!; [done| |done || by apply contiguous_take]));
      unfold zlen in *; rewrite ?length_take; simpl; lia.
Qed.
Lemma redoAll_view rs s s' :
  Forall small rs → view_wf (disk_view s) → redoAll rs s = Some s' → view_wf (disk_view s').
Proof.
  intros Hs. revert s. induction Hs as [|r rs Hr Hs IH]; intros s Hv; simpl; [by intros [= <-]|].
  intros (s1 & E & E')%bind_Some. eapply IH; [|done]. by eapply redo_view.
Qed.

(** Indices stay consecutive above the snapshot. *)
Lemma wal_view s ws bs : wal_inv s ws bs → view_wf (disk_view s).
Proof.
  intros []. destruct wi_redo0 as (s1 & E & Eh & Es & [Ee|[Ee _]]).
  - apply redoAll_view in E; [|done|].
    + unfold disk_view, mem.mem_view, mirror in *. simpl in *. by rewrite Eh, Es, Ee in E.
    + unfold base_ok, offset in *. unfold view_wf, v_last, v_off, zlen. simpl. split_and!; [lia|lia|done].
  - unfold base_ok, offset in *. unfold view_wf, v_last, v_off, zlen. simpl. rewrite Ee. split_and!; [lia|simpl; lia|done].
Qed.

(** The records folded over a snapshot: hard state, snapshot and entries. *)
Definition folded (sn : Snapshot) (rs : list rec) : option (HardState * Snapshot * list Entry) :=
  core <$> redoAll rs (start (mkDirectory ∅ ∅) sn false).

Lemma folded_redo rs d sn t : redoAll rs (start d sn false) = Some t → folded sn rs = Some (core t).
Proof.
  intros E. unfold folded.
  destruct (redoAll_core _ (start d sn false) (start (mkDirectory ∅ ∅) sn false) _ eq_refl E) as (t' & -> & ->). done.
Qed.
Lemma folded_inv s ws bs :
  wal_inv s ws bs → ∃ es, folded (snapshot s) (ws ++ bs) = Some (hardState s, snapshot s, es) ∧ owed s es.
Proof.
  intros []. destruct wi_redo0 as (s1 & E & Eh & Es & He). exists (entries s1). split; [|done].
  rewrite (folded_redo _ _ _ _ E). unfold core. by rewrite Eh, Es.
Qed.

(** ** Reopening *)

Lemma reopen s ws bs k d' qs q rss rs' tail :
  wal_inv s ws bs → holds d' qs q rss rs' tail → concat rss ++ rs' = ws ++ take k bs →
  d_snaps d' = d_snaps (dir s) → all_synced d' → 0 ≤ q →
  ∃ s', Open d' = Ret (s', None) ∧ wal_inv s' (ws ++ take k bs) [] ∧ snapshot s' = snapshot s ∧
    folded (snapshot s) (ws ++ take k bs) = Some (core s').
Proof.
  intros [] Hh Er Ed Hs Hq. destruct wi_snap0 as (fl & Hl & Hfl). destruct wi_redo0 as (s1 & E & _).
  rewrite <-(take_drop k bs), app_assoc in E. apply redoAll_prefix in E as (s2 & E).
  destruct (redoAll_core _ (start (dir s) (snapshot s) false) (start d' (snapshot s) fl) _ eq_refl E) as (s3 & E3 & Ec3).
  assert (Hp : snapshotTruncationPending s3 = false).
  { destruct fl; [|by eapply redoAll_no_pending]. eapply redoAll_pending; [done|]. apply elem_of_app. left. by apply Hfl. }
  pose proof (redoAll_frame _ _ _ E3) as (_ & Esn & _). simpl in Esn.
  assert (Hl' : loaded d' (snapshot s) fl) by (unfold loaded in *; by rewrite Ed).
  rewrite <-Er in E3. destruct (Open_spec _ _ _ _ _ _ _ _ _ Hh Hl' wi_base0 E3 Hp) as (s' & Eo & Hop). destruct Hop.
  assert (Esn' : snapshot s' = snapshot s) by (unfold core in op_core; by injection op_core as _ -> _).
  destruct op_seg as [Hseg <-]. exists s'. split; [done|].
  split; [|split; [done|rewrite (folded_redo _ _ _ _ E); congruence]]. constructor; try done; rewrite ?Esn', ?app_nil_r.
  - exists qs, rss, rs'. by rewrite Er.
  - by apply op_synced.
  - rewrite <-(take_drop k bs), app_assoc in wi_small0. by apply Forall_app in wi_small0 as [? _].
  - exists fl. split; [by unfold loaded in *; rewrite op_snaps|]. intros ->. apply elem_of_app. left. by apply Hfl.
  - intros i. unfold offset. rewrite op_snaps, Ed, Esn'. apply wi_keys0.
  - intros m Hm. unfold offset. rewrite Esn'. apply wi_marks0.
    rewrite <-(take_drop k bs), app_assoc. apply elem_of_app. by left.
  - unfold base_ok, offset. by rewrite Esn'.
  - destruct (redoAll_core _ (start (dir s) (snapshot s) false) (start (dir s') (snapshot s) false) _ eq_refl E) as (s4 & E4 & Ec4).
    exists s4. split; [done|]. apply mirrors_core. congruence.
Qed.

(** ** Flushing the buffer *)

(** What [syncBuffered] does to a non-empty buffer: one file [q] over the other,
    synced ones gets the batch behind the records [rs] it had. *)
Record flushed (durable : bool) (s s' : Storage) (ws bs : list rec) : Prop := mkFlushed {
  fl_file : ∃ qs q rss rs m,
    ws = concat rss ++ rs ∧ 0 ≤ q ∧ seg s' = Some q ∧ segSeq s' = q ∧
    all_synced (mkDirectory m (d_snaps (dir s))) ∧
    dir s' = mkDirectory (<[q := mkFile (frames rs ++ frames bs)
                                 (if durable then zlen (frames rs ++ frames bs) else zlen (frames rs))]> m)
               (d_snaps (dir s)) ∧
    ∀ f rs' tail', f_data f = frames rs' ++ tail' → tail' = [] ∨ torn tail' → Forall wf_rec (concat rss ++ rs') →
      holds (mkDirectory (<[q := f]> m) (d_snaps (dir s))) qs q rss rs' tail';
  fl_buf : buf s' = [];
  fl_core : core s' = core s;
  fl_rest : snapshotTruncationPending s' = snapshotTruncationPending s ∧ noSync s' = noSync s;
  fl_seq : segSeq s' ≤ segSeq s + 1
}.

(** What flushing needs of the state: [wal_inv] without its part on the mirror. *)
Record flushable (s : Storage) (ws bs : list rec) : Prop := mkFlushable {
  fb_segs : ∃ qs rss rs, holds (dir s) qs (segSeq s) rss rs [] ∧ ws = concat rss ++ rs;
  fb_synced : all_synced (dir s);
  fb_buf : buf s = frames bs;
  fb_seg : seg s = Some (segSeq s) ∧ 0 ≤ segSeq s;
  fb_room : segSeq s + 1 < u64_mod
}.

Lemma flush durable s ws bs :
  flushable s ws bs → bs ≠ [] →
  (syncBuffered durable s).2 = None ∧ flushed durable s (syncBuffered durable s).1 ws bs.
Proof.
  intros [(qs & rss & rs & Hh & ->) Hsy Hb [Hseg Hq] Hroom] Hne. unfold syncBuffered.
  rewrite Hb, frames_empty, bool_decide_false by done.
  pose proof Hh as [Hn _ Hl _ Hw]. rewrite app_nil_r in Hl.
  destruct (Z.leb_spec maxSegmentSize (segSize s)).
  - rewrite w64_id by lia. unfold rotateSegment, writeSegment. cbn [seg set_active set_dir]. split; [done|].
    assert (Hfresh : d_segs (dir s) !! (segSeq s + 1) = None).
    { destruct (d_segs (dir s) !! (segSeq s + 1)) as [f|] eqn:E; [|done].
      pose proof (holds_max _ _ _ _ _ _ (segSeq s + 1) Hh) as Hm. rewrite E in Hm. assert (segSeq s + 1 ≤ segSeq s) by eauto. lia. }
    constructor; [|done..|simpl; lia]. exists (qs ++ [segSeq s]), (segSeq s + 1), (rss ++ [rs]), [], (d_segs (dir s)).
    split_and!; try done; [by rewrite concat_app; simpl; rewrite !app_nil_r|lia| |].
    + simpl. unfold set_segs. simpl. rewrite lookup_insert_eq, insert_insert_eq, Hfresh. simpl. rewrite Hb. done.
    + intros f rs' tail' Hf Ht Hw'. eapply holds_rotate; try done; [lia|]. by apply Forall_app in Hw' as [_ ?].
  - unfold writeSegment. rewrite Hseg. split; [done|]. constructor; [|done..|simpl; lia].
    exists qs, (segSeq s), rss, rs, (d_segs (dir s)). split_and!; try done.
    + simpl. unfold set_segs. simpl. unfold segData in Hl. rewrite Hl.
      destruct (d_segs (dir s) !! segSeq s) as [f|] eqn:E.
      * simpl in *. rewrite (Hsy _ _ E), Hl, Hb. by destruct durable.
      * simpl in *. rewrite <-Hl, Hb. by destruct durable.
    + intros f rs' tail' Hf Ht Hw'. by eapply holds_rewrite.
Qed.

Lemma wal_flushable s ws bs : wal_inv s ws bs → segSeq s + 1 < u64_mod → flushable s ws bs.
Proof. intros [] ?. by constructor. Qed.

Lemma flushed_holds s s' ws bs :
  flushed true s s' ws bs → Forall wf_rec (ws ++ bs) →
  (∃ qs rss rs, holds (dir s') qs (segSeq s') rss rs [] ∧ ws ++ bs = concat rss ++ rs) ∧ all_synced (dir s') ∧
  (seg s' = Some (segSeq s') ∧ 0 ≤ segSeq s') ∧ d_snaps (dir s') = d_snaps (dir s).
Proof.
  intros [(qs & q & rss & rs & m & -> & Hq & Hseg & Hsq & Ha & Ed & Hh) _ _ _ _] Hw. rewrite Ed, Hsq. split_and!; try done.
  - exists qs, rss, (rs ++ bs). rewrite <-app_assoc in Hw |- *. split; [|done]. apply Hh; [|by left|done].
    simpl. by rewrite frames_app, app_nil_r.
  - by apply (all_synced_insert (mkDirectory m (d_snaps (dir s)))).
Qed.

Lemma wal_wf s ws bs : wal_inv s ws bs → Forall wf_rec (ws ++ bs).
Proof.
  intros []. destruct wi_segs0 as (qs & rss & rs & [] & ->). apply Forall_app. by split.
Qed.

(** ** Operations keep the invariant *)

(** The part of the invariant a flush carries over, the truncation marker of
    the snapshot possibly still in the buffer. *)
Record wal_core (s : Storage) (ws bs : list rec) : Prop := mkWalCore {
  wc_wf : Forall wf_rec (ws ++ bs);
  wc_small : Forall small (ws ++ bs);
  wc_sync : noSync s = false;
  wc_snap : ∃ fl, loaded (dir s) (snapshot s) fl ∧ (fl = true → RTrunc (snMetadata (snapshot s)) ∈ ws ++ bs);
  wc_keys k : is_Some (d_snaps (dir s) !! k) → k ≤ offset s;
  wc_marks m : RTrunc m ∈ ws ++ bs → smIndex m ≤ offset s;
  wc_base : base_ok s;
  wc_redo : ∃ s1, redoAll (ws ++ bs) (start (dir s) (snapshot s) false) = Some s1 ∧ mirrors s1 s
}.

Lemma wal_inv_core s ws bs : wal_inv s ws bs → wal_core s ws bs.
Proof.
  intros Hi. pose proof (wal_wf _ _ _ Hi). destruct Hi. constructor; try done.
  destruct wi_snap0 as (fl & Hl & Hfl). exists fl. split; [done|]. intros ?. apply elem_of_app. left. auto.
Qed.

Lemma flushed_inv s s' ws bs :
  flushed true s s' ws bs → wal_core s ws bs → wal_inv (set_pending false s') (ws ++ bs) [].
Proof.
  intros Hf []. destruct (flushed_holds _ _ _ _ Hf wc_wf0) as (Hh & Ha & Hseg & Esn).
  destruct Hf as [_ Hb Hc [Hp Hns] _]. injection Hc as Eh Es Ee.
  constructor; simpl; rewrite ?Es, ?app_nil_r; try done; try congruence.
  - destruct wc_snap0 as (fl & Hl & Hfl). exists fl. split; [by unfold loaded in *; rewrite Esn|done].
  - intros k. unfold offset. simpl. rewrite Esn, Es. apply wc_keys0.
  - intros m. unfold offset. simpl. rewrite Es. apply wc_marks0.
  - unfold base_ok, offset. simpl. by rewrite Es.
  - destruct wc_redo0 as (s1 & E & Ec).
    destruct (redoAll_core _ (start (dir s) (snapshot s) false) (start (dir s') (snapshot s) false) _ eq_refl E) as (s2 & E2 & Ec2).
    exists s2. split; [done|]. eapply mirrors_of_core; [done|]. eapply mirrors_to_core; [|done]. unfold core. simpl. congruence.
Qed.

Lemma wal_sync s ws bs :
  wal_inv s ws bs → segSeq s + 1 < u64_mod →
  ∃ s', Sync s = (s', None) ∧ wal_inv s' (ws ++ bs) [] ∧ core s' = core s.
Proof.
  intros Hi Hr. pose proof Hi as []. unfold Sync. rewrite wi_sync0. cbn [negb].
  destruct (decide (bs = [])) as [->|Hne].
  { exists s. unfold syncBuffered. rewrite wi_buf0, frames_empty, app_nil_r. by split_and!. }
  destruct (flush true s ws bs (wal_flushable _ _ _ Hi Hr) Hne) as [He Hf].
  exists (syncBuffered true s).1. split; [rewrite <-He; by destruct (syncBuffered true s)|].
  split; [|by destruct Hf]. pose proof (flushed_inv _ _ _ _ Hf (wal_inv_core _ _ _ Hi)) as Hx.
  replace (syncBuffered true s).1 with (set_pending false (syncBuffered true s).1); [done|].
  destruct Hf as [_ _ _ [Hp _] _]. rewrite wi_pending0 in Hp. destruct (syncBuffered true s).1. simpl in *. by subst.
Qed.

(** Logging further records whose effect on the mirror is their redo. *)
Lemma wal_log s ws bs rs s' :
  wal_inv s ws bs → Forall wf_rec rs → Forall small rs → (∀ m, RTrunc m ∉ rs) → redoAll rs s = Some s' →
  wal_inv (set_buf (buf s ++ frames rs) s') ws (bs ++ rs).
Proof.
  intros [] Hw Hs Hnt E. pose proof (redoAll_frame _ _ _ E) as (Ed & Esn & _ & Eseg & _ & Esq & Ens).
  constructor; simpl; rewrite ?Ed, ?Esn, ?Eseg, ?Esq, ?Ens; try done.
  - by rewrite wi_buf0, frames_app.
  - by apply Forall_app.
  - rewrite app_assoc. by apply Forall_app.
  - by eapply redoAll_no_pending.
  - intros k. unfold offset. simpl. rewrite Esn. apply wi_keys0.
  - intros m. unfold offset. simpl. rewrite Esn, app_assoc. intros [Hm|Hm]%elem_of_app; [by apply wi_marks0|by destruct (Hnt m)].
  - unfold base_ok, offset. simpl. by rewrite Esn.
  - destruct wi_redo0 as (s1 & E1 & Ec1). rewrite app_assoc, redoAll_app, E1. simpl.
    destruct (redoAll_mirrors rs s1 s s' Ec1 E) as (s2 & E2 & Ec2). exists s2. split; [done|]. by eapply mirrors_to_core.
Qed.
Lemma wal_hard s ws bs h :
  wal_inv s ws bs → wf_hard h →
  ∃ s', disk_SetHardState h s = Ret (s', None) ∧ wal_inv s' ws (bs ++ [RHard h]).
Proof.
  intros Hi Hh. unfold disk_SetHardState. eexists. split; [done|].
  replace (appendFrame _ _) with (buf s ++ frames [RHard h]).
  - apply (wal_log s ws bs [RHard h]); [done|by constructor|by constructor| |done].
    by intros m ?%list_elem_of_singleton.
  - rewrite appendFrame_eq. by rewrite frames_one.
Qed.

(** What an append logs: the entries above the snapshot. *)
Definition logged (s : Storage) (es : list Entry) : list rec :=
  map REntry (filter (λ e, offset s < eIndex e) es).

Lemma filter_contiguous i off es :
  contiguous i es → filter (λ e, off < eIndex e) es = drop (Z.to_nat (off + 1 - i)) es.
Proof.
  revert i. induction es as [|e es IH]; intros i Hc; [by rewrite drop_nil|]. destruct Hc as [Hi Hc].
  rewrite filter_cons, (IH _ Hc). case_decide.
  - replace (Z.to_nat (off + 1 - i)) with 0%nat by lia. by replace (Z.to_nat (off + 1 - (i + 1))) with 0%nat by lia.
  - replace (Z.to_nat (off + 1 - i)) with (S (Z.to_nat (off + 1 - (i + 1)))) by lia. done.
Qed.

Lemma redo_entries i e es s :
  contiguous i (e :: es) → offset s < i ≤ offset s + zlen (entries s) + 1 →
  redoAll (map REntry (e :: es)) s =
    Some (set_entries (take (Z.to_nat (i - offset s - 1)) (entries s) ++ e :: es) s).
Proof.
  revert i e s. induction es as [|e' es IH]; intros i e s [Hi Hc] Ho.
  all: change (redoAll (map REntry (e :: ?l)) s) with (redo s (REntry e) ≫= redoAll (map REntry l)); cbn [redo]; rewrite Hi.
  all: destruct (Z.leb_spec i (offset s)); [lia|].
  all: destruct (Z.ltb_spec (zlen (entries s)) (i - offset s - 1)); [lia|]; cbn [mbind option_bind]; try done.
  set (s1 := set_entries _ s). assert (Hl : zlen (entries s1) = i - offset s).
  { simpl. rewrite zlen_app, zlen_take by lia. change (zlen [e]) with 1. lia. }
  assert (Ho1 : offset s1 = offset s) by done.
  rewrite (IH (i + 1) e' s1 Hc), Ho1 by lia. rewrite take_ge by (unfold zlen in Hl; lia). simpl. by rewrite <-app_assoc.
Qed.

Lemma appendFrames b es : foldl (λ b e, appendFrame b (encodeEntry e)) b es = b ++ frames (map REntry es).
Proof.
  revert b. induction es as [|e es IH]; intros b; [by rewrite app_nil_r|]. cbn [foldl map].
  rewrite IH, appendFrame_eq, <-app_assoc. done.
Qed.

Lemma append_logged s e es :
  view_wf (disk_view s) → append_ok (disk_view s) e es →
  ∃ s1, redoAll (logged s (e :: es)) s = Some s1 ∧
    disk_AppendEntries (e :: es) s = Ret (set_buf (buf s ++ frames (logged s (e :: es))) s1, None).
Proof.
  intros (? & ? & ?) (Hc & ? & ?). unfold logged. rewrite (filter_contiguous _ _ _ Hc).
  unfold disk_AppendEntries, v_last, v_off in *. cbn [v_snap v_ents mem.mem_view disk_view mirror mem.entries mem.snapshot] in *.
  change (snIndex (snapshot s)) with (offset s) in *. pose proof (zlen_nonneg (entries s)). pose proof (zlen_nonneg es).
  rewrite decide_False by done. cbn [index Z.ltb lookup].
  destruct (index_total (e :: es) (zlen (e :: es) - 1)) as (el & Hel & ->); [rewrite zlen_cons; lia|].
  apply (contiguous_lookup _ _ _ _ Hc) in Hel. rewrite zlen_cons in *. rewrite Z2Nat.id in Hel by lia.
  rewrite (w64_id (offset s + 1)) by lia. change (eIndex <$> index (e :: es) 0) with (Ret (eIndex e)). oret.
  change (eIndex <$> Ret el) with (Ret (eIndex el)). oret. rewrite Hel. set (n := Z.to_nat (offset s + 1 - eIndex e)).
  destruct (Z.leb_spec (eIndex e + (1 + zlen es - 1)) (offset s)).
  { rewrite drop_ge by (unfold n, zlen in *; simpl; lia). exists s. split; [done|]. simpl. rewrite app_nil_r.
    by destruct s. }
  destruct (Z.leb_spec (eIndex e) (offset s)).
  - rewrite w64_id by lia. rewrite slice_from_ok by (rewrite zlen_cons; lia). oret. fold n.
    destruct (drop n (e :: es)) as [|e' es'] eqn:Hd.
    { apply (f_equal length) in Hd. rewrite length_drop in Hd. unfold zlen in *. simpl in Hd. lia. }
    apply (contiguous_drop _ _ n) in Hc as Hc'; [|unfold zlen in *; simpl; lia]. rewrite Hd in Hc'.
    assert (He' : eIndex e' = offset s + 1) by (destruct Hc'; lia).
    change (eIndex <$> index (e' :: es') 0) with (Ret (eIndex e')). oret. rewrite He', Z.sub_diag. change (w64 0) with 0.
    destruct (Z.ltb_spec (zlen (entries s)) 0); [lia|]. rewrite slice_to_ok by lia. oret.
    rewrite (redo_entries _ _ _ _ Hc') by lia. eexists. split; [done|]. rewrite appendFrames.
    replace (eIndex e + Z.of_nat n - offset s - 1) with 0 by (destruct Hc'; lia). done.
  - oret. rewrite w64_id by lia. destruct (Z.ltb_spec (zlen (entries s)) (eIndex e - (offset s + 1))); [lia|].
    rewrite slice_to_ok by lia. oret. replace n with 0%nat by lia. rewrite drop_0, (redo_entries _ _ _ _ Hc) by lia.
    eexists. split; [done|]. rewrite appendFrames. by replace (eIndex e - offset s - 1) with (eIndex e - (offset s + 1)) by lia.
Qed.

Lemma wal_append s ws bs e es :
  wal_inv s ws bs → append_ok (disk_view s) e es → Forall wf_entry (e :: es) →
  ∃ s', disk_AppendEntries (e :: es) s = Ret (s', None) ∧ wal_inv s' ws (bs ++ logged s (e :: es)).
Proof.
  intros Hi Ha Hw. destruct (append_logged s e es (wal_view _ _ _ Hi) Ha) as (s1 & E1 & E).
  eexists. split; [done|]. apply wal_log; [done|..|done].
  3: { by intros m (x & ? & _)%list_elem_of_fmap. }
  all: apply Forall_map, Forall_forall.
  - intros x [_ Hx]%list_elem_of_filter. simpl. by eapply Forall_forall in Hw.
  - intros x [_ Hx]%list_elem_of_filter. simpl. destruct Ha as (Hc & ? & ?).
    apply list_elem_of_lookup in Hx as [k Hk]. pose proof (lookup_lt_Some _ _ _ Hk).
    rewrite (contiguous_lookup _ _ _ _ Hc Hk). unfold zlen in *. simpl in *. lia.
Qed.

(** ** Snapshots *)

(** The records, folded over a later snapshot. *)
Lemma rebase s ws bs d sn :
  wal_inv s ws bs → offset s ≤ snIndex sn →
  ∃ t, redoAll (ws ++ bs) (start d sn false) = Some t ∧ hardState t = hardState s ∧ snapshot t = sn ∧
    (snIndex sn < offset s + zlen (entries s) → entries t = drop (Z.to_nat (snIndex sn - offset s)) (entries s)).
Proof.
  intros [] Ho. destruct wi_redo0 as (s1 & E & Eh & Es & He).
  assert (Hb : behind (start (dir s) (snapshot s) false) (start d sn false)).
  { split_and!; [done|done|]. unfold offset. simpl. unfold offset in Ho. rewrite zlen_nil. lia. }
  destruct (redoAll_behind _ _ _ _ Hb E) as (t & Et & Hh & _ & Hd).
  pose proof (redoAll_frame _ _ _ Et) as (_ & Est & _). exists t. split_and!; [done|congruence|done|].
  intros Hl. destruct He as [Ee|[Ee _]]; [|rewrite Ee, zlen_nil in Hl; lia].
  unfold offset in *. rewrite Est, Es, Ee in Hd. apply Hd. simpl. lia.
Qed.

Lemma snapshot_file_holds sn fl s qs q rss rs tail :
  holds (dir s) qs q rss rs tail → holds (dir (writeSnapshotFile sn fl s)) qs q rss rs tail.
Proof. by intros []. Qed.
Lemma snapshot_file_loaded s ws bs sn fl :
  wal_inv s ws bs → wf_snap sn → offset s < snIndex sn → loaded (dir (writeSnapshotFile sn fl s)) sn fl.
Proof.
  intros [] Hw Ho. exists (Some (sn, fl)). split; [|done].
  apply firstIntact_newest; [done|]. intros q Hq%wi_keys0. lia.
Qed.
Lemma snapshot_file_keys s ws bs sn fl k :
  wal_inv s ws bs → offset s < snIndex sn →
  is_Some (d_snaps (dir (writeSnapshotFile sn fl s)) !! k) → k ≤ snIndex sn.
Proof.
  intros [] Ho [x Hx]. simpl in Hx. apply lookup_insert_Some in Hx as [[<- _]|[_ Hx]]; [done|].
  assert (k ≤ offset s) by eauto. lia.
Qed.

(** A snapshot installed without a marker. *)
Lemma wal_install_plain s ws bs sn es :
  wal_inv s ws bs → wf_snap sn → offset s < snIndex sn < u64_mod - 1 →
  (snIndex sn < offset s + zlen (entries s) ∧ es = drop (Z.to_nat (snIndex sn - offset s)) (entries s) ∨
   es = []) →
  wal_inv (set_pending false (set_snapshot sn (set_entries es (writeSnapshotFile sn false s)))) ws bs.
Proof.
  intros Hi Hw Ho Hes. pose proof Hi as []. constructor; simpl; try done.
  - destruct wi_segs0 as (qs & rss & rs & Hh & ->). exists qs, rss, rs. split; [by apply (snapshot_file_holds sn false)|done].
  - exists false. split; [|done]. eapply snapshot_file_loaded; [done|done|lia].
  - intros k. unfold offset at 1. simpl. apply (snapshot_file_keys s ws bs sn false); [done|lia].
  - intros m Hm%wi_marks0. unfold offset in *. simpl. lia.
  - unfold base_ok, offset in *. simpl. lia.
  - destruct (rebase s ws bs (dir (writeSnapshotFile sn false s)) sn Hi) as (t & Et & Eh & Est & Hd); [lia|].
    exists t. split; [done|]. split_and!; [done|done|]. unfold owed, base_ok, offset in *. simpl.
    destruct Hes as [[Hl ->]| ->]; [left; auto|right; split; [done|lia]].
Qed.

(** The state that [ApplySnapshot] flushes when it drops a divergent suffix. *)
Definition truncating (sn : Snapshot) (s : Storage) : Storage :=
  set_buf (appendFrame (buf s) (encodeTruncateSuffix (snMetadata sn)))
    (set_pending true (set_snapshot sn (set_entries [] (writeSnapshotFile sn true s)))).

Lemma redo_marker rs s t sn :
  redoAll rs s = Some t → snapshot s = sn → snapshotTruncationPending s = false →
  redoAll (rs ++ [RTrunc (snMetadata sn)]) s = Some (set_entries [] t).
Proof.
  intros E Hs Hp. rewrite redoAll_app, E. pose proof (redoAll_frame _ _ _ E) as (_ & Est & _).
  apply redoAll_no_pending in E; [|done]. simpl. rewrite E. cbn [andb].
  assert (Ho : smIndex (snMetadata sn) = offset t) by (unfold offset; by rewrite Est, Hs).
  rewrite Ho, Z.leb_refl. done.
Qed.

Lemma truncating_core s ws bs sn :
  wal_inv s ws bs → wf_snap sn → offset s < snIndex sn < u64_mod - 1 →
  wal_core (truncating sn s) ws (bs ++ [RTrunc (snMetadata sn)]).
Proof.
  intros Hi Hw Ho. pose proof Hi as []. constructor; simpl; try done; rewrite ?(app_assoc ws).
  - apply Forall_app. split; [by eapply wal_wf|]. constructor; [|done]. by destruct Hw as (? & ? & _).
  - apply Forall_app. split; [done|]. by constructor.
  - exists true. split; [eapply snapshot_file_loaded; [done|done|lia]|]. intros _. apply elem_of_app. right. by left.
  - intros k. unfold offset at 1. simpl. apply (snapshot_file_keys s ws bs sn true); [done|lia].
  - intros m. unfold offset in *. simpl. intros [Hm%wi_marks0|Hm%list_elem_of_singleton]%elem_of_app.
    + unfold offset in *. lia.
    + by injection Hm as ->.
  - unfold base_ok, offset in *. simpl. lia.
  - destruct (rebase s ws bs (dir (truncating sn s)) sn Hi) as (t & Et & Eh & Est & _); [lia|].
    exists (set_entries [] t). split; [by apply redo_marker|]. split_and!; [done|done|by left].
Qed.

Lemma truncating_flushable s ws bs sn :
  wal_inv s ws bs → segSeq s + 1 < u64_mod → flushable (truncating sn s) ws (bs ++ [RTrunc (snMetadata sn)]).
Proof.
  intros [] Hr. constructor; simpl; try done.
  - destruct wi_segs0 as (qs & rss & rs & Hh & ->). exists qs, rss, rs. split; [by apply (snapshot_file_holds sn true)|done].
  - rewrite appendFrame_eq, wi_buf0, frames_app. by rewrite frames_one.
Qed.
Lemma wal_install_truncating s ws bs sn :
  wal_inv s ws bs → wf_snap sn → offset s < snIndex sn < u64_mod - 1 → segSeq s + 1 < u64_mod →
  ∃ s3, syncBuffered true (truncating sn s) = (s3, None) ∧
    wal_inv (set_pending false s3) (ws ++ bs ++ [RTrunc (snMetadata sn)]) [] ∧ core s3 = (hardState s, sn, []) ∧
    segSeq s3 ≤ segSeq s + 1.
Proof.
  intros Hi Hw Ho Hr. pose proof (truncating_core s ws bs sn Hi Hw Ho) as Hc.
  destruct (flush true _ _ _ (truncating_flushable s ws bs sn Hi Hr)) as [He Hfl]; [by destruct bs|].
  exists (syncBuffered true (truncating sn s)).1. split; [rewrite <-He; by destruct (syncBuffered _ _)|].
  split; [by apply flushed_inv with (s := truncating sn s)|]. by destruct Hfl as [_ _ ? _ ?].
Qed.

(** Whether installing [sn] writes a truncation marker. *)
Definition truncates (s : Storage) (sn : Snapshot) : bool :=
  (snIndex sn <? offset s + zlen (entries s)) &&
  negb match entries s !! Z.to_nat (snIndex sn - offset s - 1) with
       | Some e => eTerm e =? snTerm sn | None => false end.

Lemma wal_install s ws bs sn :
  wal_inv s ws bs → wf_snap sn → offset s < snIndex sn < u64_mod - 1 → segSeq s + 1 < u64_mod →
  ∃ s', disk_ApplySnapshot sn s = Ret (s', None) ∧ segSeq s' ≤ segSeq s + 1 ∧
    if truncates s sn then wal_inv s' (ws ++ bs ++ [RTrunc (snMetadata sn)]) [] ∧ core s' = (hardState s, sn, [])
    else wal_inv s' ws bs.
Proof.
  intros Hi Hw Ho Hr. pose proof (wal_view _ _ _ Hi) as (H0 & Hl & _). unfold v_last, v_off in H0, Hl. simpl in H0, Hl.
  change (snIndex (snapshot s)) with (offset s) in H0, Hl.
  pose proof (wal_install_plain s ws bs sn) as Hpl. pose proof (wal_install_truncating s ws bs sn Hi Hw Ho Hr) as (s3 & Hs3 & Hi3 & Hc3 & Hq3).
  unfold disk_ApplySnapshot, truncates. destruct (Z.leb_spec (snIndex sn) (offset s)); [lia|].
  pose proof (zlen_nonneg (entries s)). rewrite (w64_id (offset s + _)) by lia.
  destruct (Z.ltb_spec (snIndex sn) (offset s + zlen (entries s))); cbn [andb].
  - rewrite (w64_id (snIndex sn - offset s)), w64_id by (rewrite ?w64_id; lia).
    destruct (index_total (entries s) (snIndex sn - offset s - 1)) as (e & He & ->); [lia|]. rewrite He. oret.
    destruct (eTerm e =? snTerm sn); cbn [negb].
    + rewrite slice_from_ok by (cbn [entries writeSnapshotFile set_dir]; lia). oret. eexists. split; [done|]. split; [simpl; lia|].
      apply Hpl; try done. by left.
    + oret. match goal with |- context [syncBuffered true ?x] => change x with (truncating sn s) end.
      rewrite Hs3. by eexists.
  - oret. eexists. split; [done|]. split; [simpl; lia|]. apply Hpl; try done. by right.
Qed.

(** ** Crashes keep the invariant *)

(** A crash while a batch is being written: whole records of it and a cut. *)
Lemma crash_flush s ws bs cut :
  flushable s ws bs → bs ≠ [] → Forall wf_rec (ws ++ bs) →
  ∃ k qs q rss rs tail,
    holds (crash cut (dir (inSync s))) qs q rss rs tail ∧ concat rss ++ rs = ws ++ take k bs ∧
    d_snaps (crash cut (dir (inSync s))) = d_snaps (dir s) ∧ all_synced (crash cut (dir (inSync s))) ∧
    0 ≤ q ≤ segSeq s + 1.
Proof.
  intros Hf Hne Hw. unfold inSync. destruct (flush false s ws bs Hf Hne) as [_ [Hfile _ _ _ Hsq]].
  destruct Hfile as (qs & q & rss & rs & m & -> & Hq & _ & <- & Ha & Ed & Hh). rewrite Ed, crash_insert by done.
  destruct (survives_batch (cut (segSeq (syncBuffered false s).1)) rs bs) as (k & tail & n & Es & En & Ht);
    [by apply Forall_app in Hw as [_ ?]|]. rewrite Es.
  exists k, qs, (segSeq (syncBuffered false s).1), rss, (rs ++ take k bs), tail. split_and!; try done; [| |].
  - apply Hh; [done|done|]. rewrite app_assoc. rewrite <-(take_drop k bs), app_assoc in Hw. by apply Forall_app in Hw as [? _].
  - by rewrite <-app_assoc.
  - by apply (all_synced_insert (mkDirectory m (d_snaps (dir s)))).
Qed.

Lemma wal_crash s ws bs cut :
  wal_inv s ws bs →
  ∃ s', Open (crash cut (dir s)) = Ret (s', None) ∧ wal_inv s' ws [] ∧ snapshot s' = snapshot s ∧
    folded (snapshot s) ws = Some (core s').
Proof.
  intros Hi. pose proof Hi as []. rewrite crash_synced by done. destruct wi_segs0 as (qs & rss & rs & Hh & E).
  pose proof (reopen s ws bs 0 (dir s) qs (segSeq s) rss rs [] Hi Hh) as Ho. rewrite take_0, app_nil_r in Ho.
  apply Ho; try done. by destruct wi_seg0.
Qed.

Lemma wal_crash_in_sync s ws bs cut :
  wal_inv s ws bs → segSeq s + 1 < u64_mod →
  ∃ k s', Open (crash cut (dir (inSync s))) = Ret (s', None) ∧ wal_inv s' (ws ++ take k bs) [] ∧
    snapshot s' = snapshot s ∧ folded (snapshot s) (ws ++ take k bs) = Some (core s').
Proof.
  intros Hi Hr. destruct (decide (bs = [])) as [->|Hne].
  { exists 0%nat. unfold inSync, syncBuffered. rewrite (wi_buf _ _ _ Hi), frames_empty. simpl. rewrite app_nil_r. by eapply wal_crash. }
  destruct (crash_flush s ws bs cut (wal_flushable _ _ _ Hi Hr) Hne (wal_wf _ _ _ Hi))
    as (k & qs & q & rss & rs & tail & Hh & E & Esn & Ha & Hq).
  exists k. eapply (reopen s _ bs k _ qs q rss rs tail); try done. lia.
Qed.

(** The flag of a snapshot whose marker is not replayed stays up. *)
Lemma redoAll_still_pending rs s s' :
  redoAll rs s = Some s' → RTrunc (snMetadata (snapshot s)) ∉ rs →
  snapshotTruncationPending s' = snapshotTruncationPending s.
Proof.
  revert s. induction rs as [|r rs IH]; intros s; simpl; [by intros [= <-]|].
  intros (s1 & E & E')%bind_Some Hn. pose proof (redo_frame _ _ _ E) as (_ & Es & _).
  rewrite (IH s1 E') by (rewrite Es; set_solver). rewrite (redo_pending _ _ _ E).
  rewrite bool_decide_false by set_solver. apply andb_true_r.
Qed.

(** The hard state of the records folded over a snapshot. *)
Definition foldedHard (sn : Snapshot) (rs : list rec) : option HardState := (λ c, c.1.1) <$> folded sn rs.

(** The snapshot does not matter to the hard state. *)
Lemma rebase_prefix s ws bs k d sn :
  wal_inv s ws bs → offset s ≤ snIndex sn →
  ∃ t, redoAll (ws ++ take k bs) (start d sn false) = Some t ∧ snapshot t = sn ∧
    foldedHard (snapshot s) (ws ++ take k bs) = Some (hardState t).
Proof.
  intros [] Ho. destruct wi_redo0 as (s1 & E & _).
  rewrite <-(take_drop k bs), app_assoc in E. apply redoAll_prefix in E as (s2 & E).
  assert (Hb : behind (start (dir s) (snapshot s) false) (start d sn false)).
  { split_and!; [done|done|]. unfold offset. simpl. unfold offset in Ho. rewrite zlen_nil. lia. }
  destruct (redoAll_behind _ _ _ _ Hb E) as (t & Et & Hh & _). exists t.
  pose proof (redoAll_frame _ _ _ Et) as (_ & Est & _). split_and!; [done|done|].
  unfold foldedHard. rewrite (folded_redo _ _ _ _ E). simpl. by rewrite Hh.
Qed.

(** A directory with a snapshot's file but not its truncation marker: [Open]
    drops the divergent suffix and writes the marker. *)
Lemma repair s ws bs sn k d qs q rss rs tail :
  wal_inv s ws bs → wf_snap sn → offset s < snIndex sn < u64_mod - 1 →
  holds d qs q rss rs tail → concat rss ++ rs = ws ++ take k bs →
  d_snaps d = d_snaps (dir (writeSnapshotFile sn true s)) → all_synced d → 0 ≤ q → q + 1 < u64_mod →
  ∃ s', Open d = Ret (s', None) ∧ wal_inv s' ((ws ++ take k bs) ++ [RTrunc (snMetadata sn)]) [] ∧
    snapshot s' = sn ∧ entries s' = [] ∧ foldedHard (snapshot s) (ws ++ take k bs) = Some (hardState s').
Proof.
  intros Hi Hw Ho Hh Er Ed Ha Hq Hq1.
  assert (Hl : loaded d sn true).
  { pose proof (snapshot_file_loaded s ws bs sn true Hi Hw ltac:(lia)) as Hl. unfold loaded in *. by rewrite Ed. }
  pose proof (wal_wf _ _ _ Hi) as Hwf. pose proof (wi_small _ _ _ Hi) as Hsm.
  pose proof (wi_marks _ _ _ Hi) as Hmk. pose proof (wi_base _ _ _ Hi) as Hbase.
  rewrite <-(take_drop k bs), app_assoc in Hwf, Hsm. apply Forall_app in Hwf as [Hwf _]. apply Forall_app in Hsm as [Hsm _].
  assert (Hmarks : ∀ m, RTrunc m ∈ ws ++ take k bs → smIndex m ≤ offset s).
  { intros m Hm. apply Hmk. rewrite <-(take_drop k bs), app_assoc. apply elem_of_app. by left. }
  assert (Hsn : 0 ≤ snIndex sn < u64_mod - 1) by (unfold base_ok in *; lia).
  destruct (rebase_prefix s ws bs k d sn Hi) as (t & Et & Est & Eh); [lia|].
  destruct (redoAll_core _ (start d sn false) (start d sn true) _ eq_refl Et) as (t1 & Et1 & Ec1).
  assert (Hp : snapshotTruncationPending t1 = true).
  { rewrite (redoAll_still_pending _ _ _ Et1); [done|]. intros Hin%Hmarks. unfold offset in *. simpl in *.
    change (smIndex (snMetadata sn)) with (snIndex sn) in Hin. lia. }
  rewrite <-Er in Et1.
  destruct (replay_spec _ _ _ _ _ _ _ _ _ Hh Hsn Et1) as (s2 & Ers & Ec & Ep & Ebuf & Esn & Hh2 & Hy & En).
  unfold Open. rewrite (load_loaded d sn true Hl). oret. unfold listSegments. change (dir (start d sn true)) with d.
  rewrite (ho_names _ _ _ _ _ _ Hh), Ers. oret. rewrite Ep, Hp. unfold openActiveSegment. rewrite last_snoc.
  match goal with |- context [syncBuffered true ?x] => set (s3 := x) end.
  assert (Esn3 : snapshot s2 = sn) by (unfold core in *; congruence).
  assert (Hfb : flushable s3 (ws ++ take k bs) [RTrunc (snMetadata sn)]).
  { constructor; [exists qs, rss, rs; by split|by apply Hy| |by split|done].
    simpl. rewrite Ebuf, Esn3, frames_one, appendFrame_eq. done. }
  assert (Hc3 : wal_core s3 (ws ++ take k bs) [RTrunc (snMetadata sn)]).
  { constructor; simpl; rewrite ?Esn3; try done.
    - apply Forall_app. split; [done|]. constructor; [|done]. by destruct Hw as (? & ? & _).
    - apply Forall_app. split; [done|]. by constructor.
    - exists true. split; [unfold loaded in *; simpl; by rewrite Esn|]. intros _. apply elem_of_app. right. by left.
    - intros i. unfold offset. simpl. rewrite Esn, Esn3, Ed. apply (snapshot_file_keys s ws bs sn true i Hi). lia.
    - intros m. unfold offset. simpl. rewrite Esn3. intros [Hm%Hmarks|Hm%list_elem_of_singleton]%elem_of_app.
      + lia.
      + by injection Hm as ->.
    - unfold base_ok, offset in *. simpl. by rewrite Esn3.
    - destruct (redoAll_core _ (start d sn false) (start (dir s2) sn false) _ eq_refl Et) as (t2 & Et2 & Ec2).
      exists (set_entries [] t2). split; [by apply redo_marker|]. apply mirrors_core. unfold core in *. simpl. congruence. }
  destruct (flush true s3 _ _ Hfb ltac:(done)) as [He Hf]. pose proof (flushed_inv _ _ _ _ Hf Hc3) as Hi3.
  destruct Hf as [_ _ Hcore _ _]. destruct (syncBuffered true s3) as [s4 e4]. simpl in He, Hcore, Hi3. subst e4.
  exists (set_pending false s4). split; [done|]. split; [done|]. unfold core in *. simpl. simpl in Hcore.
  split_and!; congruence.
Qed.

(** A crash between a snapshot's file and the write of its marker. *)
Lemma wal_crash_install s ws bs sn cut :
  wal_inv s ws bs → wf_snap sn → offset s < snIndex sn < u64_mod - 1 → segSeq s + 1 < u64_mod →
  ∃ s', Open (crash cut (dir (writeSnapshotFile sn true s))) = Ret (s', None) ∧
    wal_inv s' (ws ++ [RTrunc (snMetadata sn)]) [] ∧ snapshot s' = sn ∧ entries s' = [] ∧
    foldedHard (snapshot s) ws = Some (hardState s').
Proof.
  intros Hi Hw Ho Hr. pose proof Hi as [(qs & rss & rs & Hh & Ews) Hsy _ _ _ _ [_ Hq] _ _ _ _ _ _].
  rewrite crash_synced by done. pose proof (repair s ws bs sn 0 (dir (writeSnapshotFile sn true s)) qs (segSeq s) rss rs []) as Hrp.
  rewrite take_0, app_nil_r in Hrp. apply Hrp; try done. by apply (snapshot_file_holds sn true).
Qed.
(** A crash while the marker is written, behind what was buffered. *)
Lemma wal_crash_marker s ws bs sn cut :
  wal_inv s ws bs → wf_snap sn → offset s < snIndex sn < u64_mod - 1 → segSeq s + 2 < u64_mod →
  ∃ k s', Open (crash cut (dir (inSync (truncating sn s)))) = Ret (s', None) ∧
    wal_inv s' ((ws ++ take k bs) ++ [RTrunc (snMetadata sn)]) [] ∧ snapshot s' = sn ∧ entries s' = [] ∧
    foldedHard (snapshot s) (ws ++ take k bs) = Some (hardState s').
Proof.
  intros Hi Hw Ho Hr. pose proof (truncating_core s ws bs sn Hi Hw Ho) as Hc.
  destruct (crash_flush _ _ _ cut (truncating_flushable s ws bs sn Hi ltac:(lia)) ltac:(by destruct bs) (wc_wf _ _ _ Hc))
    as (k & qs & q & rss & rs & tail & Hh & E & Esn & Ha & Hq). change (segSeq (truncating sn s)) with (segSeq s) in Hq.
  destruct (decide (k ≤ length bs)%nat) as [Hk|Hk].
  - rewrite take_app_le in E by done. exists k. eapply repair; try done; lia.
  - rewrite take_ge in E by (rewrite length_app; simpl; lia). exists (length bs). rewrite firstn_all.
    destruct (wal_install_truncating s ws bs sn Hi Hw Ho ltac:(lia)) as (s3 & E3 & Hi3 & Hcr & _). rewrite app_assoc in Hi3, E.
    destruct (flush true _ _ _ (truncating_flushable s ws bs sn Hi ltac:(lia))) as [_ Hfl]; [by destruct bs|].
    rewrite E3 in Hfl.
    destruct (flushed_holds _ _ _ _ Hfl (wc_wf _ _ _ Hc)) as (_ & _ & _ & Ed3).
    destruct (reopen _ _ _ 0 _ qs q rss rs tail Hi3 Hh) as (s' & Eo & Hi' & Es' & Ef); try done; [by rewrite take_nil, app_nil_r|simpl in *; congruence|lia|].
    rewrite take_nil, app_nil_r in Hi', Ef. exists s'. split; [done|]. split; [done|].
    assert (Es3 : snapshot s3 = sn) by (unfold core in Hcr; simpl in Hcr; congruence).
    simpl in Ef, Es'. rewrite Es3 in *.
    destruct (rebase_prefix s ws bs (length bs) (mkDirectory ∅ ∅) sn Hi) as (t & Et & Est & Eh); [lia|]. rewrite firstn_all in Et, Eh.
    unfold folded in Ef. rewrite (redo_marker _ _ t sn Et) in Ef by done. unfold core in Ef. simpl in Ef.
    injection Ef as E1 _ E2. rewrite <-E1, <-E2. by split_and!.
Qed.

(** ** Reachable storages *)

(** Storages that start in an empty directory and go on by calls of their
    contract, with records below the bound on a frame's length and segment
    numbers that do not wrap around, and by crashes: between two calls, while
    [Sync] writes, and at both points of an install that contradicts the log. *)
Inductive wal_reachable : Storage → Prop :=
| wr_open s : Open (mkDirectory ∅ ∅) = Ret (s, None) → wal_reachable s
| wr_append s e es s' :
    wal_reachable s → append_ok (disk_view s) e es → Forall wf_entry (e :: es) →
    disk_AppendEntries (e :: es) s = Ret (s', None) → wal_reachable s'
| wr_hard s h s' :
    wal_reachable s → wf_hard h → disk_SetHardState h s = Ret (s', None) → wal_reachable s'
| wr_sync s s' :
    wal_reachable s → segSeq s + 1 < u64_mod → Sync s = (s', None) → wal_reachable s'
| wr_install s sn s' :
    wal_reachable s → wf_snap sn → offset s < snIndex sn < u64_mod - 1 → segSeq s + 1 < u64_mod →
    disk_ApplySnapshot sn s = Ret (s', None) → wal_reachable s'
| wr_crash s cut s' :
    wal_reachable s → Open (crash cut (dir s)) = Ret (s', None) → wal_reachable s'
| wr_crash_in_sync s cut s' :
    wal_reachable s → segSeq s + 1 < u64_mod → Open (crash cut (dir (inSync s))) = Ret (s', None) →
    wal_reachable s'
| wr_crash_install s sn cut s' :
    wal_reachable s → wf_snap sn → offset s < snIndex sn < u64_mod - 1 → truncates s sn = true →
    segSeq s + 1 < u64_mod →
    Open (crash cut (dir (writeSnapshotFile sn true s))) = Ret (s', None) → wal_reachable s'
| wr_crash_marker s sn cut s' :
    wal_reachable s → wf_snap sn → offset s < snIndex sn < u64_mod - 1 → truncates s sn = true →
    segSeq s + 2 < u64_mod →
    Open (crash cut (dir (inSync (truncating sn s)))) = Ret (s', None) → wal_reachable s'.

Lemma wal_open : ∃ s, Open (mkDirectory ∅ ∅) = Ret (s, None) ∧ wal_inv s [] [].
Proof.
  eexists. split; [reflexivity|]. constructor; simpl; try done.
  - exists [], [], []. split; [|done]. by constructor; [reflexivity|..|left|].
  - intros q f Hq. simpl in Hq. by apply lookup_singleton_Some in Hq as [<- <-].
  - exists false. split; [|done]. by exists None.
  - by intros k [x ?].
  - by intros m ?%not_elem_of_nil.
  - eexists. split; [done|]. by apply mirrors_core.
Qed.

Lemma wal_reachable_inv s : wal_reachable s → ∃ ws bs, wal_inv s ws bs.
Proof.
  induction 1 as [s E|s e es s' _ (ws & bs & Hi) Ha Hw E|s h s' _ (ws & bs & Hi) Hw E
    |s s' _ (ws & bs & Hi) Hr E|s sn s' _ (ws & bs & Hi) Hw Ho Hr E|s cut s' _ (ws & bs & Hi) E
    |s cut s' _ (ws & bs & Hi) Hr E|s sn cut s' _ (ws & bs & Hi) Hw Ho _ Hr E|s sn cut s' _ (ws & bs & Hi) Hw Ho _ Hr E].
  - destruct wal_open as (s1 & E1 & Hi). rewrite E in E1. injection E1 as <-. eauto.
  - destruct (wal_append s ws bs e es Hi Ha Hw) as (s1 & E1 & Hi1). rewrite E in E1. injection E1 as <-. eauto.
  - destruct (wal_hard s ws bs h Hi Hw) as (s1 & E1 & Hi1). rewrite E in E1. injection E1 as <-. eauto.
  - destruct (wal_sync s ws bs Hi Hr) as (s1 & E1 & Hi1 & _). rewrite E in E1. injection E1 as <-. eauto.
  - destruct (wal_install s ws bs sn Hi Hw Ho Hr) as (s1 & E1 & _ & Hi1).
    rewrite E in E1. injection E1 as <-. destruct (truncates s sn); [destruct Hi1|]; eauto.
  - destruct (wal_crash s ws bs cut Hi) as (s1 & E1 & Hi1 & _). rewrite E in E1. injection E1 as <-. eauto.
  - destruct (wal_crash_in_sync s ws bs cut Hi Hr) as (k & s1 & E1 & Hi1 & _). rewrite E in E1. injection E1 as <-. eauto.
  - destruct (wal_crash_install s ws bs sn cut Hi Hw Ho Hr) as (s1 & E1 & Hi1 & _). rewrite E in E1. injection E1 as <-. eauto.
  - destruct (wal_crash_marker s ws bs sn cut Hi Hw Ho Hr) as (k & s1 & E1 & Hi1 & _). rewrite E in E1. injection E1 as <-. eauto.
Qed.

(** ** The storage contract *)

(** C6: crash recovery.  Take a storage after any calls, with records below the
    64 MiB bound on a frame, and any crashes and reopens.  The records in its
    segments and its buffer fold to its hard state, its snapshot and its entries, except that entries
    above a snapshot that emptied the log in memory may still be in the fold;
    wherever a crash cuts the batch [Sync] is writing, [Open] succeeds and
    recovers exactly the fold of the synced records and a prefix of the
    batch. *)
Theorem crash_recovery s :
  wal_reachable s → segSeq s + 1 < u64_mod →
  ∃ ws bs es, buf s = frames bs ∧ folded (snapshot s) (ws ++ bs) = Some (hardState s, snapshot s, es) ∧
    (es = entries s ∨ entries s = [] ∧ 0 < offset s) ∧
    ∀ cut, ∃ k s', Open (crash cut (dir (inSync s))) = Ret (s', None) ∧
      folded (snapshot s) (ws ++ take k bs) = Some (hardState s', snapshot s', entries s').
Proof.
  intros (ws & bs & Hi)%wal_reachable_inv Hr. destruct (folded_inv s ws bs Hi) as (es & Ef & He).
  exists ws, bs, es. split_and!; [by destruct Hi|done|done|].
  intros cut. destruct (wal_crash_in_sync s ws bs cut Hi Hr) as (k & s' & Eo & _ & _ & Ef'). by exists k, s'.
Qed.

(** Calls that only buffer: the storage after them and the records they log. *)
Inductive logs (s : Storage) : list rec → Storage → Prop :=
| logs_none : logs s [] s
| logs_append rs s1 e es s2 :
    logs s rs s1 → append_ok (disk_view s1) e es → Forall wf_entry (e :: es) →
    disk_AppendEntries (e :: es) s1 = Ret (s2, None) → logs s (rs ++ logged s1 (e :: es)) s2
| logs_hard rs s1 h s2 :
    logs s rs s1 → wf_hard h → disk_SetHardState h s1 = Ret (s2, None) → logs s (rs ++ [RHard h]) s2.

Lemma logs_redo s rs s' ws bs :
  wal_inv s ws bs → logs s rs s' → wal_inv s' ws (bs ++ rs) ∧ ∃ t, redoAll rs s = Some t ∧ core t = core s'.
Proof.
  intros Hi. induction 1 as [|rs s1 e es s2 _ [Hi1 (t & Et & Ec)] Ha Hw E|rs s1 h s2 _ [Hi1 (t & Et & Ec)] Hw E].
  - rewrite app_nil_r. by eauto.
  - destruct (append_logged s1 e es (wal_view _ _ _ Hi1) Ha) as (u & Eu & Eu').
    destruct (wal_append s1 ws _ e es Hi1 Ha Hw) as (s3 & E3 & Hi3). rewrite E in E3, Eu'. injection E3 as <-.
    rewrite app_assoc. split; [done|]. destruct (redoAll_core _ _ _ _ (eq_sym Ec) Eu) as (t' & Et' & Ec').
    exists t'. rewrite redoAll_app, Et. split; [done|]. injection Eu' as ->. rewrite <-Ec'. done.
  - destruct (wal_hard s1 ws _ h Hi1 Hw) as (s3 & E3 & Hi3). rewrite E in E3. injection E3 as <-.
    rewrite app_assoc. split; [done|]. injection E as <-. eexists. rewrite redoAll_app, Et. split; [done|].
    unfold core in *. simpl. congruence.
Qed.

(** C11: [Sync] is a durability barrier, for records below the 64 MiB bound on a
    frame.  It succeeds without changing the
    contents; whatever is then appended or set, and wherever a crash cuts the
    next [Sync] that writes those records, [Open] succeeds with the synced hard
    state, snapshot and entries and, on top of them, a prefix of the later
    records.  Only a log that a snapshot emptied in memory may come back with
    entries. *)
Theorem sync_durable s :
  wal_reachable s → segSeq s + 1 < u64_mod →
  ∃ s1, Sync s = (s1, None) ∧ core s1 = core s ∧
    ∀ rs s2 cut, logs s1 rs s2 → segSeq s2 + 1 < u64_mod →
      ∃ k es t s3, (es = entries s ∨ entries s = [] ∧ 0 < offset s) ∧
        redoAll (take k rs) (set_entries es s1) = Some t ∧
        Open (crash cut (dir (inSync s2))) = Ret (s3, None) ∧
        hardState s3 = hardState t ∧ snapshot s3 = snapshot t ∧ entries s3 = entries t.
Proof.
  intros (ws & bs & Hi)%wal_reachable_inv Hr. destruct (wal_sync s ws bs Hi Hr) as (s1 & E1 & Hi1 & Ec1).
  exists s1. split_and!; [done|done|]. intros rs s2 cut Hl Hr2. destruct (logs_redo _ _ _ _ _ Hi1 Hl) as [Hi2 (t & Et & Ec)].
  rewrite app_nil_l in Hi2. destruct (wal_crash_in_sync s2 _ rs cut Hi2 Hr2) as (k & s3 & Eo & _ & _ & Ef).
  pose proof (wi_redo _ _ _ Hi1) as (u & Eu & Hu1 & Hu2 & Hu3). rewrite app_nil_r in Eu.
  assert (Es2 : snapshot s2 = snapshot s1).
  { apply redoAll_frame in Et as (_ & Et & _). unfold core in Ec. congruence. }
  unfold folded in Ef. rewrite redoAll_app, Es2 in Ef.
  destruct (redoAll_core _ (start (dir s1) (snapshot s1) false) (start (mkDirectory ∅ ∅) (snapshot s1) false) _ eq_refl Eu) as (u' & Eu' & Ecu).
  rewrite Eu' in Ef. simpl in Ef. destruct (redoAll (take k rs) u') as [v|] eqn:Ev; [|done]. simpl in Ef. injection Ef as Ef.
  destruct (redoAll_core _ u' (set_entries (entries u) s1) _ ltac:(unfold core in *; simpl; congruence) Ev) as (v' & Ev' & Ecv).
  exists k, (entries u), v', s3. rewrite Ev'. unfold owed, offset, core in *. split_and!; [|done|done|congruence..].
  injection Ec1 as _ Es1 Ee1. rewrite Es1, Ee1 in Hu3. done.
Qed.

(** C16: a snapshot that contradicts the log is crash-safe.  Installing it writes
    its file, then a truncation marker behind what was buffered; a crash in
    between, or anywhere in the write of the marker, leaves a directory that
    [Open] repairs: it comes up with the snapshot, without the divergent
    suffix, and with the hard state of the synced records and a prefix of the
    buffered ones. *)
Theorem install_crash_repaired s sn :
  wal_reachable s → wf_snap sn → offset s < snIndex sn < u64_mod - 1 → truncates s sn = true →
  segSeq s + 2 < u64_mod →
  ∃ ws bs, buf s = frames bs ∧ folded (snapshot s) (ws ++ bs) = Some (core s) ∧
    (∃ s', disk_ApplySnapshot sn s = Ret (s', None) ∧ core s' = (hardState s, sn, [])) ∧
    ∀ cut,
      (∃ s', Open (crash cut (dir (writeSnapshotFile sn true s))) = Ret (s', None) ∧
         snapshot s' = sn ∧ entries s' = [] ∧ foldedHard (snapshot s) ws = Some (hardState s')) ∧
      ∃ k s', Open (crash cut (dir (inSync (truncating sn s)))) = Ret (s', None) ∧
        snapshot s' = sn ∧ entries s' = [] ∧ foldedHard (snapshot s) (ws ++ take k bs) = Some (hardState s').
Proof.
  intros (ws & bs & Hi)%wal_reachable_inv Hw Ho Ht Hr. exists ws, bs. split; [by destruct Hi|]. split; [|split].
  - destruct (folded_inv s ws bs Hi) as (es & Ef & [->|[He _]]); [done|].
    unfold truncates in Ht. rewrite He, zlen_nil in Ht. apply andb_true_iff in Ht as [Ht%Z.ltb_lt _]. lia.
  - destruct (wal_install s ws bs sn Hi Hw Ho ltac:(lia)) as (s' & E & _ & Hs'). rewrite Ht in Hs'. exists s'. split; [done|apply Hs'].
  - intros cut. split.
    + destruct (wal_crash_install s ws bs sn cut Hi Hw Ho ltac:(lia)) as (s' & E & _ & ?). by exists s'.
    + destruct (wal_crash_marker s ws bs sn cut Hi Hw Ho Hr) as (k & s' & E & _ & ?). by exists k, s'.
Qed.

(** ** Examples *)

Definition ent (t i : Z) : Entry := mkEntry t i EntryNormal [].
Definition after {A B} (c : outcome A) (k : A → B) (d : B) : B := match c with Ret a => k a | Panic _ => d end.
Definition disk0 : Storage := after (Open (mkDirectory ∅ ∅)) fst (fresh_storage (mkDirectory ∅ ∅)).
Definition step_append (es : list Entry) (s : Storage) : Storage := after (disk_AppendEntries es s) fst s.
Definition step_install (sn : Snapshot) (s : Storage) : Storage := after (disk_ApplySnapshot sn s) fst s.

(** Three entries in the buffer. *)
Definition disk3 : Storage := step_append [ent 1 1; ent 1 2; ent 1 3] disk0.

Lemma disk3_reachable : wal_reachable disk3.
Proof.
  apply (wr_append disk0 (ent 1 1) [ent 1 2; ent 1 3] disk3); [by apply wr_open| | |reflexivity].
  - by vm_compute.
  - repeat constructor; vm_compute; (done || lia).
Qed.

Lemma crash_recovery_witness :
  wal_reachable disk3 ∧
  ∃ ws bs es, buf disk3 = frames bs ∧
    folded (snapshot disk3) (ws ++ bs) = Some (hardState disk3, snapshot disk3, es) ∧
    (es = entries disk3 ∨ entries disk3 = [] ∧ 0 < offset disk3) ∧
    ∀ cut, ∃ k s', Open (crash cut (dir (inSync disk3))) = Ret (s', None) ∧
      folded (snapshot disk3) (ws ++ take k bs) = Some (hardState s', snapshot s', entries s').
Proof. split; [apply disk3_reachable|]. apply (crash_recovery disk3); [apply disk3_reachable|by vm_compute]. Defined.

(** The three entries synced, a fourth and a hard state buffered behind them. *)
Definition disk3s : Storage := (Sync disk3).1.
Definition disk4 : Storage := step_append [ent 1 4] disk3s.
Definition hard4 : HardState := mkHardState 1 1 3.
Definition disk4h : Storage := after (disk_SetHardState hard4 disk4) fst disk4.

Lemma disk4h_logs : logs disk3s [REntry (ent 1 4); RHard hard4] disk4h.
Proof.
  apply (logs_hard disk3s [REntry (ent 1 4)] disk4 hard4); [|by vm_compute|reflexivity].
  apply (logs_append disk3s [] disk3s (ent 1 4) [] disk4); [constructor| | |reflexivity].
  - by vm_compute.
  - repeat constructor; vm_compute; (done || lia).
Qed.
Lemma disk3_synced : Sync disk3 = (disk3s, None).
Proof. unfold disk3s. assert (E : (Sync disk3).2 = None) by by vm_compute. rewrite <-E. by destruct (Sync disk3). Qed.

Lemma sync_durable_witness :
  Sync disk3 = (disk3s, None) ∧
  ∃ k es t s3, (es = entries disk3 ∨ entries disk3 = [] ∧ 0 < offset disk3) ∧
    redoAll (take k [REntry (ent 1 4); RHard hard4]) (set_entries es disk3s) = Some t ∧
    Open (crash (λ _, 130%nat) (dir (inSync disk4h))) = Ret (s3, None) ∧
    hardState s3 = hardState t ∧ snapshot s3 = snapshot t ∧ entries s3 = entries t.
Proof.
  destruct (sync_durable disk3 disk3_reachable ltac:(by vm_compute)) as (s1 & E & _ & Hd).
  rewrite disk3_synced in E. injection E as <-. split; [apply disk3_synced|].
  apply Hd; [apply disk4h_logs|by vm_compute].
Defined.

Definition snap (i t : Z) : Snapshot := mkSnapshot (mkSnapshotMetadata i t) [].

Lemma install_crash_repaired_witness :
  wal_reachable disk3 ∧ truncates disk3 (snap 2 9) = true ∧
  ∃ ws bs, buf disk3 = frames bs ∧ folded (snapshot disk3) (ws ++ bs) = Some (core disk3) ∧
    (∃ s', disk_ApplySnapshot (snap 2 9) disk3 = Ret (s', None) ∧ core s' = (hardState disk3, snap 2 9, [])) ∧
    ∀ cut,
      (∃ s', Open (crash cut (dir (writeSnapshotFile (snap 2 9) true disk3))) = Ret (s', None) ∧
         snapshot s' = snap 2 9 ∧ entries s' = [] ∧ foldedHard (snapshot disk3) ws = Some (hardState s')) ∧
      ∃ k s', Open (crash cut (dir (inSync (truncating (snap 2 9) disk3)))) = Ret (s', None) ∧
        snapshot s' = snap 2 9 ∧ entries s' = [] ∧
        foldedHard (snapshot disk3) (ws ++ take k bs) = Some (hardState s').
Proof.
  split; [apply disk3_reachable|]. split; [by vm_compute|].
  apply (install_crash_repaired disk3); [apply disk3_reachable|vm_compute; repeat split; done..].
Defined.

(** A log of three entries whose second is overwritten in a later term, then
    covered by a snapshot at the new last index. *)
Definition stale : Storage := (Sync (step_install (snap 2 2) (step_append [ent 2 2] disk3))).1.

(** Entries that were overwritten can come back.  [ApplySnapshot] drops the
    whole log without a marker when the snapshot reaches its end; replay skips
    the covered entries without truncating behind them, so the third entry,
    overwritten before the snapshot, is in the recovered log although
    everything was synced. *)
Example stale_suffix_returns :
  entries stale = [] ∧ ∃ s', Open (dir stale) = Ret (s', None) ∧ snapshot s' = snap 2 2 ∧ entries s' = [ent 1 3].
Proof. split; [by vm_compute|]. eexists. split; [by vm_compute|]. by vm_compute. Qed.

(** ** The production storage and the simulator's *)

(** The calls that change a [LogStorage]. *)
Inductive storage_op : Type :=
| OpAppend (es : list Entry)
| OpSetHard (h : HardState)
| OpInstall (sn : Snapshot).

Definition apply_op {S} `{LogStorage S} (o : storage_op) (s : S) : outcome (S * error) :=
  match o with
  | OpAppend es => AppendEntries es s
  | OpSetHard h => SetHardState h s
  | OpInstall sn => ApplySnapshot sn s
  end.
(** The storage after the calls, and what each returned. *)
Fixpoint run_ops {S} `{LogStorage S} (os : list storage_op) (s : S) : outcome (S * list error) :=
  match os with
  | [] => Ret (s, [])
  | o :: os =>
      '(s, e) ← apply_op o s;
      '(s, es) ← run_ops os s;
      Ret (s, e :: es)
  end.

Lemma append_open es s s' e : disk_AppendEntries es s = Ret (s', e) → seg s' = seg s.
Proof.
  unfold disk_AppendEntries. case_decide; [by intros [= <- _]|].
  intros (f & _ & (l & _ & E)%outcome_bind_Ret)%outcome_bind_Ret.
  destruct (l <=? _); [by injection E as <- _|].
  apply outcome_bind_Ret in E as ([es' f'] & _ & E). destruct (_ <? _); [by injection E as <- _|].
  apply outcome_bind_Ret in E as (kept & _ & [= <- _]). done.
Qed.
Lemma install_open sn s s' e : is_Some (seg s) → disk_ApplySnapshot sn s = Ret (s', e) → is_Some (seg s').
Proof.
  intros Hs. unfold disk_ApplySnapshot. destruct (_ <=? _); [by intros [= <- _]|].
  intros (b & _ & (es & _ & E)%outcome_bind_Ret)%outcome_bind_Ret. destruct (_ && _); [|by injection E as <- _].
  match type of E with context [syncBuffered true ?x] => set (s2 := x) in E end.
  destruct (syncBuffered_open true s2 Hs) as [He Ho]. destruct (syncBuffered true s2) as [s3 e3]. simpl in He, Ho. subst e3.
  by injection E as <- _.
Qed.
Lemma op_mem o s :
  is_Some (seg s) → mirrored <$> apply_op o s = apply_op o (mirror s) ∧
  ∀ s' e, apply_op o s = Ret (s', e) → is_Some (seg s').
Proof.
  intros Hs. destruct o as [es|h|sn]; simpl.
  - split; [apply disk_append_mem|]. by intros s' e ->%append_open.
  - split; [done|]. by intros s' e [= <- _].
  - split; [by apply disk_install_mem|]. intros s' e. by apply install_open.
Qed.

(** C18: the simulator's storage and the production storage are interchangeable.
    Any sequence of calls returns the same errors, panics on the same calls
    and leaves the same hard state, snapshot and entries; every query answers
    the same. *)
Theorem disk_simulates_mem os s :
  is_Some (seg s) →
  (λ r, (mirror r.1, r.2)) <$> run_ops os s = run_ops os (mirror s) ∧
  ∀ lo hi i, Entries lo hi s = Entries lo hi (mirror s) ∧ TermOf i s = TermOf i (mirror s) ∧
    FirstIndex s = FirstIndex (mirror s) ∧ LastIndex s = LastIndex (mirror s) ∧
    SnapshotOf s = SnapshotOf (mirror s) ∧ HardStateOf s = HardStateOf (mirror s).
Proof.
  intros Hs. split; [|done]. revert s Hs. induction os as [|o os IH]; intros s Hs; [done|]. cbn [run_ops].
  destruct (op_mem o s Hs) as [E Ho]. rewrite <-E. destruct (apply_op o s) as [[s1 e]|]; [|done].
  change (mirrored <$> Ret (s1, e)) with (Ret (mirror s1, e)). cbn [mbind outcome_bind].
  rewrite <-(IH s1) by (by eapply Ho). by destruct (run_ops os s1) as [[s2 es]|].
Qed.

Definition ops3 : list storage_op :=
  [OpAppend [ent 1 1; ent 1 2]; OpSetHard (mkHardState 1 1 1); OpInstall (snap 1 1); OpAppend [ent 1 9]].
Lemma disk_simulates_mem_witness :
  is_Some (seg disk0) ∧ (λ r, (mirror r.1, r.2)) <$> run_ops ops3 disk0 = run_ops ops3 (mirror disk0) ∧
  ∃ m, run_ops ops3 (mirror disk0) = Ret (m, [None; None; None; Some ErrUnavailable]).
Proof.
  assert (Hs : is_Some (seg disk0)) by (vm_compute; by eexists). split; [done|].
  split; [apply (disk_simulates_mem ops3 disk0 Hs)|]. eexists. by vm_compute.
Defined.
