(* ===== verification/ServerSpec.v ===== *)
(** * The runtime's guarantees

    [drain] settles the node in one batch: it writes what the core asked for,
    sends, applies the committed entries in order and acknowledges, without
    panicking.  A request's channel is answered at most once.  The storage is
    any one with the laws of [LogStorageLaws] and a [SyncOf] that leaves what
    the storage presents unchanged. *)

From S2P Require Import Prelude RaftTypes Storage RaftLog ReadOnly Raft Node LogSpec RaftSpec Persist LogSafety Election Replication Batch.
From S2P Require Import KvCodec KvStateMachine Server Framing Disk DiskRecovery DiskWal.

Class SyncLaws (S : Type) `{LogStorageLaws S} `{!SyncStorage S} : Prop :=
  sync_view : ∀ st : S, view (SyncOf st).1 = view st.

(** The production storage. *)
#[global] Instance disk_SyncStorage : SyncStorage disk.Storage := disk.Sync.
#[global] Instance disk_SyncLaws : SyncLaws disk.Storage.
Proof.
  intros st. unfold SyncOf, disk_SyncStorage, disk.Sync. simpl. unfold disk_view. by rewrite syncBuffered_mirror.
Qed.

(** ** The values of a table, up to order *)

Section values.
Context {K A : Type} `{Countable K}.
Implicit Types m : gmap K A.

Lemma values_delete m k v : m !! k = Some v → (map_to_list m).*2 ≡ₚ v :: (map_to_list (delete k m)).*2.
Proof.
  intros Hk. rewrite <-(insert_delete_id m k v Hk) at 1. rewrite map_to_list_insert by apply lookup_delete_eq. done.
Qed.
Lemma values_insert m k v : (map_to_list (<[k:=v]> m)).*2 ⊆+ v :: (map_to_list m).*2.
Proof.
  rewrite <-insert_delete_eq. rewrite map_to_list_insert by apply lookup_delete_eq. simpl. apply submseteq_skip.
  destruct (m !! k) as [v'|] eqn:Hk.
  - rewrite (values_delete m k v' Hk). by apply submseteq_cons.
  - by rewrite delete_id.
Qed.
End values.

(** ** Commands never make the state machine panic *)

Lemma DecodeCommand_total data :
  ∃ r, DecodeCommand data = Ret r ∧ ∀ c, r = Ok c → valid_op (cmdOp c) = true.
Proof.
  rewrite decodeCommand_body. pose proof (runD_finish_inv commandBody _ data parser_command) as Hd.
  destruct (runD _ data) as [[c|]|]; [..|done]; eexists; (split; [done|]); [|done].
  intros c' [= <-]. by destruct Hd as [_ []].
Qed.
Lemma Apply_total c m : valid_op (cmdOp c) = true → ∃ r m', Apply c m = Ret (r, m').
Proof.
  intros Hv. destruct (applyAll_fresh [c] m) as (rs & m' & _ & E & _); [by constructor|].
  simpl in E. unfold mbind, M_bind in E. destruct (Apply c m) as [[r m1]|]; [by eauto|done].
Qed.
Lemma Restore_total bytes m : ∃ e m', Restore bytes m = Ret (e, m').
Proof.
  unfold Restore. pose proof (runD_finish_inv restoreBody _ bytes parser_restore) as Hp.
  destruct (runD _ bytes) as [[m'|e]|]; [by eauto..|done].
Qed.

(** The command an entry carries, if any. *)
Definition decoded (e : Entry) : option Command :=
  if bool_decide (eType e = EntryNormal) && (0 <? zlen (eData e)) then
    match DecodeCommand (eData e) with
    | Ret (Ok c) => Some c
    | _ => None
    end
  else None.
(** Entries without a command, and those whose command decodes. *)
Definition readable (e : Entry) : Prop :=
  eType e = EntryNormal → 0 < zlen (eData e) → is_Some (decoded e).

Lemma applyAll_app cs1 cs2 m rs1 m1 rs2 m2 :
  applyAll cs1 m = Ret (rs1, m1) → applyAll cs2 m1 = Ret (rs2, m2) → applyAll (cs1 ++ cs2) m = Ret (rs1 ++ rs2, m2).
Proof.
  revert m rs1. induction cs1 as [|c cs1 IH]; intros m rs1; simpl; [by intros [= <- <-]|].
  unfold mbind, M_bind. destruct (Apply c m) as [[r m']|]; [|done].
  destruct (applyAll cs1 m') as [[rs m'']|] eqn:E; [|done]. intros [= <- <-] E2. by rewrite (IH m' rs E E2).
Qed.

(** ** Waiters and their channels *)

Section spec.
Context {S : Type} `{LogStorageLaws S} `{!SyncStorage S}.
Implicit Types (s : Server S) (r : raft S) (l : raftLog S).

(** The channels that wait for an answer, and those that have one. *)
Definition waiting s : list Z :=
  (map_to_list (sv_writeWaiters s)).*2 ++ (rw_resp <$> (map_to_list (sv_readWaiters s)).*2).
Definition chans s : list Z := waiting s ++ (sv_answers s).*1.

(** What answering waiters leaves alone. *)
Record keeps s s' : Prop := mkKeeps {
  kp_node : sv_node s' = sv_node s;
  kp_sm : sv_sm s' = sv_sm s;
  kp_applied : sv_applied s' = sv_applied s;
  kp_sent : sv_sent s' = sv_sent s;
  kp_chans : chans s' ≡ₚ chans s
}.
Lemma keeps_refl s : keeps s s.
Proof. by split. Qed.
Lemma keeps_trans s1 s2 s3 : keeps s1 s2 → keeps s2 s3 → keeps s1 s3.
Proof. intros [] []. split; by etrans. Qed.

(** A waiter's channel moves from the table to the answers. *)
Lemma chans_write s k ch o :
  sv_writeWaiters s !! k = Some ch →
  chans (set_writeWaiters (delete k (sv_writeWaiters s)) (set_answers (sv_answers s ++ [(ch, o)]) s)) ≡ₚ chans s.
Proof.
  intros Hk. unfold chans, waiting. simpl. rewrite (values_delete _ _ _ Hk), fmap_app. simpl. solve_Permutation.
Qed.
Lemma chans_read s k w o :
  sv_readWaiters s !! k = Some w →
  chans (set_answers (sv_answers s ++ [(rw_resp w, o)]) (set_readWaiters (delete k (sv_readWaiters s)) s)) ≡ₚ chans s.
Proof.
  intros Hk. unfold chans, waiting. simpl. rewrite (values_delete _ _ _ Hk), fmap_app. simpl. solve_Permutation.
Qed.

Section rules.
Variable pf : Prop.

Lemma wp_answer ch o (Q : () → Server S → Prop) s :
  Q () (set_answers (sv_answers s ++ [(ch, o)]) s) → wp pf (answer ch o) Q s.
Proof. intros HQ. unfold answer. by apply wp_bind, wp_get, wp_modify. Qed.

Lemma wp_serveRead rs s :
  wp pf (serveRead rs) (λ _ s', keeps s s' ∧ sv_pendingReads s' = sv_pendingReads s) s.
Proof.
  unfold serveRead. apply wp_bind, wp_get. destruct (_ !! _) as [w|] eqn:Hk; [|apply wp_ret; by split].
  apply wp_bind, wp_modify, wp_answer. split; [|done]. split; try done. exact (chans_read s _ w _ Hk).
Qed.

Lemma wp_serveLoop rss s :
  wp pf (serveLoop rss) (λ kept s', kept = filter (λ rs, sv_applied s < rsIndex rs) rss ∧
    keeps s s' ∧ sv_pendingReads s' = sv_pendingReads s) s.
Proof.
  revert s. induction rss as [|rs rss IH]; intros s; simpl; [apply wp_ret; by split_and!|].
  apply wp_bind, wp_get. destruct (Z.leb_spec (rsIndex rs) (sv_applied s)).
  - apply wp_bind. eapply wp_mono; [apply wp_serveRead|]. intros _ s1 [Hk1 Hp1]. simpl.
    eapply wp_mono; [apply IH|]. intros kept s2 (-> & Hk2 & Hp2). rewrite (kp_applied _ _ Hk1).
    rewrite filter_cons_False by lia. split_and!; [done|by eapply keeps_trans|by etrans].
  - apply wp_bind. eapply wp_mono; [apply IH|]. intros kept s1 (-> & Hk1 & Hp1). apply wp_ret.
    rewrite filter_cons_True by lia. done.
Qed.

Lemma wp_servePendingReads s :
  wp pf servePendingReads (λ _ s', keeps s s' ∧
    sv_pendingReads s' = filter (λ rs, sv_applied s < rsIndex rs) (sv_pendingReads s)) s.
Proof.
  unfold servePendingReads. apply wp_bind, wp_get. destruct (Z.eqb_spec (zlen (sv_pendingReads s)) 0) as [E|].
  - apply wp_ret. apply zlen_zero in E. rewrite E. split; [by split|done].
  - apply wp_bind. eapply wp_mono; [apply wp_serveLoop|]. intros kept s1 (-> & [] & Hp1). apply wp_modify. split; [|done].
    by split.
Qed.

(** One committed entry: its command is applied, its waiter answered, and the
    reads it completes are served. *)
Lemma wp_applyEntry e s :
  wp pf (applyEntry e) (λ _ s',
    sv_node s' = sv_node s ∧ sv_sent s' = sv_sent s ∧ chans s' ≡ₚ chans s ∧
    (sv_applied s < eIndex e →
      sv_applied s' = eIndex e ∧
      (∃ rs, applyAll (option_list (decoded e)) (sv_sm s) = Ret (rs, sv_sm s')) ∧
      (readable e → sv_pendingReads s' = filter (λ rs, eIndex e < rsIndex rs) (sv_pendingReads s)))) s.
Proof.
  unfold applyEntry. apply wp_bind, wp_get. destruct (Z.leb_spec (eIndex e) (sv_applied s)).
  { apply wp_ret. split_and!; try done. lia. }
  apply wp_bind, wp_modify. unfold decoded, readable.
  destruct (bool_decide (eType e = EntryNormal) && (0 <? zlen (eData e))) eqn:Hcmd.
  - destruct (DecodeCommand_total (eData e)) as (d & Ed & Hv). apply wp_bind. eapply wp_reads_ret; [done|].
    unfold decoded. rewrite Hcmd, Ed. destruct d as [cmd|err].
    + destruct (Apply_total cmd (sv_sm s) (Hv _ eq_refl)) as (res & m' & Ea).
      apply wp_bind, wp_zoom. unfold wp at 1. cbn [sv_sm set_sapplied]. rewrite Ea. apply wp_bind, wp_get.
      set (s1 := set_sm m' _). apply wp_bind.
      apply (wp_mono _ _ (λ _ s2, keeps s1 s2 ∧ sv_pendingReads s2 = sv_pendingReads s1)).
      { destruct (sv_writeWaiters s1 !! _) as [ch|] eqn:Hk; [|apply wp_ret; by split].
        apply wp_bind, wp_answer, wp_bind, wp_get, wp_modify. split; [|done]. split; try done. exact (chans_write s1 _ ch _ Hk). }
      intros _ s2 [[] Hp2]. eapply wp_mono; [apply wp_servePendingReads|]. intros _ s3 [[] Hp3].
      split_and!; [by etrans|by etrans|by etrans|]. intros _. split_and!.
      * by etrans; [|etrans].
      * exists [res]. simpl. unfold mbind, M_bind. rewrite Ea. rewrite kp_sm1, kp_sm0. done.
      * intros _. rewrite Hp3, Hp2, kp_applied0. done.
    + apply wp_ret. split_and!; try done. intros _. split_and!; [done|by exists []|].
      apply andb_true_iff in Hcmd as [?%bool_decide_eq_true ?%Z.ltb_lt]. intros Hr. destruct Hr; done.
  - eapply wp_mono; [apply wp_servePendingReads|]. intros _ s2 [[] Hp2]. split_and!; try done.
    intros _. split_and!; [done| |done]. exists []. simpl. by rewrite kp_sm0.
Qed.

Lemma wp_applyEntries es i s :
  contiguous i es → sv_applied s < i →
  wp pf (forM es applyEntry) (λ _ s',
    sv_node s' = sv_node s ∧ sv_sent s' = sv_sent s ∧ chans s' ≡ₚ chans s ∧
    sv_applied s' = (if decide (es = []) then sv_applied s else i + zlen es - 1) ∧
    (∃ rs, applyAll (omap decoded es) (sv_sm s) = Ret (rs, sv_sm s')) ∧
    (Forall readable es → Forall (λ rs, sv_applied s < rsIndex rs) (sv_pendingReads s) →
      Forall (λ rs, sv_applied s' < rsIndex rs) (sv_pendingReads s'))) s.
Proof.
  revert i s. induction es as [|e es IH]; intros i s; [intros _ _; apply wp_ret; split_and!; try done; by exists []|].
  intros [Hi Hc] Hlt. apply wp_bind. eapply wp_mono; [apply wp_applyEntry|].
  intros _ s1 (En & Es & Ech & Hap). destruct Hap as (Ea & [rs1 Er1] & Hp); [lia|]. simpl.
  eapply wp_mono; [apply (IH (i + 1)); [done|lia]|]. intros _ s2 (En2 & Es2 & Ech2 & Ea2 & [rs2 Er2] & Hp2).
  split_and!; [by etrans|by etrans|by etrans| | |].
  - rewrite Ea2, zlen_cons. destruct (decide (e :: es = [])); [done|]. destruct (decide (es = [])) as [->|]; [change (zlen (@nil Entry)) with 0|]; simpl; lia.
  - exists (rs1 ++ rs2). pose proof (applyAll_app _ _ _ _ _ _ _ Er1 Er2) as Er. simpl. by destruct (decoded e).
  - intros [Hr Hrs]%Forall_cons Hold. apply Hp2; [done|]. rewrite (Hp Hr), Ea. apply Forall_forall.
    intros x [? _]%list_elem_of_filter. done.
Qed.

Lemma wp_releaseRead rs s :
  wp pf (releaseRead rs) (λ _ s', keeps s s' ∧
    (Forall (λ rs, sv_applied s < rsIndex rs) (sv_pendingReads s) →
     Forall (λ rs, sv_applied s < rsIndex rs) (sv_pendingReads s'))) s.
Proof.
  unfold releaseRead. apply wp_bind, wp_get. destruct (Z.leb_spec (rsIndex rs) (sv_applied s)).
  - eapply wp_mono; [apply wp_serveRead|]. intros _ s' [? ->]. done.
  - apply wp_modify. split; [by split|]. simpl. intros ?. apply Forall_app. split; [done|]. by constructor.
Qed.
Lemma wp_releaseReads rss s :
  wp pf (forM rss releaseRead) (λ _ s', keeps s s' ∧
    (Forall (λ rs, sv_applied s < rsIndex rs) (sv_pendingReads s) →
     Forall (λ rs, sv_applied s < rsIndex rs) (sv_pendingReads s'))) s.
Proof.
  apply (wp_forM pf _ _ (λ s', keeps s s' ∧ (Forall (λ rs, sv_applied s < rsIndex rs) (sv_pendingReads s) →
    Forall (λ rs, sv_applied s < rsIndex rs) (sv_pendingReads s')))); [by split; [apply keeps_refl|]| |done].
  intros rs s1 _ [Hk Hp]. eapply wp_mono; [apply wp_releaseRead|]. intros _ s2 [Hk2 Hp2].
  split; [by eapply keeps_trans|]. rewrite <-(kp_applied _ _ Hk) in *. auto.
Qed.

(** Losing the leadership answers every waiter. *)
Lemma wp_failWrites lead kvs s :
  NoDup kvs.*1 → (∀ k ch, (k, ch) ∈ kvs → sv_writeWaiters s !! k = Some ch) →
  wp pf (forM kvs (λ '(k, ch), answer ch (redirect lead);;
    s ← get; modify (set_writeWaiters (delete k (sv_writeWaiters s)))))
    (λ _ s', keeps s s' ∧ sv_readWaiters s' = sv_readWaiters s) s.
Proof.
  revert s. induction kvs as [|[k ch] kvs IH]; intros s Hnd Hin; [apply wp_ret; by split; [apply keeps_refl|]|].
  apply NoDup_cons in Hnd as [Hk Hnd]. apply wp_bind, wp_bind, wp_answer, wp_bind, wp_get, wp_modify. cbn beta iota.
  eapply wp_mono; [apply IH; [done|]|].
  - intros k' ch' Hin'. simpl. rewrite lookup_delete_ne; [apply Hin; by right|]. intros ->. apply Hk.
    by apply (list_elem_of_fmap_2 fst) in Hin'.
  - intros _ s' [Hk' Hr]. split; [|done]. eapply keeps_trans; [|done]. split; try done.
    apply (chans_write s), Hin. by left.
Qed.
Lemma wp_failReads lead kvs s :
  NoDup kvs.*1 → (∀ k w, (k, w) ∈ kvs → sv_readWaiters s !! k = Some w) →
  wp pf (forM kvs (λ '(k, w), answer (rw_resp w) (redirect lead);;
    s ← get; modify (set_readWaiters (delete k (sv_readWaiters s))))) (λ _ s', keeps s s') s.
Proof.
  revert s. induction kvs as [|[k w] kvs IH]; intros s Hnd Hin; [apply wp_ret; apply keeps_refl|].
  apply NoDup_cons in Hnd as [Hk Hnd]. apply wp_bind, wp_bind, wp_answer, wp_bind, wp_get, wp_modify. cbn beta iota.
  eapply wp_mono; [apply IH; [done|]|].
  - intros k' ch' Hin'. simpl. rewrite lookup_delete_ne; [apply Hin; by right|]. intros ->. apply Hk.
    by apply (list_elem_of_fmap_2 fst) in Hin'.
  - intros ? s' Hk'. eapply keeps_trans; [|exact Hk']. split; try done.
    apply (chans_read s), Hin. by left.
Qed.

Lemma wp_checkLeadership s :
  wp pf checkLeadership (λ _ s', keeps s s' ∧ ∀ P, Forall P (sv_pendingReads s) → Forall P (sv_pendingReads s')) s.
Proof.
  unfold checkLeadership. apply wp_bind, wp_get, wp_bind.
  apply (wp_mono _ _ (λ _ s1, keeps s s1 ∧ ∀ P, Forall P (sv_pendingReads s) → Forall P (sv_pendingReads s1))).
  - apply wp_when; intros _; [|by split; [apply keeps_refl|]].
    apply wp_bind. eapply wp_mono; [apply wp_failWrites; [apply NoDup_fst_map_to_list|]|].
    { intros k ch. apply elem_of_map_to_list. }
    intros _ s1 [Hk1 Hr1]. apply wp_bind. eapply wp_mono; [apply wp_failReads; [apply NoDup_fst_map_to_list|]|].
    { intros k w. rewrite Hr1. apply elem_of_map_to_list. }
    intros ? s2 Hk2. apply wp_modify. split; [|by constructor]. destruct (keeps_trans _ _ _ Hk1 Hk2). by split.
  - intros _ s1 [[] Hp]. apply wp_modify. split; [|done]. by split.
Qed.
End rules.

(** ** One answer per request *)

(** The computation only moves channels from the tables to the answers. *)
Definition stable {A} (c : M (Server S) A) : Prop := ∀ s, wp True c (λ _ s', chans s' ≡ₚ chans s) s.

Lemma stable_bind {A B} (c : M (Server S) A) (k : A → M (Server S) B) :
  stable c → (∀ a, stable (k a)) → stable (c ≫= k).
Proof.
  intros Hc Hk s. apply wp_bind. eapply wp_mono; [apply Hc|]. intros a s1 E1. simpl in E1.
  eapply wp_mono; [apply Hk|]. intros b s2 E2. simpl in *. by etrans.
Qed.
Lemma stable_ret {A} (a : A) : stable (mret a).
Proof. intros s. by apply wp_ret. Qed.
Lemma stable_reads {A} (f : Server S → outcome A) : stable (reads f).
Proof. intros s. apply wp_reads. by destruct (f s). Qed.
Lemma stable_forM {A} (l : list A) (f : A → M (Server S) ()) : (∀ x, stable (f x)) → stable (forM l f).
Proof.
  intros Hf. induction l as [|x l IH]; [apply stable_ret|]. apply stable_bind; [apply Hf|]. intros _. exact IH.
Qed.
Lemma stable_onNode {A} (c : M (Node S) A) : stable (onNode c).
Proof. intros s. apply wp_zoom. unfold wp. destruct (c _) as [[a n]|]; [|done]. by change (chans s ≡ₚ chans s). Qed.
Lemma stable_onSM {A} (c : M StateMachine A) : stable (onSM c).
Proof. intros s. apply wp_zoom. unfold wp. destruct (c _) as [[a n]|]; [|done]. by change (chans s ≡ₚ chans s). Qed.
Lemma stable_onStor f ok : stable (onStor f ok).
Proof. intros s. unfold wp, onStor. destruct (f (stor s)) as [[st e]|]; [|done]. by change (chans s ≡ₚ chans s). Qed.
Lemma stable_unless {A} c (k : M (Server S) (result srv_error A)) : stable c → stable k → stable (unless_error c k).
Proof. intros Hc Hk. apply stable_bind; [done|]. intros [e|]; [apply stable_ret|done]. Qed.
Lemma stable_applyEntry e : stable (applyEntry e).
Proof. intros s. eapply wp_mono; [apply wp_applyEntry|]. by intros _ s' (_ & _ & ? & _). Qed.
Lemma stable_releaseRead rs : stable (releaseRead rs).
Proof. intros s. eapply wp_mono; [apply wp_releaseRead|]. by intros _ s' [[] _]. Qed.
Lemma stable_checkLeadership : stable checkLeadership.
Proof. intros s. eapply wp_mono; [apply wp_checkLeadership|]. by intros _ s' [[] _]. Qed.
Create HintDb stable.
#[local] Hint Resolve stable_ret stable_reads stable_forM stable_onNode stable_onSM stable_onStor stable_applyEntry
  stable_releaseRead stable_checkLeadership : stable.

Lemma stable_persistReady rd : stable (persistReady rd).
Proof. unfold persistReady. repeat apply stable_unless; try case_match; auto with stable. Qed.
Lemma stable_applyReady rd : stable (applyReady rd).
Proof.
  unfold applyReady. apply stable_unless.
  - destruct (rdSnapshot rd) as [sn|]; [|auto with stable].
    apply stable_bind; [case_match; auto with stable|]. intros [e|]; [auto with stable|].
    intros s. apply wp_bind, wp_get, wp_bind, wp_when; intros _; [apply wp_modify|]; by apply wp_ret.
  - apply stable_bind; [auto with stable|]. intros _. apply stable_bind; auto with stable.
Qed.
Lemma stable_drainBatch : stable drainBatch.
Proof.
  apply stable_bind; [auto with stable|]. intros rd. apply stable_bind; [apply stable_persistReady|].
  intros [_|e]; [|auto with stable]. apply stable_bind.
  { intros s. apply wp_when; intros _; [|done]. by apply wp_bind, wp_get, wp_modify. }
  intros _. apply stable_bind; [apply stable_applyReady|]. intros [_|e]; [|auto with stable].
  apply stable_bind; auto with stable.
Qed.
Lemma stable_drain fuel : stable (drain fuel).
Proof.
  apply stable_bind; [auto with stable|]. intros _. induction fuel as [|fuel IH]; (apply stable_bind; [auto with stable|]);
    intros [|]; auto with stable.
  apply stable_bind; [apply stable_drainBatch|]. intros [_|e]; auto with stable.
Qed.

(** The channel of a request is new. *)
Definition new_chan (ev : srv_event) : list Z :=
  match ev with EvRequest rq => [rq_resp rq] | _ => [] end.

Lemma wp_handleRequest rq s : wp True (handleRequest rq) (λ _ s', chans s' ⊆+ rq_resp rq :: chans s) s.
Proof.
  assert (Ha : ∀ s1 o, chans (set_answers (sv_answers s1 ++ [(rq_resp rq, o)]) s1) ⊆+ rq_resp rq :: chans s1).
  { intros s1 o. unfold chans. simpl. rewrite fmap_app, app_assoc. simpl. by rewrite Permutation_app_comm. }
  unfold handleRequest. destruct (rq_kind rq) as [cmd|key].
  - apply wp_bind. eapply wp_mono; [apply stable_onNode|]. intros e s1 E. simpl in E.
    apply (wp_mono _ _ (λ _ s', chans s' ⊆+ rq_resp rq :: chans s1)); [|intros ? s2 ?; by rewrite <-E].
    apply wp_bind, wp_get. destruct e; [apply wp_answer, Ha|apply wp_modify].
    apply (submseteq_app _ (_ :: _)); [|done]. apply (submseteq_app _ (_ :: _)); [apply values_insert|done].
  - apply wp_bind, wp_get, wp_bind, wp_modify, wp_bind. eapply wp_mono; [apply stable_onNode|].
    intros e s1 E. simpl in E. change (chans s1 ≡ₚ chans s) in E.
    apply (wp_mono _ _ (λ _ s', chans s' ⊆+ rq_resp rq :: chans s1)); [|intros ? s2 ?; by rewrite <-E].
    apply wp_bind, wp_get. destruct e; [apply wp_answer, Ha|apply wp_modify].
    etrans; [apply submseteq_app; [apply submseteq_app; [done|apply fmap_submseteq, values_insert]|done]|].
    apply Permutation_submseteq. unfold chans, waiting. simpl. solve_Permutation.
Qed.
Lemma wp_srv_step fuel ev s : wp True (srv_step fuel ev) (λ _ s', chans s' ⊆+ new_chan ev ++ chans s) s.
Proof.
  destruct ev as [|m|rq]; simpl; apply wp_bind.
  1, 2: eapply wp_mono; [apply stable_onNode|]; intros ? s1 E; simpl in E;
    eapply wp_mono; [apply stable_drain|]; intros ? s2 E2; simpl in E2; by rewrite E2, E.
  eapply wp_mono; [apply wp_handleRequest|]. intros ? s1 E. eapply wp_mono; [apply stable_drain|].
  intros ? s2 E2. simpl in E2. by rewrite E2.
Qed.

(** C15: every request is answered at most once.  Over any sequence of events of
    the drive loop whose requests come with fresh channels, no channel is sent
    two answers, and one that still waits was sent none: applied entries,
    served reads, redirects and the loss of leadership never answer the same
    caller twice. *)
Theorem answered_once fuel (evs : list srv_event) s o s' :
  NoDup ((evs ≫= new_chan) ++ chans s) → driveLoop fuel evs s = Ret (o, s') →
  NoDup (sv_answers s').*1 ∧ ∀ ch, ch ∈ waiting s' → ch ∉ (sv_answers s').*1.
Proof.
  intros Hnd Hrun. cut (chans s' ⊆+ (evs ≫= new_chan) ++ chans s).
  { intros [k Hk]%submseteq_Permutation. rewrite Hk in Hnd. apply NoDup_app in Hnd as (Hnd & _).
    apply NoDup_app in Hnd as (_ & ? & ?). done. }
  clear Hnd. eapply (wp_run (driveLoop fuel evs) (λ _ s', chans s' ⊆+ _)); [|done]. clear Hrun s' o.
  revert s. induction evs as [|ev evs IH]; intros s; simpl; [by apply wp_ret|].
  apply wp_bind. eapply wp_mono; [apply wp_srv_step|]. intros o s1 Hs1. simpl in Hs1.
  assert (Hle : chans s1 ⊆+ (new_chan ev ++ (evs ≫= new_chan)) ++ chans s) by (rewrite Hs1; solve_submseteq).
  destruct o as [[[]|e]|]; [|by apply wp_ret..]. eapply wp_mono; [apply IH|]. intros o s2 Hs2. simpl in Hs2.
  etrans; [exact Hs2|]. etrans; [apply submseteq_app; [done|exact Hs1]|].
  apply Permutation_submseteq. by rewrite !app_assoc, (Permutation_app_comm _ (new_chan ev)).
Qed.

(** ** One batch settles the node *)

Context `{!SyncLaws S}.

Definition sv_log s : raftLog S := rlog (n_r (sv_node s)).

Lemma wp_onStor (pf : Prop) f (ok : errkind → bool) (Q : option srv_error → Server S → Prop) s (st : S) (e : error) :
  f (stor s) = Ret (st, e) →
  Q (match e with Some e => if ok e then None else Some (ErrStorage e) | None => None end) (putStor st s) →
  wp pf (onStor f ok) Q s.
Proof. intros E HQ. unfold wp, onStor. by rewrite E. Qed.
Lemma wp_unless {A} pf c (k : M (Server S) (result srv_error A)) Q s :
  wp pf c (λ e s', match e with Some e => Q (Err e) s' | None => wp pf k Q s' end) s → wp pf (unless_error c k) Q s.
Proof. intros Hc. apply wp_bind. eapply wp_mono; [exact Hc|]. intros [e|] s'; [intros; by apply wp_ret|done]. Qed.

Lemma set_storage_id l : set_storage (storage l) l = l.
Proof. by destruct l. Qed.
Lemma putStor_id s : putStor (stor s) s = s.
Proof.
  unfold putStor, stor. rewrite set_storage_id. destruct s as [[r pr] sm ap pl rt pd ww rw an se]. by destruct r.
Qed.

(** Each write of [persistReady], seen from the log the batch was taken from. *)
Lemma wp_writeSnapshot s :
  let l := sv_log s in
  log_wf l → persistable l →
  wp False (match u_snapshot (unst l) with
            | Some sn => onStor (ApplySnapshot sn) (λ e, bool_decide (e = ErrCompacted))
            | None => mret None
            end) (λ e s', ∃ st, s' = putStor st s ∧ absLog (set_storage st l) = absLog l ∧ log_wf (set_storage st l) ∧
      based (set_storage st l) ∧ v_hard (view st) = v_hard (view (storage l)) ∧
      (u_snapshot (unst l) = None → e = None)) s.
Proof.
  intros l Hwf Hp. destruct (u_snapshot (unst l)) as [sn|] eqn:Es.
  - destruct (Hp sn Es) as [Ho _]. pose proof Hwf as (Hv & (Hu & _ & Hb) & _). rewrite Es in Hu. pose proof (zlen_nonneg (u_entries (unst l))).
    destruct (law_install (storage l) sn Hv) as (st & e & E & _); [lia|]. eapply wp_onStor; [exact E|].
    destruct (persist_snapshot l sn st e Hwf Hp Es E) as (? & ? & ? & ?). by exists st.
  - apply wp_ret. exists (stor s). rewrite putStor_id. change (stor s) with (storage l).
    rewrite set_storage_id. split_and!; try done. intros sn. by rewrite Es.
Qed.
Lemma wp_writeEntries s :
  let l := sv_log s in
  log_wf l → based l →
  wp False (if 0 <? zlen (u_entries (unst l)) then onStor (AppendEntries (u_entries (unst l))) (λ _, false) else mret None)
    (λ e s', e = None ∧ ∃ st, s' = putStor st s ∧ written l st ∧ v_hard (view st) = v_hard (view (storage l))) s.
Proof.
  intros l Hwf Hb. destruct (u_entries (unst l)) as [|e es] eqn:Ee.
  - apply wp_ret. split; [done|]. exists (stor s). rewrite putStor_id. change (stor s) with (storage l).
    unfold written. rewrite set_storage_id. split_and!; try done. by apply persist_none.
  - rewrite (proj2 (Z.ltb_lt _ _)) by (rewrite zlen_cons; pose proof (zlen_nonneg es); lia).
    pose proof Hwf as (Hv & _).
    destruct (law_append (storage l) e es Hv (unstable_fits l e es Hwf Hb Ee)) as (st & E & _). eapply wp_onStor; [exact E|]. split; [done|]. exists st.
    destruct (persist_entries l e es st Hwf Hb Ee E) as (? & ? & ? & ?). done.
Qed.
Lemma wp_writeHard s h :
  let l := sv_log s in
  written l (storage l) → from_option (λ hs, hsCommit hs ≤ a_last (absLog l)) True h →
  wp False (match h with Some hs => onStor (SetHardState hs) (λ _, false) | None => mret None end)
    (λ e s', e = None ∧ ∃ st, s' = putStor st s ∧ written l st ∧
      v_hard (view st) = default (v_hard (view (storage l))) h) s.
Proof.
  intros l Hw Hc. destruct h as [hs|]; simpl in *.
  - destruct (law_set_hard (storage l) hs) as (st & E).
    { destruct Hw as (_ & Hwf & _). rewrite set_storage_id in Hwf. apply Hwf. }
    { destruct Hw as (_ & _ & Hst). by rewrite (stores_last _ _ Hst). }
    eapply wp_onStor; [exact E|]. split; [done|]. exists st.
    destruct Hw as (_ & Hwf & Hst). rewrite set_storage_id in Hwf.
    destruct (persist_hard l hs st Hwf E) as (? & ? & ? & Hs). unfold written. split_and!; auto.
  - apply wp_ret. split; [done|]. exists (stor s). by rewrite putStor_id.
Qed.
Lemma wp_sync s (b : bool) :
  let l := sv_log s in
  written l (storage l) →
  wp False (if b then onStor (λ st, Ret (SyncOf st)) (λ _, false) else mret None)
    (λ e s', ((∀ st : S, (SyncOf st).2 = None) → e = None) ∧ ∃ st, s' = putStor st s ∧ written l st ∧
      v_hard (view st) = v_hard (view (storage l))) s.
Proof.
  intros l (Ha & Hwf & Hst). rewrite set_storage_id in Hwf. destruct b.
  - pose proof (sync_view (stor s)) as Hv. destruct (SyncOf (stor s)) as [st e] eqn:E. simpl in Hv.
    eapply (wp_onStor _ _ _ _ _ st e); [by rewrite E|]. split.
    + intros Hok. specialize (Hok (stor s)). rewrite E in Hok. simpl in Hok. by rewrite Hok.
    + exists st. destruct (same_view l st Hv) as [? ?]. unfold written, stores. rewrite Hv. split_and!; try done; auto; apply Hst.
  - apply wp_ret. split; [done|]. exists (stor s). rewrite putStor_id. unfold written.
    change (stor s) with (storage l). by rewrite set_storage_id.
Qed.

(** Persisting a batch: the storage alone now holds the log and the hard state. *)
Lemma wp_persistReady s :
  let r := n_r (sv_node s) in
  log_wf (rlog r) → persistable (rlog r) → v_hard (view (storage (rlog r))) = prevHardSt r →
  wp False (persistReady (batch r)) (λ o s', ∃ st, s' = putStor st s ∧
    (o = Ok () → written (rlog r) st ∧ v_hard (view st) = hardState r) ∧
    (u_snapshot (unst (rlog r)) = None → (∀ st : S, (SyncOf st).2 = None) → o = Ok ())) s.
Proof.
  intros r Hwf Hp Hh. unfold persistReady. cbn [rdSnapshot rdEntries rdHardState rdMustSync batch].
  apply wp_unless. eapply wp_mono; [by apply wp_writeSnapshot|]. intros e1 s1 (st1 & -> & Ha1 & Hwf1 & Hb1 & Hh1 & He1).
  destruct e1 as [e1|]; [exists st1; split_and!; [done..|]; intros Hn; by specialize (He1 Hn)|]. clear He1.
  set (l := sv_log s) in *. change (rlog r) with l in *.
  apply wp_unless. eapply wp_mono; [by apply (wp_writeEntries (putStor st1 s))|].
  intros e2 s2 (-> & st2 & -> & Hw2%(written_rebase l st1) & Hh2); [|done]. destruct (Hw2) as (Ha2 & _).
  apply wp_unless. eapply wp_mono; [apply (wp_writeHard (putStor st2 s)); [by apply (written_rebase l st2)|]|].
  { change (sv_log (putStor st2 s)) with (set_storage st2 l). rewrite Ha2. case_bool_decide; [done|]. apply Hwf. }
  intros e3 s3 (-> & st3 & -> & Hw3%(written_rebase l st2) & Hh3); [|done]. destruct (Hw3) as (Ha3 & _).
  apply wp_unless. eapply wp_mono; [apply (wp_sync (putStor st3 s)); by apply (written_rebase l st3)|].
  intros e4 s4 (He4 & st4 & -> & Hw4%(written_rebase l st3) & Hh4); [|done]. simpl in *.
  assert (Hend : written l st4 ∧ v_hard (view st4) = hardState r).
  { split; [done|]. rewrite Hh4, Hh3, Hh2, Hh1. case_bool_decide; simpl; congruence. }
  destruct e4 as [e4|]; [|apply wp_ret]; exists st4; split_and!; try done. intros _ Hok. by specialize (He4 Hok).
Qed.

(** The calls a batch makes on the storage, none of them refused. *)
Definition persists (rd : Ready) (st st' : S) : Prop :=
  ∃ st1 st2 st3,
    match rdSnapshot rd with
    | Some sn => ∃ e, ApplySnapshot sn st = Ret (st1, e) ∧ (e = None ∨ e = Some ErrCompacted)
    | None => st1 = st
    end ∧
    (if 0 <? zlen (rdEntries rd) then AppendEntries (rdEntries rd) st1 = Ret (st2, None) else st2 = st1) ∧
    match rdHardState rd with Some hs => SetHardState hs st2 = Ret (st3, None) | None => st3 = st2 end ∧
    (if rdMustSync rd then SyncOf st3 = (st', None) else st' = st3).

Lemma wp_onStor_any f (ok : errkind → bool) (Q : option srv_error → Server S → Prop) s :
  (∀ st e, f (stor s) = Ret (st, e) →
    Q (match e with Some e => if ok e then None else Some (ErrStorage e) | None => None end) (putStor st s)) →
  wp True (onStor f ok) Q s.
Proof. intros HQ. unfold wp, onStor. destruct (f (stor s)) as [[st e]|]; [|done]. by apply HQ. Qed.
Lemma wp_persists rd s : wp True (persistReady rd) (λ o s', o = Ok () → persists rd (stor s) (stor s')) s.
Proof.
  unfold persistReady. apply wp_unless.
  apply (wp_mono _ _ (λ o s1, o = None → match rdSnapshot rd with
    | Some sn => ∃ e, ApplySnapshot sn (stor s) = Ret (stor s1, e) ∧ (e = None ∨ e = Some ErrCompacted)
    | None => stor s1 = stor s end)).
  { destruct (rdSnapshot rd) as [sn|]; [|by apply wp_ret]. apply wp_onStor_any. intros st e E He. exists e. split; [done|].
    destruct e as [e|]; [|by left]. case_bool_decide; [|done]. right. congruence. }
  intros [e1|] s1 H1; [done|]. specialize (H1 eq_refl). apply wp_unless.
  apply (wp_mono _ _ (λ o s2, o = None →
    if 0 <? zlen (rdEntries rd) then AppendEntries (rdEntries rd) (stor s1) = Ret (stor s2, None) else stor s2 = stor s1)).
  { destruct (0 <? zlen (rdEntries rd)); [|by apply wp_ret]. apply wp_onStor_any. by intros st [e|] E He. }
  intros [e2|] s2 H2; [done|]. specialize (H2 eq_refl). apply wp_unless.
  apply (wp_mono _ _ (λ o s3, o = None →
    match rdHardState rd with Some hs => SetHardState hs (stor s2) = Ret (stor s3, None) | None => stor s3 = stor s2 end)).
  { destruct (rdHardState rd) as [hs|]; [|by apply wp_ret]. apply wp_onStor_any. by intros st [e|] E He. }
  intros [e3|] s3 H3; [done|]. specialize (H3 eq_refl). apply wp_unless.
  apply (wp_mono _ _ (λ o s4, o = None → if rdMustSync rd then SyncOf (stor s3) = (stor s4, None) else stor s4 = stor s3)).
  { destruct (rdMustSync rd); [|by apply wp_ret]. apply wp_onStor_any. intros st [e|] E He; [done|].
    change (SyncOf (stor s3) = (st, None)). by injection E. }
  intros [e4|] s4 H4; [done|]. specialize (H4 eq_refl). apply wp_ret. intros _. by exists (stor s1), (stor s2), (stor s3).
Qed.

(** The state machine a batch starts from: a pending snapshot is restored. *)
Definition installs (sn : option RaftTypes.Snapshot) (m m' : StateMachine) : Prop :=
  match sn with
  | Some sn => if 0 <? zlen (snData sn) then Restore (snData sn) m = Ret (None, m') else m' = m
  | None => m' = m
  end.
(** How far the state machine is, relative to the core's applied index [i]. *)
Definition in_step (sn : option RaftTypes.Snapshot) (ap i : Z) : Prop :=
  match sn with
  | Some sn => ap ≤ snIndex sn ∧ snIndex sn = i
  | None => ap = i
  end.
(** Every confirmed read that waits is above what is applied. *)
Definition reads_wait s : Prop := Forall (λ rs, sv_applied s < rsIndex rs) (sv_pendingReads s).

Lemma wp_installSnapshot sn s i :
  in_step sn (sv_applied s) i →
  wp False (match sn with
            | Some sn =>
                e ← (if 0 <? zlen (snData sn) then onSM (Restore (snData sn)) else mret None);
                match e with
                | Some e => mret (Some (ErrRestore e))
                | None =>
                    s ← get;
                    when (sv_applied s <? snIndex sn) (modify (set_sapplied (snIndex sn)));;
                    mret None
                end
            | None => mret None
            end)
    (λ e s', sv_node s' = sv_node s ∧ sv_sent s' = sv_sent s ∧ (sn = None → e = None ∧ s' = s) ∧
      (e = None → sv_applied s' = i ∧ installs sn (sv_sm s) (sv_sm s'))) s.
Proof.
  intros Hst. destruct sn as [sn|]; [|by apply wp_ret]. destruct Hst as [Hle <-]. apply wp_bind.
  apply (wp_mono _ _ (λ e s1, sv_node s1 = sv_node s ∧ sv_sent s1 = sv_sent s ∧ sv_applied s1 = sv_applied s ∧
    (e = None → installs (Some sn) (sv_sm s) (sv_sm s1)))).
  - unfold installs. destruct (0 <? zlen (snData sn)); [|by apply wp_ret].
    destruct (Restore_total (snData sn) (sv_sm s)) as (e & m & E). apply wp_zoom. unfold wp. rewrite E. simpl.
    split_and!; try done. by intros ->.
  - intros [e|] s1 (En & Es & Ea & Hi); [by apply wp_ret|]. specialize (Hi eq_refl).
    apply wp_bind, wp_get, wp_bind, wp_when; rewrite ?Z.ltb_lt, ?Z.ltb_ge; intros Hlt; [apply wp_modify|]; apply wp_ret;
      (split_and!; try done); intros _; split; simpl; try done. lia.
Qed.

Lemma wp_applyReady s rd i :
  contiguous (i + 1) (rdCommittedEntries rd) → in_step (rdSnapshot rd) (sv_applied s) i →
  wp False (applyReady rd) (λ o s', sv_node s' = sv_node s ∧ sv_sent s' = sv_sent s ∧
    (o = Ok () → sv_applied s' = i + zlen (rdCommittedEntries rd) ∧
       ∃ m rs, installs (rdSnapshot rd) (sv_sm s) m ∧
         applyAll (omap decoded (rdCommittedEntries rd)) m = Ret (rs, sv_sm s')) ∧
    (rdSnapshot rd = None → o = Ok () ∧
       (Forall readable (rdCommittedEntries rd) → reads_wait s → reads_wait s'))) s.
Proof.
  intros Hc Hst. apply wp_unless. eapply wp_mono; [by apply wp_installSnapshot|].
  intros [e|] s1 (En1 & Es1 & Hn1 & Hi1). { split_and!; try done. intros Hn. by destruct (Hn1 Hn). }
  destruct (Hi1 eq_refl) as [Ea1 Hi]. apply wp_bind. eapply wp_mono; [apply (wp_applyEntries _ _ (i + 1)); [done|lia]|].
  intros _ s2 (En2 & Es2 & _ & Ea2 & [rs Er] & Hr2). apply wp_bind. eapply wp_mono; [apply wp_releaseReads|].
  intros _ s3 [[] Hr3]. apply wp_ret. split_and!; [congruence..| |].
  - intros _. split; [|exists (sv_sm s1), rs; by rewrite kp_sm0]. rewrite kp_applied0, Ea2, Ea1.
    destruct (decide _) as [->|]; [change (zlen (@nil Entry)) with 0|]; lia.
  - intros Hn. split; [done|]. destruct (Hn1 Hn) as [_ ->]. unfold reads_wait. rewrite kp_applied0. auto.
Qed.

(** ** The whole of [drain] *)

(** What the drive loop keeps between its iterations. *)
Record runs s : Prop := mkRuns {
  rn_wf : log_wf (sv_log s);
  rn_persist : persistable (sv_log s);
  rn_pending : pendingReady (sv_node s) = None;
  rn_hard : v_hard (view (storage (sv_log s))) = prevHardSt (n_r (sv_node s));
  rn_applied : in_step (u_snapshot (unst (sv_log s))) (sv_applied s) (applied (sv_log s))
}.
(** The entries the batch applies. *)
Definition to_apply s : list Entry := a_slice (absLog (sv_log s)) (applied (sv_log s) + 1) (committed (sv_log s) + 1).

(** [s'] is [s] settled: nothing pending in the core, the storage holds the log
    and the hard state, the committed entries were applied in order, and the
    messages were sent. *)
Record settles s s' : Prop := mkSettles {
  se_quiet : HasReady (sv_node s') = Ret false;
  se_runs : runs s';
  se_settled : settled (sv_log s');
  se_log : absLog (sv_log s') = absLog (sv_log s);
  se_stores : stores (stor s') (absLog (sv_log s));
  se_hard : v_hard (view (stor s')) = hardState (n_r (sv_node s));
  se_committed : committed (sv_log s') = committed (sv_log s);
  se_applied : sv_applied s' = committed (sv_log s);
  se_sm : ∃ m rs, installs (u_snapshot (unst (sv_log s))) (sv_sm s) m ∧
    applyAll (omap decoded (to_apply s)) m = Ret (rs, sv_sm s');
  se_sent : sv_sent s' = sv_sent s ++ msgs (n_r (sv_node s));
  se_prs : prs (n_r (sv_node s')) = prs (n_r (sv_node s));
  se_persist : persists (batch (n_r (sv_node s))) (stor s) (stor s')
}.

Lemma acknowledged_settles s s' n' st :
  runs s → written (sv_log s) st → v_hard (view st) = hardState (n_r (sv_node s)) →
  acknowledged (n_r (sv_node s)) st n' →
  sv_applied s' = committed (sv_log s) → sv_sent s' = sv_sent s ++ msgs (n_r (sv_node s)) →
  (∃ m rs, installs (u_snapshot (unst (sv_log s))) (sv_sm s) m ∧
    applyAll (omap decoded (to_apply s)) m = Ret (rs, sv_sm s')) →
  persists (batch (n_r (sv_node s))) (stor s) st →
  settles s (set_node n' s').
Proof.
  intros [] (_ & _ & Hst) Hh Hack Ea Es Hsm Hper. pose proof (absLog_wf _ rn_wf0) as Haw. pose proof rn_wf0 as (_ & _ & ? & ?).
  destruct (settled_wf st (mkUnstable None [] (a_last (absLog (sv_log s)) + 1)) (committed (sv_log s)) (committed (sv_log s))
    (absLog (sv_log s)) Haw Hst eq_refl) as [Ha Hwf]; [lia|done|].
  pose proof (ak_log _ _ _ Hack) as El. unfold sv_log in *.
  assert (Hwf' : log_wf (rlog (n_r n'))) by (by rewrite El).
  split; unfold stor, sv_log; cbn [sv_node set_node sv_sm sv_applied sv_sent]; rewrite ?El; try done.
  - by eapply acknowledged_quiet.
  - split; unfold sv_log; cbn [sv_node set_node sv_applied]; rewrite ?El; try done.
    + apply Hack.
    + simpl. by rewrite Hh, (ak_prev _ _ _ Hack).
  - apply Hack.
Qed.

Lemma wp_drainBatch s :
  runs s →
  wp False drainBatch (λ o s', (o = Ok () → settles s s') ∧
    (u_snapshot (unst (sv_log s)) = None →
      ((∀ st : S, (SyncOf st).2 = None) → o = Ok ()) ∧
      (o = Ok () → Forall readable (to_apply s) → reads_wait s → reads_wait s'))) s.
Proof.
  intros Hruns. destruct (Hruns) as []. destruct (next_ents _ rn_wf0) as [Hlen Hcont].
  unfold drainBatch. apply wp_bind, wp_zoom, wp_bind. eapply wp_reads_ret; [by apply ReadyOf_batch|].
  apply wp_bind, wp_modify, wp_ret. set (r := n_r (sv_node s)) in *. set (s1 := set_node _ s).
  apply wp_bind. eapply wp_mono; [eapply wp_and_partial; [by apply (wp_persistReady s1)|apply wp_persists]|].
  intros o1 s2 [(st & -> & Hw & Hok1) Hper]. destruct o1 as [[]|e].
  2: { apply wp_ret. split; [done|]. intros Hn. split; [|done]. intros Hs. by specialize (Hok1 Hn Hs). }
  destruct (Hw eq_refl) as [Hwr Hh]. specialize (Hper eq_refl). apply wp_bind.
  apply (wp_mono _ _ (λ _ s3, s3 = set_sent (sv_sent s ++ msgs r) (putStor st s1))).
  { apply wp_when; cbn [rdMessages batch]; [intros _; by apply wp_bind, wp_get, wp_modify|].
    intros Hz%Z.ltb_ge. assert (msgs r = []) as -> by (apply zlen_zero; pose proof (zlen_nonneg (msgs r)); lia).
    rewrite app_nil_r. by destruct s. }
  intros _ ? ->. set (s3 := set_sent _ _). apply wp_bind. eapply wp_mono; [by apply (wp_applyReady s3 _ (applied (rlog r)))|].
  intros [[]|e] s4 (En & Es & Hap & Hn).
  2: { apply wp_ret. split; [done|]. intros Hn'. by destruct (Hn Hn'). }
  destruct (Hap eq_refl) as (Ea & Hsm). apply wp_bind, wp_zoom. rewrite En.
  eapply wp_mono; [by apply (wp_Advance r st)|]. intros ? n' Hack. apply wp_ret. split.
  - intros _. eapply acknowledged_settles; try done. rewrite Ea.
    change (applied (sv_log s) + zlen (to_apply s) = committed (sv_log s)). unfold to_apply. rewrite Hlen. lia.
  - intros Hn'. split; [done|]. intros _ Hre Hrw. by apply (Hn Hn').
Qed.

Lemma quiet_settles s : runs s → HasReady (sv_node s) = Ret false → settles s s.
Proof.
  intros Hr Hq. destruct (Hr) as []. destruct (HasReady_cases _ rn_wf0) as (b & E & Hb).
  assert (En : sv_node s = mkNode (n_r (sv_node s)) None) by (rewrite <-rn_pending0; by destruct (sv_node s)).
  rewrite En, E in Hq. injection Hq as ->. destruct (Hb eq_refl) as (Hm & Hset & Hap & Hh). fold (sv_log s) in *.
  destruct (Hset) as [Hsn Hue]. rewrite Hsn in rn_applied0. simpl in rn_applied0.
  split; try done.
  - by rewrite En, E.
  - apply persist_none; [done| |done]. intros sn. by rewrite Hsn.
  - unfold stor. by rewrite Hh.
  - congruence.
  - exists (sv_sm s), []. rewrite Hsn. split; [done|]. unfold to_apply. rewrite Hap.
    replace (a_slice _ _ _) with (@nil Entry); [done|]. unfold a_slice. by rewrite Z.sub_diag.
  - by rewrite Hm, app_nil_r.
  - exists (stor s), (stor s), (stor s). cbn [batch rdSnapshot rdEntries rdHardState rdMustSync]. fold (sv_log s).
    rewrite Hsn, Hue, Hh. rewrite bool_decide_true by done. done.
Qed.
Lemma keeps_settles s s1 s' : keeps s s1 → settles s1 s' → settles s s'.
Proof.
  intros [] []. split; unfold to_apply, sv_log, stor in *; rewrite <-?kp_node0, <-?kp_sm0, <-?kp_applied0, <-?kp_sent0; done.
Qed.
Lemma keeps_runs s s1 : keeps s s1 → runs s → runs s1.
Proof. intros [] []. split; unfold sv_log; by rewrite ?kp_node0, ?kp_applied0. Qed.

Lemma wp_drainLoop fuel s :
  runs s →
  wp False (drainLoop (Datatypes.S fuel)) (λ o s', ∃ x, o = Some x ∧ (x = Ok () → settles s s') ∧
    (u_snapshot (unst (sv_log s)) = None →
      ((∀ st : S, (SyncOf st).2 = None) → x = Ok ()) ∧
      (x = Ok () → Forall readable (to_apply s) → reads_wait s → reads_wait s'))) s.
Proof.
  intros Hr. cbn [drainLoop]. destruct (HasReady_cases _ (rn_wf _ Hr)) as (b & E & _). apply wp_bind.
  assert (En : HasReady (sv_node s) = Ret b) by (rewrite <-E, <-(rn_pending _ Hr); by destruct (sv_node s)).
  eapply wp_reads_ret; [exact En|]. destruct b.
  - apply wp_bind. eapply wp_mono; [by apply wp_drainBatch|]. intros [[]|e] s1 [Hset Hn].
    + destruct (Hset eq_refl) as []. destruct fuel as [|fuel]; cbn [drainLoop]; apply wp_bind; (eapply wp_reads_ret; [exact se_quiet0|]);
        apply wp_ret; exists (Ok ()); split_and!; try done; by apply Hset.
    + apply wp_ret. exists (Err e). by split_and!.
  - apply wp_ret. exists (Ok ()). split_and!; try done. intros _. by apply quiet_settles.
Qed.

(** C9: [drain] finishes the work of the core in one batch.  It does not panic
    and does not run out of rounds; when it reports no error, the storage holds
    the log and the hard state, the messages were handed to the transport, a
    pending snapshot was restored, the commands of the committed entries were
    applied in order, and the core has nothing more to hand out.  Without a
    snapshot to install it fails only if the sync fails. *)
Theorem drain_settles fuel s :
  runs s →
  ∃ x s', drain (Datatypes.S fuel) s = Ret (Some x, s') ∧ (x = Ok () → settles s s') ∧
    (u_snapshot (unst (sv_log s)) = None → (∀ st : S, (SyncOf st).2 = None) → x = Ok ()).
Proof.
  intros Hr. cut (wp False (drain (Datatypes.S fuel)) (λ o s', ∃ x, o = Some x ∧ (x = Ok () → settles s s') ∧
    (u_snapshot (unst (sv_log s)) = None → (∀ st : S, (SyncOf st).2 = None) → x = Ok ())) s).
  { intros (o & s' & E & x & -> & Hx)%wp_total. by exists x, s'. }
  apply wp_bind. eapply wp_mono; [apply wp_checkLeadership|]. intros _ s1 [Hk _].
  eapply wp_mono; [by apply wp_drainLoop, (keeps_runs s)|]. intros o s' (x & -> & Hset & Hn). exists x.
  split_and!; [done|intros Hx; by eapply keeps_settles, Hset|]. unfold sv_log in *. rewrite (kp_node _ _ Hk) in Hn.
  intros Hu. by apply (Hn Hu).
Qed.

(** If every read that waits is above the applied index, as it is initially,
    then after [drain] it still is, when no snapshot is installed and every
    applied command decodes. *)
Lemma reads_not_stranded fuel s s' :
  runs s → u_snapshot (unst (sv_log s)) = None → Forall readable (to_apply s) → reads_wait s →
  drain (Datatypes.S fuel) s = Ret (Some (Ok ()), s') → reads_wait s'.
Proof.
  intros Hr Hu Hre Hw Hrun.
  cut (wp True (drain (Datatypes.S fuel)) (λ o s', o = Some (Ok ()) → reads_wait s') s).
  { intros Hwp. by apply (wp_run _ _ _ _ _ Hwp Hrun). }
  apply wp_bind. eapply wp_mono; [apply wp_checkLeadership|]. intros _ s1 [Hk Hp].
  eapply wp_mono; [eapply wp_partial; by apply wp_drainLoop, (keeps_runs s)|]. intros o s2 (x & -> & _ & Hn) [= ->].
  unfold reads_wait, to_apply, sv_log in *. rewrite (kp_node _ _ Hk), (kp_applied _ _ Hk) in Hn. apply (Hn Hu); auto.
Qed.

(** The storage calls of a batch, each within what the storage accepts. *)
Lemma persists_inv s st' :
  runs s → persists (batch (n_r (sv_node s))) (stor s) st' →
  let r := n_r (sv_node s) in
  ∃ st1 st2 st3,
    match u_snapshot (unst (rlog r)) with
    | Some sn => v_off (view (stor s)) < snIndex sn < u64_mod - 1 ∧ view st1 = mkView (v_hard (view (stor s))) sn [] ∧
                 ∃ e, ApplySnapshot sn (stor s) = Ret (st1, e) ∧ (e = None ∨ e = Some ErrCompacted)
    | None => st1 = stor s
    end ∧
    match u_entries (unst (rlog r)) with
    | e :: es => append_ok (view st1) e es ∧ AppendEntries (e :: es) st1 = Ret (st2, None) ∧
                 v_snap (view st2) = v_snap (view st1)
    | [] => st2 = st1
    end ∧
    (if bool_decide (hardState r = prevHardSt r) then st3 = st2 else SetHardState (hardState r) st2 = Ret (st3, None)) ∧
    (if rdMustSync (batch r) then SyncOf st3 = (st', None) else st' = st3).
Proof.
  intros [] (st1 & st2 & st3 & H1 & H2 & H3 & H4) r. cbn [batch rdSnapshot rdEntries rdHardState] in H1, H2, H3. fold r in H1, H2, H3, H4.
  set (l := sv_log s) in *. change (rlog r) with l in *.
  assert (Hl1 : log_wf (set_storage st1 l) ∧ based (set_storage st1 l)).
  { destruct (u_snapshot (unst l)) as [sn|] eqn:Es.
    - destruct H1 as (e & E & _). by destruct (persist_snapshot l sn st1 e rn_wf0 rn_persist0 Es E) as (_ & ? & ? & _).
    - subst st1. change (stor s) with (storage l). rewrite set_storage_id. split; [done|]. intros sn. by rewrite Es. }
  destruct Hl1 as [Hwf1 Hb1]. exists st1, st2, st3. split_and!; [| | |done].
  - destruct (u_snapshot (unst l)) as [sn|] eqn:Es; [|done]. destruct H1 as (e & E & He).
    destruct (rn_persist0 sn Es) as [Ho Hi]. pose proof rn_wf0 as (Hv & (Hu & _ & Hb) & _). rewrite Es in Hu.
    pose proof (zlen_nonneg (u_entries (unst l))). assert (Hr : v_off (view (stor s)) < snIndex sn < u64_mod - 1) by (change (stor s) with (storage l); lia).
    split; [done|]. split; [|by exists e]. destruct (law_install (stor s) sn Hv Hr) as (st & e' & E' & Hview).
    rewrite E in E'. injection E' as <- <-. rewrite Hview. f_equal. exact Hi.
  - destruct (u_entries (unst l)) as [|e es] eqn:Ee; [done|].
    rewrite (proj2 (Z.ltb_lt _ _)) in H2 by (rewrite zlen_cons; pose proof (zlen_nonneg es); lia).
    pose proof (unstable_fits (set_storage st1 l) e es Hwf1 Hb1 Ee) as Hf. pose proof Hwf1 as (Hv1 & _).
    destruct (law_append st1 e es Hv1 Hf) as (st & E & Hview). rewrite H2 in E. injection E as <-. by rewrite Hview.
  - case_bool_decide; done.
Qed.
(** The stored snapshot is the installed one, if any. *)
Lemma persists_snap s st' :
  runs s → persists (batch (n_r (sv_node s))) (stor s) st' →
  v_snap (view st') = default (v_snap (view (stor s))) (u_snapshot (unst (sv_log s))).
Proof.
  intros Hr Hp. destruct (persists_inv s st' Hr Hp) as (st1 & st2 & st3 & H1 & H2 & H3 & H4).
  change (rlog (n_r (sv_node s))) with (sv_log s) in *.
  assert (E1 : v_snap (view st1) = default (v_snap (view (stor s))) (u_snapshot (unst (sv_log s)))).
  { destruct (u_snapshot (unst (sv_log s))) as [sn|]; [|by subst]. destruct H1 as (_ & Ev & _). by rewrite Ev. }
  assert (E2 : v_snap (view st2) = v_snap (view st1)).
  { destruct (u_entries (unst (sv_log s))); [by subst|]. by destruct H2 as (_ & _ & ?). }
  assert (E3 : v_snap (view st3) = v_snap (view st2)).
  { destruct (bool_decide _); [by subst|]. by rewrite (law_set_hard_view _ _ _ _ H3). }
  assert (E4 : view st' = view st3).
  { destruct (rdMustSync _); [|by subst]. pose proof (sync_view st3) as Hs. by rewrite H4 in Hs. }
  congruence.
Qed.

(** ** An iteration of the drive loop *)

(** The server between two events. *)
Record fit s : Prop := mkFit {
  ft_runs : runs s;
  ft_settled : settled (sv_log s);
  ft_node : node_wf (n_r (sv_node s))
}.
(** The node took a step; the rest of the server is as before. *)
Record stepped_srv s s' : Prop := mkSteppedSrv {
  ss_node : moves evolves (n_r (sv_node s)) (n_r (sv_node s'));
  ss_pending : pendingReady (sv_node s') = pendingReady (sv_node s);
  ss_sm : sv_sm s' = sv_sm s;
  ss_applied : sv_applied s' = sv_applied s
}.
Definition event_ok (ev : srv_event) : Prop :=
  match ev with EvRecv m => msg_ok m | _ => True end.
(** How many entries the event can add at the end of the log. *)
Definition event_room (ev : srv_event) : Z :=
  match ev with EvRecv m => 1 + zlen (mEntries m) | _ => 2 end.

Lemma wp_onNode_Step m s (Q : error → Server S → Prop) :
  node_wf (n_r (sv_node s)) → msg_ok m → room (n_r (sv_node s)) (1 + zlen (mEntries m)) →
  (∀ e s', stepped_srv s s' → Q e s') → wp True (onNode (Node_Step m)) Q s.
Proof.
  intros Hn Hm Hroom HQ. apply wp_zoom, wp_zoom. eapply wp_mono; [by apply wp_Step|]. intros e r' Hmv. by apply HQ.
Qed.
Lemma wp_event ev s (k : M (Server S) (option (result srv_error ()))) Q :
  node_wf (n_r (sv_node s)) → event_ok ev → room (n_r (sv_node s)) (event_room ev) →
  (∀ s1, stepped_srv s s1 → wp True k Q s1) →
  wp True (match ev with
           | EvTick => onNode Node_Tick;; k
           | EvRecv m => _ ← onNode (Node_Step m); k
           | EvRequest rq => handleRequest rq;; k
           end) Q s.
Proof.
  intros Hn Hok Hroom Hk. destruct ev as [|m|rq]; simpl in *; apply wp_bind.
  - apply wp_zoom, wp_zoom. eapply wp_mono; [apply wp_tick; [done|unfold room in *; lia]|].
    intros ? r' Hmv. apply Hk. split; try done. by apply moves_appends.
  - by apply wp_onNode_Step.
  - unfold handleRequest. destruct (rq_kind rq) as [cmd|key].
    + apply wp_bind, wp_onNode_Step; [done..|]. intros e s1 []. apply wp_bind, wp_get.
      destruct e; [apply wp_answer|apply wp_modify]; apply Hk; by split.
    + apply wp_bind, wp_get, wp_bind, wp_modify, wp_bind, wp_onNode_Step; [done|done|unfold room in *; cbn [mEntries set_mContext Msg]; change (zlen (@nil Entry)) with 0; simpl; lia|].
      intros e s1 []. apply wp_bind, wp_get. destruct e; [apply wp_answer|apply wp_modify]; apply Hk; by split.
Qed.

Lemma stepped_runs s s1 : fit s → stepped_srv s s1 → runs s1.
Proof.
  intros [[] Hset Hn] [[Hwf Hp Hl] Hpd Hsm Hap]. destruct (Hset) as [Hsn _]. rewrite Hsn in rn_applied0. simpl in rn_applied0.
  pose proof Hwf as [Hlw _]. unfold sv_log in *. destruct Hl as [[]|[sn []]].
  - split; unfold sv_log.
    + exact Hlw.
    + intros sn. by rewrite gr_snap, Hsn.
    + by rewrite Hpd.
    + by rewrite gr_storage, Hp.
    + rewrite gr_snap, Hsn, Hap, gr_applied. exact rn_applied0.
  - split; unfold sv_log.
    + exact Hlw.
    + intros sn'. rewrite re_snap. intros [= <-]. rewrite re_storage. by apply settled_install.
    + by rewrite Hpd.
    + by rewrite re_storage, Hp.
    + rewrite re_snap. simpl. pose proof rn_wf0 as (_ & _ & ? & _). rewrite Hap, re_applied. split; [lia|done].
Qed.

(** An iteration without error: the node steps, then everything settles. *)
Lemma event_settles fuel ev s o s' :
  fit s → event_ok ev → room (n_r (sv_node s)) (event_room ev) → srv_step (Datatypes.S fuel) ev s = Ret (o, s') →
  ∃ x, o = Some x ∧ (x = Ok () → ∃ s1, stepped_srv s s1 ∧ settles s1 s').
Proof.
  intros Hfit Hok Hroom Hrun.
  refine (wp_run _ (λ o s', ∃ x, o = Some x ∧ (x = Ok () → ∃ s1, stepped_srv s s1 ∧ settles s1 s')) _ _ _ _ Hrun). unfold srv_step.
  apply (wp_event ev s (drain (Datatypes.S fuel))); [apply Hfit|done..|]. intros s1 Hst.
  pose proof (stepped_runs _ _ Hfit Hst) as Hr1. apply wp_bind. eapply wp_mono; [apply wp_checkLeadership|]. intros _ s2 [Hk _].
  eapply wp_mono; [eapply wp_partial, wp_drainLoop; by apply (keeps_runs s1)|]. intros ? s3 (x & -> & Hset & _).
  exists x. split; [done|]. intros Hx. exists s1. split; [done|]. exact (keeps_settles _ _ _ Hk (Hset Hx)).
Qed.
Lemma settles_fit s s1 s' : stepped_srv s s1 → settles s1 s' → fit s'.
Proof. intros [[Hwf _ _] _ _ _] []. split; [done..|]. split; [apply se_runs0|by rewrite se_prs0; apply Hwf]. Qed.

(** C10: one iteration of the drive loop on any event (tick, well-formed received
    message, write, read), while indices and terms have room to grow, keeps the server well-formed: when it reports no error, the
    core is idle, the state machine is at the commit index, the commit index
    did not fall, and the committed entries are unchanged. *)
Theorem event_keeps_server fuel ev s o s' :
  fit s → event_ok ev → room (n_r (sv_node s)) (event_room ev) →
  srv_step (Datatypes.S fuel) ev s = Ret (o, s') →
  ∃ x, o = Some x ∧ (x = Ok () →
    fit s' ∧ HasReady (sv_node s') = Ret false ∧ sv_applied s' = committed (sv_log s') ∧
    committed (sv_log s) ≤ committed (sv_log s') ∧
    ∀ i, a_base (absLog (sv_log s')) < i ≤ committed (sv_log s) →
      a_get (absLog (sv_log s')) i = a_get (absLog (sv_log s)) i).
Proof.
  intros Hfit Hok Hroom Hrun. destruct (event_settles fuel ev s o s' Hfit Hok Hroom Hrun) as (x & -> & Hx).
  exists x. split; [done|]. intros Hok'. destruct (Hx Hok') as (s1 & Hst & Hset). pose proof (settles_fit _ _ _ Hst Hset) as Hf.
  destruct Hst as [[Hwf Hp Hl] _ _ _], Hset. split; [done|]. split; [done|]. split; [congruence|]. rewrite se_committed0, se_log0. unfold sv_log in *.
  destruct Hl as [[]|[sn []]]; (split; [lia|]).
  - intros i [_ Hi]. auto.
  - rewrite re_log. simpl. lia.
Qed.

(** ** Restarting *)

(** What [newRaft] builds from a storage whose commit index is within its log. *)
Lemma newRaft_log c (st : S) r :
  view_wf (view st) → v_off (view st) ≤ hsCommit (v_hard (view st)) →
  newRaft c st = Ret (Ok r) →
  node_wf r ∧ settled (rlog r) ∧ storage (rlog r) = st ∧ prevHardSt r = v_hard (view st) ∧
  hardState r = v_hard (view st) ∧ applied (rlog r) = v_off (view st) ∧ stores st (absLog (rlog r)).
Proof.
  intros Hv Hc E. destruct (newRaft_boots c st r Hv E) as [].
  assert (hardState r = v_hard (view st)).
  { unfold hardState. rewrite bt_Term, bt_Vote, bt_committed, Z.max_r by done. by destruct (v_hard (view st)). }
  split_and!; try done; [apply bt_wf|congruence].
Qed.

(** The state machine of a fresh server: the stored snapshot's. *)
Definition boots (sn : RaftTypes.Snapshot) (m : StateMachine) : Prop :=
  if (0 <? snIndex sn) && (0 <? zlen (snData sn)) then Restore (snData sn) NewStateMachine = Ret (None, m)
  else m = NewStateMachine.

Lemma NewServer_inv c ids rnd (st : S) s2 :
  0 ≤ snIndex (v_snap (view st)) → NewServer c ids rnd st = Ret (Ok s2) →
  ∃ rc r, newRaft rc st = Ret (Ok r) ∧ sv_node s2 = mkNode r None ∧
    sv_applied s2 = snIndex (v_snap (view st)) ∧ boots (v_snap (view st)) (sv_sm s2).
Proof.
  intros Hz. unfold NewServer, boots. destruct (_ =? 0); [done|]. destruct (negb _); [done|].
  intros ([node|e] & En & E)%outcome_bind_Ret; [|done]. unfold NewNode in En. destruct (validate _); [done|].
  apply outcome_bind_Ret in En as ([r|e] & Er & [= <-]). eexists _, r. split; [exact Er|]. rewrite law_snap in E. simpl in E.
  destruct (Z.ltb_spec 0 (snIndex (v_snap (view st)))); simpl; [|injection E as <-; simpl; split_and!; [done|lia|done]].
  destruct (0 <? zlen _); [|by injection E as <-].
  apply outcome_bind_Ret in E as ([[e|] m] & Em & [= <-]). done.
Qed.

End spec.

(** ** Examples *)

(** The one server of a cluster of one, leader in term 1, on an empty disk. *)
Definition raft1 : raft disk.Storage :=
  mkRaft (mkConfig 1 [1] 50 5 0 true (Some (mkRand (λ _, 4) 0))) 1 1 1 (mkRaftLog disk0 (mkUnstable None [] 1) 0 0)
    StateLeader 1 [1] (<[1 := mkProgress 0 1]> ∅) ∅ [] [] newReadOnly [] 0 0 5 60 zeroHardState.
Definition srv1 : Server disk.Storage := mkServer (mkNode raft1 None) NewStateMachine 0 true 0 [] ∅ ∅ [] [].
(** Client 7 puts a value, then reads it. *)
Definition put1 : request := mkRequest (reqPropose (mkCommand 7 1 OpPut [x61] (Some [x62]) None)) 101.
Definition get1 : request := mkRequest (reqRead [x61]) 102.

Lemma srv1_fit : fit srv1.
Proof.
  assert (Hwf : log_wf (sv_log srv1)) by (vm_compute; repeat split; done).
  split; [split; try done|done|].
  split; [exact Hwf|]. simpl. apply map_Forall_insert_2; [by vm_compute|]. apply map_Forall_empty.
Qed.
Lemma put_get_runs :
  ∃ o s', driveLoop 1 [EvRequest put1; EvRequest get1] srv1 = Ret (o, s') ∧
    o = Some (Ok ()) ∧
    sv_answers s' = [(101, answered (mkResult StatusOK None 1)); (102, answered (mkResult StatusOK (Some [x62]) 1))].
Proof. apply wp_total. vm_compute. done. Qed.
Lemma drain_runs : ∃ o s', drain 1 srv1 = Ret (o, s') ∧ o = Some (Ok ()) ∧ HasReady (sv_node srv1) = Ret true.
Proof. apply wp_total. vm_compute. done. Qed.
Lemma put_runs : ∃ o s', srv_step 1 (EvRequest put1) srv1 = Ret (o, s') ∧ o = Some (Ok ()) ∧ sv_applied s' = 1.
Proof. apply wp_total. vm_compute. done. Qed.

Lemma answered_once_witness :
  ∃ s', driveLoop 1 [EvRequest put1; EvRequest get1] srv1 = Ret (Some (Ok ()), s') ∧ NoDup (sv_answers s').*1.
Proof.
  destruct put_get_runs as (o & s' & E & -> & _). exists s'. split; [exact E|].
  apply (answered_once 1 [EvRequest put1; EvRequest get1] srv1 (Some (Ok ())) s'); [|exact E].
  apply (bool_decide_unpack _). by vm_compute.
Defined.
Lemma drain_settles_witness : ∃ s', drain 1 srv1 = Ret (Some (Ok ()), s') ∧ settles srv1 s'.
Proof.
  destruct (drain_settles 0 srv1 (ft_runs _ srv1_fit)) as (x & s' & E & Hx & _).
  destruct drain_runs as (o & s1 & E1 & -> & _). rewrite E in E1. injection E1 as -> <-. exists s'. split; [exact E|]. by apply Hx.
Defined.
Lemma event_keeps_server_witness :
  ∃ s', srv_step 1 (EvRequest put1) srv1 = Ret (Some (Ok ()), s') ∧ fit s' ∧ sv_applied s' = 1.
Proof.
  destruct put_runs as (o & s' & E & -> & Ha). exists s'. split; [exact E|].
  destruct (event_keeps_server 0 (EvRequest put1) srv1 (Some (Ok ())) s' srv1_fit I ltac:(unfold room; by vm_compute) E) as (x & Hx & Hf).
  injection Hx as <-. split; [by apply Hf|exact Ha].
Defined.
