(* ===== verification/ServerReads.v ===== *)
(** * Linearizable reads on the server's side

    A read whose index the core has confirmed is followed through [drain]:
    [track] says where it is at each moment of the batch.  It ends up served
    from a state of the state machine at or above its index, waiting for an
    index that is not applied yet, or redirected because the server lost the
    leadership. *)

From S2P Require Import Prelude RaftTypes Storage RaftLog ReadOnly Raft Node LogSpec RaftSpec Persist LogSafety Election Replication Batch.
From S2P Require Import KvCodec KvStateMachine Server Framing Disk DiskRecovery DiskWal ServerSpec.

#[global] Instance ReadState_eq_dec : EqDecision ReadState.
Proof. solve_decision. Defined.

Section reads.
Context {S : Type} `{LogStorageLaws S} `{!SyncStorage S} `{!SyncLaws S}.
Implicit Types s : Server S.

(** ** One read *)

Section track.
(** The read, its waiter, and the answers it may get. *)
Variables (rs0 : ReadState) (w : readWaiter) (O : opResult → Prop).

Definition replied s : Prop := ∃ o, O o ∧ (rw_resp w, o) ∈ sv_answers s.
Definition waits s : Prop := sv_readWaiters s !! rsRequestCtx rs0 = Some w.
(** Only the read itself has its token. *)
Definition alone (rss : list ReadState) : Prop := ∀ rs, rs ∈ rss → rsRequestCtx rs = rsRequestCtx rs0 → rs = rs0.
(** The read was answered, or it waits, among the pending ones once the core
    has [released] it. *)
Definition track (released : bool) s : Prop :=
  replied s ∨ waits s ∧ alone (sv_pendingReads s) ∧ (released = true → rs0 ∈ sv_pendingReads s).

(** An answer from the state machine as it is now is allowed once the read's
    index is applied. *)
Definition ripe s : Prop := rsIndex rs0 ≤ sv_applied s → O (answered (Read (rw_key w) (sv_sm s))).

Lemma replied_more s s' l : sv_answers s' = sv_answers s ++ l → replied s → replied s'.
Proof. intros E (o & Ho & Hin). exists o. split; [done|]. rewrite E. apply elem_of_app. by left. Qed.

Lemma wp_serveRead_track rs s :
  rsIndex rs ≤ sv_applied s → ripe s → (rsRequestCtx rs = rsRequestCtx rs0 → rs = rs0) →
  wp True (serveRead rs) (λ _ s', (replied s → replied s') ∧ (waits s → replied s' ∨ waits s' ∧ rs ≠ rs0) ∧
    sv_applied s' = sv_applied s ∧ sv_sm s' = sv_sm s ∧ sv_pendingReads s' = sv_pendingReads s) s.
Proof.
  intros Hi Hr Ha. unfold serveRead. apply wp_bind, wp_get. destruct (_ !! _) as [w'|] eqn:Hk.
  - apply wp_bind, wp_modify, wp_answer. split_and!; try done.
    { by apply replied_more with (l := [(rw_resp w', answered (Read (rw_key w') (sv_sm s)))]). }
    intros Hw. destruct (decide (rsRequestCtx rs = rsRequestCtx rs0)) as [E|E].
    + left. rewrite E in Hk. unfold waits in Hw. rewrite Hk in Hw. injection Hw as ->. eexists. split; [|apply elem_of_app; right; by left].
      apply Hr. by rewrite <-(Ha E).
    + right. split; [|intros ->; by apply E]. unfold waits. simpl. by rewrite lookup_delete_ne.
  - apply wp_ret. split_and!; try done. intros Hw. right. split; [done|]. intros ->. unfold waits in Hw. congruence.
Qed.

Lemma wp_serveLoop_track rss s :
  ripe s → alone rss →
  wp True (serveLoop rss) (λ kept s', (replied s → replied s') ∧
    (waits s → replied s' ∨ waits s' ∧ (rs0 ∈ rss → rs0 ∈ kept)) ∧ kept `sublist_of` rss ∧
    sv_applied s' = sv_applied s ∧ sv_sm s' = sv_sm s) s.
Proof.
  revert s. induction rss as [|rs rss IH]; intros s Hr Ha; simpl.
  { apply wp_ret. split_and!; try done. intros ?. by right. }
  apply wp_bind, wp_get. destruct (Z.leb_spec (rsIndex rs) (sv_applied s)).
  - apply wp_bind. eapply wp_mono; [apply wp_serveRead_track; [done|done|by apply Ha; left]|].
    intros _ s1 (Hm1 & Hw1 & Ea1 & Es1 & _). eapply wp_mono; [apply IH|].
    { unfold ripe. by rewrite Ea1, Es1. }
    { intros rs' Hin. apply Ha. by right. }
    intros kept s2 (Hm2 & Hw2 & Hsub & Ea2 & Es2). split_and!; [by auto| |by apply sublist_cons|congruence..].
    intros [Hd|[Hw' Hne]]%Hw1; [left; auto|]. destruct (Hw2 Hw') as [?|[? Hin]]; [by left|]. right. split; [done|].
    intros [->|?]%elem_of_cons; [done|auto].
  - apply wp_bind. eapply wp_mono; [apply IH; [done|]|].
    { intros rs' Hin. apply Ha. by right. }
    intros kept s1 (Hm1 & Hw1 & Hsub & Ea1 & Es1). apply wp_ret. split_and!; [done| |by apply sublist_skip|done..].
    intros [?|[? Hin]]%Hw1; [by left|]. right. split; [done|]. intros [->|?]%elem_of_cons; [by left|right; auto].
Qed.

Lemma wp_servePendingReads_track b s :
  ripe s → track b s →
  wp True servePendingReads (λ _ s', track b s' ∧ sv_applied s' = sv_applied s ∧ sv_sm s' = sv_sm s) s.
Proof.
  intros Hr Ht. unfold servePendingReads. apply wp_bind, wp_get. destruct (_ =? 0); [by apply wp_ret|].
  apply wp_bind. destruct Ht as [Hd|(Hw & Ha & Hb)].
  - (* the queue may hold anything once the read is answered *)
    apply (wp_mono _ _ (λ _ s', replied s' ∧ sv_applied s' = sv_applied s ∧ sv_sm s' = sv_sm s)).
    2: { intros kept s1 (? & ? & ?). apply wp_modify. split; [by left|done]. }
    generalize (sv_pendingReads s). intros rss. clear Hr. revert s Hd. induction rss as [|rs rss IH]; intros s Hd; simpl; [by apply wp_ret|].
    apply wp_bind, wp_get. destruct (_ <=? _).
    + apply wp_bind. unfold serveRead. apply wp_bind, wp_get. destruct (_ !! _) as [w'|]; [|apply wp_ret; by apply IH].
      apply wp_bind, wp_modify, wp_answer. eapply wp_mono; [apply IH; by eapply replied_more|]. done.
    + apply wp_bind. eapply wp_mono; [by apply IH|]. intros kept s1 ?. by apply wp_ret.
  - eapply wp_mono; [by apply wp_serveLoop_track|]. intros kept s1 (_ & Hw1 & Hsub & Ea & Es). apply wp_modify.
    split_and!; try done. destruct (Hw1 Hw) as [?|[? Hin]]; [by left|]. right. split_and!; [done| |auto].
    intros rs Hin'. apply Ha. by eapply elem_of_sublist.
Qed.

Lemma wp_applyEntry_track b e s :
  sv_applied s < eIndex e → track b s →
  (∀ rs m, applyAll (option_list (decoded e)) (sv_sm s) = Ret (rs, m) → rsIndex rs0 ≤ eIndex e → O (answered (Read (rw_key w) m))) →
  wp True (applyEntry e) (λ _, track b) s.
Proof.
  intros Hlt Ht HO. unfold applyEntry. apply wp_bind, wp_get. destruct (Z.leb_spec (eIndex e) (sv_applied s)); [lia|].
  apply wp_bind, wp_modify. unfold decoded in HO.
  destruct (bool_decide (eType e = EntryNormal) && (0 <? zlen (eData e))) eqn:Hcmd.
  - destruct (DecodeCommand_total (eData e)) as (d & Ed & Hv). apply wp_bind. eapply wp_reads_ret; [done|].
    rewrite Ed in HO. destruct d as [cmd|err]; [|by apply wp_ret].
    destruct (Apply_total cmd (sv_sm s) (Hv _ eq_refl)) as (res & m' & Ea).
    apply wp_bind, wp_zoom. unfold wp at 1. cbn [sv_sm set_sapplied]. rewrite Ea. apply wp_bind, wp_get. apply wp_bind.
    apply (wp_mono _ _ (λ _ s2, track b s2 ∧ sv_applied s2 = eIndex e ∧ sv_sm s2 = m')).
    { destruct (sv_writeWaiters _ !! _) as [ch|]; [|by apply wp_ret]. apply wp_bind, wp_answer, wp_bind, wp_get, wp_modify.
      split_and!; try done. destruct Ht as [Hd|?]; [left; by eapply replied_more|by right]. }
    intros _ s2 (Ht2 & Ea2 & Es2). eapply wp_mono; [apply (wp_servePendingReads_track b); [|done]|by intros ? ? [? _]].
    intros Hi. rewrite Es2. rewrite Ea2 in Hi. apply (HO [res] m'); [|done]. simpl. unfold mbind, M_bind. by rewrite Ea.
  - eapply wp_mono; [apply (wp_servePendingReads_track b); [|done]|by intros ? ? [? _]].
    intros Hi. apply (HO [] _ eq_refl Hi).
Qed.

Lemma wp_releaseRead_track b rs s :
  ripe s → track b s → (rsRequestCtx rs = rsRequestCtx rs0 → rs = rs0) →
  wp True (releaseRead rs) (λ _ s', track (b || bool_decide (rs = rs0)) s' ∧ sv_applied s' = sv_applied s ∧ sv_sm s' = sv_sm s) s.
Proof.
  intros Hr Ht Hrs. unfold releaseRead. apply wp_bind, wp_get. destruct (Z.leb_spec (rsIndex rs) (sv_applied s)).
  - eapply wp_mono; [by apply wp_serveRead_track|]. intros _ s1 (Hm & Hw & Ea & Es & Ep). split_and!; try done.
    destruct Ht as [?|(Hwt & Ha & Hb)]; [left; auto|]. destruct (Hw Hwt) as [?|[? Hne]]; [by left|]. right. rewrite Ep.
    rewrite bool_decide_false, orb_false_r by done. done.
  - apply wp_modify. split_and!; try done. destruct Ht as [?|(Hwt & Ha & Hb)]; [by left|]. right. simpl. split_and!; [done| |].
    + intros rs' [?|E%list_elem_of_singleton]%elem_of_app; [auto|by subst rs'].
    + rewrite elem_of_app. intros [?|Hn%bool_decide_eq_true]%orb_true_iff; [left; auto|]. right. rewrite Hn. by left.
Qed.
Lemma wp_releaseReads_track b rss s :
  ripe s → track b s → alone rss →
  wp True (forM rss releaseRead) (λ _, track (b || bool_decide (rs0 ∈ rss))) s.
Proof.
  revert b s. induction rss as [|rs rss IH]; intros b s Hr Ht Ha.
  { apply wp_ret. by rewrite orb_false_r. }
  apply wp_bind. eapply wp_mono; [apply wp_releaseRead_track; [done|done|by apply Ha; left]|].
  intros _ s1 (Ht1 & Ea & Es). eapply wp_mono; [apply IH; [unfold ripe; by rewrite Ea, Es|done|]|].
  { intros rs' Hin. apply Ha. by right. }
  intros ? s2 Ht2. replace (bool_decide (rs0 ∈ rs :: rss)) with (bool_decide (rs = rs0) || bool_decide (rs0 ∈ rss)).
  { by rewrite orb_assoc. }
  apply eq_bool_prop_intro. rewrite orb_True, !bool_decide_spec, elem_of_cons. naive_solver.
Qed.
End track.

(** ** The batch *)

(** A state of the state machine at or above index [i], between those before and
    after the entries [es] that follow index [a]. *)
Definition state_at (a : Z) (es : list Entry) (m0 : StateMachine) (i : Z) (m : StateMachine) : Prop :=
  ∃ es1 es2 rs, es = es1 ++ es2 ∧ i ≤ a + zlen es1 ∧ applyAll (omap decoded es1) m0 = Ret (rs, m).

Section batch.
Variables (rs0 : ReadState) (w : readWaiter) (s0 : Server S) (es : list Entry) (O : opResult → Prop).
Hypothesis HO : ∀ m, state_at (sv_applied s0) es (sv_sm s0) (rsIndex rs0) m → O (answered (Read (rw_key w) m)).

Lemma wp_applyEntries_track b pre post rs s :
  es = pre ++ post → contiguous (sv_applied s0 + zlen pre + 1) post →
  sv_applied s = sv_applied s0 + zlen pre → applyAll (omap decoded pre) (sv_sm s0) = Ret (rs, sv_sm s) →
  track rs0 w O b s →
  wp True (forM post applyEntry) (λ _ s', track rs0 w O b s' ∧ ripe rs0 w O s') s.
Proof.
  revert pre rs s. induction post as [|e post IH]; intros pre rs s Ees Hc Ea Er Ht.
  { apply wp_ret. split; [done|]. intros Hi. apply HO. exists pre, [], rs. split_and!; [done|lia|done]. }
  destruct Hc as [Hi Hc]. apply wp_bind. eapply wp_mono.
  { apply wp_and; [apply (wp_applyEntry_track rs0 w O b); [lia|done|]|apply wp_applyEntry].
    intros rs' m Em Hle. apply HO. exists (pre ++ [e]), post, (rs ++ rs'). rewrite <-app_assoc. split_and!; [done| |].
    - rewrite zlen_app. change (zlen [e]) with 1. lia.
    - rewrite omap_app. eapply applyAll_app; [done|]. simpl. by destruct (decoded e). }
  intros _ s1 (Ht1 & _ & _ & _ & Hap). destruct Hap as (Ea1 & [rs' Er'] & _); [lia|].
  eapply (IH (pre ++ [e]) (rs ++ rs')); [by rewrite <-app_assoc| | | |done].
  - rewrite zlen_app. change (zlen [e]) with 1. by replace (_ + (_ + 1) + 1) with (sv_applied s0 + zlen pre + 1 + 1) by lia.
  - rewrite Ea1, zlen_app. change (zlen [e]) with 1. lia.
  - rewrite omap_app. eapply applyAll_app; [done|]. simpl. by destruct (decoded e).
Qed.
End batch.

Lemma track_fields rs0 w O b s s' :
  sv_readWaiters s' = sv_readWaiters s → sv_pendingReads s' = sv_pendingReads s → sv_answers s' = sv_answers s →
  track rs0 w O b s → track rs0 w O b s'.
Proof. intros E1 E2 E3. unfold track, replied, waits. by rewrite E1, E2, E3. Qed.

Lemma wp_drainBatch_track rs0 w O b s :
  runs s → u_snapshot (unst (sv_log s)) = None → alone rs0 (readStates (n_r (sv_node s))) → track rs0 w O b s →
  (∀ m, state_at (sv_applied s) (to_apply s) (sv_sm s) (rsIndex rs0) m → O (answered (Read (rw_key w) m))) →
  wp True drainBatch (λ o s', o = Ok () → track rs0 w O (b || bool_decide (rs0 ∈ readStates (n_r (sv_node s)))) s') s.
Proof.
  intros Hruns Hn Ha Ht HO. destruct (Hruns) as []. rewrite Hn in rn_applied. simpl in rn_applied.
  destruct (next_ents _ rn_wf) as [Hlen Hcont].
  unfold drainBatch. apply wp_bind, wp_zoom, wp_bind. eapply wp_reads_ret; [by apply ReadyOf_batch|].
  apply wp_bind, wp_modify, wp_ret. set (r := n_r (sv_node s)) in *. set (s1 := set_node _ s).
  apply wp_bind. eapply wp_mono; [eapply wp_partial; by apply (wp_persistReady s1)|].
  intros o1 s2 (st & -> & _). destruct o1 as [[]|e]; [|by apply wp_ret]. apply wp_bind.
  set (s2 := putStor st s1).
  apply (wp_mono _ _ (λ _ s3, track rs0 w O b s3 ∧ sv_applied s3 = sv_applied s ∧ sv_sm s3 = sv_sm s)).
  { apply wp_when; [intros _; apply wp_bind, wp_get, wp_modify|intros _]; (split_and!; [|done..]);
      by apply (track_fields rs0 w O b s). }
  intros _ s3 (Ht3 & Ea3 & Es3). apply wp_bind.
  apply (wp_mono _ _ (λ o s4, o = Ok () → track rs0 w O (b || bool_decide (rs0 ∈ readStates r)) s4)).
  { unfold applyReady. apply wp_unless. cbn [rdSnapshot batch]. unfold sv_log in Hn. fold r in Hn. rewrite Hn. apply wp_ret.
    apply wp_bind. eapply wp_mono.
    { apply (wp_applyEntries_track rs0 w s (to_apply s) O HO b [] (to_apply s) []); [done| | |by rewrite Es3|done].
      - change (zlen (@nil Entry)) with 0. rewrite rn_applied, Z.add_0_r. done.
      - change (zlen (@nil Entry)) with 0. lia. }
    intros _ s4 [Ht4 Hr4]. apply wp_bind. eapply wp_mono; [by apply wp_releaseReads_track|]. intros ? s5 Ht5. by apply wp_ret. }
  intros [[]|e] s4 Ht4; [|by apply wp_ret]. apply wp_bind, wp_zoom.
  unfold wp. destruct (Advance (sv_node s4)) as [[[] n]|]; [|done]. intros _. apply (track_fields rs0 w O _ s4); try done. by apply Ht4.
Qed.

Lemma wp_drainLoop_track rs0 w O b fuel s :
  runs s → u_snapshot (unst (sv_log s)) = None → alone rs0 (readStates (n_r (sv_node s))) → track rs0 w O b s →
  (∀ m, state_at (sv_applied s) (to_apply s) (sv_sm s) (rsIndex rs0) m → O (answered (Read (rw_key w) m))) →
  wp True (drainLoop (Datatypes.S fuel)) (λ o s', o = Some (Ok ()) →
    track rs0 w O (b || bool_decide (rs0 ∈ readStates (n_r (sv_node s)))) s') s.
Proof.
  intros Hr Hn Ha Ht HO. cbn [drainLoop]. destruct (HasReady_cases _ (rn_wf _ Hr)) as (h & E & _). apply wp_bind.
  assert (En : HasReady (sv_node s) = Ret h) by (rewrite <-E, <-(rn_pending _ Hr); by destruct (sv_node s)).
  eapply wp_reads_ret; [exact En|]. destruct h.
  - apply wp_bind. eapply wp_mono.
    { apply wp_and; [by apply (wp_drainBatch_track rs0 w O b)|eapply wp_partial; by apply wp_drainBatch]. }
    intros [[]|e] s1 (Ht1 & Hset & _); [|by apply wp_ret]. destruct (Hset eq_refl) as [].
    destruct fuel as [|fuel]; cbn [drainLoop]; apply wp_bind; (eapply wp_reads_ret; [exact se_quiet|]); apply wp_ret; intros _; by apply Ht1.
  - apply wp_ret. intros _. assert (readStates (n_r (sv_node s)) = []) as ->; [|by rewrite orb_false_r].
    unfold HasReady in En. rewrite (rn_pending _ Hr) in En. apply zlen_zero.
    destruct (Z.ltb_spec 0 (zlen (readStates (n_r (sv_node s))))); [by rewrite orb_true_r in En|].
    pose proof (zlen_nonneg (readStates (n_r (sv_node s)))). lia.
Qed.

(** ** Losing the leadership *)

Lemma wp_failWrites_track w O lead kvs s :
  replied w O s →
  wp True (forM kvs (λ '(k, ch), answer ch (redirect lead);;
    s ← get; modify (set_writeWaiters (delete k (sv_writeWaiters s))))) (λ _, replied w O) s.
Proof.
  intros Hd. apply (wp_forM True _ _ (replied w O)); [done| |done]. intros [k ch] s1 _ Hd1.
  apply wp_bind, wp_answer, wp_bind, wp_get, wp_modify. by eapply replied_more.
Qed.
Lemma wp_failReads_track w O lead k kvs s :
  O (redirect lead) → replied w O s ∨ (k, w) ∈ kvs →
  wp True (forM kvs (λ '(k, w), answer (rw_resp w) (redirect lead);;
    s ← get; modify (set_readWaiters (delete k (sv_readWaiters s))))) (λ _, replied w O) s.
Proof.
  intros HO. revert s. induction kvs as [|[k' w'] kvs IH]; intros s Hd.
  { apply wp_ret. destruct Hd as [?|Hin]; [done|]. by apply not_elem_of_nil in Hin. }
  apply wp_bind, wp_bind, wp_answer, wp_bind, wp_get, wp_modify. apply IH. destruct Hd as [Hd|[[= <- <-]|Hin]%elem_of_cons].
  - left. by eapply replied_more.
  - left. eexists. split; [done|]. simpl. apply elem_of_app. right. by left.
  - by right.
Qed.
Lemma wp_checkLeadership_track rs0 w O b s :
  track rs0 w O b s →
  (sv_prevLeader s = true → Node_State (sv_node s) ≠ StateLeader → O (redirect (Node_Leader (sv_node s)))) →
  wp True checkLeadership (λ _, track rs0 w O b) s.
Proof.
  intros Ht HO. unfold checkLeadership. apply wp_bind, wp_get, wp_bind, wp_when.
  2: { intros _. apply wp_modify. by apply (track_fields rs0 w O b s). }
  intros [Hp Hl%negb_true_iff%bool_decide_eq_false]%andb_true_iff.
  apply wp_bind, (wp_mono _ _ (λ _ s1, track rs0 w O b s → replied w O s1 ∨ waits rs0 w s)).
  { destruct Ht as [Hd|(Hw & _)].
    - eapply wp_mono; [by apply wp_failWrites_track|]. intros ? s1 ? _. by left.
    - apply (wp_forM True _ _ (λ _, True)); [done| |by right]. intros [k ch] s1 _ _. by apply wp_bind, wp_answer, wp_bind, wp_get, wp_modify. }
  intros _ s1 Hd. apply wp_bind. eapply wp_mono.
  { apply (wp_failReads_track w O _ (rsRequestCtx rs0)); [by apply HO|]. destruct (Hd Ht) as [?|Hw]; [by left|]. right.
    by apply elem_of_map_to_list. }
  intros ? s2 Hd2. apply wp_modify, wp_modify. left. exact Hd2.
Qed.

(** C25: a confirmed read is answered as soon as its index is applied, from a
    state at or above that index.  For every read the core has confirmed and
    whose caller waits, [drain] (of a batch without a snapshot, whose commands
    decode) ends in one of three ways: the caller was answered with the value
    some state of the state machine at or above the read's index holds; the
    index is above what is applied, and the read and its waiter are kept; or
    the server had lost the leadership and the caller was redirected.  No read
    at or below the applied index is left waiting. *)
Theorem reads_served fuel s s' rs w :
  runs s → u_snapshot (unst (sv_log s)) = None → Forall readable (to_apply s) → reads_wait s →
  rs ∈ sv_pendingReads s ++ readStates (n_r (sv_node s)) →
  NoDup (rsRequestCtx <$> sv_pendingReads s ++ readStates (n_r (sv_node s))) →
  sv_readWaiters s !! rsRequestCtx rs = Some w →
  drain (Datatypes.S fuel) s = Ret (Some (Ok ()), s') →
  reads_wait s' ∧
  ((∃ m, state_at (sv_applied s) (to_apply s) (sv_sm s) (rsIndex rs) m ∧
      (rw_resp w, answered (Read (rw_key w) m)) ∈ sv_answers s') ∨
   (sv_applied s' < rsIndex rs ∧ rs ∈ sv_pendingReads s' ∧ sv_readWaiters s' !! rsRequestCtx rs = Some w) ∨
   (sv_prevLeader s = true ∧ Node_State (sv_node s) ≠ StateLeader ∧
      (rw_resp w, redirect (Node_Leader (sv_node s))) ∈ sv_answers s')).
Proof.
  intros Hr Hn Hre Hwait Hin Hnd Hw Hrun. pose proof (reads_not_stranded fuel s s' Hr Hn Hre Hwait Hrun) as Hwait'. split; [done|].
  set (O o := (∃ m, state_at (sv_applied s) (to_apply s) (sv_sm s) (rsIndex rs) m ∧ o = answered (Read (rw_key w) m)) ∨
    sv_prevLeader s = true ∧ Node_State (sv_node s) ≠ StateLeader ∧ o = redirect (Node_Leader (sv_node s))).
  assert (Ha : alone rs (sv_pendingReads s ++ readStates (n_r (sv_node s)))).
  { intros rs' Hin' E. apply list_elem_of_lookup in Hin as [i Hi], Hin' as [j Hj].
    assert (j = i) as -> by (eapply NoDup_lookup; [done|rewrite list_lookup_fmap, Hj; by simpl; rewrite E|by rewrite list_lookup_fmap, Hi]).
    congruence. }
  set (b := bool_decide (rs ∈ sv_pendingReads s)).
  cut (wp True (drain (Datatypes.S fuel)) (λ o s', o = Some (Ok ()) →
    track rs w O (b || bool_decide (rs ∈ readStates (n_r (sv_node s)))) s') s).
  { intros Hwp. pose proof (wp_run _ _ _ _ _ Hwp Hrun eq_refl) as Ht. cbn beta in Ht.
    replace (b || _) with true in Ht.
    2: { symmetry. unfold b. apply orb_true_iff. rewrite !bool_decide_eq_true. by apply elem_of_app. }
    destruct Ht as [(o & [(m & Hm & ->)|(? & ? & ->)] & Hin')|(Hw' & _ & Hp)]; [left; by exists m|by right; right|].
    right. left. specialize (Hp eq_refl). unfold reads_wait in Hwait'. rewrite Forall_forall in Hwait'. auto. }
  apply wp_bind. eapply wp_mono.
  { apply wp_and; [apply (wp_checkLeadership_track rs w O b)|apply wp_checkLeadership].
    - right. split_and!; [done| |by intros ?%bool_decide_eq_true]. intros rs' Hin'. apply Ha, elem_of_app. by left.
    - intros ? ?. by right. }
  intros _ s1 [Ht1 [Hk _]]. pose proof (keeps_runs _ _ Hk Hr) as Hr1. destruct Hk.
  pose proof (wp_drainLoop_track rs w O b fuel s1 Hr1) as Hd. unfold to_apply, sv_log in *.
  rewrite kp_node, kp_applied, kp_sm in Hd. apply Hd; [done| |done|intros m Hm; left; by exists m].
  intros rs' Hin'. apply Ha, elem_of_app. by right.
Qed.
End reads.

(** ** Example *)

(** The server of [srv1] after the write, and with the read stepped into the core:
    the read is confirmed and its caller waits. *)
Definition srvP : Server disk.Storage := after (srv_step 1 (EvRequest put1) srv1) snd srv1.
Definition srvG : Server disk.Storage := after (handleRequest get1 srvP) snd srvP.
Definition token1 : list byte := be_enc 8 1.
Definition read1 : ReadState := mkReadState 1 token1.

Lemma srvG_quiet : u_snapshot (unst (sv_log srvG)) = None.
Proof. by vm_compute. Qed.
Lemma srvG_runs : runs srvG.
Proof.
  split; [vm_compute; repeat split; done| |by vm_compute..]. intros sn. rewrite srvG_quiet. discriminate 1.
Qed.
Lemma srvG_at : sv_applied srvG = 1.
Proof. by vm_compute. Qed.
Lemma srvG_applies : to_apply srvG = [].
Proof. by vm_compute. Qed.
Lemma srvG_drains : ∃ o s', drain 1 srvG = Ret (o, s') ∧ o = Some (Ok ()) ∧ sv_applied s' = 1 ∧ sv_pendingReads s' = [].
Proof. apply wp_total. vm_compute. done. Qed.
Lemma srvG_reads : sv_pendingReads srvG = [] ∧ readStates (n_r (sv_node srvG)) = [read1].
Proof. by vm_compute. Qed.
Lemma srvG_waits : sv_readWaiters srvG !! rsRequestCtx read1 = Some (mkReadWaiter [x61] 102).
Proof. by vm_compute. Qed.
Lemma srvG_leads : Node_State (sv_node srvG) = StateLeader.
Proof. by vm_compute. Qed.
Lemma reads_served_witness :
  ∃ s' m, drain 1 srvG = Ret (Some (Ok ()), s') ∧ state_at 1 [] (sv_sm srvG) 1 m ∧
    (102, answered (Read [x61] m)) ∈ sv_answers s'.
Proof.
  destruct srvG_drains as (o & s' & E & -> & Ha & Hp), srvG_reads as [Hr1 Hr2]. exists s'.
  destruct (reads_served 0 srvG s' read1 (mkReadWaiter [x61] 102) srvG_runs srvG_quiet) as [_ [(m & Hm & Hin)|[(_ & Hin & _)|(_ & Hl & _)]]].
  - rewrite srvG_applies. constructor.
  - unfold reads_wait. rewrite Hr1. constructor.
  - rewrite Hr1, Hr2. by left.
  - rewrite Hr1, Hr2. apply NoDup_singleton.
  - exact srvG_waits.
  - exact E.
  - exists m. split; [exact E|]. rewrite srvG_at, srvG_applies in Hm. split; [exact Hm|exact Hin].
  - rewrite Hp in Hin. destruct (not_elem_of_nil _ Hin).
  - destruct (Hl srvG_leads).
Defined.
