(* ===== verification/Replicas.v ===== *)
(** * Replicated state machines

    What the layers add up to.  A server that boots on any storage and goes
    through any events of the drive loop, snapshots it installs included, holds
    at every point the state that its stored snapshot and the applied entries of
    its log above it give ([serves], [caughtUp]).  As the committed logs of a
    cluster agree (Safety), the state machines of two servers are points of one
    history; there ([operates], [replayed]) no snapshot is involved: the
    production server never compacts its log, so it never sends one. *)

From S2P Require Import Prelude RaftTypes Storage RaftLog ReadOnly Raft Node LogSpec RaftSpec Persist LogSafety Election Replication Batch.
From S2P Require Import LogTree Cluster LogInv LogDrive LogInput Safety KvCodec KvStateMachine Server ServerSpec.

Section slices.
Implicit Types a : alog.

Lemma a_slice_app a lo mid hi : lo ≤ mid ≤ hi → a_base a < lo → a_slice a lo hi = a_slice a lo mid ++ a_slice a mid hi.
Proof.
  intros Hm Hlo. unfold a_slice. set (l := drop _ (a_ents a)).
  replace (drop (Z.to_nat (mid - a_base a - 1)) (a_ents a)) with (drop (Z.to_nat (mid - lo)) l) by (unfold l; rewrite drop_drop; f_equal; lia).
  replace (Z.to_nat (hi - lo)) with (Z.to_nat (mid - lo) + Z.to_nat (hi - mid))%nat by lia. by rewrite take_take_drop.
Qed.
Lemma a_slice_lookup a lo hi k : a_base a < lo → a_slice a lo hi !! k = if decide (Z.of_nat k < hi - lo) then a_get a (lo + Z.of_nat k) else None.
Proof.
  intros Hlo. unfold a_slice, a_get. destruct (Z.leb_spec (lo + Z.of_nat k) (a_base a)); [lia|]. case_decide.
  - rewrite lookup_take_lt, lookup_drop by lia. f_equal. lia.
  - apply lookup_ge_None_2. rewrite length_take. lia.
Qed.
Lemma a_slice_ext a a' lo hi : a_base a < lo → a_base a' < lo → (∀ i, lo ≤ i < hi → a_get a i = a_get a' i) → a_slice a lo hi = a_slice a' lo hi.
Proof.
  intros Hlo Hlo' E. apply list_eq. intros k. rewrite !a_slice_lookup by done. case_decide; [|done]. apply E. lia.
Qed.
End slices.

Section replay.
Context {S : Type} `{LogStorageLaws S} `{!SyncStorage S} `{!SyncLaws S}.
Implicit Types (s : Server S) (a : alog).

(** The servers that boot on a storage without a snapshot and handle events. *)
Inductive operates : Server S → Prop :=
| operates_boot c ids rnd (st : S) s :
    view_wf (view st) → v_snap (view st) = zeroSnapshot → 0 ≤ hsCommit (v_hard (view st)) ≤ v_last (view st) →
    NewServer c ids rnd st = Ret (Ok s) → operates s
| operates_event fuel ev s s' :
    operates s → event_ok ev → room (n_r (sv_node s)) (event_room ev) →
    srv_step (Datatypes.S fuel) ev s = Ret (Some (Ok ()), s') → a_base (absLog (sv_log s')) = 0 → operates s'.

(** The state after the first [k] entries of a log. *)
Definition replays a (k : Z) (m : StateMachine) : Prop :=
  ∃ rs, applyAll (omap decoded (a_slice a 1 (k + 1))) NewStateMachine = Ret (rs, m).
Record replayed s : Prop := mkReplayed {
  rp_fit : fit s;
  rp_base : a_base (absLog (sv_log s)) = 0;
  rp_applied : 0 ≤ sv_applied s ≤ committed (sv_log s);
  rp_state : replays (absLog (sv_log s)) (sv_applied s) (sv_sm s)
}.

Lemma replays_more a k k' m m' rs :
  a_base a = 0 → 0 ≤ k ≤ k' → replays a k m → applyAll (omap decoded (a_slice a (k + 1) (k' + 1))) m = Ret (rs, m') → replays a k' m'.
Proof.
  intros Ha Hk [rs0 E0] E. exists (rs0 ++ rs). rewrite (a_slice_app a 1 (k + 1) (k' + 1)), omap_app by lia. by eapply applyAll_app.
Qed.
Lemma replays_unique a k m m' : replays a k m → replays a k m' → m = m'.
Proof. intros [? E] [? E']. rewrite E in E'. by injection E'. Qed.

Lemma replayed_boot c ids rnd (st : S) s :
  view_wf (view st) → v_snap (view st) = zeroSnapshot → 0 ≤ hsCommit (v_hard (view st)) ≤ v_last (view st) →
  NewServer c ids rnd st = Ret (Ok s) → replayed s.
Proof.
  intros Hv Hsn Hc E. destruct (NewServer_inv c ids rnd st s) as (rc & r & Er & En & Ea & Hb); [by rewrite Hsn|done|].
  assert (Hoff : v_off (view st) = 0) by (unfold v_off; by rewrite Hsn).
  destruct (newRaft_log rc st r Hv ltac:(lia) Er) as (Hn & Hset & Es & Ep & Eh & Eap & Hst).
  rewrite Hsn in Ea, Hb. unfold boots in Hb. change (snIndex zeroSnapshot) with 0 in Ea, Hb. simpl in Hb.
  assert (Hbase : a_base (absLog (rlog r)) = 0) by (destruct Hst as (? & _); unfold v_off in *; congruence).
  pose proof Hn as [(_ & _ & ? & _) _]. split; unfold sv_log; rewrite ?En; simpl.
  - split; unfold sv_log; rewrite ?En; simpl; try done. split; unfold sv_log; rewrite ?En; simpl; try done; [apply Hn|..].
    + intros sn. by rewrite (proj1 Hset).
    + by rewrite Es.
    + rewrite (proj1 Hset). simpl. by rewrite Ea, Eap, Hoff.
  - done.
  - rewrite Ea. lia.
  - rewrite Ea, Hb. exists []. done.
Qed.
Lemma replayed_event fuel ev s s' :
  replayed s → event_ok ev → room (n_r (sv_node s)) (event_room ev) →
  srv_step (Datatypes.S fuel) ev s = Ret (Some (Ok ()), s') → a_base (absLog (sv_log s')) = 0 → replayed s'.
Proof.
  intros [Hfit Hb Hap Hst] Hok Hroom Hrun Hb'. destruct (event_settles fuel ev s _ s' Hfit Hok Hroom Hrun) as (x & [= <-] & Hx).
  destruct (Hx eq_refl) as (s1 & Hs1 & Hset). pose proof (settles_fit _ _ _ Hs1 Hset) as Hf. destruct Hset, Hs1 as [[Hwf _ Hl] _ Esm Ea].
  destruct (ft_settled _ Hfit) as [Hsn _]. pose proof (rn_applied _ (ft_runs _ Hfit)) as Hin. rewrite Hsn in Hin. simpl in Hin.
  unfold sv_log in *. destruct Hl as [[]|[sn []]]; [|rewrite se_log, re_log in Hb'; simpl in Hb'; lia].
  destruct se_sm as (m & rs & Hm & Er). rewrite gr_snap, Hsn, Esm in Hm. simpl in Hm. subst m.
  split; unfold sv_log; [done|done|rewrite se_applied, se_committed; lia|]. rewrite se_log, se_applied.
  apply (replays_more _ (sv_applied s) _ (sv_sm s) _ rs); [congruence|lia| |].
  - destruct Hst as [rs0 E0]. exists rs0. rewrite <-E0. do 2 f_equal. apply a_slice_ext; [lia|lia|]. intros i Hi. apply gr_prefix. lia.
  - unfold to_apply, sv_log in Er. by rewrite gr_applied, <-Hin in Er.
Qed.
Lemma operates_replayed s : operates s → replayed s.
Proof. induction 1; [by eapply replayed_boot|by eapply replayed_event]. Qed.




End replay.

Lemma applyAll_split cs1 cs2 m rs1 m1 rs m2 :
  applyAll cs1 m = Ret (rs1, m1) → applyAll (cs1 ++ cs2) m = Ret (rs, m2) → ∃ rs2, applyAll cs2 m1 = Ret (rs2, m2).
Proof.
  revert m rs1 rs. induction cs1 as [|c cs1 IH]; intros m rs1 rs; simpl; [intros [= <- <-] E; by exists rs|].
  unfold mbind, M_bind. destruct (Apply c m) as [[r m']|]; [|done].
  destruct (applyAll cs1 m') as [[rs2 m3]|] eqn:E1; [|done]. destruct (applyAll (cs1 ++ cs2) m') as [[rs4 m4]|] eqn:E2; [|done].
  intros [= <- <-] [= <- <-]. by eapply IH.
Qed.

(** ** Properties *)

Section properties.
Context {S : Type} `{LogStorageLaws S} `{!SyncStorage S} `{!SyncLaws S}.


(** C2: replicas are points of one history.  Take any run of a cluster with lost,
    duplicated and reordered messages, crashes and restarts, and two servers that
    run the cores of two of its nodes, neither of which booted from a snapshot
    or installed one.  The state of the one that is ahead is
    the state of the other after the entries in between; at the same applied
    index the two states are equal. *)
Theorem replicas_agree conf P c0 c A i j h h' (s s' : Server S) :
  same_voters conf P → 2 ≤ zlen P → run conf P c0 c A → c_hosts c !! i = Some (Up h) → c_hosts c !! j = Some (Up h') →
  operates s → operates s' → sv_node s = h_node h → sv_node s' = h_node h' → sv_applied s ≤ sv_applied s' →
  ∃ rs, applyAll (omap decoded (a_slice (absLog (sv_log s')) (sv_applied s + 1) (sv_applied s' + 1))) (sv_sm s) = Ret (rs, sv_sm s').
Proof.
  intros Hsv H2 Hr Hi Hj [_ Hb Hap Hst]%operates_replayed [_ Hb' Hap' Hst']%operates_replayed En En' Hle. unfold sv_log in *.
  rewrite En in *. rewrite En' in *. change (n_r (h_node h)) with (h_raft h) in *. change (n_r (h_node h')) with (h_raft h') in *.
  assert (E : a_slice (absLog (rlog (h_raft h))) 1 (sv_applied s + 1) = a_slice (absLog (rlog (h_raft h'))) 1 (sv_applied s + 1)).
  { apply a_slice_ext; [lia|lia|]. intros k Hk. destruct (committed_logs_agree conf P c0 c A i j h h' k Hsv H2 Hr Hi Hj) as (e & -> & ->); [lia|lia|done]. }
  destruct Hst as [rs Es], Hst' as [rs' Es']. rewrite E in Es. rewrite (a_slice_app _ 1 (sv_applied s + 1)), omap_app in Es' by lia.
  by eapply applyAll_split.
Qed.
End properties.

(** ** A concrete run: a put through node 1, applied there and on node 2 *)

(** The storage of the simulator holds everything at once; there is nothing to
    sync. *)
#[local] Instance mem_SyncStorage : SyncStorage mem.Storage := λ st, (st, None).
#[local] Instance mem_SyncLaws : SyncLaws mem.Storage.
Proof. done. Qed.
#[local] Instance contiguous_dec i es : Decision (contiguous i es).
Proof. revert i. induction es as [|e es IH]; intros i; simpl; apply _. Defined.
#[local] Instance msg_ok_dec m : Decision (msg_ok m).
Proof. unfold msg_ok, payload_ok, is_u64. destruct (mType m); try apply _. destruct (mSnapshot m); simpl; apply _. Defined.
Definition event_okb (ev : srv_event) : bool := match ev with EvRecv m => bool_decide (msg_ok m) | _ => true end.

(** The server after some events, none of which may fail. *)
Fixpoint playS (evs : list srv_event) (s : Server mem.Storage) : option (Server mem.Storage) :=
  match evs with
  | [] => Some s
  | ev :: evs =>
      if event_okb ev && (a_last (absLog (rlog (n_r (sv_node s)))) + event_room ev <? u64_mod - 1) then
        match srv_step 2 ev s with
        | Ret (Some (Ok _), s') => if a_base (absLog (sv_log s')) =? 0 then playS evs s' else None
        | _ => None
        end
      else None
  end.
Lemma operates_playS evs s s' : operates s → playS evs s = Some s' → operates s'.
Proof.
  revert s. induction evs as [|ev evs IH]; intros s Ho E; cbn [playS] in E; [by injection E as <-|].
  destruct (event_okb ev) eqn:Eok; [|done]. destruct (Z.ltb_spec (a_last (absLog (rlog (n_r (sv_node s)))) + event_room ev) (u64_mod - 1)) as [Hr|]; [|done].
  cbn [andb] in E. destruct (srv_step 2 ev s) as [[[[[]|]|] s1]|] eqn:Es; try done. destruct (Z.eqb_spec (a_base (absLog (sv_log s1))) 0); [|done].
  apply (IH s1); [|done]. apply (operates_event 1 ev s s1); try done. destruct ev; try done. simpl in *. by apply bool_decide_eq_true in Eok.
Qed.

Definition put_k : Command := mkCommand 7 1 OpPut [Byte.x6b] (Some [Byte.x76]) None.
Definition schedule_put : list (Cluster.action mem.Storage + Z * nat) :=
  schedule3 ++ moves [ActInput 1 (InPropose (EncodeCommand put_k))] ++ drain14 1 ++ [inr (2, 8%nat)] ++ drain14 2 ++
  [inr (1, 10%nat)] ++ drain14 1 ++ [inr (2, 11%nat)] ++ drain14 2.
Definition final_put : Cluster mem.Storage * list (Z * Entry) := default (init3, []) (playA conf3 schedule_put init3 []).
Definition rand3 : Rand := mkRand (λ _, 3) 0.
Definition boot3 (i : Z) : option (Server mem.Storage) :=
  match NewServer (mkSrvConfig i [1; 2; 3] 20 10 1) [1; 2; 3] rand3 mem.New with Ret (Ok s) => Some s | _ => None end.
Definition received (k : nat) : srv_event := from_option EvRecv EvTick (c_net final_put.1 !! k).
Definition events3 (i : Z) : list srv_event :=
  if i =? 1 then replicate 13 EvTick ++ [received 2; received 5; EvRequest (mkRequest (reqPropose put_k) 1); received 10]
  else [received 0; received 3; received 8; received 11].
Definition server3 (i : Z) : option (Server mem.Storage) := s ← boot3 i; playS (events3 i) s.
Definition host3 (i : Z) : option (host mem.Storage) := match c_hosts final_put.1 !! i with Some (Up h) => Some h | _ => None end.

Lemma run_put : run conf3 [1; 2; 3] init3 final_put.1 final_put.2.
Proof.
  apply (run_playA conf3 [1; 2; 3] init3 schedule_put init3 []).
  - apply run_init; [exact initial3|]. intros i st. unfold init3. cbn [c_hosts]. intros Hi%elem_of_list_to_map_2.
    rewrite !elem_of_cons in Hi. destruct Hi as [[= _ ->]|[[= _ ->]|[[= _ ->]|[]%not_elem_of_nil]]]; done.
  - assert (E : is_Some (playA conf3 schedule_put init3 [])) by (by vm_compute; eexists). destruct E as [[c A] E].
    unfold final_put. by rewrite E.
Qed.
Lemma operates3 i s : server3 i = Some s → operates s.
Proof.
  intros (s0 & E0 & E)%bind_Some. eapply operates_playS; [|exact E]. unfold boot3 in E0.
  destruct (NewServer _ _ _ _) as [[s1|]|] eqn:Eb; try done. injection E0 as <-. eapply operates_boot; [..|exact Eb]; by vm_compute.
Qed.
Lemma match_core (os : option (Server mem.Storage)) (oh : option (host mem.Storage)) :
  sv_node <$> os = h_node <$> oh → is_Some os → ∃ s h, os = Some s ∧ oh = Some h ∧ sv_node s = h_node h.
Proof. intros E [s ->]. destruct oh as [h|]; [|done]. injection E as E. by exists s, h. Qed.
Lemma host3_up i h : host3 i = Some h → c_hosts final_put.1 !! i = Some (Up h).
Proof. unfold host3. generalize (c_hosts final_put.1 !! i). intros [[h'|]|] E; try discriminate E. by injection E as ->. Qed.
Lemma core3 i : i ∈ [1; 2] →
  ∃ s h, server3 i = Some s ∧ c_hosts final_put.1 !! i = Some (Up h) ∧ operates s ∧ sv_node s = h_node h.
Proof.
  intros Hi. destruct (match_core (server3 i) (host3 i)) as (s & h & Es & Eh & En).
  1,2: rewrite !elem_of_cons in Hi; destruct Hi as [->|[->|[]%not_elem_of_nil]]; vm_compute; [..]; first [reflexivity|eexists; reflexivity].
  exists s, h. split; [exact Es|]. split; [exact (host3_up i h Eh)|]. split; [exact (operates3 i s Es)|exact En].
Qed.
Lemma replicas_agree_witness : ∃ s s', server3 1 = Some s ∧ server3 2 = Some s' ∧ sv_applied s = 2 ∧ sv_applied s' = 2 ∧
  ∃ rs, applyAll (omap decoded (a_slice (absLog (sv_log s')) (sv_applied s + 1) (sv_applied s' + 1))) (sv_sm s) = Ret (rs, sv_sm s').
Proof.
  assert (E : sv_applied <$> server3 1 = Some 2 ∧ sv_applied <$> server3 2 = Some 2) by (vm_compute; split; reflexivity).
  destruct (core3 1) as (s & h & Es & Hh & Ho & En); [repeat constructor|]. destruct (core3 2) as (s' & h' & Es' & Hh' & Ho' & En'); [repeat constructor|].
  rewrite Es, Es' in E. destruct E as [E E']. injection E as E. injection E' as E'. exists s, s'. split_and!; [exact Es|exact Es'|exact E|exact E'|].
  apply (replicas_agree conf3 [1; 2; 3] init3 final_put.1 final_put.2 1 2 h h' s s' same_voters3); [done|exact run_put|exact Hh|exact Hh'|exact Ho|exact Ho'|exact En|exact En'|lia].
Defined.
