(* ===== verification/Parallaxd.v ===== *)
(** * The daemon's command line (src/cmd/parallaxd/main.go)

    [parsePeerMap] reads the flags --peers and --client-peers; [daemonConfig] is
    [run] up to [server.New], from the parsed flags to a configuration or the
    error that is printed.  What the daemon accepts, the core accepts. *)

From Stdlib Require String.
From S2P Require Import Prelude GoStrings RaftTypes Storage RaftLog ReadOnly Raft Node KvCodec KvStateMachine Server.
Import (notations) String.

Inductive peers_error : Type :=
| ErrEmptyMap
| ErrMissingEq (part : list byte)
| ErrBadID (part : list byte) (e : num_error)
| ErrZeroID (part : list byte)
| ErrEmptyAddr (part : list byte)
| ErrDuplicateID (id : Z)
| ErrNoEntries.

(** The loop body of [parsePeerMap]. *)
Definition addEntry (part : list byte) (m : gmap Z (list byte)) : result peers_error (gmap Z (list byte)) :=
  let part := TrimSpace part in
  if decide (part = []) then Ok m else
  let eq := IndexByte part x3d in
  if eq <? 0 then Err (ErrMissingEq part) else
  match ParseUint (TrimSpace (take (Z.to_nat eq) part)) with
  | Err e => Err (ErrBadID part e)
  | Ok id =>
      if id =? 0 then Err (ErrZeroID part) else
      let addr := TrimSpace (drop (Z.to_nat (eq + 1)) part) in
      if decide (addr = []) then Err (ErrEmptyAddr part) else
      match m !! id with
      | Some _ => Err (ErrDuplicateID id)
      | None => Ok (<[id := addr]> m)
      end
  end.
Fixpoint addEntries (parts : list (list byte)) (m : gmap Z (list byte)) : result peers_error (gmap Z (list byte)) :=
  match parts with
  | [] => Ok m
  | part :: parts =>
      match addEntry part m with
      | Err e => Err e
      | Ok m => addEntries parts m
      end
  end.
Definition parsePeerMap (s : list byte) : result peers_error (gmap Z (list byte)) :=
  if decide (TrimSpace s = []) then Err ErrEmptyMap else
  match addEntries (Split x2c s) ∅ with
  | Err e => Err e
  | Ok m => if decide (size m = 0%nat) then Err ErrNoEntries else Ok m
  end.

(** The flags, parsed. *)
Record daemon_flags : Type := mkFlags {
  fl_id : Z;
  fl_peers : list byte;
  fl_clientPeers : list byte;
  fl_dataDir : list byte;
  fl_listen : list byte;
  fl_tickMillis : Z;
  fl_heartbeatTicks : Z;
  fl_electionTicks : Z;
  fl_unsafeNoSync : bool
}.
(** [server.Config]. *)
Record full_config : Type := mkFullConfig {
  fc_ID : Z;
  fc_Peers : gmap Z (list byte);
  fc_ClientAddrs : option (gmap Z (list byte));
  fc_DataDir : list byte;
  fc_ListenPeer : list byte;
  fc_ListenClient : list byte;
  fc_TickIntervalMillis : Z;
  fc_ElectionTicks : Z;
  fc_HeartbeatTicks : Z;
  fc_UnsafeNoSync : bool
}.
Inductive daemon_error : Type :=
| ErrFlagID
| ErrFlagDataDir
| ErrFlagListen
| ErrFlagPeers (e : peers_error)
| ErrFlagSelf (id : Z)
| ErrFlagClientPeers (e : peers_error).

Definition clientMapOf (s : list byte) : result peers_error (option (gmap Z (list byte))) :=
  if decide (s = []) then Ok None
  else match parsePeerMap s with Err e => Err e | Ok m => Ok (Some m) end.
Definition daemonConfig (f : daemon_flags) : result daemon_error full_config :=
  if fl_id f =? 0 then Err ErrFlagID else
  if decide (fl_dataDir f = []) then Err ErrFlagDataDir else
  if decide (fl_listen f = []) then Err ErrFlagListen else
  match parsePeerMap (fl_peers f) with
  | Err e => Err (ErrFlagPeers e)
  | Ok peerMap =>
      match peerMap !! fl_id f with
      | None => Err (ErrFlagSelf (fl_id f))
      | Some self =>
          match clientMapOf (fl_clientPeers f) with
          | Err e => Err (ErrFlagClientPeers e)
          | Ok clientMap =>
              Ok (mkFullConfig (fl_id f) peerMap clientMap (fl_dataDir f) self (fl_listen f)
                    (fl_tickMillis f) (fl_electionTicks f) (fl_heartbeatTicks f) (fl_unsafeNoSync f))
          end
      end
  end.

(** What [server.New] reads of it, the peers in the order [ids] of the map's
    iteration. *)
Definition serverConfig (c : full_config) (ids : list Z) : srv_config :=
  mkSrvConfig (fc_ID c) ids (fc_TickIntervalMillis c) (fc_ElectionTicks c) (fc_HeartbeatTicks c).

(** ** What a peer map holds *)

Definition peers_ok (m : gmap Z (list byte)) : Prop :=
  map_Forall (λ id addr, 1 ≤ id < u64_mod ∧ addr ≠ [] ∧ trimmed addr) m.

Lemma addEntry_ok part m m' : addEntry part m = Ok m' → peers_ok m → peers_ok m'.
Proof.
  unfold addEntry. case_decide; [by intros [= <-]|]. destruct (_ <? 0); [done|]. destruct (ParseUint _) as [id|] eqn:Ep; [|done].
  apply ParseUint_u64 in Ep. unfold is_u64 in Ep. destruct (Z.eqb_spec id 0); [done|]. case_decide; [done|].
  destruct (m !! id); [done|]. intros [= <-] Hm. apply map_Forall_insert_2; [|done]. split_and!; [lia|lia|done|apply TrimSpace_trimmed].
Qed.
Lemma addEntries_ok parts m m' : addEntries parts m = Ok m' → peers_ok m → peers_ok m'.
Proof.
  revert m. induction parts as [|part parts IH]; intros m E Hm; simpl in E; [by injection E as <-|].
  destruct (addEntry part m) as [m1|] eqn:E1; [|done]. eapply IH; [done|]. by eapply addEntry_ok.
Qed.
Lemma parsePeerMap_ok s m : parsePeerMap s = Ok m → m ≠ ∅ ∧ peers_ok m.
Proof.
  unfold parsePeerMap. case_decide; [done|]. destruct (addEntries _ _) as [m1|] eqn:E; [|done]. case_decide as Hs; [done|].
  intros [= <-]. split; [intros ->; by rewrite map_size_empty in Hs|]. by eapply addEntries_ok, map_Forall_empty.
Qed.

(** ** Printing peer maps as the usage text does *)

Definition printEntry (p : Z * list byte) : list byte := FormatUint p.1 ++ x3d :: p.2.
Definition printPeers (l : list (Z * list byte)) : list byte := joined [x2c] (printEntry <$> l).

Definition printable (p : Z * list byte) : Prop := 1 ≤ p.1 < u64_mod ∧ p.2 ≠ [] ∧ trimmed p.2 ∧ x2c ∉ p.2.

#[export] Instance printable_dec p : Decision (printable p).
Proof. unfold printable. apply _. Defined.

Lemma digits_free c ds : Forall is_digit ds → ¬ is_digit c → c ∉ ds.
Proof. intros Hd Hc Hin. rewrite Forall_forall in Hd. by apply Hc, Hd. Qed.
(** No space contains a digit, an equals sign or a comma. *)
Lemma spaces_plain p : p ∈ spaces → Forall (λ c, ¬ is_digit c ∧ c ≠ x3d ∧ c ≠ x2c) p.
Proof.
  assert (Hall : Forall (Forall (λ c, ¬ is_digit c ∧ c ≠ x3d ∧ c ≠ x2c)) spaces).
  { unfold is_digit. apply (bool_decide_unpack _). by vm_compute. }
  rewrite Forall_forall in Hall. apply Hall.
Qed.
Lemma digits_trimmed ds : Forall is_digit ds → trimmed ds.
Proof.
  intros Hd p Hp. pose proof (spaces_plain p Hp) as Hs. assert (Hne : p ≠ []) by (intros ->; by apply (proj1 spaces_nonempty)).
  destruct p as [|c p]; [done|]. apply Forall_cons in Hs as [[Hc _] Hs]. split; intros [k E]; rewrite E in Hd.
  - by apply Forall_cons in Hd as [? _].
  - apply Forall_app in Hd as [_ Hd]. by apply Forall_cons in Hd as [? _].
Qed.
Lemma entry_trimmed p : printable p → trimmed (printEntry p).
Proof.
  intros (Hid & _ & Ht & _). destruct (FormatUint_digits p.1) as (_ & Hd & _); [unfold is_u64; lia|].
  apply trimmed_around; [by apply digits_trimmed|done|]. intros q Hq Hin. pose proof (spaces_plain q Hq) as Hs.
  rewrite Forall_forall in Hs. by destruct (Hs _ Hin) as (_ & ? & _).
Qed.
Lemma printPeers_trimmed l : Forall printable l → trimmed (printPeers l).
Proof.
  unfold printPeers. induction 1 as [|p l Hp Hl IH]; [by apply digits_trimmed|]. destruct l as [|q l]; [by apply entry_trimmed|].
  apply trimmed_around; [by apply entry_trimmed|exact IH|]. intros s Hq Hin. pose proof (spaces_plain s Hq) as Hs.
  rewrite Forall_forall in Hs. by destruct (Hs _ Hin) as (_ & _ & ?).
Qed.
Lemma addEntry_print p m : printable p → m !! p.1 = None → addEntry (printEntry p) m = Ok (<[p.1 := p.2]> m).
Proof.
  intros Hp Hm. pose proof Hp as (Hid & Hne & Ht & _). destruct (FormatUint_digits p.1) as (Hd0 & Hd & Hv); [unfold is_u64; lia|].
  unfold addEntry. rewrite (TrimSpace_fixed _ (entry_trimmed p Hp)). rewrite decide_False by (unfold printEntry; by destruct (FormatUint p.1)).
  unfold printEntry. rewrite IndexByte_app by (apply digits_free; [done|unfold is_digit; change (b2z x3d) with 61; lia]).
  pose proof (zlen_nonneg (FormatUint p.1)). destruct (Z.ltb_spec (zlen (FormatUint p.1)) 0); [lia|].
  rewrite take_app_length' by (unfold zlen; lia). rewrite (TrimSpace_fixed (FormatUint _)) by (by apply digits_trimmed).
  rewrite ParseUint_FormatUint by (unfold is_u64; lia). destruct (Z.eqb_spec p.1 0); [lia|].
  rewrite cons_middle, app_assoc, drop_app_length' by (rewrite length_app; unfold zlen; simpl; lia).
  rewrite (TrimSpace_fixed _ Ht), decide_False by done. by rewrite Hm.
Qed.
Lemma addEntries_print l m :
  Forall printable l → NoDup l.*1 → (∀ p, p ∈ l → m !! p.1 = None) → addEntries (printEntry <$> l) m = Ok (list_to_map l ∪ m).
Proof.
  revert m. induction l as [|p l IH]; intros m Hp Hn Hm; simpl; [by rewrite (left_id_L ∅ (∪))|].
  apply Forall_cons in Hp as [Hp Hl]. apply NoDup_cons in Hn as [Hnot Hn]. rewrite addEntry_print by (try done; apply Hm; by left).
  rewrite IH; [|done|done|].
  - f_equal. destruct p as [id a]. simpl in *. rewrite <-insert_union_r, <-insert_union_l; [done|].
    by apply not_elem_of_list_to_map_1.
  - intros q Hq. rewrite lookup_insert_ne; [apply Hm; by right|]. intros E. apply Hnot. rewrite E. by apply list_elem_of_fmap_2.
Qed.

(** [withDefaults] multiplies the heartbeat interval past the range of an int. *)
Definition overflows (f : daemon_flags) : Prop :=
  fl_electionTicks f ≤ fl_heartbeatTicks f ∧ u64_mod / 2 ≤ 10 * fl_heartbeatTicks f.

(** A command line the daemon accepts. *)
Lemma daemonConfig_fits f c ids rnd :
  daemonConfig f = Ok c → ids ≡ₚ (map_to_list (fc_Peers c)).*1 →
  fc_ID c ≠ 0 ∧ fc_Peers c !! fc_ID c = Some (fc_ListenPeer c) ∧
  (validate (raftConfig (withDefaults (serverConfig c ids)) ids rnd) = None ∨
   validate (raftConfig (withDefaults (serverConfig c ids)) ids rnd) = Some ErrElectionTicks ∧ overflows f).
Proof.
  unfold daemonConfig. destruct (Z.eqb_spec (fl_id f) 0) as [|Hid]; [done|]. do 2 (case_decide; [done|]).
  destruct (parsePeerMap (fl_peers f)) as [m|] eqn:Ep; [|done]. apply parsePeerMap_ok in Ep as [_ Hm].
  destruct (m !! fl_id f) as [self|] eqn:Es; [|done]. destruct (clientMapOf _); [|done]. intros [= <-] Hids. simpl in *.
  split_and!; [done..|]. set (v := raftConfig _ _ _). set (hb := if fl_heartbeatTicks f <=? 0 then 5 else fl_heartbeatTicks f).
  assert (Hh : 0 < hb) by (unfold hb; destruct (Z.leb_spec (fl_heartbeatTicks f) 0); lia).
  destruct (Z.leb_spec (cElectionTicks v) hb) as [Hel|Hel].
  - right. split.
    { unfold validate. change (cID v) with (fl_id f). change (cHeartbeatTicks v) with hb.
      rewrite (proj2 (Z.eqb_neq _ _)) by done. by rewrite (proj2 (Z.leb_le _ _)). }
    change (cElectionTicks v) with (if fl_electionTicks f <=? hb then s64 (10 * hb) else fl_electionTicks f) in Hel.
    unfold overflows. change (u64_mod / 2) with 9223372036854775808. destruct (Z.leb_spec (fl_electionTicks f) hb); [|lia].
    destruct (Z.lt_ge_cases (10 * hb) 9223372036854775808).
    { rewrite s64_id in Hel by (change (u64_mod / 2) with 9223372036854775808; lia). lia. }
    unfold hb in *. destruct (Z.leb_spec (fl_heartbeatTicks f) 0); lia.
  - left. apply validate_ok. change (cHeartbeatTicks v) with hb. split_and!; try done.
    + simpl. rewrite Hids. intros ([z ad] & E & Hin)%list_elem_of_fmap. apply elem_of_map_to_list in Hin. apply Hm in Hin. simpl in *. lia.
    + simpl. rewrite Hids. apply NoDup_fst_map_to_list.
    + simpl. rewrite Hids. apply list_elem_of_fmap. exists (fl_id f, self). split; [done|]. by apply elem_of_map_to_list.
Qed.

(** ** Properties *)

(** C33: printing a peer map the way the usage text shows it and parsing the text
    gives the map back, for positive ids and addresses without commas or
    surrounding white space. *)
Theorem parsePeerMap_print l :
  l ≠ [] → Forall printable l → NoDup l.*1 → parsePeerMap (printPeers l) = Ok (list_to_map l).
Proof.
  intros Hne Hl Hn. unfold parsePeerMap. rewrite TrimSpace_fixed by (by apply printPeers_trimmed).
  rewrite decide_False. 2: { destruct l as [|p l]; [done|]. apply Forall_cons in Hl as [(Hid & _) _].
    destruct (FormatUint_digits p.1) as (Hd & _); [unfold is_u64; lia|]. unfold printPeers, printEntry. simpl. by destruct (FormatUint p.1), l. }
  unfold printPeers. rewrite Split_joined; [|by destruct l|].
  2: { apply Forall_fmap. eapply Forall_impl; [exact Hl|]. intros p (Hid & _ & _ & Hc). simpl. unfold printEntry.
       destruct (FormatUint_digits p.1) as (_ & Hd & _); [unfold is_u64; lia|]. rewrite not_elem_of_app, not_elem_of_cons.
       split_and!; [|done|done]. apply digits_free; [done|]. unfold is_digit. change (b2z x2c) with 44. lia. }
  rewrite addEntries_print; [|done|done|done]. rewrite (right_id_L ∅ (∪)). rewrite decide_False; [done|].
  rewrite map_size_list_to_map by done. by destruct l.
Qed.
Definition peers3 : list (Z * list byte) := [(1, $"localhost:7101"); (2, $"localhost:7102"); (3, $"localhost:7103")].
Lemma parsePeerMap_print_witness :
  printPeers peers3 = $"1=localhost:7101,2=localhost:7102,3=localhost:7103" ∧ parsePeerMap (printPeers peers3) = Ok (list_to_map peers3).
Proof.
  split; [done|]. apply (parsePeerMap_print peers3); [done|..]; apply (bool_decide_unpack _); by vm_compute.
Defined.

(** Unless the heartbeat interval overflows, a command line the daemon accepts gives a configuration [server.New] and
    the core accept: the id is positive and among the peers, the peers are
    positive and distinct, and after the defaults the heartbeat interval is
    positive and below the election timeout. *)
Theorem daemonConfig_valid f c ids rnd :
  daemonConfig f = Ok c → ids ≡ₚ (map_to_list (fc_Peers c)).*1 → ¬ overflows f →
  fc_Peers c !! fc_ID c = Some (fc_ListenPeer c) ∧ peers_ok (fc_Peers c) ∧
  validate (raftConfig (withDefaults (serverConfig c ids)) ids rnd) = None.
Proof.
  intros E Hids Hhb. destruct (daemonConfig_fits f c ids rnd E Hids) as (_ & Hself & [Hv|[_ Hv]]); [|done].
  split_and!; [done| |done].
  clear -E. unfold daemonConfig in E. destruct (fl_id f =? 0); [done|]. do 2 (case_decide; [done|]).
  destruct (parsePeerMap (fl_peers f)) as [m|] eqn:Ep; [|done]. apply parsePeerMap_ok in Ep as [_ Hm].
  destruct (m !! fl_id f); [|done]. destruct (clientMapOf _); [|done]. by injection E as <-.
Qed.
Definition flags1 : daemon_flags := mkFlags 1 ($" 1=localhost:7101, 2=localhost:7102 ,3=localhost:7103,") [] ($"/var/lib/parallax/1") ($"localhost:8101") 20 5 50 false.
Definition config1 : full_config := mkFullConfig 1 (list_to_map peers3) None ($"/var/lib/parallax/1") ($"localhost:7101") ($"localhost:8101") 20 50 5 false.
Lemma daemonConfig_valid_witness :
  daemonConfig flags1 = Ok config1 ∧ validate (raftConfig (withDefaults (serverConfig config1 [3; 1; 2])) [3; 1; 2] (mkRand (λ _, 0) 0)) = None.
Proof.
  assert (E : daemonConfig flags1 = Ok config1) by (by vm_compute). split; [done|].
  apply (daemonConfig_valid flags1 config1 [3; 1; 2] (mkRand (λ _, 0) 0) E); [|intros [H _]; change (50 ≤ 5) in H; lia].
  change (fc_Peers config1) with (list_to_map peers3 : gmap Z (list byte)). rewrite map_to_list_to_map by (apply (bool_decide_unpack _); by vm_compute). apply (bool_decide_unpack _). by vm_compute.
Defined.
