(* ===== verification/Transport.v ===== *)
(** * The peer transport (src/transport/grpc/conv.go, grpc.go)

    The conversions to and from the wire messages, the bounded per-peer queues
    of [Send], the worker that forwards a batch, and the inbound buffer that
    [Step] fills.  A Go channel is the list of what it holds, its capacity a
    constant; gRPC itself is the outcome of a dial and of a call.  A link loses
    messages but neither duplicates, alters nor invents any; it reorders them
    only when the request of a failed call is handled late. *)

From S2P Require Import Prelude RaftTypes.

(** ** conv.go *)

Record pbEntry : Type := mkPbEntry {
  pe_Term : Z;
  pe_Index : Z;
  pe_Type : Z;
  pe_Data : list byte
}.
Record pbSnapshot : Type := mkPbSnapshot {
  psn_Index : Z;
  psn_Term : Z;
  psn_Data : list byte
}.
Record pbMessage : Type := mkPbMessage {
  pm_Type : Z;
  pm_From : Z;
  pm_To : Z;
  pm_Term : Z;
  pm_LogIndex : Z;
  pm_LogTerm : Z;
  pm_Entries : list pbEntry;
  pm_Commit : Z;
  pm_Reject : bool;
  pm_RejectHint : Z;
  pm_HintTerm : Z;
  pm_Snapshot : option pbSnapshot;
  pm_Context : list byte
}.

(** The numbers of the message types. *)
Definition type_code (t : MessageType) : Z :=
  match t with
  | MsgUnknown => 0
  | MsgPropose => 1
  | MsgReadIndex => 2
  | MsgPreVote => 3
  | MsgPreVoteResp => 4
  | MsgVote => 5
  | MsgVoteResp => 6
  | MsgAppend => 7
  | MsgAppendResp => 8
  | MsgHeartbeat => 9
  | MsgHeartbeatResp => 10
  | MsgInstallSnapshot => 11
  | MsgInstallSnapshotResp => 12
  | MsgOther n => n
  end.
(** [raft.MessageType(n)]: the cast to [uint8]. *)
Definition type_of_code (n : Z) : MessageType :=
  let n := n mod 256 in
  if n =? 0 then MsgUnknown else
  if n =? 1 then MsgPropose else
  if n =? 2 then MsgReadIndex else
  if n =? 3 then MsgPreVote else
  if n =? 4 then MsgPreVoteResp else
  if n =? 5 then MsgVote else
  if n =? 6 then MsgVoteResp else
  if n =? 7 then MsgAppend else
  if n =? 8 then MsgAppendResp else
  if n =? 9 then MsgHeartbeat else
  if n =? 10 then MsgHeartbeatResp else
  if n =? 11 then MsgInstallSnapshot else
  if n =? 12 then MsgInstallSnapshotResp else MsgOther n.

Definition toProtoEntry (e : Entry) : pbEntry :=
  mkPbEntry (eTerm e) (eIndex e) (b2z (eType e)) (eData e).

Definition toProto (m : Message) : pbMessage :=
  mkPbMessage (type_code (mType m)) (mFrom m) (mTo m) (mTerm m) (mLogIndex m) (mLogTerm m)
    (map toProtoEntry (mEntries m)) (mCommit m) (mReject m) (mRejectHint m) (mHintTerm m)
    (match mSnapshot m with
     | Some s => Some (mkPbSnapshot (smIndex (snMetadata s)) (smTerm (snMetadata s)) (snData s))
     | None => None
     end) (mContext m).

Definition fromProto (pm : pbMessage) : Message :=
  mkMessage (type_of_code (pm_Type pm)) (pm_From pm) (pm_To pm) (pm_Term pm) (pm_LogIndex pm) (pm_LogTerm pm)
    (map (λ pe, mkEntry (pe_Term pe) (pe_Index pe) (z2b (pe_Type pe)) (pe_Data pe)) (pm_Entries pm))
    (pm_Commit pm) (pm_Reject pm) (pm_RejectHint pm) (pm_HintTerm pm)
    (match pm_Snapshot pm with
     | Some ps => Some (mkSnapshot (mkSnapshotMetadata (psn_Index ps) (psn_Term ps)) (psn_Data ps))
     | None => None
     end) (pm_Context pm).

(** ** grpc.go *)

Definition outboundQueue : Z := 256.
Definition recvQueue : Z := 1024.

(** [select { case ch <- x: default: }] *)
Definition trySend {A} (cap : Z) (ch : list A) (x : A) : list A :=
  if zlen ch <? cap then ch ++ [x] else ch.

Record peerSender : Type := mkPeerSender {
  ps_addr : list byte;
  ps_ch : list (list Message);
  ps_client : bool
}.
Definition set_ch v (s : peerSender) : peerSender := mkPeerSender (ps_addr s) v (ps_client s).
Definition set_client v (s : peerSender) : peerSender := mkPeerSender (ps_addr s) (ps_ch s) v.

Record PeerTransport : Type := mkPeerTransport {
  pt_self : Z;
  pt_peers : gmap Z (list byte);
  pt_recvCh : list Message;
  pt_senders : gmap Z peerSender;
  pt_closed : bool
}.
Definition set_senders v (t : PeerTransport) : PeerTransport :=
  mkPeerTransport (pt_self t) (pt_peers t) (pt_recvCh t) v (pt_closed t).
Definition set_recvCh v (t : PeerTransport) : PeerTransport :=
  mkPeerTransport (pt_self t) (pt_peers t) v (pt_senders t) (pt_closed t).

(** [NewPeerTransport], up to the listener. *)
Definition NewPeerTransport (self : Z) (peers : gmap Z (list byte)) : option PeerTransport :=
  match peers !! self with
  | Some _ => Some (mkPeerTransport self peers [] ∅ false)
  | None => None
  end.

(** The RPC handler of the inbound service. *)
Definition Transport_Step (pms : list pbMessage) (t : PeerTransport) : PeerTransport :=
  foldl (λ t pm, set_recvCh (trySend recvQueue (pt_recvCh t) (fromProto pm)) t) t pms.

Definition sender (id : Z) (t : PeerTransport) : PeerTransport * option peerSender :=
  if pt_closed t then (t, None) else
  match pt_senders t !! id with
  | Some s => (t, Some s)
  | None =>
      match pt_peers t !! id with
      | None => (t, None)
      | Some addr =>
          let s := mkPeerSender addr [] false in
          (set_senders (<[id := s]> (pt_senders t)) t, Some s)
      end
  end.

(** The grouping of [Send]. *)
Definition byPeer (self : Z) (msgs : list Message) : gmap Z (list Message) :=
  foldl (λ b m, if (mTo m =? 0) || (mTo m =? self) then b
                else <[mTo m := default [] (b !! mTo m) ++ [m]]> b) ∅ msgs.
(** The body of [Send]'s second loop. *)
Definition enqueue (t : PeerTransport) (p : Z * list Message) : PeerTransport :=
  let '(to, batch) := p in
  match sender to t with
  | (t, None) => t
  | (t, Some s) => set_senders (<[to := set_ch (trySend outboundQueue (ps_ch s) batch) s]> (pt_senders t)) t
  end.
(** The map is iterated in some order; each iteration touches one queue. *)
Definition Send (msgs : list Message) (t : PeerTransport) : PeerTransport :=
  if zlen msgs =? 0 then t else foldl enqueue t (map_to_list (byPeer (pt_self t) msgs)).

(** One iteration of [run] that finds a batch: [dialed] and [called] are the
    outcomes of the dial and of the call.  The result is the request, if one
    is sent; the peer may handle the request of a failed call, then or later. *)
Definition run_batch (dialed called : bool) (s : peerSender) : peerSender * option (list pbMessage) :=
  match ps_ch s with
  | [] => (s, None)
  | batch :: ch =>
      let s := set_ch ch s in
      if negb (ps_client s) && negb dialed then (s, None) else
      (set_client called s, Some (map toProto batch))
  end.

(** The workers stop with it, at the latest after the batch in hand. *)
Definition Transport_Close (t : PeerTransport) : PeerTransport :=
  if pt_closed t then t
  else mkPeerTransport (pt_self t) (pt_peers t) (pt_recvCh t) ∅ true.

(** ** Conversions *)

(** A type the enumeration has, or a number it does not use. *)
Definition type_ok (t : MessageType) : Prop :=
  match t with MsgOther n => 13 ≤ n < 256 | _ => True end.

Lemma type_code_inv t : type_ok t → type_of_code (type_code t) = t.
Proof.
  destruct t as [| | | | | | | | | | | | |n]; try done. simpl. intros Hn. unfold type_of_code. rewrite Z.mod_small by lia.
  repeat (rewrite (proj2 (Z.eqb_neq _ _)) by lia). done.
Qed.
Lemma fromProto_toProto m : type_ok (mType m) → fromProto (toProto m) = m.
Proof.
  intros Ht. unfold fromProto, toProto. simpl. rewrite (type_code_inv _ Ht), map_map. destruct m as [? ? ? ? ? ? es ? ? ? ? sn]. simpl. f_equal.
  - rewrite <-(map_id es) at 2. apply map_ext. intros []. unfold toProtoEntry. simpl. by rewrite z2b_b2z.
  - by destruct sn as [[[] ?]|].
Qed.

(** Converting a message to the wire and back gives the message. *)
Theorem wire_roundtrip m : type_ok (mType m) → fromProto (toProto m) = m.
Proof. apply fromProto_toProto. Qed.

(** ** A link *)

Lemma trySend_sublist {A} cap (ch : list A) x : trySend cap ch x `sublist_of` ch ++ [x].
Proof. unfold trySend. destruct (_ <? _); [done|]. by apply sublist_inserts_r. Qed.
Lemma trySend_cap {A} cap (ch : list A) x : zlen ch ≤ cap → zlen (trySend cap ch x) ≤ cap.
Proof. intros ?. unfold trySend. destruct (Z.ltb_spec (zlen ch) cap); [|done]. rewrite zlen_app. change (zlen [x]) with 1. lia. Qed.

(** What waits for peer [p]. *)
Definition batches (t : PeerTransport) (p : Z) : list (list Message) := from_option ps_ch [] (pt_senders t !! p).

Lemma byPeer_filter self msgs p :
  p ≠ 0 → p ≠ self → default [] (byPeer self msgs !! p) = filter (λ m, mTo m = p) msgs.
Proof.
  intros H0 Hs. unfold byPeer. induction msgs as [|m msgs IH] using rev_ind; [done|].
  rewrite foldl_app, filter_app. simpl. rewrite <-IH. clear IH. set (b := foldl _ _ _).
  destruct (decide (mTo m = p)) as [E|E].
  - rewrite filter_cons_True, filter_nil, E by done.
    destruct (Z.eqb_spec p 0), (Z.eqb_spec p self); try done. simpl. by rewrite lookup_insert_eq.
  - rewrite filter_cons_False, filter_nil, app_nil_r by done.
    destruct (_ || _); [done|]. by rewrite lookup_insert_ne.
Qed.

Lemma enqueue_spec t to batch p :
  concat (batches (enqueue t (to, batch)) p) `sublist_of` concat (batches t p) ++ (if decide (to = p) then batch else []) ∧
  (zlen (batches t p) ≤ outboundQueue → zlen (batches (enqueue t (to, batch)) p) ≤ outboundQueue) ∧
  pt_self (enqueue t (to, batch)) = pt_self t.
Proof.
  unfold enqueue, sender. assert (Hno : concat (batches t p) `sublist_of` concat (batches t p) ++ (if decide (to = p) then batch else [])) by by apply sublist_inserts_r.
  destruct (pt_closed t); [done|].
  assert (Hins : ∀ t' s, pt_senders t' = pt_senders t ∨ pt_senders t' = <[to:=s]> (pt_senders t) → pt_self t' = pt_self t →
    ps_ch s = batches t to →
    let t'' := set_senders (<[to:=set_ch (trySend outboundQueue (ps_ch s) batch) s]> (pt_senders t')) t' in
    concat (batches t'' p) `sublist_of` concat (batches t p) ++ (if decide (to = p) then batch else []) ∧
    (zlen (batches t p) ≤ outboundQueue → zlen (batches t'' p) ≤ outboundQueue) ∧ pt_self t'' = pt_self t).
  { intros t' s Hs' Hself Hch t''.
    assert (Hb : batches t'' p = if decide (to = p) then trySend outboundQueue (batches t p) batch else batches t p).
    { unfold t'', batches at 1. simpl. destruct (decide (to = p)) as [->|Hne].
      - rewrite lookup_insert_eq. simpl. by rewrite Hch.
      - rewrite lookup_insert_ne by done. unfold batches. destruct Hs' as [->| ->]; [done|]. by rewrite lookup_insert_ne. }
    rewrite Hb. destruct (decide (to = p)) as [->|Hne]; [|by rewrite app_nil_r]. split_and!; [|apply trySend_cap|done].
    unfold trySend. destruct (_ <? _); [|done]. by rewrite concat_app, concat_cons, app_nil_r. }
  destruct (pt_senders t !! to) as [s|] eqn:Es.
  - apply Hins; [by left|done|]. unfold batches. by rewrite Es.
  - destruct (pt_peers t !! to) as [addr|]; [|done]. apply Hins; [by right|done|]. unfold batches. by rewrite Es.
Qed.

Lemma enqueues_spec l t p :
  NoDup l.*1 → zlen (batches t p) ≤ outboundQueue →
  concat (batches (foldl enqueue t l) p) `sublist_of` concat (batches t p) ++ default [] ((list_to_map l : gmap Z _) !! p) ∧
  zlen (batches (foldl enqueue t l) p) ≤ outboundQueue ∧ pt_self (foldl enqueue t l) = pt_self t.
Proof.
  revert t. induction l as [|[to batch] l IH]; intros t Hnd Hcap; [simpl; by rewrite lookup_empty, app_nil_r|].
  cbn [foldl]. rewrite list_to_map_cons. apply NoDup_cons in Hnd as [Hto Hnd]. destruct (enqueue_spec t to batch p) as (H1 & H2 & H3).
  destruct (IH (enqueue t (to, batch)) Hnd (H2 Hcap)) as (H4 & H5 & H6). split_and!; [|done|congruence].
  etrans; [exact H4|]. destruct (decide (to = p)) as [->|Hne].
  - rewrite lookup_insert_eq, not_elem_of_list_to_map_1 by done. simpl. by rewrite app_nil_r.
  - rewrite lookup_insert_ne by done. rewrite app_nil_r in H1. by apply sublist_app.
Qed.
Lemma Send_spec msgs t p :
  p ≠ 0 → p ≠ pt_self t → zlen (batches t p) ≤ outboundQueue →
  concat (batches (Send msgs t) p) `sublist_of` concat (batches t p) ++ filter (λ m, mTo m = p) msgs ∧
  zlen (batches (Send msgs t) p) ≤ outboundQueue ∧ pt_self (Send msgs t) = pt_self t.
Proof.
  intros H0 Hs Hcap. unfold Send. destruct (Z.eqb_spec (zlen msgs) 0) as [E|].
  { apply zlen_zero in E as ->. by rewrite filter_nil, app_nil_r. }
  pose proof (enqueues_spec (map_to_list (byPeer (pt_self t) msgs)) t p (NoDup_fst_map_to_list _) Hcap) as Hq.
  rewrite list_to_map_to_list, byPeer_filter in Hq by done. done.
Qed.
Lemma Transport_Step_spec pms t :
  zlen (pt_recvCh t) ≤ recvQueue →
  pt_recvCh (Transport_Step pms t) `sublist_of` pt_recvCh t ++ map fromProto pms ∧
  zlen (pt_recvCh (Transport_Step pms t)) ≤ recvQueue ∧ pt_self (Transport_Step pms t) = pt_self t.
Proof.
  unfold Transport_Step. revert t. induction pms as [|pm pms IH]; intros t Hcap; simpl; [by rewrite app_nil_r|].
  destruct (IH (set_recvCh (trySend recvQueue (pt_recvCh t) (fromProto pm)) t)) as (H1 & H2 & H3); [by apply trySend_cap|].
  split_and!; [|done..]. etrans; [exact H1|]. simpl. rewrite (cons_middle (fromProto pm)), app_assoc.
  apply sublist_app; [apply trySend_sublist|done].
Qed.

(** The transports of the two ends, what the receiving drive loop took, what the
    peer has yet to handle of the call in progress, and of calls that failed
    (the deadline passed or the stream broke): their handlers may still run. *)
Record link : Type := mkLink {
  lk_src : PeerTransport;
  lk_dst : PeerTransport;
  lk_got : list Message;
  lk_call : list pbMessage;
  lk_late : list (list pbMessage)
}.
Definition newLink (src dst : PeerTransport) : link := mkLink src dst [] [] [].
Inductive link_op : Type :=
| LSend (msgs : list Message)
(* the worker takes a batch; the call succeeds or call_fails *)
| LWork (dialed called : bool)
(* a handler of the peer takes its next message: that of the call in progress,
   or of a failed one *)
| LHandle (late : option nat)
| LRecv.
Definition link_step (L : link) (o : link_op) : link :=
  let '(mkLink src dst got call late) := L in
  let p := pt_self dst in
  match o with
  | LSend msgs => mkLink (Send msgs src) dst got call late
  | LWork dialed called =>
      (* a call returns without error only once its handler has *)
      match pt_senders src !! p, call with
      | Some s, [] =>
          let '(s, req) := run_batch dialed called s in
          let src := set_senders (<[p := s]> (pt_senders src)) src in
          match req with
          | Some pms => if called then mkLink src dst got pms late else mkLink src dst got [] (late ++ [pms])
          | None => mkLink src dst got [] late
          end
      | _, _ => L
      end
  | LHandle None =>
      match call with
      | [] => L
      | pm :: call => mkLink src (Transport_Step [pm] dst) got call late
      end
  | LHandle (Some k) =>
      match late !! k with
      | Some (pm :: pms) => mkLink src (Transport_Step [pm] dst) got call (<[k := pms]> late)
      | _ => L
      end
  | LRecv =>
      match pt_recvCh dst with
      | [] => L
      | m :: ch => mkLink src (set_recvCh ch dst) (got ++ [m]) call late
      end
  end.
Definition sends (o : link_op) : list Message := match o with LSend msgs => msgs | _ => [] end.
(** Whether it is a call that fails. *)
Definition call_fails (o : link_op) : bool := match o with LWork _ called => negb called | _ => false end.

(** Everything taken, buffered, in a request and queued for [p]. *)
Definition wire (p : Z) (L : link) : list Message :=
  lk_got L ++ pt_recvCh (lk_dst L) ++ map fromProto (lk_call L) ++ concat (map (map fromProto) (lk_late L)) ++
  concat (batches (lk_src L) p).

Record link_ok (p : Z) (L : link) : Prop := mkLinkOk {
  lo_dst : pt_self (lk_dst L) = p;
  lo_src : pt_self (lk_src L) ≠ p;
  lo_out : zlen (batches (lk_src L) p) ≤ outboundQueue;
  lo_in : zlen (pt_recvCh (lk_dst L)) ≤ recvQueue
}.

Lemma sublist_app_2 {A} (l k k' : list A) : k `sublist_of` k' → l ++ k `sublist_of` l ++ k'.
Proof. by apply sublist_app. Qed.
Lemma insert_concat {A} k (x : A) l (ls : list (list A)) :
  ls !! k = Some (x :: l) → x :: concat (<[k := l]> ls) ≡ₚ concat ls.
Proof.
  intros E. rewrite <-(take_drop_middle ls k _ E) at 2.
  rewrite (insert_take_drop ls k l) by (by eapply lookup_lt_Some).
  rewrite !concat_app. simpl. rewrite <-Permutation_middle. done.
Qed.
Lemma fromProto_toProtos ms : Forall (λ m, type_ok (mType m)) ms → map fromProto (map toProto ms) = ms.
Proof.
  intros Hty. rewrite map_map. rewrite <-(map_id ms) at 2. apply map_ext_in. intros m Hm. apply fromProto_toProto.
  rewrite Forall_forall in Hty. by apply Hty, list_elem_of_In.
Qed.

(** What a step does to the messages under way: a step of a link whose calls
    succeed keeps their order too. *)
Definition carries (p : Z) (new : list Message) (fifo : bool) (L L' : link) : Prop :=
  link_ok p L' ∧ wire p L' ⊆+ wire p L ++ new ∧
  (fifo = true → lk_late L = [] → wire p L' `sublist_of` wire p L ++ new ∧ lk_late L' = []).

Lemma carries_self p fifo L : link_ok p L → carries p [] fifo L L.
Proof. intros ?. unfold carries. by rewrite app_nil_r. Qed.
Lemma carries_sublist p new fifo L L' :
  link_ok p L' → wire p L' `sublist_of` wire p L ++ new → lk_late L' = lk_late L → carries p new fifo L L'.
Proof. intros ? Hs E. split_and!; [done|by apply sublist_submseteq|]. intros _ HL. by rewrite E. Qed.

Lemma carries_work p L dialed called :
  link_ok p L → Forall (λ m, type_ok (mType m)) (wire p L) →
  carries p [] called L (link_step L (LWork dialed called)).
Proof.
  destruct L as [src dst got call late]. intros Hok Hty. pose proof Hok as [<- Hsrc Ho Hi]. simpl in *. set (p := pt_self dst) in *.
  destruct (pt_senders src !! p) as [s|] eqn:Es; [|by apply carries_self]. destruct call; [|by apply carries_self].
  assert (Hb : batches src p = ps_ch s) by (unfold batches; by rewrite Es).
  assert (Hnew : ∀ s', batches (set_senders (<[p:=s']> (pt_senders src)) src) p = ps_ch s')
    by (intros s'; unfold batches; simpl; by rewrite lookup_insert_eq).
  unfold wire in Hty. simpl in Hty. rewrite Hb in *. unfold run_batch. destruct (ps_ch s) as [|batch ch] eqn:Ech.
  { apply carries_sublist; [by split; simpl; rewrite ?Hnew, ?Ech|unfold wire; simpl|done]. by rewrite Hnew, Hb, ?Ech, !app_nil_r. }
  rewrite zlen_cons in Ho. assert (Hbt : map fromProto (map toProto batch) = batch).
  { apply fromProto_toProtos. simpl in Hty. rewrite !Forall_app in Hty. by destruct_and!. }
  destruct (negb _ && negb dialed).
  { apply carries_sublist; [split; simpl; rewrite ?Hnew; simpl; try done; lia| |done].
    unfold wire. simpl. rewrite Hnew, Hb, ?Ech, app_nil_r. do 3 apply sublist_app_2. by apply sublist_inserts_l. }
  destruct called.
  - split_and!; [split; simpl; rewrite ?Hnew; simpl; try done; lia| |].
    + unfold wire. simpl. rewrite Hnew, Hb, ?Ech, Hbt, app_nil_r. simpl. do 2 apply submseteq_skips_l.
      rewrite !app_assoc. apply submseteq_skips_r. by rewrite Permutation_app_comm.
    + intros _ El. simpl in El. subst late. unfold wire. simpl. rewrite Hnew, Hb, ?Ech, Hbt, app_nil_r. done.
  - split_and!; [split; simpl; rewrite ?Hnew; simpl; try done; lia| |done].
    unfold wire. simpl. rewrite Hnew, Hb, ?Ech, map_app, concat_app. simpl. by rewrite Hbt, !app_nil_r, <-!app_assoc.
Qed.
Lemma carries_step p L o :
  p ≠ 0 → link_ok p L → Forall (λ m, type_ok (mType m)) (wire p L) →
  carries p (filter (λ m, mTo m = p) (sends o)) (negb (call_fails o)) L (link_step L o).
Proof.
  intros Hp Hok Hty. destruct o as [msgs|dialed called|[k|]|]; cbn [sends call_fails]; rewrite ?filter_nil, ?negb_involutive.
  - destruct L as [src dst got call late]. pose proof Hok as [<- Hsrc Ho Hi]. simpl in *. set (p := pt_self dst) in *.
    destruct (Send_spec msgs src p Hp) as (H1 & H2 & H3); [done..|].
    apply carries_sublist; [by split; simpl; rewrite ?H3| |done]. unfold wire. simpl. rewrite <-!app_assoc. by do 4 apply sublist_app_2.
  - by apply carries_work.
  - destruct L as [src dst got call late]. pose proof Hok as [<- Hsrc Ho Hi]. simpl in *. set (p := pt_self dst) in *.
    destruct (late !! k) as [[|pm pms]|] eqn:Ek; [by apply carries_self| |by apply carries_self].
    destruct (Transport_Step_spec [pm] dst Hi) as (H1 & H2 & H3). split_and!.
    + by split; simpl; rewrite ?H3.
    + unfold wire. simpl. rewrite app_nil_r. apply submseteq_skips_l. etrans; [apply submseteq_skips_r, sublist_submseteq, H1|].
      rewrite <-!app_assoc. apply submseteq_skips_l. simpl. rewrite Permutation_middle. apply submseteq_skips_l.
      rewrite app_comm_cons. apply submseteq_skips_r. rewrite list_fmap_insert. rewrite insert_concat; [done|].
      change (map (map fromProto) late) with (map fromProto <$> late). by rewrite list_lookup_fmap, Ek.
    + intros _ El. simpl in El. subst late. by rewrite lookup_nil in Ek.
  - destruct L as [src dst got [|pm call] late]; [by apply carries_self|]. pose proof Hok as [<- Hsrc Ho Hi]. simpl in *.
    destruct (Transport_Step_spec [pm] dst Hi) as (H1 & H2 & H3). apply carries_sublist; [by split; simpl; rewrite ?H3| |done].
    unfold wire. simpl. rewrite app_nil_r. apply sublist_app_2. rewrite (cons_middle (fromProto pm)), (app_assoc (pt_recvCh dst)). by apply sublist_app.
  - destruct L as [src dst got call late]. simpl. destruct (pt_recvCh dst) as [|m ch] eqn:E; [by apply carries_self|].
    destruct Hok as [Hd Hsrc Ho Hi]. simpl in *. rewrite E, zlen_cons in Hi.
    apply carries_sublist; [split; simpl; try done; lia| |done]. unfold wire. simpl. by rewrite E, app_nil_r, <-app_assoc.
Qed.
Lemma carries_run p ops L sent :
  p ≠ 0 → link_ok p L → Forall (λ m, type_ok (mType m)) (sent ++ filter (λ m, mTo m = p) (ops ≫= sends)) → wire p L ⊆+ sent →
  let L' := foldl link_step L ops in
  link_ok p L' ∧ wire p L' ⊆+ sent ++ filter (λ m, mTo m = p) (ops ≫= sends) ∧
  (Forall (λ o, call_fails o = false) ops → lk_late L = [] → wire p L `sublist_of` sent →
   wire p L' `sublist_of` sent ++ filter (λ m, mTo m = p) (ops ≫= sends)).
Proof.
  intros Hp. revert sent L. induction ops as [|o ops IH]; intros sent L Hok Hty Hm; simpl; [by rewrite app_nil_r|].
  simpl in Hty. rewrite filter_app, app_assoc in *. apply Forall_app in Hty as Hty1. destruct Hty1 as [Hty1 _].
  destruct (carries_step p L o Hp Hok) as (Hok1 & Hm1 & Hf1).
  { apply Forall_app in Hty1 as [Hs _]. rewrite Forall_forall in Hs |- *. intros m Hin. eapply Hs, elem_of_submseteq; done. }
  destruct (IH (sent ++ filter (λ m, mTo m = p) (sends o)) (link_step L o) Hok1 Hty) as (H1 & H2 & H3).
  { etrans; [exact Hm1|]. by apply submseteq_skips_r. }
  split_and!; [done..|]. intros Hfs El Hs. apply Forall_cons in Hfs as [Ho Hfs]. rewrite Ho in Hf1.
  destruct (Hf1 eq_refl El) as [Hs1 El1]. apply H3; [done..|]. etrans; [exact Hs1|]. by apply sublist_app.
Qed.

(** C27: a link between two transports loses messages but neither invents,
    alters nor duplicates them.  For any interleaving of sends, dials that fail
    or succeed, calls that fail or succeed, handlers of the peer, also of
    requests whose call had failed before, and receives, the messages the
    receiver gets are among those sent to it, each at most as often as it was
    sent; when no call fails they also arrive in the order they were sent.
    Neither queue ever exceeds its bound, so senders never block. *)
Theorem link_lossy self p peers peers' src dst ops :
  p ≠ 0 → self ≠ p → NewPeerTransport self peers = Some src → NewPeerTransport p peers' = Some dst →
  Forall (λ m, type_ok (mType m)) (ops ≫= sends) →
  let L := foldl link_step (newLink src dst) ops in
  lk_got L ⊆+ filter (λ m, mTo m = p) (ops ≫= sends) ∧
  (Forall (λ o, call_fails o = false) ops → lk_got L `sublist_of` filter (λ m, mTo m = p) (ops ≫= sends)) ∧
  zlen (batches (lk_src L) p) ≤ outboundQueue ∧ zlen (pt_recvCh (lk_dst L)) ≤ recvQueue.
Proof.
  intros Hp Hne Hs Hd Hty L. unfold NewPeerTransport in *. destruct (peers !! self); [|done]. destruct (peers' !! p); [|done].
  injection Hs as <-. injection Hd as <-.
  set (L0 := newLink (mkPeerTransport self peers [] ∅ false) (mkPeerTransport p peers' [] ∅ false)).
  assert (E0 : wire p L0 = []) by (unfold wire, batches; simpl; by rewrite lookup_empty).
  destruct (carries_run p ops L0 [] Hp) as (Hok & Hm & Hf).
  { split; simpl; try done; unfold batches, recvQueue, outboundQueue; simpl; rewrite ?lookup_empty; done || lia. }
  { simpl. rewrite Forall_forall in *. intros m [_ Hin]%list_elem_of_filter. by apply Hty. }
  { by rewrite E0. }
  destruct Hok. split_and!; [| |done..].
  - etrans; [|exact Hm]. apply submseteq_inserts_r. done.
  - intros Hfs. etrans; [|apply Hf; [done|done|by rewrite E0]]. by apply sublist_inserts_r.
Qed.

(** ** Examples *)

(** Two messages sent; the call with the first call_fails, its handler runs after
    the second was received. *)
Definition peers12 : gmap Z (list byte) := <[1 := [x61]]> (<[2 := [x62]]> ∅).
Definition two_sends : list link_op :=
  [LSend [Msg MsgAppend 2]; LWork true false; LSend [Msg MsgHeartbeat 2; Msg MsgHeartbeat 1]; LWork true true;
   LHandle None; LRecv; LHandle (Some 0%nat); LRecv].
Lemma link_lossy_witness :
  ∃ src dst, NewPeerTransport 1 peers12 = Some src ∧ NewPeerTransport 2 peers12 = Some dst ∧
    lk_got (foldl link_step (newLink src dst) two_sends) = [Msg MsgHeartbeat 2; Msg MsgAppend 2] ∧
    lk_got (foldl link_step (newLink src dst) two_sends) ⊆+ filter (λ m, mTo m = 2) (two_sends ≫= sends).
Proof.
  eexists _, _. split; [reflexivity|]. split; [reflexivity|]. split; [vm_compute; reflexivity|].
  apply (link_lossy 1 2 peers12 peers12); [done|done|reflexivity|reflexivity|]. vm_compute. repeat constructor.
Defined.
