(* ===== verification/Daemon.v ===== *)
(** * A node's life (src/server/server.go, src/cmd/parallaxd/main.go)

    From the command line to the exit: [server.New] on a data directory,
    [Server.Run] with its transport, client listener and drive loop, and
    [shutdown].  What the operating system answers (the two listeners) and the
    events the drive loop sees before its context ends are arguments.  The
    queues of the transport are the subject of Transport; here only its being
    open or closed matters. *)

From Stdlib Require String.
From S2P Require Import Prelude GoStrings RaftTypes Storage RaftLog ReadOnly Raft Node LogSpec RaftSpec Persist.
From S2P Require Import KvCodec KvStateMachine Server Framing Disk DiskRecovery DiskWal ServerSpec Parallaxd Transport.
Import (notations) String.

(** The fields of [Server] that concern its life, besides the drive loop's. *)
Record process : Type := mkProcess {
  pr_server : Server disk.Storage;
  pr_tr : option PeerTransport;
  (* the address the client listener is bound to *)
  pr_clientLis : option (list byte);
  (* the client service, and whether it is running *)
  pr_clientSrv : option bool;
  (* [closeOnce] has fired *)
  pr_closed : bool
}.
Inductive start_error : Type :=
| ErrOpen (e : errkind)
| ErrNew (e : new_error).
(** [server.New]; [ids] is the order in which the peers are iterated. *)
Definition server_New (c : full_config) (ids : list Z) (rnd : Rand) (d : disk.directory) : outcome (result start_error process) :=
  if fc_ID c =? 0 then Ret (Err (ErrNew ErrServerID)) else
  if decide (fc_Peers c !! fc_ID c = None) then Ret (Err (ErrNew ErrServerPeers)) else
  '(st, e) ← disk.Open d;
  match e with
  | Some e => Ret (Err (ErrOpen e))
  | None =>
      let st := if fc_UnsafeNoSync c then disk.DisableSync st else st in
      r ← NewServer (serverConfig c ids) ids rnd st;
      match r with
      | Err e => Ret (Err (ErrNew e))
      | Ok s => Ret (Ok (mkProcess s None None None false))
      end
  end.

Definition shutdown (p : process) : process :=
  if pr_closed p then p else
  let s := pr_server p in
  mkProcess (putStor (disk.Close (stor s)) s) (Transport_Close <$> pr_tr p) (pr_clientLis p) ((λ _, false) <$> pr_clientSrv p) true.

Definition ClientAddr (c : full_config) (p : process) : list byte := default (fc_ListenClient c) (pr_clientLis p).

Inductive run_error : Type :=
| ErrMissingSelf
| ErrListenPeer (e : Z)
| ErrListenClient (e : Z)
| ErrDrive (e : srv_error).
(** [NewPeerTransport] with the outcome of its [net.Listen]. *)
Definition startTransport (c : full_config) (lisPeer : option Z) : result run_error PeerTransport :=
  match NewPeerTransport (fc_ID c) (fc_Peers c) with
  | None => Err ErrMissingSelf
  | Some tr => match lisPeer with Some e => Err (ErrListenPeer e) | None => Ok tr end
  end.
(** [Run]: [lisPeer] and [lisClient] are what the two calls of [net.Listen]
    return, [evs] the events until the context is cancelled.  The outer [None]
    is a drive loop that runs out of rounds. *)
Definition Run (c : full_config) (lisPeer : option Z) (lisClient : result Z (list byte)) (fuel : nat) (evs : list srv_event)
    (p : process) : outcome (option (option run_error) * process) :=
  match startTransport c lisPeer with
  | Err e => Ret (Some (Some e), p)
  | Ok tr =>
      let p := mkProcess (pr_server p) (Some tr) (pr_clientLis p) (pr_clientSrv p) (pr_closed p) in
      match lisClient with
      | Err e => Ret (Some (Some (ErrListenClient e)), shutdown p)
      | Ok addr =>
          '(r, s) ← driveLoop fuel evs (pr_server p);
          let p := mkProcess s (pr_tr p) (Some addr) (Some true) (pr_closed p) in
          Ret (match r with
               | None => None
               | Some (Ok _) => Some None
               | Some (Err e) => Some (Some (ErrDrive e))
               end, shutdown p)
      end
  end.

Inductive daemon_exit : Type :=
| ExitFlags (e : daemon_error)
| ExitStart (e : start_error)
| ExitRun (e : run_error).
(** [run] of the daemon: the error it prints, if any, and the directory it
    leaves. *)
Definition daemon (f : daemon_flags) (ids : list Z) (rnd : Rand) (lisPeer : option Z) (lisClient : result Z (list byte))
    (fuel : nat) (evs : list srv_event) (d : disk.directory) : outcome (option (option daemon_exit) * disk.directory) :=
  match daemonConfig f with
  | Err e => Ret (Some (Some (ExitFlags e)), d)
  | Ok c =>
      r ← server_New c ids rnd d;
      match r with
      | Err e => Ret (Some (Some (ExitStart e)), d)
      | Ok p =>
          '(r, p) ← Run c lisPeer lisClient fuel evs p;
          Ret (option_map (option_map ExitRun) r, disk.dir (stor (pr_server p)))
      end
  end.

(** ** Properties *)

(** Everything the process opened is closed. *)
Record stopped (p : process) : Prop := mkStopped {
  sp_storage : disk.seg (stor (pr_server p)) = None;
  sp_transport : from_option pt_closed true (pr_tr p) = true;
  sp_service : pr_clientSrv p ≠ Some true
}.
Lemma shutdown_stops p : pr_closed p = false → stopped (shutdown p) ∧ disk.dir (stor (pr_server (shutdown p))) = disk.dir (stor (pr_server p)).
Proof.
  intros E. unfold shutdown. rewrite E. split; [|by destruct p as [[[[]]]]]. split; simpl.
  - by destruct (pr_server p) as [[[]]].
  - destruct (pr_tr p) as [tr|]; [|done]. simpl. unfold Transport_Close. by destruct (pt_closed tr) eqn:Ec.
  - by destruct (pr_clientSrv p).
Qed.
Lemma shutdown_idempotent p : shutdown (shutdown p) = shutdown p.
Proof. assert (E : pr_closed (shutdown p) = true) by (unfold shutdown; by destruct (pr_closed p) eqn:E). unfold shutdown at 1. by rewrite E. Qed.
Lemma startTransport_missing c e lisPeer : is_Some (fc_Peers c !! fc_ID c) → startTransport c lisPeer = Err e → lisPeer ≠ None.
Proof. intros [a Ha]. unfold startTransport, NewPeerTransport. rewrite Ha. by destruct lisPeer. Qed.

(** C35: [Run] leaves nothing open.  Once its peer listener is up, whatever happens
    (a client listener that cannot be opened, an error of the drive loop, the
    context's end), it returns with the segment file closed, the transport
    closed and the client service stopped; a second [shutdown] does nothing,
    and closing changes no file.  Only a node that is missing in its own peer
    map, which [New] refuses, or whose peer listener fails, returns earlier. *)
Theorem run_leaves_nothing_open c ids rnd d p lisPeer lisClient fuel evs r p' :
  server_New c ids rnd d = Ret (Ok p) → Run c lisPeer lisClient fuel evs p = Ret (r, p') →
  (lisPeer ≠ None ∧ p' = p) ∨
  (stopped p' ∧ shutdown p' = p' ∧
   ∃ s, (s = pr_server p ∨ ∃ x, driveLoop fuel evs (pr_server p) = Ret (x, s)) ∧ disk.dir (stor (pr_server p')) = disk.dir (stor s)).
Proof.
  unfold server_New. destruct (fc_ID c =? 0); [done|]. case_decide as Hs; [done|].
  intros ([st e] & _ & E)%outcome_bind_Ret. destruct e; [done|]. apply outcome_bind_Ret in E as (x & _ & E).
  destruct x as [s0|]; [|done]. injection E as <-. unfold Run.
  destruct (startTransport c lisPeer) as [tr|e] eqn:Et.
  - intros HR. right. destruct lisClient as [addr|e].
    + apply outcome_bind_Ret in HR as ([x s] & Ed & [= <- <-]). set (q := mkProcess s _ _ _ _).
      destruct (shutdown_stops q eq_refl) as [H1 H2]. split; [done|]. split; [apply shutdown_idempotent|]. exists s. split; [right; by exists x|done].
    + injection HR as <- <-. match goal with |- context [shutdown ?q0] => set (q := q0) end. destruct (shutdown_stops q eq_refl) as [H1 H2].
      split; [done|]. split; [apply shutdown_idempotent|]. exists s0. split; [by left|done].
  - intros [= <- <-]. left. split; [|done]. eapply startTransport_missing; [|exact Et]. by apply not_eq_None_Some.
Qed.


(** ** Examples *)

(** A node that starts on an empty directory, ticks twice and is stopped. *)
Definition blank_dir : disk.directory := disk.mkDirectory ∅ ∅.
Definition rand0 : Rand := mkRand (λ _, 0) 0.
Definition started : option process := match server_New config1 [3; 1; 2] rand0 blank_dir with Ret (Ok p) => Some p | _ => None end.
Definition stopped_run (p : process) : outcome (option (option run_error) * process) := Run config1 None (Ok ($"127.0.0.1:8101")) 2 [EvTick; EvTick] p.

(** Witness for [run_leaves_nothing_open]. *)
Lemma run_leaves_nothing_open_witness :
  ∃ p p', server_New config1 [3; 1; 2] rand0 blank_dir = Ret (Ok p) ∧ stopped_run p = Ret (Some None, p') ∧ stopped p'.
Proof.
  assert (E : bool_decide (is_Some started) = true ∧ from_option (λ p, match stopped_run p with Ret (Some None, _) => true | _ => false end) false started = true)
    by (vm_compute; split; reflexivity).
  destruct E as [_ E]. unfold started in E. destruct (server_New config1 [3; 1; 2] rand0 blank_dir) as [[p|]|] eqn:En; try discriminate E. simpl in E.
  destruct (stopped_run p) as [[[[]|] p']|] eqn:Er; try discriminate E. exists p, p'. split; [reflexivity|]. split; [exact Er|].
  destruct (run_leaves_nothing_open config1 [3; 1; 2] rand0 blank_dir p None (Ok ($"127.0.0.1:8101")) 2 [EvTick; EvTick] (Some None) p' En Er) as [[H _]|[H _]]; [by destruct H|exact H].
Defined.


(** A heartbeat interval the flags accept and the core refuses. *)
Definition flagsHuge : daemon_flags :=
  mkFlags 1 ($"1=localhost:7101") [] ($"/var/lib/parallax/1") ($"localhost:8101") 20 1000000000000000000 50 false.
Example huge_heartbeat_refused :
  daemon flagsHuge [1] rand0 None (Ok []) 2 [] blank_dir =
    Ret (Some (Some (ExitStart (ErrNew (ErrNewNode (BadConfig ErrElectionTicks))))), blank_dir).
Proof. by vm_compute. Qed.
