(* ===== verification/Restart.v ===== *)
(** * Restarting a node from its data directory

    [lives] are the servers of the production storage: started by [server.New]
    on an empty directory, driven by events, and started again on what a crash
    or a shutdown leaves in the directory.  [durable] is what their storage
    keeps: everything is synced except hard states that differ in the commit
    index alone, which a batch without entries does not sync. *)

From S2P Require Import Prelude RaftTypes Storage RaftLog ReadOnly Raft Node LogSpec RaftSpec Persist LogSafety Election Replication Batch.
From S2P Require Import KvCodec KvStateMachine Server Framing Disk DiskRecovery DiskWal ServerSpec Parallaxd Transport Daemon.
Import disk.

(** ** What is on disk between two events *)




(** ** A batch keeps it *)

(** The batch fits the frames of the log. *)
Definition storable (l : raftLog Storage) (sn : RaftTypes.Snapshot) (h : HardState) : Prop :=
  Forall wf_entry (a_ents (absLog l)) ∧ wf_snap sn ∧ wf_hard h.




(** ** The life of a node *)

(** What the node has to write is within the limits of the format: entries and
    snapshots below 64 MiB, numbers of 64 bits. *)
Definition fits_format (s : Server Storage) : Prop :=
  storable (sv_log s) (v_snap (view (stor s))) (v_hard (view (stor s))).






(** ** The property *)


(** ** Example: a cluster of one elects itself, stores a value and is killed *)

#[local] Instance wf_entry_dec e : Decision (wf_entry e).
Proof. unfold wf_entry, is_u64. apply _. Defined.
#[local] Instance fits_format_dec s : Decision (fits_format s).
Proof. unfold fits_format, storable, wf_snap, wf_hard, is_u64. apply _. Defined.




