(* ===== verification/Service.v ===== *)
(** * The client-facing service (src/server/kvservice.go)

    Each handler builds the request it routes into the drive loop and turns
    the answer into a response.  [submit] is the round trip through the drive
    loop (drive.go, [submit]): the answer, or [None] when the caller's context
    ends first.  Byte fields of the wire messages keep nil apart from empty
    where the handlers do. *)

From S2P Require Import Prelude RaftTypes Storage RaftLog ReadOnly Raft Node KvCodec KvStateMachine Server.

(** ** The messages of kvpb *)

Record RequestHeader : Type := mkRequestHeader {
  rh_ClientId : Z;
  rh_Seq : Z
}.
Record ResponseHeader : Type := mkResponseHeader {
  sh_NotLeader : bool;
  sh_LeaderId : Z;
  sh_LeaderAddr : list byte
}.
(** The getters of a missing header return zeros. *)
Definition GetClientId (h : option RequestHeader) : Z := from_option rh_ClientId 0 h.
Definition GetSeq (h : option RequestHeader) : Z := from_option rh_Seq 0 h.
Definition okHeader : ResponseHeader := mkResponseHeader false 0 [].

Record GetRequest : Type := mkGetRequest {
  gq_Header : option RequestHeader;
  gq_Key : list byte
}.
Record GetResponse : Type := mkGetResponse {
  gr_Header : ResponseHeader;
  gr_Found : bool;
  gr_Value : option (list byte);
  gr_Version : Z
}.
Record PutRequest : Type := mkPutRequest {
  pq_Header : option RequestHeader;
  pq_Key : list byte;
  pq_Value : option (list byte)
}.
Record PutResponse : Type := mkPutResponse {
  pr_Header : ResponseHeader;
  pr_Version : Z
}.
Record DeleteRequest : Type := mkDeleteRequest {
  dq_Header : option RequestHeader;
  dq_Key : list byte
}.
Record DeleteResponse : Type := mkDeleteResponse {
  dr_Header : ResponseHeader;
  dr_Found : bool
}.
Record CasRequest : Type := mkCasRequest {
  cq_Header : option RequestHeader;
  cq_Key : list byte;
  cq_Expect : option (list byte);
  cq_ExpectAbsent : bool;
  cq_Value : option (list byte)
}.
Record CasResponse : Type := mkCasResponse {
  cr_Header : ResponseHeader;
  cr_Swapped : bool;
  cr_Current : option (list byte);
  cr_Version : Z
}.

(** ** The handlers *)

(** [submit]: whether the request got into the drive loop's channel and what came
    back, before the caller's deadline. *)
Definition awaited (queued : bool) (resp : option opResult) : option opResult := if queued then resp else None.

Section service.
Variable ClientAddrs : gmap Z (list byte).
(* [awaited] for a request *)
Variable submit : reqKind → option opResult.

Definition redirectHeader (leaderID : Z) : ResponseHeader :=
  mkResponseHeader true leaderID (default [] (ClientAddrs !! leaderID)).

Definition kv_Get (req : GetRequest) : option GetResponse :=
  match submit (reqRead (gq_Key req)) with
  | None => None
  | Some r =>
      if or_notLeader r then Some (mkGetResponse (redirectHeader (or_leaderID r)) false None 0)
      else if decide (resStatus (or_res r) = StatusOK)
      then Some (mkGetResponse okHeader true (resValue (or_res r)) (resVersion (or_res r)))
      else Some (mkGetResponse okHeader false None 0)
  end.

Definition putCommand (req : PutRequest) : Command :=
  mkCommand (GetClientId (pq_Header req)) (GetSeq (pq_Header req)) OpPut (pq_Key req) (pq_Value req) None.
Definition kv_Put (req : PutRequest) : option PutResponse :=
  match submit (reqPropose (putCommand req)) with
  | None => None
  | Some r =>
      if or_notLeader r then Some (mkPutResponse (redirectHeader (or_leaderID r)) 0)
      else Some (mkPutResponse okHeader (resVersion (or_res r)))
  end.

Definition deleteCommand (req : DeleteRequest) : Command :=
  mkCommand (GetClientId (dq_Header req)) (GetSeq (dq_Header req)) OpDelete (dq_Key req) None None.
Definition kv_Delete (req : DeleteRequest) : option DeleteResponse :=
  match submit (reqPropose (deleteCommand req)) with
  | None => None
  | Some r =>
      if or_notLeader r then Some (mkDeleteResponse (redirectHeader (or_leaderID r)) false)
      else Some (mkDeleteResponse okHeader (bool_decide (resStatus (or_res r) = StatusOK)))
  end.

Definition casCommand (req : CasRequest) : Command :=
  mkCommand (GetClientId (cq_Header req)) (GetSeq (cq_Header req)) OpCAS (cq_Key req) (cq_Value req)
    (if negb (cq_ExpectAbsent req) then Some (default [] (cq_Expect req)) else None).
Definition kv_Cas (req : CasRequest) : option CasResponse :=
  match submit (reqPropose (casCommand req)) with
  | None => None
  | Some r =>
      if or_notLeader r then Some (mkCasResponse (redirectHeader (or_leaderID r)) false None 0)
      else
        let res := or_res r in
        Some (mkCasResponse okHeader (bool_decide (resStatus res = StatusOK))
                (if decide (resStatus res = StatusCASMismatch) then resValue res else None) (resVersion res))
  end.
End service.

(** ** What the service promises *)

(** The leader's answer when the request takes effect on [m]. *)
Definition served (m : StateMachine) (k : reqKind) : option opResult :=
  match k with
  | reqRead key => Some (answered (Read key m))
  | reqPropose c => match Apply c m with Ret (r, _) => Some (answered r) | Panic _ => None end
  end.
(** The (client, seq) pair of the header has not been applied. *)
Definition fresh_header (h : option RequestHeader) (m : StateMachine) : Prop :=
  from_option (λ l, l < GetSeq h) True (lastSeqs m !! GetClientId h).

Lemma fresh_newer h m c : cmdClientID c = GetClientId h → cmdSeq c = GetSeq h → fresh_header h m → newer (lastSeqs m) c = true.
Proof.
  intros E1 E2. unfold fresh_header, newer. rewrite E1, E2. destruct (lastSeqs m !! _); simpl; [|done]. apply Z.ltb_lt.
Qed.
(** A fresh request is answered with what its command does to the state. *)
Lemma served_fresh m c h r m' :
  cmdClientID c = GetClientId h → cmdSeq c = GetSeq h → fresh_header h m → execute c m = Ret (r, m') →
  served m (reqPropose c) = Some (answered r).
Proof. intros E1 E2 Hf He. unfold served. rewrite (Apply_newer_eq c m); [by rewrite He|]. by eapply fresh_newer. Qed.

(** Whether a compare-and-swap finds what it expects. *)
Definition cas_matches (req : CasRequest) (m : StateMachine) : bool :=
  match data m !! cq_Key req with
  | None => cq_ExpectAbsent req
  | Some rec => negb (cq_ExpectAbsent req) && bytesEqual (recValue rec) (Some (default [] (cq_Expect req)))
  end.

Lemma execute_cas req m :
  let cur := data m !! cq_Key req in
  ∃ m', execute (casCommand req) m =
    Ret (if cas_matches req m then mkResult StatusOK None (recVersion (default zeroRecord cur) +w 1)
         else mkResult StatusCASMismatch (cur ≫= recValue) (recVersion (default zeroRecord cur)), m').
Proof.
  intros cur. unfold execute, casCommand, cas, cas_matches. simpl. unfold mbind at 1, M_bind. simpl. fold cur.
  destruct (cq_ExpectAbsent req), cur as [rec|] eqn:Ec; simpl; rewrite ?kv_store_eq; simpl; unfold cur in Ec; rewrite ?Ec; try by eexists.
  destruct (bytesEqual _ _); [|by eexists]. rewrite kv_store_eq. simpl. rewrite Ec. by eexists.
Qed.

Lemma kv_Get_served addrs m req :
  kv_Get addrs (served m) req =
    Some (match data m !! gq_Key req with
          | Some rec => mkGetResponse okHeader true (recValue rec) (recVersion rec)
          | None => mkGetResponse okHeader false None 0
          end).
Proof. unfold kv_Get, served, Read, kv_get. by destruct (data m !! gq_Key req). Qed.
Lemma kv_Put_served addrs m req :
  fresh_header (pq_Header req) m →
  kv_Put addrs (served m) req =
    Some (mkPutResponse okHeader (recVersion (default zeroRecord (data m !! pq_Key req)) +w 1)).
Proof.
  intros Hf. unfold kv_Put.
  by erewrite (served_fresh m (putCommand req) (pq_Header req)); [|done|done|done|unfold execute; simpl; apply kv_store_eq].
Qed.

(** C26: what a client sees on a leader that commits what it is given and
    answers reads from its applied state.  For a fresh sequence number each
    handler's response is the key-value semantics: [Get] returns the stored
    value and version, [Put] increments the version, [Delete] reports whether
    the key existed, [Cas] swaps exactly when the expectation (absent, or a
    value) holds and otherwise reports the current value. *)
Theorem service_semantics addrs m :
  (∀ req, kv_Get addrs (served m) req =
    Some (match data m !! gq_Key req with
          | Some rec => mkGetResponse okHeader true (recValue rec) (recVersion rec)
          | None => mkGetResponse okHeader false None 0
          end)) ∧
  (∀ req, fresh_header (pq_Header req) m →
    kv_Put addrs (served m) req =
      Some (mkPutResponse okHeader (recVersion (default zeroRecord (data m !! pq_Key req)) +w 1))) ∧
  (∀ req, fresh_header (dq_Header req) m →
    kv_Delete addrs (served m) req = Some (mkDeleteResponse okHeader (bool_decide (is_Some (data m !! dq_Key req))))) ∧
  (∀ req, fresh_header (cq_Header req) m →
    let cur := data m !! cq_Key req in
    kv_Cas addrs (served m) req =
      Some (if cas_matches req m
            then mkCasResponse okHeader true None (recVersion (default zeroRecord cur) +w 1)
            else mkCasResponse okHeader false (cur ≫= recValue) (recVersion (default zeroRecord cur)))).
Proof.
  split_and!.
  - apply kv_Get_served.
  - apply kv_Put_served.
  - intros req Hf. unfold kv_Delete. destruct (data m !! dq_Key req) as [rec|] eqn:E.
    + erewrite (served_fresh m (deleteCommand req) (dq_Header req)); [|done|done|done|].
      2: { unfold execute, deleteCommand. simpl. unfold mbind, M_bind. simpl. rewrite E. done. }
      done.
    + erewrite (served_fresh m (deleteCommand req) (dq_Header req)); [|done|done|done|].
      2: { unfold execute, deleteCommand. simpl. unfold mbind, M_bind. simpl. rewrite E. done. }
      done.
  - intros req Hf cur. unfold kv_Cas. destruct (execute_cas req m) as [m' He].
    rewrite (served_fresh m (casCommand req) (cq_Header req) _ _ eq_refl eq_refl Hf He). simpl. fold cur.
    by destruct (cas_matches req m).
Qed.

(** A stale put is acknowledged.  A [Put] whose sequence number is below
    the client's last one is rejected by the state machine, which changes
    nothing and reports a stale sequence number; the handler looks only at the
    error, and answers with success and version 0. *)
Theorem stale_put_acknowledged addrs m req last :
  lastSeqs m !! GetClientId (pq_Header req) = Some last → GetSeq (pq_Header req) < last →
  kv_Put addrs (served m) req = Some (mkPutResponse okHeader 0) ∧
  ∃ r, Apply (putCommand req) m = Ret (r, m) ∧ resStatus r = StatusStaleSeq.
Proof.
  intros Hl Hlt. destruct (Apply_older (putCommand req) m) as (s & Es & Hle & E).
  { unfold newer. simpl. rewrite Hl. by apply Z.ltb_ge, Z.lt_le_incl. }
  unfold lastSeqs in Hl. rewrite lookup_fmap in Hl. simpl in *. rewrite Es in Hl. injection Hl as <-.
  destruct (Z.eqb_spec (GetSeq (pq_Header req)) (sessLastSeq s)); [lia|].
  unfold kv_Put, served. rewrite E. simpl. split; [done|]. by eexists.
Qed.

(** Client 7 last applied number 5; number 3 arrives late. *)
Definition late_put : PutRequest := mkPutRequest (Some (mkRequestHeader 7 3)) [x61] (Some [x62]).
Definition machine5 : StateMachine := set_sessions (<[7 := mkSession 5 zeroResult]> ∅) NewStateMachine.
Lemma stale_put_acknowledged_witness :
  kv_Put ∅ (served machine5) late_put = Some (mkPutResponse okHeader 0).
Proof. apply (stale_put_acknowledged ∅ machine5 late_put 5); [reflexivity|done]. Defined.
(** Its number 6 creates a key that must be absent. *)
Definition create6 : CasRequest := mkCasRequest (Some (mkRequestHeader 7 6)) [x61] None true (Some [x62]).
Lemma service_semantics_witness :
  kv_Cas ∅ (served machine5) create6 = Some (mkCasResponse okHeader true None 1).
Proof.
  destruct (service_semantics ∅ machine5) as (_ & _ & _ & Hcas). apply (Hcas create6). vm_compute. done.
Defined.
