(* ===== verification/Client.v ===== *)
(** * The leader-chasing client (src/client/client.go)

    A [Client] is the Go struct with its stubs counted.  The remote calls are
    an argument: what the [try]-th call of an operation to a stub returns, and
    whether the pause after a failed one ran to its end.  Each operation
    returns the calls it made with its result. *)

From S2P Require Import Prelude RaftTypes Storage RaftLog ReadOnly Raft Node KvCodec KvStateMachine Server Service.

Record Client : Type := mkClient {
  cl_clientID : Z;
  cl_seq : Z;
  cl_stubs : Z;
  cl_byAddr : gmap (list byte) Z;
  cl_leader : Z;
  cl_maxTry : Z
}.
Definition set_cseq v (c : Client) : Client :=
  mkClient (cl_clientID c) v (cl_stubs c) (cl_byAddr c) (cl_leader c) (cl_maxTry c).
Definition set_leader v (c : Client) : Client :=
  mkClient (cl_clientID c) (cl_seq c) (cl_stubs c) (cl_byAddr c) v (cl_maxTry c).

(** The initial session counter of a process: from 8 random bytes, or from the
    clock when they cannot be read. *)
Definition randomIDBase (read : result Z (list byte)) (nano : Z) : Z :=
  match read with
  | Err _ => w64 (Z.shiftl (w64 nano) 16)
  | Ok b => w64 (Z.shiftl (Z.land (be_dec b) 281474976710655) 16)
  end.

(** [Dial]; [counter] is the package's session counter, [dial] whether a
    connection to an address can be made. *)
Definition dialOne (dial : list byte → bool) (o : option (Z * gmap (list byte) Z)) (a : list byte)
    : option (Z * gmap (list byte) Z) :=
  '(i, m) ← o; if dial a then Some (i + 1, <[a := i]> m) else None.
Definition dialAll (dial : list byte → bool) (addrs : list (list byte)) : option (Z * gmap (list byte) Z) :=
  foldl (dialOne dial) (Some (0, ∅)) addrs.
Definition Dial (counter : Z) (dial : list byte → bool) (addrs : list (list byte)) : option Client :=
  if zlen addrs =? 0 then None else
  '(_, m) ← dialAll dial addrs;
  Some (mkClient (counter +w 1) 0 (zlen addrs) m 0 (zlen addrs * 4)).

Definition header : M Client (option RequestHeader) :=
  c ← get;
  modify (set_cseq (cl_seq c +w 1));;
  mret (Some (mkRequestHeader (cl_clientID c) (cl_seq c +w 1))).

Definition advanceLeader (addr : list byte) : M Client () :=
  c ← get;
  let next := (cl_leader c + 1) mod cl_stubs c in
  if negb (bool_decide (addr = [])) then
    match cl_byAddr c !! addr with
    | Some idx => modify (set_leader idx)
    | None => modify (set_leader next)
    end
  else modify (set_leader next).

(** How long [sleepBackoff] waits after try number [try], in nanoseconds. *)
Definition backoff (try : Z) : Z :=
  let d := s64 (s64 (10 * (try + 1)) * 1000000) in
  if 200 * 1000000 <? d then 200 * 1000000 else d.

Inductive client_error : Type :=
| ErrRpc (code : Z)
| ErrContext
| ErrNoLeader (tries : Z).

Section chase.
Context {Q R A : Type}.
Variable call : nat → Z → Q → result Z R.
Variable slept : nat → bool.
Variable hdr : R → ResponseHeader.
Variable ret : R → A.

(** The loop of the operations, on the tries left. *)
Fixpoint chase (left_ try : nat) (last : option Z) (q : Q) : M Client (list (Z * Q) * result client_error A) :=
  match left_ with
  | O => c ← get; mret ([], Err (match last with Some e => ErrRpc e | None => ErrNoLeader (cl_maxTry c) end))
  | S left_ =>
      c ← get;
      let i := cl_leader c in
      if (i <? 0) || (cl_stubs c <=? i) then fails PanicIndex else
      match call try i q with
      | Err e =>
          advanceLeader [];;
          if negb (slept try) then mret ([(i, q)], Err ErrContext)
          else '(calls, res) ← chase left_ (S try) (Some e) q; mret ((i, q) :: calls, res)
      | Ok resp =>
          if sh_NotLeader (hdr resp) then
            advanceLeader (sh_LeaderAddr (hdr resp));;
            '(calls, res) ← chase left_ (S try) last q; mret ((i, q) :: calls, res)
          else mret ([(i, q)], Ok (ret resp))
      end
  end.
Definition attempts (q : Q) : M Client (list (Z * Q) * result client_error A) :=
  c ← get; chase (Z.to_nat (cl_maxTry c)) 0 None q.
End chase.

Record GetResult : Type := mkGetResult {
  gres_Found : bool;
  gres_Value : option (list byte);
  gres_Version : Z
}.
Record CasResult : Type := mkCasResult {
  cres_Swapped : bool;
  cres_Current : option (list byte);
  cres_Version : Z
}.

Definition Put call slept (key : list byte) (value : option (list byte)) : M Client (list (Z * PutRequest) * result client_error Z) :=
  h ← header;
  attempts call slept pr_Header pr_Version (mkPutRequest h key value).
Definition Get call slept (key : list byte) : M Client (list (Z * GetRequest) * result client_error GetResult) :=
  h ← header;
  attempts call slept gr_Header (λ resp, mkGetResult (gr_Found resp) (gr_Value resp) (gr_Version resp)) (mkGetRequest h key).
Definition Delete call slept (key : list byte) : M Client (list (Z * DeleteRequest) * result client_error bool) :=
  h ← header;
  attempts call slept dr_Header dr_Found (mkDeleteRequest h key).
Definition Cas call slept (key : list byte) (expect value : option (list byte)) (expectAbsent : bool)
    : M Client (list (Z * CasRequest) * result client_error CasResult) :=
  h ← header;
  attempts call slept cr_Header (λ resp, mkCasResult (cr_Swapped resp) (cr_Current resp) (cr_Version resp))
    (mkCasRequest h key expect expectAbsent value).

(** ** Retrying *)

(** The leader pointer and every redirect target are stubs. *)
Record client_wf (c : Client) : Prop := mkClientWf {
  cw_leader : 0 ≤ cl_leader c < cl_stubs c;
  cw_addrs : map_Forall (λ _ i, 0 ≤ i < cl_stubs c) (cl_byAddr c);
  cw_tries : 0 ≤ cl_maxTry c
}.
(** Only the leader pointer moves. *)
Definition chased (c c' : Client) : Prop := ∃ i, c' = set_leader i c ∧ 0 ≤ i < cl_stubs c.

Lemma chased_wf c c' : client_wf c → chased c c' → client_wf c'.
Proof. intros [] (i & -> & Hi). by split. Qed.
Lemma chased_trans c1 c2 c3 : chased c1 c2 → chased c2 c3 → chased c1 c3.
Proof. intros (i & -> & Hi) (j & -> & Hj). by exists j. Qed.
Lemma chased_refl c : client_wf c → chased c c.
Proof. intros []. exists (cl_leader c). split; [by destruct c|done]. Qed.

Lemma wp_advanceLeader addr c : client_wf c → wp False (advanceLeader addr) (λ _, chased c) c.
Proof.
  intros Hc. destruct (Hc) as []. unfold advanceLeader. apply wp_bind, wp_get.
  assert (Hn : chased c (set_leader ((cl_leader c + 1) mod cl_stubs c) c)).
  { eexists. split; [done|]. apply Z.mod_pos_bound. lia. }
  destruct (negb _); [|by apply wp_modify]. destruct (cl_byAddr c !! addr) as [i|] eqn:E; apply wp_modify; [|done].
  exists i. split; [done|]. by apply (cw_addrs0 addr).
Qed.

Section retries.
Context {Q R A : Type}.
Variable call : nat → Z → Q → result Z R.
Variable slept : nat → bool.
Variable hdr : R → ResponseHeader.
Variable ret : R → A.

(** The outcome of an operation: a bounded number of calls, all with the same
    request, each to a stub; a result comes from a leader. *)
Record retried (n : nat) (q : Q) (stubs : Z) (calls : list (Z * Q)) (res : result client_error A) : Prop := mkRetried {
  rt_bound : (length calls ≤ n)%nat;
  rt_calls : Forall (λ p, 0 ≤ p.1 < stubs ∧ p.2 = q) calls;
  rt_served : ∀ a, res = Ok a → ∃ t i resp, call t i q = Ok resp ∧ sh_NotLeader (hdr resp) = false ∧ ret resp = a
}.

Lemma wp_chase left_ try last q c :
  client_wf c →
  wp False (chase call slept hdr ret left_ try last q)
    (λ o c', chased c c' ∧ retried left_ q (cl_stubs c) o.1 o.2) c.
Proof.
  revert try last c. induction left_ as [|n IH]; intros try last c Hc; simpl; apply wp_bind, wp_get.
  { apply wp_ret. split; [by apply chased_refl|]. split; simpl; try done. }
  destruct (Hc) as [Hl _ _]. rewrite (proj2 (Z.ltb_ge _ _)), (proj2 (Z.leb_gt _ _)) by lia. simpl.
  assert (Hone : ∀ res : result client_error A,
    (∀ a, res = Ok a → ∃ t i resp, call t i q = Ok resp ∧ sh_NotLeader (hdr resp) = false ∧ ret resp = a) →
    retried (S n) q (cl_stubs c) [(cl_leader c, q)] res).
  { intros res Hres. split; simpl; [lia|by apply Forall_singleton|done]. }
  assert (Hmore : ∀ addr k, (∀ c1, client_wf c1 → wp False k (λ o c', chased c1 c' ∧ retried n q (cl_stubs c1) o.1 o.2) c1) →
    wp False (advanceLeader addr;; '(calls, res) ← k; mret ((cl_leader c, q) :: calls, res))
      (λ o c', chased c c' ∧ retried (S n) q (cl_stubs c) o.1 o.2) c).
  { intros addr k Hk. apply wp_bind. eapply wp_mono; [by apply wp_advanceLeader|]. intros ? c1 H1. apply wp_bind.
    eapply wp_mono; [by apply Hk, (chased_wf c)|]. intros [calls res] c2 [H2 []]. apply wp_ret. split; [exact (chased_trans _ _ _ H1 H2)|].
    destruct H1 as (i & -> & _). simpl in *. split; simpl; [lia|by constructor|done]. }
  destruct (call try (cl_leader c) q) as [resp|e] eqn:E.
  - destruct (sh_NotLeader (hdr resp)) eqn:En; [apply Hmore; auto|]. apply wp_ret. split; [by apply chased_refl|].
    apply Hone. intros a [= <-]. by exists try, (cl_leader c), resp.
  - destruct (slept try) eqn:Es; simpl.
    + apply (Hmore []). auto.
    + apply wp_bind. eapply wp_mono; [by apply wp_advanceLeader|]. intros ? c1 H1. apply wp_ret. split; [done|]. by apply Hone.
Qed.
Lemma wp_attempts q c :
  client_wf c →
  wp False (attempts call slept hdr ret q)
    (λ o c', chased c c' ∧ retried (Z.to_nat (cl_maxTry c)) q (cl_stubs c) o.1 o.2) c.
Proof. intros Hc. apply wp_bind, wp_get. by apply wp_chase. Qed.
(** The first call reaches a leader. *)
Lemma attempts_served q c resp :
  client_wf c → 0 < cl_maxTry c → call 0 (cl_leader c) q = Ok resp → sh_NotLeader (hdr resp) = false →
  attempts call slept hdr ret q c = Ret (([(cl_leader c, q)], Ok (ret resp)), c).
Proof.
  intros [] Hm Hc Hl. unfold attempts, mbind, M_bind, get. destruct (Z.to_nat (cl_maxTry c)) as [|k] eqn:E; [lia|]. simpl.
  unfold mbind, M_bind, get. rewrite (proj2 (Z.ltb_ge _ _)), (proj2 (Z.leb_gt _ _)) by lia. simpl. by rewrite Hc, Hl.
Qed.
End retries.

(** An operation that makes a bounded number of calls, each to a stub and all
    with the one request whose header carries the next sequence number. *)
Definition calls_once {Q A} (op : M Client (list (Z * Q) * result client_error A)) (q : Z → Q) (c : Client) : Prop :=
  ∃ calls res c', op c = Ret ((calls, res), c') ∧ client_wf c' ∧ cl_clientID c' = cl_clientID c ∧
    cl_seq c' = cl_seq c +w 1 ∧ zlen calls ≤ cl_maxTry c ∧
    Forall (λ p, 0 ≤ p.1 < cl_stubs c ∧ p.2 = q (cl_seq c +w 1)) calls.

Lemma header_attempts {Q R A} (call : nat → Z → Q → result Z R) slept hdr (ret : R → A) (q : option RequestHeader → Q) c :
  client_wf c →
  calls_once (h ← header; attempts call slept hdr ret (q h)) (λ n, q (Some (mkRequestHeader (cl_clientID c) n))) c.
Proof.
  intros Hc. set (c1 := set_cseq (cl_seq c +w 1) c). assert (Hc1 : client_wf c1) by (destruct Hc; by split).
  set (h := Some (mkRequestHeader (cl_clientID c) (cl_seq c +w 1))).
  destruct (proj1 (wp_total _ _ _) (wp_attempts call slept hdr ret (q h) c1 Hc1)) as ([calls res] & c' & E & Hch & []).
  exists calls, res, c'. split; [exact E|]. split; [by eapply chased_wf|]. destruct Hch as (i & -> & _). destruct Hc as [_ _ Ht].
  split_and!; [done|done| |done]. simpl in *. unfold zlen. lia.
Qed.

(** One operation, one sequence number.  However often a call is retried,
    redirected or fails, every request of one [Put], [Get], [Delete] or [Cas]
    carries the client's id and the same new sequence number, at most
    [maxAttempts] of them are made, and the client's counter moves by exactly
    one. *)
Theorem retries_keep_seq c :
  client_wf c →
  let h n := Some (mkRequestHeader (cl_clientID c) n) in
  (∀ call slept key value, calls_once (Put call slept key value) (λ n, mkPutRequest (h n) key value) c) ∧
  (∀ call slept key, calls_once (Get call slept key) (λ n, mkGetRequest (h n) key) c) ∧
  (∀ call slept key, calls_once (Delete call slept key) (λ n, mkDeleteRequest (h n) key) c) ∧
  (∀ call slept key expect value absent,
    calls_once (Cas call slept key expect value absent) (λ n, mkCasRequest (h n) key expect absent value) c).
Proof.
  intros Hc h. split_and!; intros.
  - by apply (header_attempts call slept pr_Header pr_Version (λ h, mkPutRequest h key value)).
  - by apply (header_attempts call slept gr_Header _ (λ h, mkGetRequest h key)).
  - by apply (header_attempts call slept dr_Header dr_Found (λ h, mkDeleteRequest h key)).
  - by apply (header_attempts call slept cr_Header _ (λ h, mkCasRequest h key expect absent value)).
Qed.

(** ** End to end *)

(** Copies of a command that is new to the state machine: the first executes,
    all get its answer. *)
Lemma applyAll_copies c m cmds :
  valid_op (cmdOp c) = true → newer (lastSeqs m) c = true → cmds ≠ [] → Forall (λ c', c' = c) cmds →
  ∃ r m', Apply c m = Ret (r, m') ∧ applyAll cmds m = Ret (replicate (length cmds) r, m').
Proof.
  intros Hv Hn Hne Hall. destruct cmds as [|c' cmds]; [done|]. apply Forall_cons in Hall as [-> Hall].
  destruct (execute_store c m ∅ Hv) as (r & m1 & He & Es & _). pose proof (Apply_newer c m r m1 Hn He) as Ea.
  set (m' := set_sessions _ _) in Ea. exists r, m'. split; [done|]. simpl. unfold mbind, M_bind. rewrite Ea.
  assert (Hrep : Apply c m' = Ret (r, m')).
  { destruct (Apply_older c m') as (s & Hs & _ & E).
    - unfold newer, lastSeqs, m'. simpl. rewrite lookup_fmap, lookup_insert_eq. simpl. apply Z.ltb_irrefl.
    - unfold m' in Hs. simpl in Hs. rewrite lookup_insert_eq in Hs. injection Hs as <-. simpl in E. by rewrite Z.eqb_refl in E. }
  replace (applyAll cmds m') with (Ret (replicate (length cmds) r, m')); [done|].
  clear Hne Ea. induction Hall as [|c' cmds -> Hall IH]; [done|]. simpl. unfold mbind, M_bind. rewrite Hrep. by rewrite <-IH.
Qed.

(** C13: a put takes effect once, end to end.  Take any non-empty selection,
    with repetitions, of the commands that the retries of one [Put] sent, and
    apply it to a state machine that has not seen the sequence number: the
    state is the one after applying the command once, every application returns
    the same result, and the key holds the value. *)
Theorem put_exactly_once call slept key value c calls res c' m cmds :
  client_wf c → Put call slept key value c = Ret ((calls, res), c') →
  from_option (λ l, l < cl_seq c +w 1) True (lastSeqs m !! cl_clientID c) →
  cmds ≠ [] → (∀ x, x ∈ cmds → x ∈ map (putCommand ∘ snd) calls) →
  ∃ r m', let cmd := mkCommand (cl_clientID c) (cl_seq c +w 1) OpPut key value None in
    Apply cmd m = Ret (r, m') ∧ applyAll cmds m = Ret (replicate (length cmds) r, m') ∧
    resStatus r = StatusOK ∧ data m' !! key = Some (mkValueRecord value (resVersion r)).
Proof.
  intros Hc E Hf Hne Hin. set (h := λ n, Some (mkRequestHeader (cl_clientID c) n)).
  destruct (header_attempts call slept pr_Header pr_Version (λ h, mkPutRequest h key value) c Hc)
    as (calls' & res' & c2 & E' & _ & _ & _ & _ & Hall). change (Put call slept key value c = Ret ((calls', res'), c2)) in E'.
  rewrite E in E'. injection E' as <- <- <-. set (cmd := mkCommand _ _ _ _ _ _).
  assert (Hcopies : Forall (λ x, x = cmd) cmds).
  { apply Forall_forall. intros x Hx. apply Hin, list_elem_of_In, in_map_iff in Hx as ([i q] & <- & Hq%list_elem_of_In).
    rewrite Forall_forall in Hall. destruct (Hall _ Hq) as [_ E2]. simpl in E2. by subst q. }
  assert (Hn : newer (lastSeqs m) cmd = true).
  { unfold newer. simpl. destruct (lastSeqs m !! cl_clientID c); [|done]. by apply Z.ltb_lt. }
  destruct (applyAll_copies cmd m cmds eq_refl Hn Hne Hcopies) as (r & m' & Ea & Eall). exists r, m'.
  split; [done|]. split; [done|]. rewrite (Apply_newer_eq cmd m Hn) in Ea.
  assert (Ex : execute cmd m = kv_store key value m) by done. rewrite Ex, kv_store_eq in Ea. injection Ea as <- <-. simpl. by rewrite lookup_insert_eq.
Qed.

(** ** Dialling *)

Lemma dialAll_bound dial addrs n m :
  dialAll dial addrs = Some (n, m) → n = zlen addrs ∧ map_Forall (λ _ i, 0 ≤ i < zlen addrs) m.
Proof.
  unfold dialAll. revert n m. induction addrs as [|a addrs IH] using rev_ind; intros n m.
  { intros [= <- <-]. split; [done|apply map_Forall_empty]. }
  rewrite foldl_app. simpl. destruct (foldl _ _ addrs) as [[n1 m1]|]; [|done]. simpl.
  destruct (dial a); [|done]. intros [= <- <-]. destruct (IH n1 m1 eq_refl) as [-> Hm]. rewrite zlen_app. change (zlen [a]) with 1.
  pose proof (zlen_nonneg addrs). split; [done|]. apply map_Forall_insert_2; [lia|]. eapply map_Forall_impl; [exact Hm|]. simpl. lia.
Qed.
Lemma Dial_wf counter dial addrs c : Dial counter dial addrs = Some c → client_wf c.
Proof.
  unfold Dial. destruct (Z.eqb_spec (zlen addrs) 0); [done|]. destruct (dialAll dial addrs) as [[n1 m]|] eqn:E; [|done]. intros [= <-].
  apply dialAll_bound in E as [_ Hm]. pose proof (zlen_nonneg addrs). split; simpl; [lia|done|lia].
Qed.

(** The waits grow from 10 to 200 milliseconds and stay there. *)
Lemma backoff_bounds try : 0 ≤ try < 2 ^ 30 → 10 * 1000000 ≤ backoff try ≤ 200 * 1000000.
Proof.
  intros Ht. unfold backoff. change (2 ^ 30) with 1073741824 in Ht.
  rewrite (s64_id (10 * (try + 1))), s64_id by (change (u64_mod / 2) with 9223372036854775808; lia).
  destruct (Z.ltb_spec (200 * 1000000) (10 * (try + 1) * 1000000)); lia.
Qed.

(** The [k]-th client of a process. *)
Definition kth_dial (read : list byte) (nano : Z) (k : Z) (dial : list byte → bool) (addrs : list (list byte)) : option Client :=
  Dial (randomIDBase (Ok read) nano +w (k - 1)) dial addrs.
Definition base48 (read : list byte) : Z := be_dec read mod 2 ^ 48.

Lemma kth_dial_id read nano k dial addrs c :
  1 ≤ k < 2 ^ 16 → kth_dial read nano k dial addrs = Some c → cl_clientID c = base48 read * 2 ^ 16 + k.
Proof.
  intros Hk. unfold kth_dial, Dial, randomIDBase. destruct (zlen addrs =? 0); [done|].
  destruct (dialAll dial addrs) as [[n m]|]; [|done]. intros [= <-]. simpl.
  change 281474976710655 with (Z.ones 48). rewrite Z.land_ones, Z.shiftl_mul_pow2 by lia. fold (base48 read).
  assert (Hb : 0 ≤ base48 read < 2 ^ 48) by (apply Z.mod_pos_bound; lia).
  change (2 ^ 48) with 281474976710656 in Hb. change (2 ^ 16) with 65536 in *. rewrite (w64_id (base48 read * 65536)) by lia.
  rewrite (w64_id (_ + (k - 1))) by lia. rewrite w64_id by lia. lia.
Qed.

(** C28: session ids do not collide.  As long as each process dials fewer than 2^16
    clients, two clients have the same session id only if they are the same
    client of processes that drew the same 48 random bits: the counter never
    leaves its low 16 bits, and the id does not wrap around. *)
Theorem session_ids_disjoint read read' nano nano' k k' dial dial' addrs addrs' c c' :
  1 ≤ k < 2 ^ 16 → 1 ≤ k' < 2 ^ 16 →
  kth_dial read nano k dial addrs = Some c → kth_dial read' nano' k' dial' addrs' = Some c' →
  cl_clientID c = cl_clientID c' ↔ base48 read = base48 read' ∧ k = k'.
Proof.
  intros Hk Hk' E E'. rewrite (kth_dial_id _ _ _ _ _ _ Hk E), (kth_dial_id _ _ _ _ _ _ Hk' E'). change (2 ^ 16) with 65536 in *. lia.
Qed.

(** ** Examples *)

(** Three nodes; the first answers with a redirect to the third, which fails
    once and then serves. *)
Definition client3 : option Client := Dial 41 (λ _, true) [[x61]; [x62]; [x63]].
Definition calls3 (t : nat) (i : Z) (q : PutRequest) : result Z PutResponse :=
  match t with
  | O => Ok (mkPutResponse (mkResponseHeader true 3 [x63]) 0)
  | S O => Err 14
  | S (S O) => Ok (mkPutResponse (mkResponseHeader true 3 [x63]) 0)
  | _ => Ok (mkPutResponse okHeader 1)
  end.

Lemma put_exactly_once_witness :
  ∃ c calls res c', client3 = Some c ∧ Put calls3 (λ _, true) [x6b] (Some [x76]) c = Ret ((calls, res), c') ∧
    map fst calls = [0; 2; 0; 2] ∧ res = Ok 1 ∧
    ∃ r m', applyAll (map (putCommand ∘ snd) calls) NewStateMachine = Ret (replicate 4 r, m') ∧
      data m' !! [x6b] = Some (mkValueRecord (Some [x76]) (resVersion r)).
Proof.
  eexists _, _, _, _. split; [reflexivity|]. split; [vm_compute; reflexivity|]. split; [reflexivity|]. split; [reflexivity|].
  match goal with |- context [map (putCommand ∘ snd) ?l] => set (calls := l) end.
  destruct (put_exactly_once calls3 (λ _, true) [x6b] (Some [x76]) (default (mkClient 0 0 0 ∅ 0 0) client3) calls (Ok 1)
    (set_leader 2 (set_cseq 1 (default (mkClient 0 0 0 ∅ 0 0) client3))) NewStateMachine (map (putCommand ∘ snd) calls))
    as (r & m' & _ & E & _ & Hd); [by apply (Dial_wf 41 (λ _, true) [[x61]; [x62]; [x63]])|vm_compute; reflexivity|exact I|done|done|].
  exists r, m'. split; [exact E|exact Hd].
Defined.

(** Witness for [session_ids_disjoint]. *)
Definition bytes_a : list byte := [x00; x00; x01; x02; x03; x04; x05; x06].
Definition bytes_b : list byte := [x00; x00; x01; x02; x03; x04; x05; x07].
Lemma session_ids_disjoint_witness :
  ∃ c c', kth_dial bytes_a 0 65535 (λ _, true) [[x61]] = Some c ∧ kth_dial bytes_b 0 1 (λ _, true) [[x61]] = Some c' ∧ cl_clientID c ≠ cl_clientID c'.
Proof.
  eexists _, _. split; [vm_compute; reflexivity|]. split; [vm_compute; reflexivity|]. intros E.
  apply (session_ids_disjoint bytes_a bytes_b 0 0 65535 1 (λ _, true) (λ _, true) [[x61]] [[x61]]) in E; [by destruct E|lia|lia|vm_compute; reflexivity|vm_compute; reflexivity].
Defined.
