(* ===== verification/Ctl.v ===== *)
(** * The command line client (src/cmd/parallaxctl/main.go)

    [ctl_run] is [run] behind the flags: it splits the addresses, dials, reads
    the subcommand and runs one operation of the client.  The remote calls and
    the connections are arguments, as in [Client].  Go's flag package is
    written out as far as the subcommand cas uses it. *)

From Stdlib Require String.
From S2P Require Import Prelude GoStrings RaftTypes Storage RaftLog ReadOnly Raft Node KvCodec KvStateMachine Server Service Client.
Import (notations) String.

Definition splitAddrs (s : list byte) : list (list byte) :=
  foldl (λ out a, let a := TrimSpace a in if decide (a = []) then out else out ++ [a]) [] (Split x2c s).

(** ** Go's flag package, with one boolean flag *)

(** [strconv.ParseBool]. *)
Definition ParseBool (s : list byte) : option bool :=
  if decide (s ∈ [$"1"; $"t"; $"T"; $"true"; $"TRUE"; $"True"]) then Some true
  else if decide (s ∈ [$"0"; $"f"; $"F"; $"false"; $"FALSE"; $"False"]) then Some false
  else None.

(** What [Parse] does with the first argument: stop, set the flag, or exit with
    a status. *)
Inductive flag_step : Type :=
| FlagStop (rest : list (list byte))
| FlagSet (v : bool) (rest : list (list byte))
| FlagExit (status : Z).

Definition parseFlag (name : list byte) (rest : list (list byte)) (flag : list byte) : flag_step :=
  match name with
  | [] => FlagExit 2
  | c :: name' =>
      if decide (c = x2d ∨ c = x3d) then FlagExit 2 else
      let eq := IndexByte name' x3d in
      let key := if eq <? 0 then name else c :: take (Z.to_nat eq) name' in
      if decide (key = flag) then
        if eq <? 0 then FlagSet true rest
        else match ParseBool (drop (Z.to_nat (eq + 1)) name') with
             | Some v => FlagSet v rest
             | None => FlagExit 2
             end
      else if decide (key = $"help" ∨ key = $"h") then FlagExit 0 else FlagExit 2
  end.
Definition parseOne (flag : list byte) (args : list (list byte)) : flag_step :=
  match args with
  | [] => FlagStop []
  | s :: rest =>
      match s with
      | [] | [_] => FlagStop args
      | c :: d :: name =>
          if negb (bool_decide (c = x2d)) then FlagStop args
          else if decide (d = x2d) then
            if decide (name = []) then FlagStop rest else parseFlag name rest flag
          else parseFlag (d :: name) rest flag
      end
  end.
Fixpoint parseFlags (flag : list byte) (fuel : nat) (v : bool) (args : list (list byte)) : result Z (bool * list (list byte)) :=
  match fuel with
  | O => Ok (v, args)
  | S fuel =>
      match parseOne flag args with
      | FlagStop rest => Ok (v, rest)
      | FlagSet v rest => parseFlags flag fuel v rest
      | FlagExit st => Err st
      end
  end.

(** ** The program *)

Record remote : Type := mkRemote {
  rm_get : nat → Z → GetRequest → result Z GetResponse;
  rm_put : nat → Z → PutRequest → result Z PutResponse;
  rm_delete : nat → Z → DeleteRequest → result Z DeleteResponse;
  rm_cas : nat → Z → CasRequest → result Z CasResponse;
  rm_slept : nat → bool
}.
(** The requests put on the wire, with the stub each went to. *)
Inductive wire : Type :=
| WireGet (calls : list (Z * GetRequest))
| WirePut (calls : list (Z * PutRequest))
| WireDelete (calls : list (Z * DeleteRequest))
| WireCas (calls : list (Z * CasRequest)).
Inductive ctl_output : Type :=
| OutNotFound
| OutValue (value : option (list byte)) (version : Z)
| OutVersion (version : Z)
| OutOK
| OutSwapped (version : Z)
| OutMismatch (current : option (list byte)) (version : Z).
Inductive ctl_error : Type :=
| ErrUsage (cmd : list byte)
| ErrClusterEmpty
| ErrDial
| ErrUnknownCommand (cmd : list byte)
| ErrExit (status : Z)
| ErrClient (e : client_error).
(** What was sent, if an operation ran, and what is printed. *)
Definition ctl_result : Type := option wire * result ctl_error ctl_output.
Definition failed (e : ctl_error) : ctl_result := (None, Err e).
Definition printed {A} (w : wire) (r : result client_error A) (k : A → ctl_output) : ctl_result :=
  (Some w, match r with Ok a => Ok (k a) | Err e => Err (ErrClient e) end).

Definition runCas (rm : remote) (args : list (list byte)) (c : Client) : outcome ctl_result :=
  match parseFlags ($"create") (length args) false args with
  | Err st => Ret (failed (ErrExit st))
  | Ok (create, rest) =>
      let parsed :=
        if (create : bool) then match rest with [key; value] => Some (key, None, Some value) | _ => None end
        else match rest with [key; expect; value] => Some (key, Some expect, Some value) | _ => None end in
      match parsed with
      | None => Ret (failed (ErrUsage ($"cas")))
      | Some (key, expect, value) =>
          '((calls, r), _) ← Cas (rm_cas rm) (rm_slept rm) key expect value create c;
          Ret (printed (WireCas calls) r (λ r,
            if cres_Swapped r then OutSwapped (cres_Version r) else OutMismatch (cres_Current r) (cres_Version r)))
      end
  end.
Definition ctl_command (rm : remote) (cmd : list byte) (rest : list (list byte)) (c : Client) : outcome ctl_result :=
  if decide (cmd = $"get") then
    match rest with
    | [key] =>
        '((calls, r), _) ← Get (rm_get rm) (rm_slept rm) key c;
        Ret (printed (WireGet calls) r (λ r, if gres_Found r then OutValue (gres_Value r) (gres_Version r) else OutNotFound))
    | _ => Ret (failed (ErrUsage cmd))
    end
  else if decide (cmd = $"put") then
    match rest with
    | [key; value] =>
        '((calls, r), _) ← Put (rm_put rm) (rm_slept rm) key (Some value) c;
        Ret (printed (WirePut calls) r OutVersion)
    | _ => Ret (failed (ErrUsage cmd))
    end
  else if decide (cmd = $"del") then
    match rest with
    | [key] =>
        '((calls, r), _) ← Delete (rm_delete rm) (rm_slept rm) key c;
        Ret (printed (WireDelete calls) r (λ found, if (found : bool) then OutOK else OutNotFound))
    | _ => Ret (failed (ErrUsage cmd))
    end
  else if decide (cmd = $"cas") then runCas rm rest c
  else Ret (failed (ErrUnknownCommand cmd)).
Definition ctl_run (counter : Z) (dial : list byte → bool) (rm : remote) (cluster : list byte) (args : list (list byte)) : outcome ctl_result :=
  match args with
  | [] => Ret (failed (ErrUsage []))
  | cmd :: rest =>
      let addrs := splitAddrs cluster in
      if zlen addrs =? 0 then Ret (failed ErrClusterEmpty) else
      match Dial counter dial addrs with
      | None => Ret (failed ErrDial)
      | Some c => ctl_command rm cmd rest c
      end
  end.

(** ** What is sent *)

Lemma Dial_some counter dial addrs c :
  Dial counter dial addrs = Some c →
  client_wf c ∧ cl_clientID c = counter +w 1 ∧ cl_seq c = 0 ∧ cl_leader c = 0 ∧ cl_stubs c = zlen addrs ∧ cl_maxTry c = zlen addrs * 4 ∧ 0 < zlen addrs.
Proof.
  intros E. pose proof (Dial_wf _ _ _ _ E) as Hw. unfold Dial in E. destruct (Z.eqb_spec (zlen addrs) 0); [done|].
  destruct (dialAll dial addrs) as [[? ?]|]; [|done]. injection E as <-. pose proof (zlen_nonneg addrs). simpl. split_and!; try done. lia.
Qed.

(** The arguments of cas, after its flag. *)
Definition cas_args (args : list (list byte)) (create : bool) (key : list byte) (expect value : option (list byte)) : Prop :=
  ∃ rest, parseFlags ($"create") (length args) false args = Ok (create, rest) ∧
    if create then ∃ v, rest = [key; v] ∧ expect = None ∧ value = Some v
    else ∃ e v, rest = [key; e; v] ∧ expect = Some e ∧ value = Some v.
(** At most [n] copies of the request [q], each to one of the stubs. *)
Definition copies {Q} (stubs : Z) (q : Q) (calls : list (Z * Q)) : Prop :=
  zlen calls ≤ stubs * 4 ∧ Forall (λ p, 0 ≤ p.1 < stubs ∧ p.2 = q) calls.
Definition sends (counter stubs : Z) (cmd : list byte) (rest : list (list byte)) (w : wire) : Prop :=
  let h := Some (mkRequestHeader (counter +w 1) 1) in
  match w with
  | WireGet calls => cmd = $"get" ∧ ∃ key, rest = [key] ∧ copies stubs (mkGetRequest h key) calls
  | WirePut calls => cmd = $"put" ∧ ∃ key v, rest = [key; v] ∧ copies stubs (mkPutRequest h key (Some v)) calls
  | WireDelete calls => cmd = $"del" ∧ ∃ key, rest = [key] ∧ copies stubs (mkDeleteRequest h key) calls
  | WireCas calls => cmd = $"cas" ∧ ∃ create key expect value,
      cas_args rest create key expect value ∧ copies stubs (mkCasRequest h key expect create value) calls
  end.

Lemma op_once {Q R A B} (call : nat → Z → Q → result Z R) slept hdr (ret : R → A) (q : option RequestHeader → Q) (k : list (Z * Q) → result client_error A → B) c counter stubs :
  client_wf c → cl_clientID c = counter +w 1 → cl_seq c = 0 → cl_stubs c = stubs → cl_maxTry c = stubs * 4 →
  ∃ calls res, ('((calls, r), _) ← (h ← header; attempts call slept hdr ret (q h)) c; Ret (k calls r)) = Ret (k calls res) ∧
    copies stubs (q (Some (mkRequestHeader (counter +w 1) 1))) calls.
Proof.
  intros Hw Hid Hsq Hst Htr. destruct (header_attempts call slept hdr ret q c Hw) as (calls & res & c' & E & _ & _ & _ & Hlen & Hall).
  exists calls, res. rewrite E. split; [done|]. rewrite Hid, Hsq in Hall. change (0 +w 1) with 1 in Hall. rewrite Hst in Hall. split; [lia|done].
Qed.
Lemma runCas_once rm args c counter stubs :
  client_wf c → cl_clientID c = counter +w 1 → cl_seq c = 0 → cl_stubs c = stubs → cl_maxTry c = stubs * 4 →
  ∃ w r, runCas rm args c = Ret (w, r) ∧ ∀ w', w = Some w' → sends counter stubs ($"cas") args w'.
Proof.
  intros Hw Hid Hsq Hst Htr. unfold runCas. destruct (parseFlags _ _ _ _) as [[create rest]|st] eqn:Ep; [|by eexists _, _].
  assert (Hgo : ∀ key expect value, cas_args args create key expect value →
    ∃ w r, ('((calls, r), _) ← Cas (rm_cas rm) (rm_slept rm) key expect value create c;
      Ret (printed (WireCas calls) r (λ r, if cres_Swapped r then OutSwapped (cres_Version r) else OutMismatch (cres_Current r) (cres_Version r)))) = Ret (w, r) ∧
      ∀ w', w = Some w' → sends counter stubs ($"cas") args w').
  { intros key expect value Ha.
    destruct (op_once (rm_cas rm) (rm_slept rm) cr_Header (λ resp, mkCasResult (cr_Swapped resp) (cr_Current resp) (cr_Version resp))
      (λ h, mkCasRequest h key expect create value) (λ calls r, printed (WireCas calls) r (λ r, if cres_Swapped r then OutSwapped (cres_Version r) else OutMismatch (cres_Current r) (cres_Version r)))
      c counter stubs Hw Hid Hsq Hst Htr) as (calls & res & E & Hc).
    eexists _, _. split; [exact E|]. intros w' [= <-]. split; [done|]. by exists create, key, expect, value. }
  destruct create.
  - destruct rest as [|key [|v [|? ?]]]; try (by eexists _, _). apply Hgo. exists [key; v]. split; [done|]. by exists v.
  - destruct rest as [|key [|e [|v [|? ?]]]]; try (by eexists _, _). apply Hgo. exists [key; e; v]. split; [done|]. by exists e, v.
Qed.

(** One invocation, one request.  The client never panics; it sends nothing
    unless the arguments are those of a subcommand; and then, whatever the
    connections answer, all it sends is at most four copies per address of the
    one request the arguments denote, under a session of its own. *)
Theorem ctl_run_once counter dial rm cluster cmd rest :
  ∃ w r, ctl_run counter dial rm cluster (cmd :: rest) = Ret (w, r) ∧
    ∀ w', w = Some w' → sends counter (zlen (splitAddrs cluster)) cmd rest w'.
Proof.
  unfold ctl_run. destruct (zlen (splitAddrs cluster) =? 0); [by eexists _, _|].
  destruct (Dial counter dial (splitAddrs cluster)) as [c|] eqn:Ed; [|by eexists _, _].
  apply Dial_some in Ed as (Hw & Hid & Hsq & _ & Hst & Htr & _). unfold ctl_command. set (stubs := zlen (splitAddrs cluster)) in *.
  case_decide as E1; [subst|case_decide as E2; [subst|case_decide as E3; [subst|case_decide as E4; [subst|by eexists _, _]]]].
  - destruct rest as [|key [|? ?]]; try (by eexists _, _).
    destruct (op_once (rm_get rm) (rm_slept rm) gr_Header (λ resp, mkGetResult (gr_Found resp) (gr_Value resp) (gr_Version resp)) (λ h, mkGetRequest h key)
      (λ calls r, printed (WireGet calls) r (λ r, if gres_Found r then OutValue (gres_Value r) (gres_Version r) else OutNotFound))
      c counter stubs Hw Hid Hsq Hst Htr) as (calls & res & E & Hc).
    eexists _, _. split; [exact E|]. intros w' [= <-]. split; [done|]. by exists key.
  - destruct rest as [|key [|v [|? ?]]]; try (by eexists _, _).
    destruct (op_once (rm_put rm) (rm_slept rm) pr_Header pr_Version (λ h, mkPutRequest h key (Some v)) (λ calls r, printed (WirePut calls) r OutVersion)
      c counter stubs Hw Hid Hsq Hst Htr) as (calls & res & E & Hc).
    eexists _, _. split; [exact E|]. intros w' [= <-]. split; [done|]. by exists key, v.
  - destruct rest as [|key [|? ?]]; try (by eexists _, _).
    destruct (op_once (rm_delete rm) (rm_slept rm) dr_Header dr_Found (λ h, mkDeleteRequest h key)
      (λ calls r, printed (WireDelete calls) r (λ found, if (found : bool) then OutOK else OutNotFound))
      c counter stubs Hw Hid Hsq Hst Htr) as (calls & res & E & Hc).
    eexists _, _. split; [exact E|]. intros w' [= <-]. split; [done|]. by exists key.
  - by apply runCas_once.
Qed.

(** ** Through the service to the state machine *)

(** Every address answers as a leader whose state machine is [m]. *)
Definition leader_remote (addrs : gmap Z (list byte)) (m : StateMachine) : remote :=
  let reply {R} (o : option R) : result Z R := match o with Some r => Ok r | None => Err 14 end in
  mkRemote (λ _ _ q, reply (kv_Get addrs (served m) q)) (λ _ _ q, reply (kv_Put addrs (served m) q))
    (λ _ _ q, reply (kv_Delete addrs (served m) q)) (λ _ _ q, reply (kv_Cas addrs (served m) q)) (λ _, true).

Lemma Dial_all counter dial addrs : (∀ a, dial a = true) → addrs ≠ [] → ∃ c, Dial counter dial addrs = Some c.
Proof.
  intros Hd Hn. unfold Dial. destruct (Z.eqb_spec (zlen addrs) 0) as [E|_]; [by apply zlen_zero in E|].
  assert (Hall : ∀ o, is_Some o → is_Some (foldl (dialOne dial) o addrs)).
  { clear Hn. induction addrs as [|a addrs IH]; intros o Ho; [done|]. simpl. apply IH. destruct Ho as [[i m] ->]. simpl. rewrite Hd. by eexists. }
  destruct (Hall (Some (0, ∅))) as [[? ?] E]; [done|]. unfold dialAll. rewrite E. by eexists.
Qed.
Lemma op_served {Q R A B} (call : nat → Z → Q → result Z R) slept hdr (ret : R → A) (q : option RequestHeader → Q) (k : list (Z * Q) → result client_error A → B) c counter resp :
  client_wf c → cl_clientID c = counter +w 1 → cl_seq c = 0 → 0 < cl_maxTry c →
  call 0%nat (cl_leader c) (q (Some (mkRequestHeader (counter +w 1) 1))) = Ok resp → sh_NotLeader (hdr resp) = false →
  ∃ calls, ('((calls, r), _) ← (h ← header; attempts call slept hdr ret (q h)) c; Ret (k calls r)) = Ret (k calls (Ok (ret resp))).
Proof.
  intros Hw Hid Hsq Hm Hc Hl. set (h := Some (mkRequestHeader (counter +w 1) 1)) in *. set (c1 := set_cseq 1 c).
  pose proof (attempts_served call slept hdr ret (q h) c1 resp) as E.
  assert (Eh : header c = Ret (h, c1)). { unfold header, mbind, M_bind. simpl. rewrite Hid, Hsq. done. }
  exists [(cl_leader c, q h)]. unfold mbind at 2, M_bind. rewrite Eh, E; [done|by destruct Hw|done|done|done].
Qed.

(** C34: what is put is got, from command line to state machine.  On a leader
    that commits what it is given and answers reads from its applied state,
    "put KEY VALUE" prints a version, and on the state it leaves, "get KEY"
    prints that value with that version. *)
Theorem ctl_put_get counter counter' dial addrs m cluster key v :
  splitAddrs cluster ≠ [] → (∀ a, dial a = true) → lastSeqs m !! (counter +w 1) = None →
  ∃ ver r m' w w', Apply (mkCommand (counter +w 1) 1 OpPut key (Some v) None) m = Ret (r, m') ∧
    ctl_run counter dial (leader_remote addrs m) cluster [$"put"; key; v] = Ret (w, Ok (OutVersion ver)) ∧
    ctl_run counter' dial (leader_remote addrs m') cluster [$"get"; key] = Ret (w', Ok (OutValue (Some v) ver)).
Proof.
  intros Hne Hd Hf. set (h := Some (mkRequestHeader (counter +w 1) 1)). set (q := mkPutRequest h key (Some v)).
  assert (Hfh : fresh_header h m) by (unfold fresh_header, h; simpl; by rewrite Hf).
  assert (Hn : newer (lastSeqs m) (putCommand q) = true) by (by apply (fresh_newer h)).
  pose proof (Apply_newer_eq (putCommand q) m Hn) as Ea.
  change (execute (putCommand q) m) with (kv_store key (Some v) m) in Ea. rewrite kv_store_eq in Ea. cbv zeta iota in Ea.
  set (ver := recVersion (default zeroRecord (data m !! key)) +w 1) in Ea. set (m' := set_sessions _ _) in Ea.
  assert (Hz : (zlen (splitAddrs cluster) =? 0) = false) by (apply Z.eqb_neq; intros E%zlen_zero; done).
  destruct (Dial_all counter dial _ Hd Hne) as [c1 E1], (Dial_all counter' dial _ Hd Hne) as [c2 E2].
  destruct (op_served (rm_put (leader_remote addrs m)) (λ _, true) pr_Header pr_Version (λ h, mkPutRequest h key (Some v))
    (λ calls r, printed (WirePut calls) r OutVersion) c1 counter (mkPutResponse okHeader ver)) as [w1 W1].
  1-4: apply Dial_some in E1; destruct E1 as (? & ? & ? & ? & ? & ? & ?); done || lia.
  { simpl. by rewrite kv_Put_served. }
  { done. }
  destruct (op_served (rm_get (leader_remote addrs m')) (λ _, true) gr_Header (λ resp, mkGetResult (gr_Found resp) (gr_Value resp) (gr_Version resp))
    (λ h, mkGetRequest h key) (λ calls r, printed (WireGet calls) r (λ r, if gres_Found r then OutValue (gres_Value r) (gres_Version r) else OutNotFound))
    c2 counter' (mkGetResponse okHeader true (Some v) ver)) as [w2 W2].
  1-4: apply Dial_some in E2; destruct E2 as (? & ? & ? & ? & ? & ? & ?); done || lia.
  { simpl. rewrite kv_Get_served. simpl. by rewrite lookup_insert_eq. }
  { done. }
  exists ver, (mkResult StatusOK None ver), m'. eexists _, _. split; [exact Ea|]. unfold ctl_run. rewrite Hz, E1, E2. split; [exact W1|exact W2].
Qed.
Lemma ctl_put_get_witness :
  ∃ w w' m', ctl_run 41 (λ _, true) (leader_remote ∅ NewStateMachine) ($"localhost:8101, localhost:8102") [$"put"; $"k"; $"v"] = Ret (w, Ok (OutVersion 1)) ∧
    ctl_run 7 (λ _, true) (leader_remote ∅ m') ($"localhost:8101, localhost:8102") [$"get"; $"k"] = Ret (w', Ok (OutValue (Some ($"v")) 1)).
Proof.
  destruct (ctl_put_get 41 7 (λ _, true) ∅ NewStateMachine ($"localhost:8101, localhost:8102") ($"k") ($"v"))
    as (ver & r & m' & w & w' & _ & W & W'); [by vm_compute|done|by vm_compute|].
  assert (Hv : Ret (w, Ok (OutVersion ver)) = ctl_run 41 (λ _, true) (leader_remote ∅ NewStateMachine) ($"localhost:8101, localhost:8102") [$"put"; $"k"; $"v"]) by (by rewrite W).
  exists w, w', m'. vm_compute in Hv. injection Hv as -> ->. split; [by vm_compute|done].
Defined.
