(* ===== verification/Bench.v ===== *)
(** * The benchmark client and the fsync probe (src/cmd/parallax-bench/main.go,
      src/scripts/fsync_probe.go)

    The clock, the cluster and the disk are arguments: a worker of the
    benchmark is run on the operations it timed, the probe on what its writes
    and syncs returned.  Times and durations are in nanoseconds.  The
    percentiles are computed in floating point, as the source does. *)

From Stdlib Require Import SpecFloat.
From Stdlib Require String.
From stdpp Require Import sorting.
From S2P Require Import Prelude GoStrings GoFloat.
Import (notations) String.

Section bench.
(** What converting a float out of range to an int gives. *)
Variable undef : spec_float → Z.

(** ** Aggregates *)

Record aggregate : Type := mkAggregate {
  ag_latencies : list Z;
  ag_count : Z;
  ag_errors : Z;
  ag_window : Z
}.
Definition newAggregate : aggregate := mkAggregate [] 0 0 0.
Definition record (d : Z) (a : aggregate) : aggregate :=
  mkAggregate (ag_latencies a ++ [d]) (s64 (ag_count a + 1)) (ag_errors a) (ag_window a).
Definition merge (o a : aggregate) : aggregate :=
  mkAggregate (ag_latencies a ++ ag_latencies o) (s64 (ag_count a + ag_count o)) (s64 (ag_errors a + ag_errors o)) (ag_window a).
Definition percentile (p : spec_float) (a : aggregate) : outcome Z :=
  let n := zlen (ag_latencies a) in
  if n =? 0 then Ret 0 else
  let idx := int_of_float undef (fmul (fdiv p (float_of_int 100)) (float_of_int n)) in
  let idx := if n <=? idx then n - 1 else idx in
  index (ag_latencies a) idx.

(** [d.Round(m)] of package time. *)
Definition Round (d m : Z) : Z :=
  if m <=? 0 then d else
  let r := Z.rem d m in
  if d <? 0 then
    let r := - r in
    if r + r <? m then d + r
    else let d1 := s64 (d - m + r) in if d1 <? d then d1 else - (u64_mod / 2)
  else if r + r <? m then d - r
  else let d1 := s64 (d + m - r) in if d <? d1 then d1 else u64_mod / 2 - 1.
(** [d.Seconds()]. *)
Definition Seconds (d : Z) : spec_float :=
  SFadd 53 1024 (float_of_int (Z.quot d 1000000000)) (fdiv (float_of_int (Z.rem d 1000000000)) (float_of_int 1000000000)).

(** The numbers [report] prints. *)
Record bench_report : Type := mkReport {
  br_count : Z;
  br_errors : Z;
  br_thru : spec_float;
  br_p50 : Z;
  br_p99 : Z;
  br_max : Z
}.
Definition report (a : aggregate) : outcome bench_report :=
  let a := mkAggregate (merge_sort (≤)%Z (ag_latencies a)) (ag_count a) (ag_errors a) (ag_window a) in
  let thru := if 0 <? ag_window a then fdiv (float_of_int (ag_count a)) (Seconds (ag_window a)) else S754_zero false in
  p50 ← percentile (float_of_int 50) a;
  p99 ← percentile (float_of_int 99) a;
  mx ← percentile (float_of_int 100) a;
  Ret (mkReport (ag_count a) (ag_errors a) thru (Round p50 1000) (Round p99 1000) (Round mx 1000)).

(** ** The closed loop *)

(** [fmt.Sprintf("%016x", uint64(i))]. *)
Fixpoint hexDigits (k : nat) (v : Z) (acc : list byte) : list byte :=
  match k with
  | O => acc
  | S k => let d := v mod 16 in hexDigits k (v / 16) (z2b (if d <? 10 then 48 + d else 87 + d) :: acc)
  end.
Definition keyFor (i : Z) : list byte := hexDigits 16 (w64 i) [].

Definition inMeasurementWindow (start fin measureAt deadline : Z) : bool :=
  negb (start <? measureAt) && (start <? deadline) && negb (fin <? start) && negb (deadline <? fin).

(** One turn of a worker: the clock when the loop is entered, around the
    operation, and whether the operation failed. *)
Record sample : Type := mkSample {
  sp_now : Z;
  sp_start : Z;
  sp_end : Z;
  sp_failed : bool
}.
(** The turns until the deadline, the next key's number in [i]; with the keys
    used. *)
Fixpoint worker (keyspace measureAt deadline i : Z) (turns : list sample) (agg : aggregate) : outcome (list (list byte) * aggregate) :=
  match turns with
  | [] => Ret ([], agg)
  | t :: turns =>
      if negb (sp_now t <? deadline) then Ret ([], agg) else
      if keyspace =? 0 then Panic PanicDivide else
      let key := keyFor (Z.rem i keyspace) in
      let agg :=
        if negb (inMeasurementWindow (sp_start t) (sp_end t) measureAt deadline) then agg
        else if sp_failed t then mkAggregate (ag_latencies agg) (ag_count agg) (s64 (ag_errors agg + 1)) (ag_window agg)
        else record (sp_end t - sp_start t) agg in
      '(keys, agg) ← worker keyspace measureAt deadline (s64 (i + 1)) turns agg;
      Ret (key :: keys, agg)
  end.

Record benchParams : Type := mkParams {
  bp_addrs : list (list byte);
  bp_clients : Z;
  bp_duration : Z;
  bp_warmup : Z;
  bp_keyspace : Z;
  bp_read : bool
}.
Inductive bench_error : Type :=
| ErrClients
| ErrBenchCluster
| ErrWorkload
| ErrSeedDial (e : Z)
| ErrSeedKey (i : Z) (e : Z)
| ErrWorkers (errs : list Z).

(** Writing keys [i], [i+1], ... up to [keyspace]; [put] answers for a key. *)
Fixpoint seed (put : list byte → option Z) (i : Z) (k : nat) : option bench_error :=
  match k with
  | O => None
  | S k => match put (keyFor i) with Some e => Some (ErrSeedKey i e) | None => seed put (i + 1) k end
  end.
(** The workers of [runBench], from number [w] on; a worker's [Dial] failed or it
    ran the turns given. *)
Fixpoint runWorkers (p : benchParams) (start w : Z) (runs : list (result Z (list sample))) : outcome (list Z * list aggregate) :=
  match runs with
  | [] => Ret ([], [])
  | Err e :: runs => '(errs, aggs) ← runWorkers p start (w + 1) runs; Ret (e :: errs, aggs)
  | Ok turns :: runs =>
      '(_, agg) ← worker (bp_keyspace p) (start + bp_warmup p) (start + s64 (bp_warmup p + bp_duration p)) w turns newAggregate;
      '(errs, aggs) ← runWorkers p start (w + 1) runs;
      Ret (errs, agg :: aggs)
  end.
(** [runBench] with the errors of all workers that could not dial, one of which
    it returns. *)
Definition runBench (p : benchParams) (seedDial : option Z) (put : list byte → option Z) (start : Z) (runs : list (result Z (list sample)))
    : outcome (result bench_error aggregate) :=
  match seedDial with
  | Some e => Ret (Err (ErrSeedDial e))
  | None =>
      match seed put 0 (Z.to_nat (bp_keyspace p)) with
      | Some e => Ret (Err e)
      | None =>
          '(errs, aggs) ← runWorkers p start 0 runs;
          match errs with
          | _ :: _ => Ret (Err (ErrWorkers errs))
          | [] => Ret (Ok (foldl (λ total a, merge a total) (mkAggregate [] 0 0 (bp_duration p)) aggs))
          end
      end
  end.

(** ** The flags *)

Definition bench_splitAddrs (s : list byte) : list (list byte) :=
  foldl (λ out a, let a := TrimSpace a in if decide (a = []) then out else out ++ [a]) [] (Split x2c s).
Record bench_flags : Type := mkBenchFlags {
  bf_cluster : list byte;
  bf_clients : Z;
  bf_duration : Z;
  bf_warmup : Z;
  bf_workload : list byte;
  bf_keyspace : Z;
  bf_smoke : bool
}.
Definition benchOptions (f : bench_flags) : result bench_error benchParams :=
  let duration := if bf_smoke f then 3 * 1000000000 else bf_duration f in
  let warmup := if bf_smoke f then 500 * 1000000 else bf_warmup f in
  let clients := if bf_smoke f && (8 <? bf_clients f) then 8 else bf_clients f in
  if clients <? 1 then Err ErrClients else
  let addrs := bench_splitAddrs (bf_cluster f) in
  if zlen addrs =? 0 then Err ErrBenchCluster else
  if decide (bf_workload f = $"write") then Ok (mkParams addrs clients duration warmup (bf_keyspace f) false)
  else if decide (bf_workload f = $"read") then Ok (mkParams addrs clients duration warmup (bf_keyspace f) true)
  else Err ErrWorkload.
(** [run], from the flags to what is printed: the number of operations in smoke
    mode, or the report. *)
Definition bench_run (f : bench_flags) (seedDial : option Z) (put : list byte → option Z) (start : Z) (runs : list (result Z (list sample)))
    : outcome (result bench_error (Z + bench_report)) :=
  match benchOptions f with
  | Err e => Ret (Err e)
  | Ok p =>
      r ← runBench p seedDial put start runs;
      match r with
      | Err e => Ret (Err e)
      | Ok agg => if bf_smoke f then Ret (Ok (inl (ag_count agg))) else rep ← report agg; Ret (Ok (inr rep))
      end
  end.

(** ** The fsync probe *)

Definition probe_percentile (sorted : list Z) (p : spec_float) : outcome Z :=
  let n := zlen sorted in
  if n =? 0 then Ret 0 else
  let idx := int_of_float undef (fmul (fdiv p (float_of_int 100)) (float_of_int n)) in
  let idx := if n <=? idx then n - 1 else idx in
  index sorted idx.
Definition mean (s : list Z) : Z :=
  if zlen s =? 0 then 0 else Z.quot (foldl (λ total d, s64 (total + d)) 0 s) (zlen s).

(** The durations [printTable] prints. *)
Record probe_table : Type := mkTable {
  pt_min : Z;
  pt_p50 : Z;
  pt_p99 : Z;
  pt_max : Z;
  pt_mean : Z
}.
Definition printTable (sorted : list Z) : outcome probe_table :=
  mn ← index sorted 0;
  p50 ← probe_percentile sorted (float_of_int 50);
  p99 ← probe_percentile sorted (float_of_int 99);
  mx ← index sorted (zlen sorted - 1);
  Ret (mkTable mn p50 p99 mx (mean sorted)).

Inductive probe_error : Type :=
| ErrProbeN
| ErrProbeOpen (e : Z)
| ErrWarmupWrite (e : Z)
| ErrWarmupSync (e : Z)
| ErrProbeWrite (e : Z)
| ErrProbeSync (e : Z).

(** What the [i]-th write and the [i]-th sync return, a sync with its duration. *)
Variable writeAt : Z → option Z.
Variable syncAt : Z → result Z Z.

Definition writeSync (i : Z) : option probe_error :=
  match writeAt i with
  | Some e => Some (ErrWarmupWrite e)
  | None => match syncAt i with Err e => Some (ErrWarmupSync e) | Ok _ => None end
  end.
Fixpoint warmups (i : Z) (k : nat) : option probe_error :=
  match k with
  | O => None
  | S k => match writeSync i with Some e => Some e | None => warmups (i + 1) k end
  end.
Fixpoint measure (i : Z) (k : nat) (samples : list Z) : result probe_error (list Z) :=
  match k with
  | O => Ok samples
  | S k =>
      match writeAt i with
      | Some e => Err (ErrProbeWrite e)
      | None => match syncAt i with Err e => Err (ErrProbeSync e) | Ok d => measure (i + 1) k (samples ++ [d]) end
      end
  end.
(** [run]; [opened] is the error of making the directory or opening the file. *)
Definition probe_run (n warmup : Z) (opened : option Z) : outcome (result probe_error probe_table) :=
  if n <? 1 then Ret (Err ErrProbeN) else
  match opened with
  | Some e => Ret (Err (ErrProbeOpen e))
  | None =>
      match warmups 0 (Z.to_nat warmup) with
      | Some e => Ret (Err e)
      | None =>
          match measure (Z.max 0 warmup) (Z.to_nat n) [] with
          | Err e => Ret (Err e)
          | Ok samples => t ← printTable (merge_sort (≤)%Z samples); Ret (Ok t)
          end
      end
  end.

(** ** Percentiles *)

Definition rank (p : spec_float) (n : Z) : Z :=
  let idx := int_of_float undef (fmul (fdiv p (float_of_int 100)) (float_of_int n)) in
  if n <=? idx then n - 1 else idx.

Lemma ranks n : 0 < n < 2 ^ 53 →
  0 ≤ rank (float_of_int 50) n ≤ rank (float_of_int 99) n ∧ rank (float_of_int 99) n ≤ rank (float_of_int 100) n ∧
  rank (float_of_int 100) n = n - 1.
Proof.
  intros Hn. unfold rank.
  assert (E50 : fdiv (float_of_int 50) (float_of_int 100) = S754_finite false 4503599627370496 (- 53)) by done.
  assert (E99 : fdiv (float_of_int 99) (float_of_int 100) = S754_finite false 8917127262193582 (- 53)) by done.
  assert (E100 : fdiv (float_of_int 100) (float_of_int 100) = S754_finite false 4503599627370496 (- 52)) by done.
  rewrite E50, E99, E100. pose proof (Z.div_mod (n + 1) 2 ltac:(lia)). pose proof (Z.mod_pos_bound (n + 1) 2 ltac:(lia)).
  pose proof (scaled_between undef 4503599627370496 53 n 0 ((n + 1) / 2)) as H50.
  pose proof (scaled_between undef 8917127262193582 53 n (if n =? 1 then 0 else (n + 1) / 2) n) as H99.
  pose proof (scaled_between undef 4503599627370496 52 n n n) as H100.
  change (Z.opp 53) with (-53) in *. change (Z.opp 52) with (-52) in *.
  change (2 ^ 53) with 9007199254740992 in *. change (2 ^ 52) with 4503599627370496 in *.
  destruct H50 as [L50 U50]; [lia..|]. destruct H99 as [L99 U99]; [lia|lia|destruct (n =? 1); lia|lia|destruct (Z.eqb_spec n 1); lia|].
  destruct H100 as [L100 U100]; [lia..|]. destruct (Z.eqb_spec n 1); repeat match goal with |- context [if n <=? ?x then _ else _] => destruct (Z.leb_spec n x) end; lia.
Qed.

Lemma sorted_lookup (l : list Z) i j x y : Sorted (≤)%Z l → l !! i = Some x → l !! j = Some y → (i ≤ j)%nat → x ≤ y.
Proof.
  intros Hs Hx Hy Hij. apply Sorted_StronglySorted in Hs; [|intros a b c; lia]. revert i j Hx Hy Hij.
  induction Hs as [|a l Hs IH Ha]; intros i j Hx Hy Hij; [done|]. rewrite Forall_forall in Ha.
  destruct i as [|i], j as [|j]; simpl in *; [simplify_eq; lia| |lia|].
  - injection Hx as <-. by apply Ha, (list_elem_of_lookup_2 _ j).
  - apply (IH i j); [done|done|lia].
Qed.
Lemma index_at (l : list Z) k : 0 ≤ k < zlen l → ∃ x, index l k = Ret x ∧ l !! Z.to_nat k = Some x.
Proof.
  intros Hk. unfold index. destruct (Z.ltb_spec k 0); [lia|]. destruct (lookup_lt_is_Some_2 l (Z.to_nat k)) as [x Hx]; [unfold zlen in Hk; lia|].
  exists x. by rewrite Hx.
Qed.
(** The percentiles the programs print, of a sorted list. *)
Lemma percentiles l : Sorted (≤)%Z l → 0 < zlen l < 2 ^ 53 →
  ∃ x50 x99 x100, probe_percentile l (float_of_int 50) = Ret x50 ∧ probe_percentile l (float_of_int 99) = Ret x99 ∧
    probe_percentile l (float_of_int 100) = Ret x100 ∧ x50 ≤ x99 ≤ x100 ∧ x50 ∈ l ∧ x99 ∈ l ∧ x100 ∈ l ∧
    (∀ x, x ∈ l → x ≤ x100) ∧ index l (zlen l - 1) = Ret x100.
Proof.
  intros Hs Hn. destruct (ranks (zlen l) Hn) as (H50 & H99 & H100).
  assert (Hp : ∀ p, probe_percentile l p = index l (rank p (zlen l))).
  { intros p. unfold probe_percentile, rank. destruct (Z.eqb_spec (zlen l) 0); [lia|done]. }
  destruct (index_at l (rank (float_of_int 50) (zlen l))) as (x50 & I50 & L50); [lia|].
  destruct (index_at l (rank (float_of_int 99) (zlen l))) as (x99 & I99 & L99); [lia|].
  destruct (index_at l (rank (float_of_int 100) (zlen l))) as (x100 & I100 & L100); [lia|].
  exists x50, x99, x100. rewrite !Hp, I50, I99, I100. split_and!; try done; try (by eapply list_elem_of_lookup_2).
  - by apply (sorted_lookup l _ _ _ _ Hs L50 L99); lia.
  - by apply (sorted_lookup l _ _ _ _ Hs L99 L100); lia.
  - intros x [i Hi]%list_elem_of_lookup. pose proof (lookup_lt_Some _ _ _ Hi). apply (sorted_lookup l _ _ _ _ Hs Hi L100).
    rewrite H100. unfold zlen. lia.
  - by rewrite <-H100.
Qed.
Lemma sum_between lo hi s l : Forall (λ d, lo ≤ d ≤ hi) l → 0 ≤ lo → 0 ≤ s → s + hi * zlen l < u64_mod / 2 →
  s + lo * zlen l ≤ foldl (λ total d, s64 (total + d)) s l ≤ s + hi * zlen l.
Proof.
  intros Hl Hlo. revert s. induction Hl as [|d l Hd Hl IH]; intros s Hs Hb; [change (zlen (@nil Z)) with 0; simpl; lia|].
  rewrite zlen_cons in *. pose proof (zlen_nonneg l). simpl. change (u64_mod / 2) with 9223372036854775808 in *.
  rewrite s64_id by (change (u64_mod / 2) with 9223372036854775808; nia). specialize (IH (s + d)). nia.
Qed.
Lemma mean_between lo hi l : Forall (λ d, lo ≤ d ≤ hi) l → 0 ≤ lo → 0 < zlen l → hi * zlen l < u64_mod / 2 → lo ≤ mean l ≤ hi.
Proof.
  intros Hl Hlo Hn Hb. unfold mean. destruct (Z.eqb_spec (zlen l) 0); [lia|]. pose proof (sum_between lo hi 0 l Hl Hlo) as Hs.
  rewrite Z.quot_div_nonneg by nia. split; [apply Z.div_le_lower_bound|apply Z.div_le_upper_bound]; lia.
Qed.
Lemma measure_ok Q i k samples out :
  (∀ j d, syncAt j = Ok d → Q d) → measure i k samples = Ok out → Forall Q samples → Forall Q out ∧ zlen out = zlen samples + Z.of_nat k.
Proof.
  intros HQ. revert i samples. induction k as [|k IH]; intros i samples E Hf; simpl in E; [injection E as <-; split; [done|lia]|].
  destruct (writeAt i); [done|]. destruct (syncAt i) as [d|] eqn:Es; [|done]. apply IH in E as [? E]; [|apply Forall_app; split; [done|]; constructor; eauto].
  rewrite zlen_app in E. change (zlen [d]) with 1 in E. split; [done|lia].
Qed.

(** ** What the benchmark counts *)

(** As many latencies as counted operations, all within the window. *)
Definition agg_ok (D : Z) (a : aggregate) : Prop :=
  ag_count a = zlen (ag_latencies a) ∧ Forall (λ d, 0 ≤ d ≤ D) (ag_latencies a).

Lemma s64_nonneg x : 0 ≤ x < u64_mod / 2 → s64 x = x.
Proof. intros Hx. apply s64_id. change (u64_mod / 2) with 9223372036854775808 in *. lia. Qed.
Lemma worker_ok ks mAt dl i turns agg keys agg' :
  worker ks mAt dl i turns agg = Ret (keys, agg') → agg_ok (dl - mAt) agg → zlen (ag_latencies agg) + zlen turns < u64_mod / 2 →
  agg_ok (dl - mAt) agg' ∧ zlen (ag_latencies agg') ≤ zlen (ag_latencies agg) + zlen turns.
Proof.
  revert i agg keys. induction turns as [|t turns IH]; intros i agg keys E Ha Hn; simpl in E.
  { injection E as <- <-. change (zlen (@nil sample)) with 0. split; [done|lia]. }
  rewrite zlen_cons in *. pose proof (zlen_nonneg turns). pose proof (zlen_nonneg (ag_latencies agg)).
  destruct (negb (sp_now t <? dl)); [injection E as <- <-; split; [done|lia]|]. destruct (ks =? 0); [done|].
  set (agg1 := if negb _ then agg else _) in E. apply outcome_bind_Ret in E as ([keys1 agg2] & E & [= <- <-]).
  assert (H1 : agg_ok (dl - mAt) agg1 ∧ zlen (ag_latencies agg1) ≤ zlen (ag_latencies agg) + 1).
  { unfold agg1. destruct (inMeasurementWindow _ _ _ _) eqn:Ew; simpl; [|split; [done|lia]]. destruct (sp_failed t); [split; [done|simpl; lia]|].
    unfold inMeasurementWindow in Ew. rewrite !andb_true_iff, !negb_true_iff, !Z.ltb_ge, Z.ltb_lt in Ew. destruct Ha as [Ec Hf].
    unfold agg_ok. simpl. rewrite zlen_app. change (zlen [_]) with 1. split; [split|lia].
    - rewrite Ec, s64_nonneg; [done|lia].
    - apply Forall_app. split; [done|]. constructor; [lia|done]. }
  destruct H1 as [H1 H1']. destruct (IH _ _ _ E H1) as [? ?]; [lia|]. split; [done|lia].
Qed.
Definition turns_of (runs : list (result Z (list sample))) : Z := foldr (λ r s, (match r with Ok ts => zlen ts | Err _ => 0 end) + s) 0 runs.
Lemma turns_of_nonneg runs : 0 ≤ turns_of runs.
Proof. induction runs as [|[ts|e] runs IH]; simpl; [lia|pose proof (zlen_nonneg ts); lia|done]. Qed.
Definition latencies_of (aggs : list aggregate) : Z := foldr (λ a s, zlen (ag_latencies a) + s) 0 aggs.
Lemma runWorkers_ok p start w runs errs aggs :
  runWorkers p start w runs = Ret (errs, aggs) → 0 ≤ bp_warmup p + bp_duration p < u64_mod / 2 → turns_of runs < u64_mod / 2 →
  Forall (agg_ok (bp_duration p)) aggs ∧ latencies_of aggs ≤ turns_of runs.
Proof.
  intros E Hb. revert w errs aggs E. induction runs as [|[ts|e] runs IH]; intros w errs aggs E Hn; simpl in E.
  - injection E as <- <-. split; [done|simpl; lia].
  - apply outcome_bind_Ret in E as ([keys agg] & Ew & E). apply outcome_bind_Ret in E as ([errs1 aggs1] & E & [= <- <-]). simpl in *.
    pose proof (zlen_nonneg ts). pose proof (turns_of_nonneg runs).
    destruct (IH _ _ _ E) as [Hf Hl]; [lia|]. apply worker_ok in Ew as [Ha Hz]; [|done|simpl; change (zlen (@nil Z)) with 0; lia].
    rewrite (s64_nonneg (bp_warmup p + bp_duration p)) in Ha by done. replace (_ - _) with (bp_duration p) in Ha by lia. split; [by constructor|]. simpl in Hz. change (zlen (@nil Z)) with 0 in Hz. lia.
  - apply outcome_bind_Ret in E as ([errs1 aggs1] & E & [= <- <-]). simpl in *. eapply IH; [done|lia].
Qed.
Lemma merge_ok D aggs total :
  Forall (agg_ok D) aggs → agg_ok D total → zlen (ag_latencies total) + latencies_of aggs < u64_mod / 2 →
  let t := foldl (λ total a, merge a total) total aggs in agg_ok D t ∧ ag_window t = ag_window total.
Proof.
  intros Ha. revert total. induction Ha as [|a aggs [Ec Hf] Ha IH]; intros total [Et Hft] Hn; simpl in *; [done|].
  pose proof (zlen_nonneg (ag_latencies total)). pose proof (zlen_nonneg (ag_latencies a)).
  assert (Hl : 0 ≤ latencies_of aggs) by (clear; induction aggs as [|b aggs IH]; simpl; [lia|pose proof (zlen_nonneg (ag_latencies b)); lia]).
  apply (IH (merge a total)); simpl; [|rewrite zlen_app; lia]. split; simpl; [|by apply Forall_app]. rewrite zlen_app, Et, Ec. apply s64_nonneg. lia.
Qed.
End bench.

(** ** Properties *)

(** What the benchmark counts.  As long as the run's length fits a duration and
    fewer than 2^63 operations were timed, the total of [runBench] counts exactly the latencies it recorded, and
    each of them lies between 0 and the measured duration: operations that
    start in the warmup or end after the deadline are left out. *)
Theorem runBench_counts p seedDial put start runs agg :
  runBench p seedDial put start runs = Ret (Ok agg) → 0 ≤ bp_warmup p + bp_duration p < u64_mod / 2 → turns_of runs < u64_mod / 2 →
  ag_count agg = zlen (ag_latencies agg) ∧ Forall (λ d, 0 ≤ d ≤ bp_duration p) (ag_latencies agg) ∧ ag_window agg = bp_duration p.
Proof.
  unfold runBench. destruct seedDial; [done|]. destruct (seed _ _ _); [done|]. intros ([errs aggs] & E & Hr)%outcome_bind_Ret Hb Hn.
  destruct errs; [|done]. injection Hr as <-. destruct (runWorkers_ok _ _ _ _ _ _ E Hb Hn) as [Hf Hl].
  destruct (merge_ok (bp_duration p) aggs (mkAggregate [] 0 0 (bp_duration p)) Hf) as [[H1 H2] H3]; [done|simpl; change (zlen (@nil Z)) with 0; lia|done].
Qed.

(** C29: the fsync probe's table is sound.  With fewer than 2^53 samples (memory
    permitting), non-negative durations and a total that fits, [run] does not
    panic on an index, and of the durations it prints the minimum, the median, the 99th percentile and the
    maximum are in order, with the mean between minimum and maximum, although
    the ranks are computed in floating point. *)
Theorem probe_table_ordered undef writeAt syncAt n warmup opened D :
  n < 2 ^ 53 → (∀ i d, syncAt i = Ok d → 0 ≤ d ≤ D) → D * n < u64_mod / 2 →
  ∃ r, probe_run undef writeAt syncAt n warmup opened = Ret r ∧
    ∀ t, r = Ok t → pt_min t ≤ pt_p50 t ≤ pt_p99 t ∧ pt_p99 t ≤ pt_max t ∧ pt_min t ≤ pt_mean t ≤ pt_max t.
Proof.
  intros Hn Hd HD. unfold probe_run. destruct (Z.ltb_spec n 1); [by eexists|]. destruct opened; [by eexists|].
  destruct (warmups _ _ _ _); [by eexists|]. destruct (measure _ _ _ _ _) as [samples|] eqn:Em; [|by eexists].
  apply (measure_ok _ _ (λ d, 0 ≤ d ≤ D)) in Em as [Hf Hlen]; [|done|done]. change (zlen (@nil Z)) with 0 in Hlen.
  set (l := merge_sort _ samples). assert (Hl : l ≡ₚ samples) by apply merge_sort_Permutation.
  assert (Hs : Sorted (≤)%Z l) by (apply Sorted_merge_sort; intros x y; lia).
  assert (Hz : zlen l = n) by (unfold zlen in *; rewrite Hl; lia).
  destruct (percentiles undef l Hs) as (x50 & x99 & x100 & P50 & P99 & _ & Ho & I50 & I99 & I100 & Hmax & Hlast); [lia|].
  destruct (index_at l 0) as (x0 & I0 & L0); [lia|]. unfold printTable. rewrite I0, P50, P99, Hlast. eexists. split; [reflexivity|].
  intros t [= <-]. simpl. assert (Hmin : ∀ x, x ∈ l → x0 ≤ x).
  { intros x [k Hk]%list_elem_of_lookup. apply (sorted_lookup l 0 k x0 x Hs L0 Hk). lia. }
  rewrite Forall_forall in Hf. assert (Hx0 : 0 ≤ x0) by (apply Hf; rewrite <-Hl; by eapply list_elem_of_lookup_2).
  assert (Hx1 : x100 ≤ D) by (apply Hf; by rewrite <-Hl). specialize (Hmin x50 I50) as Hm50.
  split_and!; try lia; apply (mean_between x0 x100 l); try done; try lia; try nia; apply Forall_forall; intros x Hx; split; auto.
Qed.

(** ** Examples *)

(** A run of two workers with one second of warmup and two of measurement: one
    operation in the warmup, two measured, one failed, one past the deadline. *)
Definition params2 : benchParams := mkParams [$"a:1"] 2 2000 1000 2 false.
Definition runs2 : list (result Z (list sample)) :=
  [Ok [mkSample 0 0 900 false; mkSample 900 1000 1100 false; mkSample 1100 1100 1200 true; mkSample 1200 2990 3010 false];
   Ok [mkSample 0 1500 3000 false]].

(** Witness for [runBench_counts]. *)
Lemma runBench_counts_witness :
  runBench params2 None (λ _, None) 0 runs2 = Ret (Ok (mkAggregate [100; 1500] 2 1 2000)) ∧ Forall (λ d, 0 ≤ d ≤ 2000) [100; 1500].
Proof.
  assert (E : runBench params2 None (λ _, None) 0 runs2 = Ret (Ok (mkAggregate [100; 1500] 2 1 2000))) by (vm_compute; reflexivity).
  split; [exact E|]. eapply (runBench_counts params2 None (λ _, None) 0 runs2 _ E).
  - vm_compute. split; [discriminate|reflexivity].
  - vm_compute. reflexivity.
Defined.

(** Three samples after one warmup write. *)
Definition sync3 (i : Z) : result Z Z := Ok (match i with 1 => 700 | 2 => 300 | _ => 500 end).

(** Witness for [probe_table_ordered]. *)
Lemma probe_table_ordered_witness :
  probe_run (λ _, 0) (λ _, None) sync3 3 1 None = Ret (Ok (mkTable 300 500 700 700 500)) ∧ 300 ≤ 500 ≤ 700.
Proof.
  assert (E : probe_run (λ _, 0) (λ _, None) sync3 3 1 None = Ret (Ok (mkTable 300 500 700 700 500))) by (vm_compute; reflexivity).
  split; [exact E|]. destruct (probe_table_ordered (λ _, 0) (λ _, None) sync3 3 1 None 700) as (r & Er & Ht).
  - reflexivity.
  - intros i d [= <-]. repeat case_match; lia.
  - reflexivity.
  - rewrite E in Er. injection Er as <-. apply (Ht (mkTable 300 500 700 700 500) eq_refl).
Defined.

(** With an empty keyspace, which the flags admit, the first turn of a worker
    divides by zero. *)
Example keyspace_zero :
  bench_run (λ _, 0) (mkBenchFlags ($"a:1") 1 2000 0 ($"write") 0 false) None (λ _, None) 0 [Ok [mkSample 0 0 1 false]] = Panic PanicDivide.
Proof. vm_compute. reflexivity. Qed.
