(* ===== verification/Lin.v ===== *)
(** * The linearizability model (src/sim/lin/lin.go)

    [History] records operations; [stepKV] is the sequential specification
    that the histories are checked against, one key at a time.  Porcupine's
    search is an argument of [CheckHistory] ([Check] in the source).  The
    theorems relate the specification and the verdict to the state machine. *)

From S2P Require Import Prelude RaftTypes KvCodec KvStateMachine.

(** ** Histories *)

Record Operation : Type := mkOperation {
  op_ClientID : Z;
  op_Input : Command;
  op_Output : Result;
  op_Call : Z;
  op_Return : Z
}.
Record History : Type := mkHistory {
  h_ops : list Operation;
  h_pending : gmap Z Operation;
  h_nextID : Z
}.
Definition NewHistory : History := mkHistory [] ∅ 0.

Definition Invoke (clientID : Z) (cmd : Command) (at_ : Z) (h : History) : Z * History :=
  let id := h_nextID h in
  (id, mkHistory (h_ops h) (<[id := mkOperation clientID cmd (mkResult StatusOK None 0) at_ (-1)]> (h_pending h)) (id + 1)).

Definition Complete (id : Z) (res : Result) (at_ : Z) (h : History) : History :=
  match h_pending h !! id with
  | None => h
  | Some op =>
      mkHistory (h_ops h ++ [mkOperation (op_ClientID op) (op_Input op) res (op_Call op) at_])
        (delete id (h_pending h)) (h_nextID h)
  end.
Definition Operations (h : History) : list Operation := h_ops h.
Definition Pending (h : History) : list Operation :=
  omap (λ id, h_pending h !! id) (merge_sort Z.le (map_to_list (h_pending h)).*1).

(** ** The sequential model of one key *)

Record keyState : Type := mkKeyState {
  ks_present : bool;
  ks_value : list byte;
  ks_version : Z
}.
#[export] Instance keyState_eq_dec : EqDecision keyState.
Proof. solve_decision. Defined.
Definition zeroKeyState : keyState := mkKeyState false [] 0.

(** An observed result, or [None] for an operation that never completed. *)
Definition lin_outcome : Type := option Result.

(** [string(b)] *)
Definition str (b : option (list byte)) : list byte := default [] b.

Definition casMatches (st : keyState) (cmd : Command) : bool :=
  match cmdExpect cmd with
  | None => negb (ks_present st)
  | Some e => ks_present st && bool_decide (ks_value st = e)
  end.

Definition applyOp (st : keyState) (cmd : Command) : keyState :=
  if decide (cmdOp cmd = OpPut) then mkKeyState true (str (cmdValue cmd)) (ks_version st +w 1)
  else if decide (cmdOp cmd = OpDelete) then zeroKeyState
  else if decide (cmdOp cmd = OpCAS) then
    if casMatches st cmd then mkKeyState true (str (cmdValue cmd)) (ks_version st +w 1) else st
  else st.

(** [string(res.Value) == st.value && res.Version == st.version] *)
Definition echoes (st : keyState) (res : Result) : bool :=
  bool_decide (str (resValue res) = ks_value st) && (resVersion res =? ks_version st).

Definition stepKV (st : keyState) (cmd : Command) (out : lin_outcome) : list keyState :=
  match out with
  | None =>
      let after := applyOp st cmd in
      if decide (after = st) then [st] else [after; st]
  | Some res =>
      if decide (cmdOp cmd = OpGet) then
        if ks_present st then
          if bool_decide (resStatus res = StatusOK) && echoes st res then [st] else []
        else if bool_decide (resStatus res = StatusNotFound) then [st] else []
      else if decide (cmdOp cmd = OpPut) then
        let next := mkKeyState true (str (cmdValue cmd)) (ks_version st +w 1) in
        if bool_decide (resStatus res = StatusOK) && (resVersion res =? ks_version next) then [next] else []
      else if decide (cmdOp cmd = OpDelete) then
        if ks_present st then
          if bool_decide (resStatus res = StatusOK) then [zeroKeyState] else []
        else if bool_decide (resStatus res = StatusNotFound) then [st] else []
      else if decide (cmdOp cmd = OpCAS) then
        if casMatches st cmd then
          let next := mkKeyState true (str (cmdValue cmd)) (ks_version st +w 1) in
          if bool_decide (resStatus res = StatusOK) && (resVersion res =? ks_version next) then [next] else []
        else if ks_present st then
          if bool_decide (resStatus res = StatusCASMismatch) && echoes st res then [st] else []
        else if bool_decide (resStatus res = StatusCASMismatch) then [st] else []
      else []
  end.

(** The successors of a set of states: Porcupine's power-set model. *)
Definition stepSet (sts : list keyState) (op : Command * lin_outcome) : list keyState :=
  sts ≫= λ st, stepKV st op.1 op.2.

(** An operation as Porcupine takes it; operations that never returned get an
    infinite return time. *)
Record pOperation : Type := mkPOperation {
  po_ClientId : Z;
  po_Input : Command;
  po_Output : lin_outcome;
  po_Call : Z;
  po_Return : Z
}.
Definition MaxInt64 : Z := 9223372036854775807.
Definition checkOps (h : History) : list pOperation :=
  map (λ o, mkPOperation (op_ClientID o) (op_Input o) (Some (op_Output o)) (op_Call o) (op_Return o)) (Operations h) ++
  map (λ o, mkPOperation (op_ClientID o) (op_Input o) None (op_Call o) MaxInt64) (Pending h).

(** The sub-histories of the keys, in the order of the keys. *)
Definition Partition (ops : list pOperation) : list (list pOperation) :=
  let keys := merge_sort str_le (remove_dups (map (cmdKey ∘ po_Input) ops)) in
  map (λ k, filter (λ o, cmdKey (po_Input o) = k) ops) keys.

Inductive CheckResult : Type := LinUnknown | LinOk | LinIllegal.
#[export] Instance CheckResult_eq_dec : EqDecision CheckResult.
Proof. solve_decision. Defined.

(** Porcupine's search over the parts is an argument. *)
Definition CheckHistory (porcupine : list (list pOperation) → CheckResult) (h : History) : CheckResult :=
  porcupine (Partition (checkOps h)).

(** ** The state machine refines the model *)

(** What the model sees of a key. *)
Definition keyOf (m : StateMachine) (key : list byte) : keyState :=
  match data m !! key with
  | None => zeroKeyState
  | Some rec => mkKeyState true (str (recValue rec)) (recVersion rec)
  end.

Lemma keyOf_store m key value :
  keyOf (set_data (<[key := mkValueRecord value (recVersion (default zeroRecord (data m !! key)) +w 1)]> (data m)) m) key =
  mkKeyState true (str value) (ks_version (keyOf m key) +w 1).
Proof. unfold keyOf. simpl. rewrite lookup_insert_eq. simpl. by destruct (data m !! key). Qed.

(** The machine's compare-and-swap tests what the model does. *)
Lemma cas_casMatches c m :
  cas c m = if casMatches (keyOf m (cmdKey c)) c then kv_store (cmdKey c) (cmdValue c) m
            else Ret (match data m !! cmdKey c with
                      | Some cur => mkResult StatusCASMismatch (recValue cur) (recVersion cur)
                      | None => statusOnly StatusCASMismatch
                      end, m).
Proof.
  unfold cas, casMatches, keyOf. unfold mbind at 1, M_bind. simpl.
  destruct (cmdExpect c) as [e|], (data m !! cmdKey c) as [cur|]; try done. simpl. unfold bytesEqual, str. simpl.
  by case_bool_decide.
Qed.

(** One command: its effect on its key is the model's, and on no other. *)
Lemma execute_keyOf c m r m' :
  execute c m = Ret (r, m') →
  keyOf m' (cmdKey c) = applyOp (keyOf m (cmdKey c)) c ∧ ∀ k, k ≠ cmdKey c → keyOf m' k = keyOf m k.
Proof.
  unfold execute, applyOp. intros E.
  assert (Hstore : ∀ v, kv_store (cmdKey c) v m = Ret (r, m') →
    keyOf m' (cmdKey c) = mkKeyState true (str v) (ks_version (keyOf m (cmdKey c)) +w 1) ∧ ∀ k, k ≠ cmdKey c → keyOf m' k = keyOf m k).
  { intros v. rewrite kv_store_eq. intros [= _ <-]. split; [apply keyOf_store|]. intros k Hk. unfold keyOf. simpl.
    by rewrite lookup_insert_ne. }
  case_decide as Hg; [injection E as _ <-; rewrite Hg; by rewrite !decide_False|].
  case_decide as Hp; [by apply Hstore|]. case_decide as Hd.
  { unfold mbind, M_bind in E. simpl in E. unfold keyOf. destruct (data m !! cmdKey c) as [rec|] eqn:Ed; injection E as _ <-.
    - simpl. rewrite lookup_delete_eq. split; [done|]. intros k Hk. by rewrite lookup_delete_ne.
    - by rewrite Ed. }
  case_decide as Hc; [|done]. rewrite cas_casMatches in E. destruct (casMatches _ c); [by apply Hstore|].
  injection E as _ <-. done.
Qed.

Section model.
Context (c : Command) (m : StateMachine) (r : Result) (m' : StateMachine).
Hypothesis Hex : execute c m = Ret (r, m').
Let st : keyState := keyOf m (cmdKey c).

(** The result of a machine step, read off the model's state. *)
Lemma execute_result :
  (cmdOp c = OpGet → resStatus r = (if ks_present st then StatusOK else StatusNotFound) ∧
     (ks_present st = true → str (resValue r) = ks_value st ∧ resVersion r = ks_version st)) ∧
  (cmdOp c = OpPut → resStatus r = StatusOK ∧ resVersion r = ks_version st +w 1) ∧
  (cmdOp c = OpDelete → resStatus r = (if ks_present st then StatusOK else StatusNotFound)) ∧
  (cmdOp c = OpCAS → if casMatches st c then resStatus r = StatusOK ∧ resVersion r = ks_version st +w 1
     else resStatus r = StatusCASMismatch ∧
       (ks_present st = true → str (resValue r) = ks_value st ∧ resVersion r = ks_version st)).
Proof.
  unfold st. revert Hex. unfold execute. intros E.
  assert (Hv : recVersion (default zeroRecord (data m !! cmdKey c)) = ks_version (keyOf m (cmdKey c))).
  { unfold keyOf. by destruct (data m !! cmdKey c). }
  split_and!; intros Hop; rewrite Hop in E; repeat first [rewrite decide_True in E by done | rewrite decide_False in E by done].
  - unfold gets, kv_get in E. injection E as <- _. unfold keyOf. by destruct (data m !! cmdKey c).
  - rewrite kv_store_eq in E. injection E as <- _. simpl. by rewrite Hv.
  - unfold mbind, M_bind in E. simpl in E. unfold keyOf. by destruct (data m !! cmdKey c); injection E as <- _.
  - rewrite cas_casMatches in E. destruct (casMatches _ c).
    + rewrite kv_store_eq in E. injection E as <- _. simpl. by rewrite Hv.
    + injection E as <- _. unfold keyOf. by destruct (data m !! cmdKey c).
Qed.
End model.

Lemma keyOf_absent m k : ks_present (keyOf m k) = false → keyOf m k = zeroKeyState.
Proof. unfold keyOf. by destruct (data m !! k). Qed.

Lemma valid_op_cases o : valid_op o = true → o = OpGet ∨ o = OpPut ∨ o = OpDelete ∨ o = OpCAS.
Proof.
  destruct (decide (o = OpGet)), (decide (o = OpPut)), (decide (o = OpDelete)), (decide (o = OpCAS)); auto.
  intros Hv. exfalso. destruct (execute_store (mkCommand 0 0 o [] None None) NewStateMachine ∅ Hv) as (? & ? & E & _).
  unfold execute in E. simpl in E. by rewrite !decide_False in E.
Qed.

(** What an observed result must share with the machine's. *)
Definition explains (st : keyState) (c : Command) (r r' : Result) : Prop :=
  resStatus r' = resStatus r ∧
  (resStatus r = StatusOK → cmdOp c ≠ OpDelete → resVersion r' = resVersion r) ∧
  (ks_present st = true → cmdOp c = OpGet ∨ resStatus r = StatusCASMismatch →
    str (resValue r') = str (resValue r) ∧ resVersion r' = resVersion r).

Lemma stepKV_exact c m r m' r' :
  valid_op (cmdOp c) = true → execute c m = Ret (r, m') →
  let st := keyOf m (cmdKey c) in
  (explains st c r r' → stepKV st c (Some r') = [keyOf m' (cmdKey c)]) ∧
  (¬ explains st c r r' → stepKV st c (Some r') = []).
Proof.
  intros Hv He st. destruct (execute_keyOf c m r m' He) as [-> _]. fold st.
  destruct (execute_result c m r m' He) as (Hg & Hp & Hd & Hc). fold st in Hg, Hp, Hd, Hc. unfold explains, applyOp, stepKV, echoes.
  assert (Hcond : ∀ (b : bool) (P : Prop) (st' : keyState), (b = true ↔ P) →
    (P → (if b then [st'] else []) = [st']) ∧ (¬ P → (if b then [st'] else []) = [])).
  { intros b P st' [H1 H2]. destruct b; split; try done; intros HP; [by destruct HP; apply H1|by apply H2 in HP]. }
  destruct (valid_op_cases _ Hv) as [E|[E|[E|E]]]; rewrite E;
    repeat first [rewrite decide_True by done | rewrite decide_False by done].
  - destruct (Hg E) as [Es Hval]. rewrite Es. destruct (ks_present st) eqn:Hpr.
    + destruct (Hval eq_refl) as [Ev Er]. rewrite Ev, Er. apply Hcond. rewrite !andb_true_iff, !bool_decide_eq_true, Z.eqb_eq. naive_solver.
    + apply Hcond. rewrite bool_decide_eq_true. naive_solver.
  - destruct (Hp E) as [Es Er]. rewrite Es, Er. apply Hcond. simpl. rewrite andb_true_iff, bool_decide_eq_true, Z.eqb_eq. naive_solver.
  - rewrite (Hd E). destruct (ks_present st) eqn:Hpr; [|rewrite <-(keyOf_absent m (cmdKey c) Hpr); fold st]; apply Hcond;
      rewrite bool_decide_eq_true; naive_solver.
  - specialize (Hc E). destruct (casMatches st c).
    + destruct Hc as [Es Er]. rewrite Es, Er. apply Hcond. simpl. rewrite andb_true_iff, bool_decide_eq_true, Z.eqb_eq. naive_solver.
    + destruct Hc as [Es Hval]. rewrite Es. destruct (ks_present st) eqn:Hpr.
      * destruct (Hval eq_refl) as [Ev Er]. rewrite Ev, Er. apply Hcond. rewrite !andb_true_iff, !bool_decide_eq_true, Z.eqb_eq. naive_solver.
      * apply Hcond. rewrite bool_decide_eq_true. naive_solver.
Qed.

(** ** Properties *)

(** The checker's model agrees with the state machine.  For every valid
    command, [stepKV] accepts a recorded result exactly when it explains what
    [execute] returned, and then it moves to the state of the key that the
    machine moved to; any other result is refused. *)
Theorem lin_model_exact c m r m' r' :
  valid_op (cmdOp c) = true → execute c m = Ret (r, m') →
  let st := keyOf m (cmdKey c) in
  (explains st c r r' → stepKV st c (Some r') = [keyOf m' (cmdKey c)]) ∧
  (¬ explains st c r r' → stepKV st c (Some r') = []).
Proof. apply stepKV_exact. Qed.

(** A serial execution by the state machine: each operation runs, with an
    observed result that it explains or unobserved, or is pending and never
    runs. *)
Inductive serial : StateMachine → list pOperation → StateMachine → Prop :=
| serial_nil m : serial m [] m
| serial_run m p r m1 ps m2 :
    valid_op (cmdOp (po_Input p)) = true → execute (po_Input p) m = Ret (r, m1) →
    from_option (explains (keyOf m (cmdKey (po_Input p))) (po_Input p) r) True (po_Output p) →
    serial m1 ps m2 → serial m (p :: ps) m2
| serial_lost m p ps m2 : po_Output p = None → serial m ps m2 → serial m (p :: ps) m2.

(** What linearizable means to Porcupine, over the power-set model: some order
    of the operations keeps every operation that returned before another was
    called in front of it, and leaves the model a state. *)
Definition real_time (ps : list pOperation) : Prop := StronglySorted (λ a b, po_Call a ≤ po_Return b) ps.
Definition linearizable (ps : list pOperation) : Prop :=
  ∃ ps', ps' ≡ₚ ps ∧ real_time ps' ∧ foldl stepSet [zeroKeyState] (map (λ p, (po_Input p, po_Output p)) ps') ≠ [].

Lemma stepKV_pending st c : st ∈ stepKV st c None ∧ applyOp st c ∈ stepKV st c None.
Proof. simpl. case_decide as E; [rewrite E|]; set_solver. Qed.
Lemma stepKV_pending_inv st c st' : st' ∈ stepKV st c None → st' = st ∨ st' = applyOp st c.
Proof. simpl. case_decide as E; set_solver. Qed.
Lemma stepSet_elem sts st c o st' : st ∈ sts → st' ∈ stepKV st c o → st' ∈ stepSet sts (c, o).
Proof. intros H1 H2. unfold stepSet. apply list_elem_of_bind. eauto. Qed.
#[export] Instance explains_dec st c r r' : Decision (explains st c r r').
Proof. unfold explains. apply _. Defined.

(** A serial execution drives the model along: for every key, its state after
    the operations on the key is one of the model's. *)
Lemma serial_model m ps m' key sts :
  serial m ps m' → keyOf m key ∈ sts →
  keyOf m' key ∈ foldl stepSet sts (map (λ p, (po_Input p, po_Output p)) (filter (λ p, cmdKey (po_Input p) = key) ps)).
Proof.
  intros Hs. revert sts. induction Hs as [m|m p r m1 ps m2 Hv He Ho Hs IH|m p ps m2 Ho Hs IH]; intros sts Hin; [done|..];
    (destruct (decide (cmdKey (po_Input p) = key)) as [Hk|Hk]; [rewrite filter_cons_True by done|rewrite filter_cons_False by done]); simpl.
  - apply IH. eapply stepSet_elem; [exact Hin|]. rewrite <-Hk. destruct (po_Output p) as [r'|]; simpl in Ho.
    + rewrite (proj1 (stepKV_exact _ m r m1 r' Hv He) Ho). by left.
    + rewrite (proj1 (execute_keyOf _ m r m1 He)). apply stepKV_pending.
  - apply IH. by rewrite (proj2 (execute_keyOf _ m r m1 He)).
  - apply IH. eapply stepSet_elem; [exact Hin|]. rewrite Ho. apply stepKV_pending.
  - by apply IH.
Qed.
(** And back: an order the model accepts is one the machine can take. *)
Lemma model_serial ps key sts :
  Forall (λ p, cmdKey (po_Input p) = key ∧ valid_op (cmdOp (po_Input p)) = true) ps →
  foldl stepSet sts (map (λ p, (po_Input p, po_Output p)) ps) ≠ [] →
  ∃ st, st ∈ sts ∧ ∀ m, keyOf m key = st → ∃ m', serial m ps m'.
Proof.
  revert sts. induction ps as [|p ps IH]; simpl; intros sts Hp Hne.
  { destruct sts as [|st sts]; [done|]. exists st. split; [by left|]. intros m _. exists m. apply serial_nil. }
  apply Forall_cons in Hp as [[Hk Hv] Hp]. destruct (IH _ Hp Hne) as (st1 & Hin & Hrun).
  unfold stepSet in Hin. apply list_elem_of_bind in Hin as (st & Hst1 & Hst). simpl in Hst1. exists st. split; [done|].
  intros m Hm. destruct (execute_store (po_Input p) m ∅ Hv) as (r & m1 & He & _).
  destruct (execute_keyOf _ m r m1 He) as [Hk1 _]. rewrite Hk, Hm in Hk1. destruct (po_Output p) as [r'|] eqn:Ho.
  - destruct (stepKV_exact _ m r m1 r' Hv He) as [Hyes Hno]. rewrite Hk, Hm in Hyes, Hno.
    destruct (decide (explains st (po_Input p) r r')) as [He'|He']; [|by rewrite Hno in Hst1; [apply elem_of_nil in Hst1|]].
    rewrite Hyes in Hst1 by done. apply list_elem_of_singleton in Hst1. destruct (Hrun m1) as [m' Hs]; [done|].
    exists m'. eapply serial_run; [done..| |done]. rewrite Ho, Hk, Hm. done.
  - apply stepKV_pending_inv in Hst1 as [->| ->].
    + destruct (Hrun m Hm) as [m' Hs]. exists m'. by apply serial_lost.
    + destruct (Hrun m1 Hk1) as [m' Hs]. exists m'. eapply serial_run; [done..| |done]. by rewrite Ho.
Qed.

(** An execution: the operations with the times at which they take effect,
    each between its call and its return, in the order of those times. *)
Definition executed (ex : list (Z * pOperation)) (m' : StateMachine) : Prop :=
  StronglySorted (λ a b, a.1 ≤ b.1) ex ∧ Forall (λ e, po_Call e.2 ≤ e.1 ≤ po_Return e.2) ex ∧
  serial NewStateMachine (map snd ex) m'.

Lemma executed_real_time ex key :
  StronglySorted (λ a b : Z * pOperation, a.1 ≤ b.1) ex → Forall (λ e, po_Call e.2 ≤ e.1 ≤ po_Return e.2) ex →
  real_time (filter (λ p, cmdKey (po_Input p) = key) (map snd ex)).
Proof.
  induction 1 as [|a ex Hex IH Ha]; intros Hin; [constructor|]. apply Forall_cons in Hin as [Hina Hin]. simpl.
  rewrite filter_cons. case_decide; [|by apply IH]. constructor; [by apply IH|].
  apply Forall_forall. intros p [_ Hp]%list_elem_of_filter. apply list_elem_of_fmap in Hp as (b & -> & Hb).
  rewrite Forall_forall in Ha, Hin. specialize (Ha b Hb). specialize (Hin b Hb). simpl in *. lia.
Qed.

Section check.
(** Porcupine's search, and its documented verdicts. *)
Variable porcupine : list (list pOperation) → CheckResult.
Hypothesis porcupine_verdict : ∀ parts,
  (porcupine parts = LinOk → Forall linearizable parts) ∧ (porcupine parts = LinIllegal → ¬ Forall linearizable parts).

(** On [Ok], every key's operations have a serial order. *)
Lemma lin_ok_serial h key :
  Forall (λ p, valid_op (cmdOp (po_Input p)) = true) (checkOps h) → CheckHistory porcupine h = LinOk →
  ∃ ps m', ps ≡ₚ filter (λ p, cmdKey (po_Input p) = key) (checkOps h) ∧ real_time ps ∧ serial NewStateMachine ps m'.
Proof.
  intros Hv Hok. apply porcupine_verdict in Hok. rewrite Forall_forall in Hok.
  set (part := filter (λ p, cmdKey (po_Input p) = key) (checkOps h)).
  destruct (decide (part = [])) as [->|Hne].
  { exists [], NewStateMachine. split_and!; [done|constructor|apply serial_nil]. }
  destruct (Hok part) as (ps & Hperm & Hrt & Hfold).
  { unfold Partition. apply list_elem_of_fmap. exists key. split; [done|]. rewrite merge_sort_Permutation.
    apply elem_of_remove_dups, list_elem_of_fmap. destruct part as [|p part'] eqn:E; [done|].
    assert (p ∈ part) as [Hk Hp]%list_elem_of_filter by (rewrite E; left). exists p. by split. }
  destruct (model_serial ps key [zeroKeyState]) as (st & Hst & Hrun); [|done|].
  { rewrite Hperm. apply Forall_forall. intros p [Hk Hp]%list_elem_of_filter. split; [done|]. rewrite Forall_forall in Hv. auto. }
  apply list_elem_of_singleton in Hst as ->. destruct (Hrun NewStateMachine) as [m' Hs]; [done|]. by exists ps, m'.
Qed.

(** [Illegal] excludes every serial execution. *)
Lemma lin_illegal h ex m' : executed ex m' → map snd ex ≡ₚ checkOps h → CheckHistory porcupine h ≠ LinIllegal.
Proof.
  intros (Hsort & Hin & Hs) Hperm Hill. apply porcupine_verdict in Hill. apply Hill. unfold Partition.
  apply Forall_forall. intros part (key & -> & _)%list_elem_of_fmap.
  exists (filter (λ p, cmdKey (po_Input p) = key) (map snd ex)). split_and!.
  + by rewrite Hperm.
  + by apply executed_real_time.
  + intros E. pose proof (serial_model _ _ _ key [zeroKeyState] Hs (list_elem_of_here _ _)) as Hk. rewrite E in Hk.
    by apply elem_of_nil in Hk.
Qed.

(** The verdict of the linearizability check is right.  Given a search that
    decides the model correctly when it decides: on [Ok], the operations on
    every key have an order that respects real time and that the state machine
    can take with the recorded results; and if the operations did take effect
    one at a time on the state machine, each between its call and its return,
    the verdict is never [Illegal]. *)
Theorem lin_verdict_correct h :
  Forall (λ p, valid_op (cmdOp (po_Input p)) = true) (checkOps h) →
  (CheckHistory porcupine h = LinOk →
    ∀ key, ∃ ps m', ps ≡ₚ filter (λ p, cmdKey (po_Input p) = key) (checkOps h) ∧ real_time ps ∧
      serial NewStateMachine ps m') ∧
  (∀ ex m', executed ex m' → map snd ex ≡ₚ checkOps h → CheckHistory porcupine h ≠ LinIllegal).
Proof.
  intros Hv. split.
  - intros Hok key. by apply lin_ok_serial.
  - apply lin_illegal.
Qed.
End check.

(** Recording loses and invents nothing: every invocation is either pending or
    completed, exactly once. *)
Definition history_wf (h : History) : Prop :=
  zlen (h_ops h) + Z.of_nat (size (h_pending h)) = h_nextID h ∧ map_Forall (λ id _, 0 ≤ id < h_nextID h) (h_pending h).
Lemma Invoke_wf cid cmd t h : history_wf h → history_wf (Invoke cid cmd t h).2.
Proof.
  intros [Hn Hp]. pose proof (zlen_nonneg (h_ops h)). assert (Hf : h_pending h !! h_nextID h = None).
  { destruct (h_pending h !! h_nextID h) eqn:E; [|done]. apply Hp in E. lia. }
  split; simpl.
  - rewrite map_size_insert_None by done. lia.
  - apply map_Forall_insert_2; [lia|]. eapply map_Forall_impl; [exact Hp|]. simpl. lia.
Qed.
Lemma Complete_wf id r t h : history_wf h → history_wf (Complete id r t h).
Proof.
  intros [Hn Hp]. unfold Complete. destruct (h_pending h !! id) as [op|] eqn:E; [|done]. split; simpl.
  - rewrite zlen_app, map_size_delete, E. change (zlen [_]) with 1. simpl.
    assert (size (h_pending h) ≠ 0%nat) by (apply map_size_ne_0_lookup; exists id; by rewrite E). lia.
  - by apply map_Forall_delete.
Qed.

(** ** Examples *)

Definition put_a : Command := mkCommand 1 1 OpPut [x61] (Some [x76]) None.
Definition get_a : Command := mkCommand 2 1 OpGet [x61] None None.

(** A search that tries every order. *)
Definition accepts (ps : list pOperation) : bool :=
  match foldl stepSet [zeroKeyState] (map (λ p, (po_Input p, po_Output p)) ps) with [] => false | _ => true end.
Fixpoint in_real_time (ps : list pOperation) : bool :=
  match ps with
  | [] => true
  | p :: ps => forallb (λ b, po_Call p <=? po_Return b) ps && in_real_time ps
  end.
Definition try_all (parts : list (list pOperation)) : CheckResult :=
  if forallb (λ part, existsb (λ ps, in_real_time ps && accepts ps) (permutations part)) parts then LinOk else LinIllegal.

Lemma forallb_Forall {A} (f : A → bool) (P : A → Prop) l :
  (∀ x, f x = true ↔ P x) → forallb f l = true ↔ Forall P l.
Proof.
  intros Hf. induction l as [|x l IH]; simpl; [by split; [constructor|]|]. by rewrite andb_true_iff, Forall_cons, Hf, IH.
Qed.
Lemma in_real_time_spec ps : in_real_time ps = true ↔ real_time ps.
Proof.
  unfold real_time. induction ps as [|p ps IH]; simpl; [by split; [constructor|]|].
  rewrite andb_true_iff, IH, StronglySorted_cons. f_equiv. apply forallb_Forall. intros b. apply Z.leb_le.
Qed.
Lemma try_all_verdict parts :
  (try_all parts = LinOk → Forall linearizable parts) ∧ (try_all parts = LinIllegal → ¬ Forall linearizable parts).
Proof.
  assert (Hp : ∀ part, existsb (λ ps, in_real_time ps && accepts ps) (permutations part) = true ↔ linearizable part).
  { intros part. rewrite existsb_exists. unfold linearizable, accepts. f_equiv. intros ps.
    rewrite <-list_elem_of_In, permutations_Permutation, andb_true_iff, in_real_time_spec.
    destruct (foldl _ _ _); naive_solver. }
  unfold try_all. destruct (forallb _ _) eqn:E; rewrite <-(forallb_Forall _ _ parts Hp), E; done.
Qed.

(** A put that never returned, seen by a later get. *)
Definition seen_put : History :=
  let '(i, h) := Invoke 1 put_a 5 NewHistory in
  let '(j, h) := Invoke 2 get_a 7 h in
  Complete j (mkResult StatusOK (Some [x76]) 1) 9 h.
Definition seen_put_run : list (Z * pOperation) :=
  [(6, mkPOperation 1 put_a None 5 MaxInt64); (8, mkPOperation 2 get_a (Some (mkResult StatusOK (Some [x76]) 1)) 7 9)].
Lemma seen_put_executed : ∃ m', executed seen_put_run m'.
Proof.
  set (m1 := set_data (<[[x61] := mkValueRecord (Some [x76]) 1]> ∅) NewStateMachine). exists m1. split_and!.
  - repeat constructor. simpl. lia.
  - repeat constructor; simpl; unfold MaxInt64; lia.
  - apply (serial_run _ _ (mkResult StatusOK None 1) m1); [done|reflexivity|done|].
    apply (serial_run _ _ (mkResult StatusOK (Some [x76]) 1) m1); [done|reflexivity|done|]. apply serial_nil.
Qed.

Lemma lin_verdict_correct_witness :
  CheckHistory try_all seen_put = LinOk ∧ CheckHistory try_all seen_put ≠ LinIllegal ∧
  ∃ ps m', real_time ps ∧ serial NewStateMachine ps m' ∧ length ps = 2%nat.
Proof.
  assert (CheckHistory try_all seen_put = LinOk) as Hok by (by vm_compute).
  destruct (lin_verdict_correct try_all try_all_verdict seen_put) as [H1 H2].
  { apply (bool_decide_unpack _). by vm_compute. }
  split; [exact Hok|]. split.
  - destruct seen_put_executed as [m' He]. apply (H2 _ _ He). apply perm_swap.
  - destruct (H1 Hok [x61]) as (ps & m' & Hp & Hr & Hs). exists ps, m'. split; [exact Hr|]. split; [exact Hs|].
    rewrite Hp. by vm_compute.
Defined.
