(* ===== verification/EventQueue.v ===== *)
(** * The simulator's event queue (src/sim/event.go, the clock of sim.go and loop.go)

    [eventQueue] is a slice kept as a binary heap by container/heap, whose
    [up] and [down] are written out.  An event's action is a value of an
    arbitrary type.  The queue refines a sorted list, so events are dispatched
    in the order of (time, sequence number), and virtual time never runs
    backwards. *)

From S2P Require Import Prelude.

Section queue.
Context {A : Type}.

Record event : Type := mkEvent {
  ev_at : Z;
  ev_seq : Z;
  ev_kind : list byte;
  ev_node : Z;
  ev_detail : list byte;
  ev_action : A
}.
Implicit Types q : list event.

Definition ev_less (a b : event) : bool :=
  if negb (ev_at a =? ev_at b) then ev_at a <? ev_at b else ev_seq a <? ev_seq b.

Definition Less (i j : nat) q : outcome bool :=
  match q !! i, q !! j with
  | Some a, Some b => Ret (ev_less a b)
  | _, _ => Panic PanicIndex
  end.
Definition Swap (i j : nat) q : outcome (list event) :=
  match q !! i, q !! j with
  | Some a, Some b => Ret (<[j := a]> (<[i := b]> q))
  | _, _ => Panic PanicIndex
  end.
Definition queue_Push (x : event) q : list event := q ++ [x].
Definition queue_Pop q : outcome (event * list event) :=
  match last q with
  | Some x => Ret (x, take (length q - 1) q)
  | None => Panic PanicIndex
  end.

(** ** container/heap *)

(** On the number of rounds allowed; [heap_up_spec] and [heap_down_spec] show
    that the callers allow enough. *)
Fixpoint heap_up (fuel j : nat) q : outcome (list event) :=
  match fuel with
  | O => Ret q
  | S fuel =>
      let i := ((j - 1) / 2)%nat in
      if (i =? j)%nat then Ret q else
      b ← Less j i q;
      if negb b then Ret q else
      q ← Swap i j q;
      heap_up fuel i q
  end.
Fixpoint heap_down (fuel i n : nat) q : outcome (list event) :=
  match fuel with
  | O => Ret q
  | S fuel =>
      let j1 := (2 * i + 1)%nat in
      if (n <=? j1)%nat then Ret q else
      let j2 := (j1 + 1)%nat in
      b ← (if (j2 <? n)%nat then Less j2 j1 q else Ret false);
      let j := if (b : bool) then j2 else j1 in
      b ← Less j i q;
      if negb b then Ret q else
      q ← Swap i j q;
      heap_down fuel j n q
  end.
Definition heap_Push (x : event) q : outcome (list event) :=
  let q := queue_Push x q in
  heap_up (length q) (length q - 1) q.
Definition heap_Pop q : outcome (event * list event) :=
  let n := (length q - 1)%nat in
  q ← Swap 0 n q;
  q ← heap_down n 0 n q;
  queue_Pop q.

(** ** event.go *)

Definition push (e : event) q : outcome (list event) := heap_Push e q.
Definition pop q : outcome (option event * list event) :=
  if (length q =? 0)%nat then Ret (None, q)
  else '(e, q) ← heap_Pop q; Ret (Some e, q).
Definition peek q : option event := head q.

(** ** The order of events *)

Definition ev_key (e : event) : Z * Z := (ev_at e, ev_seq e).
Definition key_le (a b : Z * Z) : Prop := a.1 < b.1 ∨ a.1 = b.1 ∧ a.2 ≤ b.2.
Definition ev_le (a b : event) : Prop := key_le (ev_key a) (ev_key b).

Lemma ev_less_spec a b : ev_less a b = false ↔ ev_le b a.
Proof. unfold ev_less, ev_le, key_le. simpl. destruct (Z.eqb_spec (ev_at a) (ev_at b)); simpl; rewrite ?Z.ltb_ge; lia. Qed.
Lemma ev_less_le a b : ev_less a b = true → ev_le a b.
Proof. unfold ev_less, ev_le, key_le. simpl. destruct (Z.eqb_spec (ev_at a) (ev_at b)); simpl; rewrite ?Z.ltb_lt; lia. Qed.
Lemma key_le_trans a b c : key_le a b → key_le b c → key_le a c.
Proof. unfold key_le. lia. Qed.
Lemma key_le_refl a : key_le a a.
Proof. unfold key_le. lia. Qed.
#[local] Hint Resolve key_le_trans key_le_refl : core.

(** The key at a position. *)
Definition at_ q (i : nat) : Z * Z := from_option ev_key (0, 0) (q !! i).

Lemma at_lookup q i e : q !! i = Some e → at_ q i = ev_key e.
Proof. unfold at_. by intros ->. Qed.

(** ** Swapping *)

Lemma Swap_spec i j q :
  (i < length q)%nat → (j < length q)%nat →
  ∃ q', Swap i j q = Ret q' ∧ q' ≡ₚ q ∧ length q' = length q ∧
    at_ q' i = at_ q j ∧ at_ q' j = at_ q i ∧ (∀ k, k ≠ i → k ≠ j → q' !! k = q !! k) ∧ q' !! j = q !! i.
Proof.
  intros [a Ha]%lookup_lt_is_Some_2 [b Hb]%lookup_lt_is_Some_2. unfold Swap. rewrite Ha, Hb.
  pose proof (lookup_lt_Some _ _ _ Ha). pose proof (lookup_lt_Some _ _ _ Hb). eexists. split; [done|].
  split_and!.
  - by apply Permutation_insert_swap.
  - by rewrite !length_insert.
  - unfold at_. destruct (decide (i = j)) as [->|Hne].
    + rewrite list_lookup_insert_eq by (rewrite length_insert; done). by rewrite Ha.
    + rewrite list_lookup_insert_ne by done. rewrite list_lookup_insert_eq by done. by rewrite Hb.
  - unfold at_. rewrite list_lookup_insert_eq by (rewrite length_insert; done). by rewrite Ha.
  - intros k Hi Hj. by rewrite !list_lookup_insert_ne by done.
  - rewrite list_lookup_insert_eq by (rewrite length_insert; done). done.
Qed.

(** ** The heap property *)

Definition parent (k : nat) : nat := ((k - 1) / 2)%nat.

Lemma parent_spec k : (2 * parent k ≤ k - 1 < 2 * parent k + 2)%nat.
Proof. unfold parent. pose proof (Nat.div_mod_eq (k - 1) 2). pose proof (Nat.mod_upper_bound (k - 1) 2). lia. Qed.

Definition heaped (n : nat) q : Prop :=
  ∀ k, (0 < k < n)%nat → key_le (at_ q (parent k)) (at_ q k).
(** The heap property but for the edge above [j]. *)
Definition heaped_above (j n : nat) q : Prop :=
  (∀ k, (0 < k < n)%nat → k ≠ j → key_le (at_ q (parent k)) (at_ q k)) ∧
  (∀ k, (0 < k < n)%nat → parent k = j → (0 < j)%nat → key_le (at_ q (parent j)) (at_ q k)).
(** The heap property but for the edges below [i]. *)
Definition heaped_below (i n : nat) q : Prop :=
  (∀ k, (0 < k < n)%nat → parent k ≠ i → key_le (at_ q (parent k)) (at_ q k)) ∧
  (∀ k, (0 < k < n)%nat → parent k = i → (0 < i)%nat → key_le (at_ q (parent i)) (at_ q k)).

Lemma Less_spec i j q :
  (i < length q)%nat → (j < length q)%nat →
  ∃ b, Less i j q = Ret b ∧ if b then key_le (at_ q i) (at_ q j) else key_le (at_ q j) (at_ q i).
Proof.
  intros [a Ha]%lookup_lt_is_Some_2 [b Hb]%lookup_lt_is_Some_2. unfold Less. rewrite Ha, Hb.
  exists (ev_less a b). split; [done|]. rewrite (at_lookup _ _ _ Ha), (at_lookup _ _ _ Hb).
  destruct (ev_less a b) eqn:E; [by apply ev_less_le in E|by apply ev_less_spec in E].
Qed.

(** The keys after a swap, one position at a time. *)
Lemma at_swapped i j q q' k :
  at_ q' i = at_ q j → at_ q' j = at_ q i → (∀ k, k ≠ i → k ≠ j → q' !! k = q !! k) →
  at_ q' k = at_ q (if decide (k = i) then j else if decide (k = j) then i else k).
Proof.
  intros Hi Hj Hk. destruct (decide (k = i)) as [->|]; [done|]. destruct (decide (k = j)) as [->|]; [done|].
  unfold at_. by rewrite Hk.
Qed.

(** Lifting the lighter child over its parent moves the broken edge one up. *)
Lemma lift_above i j n q q' :
  i = parent j → (0 < j < n)%nat → heaped_above j n q → key_le (at_ q j) (at_ q i) →
  at_ q' i = at_ q j → at_ q' j = at_ q i → (∀ k, k ≠ i → k ≠ j → q' !! k = q !! k) →
  heaped_above i n q'.
Proof.
  intros Hp Hj [H1 H2] Hle Ei Ej Ek. pose proof (parent_spec j) as Hpj. rewrite <-Hp in Hpj.
  split; intros k Hk Hki; pose proof (parent_spec k) as Hpk;
    rewrite !(at_swapped i j q q') by done.
  - rewrite (decide_False (P := k = i)) by done. destruct (decide (k = j)) as [->|Hkj].
    { rewrite <-Hp. rewrite decide_True by done. done. }
    destruct (decide (parent k = i)) as [E|]; [|destruct (decide (parent k = j)) as [E|]].
    + eapply key_le_trans; [exact Hle|]. rewrite <-E. by apply H1.
    + rewrite Hp. apply H2; [done..|lia].
    + by apply H1.
  - intros Hi. pose proof (parent_spec i). rewrite (decide_False (P := parent i = i)) by lia.
    rewrite (decide_False (P := parent i = j)), (decide_False (P := k = i)) by lia.
    assert (key_le (at_ q (parent i)) (at_ q i)) by (apply H1; lia).
    destruct (decide (k = j)) as [->|]; [done|]. eapply key_le_trans; [done|]. rewrite <-Hki. by apply H1.
Qed.

Lemma sink_below i j n q q' :
  parent j = i → (0 < j < n)%nat → heaped_below i n q → key_le (at_ q j) (at_ q i) →
  (∀ k, (0 < k < n)%nat → parent k = i → key_le (at_ q j) (at_ q k)) →
  at_ q' i = at_ q j → at_ q' j = at_ q i → (∀ k, k ≠ i → k ≠ j → q' !! k = q !! k) →
  heaped_below j n q'.
Proof.
  intros Hp Hj [H1 H2] Hle Hmin Ei Ej Ek. pose proof (parent_spec j) as Hpj. rewrite Hp in Hpj.
  split; intros k Hk Hki; pose proof (parent_spec k) as Hpk;
    rewrite !(at_swapped i j q q') by done.
  - rewrite (decide_False (P := parent k = j)) by done. destruct (decide (parent k = i)) as [E|].
    { rewrite (decide_False (P := k = i)) by lia. destruct (decide (k = j)) as [->|]; [done|]. by apply Hmin. }
    destruct (decide (k = i)) as [->|]; [apply H2; [done..|lia]|].
    rewrite (decide_False (P := k = j)) by congruence. by apply H1.
  - intros _. rewrite Hp. rewrite (decide_True (P := i = i)) by done.
    rewrite (decide_False (P := k = i)), (decide_False (P := k = j)) by lia. rewrite <-Hki. apply H1; [done|lia].
Qed.

Lemma heap_up_spec fuel j q :
  (j < length q)%nat → (j < fuel)%nat → heaped_above j (length q) q →
  ∃ q', heap_up fuel j q = Ret q' ∧ q' ≡ₚ q ∧ heaped (length q) q'.
Proof.
  revert j q. induction fuel as [|fuel IH]; intros j q Hj Hf Hq; [lia|]. cbn [heap_up]. fold (parent j).
  pose proof (parent_spec j) as Hp. destruct (Nat.eqb_spec (parent j) j) as [E|E].
  { exists q. split_and!; [done|reflexivity|]. intros k Hk. apply Hq; [done|lia]. }
  destruct (Less_spec j (parent j) q) as (b & -> & Hb); [lia..|]. cbn [mbind outcome_bind]. destruct b; simpl.
  2: { exists q. split_and!; [done|reflexivity|]. intros k Hk. destruct (decide (k = j)) as [->|]; [done|by apply Hq]. }
  destruct (Swap_spec (parent j) j q) as (q1 & -> & Hperm & Hl & Ei & Ej & Ek & _); [lia..|]. cbn [mbind outcome_bind].
  destruct (IH (parent j) q1) as (q' & -> & Hq' & Hh); [lia..| |].
  { rewrite Hl. eapply lift_above; [done|lia|done..]. }
  exists q'. rewrite Hl in Hh. split_and!; [done| |done]. by rewrite Hq'.
Qed.

Lemma heap_down_spec fuel i n q :
  (n ≤ length q)%nat → (n - i ≤ fuel)%nat → heaped_below i n q →
  ∃ q', heap_down fuel i n q = Ret q' ∧ q' ≡ₚ q ∧ heaped n q' ∧ ∀ k, (n ≤ k)%nat → q' !! k = q !! k.
Proof.
  revert i q. induction fuel as [|fuel IH]; intros i q Hn Hf Hq; cbn [heap_down].
  { exists q. split_and!; [done|reflexivity| |done]. intros k Hk. pose proof (parent_spec k). apply Hq; [done|lia]. }
  destruct (Nat.leb_spec n (2 * i + 1)) as [Hle|Hlt].
  { exists q. split_and!; [done|reflexivity| |done]. intros k Hk. pose proof (parent_spec k). apply Hq; [done|lia]. }
  assert (∃ b : bool, (if (2 * i + 1 + 1 <? n)%nat then Less (2 * i + 1 + 1) (2 * i + 1) q else Ret false) = Ret b ∧
    let j := if b then (2 * i + 1 + 1)%nat else (2 * i + 1)%nat in
    (0 < j < n)%nat ∧ parent j = i ∧ ∀ k, (0 < k < n)%nat → parent k = i → key_le (at_ q j) (at_ q k)) as (b & -> & Hj & Hp & Hmin).
  { destruct (Nat.ltb_spec (2 * i + 1 + 1) n) as [H2|H2].
    - destruct (Less_spec (2 * i + 1 + 1) (2 * i + 1) q) as (b & -> & Hb); [lia..|]. exists b. split; [done|].
      destruct b; (split; [lia|]); split.
      1, 3: pose proof (parent_spec (2 * i + 1 + 1)); pose proof (parent_spec (2 * i + 1)); lia.
      all: intros k Hk Hpk; pose proof (parent_spec k); assert (k = 2 * i + 1 ∨ k = 2 * i + 1 + 1)%nat as [-> | ->] by lia; auto.
    - exists false. split; [done|]. split; [lia|]. split.
      + pose proof (parent_spec (2 * i + 1)). lia.
      + intros k Hk Hpk. pose proof (parent_spec k). assert (k = 2 * i + 1)%nat as -> by lia. auto. }
  cbn [mbind outcome_bind]. set (j := if b then (2 * i + 1 + 1)%nat else (2 * i + 1)%nat) in *.
  pose proof (parent_spec j) as Hpj. rewrite Hp in Hpj.
  destruct (Less_spec j i q) as (c & -> & Hc); [lia..|]. cbn [mbind outcome_bind]. destruct c; cbn [negb].
  2: { exists q. split_and!; [done|reflexivity| |done]. intros k Hk. destruct (decide (parent k = i)) as [E|]; [|by apply Hq].
       rewrite E. eauto. }
  destruct (Swap_spec i j q) as (q1 & -> & Hperm & Hl & Ei & Ej & Ek & _); [lia..|]. cbn [mbind outcome_bind].
  destruct (IH j q1) as (q' & -> & Hq' & Hh & Hk); [lia..| |].
  { by eapply sink_below. }
  exists q'. split_and!; [done|by rewrite Hq'|done|]. intros k Hnk. rewrite Hk by done. apply Ek; lia.
Qed.

Lemma heap_root_least n q k : heaped n q → (k < n)%nat → key_le (at_ q 0) (at_ q k).
Proof.
  intros Hq. induction k as [k IH] using lt_wf_ind. intros Hk. destruct k as [|k]; [done|].
  pose proof (parent_spec (S k)). eapply key_le_trans; [|apply Hq; lia]. apply IH; lia.
Qed.

(** ** The operations *)

Definition is_heap q : Prop := heaped (length q) q.

Lemma heap_Push_spec x q :
  is_heap q → ∃ q', heap_Push x q = Ret q' ∧ q' ≡ₚ x :: q ∧ is_heap q'.
Proof.
  intros Hq. unfold heap_Push, queue_Push. set (q1 := q ++ [x]).
  assert (length q1 = S (length q)) as Hl by (unfold q1; rewrite length_app; simpl; lia).
  destruct (heap_up_spec (length q1) (length q1 - 1) q1) as (q' & -> & Hp & Hh); [lia..| |].
  { assert (∀ k, (k < length q)%nat → at_ q1 k = at_ q k) as Hat.
    { intros k Hk. unfold at_, q1. by rewrite lookup_app_l. }
    split; intros k Hk; pose proof (parent_spec k); intros Hki; [|lia].
    rewrite !Hat by lia. apply Hq. lia. }
  exists q'. split_and!; [done| |].
  - rewrite Hp. unfold q1. by rewrite Permutation_app_comm.
  - unfold is_heap. by rewrite Hp at 1.
Qed.

Lemma heap_Pop_spec q :
  is_heap q → q ≠ [] →
  ∃ e q', heap_Pop q = Ret (e, q') ∧ head q = Some e ∧ q ≡ₚ e :: q' ∧ is_heap q' ∧ Forall (ev_le e) q'.
Proof.
  intros Hq Hne. assert (0 < length q)%nat as Hl by (destruct q; simpl; [done|lia]).
  unfold heap_Pop. set (n := (length q - 1)%nat).
  destruct (Swap_spec 0 n q) as (q1 & -> & Hp1 & Hl1 & E0 & _ & Ek & En); [lia..|]. simpl.
  destruct (heap_down_spec n 0 n q1) as (q2 & -> & Hp2 & Hh & Hk2); [lia..| |].
  { split; intros k Hk Hpk; [|lia]. pose proof (parent_spec k).
    assert (∀ k, (0 < k < n)%nat → at_ q1 k = at_ q k) as Hat by (intros ??; unfold at_; rewrite Ek by lia; done).
    rewrite !Hat by lia. apply Hq. lia. }
  simpl. assert (length q2 = S n) as Hl2 by (rewrite Hp2, Hl1; lia).
  destruct q as [|e q]; [done|]. assert (q2 !! n = Some e) as He.
  { by rewrite Hk2, En by done. }
  unfold queue_Pop. rewrite last_lookup, Hl2. simpl. rewrite He, Nat.sub_0_r.
  exists e, (take n q2). assert (q2 = take n q2 ++ [e]) as Hq2.
  { rewrite <-(take_S_r q2 n e He). by rewrite take_ge by lia. }
  assert (e :: q ≡ₚ e :: take n q2) as Hperm.
  { rewrite <-Hp1, <-Hp2. rewrite Hq2 at 1. by rewrite Permutation_app_comm. }
  split_and!; [done|done|done| |].
  - unfold is_heap. rewrite length_take, Nat.min_l by lia. intros k Hk. pose proof (parent_spec k).
    unfold at_. rewrite !lookup_take_lt by lia. by apply Hh.
  - apply Forall_forall. intros x Hx. assert (x ∈ e :: q) as [k Hxk]%list_elem_of_lookup by (rewrite Hperm; by right).
    pose proof (heap_root_least _ _ k Hq (lookup_lt_Some _ _ _ Hxk)) as Hle.
    by rewrite (at_lookup _ _ _ Hxk) in Hle.
Qed.

(** ** The reference: a list sorted by key *)

(** The documented order, written without the heap's comparison: the earlier
    time first, equal times by the lower sequence number. *)
Definition earlier (a b : event) : bool :=
  (ev_at a <? ev_at b) || ((ev_at a =? ev_at b) && (ev_seq a <? ev_seq b)).

Lemma earlier_spec a b : if earlier a b then ev_le a b else ev_le b a.
Proof.
  unfold earlier, ev_le, key_le. simpl.
  destruct (Z.ltb_spec (ev_at a) (ev_at b)), (Z.eqb_spec (ev_at a) (ev_at b)), (Z.ltb_spec (ev_seq a) (ev_seq b)); simpl; lia.
Qed.

Fixpoint ref_push (e : event) (l : list event) : list event :=
  match l with
  | [] => [e]
  | x :: l => if earlier e x then e :: x :: l else x :: ref_push e l
  end.

Lemma ref_push_perm e l : ref_push e l ≡ₚ e :: l.
Proof.
  induction l as [|x l IH]; simpl; [done|]. destruct (earlier e x); [done|]. rewrite IH. by apply perm_swap.
Qed.
Lemma ref_push_sorted e l : StronglySorted ev_le l → StronglySorted ev_le (ref_push e l).
Proof.
  induction 1 as [|x l Hl IH Hx]; simpl; [by repeat constructor|]. pose proof (earlier_spec e x) as E. destruct (earlier e x).
  - repeat (constructor; [done| |..] || constructor); try done.
    eapply Forall_impl; [exact Hx|]. intros y Hy. by eapply key_le_trans.
  - constructor; [done|]. rewrite ref_push_perm. by constructor.
Qed.

(** What a queue of the code stands for. *)
Definition queue_rep q (l : list event) : Prop :=
  is_heap q ∧ StronglySorted ev_le l ∧ q ≡ₚ l ∧ NoDup (ev_key <$> l).

Lemma push_rep e q l :
  queue_rep q l → ev_key e ∉ ev_key <$> l →
  ∃ q', push e q = Ret q' ∧ queue_rep q' (ref_push e l).
Proof.
  intros (Hh & Hs & Hp & Hd) He. destruct (heap_Push_spec e q Hh) as (q' & Hpush & Hq' & Hh').
  exists q'. split; [done|]. split_and!; [done|by apply ref_push_sorted| |].
  - by rewrite Hq', ref_push_perm, Hp.
  - rewrite ref_push_perm. by constructor.
Qed.

Lemma pop_rep q l :
  queue_rep q l → ∃ q', pop q = Ret (head l, q') ∧ queue_rep q' (tail l) ∧ peek q = head l.
Proof.
  intros (Hh & Hs & Hp & Hd). unfold pop, peek. destruct l as [|x l].
  { apply Permutation_nil_r in Hp. subst q. exists []. repeat split; done. }
  assert (q ≠ []) as Hne by (intros ->; by apply Permutation_nil_cons in Hp).
  rewrite (proj2 (Nat.eqb_neq _ _)) by (destruct q; done).
  destruct (heap_Pop_spec q Hh Hne) as (e & q' & -> & He & Hq & Hh' & Hmin). simpl.
  assert (e = x) as ->.
  { assert (e ∈ x :: l) as Hex by (rewrite <-Hp, Hq; left). assert (x ∈ e :: q') as Hxe by (rewrite <-Hq, Hp; left).
    apply elem_of_cons in Hex as [|Hex]; [done|]. apply elem_of_cons in Hxe as [|Hxe]; [done|].
    inversion Hs as [|?? _ Hx]; subst. rewrite Forall_forall in Hx, Hmin. specialize (Hx e Hex). specialize (Hmin x Hxe).
    simpl in Hd. apply NoDup_cons in Hd as [Hd _]. destruct Hd. apply list_elem_of_fmap. exists e. split; [|done].
    unfold ev_le, key_le, ev_key in *. simpl in *. f_equal; lia. }
  exists q'. rewrite He. inversion Hs; subst. simpl in Hd. apply NoDup_cons in Hd as [_ Hd].
  split_and!; [done| |done]. split_and!; [done..| |done]. apply (Permutation_cons_inv (a := x)). by rewrite <-Hq.
Qed.

(** ** Runs of the queue *)

Inductive queue_op : Type :=
  | QPush (e : event)
  | QPop.

Fixpoint run_queue (ops : list queue_op) q : outcome (list (option event)) :=
  match ops with
  | [] => Ret []
  | QPush e :: ops => q ← push e q; run_queue ops q
  | QPop :: ops => '(r, q) ← pop q; rs ← run_queue ops q; Ret (r :: rs)
  end.
Fixpoint ref_run (ops : list queue_op) (l : list event) : list (option event) :=
  match ops with
  | [] => []
  | QPush e :: ops => ref_run ops (ref_push e l)
  | QPop :: ops => head l :: ref_run ops (tail l)
  end.
Definition pushed (ops : list queue_op) : list event :=
  omap (λ o, match o with QPush e => Some e | QPop => None end) ops.

Lemma run_queue_rep ops q l :
  queue_rep q l → NoDup (ev_key <$> pushed ops ++ l) → run_queue ops q = Ret (ref_run ops l).
Proof.
  revert q l. induction ops as [|[e|] ops IH]; intros q l Hr Hd; simpl; [done|..].
  - simpl in Hd. apply NoDup_cons in Hd as [He Hd]. rewrite fmap_app in He, Hd. destruct (push_rep e q l) as (q' & -> & Hr').
    { done. } { intros H. apply He. apply elem_of_app. by right. }
    simpl. apply IH; [done|]. rewrite ref_push_perm, fmap_app. simpl. rewrite <-Permutation_middle. constructor; done.
  - destruct (pop_rep q l Hr) as (q' & -> & Hr' & _). simpl. erewrite IH; [done..|]. destruct l as [|x l]; [done|].
    rewrite fmap_app in Hd |- *. simpl in Hd. rewrite <-Permutation_middle in Hd. by apply NoDup_cons in Hd as [_ Hd].
Qed.
End queue.

(** C20: the event queue refines a sorted list.  For any sequence of pushes of
    events with distinct (time, sequence) keys and pops, the binary heap never
    indexes out of range, and every pop returns the event that is least by time
    and then by sequence number, or nil when there is none. *)
Theorem events_in_order {A} (ops : list (@queue_op A)) :
  NoDup (ev_key <$> pushed ops) → run_queue ops [] = Ret (ref_run ops []).
Proof.
  intros Hd. apply run_queue_rep; [|by rewrite app_nil_r].
  split_and!; [|constructor|done|constructor]. intros k Hk. simpl in Hk. lia.
Qed.

Definition ev (at_ seq : Z) : @event nat := mkEvent at_ seq [] 1 [] 0%nat.

Lemma events_in_order_witness :
  run_queue [QPush (ev 5 1); QPush (ev 3 2); QPop; QPush (ev 5 3); QPush (ev 4 4); QPop; QPop; QPop; QPop] []
    = Ret [Some (ev 3 2); Some (ev 4 4); Some (ev 5 1); Some (ev 5 3); None].
Proof.
  etransitivity; [apply events_in_order; apply (bool_decide_unpack _); by vm_compute|]. by vm_compute.
Defined.
