(* ===== verification/Trace.v ===== *)
(** * The simulator's trace (src/sim/trace.go, render.go, fnv64 of node.go)

    Payloads are rendered to byte strings as the source does, and a recorded
    event is folded into the trace as [canonicalEvent].  SHA-256 is not
    modelled: the hash is a function of the canonical bytes, which determine
    the events. *)

From Stdlib Require String.
From S2P Require Import Prelude GoStrings RaftTypes KvCodec KvStateMachine.
Import (notations) String.

(** ** node.go: the content digest *)

Definition fnv64 (b : list byte) : Z :=
  foldl (λ h c, w64 (Z.lxor h (b2z c) * 1099511628211)) 14695981039346656037 b.

(** ** render.go *)

Definition msgTypeName (t : MessageType) : list byte :=
  match t with
  | MsgPropose => $"Propose"
  | MsgReadIndex => $"ReadIndex"
  | MsgPreVote => $"PreVote"
  | MsgPreVoteResp => $"PreVoteResp"
  | MsgVote => $"Vote"
  | MsgVoteResp => $"VoteResp"
  | MsgAppend => $"Append"
  | MsgAppendResp => $"AppendResp"
  | MsgHeartbeat => $"Heartbeat"
  | MsgHeartbeatResp => $"HeartbeatResp"
  | MsgInstallSnapshot => $"InstallSnapshot"
  | MsgInstallSnapshotResp => $"InstallSnapshotResp"
  | MsgUnknown | MsgOther _ => $"Unknown"
  end.

Definition appendKV (buf key : list byte) (v : Z) : list byte := buf ++ key ++ $"=" ++ FormatUint v.

Definition digestEntries (es : list Entry) : Z :=
  let mix (acc v : Z) := w64 (Z.lxor acc v * 1099511628211) in
  foldl (λ acc e, mix (mix (mix (mix acc (eTerm e)) (eIndex e)) (b2z (eType e))) (fnv64 (eData e)))
    1469598103934665603 es.

Definition renderMessage (m : Message) : list byte :=
  let b := msgTypeName (mType m) in
  let b := appendKV b ($" t") (mTerm m) in
  let b := appendKV b ($" li") (mLogIndex m) in
  let b := appendKV b ($" lt") (mLogTerm m) in
  let b := appendKV b ($" c") (mCommit m) in
  let b := if mReject m then
             let b := b ++ $" rej" in
             let b := appendKV b ($" rh") (mRejectHint m) in
             appendKV b ($" ht") (mHintTerm m)
           else b in
  let b := if 0 <? zlen (mEntries m) then
             let b := appendKV b ($" ne") (zlen (mEntries m)) in
             appendKV b ($" ed") (digestEntries (mEntries m))
           else b in
  let b := match mSnapshot m with
           | Some sn =>
               let b := appendKV b ($" si") (snIndex sn) in
               let b := appendKV b ($" st") (snTerm sn) in
               appendKV b ($" sd") (fnv64 (snData sn))
           | None => b
           end in
  if 0 <? zlen (mContext m) then appendKV b ($" ctx") (fnv64 (mContext m)) else b.

Definition opName (op : OpType) : list byte :=
  if decide (op = OpGet) then $"Get" else
  if decide (op = OpPut) then $"Put" else
  if decide (op = OpDelete) then $"Delete" else
  if decide (op = OpCAS) then $"CAS" else $"Invalid".

Definition renderCommand (c : Command) : list byte :=
  let b := opName (cmdOp c) in
  let b := appendKV b ($" cid") (cmdClientID c) in
  let b := appendKV b ($" seq") (cmdSeq c) in
  let b := b ++ $" k=" ++ cmdKey c in
  let b := match cmdValue c with Some v => appendKV b ($" v") (fnv64 v) | None => b end in
  match cmdExpect c with Some x => appendKV b ($" x") (fnv64 x) | None => b end.

Definition renderResult (r : Result) : list byte :=
  let b := $"st=" ++ FormatUint (b2z (resStatus r)) in
  let b := appendKV b ($" ver") (resVersion r) in
  match resValue r with Some v => appendKV b ($" v") (fnv64 v) | None => b end.

(** The insertion sort of [renderGroups]. *)
Fixpoint insertion (x : Z) (l : list Z) : list Z :=
  match l with
  | [] => [x]
  | y :: l => if x <? y then x :: y :: l else y :: insertion x l
  end.
Definition sort_ids (g : list Z) : list Z := foldl (λ l x, insertion x l) [] g.
Definition renderGroups (groups : list (list Z)) : list byte :=
  joined ($"|") (map (λ g, joined ($",") (map FormatUint (sort_ids g))) groups).

(** ** trace.go *)

Record TraceEvent : Type := mkTraceEvent {
  te_At : Z;
  te_Seq : Z;
  te_Kind : list byte;
  te_Node : Z;
  te_Detail : list byte
}.

Definition appendLenString (buf s : list byte) : list byte := buf ++ be_enc 4 (w32 (zlen s)) ++ s.
Definition canonicalEvent (e : TraceEvent) : list byte :=
  let buf := be_enc 8 (w64 (te_At e)) in
  let buf := buf ++ be_enc 8 (te_Seq e) in
  let buf := buf ++ be_enc 8 (te_Node e) in
  let buf := appendLenString buf (te_Kind e) in
  appendLenString buf (te_Detail e).

(** The recorder: the events, and the bytes written to the hasher. *)
Record recorder : Type := mkRecorder {
  rc_events : list TraceEvent;
  rc_written : list byte
}.
Definition newRecorder : recorder := mkRecorder [] [].
Definition record (e : TraceEvent) (r : recorder) : recorder :=
  mkRecorder (rc_events r ++ [e]) (rc_written r ++ canonicalEvent e).

(** [TraceEvent.String] *)
Definition traceString (e : TraceEvent) : list byte :=
  let b := $"at=" ++ FormatInt (te_At e) ++ $" seq=" ++ FormatUint (te_Seq e) ++ $" kind=" ++ te_Kind e ++
           $" node=" ++ FormatUint (te_Node e) in
  if bool_decide (te_Detail e = []) then b else b ++ $" " ++ te_Detail e.

(** ** The canonical form determines the trace *)

Definition is_i64 (x : Z) : Prop := - (u64_mod / 2) ≤ x < u64_mod / 2.
Definition wf_event (e : TraceEvent) : Prop :=
  is_i64 (te_At e) ∧ is_u64 (te_Seq e) ∧ is_u64 (te_Node e) ∧ is_u32 (zlen (te_Kind e)) ∧ is_u32 (zlen (te_Detail e)).

Lemma be_enc_app_inv n a b r r' :
  be_enc n a ++ r = be_enc n b ++ r' → a mod 256 ^ Z.of_nat n = b mod 256 ^ Z.of_nat n ∧ r = r'.
Proof.
  intros E. apply app_inj_1 in E as [E ->]; [|by rewrite !length_be_enc]. split; [|done].
  by rewrite <-!be_dec_enc, E.
Qed.
Lemma u64_app_inv a b r r' : is_u64 a → is_u64 b → be_enc 8 a ++ r = be_enc 8 b ++ r' → a = b ∧ r = r'.
Proof. intros Ha Hb [E ->]%be_enc_app_inv. rewrite !Z.mod_small in E by done. done. Qed.
Lemma lenString_app_inv s t r r' :
  is_u32 (zlen s) → is_u32 (zlen t) →
  be_enc 4 (w32 (zlen s)) ++ s ++ r = be_enc 4 (w32 (zlen t)) ++ t ++ r' → s = t ∧ r = r'.
Proof.
  intros Hs Ht. rewrite !w32_id by done. intros [E E']%be_enc_app_inv.
  rewrite !Z.mod_small in E by done. unfold zlen in E. apply app_inj_1 in E' as [-> ->]; [done|lia].
Qed.
Lemma w64_i64_inj a b : is_i64 a → is_i64 b → w64 a = w64 b → a = b.
Proof.
  unfold is_i64, w64. change (u64_mod / 2) with 9223372036854775808. intros Ha Hb E.
  pose proof (Z.div_mod a u64_mod ltac:(lia)). pose proof (Z.div_mod b u64_mod ltac:(lia)).
  pose proof (Z.mod_pos_bound a u64_mod ltac:(lia)). nia.
Qed.

Lemma canonical_app_inv e e' r r' :
  wf_event e → wf_event e' → canonicalEvent e ++ r = canonicalEvent e' ++ r' → e = e' ∧ r = r'.
Proof.
  destruct e as [a s k n d], e' as [a' s' k' n' d']. unfold wf_event. simpl.
  intros (Ha & Hs & Hn & Hk & Hd) (Ha' & Hs' & Hn' & Hk' & Hd').
  unfold canonicalEvent, appendLenString. simpl. rewrite <-!app_assoc.
  intros [E [-> [-> [-> [-> ->]%lenString_app_inv]%lenString_app_inv]%u64_app_inv]%u64_app_inv]%u64_app_inv; try done.
  2, 3: apply w64_range.
  by rewrite (w64_i64_inj _ _ Ha Ha' E).
Qed.

Lemma canonical_concat_inj es es' :
  Forall wf_event es → Forall wf_event es' → (es ≫= canonicalEvent) = (es' ≫= canonicalEvent) → es = es'.
Proof.
  assert (Hne : ∀ e r, [] ≠ canonicalEvent e ++ r).
  { intros e r E. apply (f_equal length) in E. unfold canonicalEvent, appendLenString in E.
    rewrite !length_app, !length_be_enc in E. simpl in E. lia. }
  intros Hes. revert es'. induction Hes as [|e es He Hes IH]; intros [|e' es'] Hes'; simpl; intros E; [done|..].
  - by apply Hne in E.
  - symmetry in E. by apply Hne in E.
  - apply Forall_cons in Hes' as [He' Hes']. apply canonical_app_inv in E as [-> E]; [|done..]. f_equal. by apply IH.
Qed.
Lemma record_written es r :
  foldl (flip record) r es = mkRecorder (rc_events r ++ es) (rc_written r ++ (es ≫= canonicalEvent)).
Proof.
  revert r. induction es as [|e es IH]; intros r; [destruct r; cbn; by rewrite !app_nil_r|].
  cbn [foldl]. rewrite IH. unfold flip, record. cbn [rc_events rc_written]. by rewrite <-!app_assoc.
Qed.

(** C39: the trace hash covers the trace.  The bytes that two runs write to the
    hasher are equal only if the runs recorded the same events, field for
    field: the canonical form is unambiguous, also across event boundaries. *)
Theorem trace_unambiguous es es' :
  Forall wf_event es → Forall wf_event es' →
  let run := foldl (flip record) newRecorder in
  rc_written (run es) = rc_written (run es') → rc_events (run es) = rc_events (run es').
Proof.
  intros He He' run. unfold run. rewrite !record_written. simpl. by apply canonical_concat_inj.
Qed.

(** Moving a byte from one field to the next changes the trace. *)
Definition split_event : TraceEvent := mkTraceEvent 10000000 7 ($"tick") 2 ($"er").
Definition joined_event : TraceEvent := mkTraceEvent 10000000 7 ($"ticke") 2 ($"r").
Lemma trace_unambiguous_witness :
  rc_written (foldl (flip record) newRecorder [split_event]) ≠ rc_written (foldl (flip record) newRecorder [joined_event]).
Proof.
  intros E. assert (wf_event split_event ∧ wf_event joined_event) as [H1 H2] by (by vm_compute).
  assert (rc_events (foldl (flip record) newRecorder [split_event]) = rc_events (foldl (flip record) newRecorder [joined_event])) as E'.
  { apply (trace_unambiguous [split_event] [joined_event]); [by constructor|by constructor|exact E]. }
  discriminate E'.
Defined.
