(* ===== verification/SimNode.v ===== *)
(** * The simulator's nodes and their observing storage (src/sim/node.go)

    [trackedStorage] wraps the in-memory storage: it counts mutations and keeps
    a record of every index that became durably committed.  It keeps the laws
    of the interface, so that what is proved of the core over any storage holds
    in the simulator.  [nodeState] is a node with its state machine; its
    storage object, shared with the node, is the one inside the node's log. *)

From S2P Require Import Prelude RaftTypes Storage RaftLog Raft Node KvCodec KvStateMachine GoStrings Trace.

Record committedRec : Type := mkCommittedRec {
  cr_index : Z;
  cr_term : Z;
  cr_digest : Z;
  cr_commitTerm : Z;
  cr_termKnown : bool;
  cr_dataKnown : bool
}.
Definition set_commitTerm (t : Z) (r : committedRec) : committedRec :=
  mkCommittedRec (cr_index r) (cr_term r) (cr_digest r) t (cr_termKnown r) (cr_dataKnown r).

Record trackedStorage : Type := mkTracked {
  ts_stor : mem.Storage;
  ts_generation : Z;
  ts_durableCommit : Z;
  ts_committed : list committedRec
}.
Definition trackStorage (st : mem.Storage) : trackedStorage := mkTracked st 0 0 [].

(** A mutation that succeeded. *)
Definition mutated (st : mem.Storage) (t : trackedStorage) : trackedStorage :=
  mkTracked st (ts_generation t +w 1) (ts_durableCommit t) (ts_committed t).
Definition failed (st : mem.Storage) (t : trackedStorage) : trackedStorage :=
  mkTracked st (ts_generation t) (ts_durableCommit t) (ts_committed t).

Definition tracked_AppendEntries (es : list Entry) (t : trackedStorage) : outcome (trackedStorage * error) :=
  '(st, e) ← mem.mem_AppendEntries es (ts_stor t);
  Ret (match e with Some _ => failed st t | None => mutated st t end, e).

(** The indices from [lo] to [hi]. *)
Definition indices (lo hi : Z) : list Z := seqZ lo (hi - lo + 1).

Definition tracked_ApplySnapshot (sn : RaftTypes.Snapshot) (t : trackedStorage) : outcome (trackedStorage * error) :=
  '(st, e) ← mem.mem_ApplySnapshot sn (ts_stor t);
  match e with
  | Some e => Ret (failed st t, Some e)
  | None =>
      let t := mutated st t in
      if ts_durableCommit t <? snIndex sn then
        let recs := map (λ i, if i =? snIndex sn then mkCommittedRec i (snTerm sn) 0 0 true false
                              else mkCommittedRec i 0 0 0 false false)
                      (indices (ts_durableCommit t + 1) (snIndex sn)) in
        Ret (mkTracked st (ts_generation t) (snIndex sn) (ts_committed t ++ recs), None)
      else Ret (t, None)
  end.

(** The record of one newly committed index; [None] when it is in neither the
    log nor the snapshot. *)
Definition commitRecord (st : mem.Storage) (snap : RaftTypes.Snapshot) (commitTerm i : Z) : outcome (option committedRec) :=
  es ← mem.mem_Entries i (i +w 1) st;
  match es with
  | Ok [e] => Ret (Some (mkCommittedRec i (eTerm e) (fnv64 (eData e)) commitTerm true true))
  | _ =>
      t ← mem.mem_Term i st;
      if snIndex snap <? i then Ret None else
      Ret (Some (match t with
                 | Ok t => mkCommittedRec i t 0 commitTerm true false
                 | Err _ => mkCommittedRec i 0 0 commitTerm false false
                 end))
  end.
Fixpoint commitRecords (st : mem.Storage) (snap : RaftTypes.Snapshot) (commitTerm : Z) (idxs : list Z)
    : outcome (option (list committedRec)) :=
  match idxs with
  | [] => Ret (Some [])
  | i :: idxs =>
      r ← commitRecord st snap commitTerm i;
      match r with
      | None => Ret None
      | Some r =>
          rs ← commitRecords st snap commitTerm idxs;
          Ret (match rs with Some rs => Some (r :: rs) | None => None end)
      end
  end.

(** A record whose commit term is not known yet. *)
Definition unattributed (commit commitTerm : Z) (r : committedRec) : bool :=
  (cr_index r <=? commit) && (cr_commitTerm r =? 0) && negb (commitTerm =? 0).

Definition recordCommitAdvance (commit commitTerm : Z) (t : trackedStorage) : outcome (trackedStorage * error) :=
  if commit <=? ts_durableCommit t then
    let enrich r := if unattributed commit commitTerm r then set_commitTerm commitTerm r else r in
    let enriched := map (set_commitTerm commitTerm) (filter (λ r, unattributed commit commitTerm r = true) (ts_committed t)) in
    Ret (mkTracked (ts_stor t) (ts_generation t) (ts_durableCommit t) (map enrich (ts_committed t) ++ enriched), None)
  else
    snap ← mem.mem_Snapshot (ts_stor t);
    let snap := match snap with Ok snap => snap | Err _ => zeroSnapshot end in
    rs ← commitRecords (ts_stor t) snap commitTerm (indices (ts_durableCommit t + 1) commit);
    match rs with
    | None => Ret (t, Some ErrOther)
    | Some rs => Ret (mkTracked (ts_stor t) (ts_generation t) commit (ts_committed t ++ rs), None)
    end.

Definition tracked_SetHardState (hs : HardState) (t : trackedStorage) : outcome (trackedStorage * error) :=
  '(st, e) ← mem.mem_SetHardState hs (ts_stor t);
  match e with
  | Some e => Ret (failed st t, Some e)
  | None => recordCommitAdvance (hsCommit hs) (hsTerm hs) (mutated st t)
  end.

#[global] Instance tracked_LogStorage : LogStorage trackedStorage := {|
  AppendEntries := tracked_AppendEntries;
  SetHardState := tracked_SetHardState;
  HardStateOf t := mem.mem_HardState (ts_stor t);
  Entries lo hi t := mem.mem_Entries lo hi (ts_stor t);
  TermOf i t := mem.mem_Term i (ts_stor t);
  FirstIndex t := mem.mem_FirstIndex (ts_stor t);
  LastIndex t := mem.mem_LastIndex (ts_stor t);
  ApplySnapshot := tracked_ApplySnapshot;
  SnapshotOf t := mem.mem_Snapshot (ts_stor t)
|}.

Definition storageGeneration (t : trackedStorage) : Z := ts_generation t.
Definition storageCommitted (t : trackedStorage) : list committedRec := ts_committed t.

(** ** nodeState *)

Record appliedRec : Type := mkAppliedRec {
  ar_index : Z;
  ar_term : Z;
  ar_digest : Z
}.

(** [ns_disk] is the storage while the node is down. *)
Record nodeState : Type := mkNodeState {
  ns_id : Z;
  ns_disk : trackedStorage;
  ns_node : option (Node trackedStorage);
  ns_sm : option StateMachine;
  ns_applied : Z;
  ns_appliedLog : list appliedRec;
  ns_pendingReads : list ReadState;
  ns_crashed : bool
}.
Definition ns_storage (ns : nodeState) : trackedStorage :=
  match ns_node ns with
  | Some n => storage (rlog (n_r n))
  | None => ns_disk ns
  end.

(** ** The laws *)

Definition tracked_view (t : trackedStorage) : storage_view := mem.mem_view (ts_stor t).

Lemma tracked_append t e es :
  view_wf (tracked_view t) → append_ok (tracked_view t) e es →
  ∃ t', tracked_AppendEntries (e :: es) t = Ret (t', None) ∧
    tracked_view t' = mkView (v_hard (tracked_view t)) (v_snap (tracked_view t)) (view_append (tracked_view t) (e :: es)).
Proof.
  intros Hv Ha. destruct (mem.mem_append _ _ _ Hv Ha) as (st & E & Hst). exists (mutated st t).
  unfold tracked_AppendEntries. by rewrite E.
Qed.
Lemma tracked_install t sn :
  view_wf (tracked_view t) → v_off (tracked_view t) < snIndex sn < u64_mod - 1 →
  ∃ t' e, tracked_ApplySnapshot sn t = Ret (t', e) ∧
    tracked_view t' = mkView (v_hard (tracked_view t)) sn (view_install (tracked_view t) sn).
Proof.
  intros Hv Hi. destruct (mem.mem_install _ _ Hv Hi) as (st & E & Hst). unfold tracked_ApplySnapshot. rewrite E. simpl.
  destruct (_ <? _); eexists _, None; (split; [done|exact Hst]).
Qed.

Lemma commitRecord_total st ct i :
  view_wf (mem.mem_view st) → i ≤ v_last (mem.mem_view st) →
  ∃ r, commitRecord st (mem.snapshot st) ct i = Ret (Some r).
Proof.
  intros Hv Hi. pose proof Hv as (H0 & Hl & Hc). unfold commitRecord. unfold v_off in *. simpl in H0.
  destruct (Z.ltb_spec (snIndex (mem.snapshot st)) i) as [Hgt|Hle].
  - rewrite w64_id by lia. rewrite mem.mem_entries; [|done|split; lia|split; lia]. simpl. unfold view_entries, v_off. simpl.
    destruct (Z.leb_spec i (snIndex (mem.snapshot st))); [lia|].
    destruct (Z.ltb_spec (v_last (mem.mem_view st) + 1) (i + 1)); [lia|]. destruct (Z.ltb_spec (i + 1) i); [lia|]. simpl.
    replace (i + 1 - i) with 1 by lia. unfold v_last, v_off, zlen in Hi. simpl in Hi.
    destruct (drop (Z.to_nat (i - snIndex (mem.snapshot st) - 1)) (mem.entries st)) as [|e es] eqn:E; simpl; [|by eauto].
    apply (f_equal length) in E. rewrite length_drop in E. simpl in E. lia.
  - unfold mem.mem_Entries, mem.offset. destruct (Z.leb_spec i (snIndex (mem.snapshot st))); [|lia]. simpl.
    unfold mem.mem_Term, mem.offset. destruct (Z.eqb_spec i (snIndex (mem.snapshot st))); simpl; [by eauto|].
    destruct (Z.ltb_spec i (snIndex (mem.snapshot st))); [by simpl; eauto|lia].
Qed.
Lemma commitRecords_total st ct idxs :
  view_wf (mem.mem_view st) → Forall (λ i, i ≤ v_last (mem.mem_view st)) idxs →
  ∃ rs, commitRecords st (mem.snapshot st) ct idxs = Ret (Some rs).
Proof.
  intros Hv. induction 1 as [|i idxs Hi _ [rs IH]]; simpl; [by eauto|].
  destruct (commitRecord_total st ct i Hv Hi) as [r ->]. simpl. rewrite IH. simpl. by eauto.
Qed.
Lemma recordCommitAdvance_view c ct t t' e :
  recordCommitAdvance c ct t = Ret (t', e) → tracked_view t' = tracked_view t.
Proof.
  unfold recordCommitAdvance. destruct (_ <=? _); [by intros [= <- _]|].
  intros (sn & _ & (rs & _ & E)%outcome_bind_Ret)%outcome_bind_Ret. by destruct rs; injection E as <- _.
Qed.
Lemma tracked_set_hard t h :
  view_wf (tracked_view t) → hsCommit h ≤ v_last (tracked_view t) → ∃ t', tracked_SetHardState h t = Ret (t', None).
Proof.
  intros Hv Hc. unfold tracked_SetHardState, recordCommitAdvance. simpl. destruct (_ <=? _); [by eauto|].
  destruct (commitRecords_total (mem.mkStorage h (mem.snapshot (ts_stor t)) (mem.entries (ts_stor t))) (hsTerm h)
    (indices (ts_durableCommit t + 1) (hsCommit h))) as [rs E]; [done| |].
  { apply Forall_forall. intros i [_ Hi]%elem_of_seqZ. change (v_last (tracked_view t)) with (v_last (mem.mem_view (ts_stor t))) in Hc.
    unfold v_last, v_off in *. simpl in *. lia. }
  simpl in E. rewrite E. simpl. by eauto.
Qed.
Lemma tracked_set_hard_view t h t' e :
  tracked_SetHardState h t = Ret (t', e) → tracked_view t' = mkView h (v_snap (tracked_view t)) (v_ents (tracked_view t)).
Proof. unfold tracked_SetHardState. simpl. by intros ->%recordCommitAdvance_view. Qed.
Lemma tracked_append_hard t es t' e :
  tracked_AppendEntries es t = Ret (t', e) → v_hard (tracked_view t') = v_hard (tracked_view t).
Proof.
  intros ([st e1] & E & [= <- _])%outcome_bind_Ret. apply mem.mem_append_hard in E.
  unfold tracked_view. by destruct e1; simpl.
Qed.
Lemma tracked_install_hard t sn t' e :
  tracked_ApplySnapshot sn t = Ret (t', e) → v_hard (tracked_view t') = v_hard (tracked_view t).
Proof.
  intros ([st e1] & E & E2)%outcome_bind_Ret. apply mem.mem_install_hard in E. unfold tracked_view. simpl in E2.
  destruct e1; [by injection E2 as <- _|]. destruct (_ <? _); by injection E2 as <- _.
Qed.

#[global] Instance tracked_laws : LogStorageLaws trackedStorage := {|
  view := tracked_view;
  law_hard t := eq_refl;
  law_snap t := eq_refl;
  law_first t := mem.mem_first (ts_stor t);
  law_last t := mem.mem_last (ts_stor t);
  law_term t := mem.mem_term (ts_stor t);
  law_entries t := mem.mem_entries (ts_stor t);
  law_append := tracked_append;
  law_set_hard := tracked_set_hard;
  law_set_hard_view := tracked_set_hard_view;
  law_install := tracked_install;
  law_append_hard := tracked_append_hard;
  law_install_hard := tracked_install_hard
|}.
