(* ===== verification/SimNet.v ===== *)
(** * The simulated network (src/sim/network.go)

    [route] decides the fate of one message from the partition, the drawn
    losses, duplicates and delays, and the scenario's hook.  Rates are exact
    rationals; a float drawn by [rng.Float64()] is k/2^53 for a drawn k of
    [0, 2^53), as in math/rand. *)

From Stdlib Require Import QArith.
From S2P Require Import Prelude RaftTypes.

#[local] Open Scope Z_scope.

(** ** math/rand draws over the run's one tape *)

Definition Int63n (n : Z) (r : Rand) : outcome (Z * Rand) := Intn n r.
(** [rng.Float64() < rate] *)
Definition drawn_below (rate : Q) (r : Rand) : outcome (bool * Rand) :=
  '(k, r) ← Int63n (2 ^ 53) r;
  Ret (negb (Qle_bool rate (k # 9007199254740992)), r).

Record NetworkConfig : Type := mkNetworkConfig {
  nc_DelayMin : Z;
  nc_DelayMax : Z;
  nc_DropRate : Q;
  nc_DupRate : Q
}.
Record Verdict : Type := mkVerdict {
  vd_Drop : bool;
  vd_Duplicate : bool;
  vd_ExtraDelay : Z
}.
Definition MessageHook : Type := Z → Z → Message → Verdict.

(** The partition map is nil ([None]) or assigns group ids; the random source
    is the simulator's. *)
Record network : Type := mkNetwork {
  nt_cfg : NetworkConfig;
  nt_partition : option (gmap Z Z);
  nt_hook : option MessageHook
}.
Definition newNetwork (c : NetworkConfig) : network := mkNetwork c None None.

Definition connected (n : network) (from to : Z) : bool :=
  match nt_partition n with
  | None => true
  | Some p => default 0 (p !! from) =? default 0 (p !! to)
  end.

(** The two loops of [setPartition], from group number [gi]. *)
Fixpoint assign_groups (gi : Z) (groups : list (list Z)) (p : gmap Z Z) : gmap Z Z :=
  match groups with
  | [] => p
  | g :: groups => assign_groups (gi + 1) groups (foldl (λ p id, <[id := gi + 1]> p) p g)
  end.
Definition setPartition (groups : list (list Z)) (n : network) : network :=
  mkNetwork (nt_cfg n) (if (length groups =? 0)%nat then None else Some (assign_groups 0 groups ∅)) (nt_hook n).
Definition heal (n : network) : network := mkNetwork (nt_cfg n) None (nt_hook n).

Record delivery : Type := mkDelivery {
  dl_deliver : bool;
  dl_delay : Z;
  dl_duplicate : bool;
  dl_dupDelay : Z
}.

Definition drawDelay (n : network) (r : Rand) : outcome (Z * Rand) :=
  let c := nt_cfg n in
  if nc_DelayMax c <=? nc_DelayMin c then Ret (nc_DelayMin c, r) else
  '(d, r) ← Int63n (nc_DelayMax c - nc_DelayMin c + 1) r;
  Ret (nc_DelayMin c + d, r).

(** A draw that is made only when the rate is positive. *)
Definition drawn_if_positive (rate : Q) (r : Rand) : outcome (bool * Rand) :=
  if negb (Qle_bool rate 0) then drawn_below rate r else Ret (false, r).

(** The hook's adjustments. *)
Definition hooked (v : Verdict) (d : delivery) : delivery :=
  let d := if vd_Drop v then mkDelivery false (dl_delay d) false (dl_dupDelay d) else d in
  let d := if vd_Duplicate v && negb (dl_duplicate d) then mkDelivery (dl_deliver d) (dl_delay d) true (dl_delay d) else d in
  mkDelivery (dl_deliver d) (dl_delay d + vd_ExtraDelay v) (dl_duplicate d)
    (if dl_duplicate d then dl_dupDelay d + vd_ExtraDelay v else dl_dupDelay d).

Definition route (n : network) (from to : Z) (m : Message) (r : Rand) : outcome (delivery * Rand) :=
  if negb (connected n from to) then Ret (mkDelivery false 0 false 0, r) else
  '(lost, r) ← drawn_if_positive (nc_DropRate (nt_cfg n)) r;
  '(delay, r) ← drawDelay n r;
  '(dup, r) ← drawn_if_positive (nc_DupRate (nt_cfg n)) r;
  '(dupDelay, r) ← (if (dup : bool) then drawDelay n r else Ret (0, r));
  let d := mkDelivery (negb lost) delay dup dupDelay in
  Ret (match nt_hook n with Some h => hooked (h from to m) d | None => d end, r).

(** ** Partitions *)

Lemma foldl_group (gi : Z) (g : list Z) (p : gmap Z Z) (id : Z) :
  foldl (λ p id, <[id := gi]> p) p g !! id = if decide (id ∈ g) then Some gi else p !! id.
Proof.
  revert p. induction g as [|x g IH]; intros p; [case_decide as H; [by apply elem_of_nil in H|done]|].
  cbn [foldl]. rewrite IH. destruct (decide (id ∈ g)) as [Hg|Hg].
  - by rewrite decide_True by (by right).
  - destruct (decide (id = x)) as [->|Hx].
    + rewrite lookup_insert_eq. by rewrite decide_True by (by left).
    + rewrite lookup_insert_ne by done. rewrite decide_False; [done|]. by intros [?|?]%elem_of_cons.
Qed.
(** The group of a node: the last one that lists it, counted from one. *)
Lemma assign_groups_spec gi groups (p : gmap Z Z) (id : Z) :
  (∀ g1 g2 i j, groups !! i = Some g1 → groups !! j = Some g2 → id ∈ g1 → id ∈ g2 → i = j) →
  assign_groups gi groups p !! id =
    match list_find (λ g, id ∈ g) groups with Some (i, _) => Some (gi + 1 + Z.of_nat i) | None => p !! id end.
Proof.
  revert gi p. induction groups as [|g groups IH]; intros gi p Hd; simpl; [done|].
  rewrite IH. 2: { intros g1 g2 i j H1 H2 Hi1 Hi2. apply (Hd g1 g2 (S i) (S j)) in Hi1; [lia|done..]. }
  rewrite foldl_group. destruct (decide (id ∈ g)) as [Hg|Hg].
  - destruct (list_find _ groups) as [[i g']|] eqn:E; [|f_equal; simpl; lia].
    apply list_find_Some in E as (Hi & Hin & _). by specialize (Hd g g' 0%nat (S i) eq_refl Hi Hg Hin).
  - destruct (list_find _ groups) as [[i g']|]; simpl; [f_equal; lia|done].
Qed.

(** The group that lists a node, if any. *)
Definition group_of (groups : list (list Z)) (id : Z) : option nat := fst <$> list_find (λ g, id ∈ g) groups.
(** No node is listed in two groups. *)
Definition disjoint_groups (groups : list (list Z)) : Prop :=
  ∀ id g1 g2 i j, groups !! i = Some g1 → groups !! j = Some g2 → id ∈ g1 → id ∈ g2 → i = j.

Lemma connected_groups n groups a b :
  disjoint_groups groups →
  connected (setPartition groups n) a b = true ↔ groups = [] ∨ group_of groups a = group_of groups b.
Proof.
  intros Hd. unfold connected, setPartition. simpl. destruct groups as [|g groups]; [by split; [left|]|].
  simpl (length _ =? 0)%nat. cbv iota. rewrite Z.eqb_eq, !assign_groups_spec by (intros ?? ? ?; apply Hd).
  unfold group_of. destruct (list_find (λ g, a ∈ g) _) as [[i ?]|], (list_find (λ g, b ∈ g) _) as [[j ?]|]; rewrite ?lookup_empty; simpl;
    (split; [intros ?|intros [?|?]]); simplify_eq; try done; try lia; right; f_equal; lia.
Qed.

(** ** Draws *)

Lemma Int63n_spec n r : 0 < n → ∃ k r', Int63n n r = Ret (k, r') ∧ 0 ≤ k < n.
Proof.
  intros Hn. unfold Int63n, Intn. destruct (Z.leb_spec n 0); [lia|]. eexists _, _. split; [done|]. by apply Z.mod_pos_bound.
Qed.
Lemma drawn_if_positive_total rate r : ∃ b r', drawn_if_positive rate r = Ret (b, r').
Proof.
  unfold drawn_if_positive, drawn_below. destruct (negb _); [|by eauto].
  destruct (Int63n_spec (2 ^ 53) r) as (k & r' & -> & _); [done|]. simpl. by eauto.
Qed.
Lemma drawDelay_spec n r :
  ∃ d r', drawDelay n r = Ret (d, r') ∧ nc_DelayMin (nt_cfg n) ≤ d ≤ Z.max (nc_DelayMin (nt_cfg n)) (nc_DelayMax (nt_cfg n)).
Proof.
  unfold drawDelay. destruct (Z.leb_spec (nc_DelayMax (nt_cfg n)) (nc_DelayMin (nt_cfg n))); [eexists _, _; split; [done|lia]|].
  destruct (Int63n_spec (nc_DelayMax (nt_cfg n) - nc_DelayMin (nt_cfg n) + 1) r) as (k & r' & -> & Hk); [lia|].
  simpl. eexists _, _. split; [done|]. lia.
Qed.

(** What the hook adds to a delay. *)
Definition extra (n : network) (from to : Z) (m : Message) : Z :=
  match nt_hook n with Some h => vd_ExtraDelay (h from to m) | None => 0 end.
Definition within (n : network) (d : Z) : Prop :=
  nc_DelayMin (nt_cfg n) ≤ d ≤ Z.max (nc_DelayMin (nt_cfg n)) (nc_DelayMax (nt_cfg n)).

Lemma hooked_within n v d :
  within n (dl_delay d) → (dl_duplicate d = true → within n (dl_dupDelay d)) →
  within n (dl_delay (hooked v d) - vd_ExtraDelay v) ∧
  (dl_duplicate (hooked v d) = true → within n (dl_dupDelay (hooked v d) - vd_ExtraDelay v)).
Proof.
  intros H1 H2. unfold hooked, within in *.
  destruct (vd_Drop v), (vd_Duplicate v), (dl_duplicate d) eqn:E; simpl; rewrite ?E; simpl; (split; [lia|intros Hd]);
    try done; try specialize (H2 eq_refl); lia.
Qed.
Lemma route_spec n from to m r :
  ∃ d r', route n from to m r = Ret (d, r') ∧
    (connected n from to = false → dl_deliver d = false ∧ dl_duplicate d = false ∧ r' = r) ∧
    (connected n from to = true → within n (dl_delay d - extra n from to m) ∧
      (dl_duplicate d = true → within n (dl_dupDelay d - extra n from to m))).
Proof.
  unfold route. destruct (connected n from to); simpl; [|by eexists _, _].
  destruct (drawn_if_positive_total (nc_DropRate (nt_cfg n)) r) as (lost & r1 & ->). simpl.
  destruct (drawDelay_spec n r1) as (delay & r2 & -> & Hdelay). simpl.
  destruct (drawn_if_positive_total (nc_DupRate (nt_cfg n)) r2) as (dup & r3 & ->). simpl.
  assert (∃ dd r4, (if dup then drawDelay n r3 else Ret (0, r3)) = Ret (dd, r4) ∧ (dup = true → within n dd)) as (dd & r4 & -> & Hdd).
  { destruct dup; [|by eexists _, _]. destruct (drawDelay_spec n r3) as (dd & r4 & -> & ?). by eexists _, _. }
  simpl. eexists _, _. split; [done|]. split; [done|]. intros _. unfold extra. destruct (nt_hook n) as [h|].
  - by apply hooked_within.
  - simpl. unfold within in *. split; [lia|]. intros Hd. specialize (Hdd Hd). lia.
Qed.

(** The network respects the partition.  After a partition into disjoint
    groups, a message between nodes of different groups (the nodes listed in
    none forming one more) is neither delivered nor duplicated and consumes no
    randomness; every other message is routed without a panic, with delays
    within the configured bounds plus what the hook adds. *)
Theorem partition_isolates n groups from to m r :
  disjoint_groups groups →
  let n' := setPartition groups n in
  ∃ d r', route n' from to m r = Ret (d, r') ∧
    (groups ≠ [] → group_of groups from ≠ group_of groups to → dl_deliver d = false ∧ dl_duplicate d = false ∧ r' = r) ∧
    (groups = [] ∨ group_of groups from = group_of groups to → within n (dl_delay d - extra n from to m) ∧
      (dl_duplicate d = true → within n (dl_dupDelay d - extra n from to m))).
Proof.
  intros Hd n'. destruct (route_spec n' from to m r) as (d & r' & E & Hno & Hyes). exists d, r'.
  pose proof (connected_groups n groups from to Hd) as Hc. split; [done|]. split.
  - intros Hne Hg. apply Hno. apply not_true_is_false. intros [?|?]%Hc; done.
  - intros Hg. apply Hyes. by apply Hc.
Qed.

(** Node 1 is cut off from nodes 2 and 3. *)
Definition net1 : network := mkNetwork (mkNetworkConfig 1000 5000 (1 # 50) (1 # 50)) None None.
Lemma partition_isolates_witness :
  group_of [[1]; [2; 3]] 1 ≠ group_of [[1]; [2; 3]] 2 ∧
  ∃ d, route (setPartition [[1]; [2; 3]] net1) 1 2 (Msg MsgVote 2) (mkRand (λ _, 0) 0) = Ret (d, mkRand (λ _, 0) 0) ∧ dl_deliver d = false.
Proof.
  assert (disjoint_groups [[1]; [2; 3]]) as Hd.
  { intros id g1 g2 i j H1 H2 Hi Hj. destruct i as [|[|i]], j as [|[|j]]; simpl in *; simplify_eq; try done; set_solver by lia. }
  split; [by vm_compute|].
  destruct (partition_isolates net1 [[1]; [2; 3]] 1 2 (Msg MsgVote 2) (mkRand (λ _, 0) 0) Hd) as (d & r' & E & Hno & _).
  destruct Hno as (H1 & _ & ->); [done|by vm_compute|]. exists d. split; [exact E|exact H1].
Defined.
