(* ===== verification/Invariants.v ===== *)
(** * The simulator's invariant checkers (src/sim/invariants.go)

    [check] runs after every step of the simulator.  The checker's maps and
    caches are a record; a violation is a value of [violation].  Where the
    source ranges over a map, only which of several violations is reported
    depends on the order. *)

From S2P Require Import Prelude GoStrings RaftTypes Storage RaftLog Raft Node Trace SimNode.

Record logMark : Type := mkLogMark {
  lm_term : Z;
  lm_digest : Z;
  lm_commitTerm : Z;
  lm_node : Z;
  lm_termKnown : bool;
  lm_dataKnown : bool
}.
Record structuralState : Type := mkStructural {
  st_present : bool;
  st_applied : Z;
  st_appliedEntries : Z;
  st_storageGen : Z;
  st_committedEvents : Z;
  st_crashed : bool;
  st_leader : bool;
  st_leaderTerm : Z
}.
#[export] Instance structuralState_eq_dec : EqDecision structuralState.
Proof. solve_decision. Defined.
Record leaderCheck : Type := mkLeaderCheck {
  lc_generation : Z;
  lc_committedVersion : Z;
  lc_term : Z
}.
#[export] Instance leaderCheck_eq_dec : EqDecision leaderCheck.
Proof. solve_decision. Defined.
Record durableCache : Type := mkDurableCache {
  dc_generation : Z;
  dc_marks : gmap Z logMark;
  dc_snapshotIndex : Z;
  dc_snapshotTerm : Z;
  dc_snapshotData : Z
}.

Record invariants : Type := mkInvariants {
  iv_peers : list Z;
  iv_leaderByTerm : gmap Z Z;
  iv_committed : gmap Z logMark;
  iv_markCache : gmap Z durableCache;
  iv_commitCursor : gmap Z nat;
  iv_sortedCommitted : list Z;
  iv_sortedCommittedLen : nat;
  iv_committedVersion : Z;
  iv_leaderCheckState : gmap Z leaderCheck;
  iv_lastStructural : list structuralState
}.
Definition newInvariants (peers : list Z) : invariants := mkInvariants peers ∅ ∅ ∅ ∅ [] 0 0 ∅ [].

Definition set_leaderByTerm v (i : invariants) : invariants := mkInvariants (iv_peers i) v (iv_committed i) (iv_markCache i) (iv_commitCursor i) (iv_sortedCommitted i) (iv_sortedCommittedLen i) (iv_committedVersion i) (iv_leaderCheckState i) (iv_lastStructural i).
Definition set_markCache v (i : invariants) : invariants := mkInvariants (iv_peers i) (iv_leaderByTerm i) (iv_committed i) v (iv_commitCursor i) (iv_sortedCommitted i) (iv_sortedCommittedLen i) (iv_committedVersion i) (iv_leaderCheckState i) (iv_lastStructural i).
Definition set_commitCursor v (i : invariants) : invariants := mkInvariants (iv_peers i) (iv_leaderByTerm i) (iv_committed i) (iv_markCache i) v (iv_sortedCommitted i) (iv_sortedCommittedLen i) (iv_committedVersion i) (iv_leaderCheckState i) (iv_lastStructural i).
Definition set_sorted v n (i : invariants) : invariants := mkInvariants (iv_peers i) (iv_leaderByTerm i) (iv_committed i) (iv_markCache i) (iv_commitCursor i) v n (iv_committedVersion i) (iv_leaderCheckState i) (iv_lastStructural i).
Definition set_leaderCheckState v (i : invariants) : invariants := mkInvariants (iv_peers i) (iv_leaderByTerm i) (iv_committed i) (iv_markCache i) (iv_commitCursor i) (iv_sortedCommitted i) (iv_sortedCommittedLen i) (iv_committedVersion i) v (iv_lastStructural i).
Definition set_lastStructural v (i : invariants) : invariants := mkInvariants (iv_peers i) (iv_leaderByTerm i) (iv_committed i) (iv_markCache i) (iv_commitCursor i) (iv_sortedCommitted i) (iv_sortedCommittedLen i) (iv_committedVersion i) (iv_leaderCheckState i) v.
(** [iv.committed[index] = m; iv.committedVersion++] *)
Definition put_committed (index : Z) (m : logMark) (i : invariants) : invariants := mkInvariants (iv_peers i) (iv_leaderByTerm i) (<[index := m]> (iv_committed i)) (iv_markCache i) (iv_commitCursor i) (iv_sortedCommitted i) (iv_sortedCommittedLen i) (iv_committedVersion i +w 1) (iv_leaderCheckState i) (iv_lastStructural i).

Inductive violation : Type :=
| ElectionSafety (prev id term : Z)
| AppliedDivergence (index node id : Z)
| SnapshotAgreement (index node id : Z)
| LogMatching (index term node id : Z)
| CommittedDivergence (index node id : Z)
| LeaderConflict (id term index : Z)
| LeaderSnapshotConflict (id term index : Z)
| LeaderMissing (id term index : Z)
| StorageRead (id : Z) (e : errkind).

(** A check: [Some v] is a returned error. *)
Definition CheckM : Type := M invariants (option violation).
(** Continues unless a check failed. *)
Definition and_then (c : CheckM) (k : CheckM) : CheckM :=
  e ← c; match e with Some v => mret (Some v) | None => k end.
(** [for _, x := range l { if err := f(x); err != nil { return err } }] *)
Fixpoint each {A} (l : list A) (f : A → CheckM) : CheckM :=
  match l with
  | [] => mret None
  | x :: l => and_then (f x) (each l f)
  end.

Implicit Types nodes : gmap Z nodeState.

(** The node of a live one. *)
Definition live (ns : nodeState) : option (Node trackedStorage) := if ns_crashed ns then None else ns_node ns.
Definition leaderTerm (ns : nodeState) : Z := from_option Node_Term 0 (live ns).
Definition is_leader (ns : nodeState) : bool :=
  match live ns with Some n => bool_decide (Node_State n = StateLeader) | None => false end.

(** ** Election safety *)

Definition checkLeader nodes (id : Z) : CheckM :=
  match nodes !! id with
  | None => mret None
  | Some ns =>
      if negb (is_leader ns) then mret None else
      let term := leaderTerm ns in
      if term =? 0 then mret None else
      i ← get;
      match iv_leaderByTerm i !! term with
      | Some prev =>
          if negb (prev =? id) then mret (Some (ElectionSafety prev id term))
          else modify (set_leaderByTerm (<[term := id]> (iv_leaderByTerm i)));; mret None
      | None => modify (set_leaderByTerm (<[term := id]> (iv_leaderByTerm i)));; mret None
      end
  end.
Definition checkElectionSafety nodes : CheckM := i ← get; each (iv_peers i) (checkLeader nodes).

(** ** The structural checks run only when something observable changed *)

Definition structuralOf (ns : option nodeState) : structuralState :=
  match ns with
  | None => mkStructural false 0 0 0 0 false false 0
  | Some ns =>
      mkStructural true (ns_applied ns) (zlen (ns_appliedLog ns)) (storageGeneration (ns_storage ns))
        (zlen (storageCommitted (ns_storage ns))) (ns_crashed ns) (is_leader ns)
        (if is_leader ns then leaderTerm ns else 0)
  end.
Definition structuralChanged nodes : M invariants bool :=
  i ← get;
  let current := map (λ id, structuralOf (nodes !! id)) (iv_peers i) in
  if decide (current = iv_lastStructural i) then mret false
  else modify (set_lastStructural current);; mret true.

(** ** Applied-prefix agreement *)

(** The first (term, digest) seen at each index, and who applied it. *)
Fixpoint checkApplied (id : Z) (recs : list appliedRec) (seen : gmap Z (Z * Z * Z)) : result violation (gmap Z (Z * Z * Z)) :=
  match recs with
  | [] => Ok seen
  | r :: recs =>
      match seen !! ar_index r with
      | Some (t, d, n) =>
          if negb (t =? ar_term r) || negb (d =? ar_digest r) then Err (AppliedDivergence (ar_index r) n id)
          else checkApplied id recs seen
      | None => checkApplied id recs (<[ar_index r := (ar_term r, ar_digest r, id)]> seen)
      end
  end.
Fixpoint checkAppliedOf nodes (ids : list Z) (seen : gmap Z (Z * Z * Z)) : option violation :=
  match ids with
  | [] => None
  | id :: ids =>
      match nodes !! id with
      | None => checkAppliedOf nodes ids seen
      | Some ns =>
          match checkApplied id (ns_appliedLog ns) seen with
          | Err v => Some v
          | Ok seen => checkAppliedOf nodes ids seen
          end
      end
  end.
Definition checkAppliedPrefix nodes : CheckM := gets (λ i, checkAppliedOf nodes (iv_peers i) ∅).

(** ** Durable logs *)

Definition entryMark (id : Z) (e : Entry) : logMark := mkLogMark (eTerm e) (fnv64 (eData e)) 0 id true true.
(** What a storage holds, read afresh. *)
Definition readMarks (t : trackedStorage) (id : Z) : outcome (result violation durableCache) :=
  sn ← SnapshotOf t;
  match sn with
  | Err e => Ret (Err (StorageRead id e))
  | Ok sn =>
      let view marks := mkDurableCache (storageGeneration t) marks (snIndex sn) (snTerm sn) (fnv64 (snData sn)) in
      last ← LastIndex t;
      match last with
      | Err e => Ret (Err (StorageRead id e))
      | Ok last =>
          first ← FirstIndex t;
          match first with
          | Err e => Ret (Err (StorageRead id e))
          | Ok first =>
              if (0 <? first) && (first <=? last) then
                es ← Entries first (last +w 1) t;
                match es with
                | Err e => Ret (Err (StorageRead id e))
                | Ok es => Ret (Ok (view (foldl (λ m e, <[eIndex e := entryMark id e]> m) ∅ es)))
                end
              else Ret (Ok (view ∅))
          end
      end
  end.
(** Reads the marks and keeps them. *)
Definition refreshMarks (t : trackedStorage) (id : Z) : M invariants (result violation durableCache) :=
  r ← reads (λ _, readMarks t id);
  match r with
  | Err v => mret (Err v)
  | Ok view => i ← get; modify (set_markCache (<[id := view]> (iv_markCache i)));; mret (Ok view)
  end.
Definition durableMarks (ns : option nodeState) (id : Z) : M invariants (result violation durableCache) :=
  match ns with
  | None => mret (Ok (mkDurableCache 0 ∅ 0 0 0))
  | Some ns =>
      i ← get;
      match iv_markCache i !! id with
      | Some cached =>
          if dc_generation cached =? storageGeneration (ns_storage ns) then mret (Ok cached)
          else refreshMarks (ns_storage ns) id
      | None => refreshMarks (ns_storage ns) id
      end
  end.

(** ** Log matching *)

(** The loop over one node's marks. *)
Fixpoint matchMarks (id : Z) (ms : list (Z * logMark)) (seen : gmap Z logMark) : result violation (gmap Z logMark) :=
  match ms with
  | [] => Ok seen
  | (idx, m) :: ms =>
      match seen !! idx with
      | None => matchMarks id ms (<[idx := m]> seen)
      | Some prev =>
          if (lm_term prev =? lm_term m) && negb (lm_digest prev =? lm_digest m)
          then Err (LogMatching idx (lm_term m) (lm_node prev) id)
          else matchMarks id ms (if lm_term prev <? lm_term m then <[idx := m]> seen else seen)
      end
  end.
Definition matchSnapshot (id : Z) (view : durableCache) (snaps : gmap Z logMark) : result violation (gmap Z logMark) :=
  if 0 <? dc_snapshotIndex view then
    let mark := mkLogMark (dc_snapshotTerm view) (dc_snapshotData view) 0 id true true in
    match snaps !! dc_snapshotIndex view with
    | Some prev =>
        if negb (lm_term prev =? lm_term mark) || negb (lm_digest prev =? lm_digest mark)
        then Err (SnapshotAgreement (dc_snapshotIndex view) (lm_node prev) id)
        else Ok (<[dc_snapshotIndex view := mark]> snaps)
    | None => Ok (<[dc_snapshotIndex view := mark]> snaps)
    end
  else Ok snaps.
Fixpoint checkMatching nodes (ids : list Z) (seen snaps : gmap Z logMark) : CheckM :=
  match ids with
  | [] => mret None
  | id :: ids =>
      r ← durableMarks (nodes !! id) id;
      match r with
      | Err v => mret (Some v)
      | Ok view =>
          match matchSnapshot id view snaps with
          | Err v => mret (Some v)
          | Ok snaps =>
              match matchMarks id (map_to_list (dc_marks view)) seen with
              | Err v => mret (Some v)
              | Ok seen => checkMatching nodes ids seen snaps
              end
          end
      end
  end.
Definition checkLogMatching nodes : CheckM := i ← get; checkMatching nodes (iv_peers i) ∅ ∅.

(** ** Leader completeness *)

(** One commit record of node [id]. *)
Definition foldRecord (id : Z) (r : committedRec) : CheckM :=
  i ← get;
  match iv_committed i !! cr_index r with
  | Some prev =>
      if (lm_termKnown prev && cr_termKnown r && negb (lm_term prev =? cr_term r)) ||
         (lm_dataKnown prev && cr_dataKnown r && negb (lm_digest prev =? cr_digest r))
      then mret (Some (CommittedDivergence (cr_index r) (lm_node prev) id))
      else
        let newTerm := negb (lm_termKnown prev) && cr_termKnown r in
        let newData := negb (lm_dataKnown prev) && cr_dataKnown r in
        let newCommit := (lm_commitTerm prev =? 0) ||
          (negb (cr_commitTerm r =? 0) && (cr_commitTerm r <? lm_commitTerm prev)) in
        let mark := mkLogMark (if newTerm then cr_term r else lm_term prev) (if newData then cr_digest r else lm_digest prev)
                      (if newCommit then cr_commitTerm r else lm_commitTerm prev) (lm_node prev)
                      (lm_termKnown prev || newTerm) (lm_dataKnown prev || newData) in
        (if newTerm || newData || newCommit then modify (put_committed (cr_index r) mark) else mret ());; mret None
  | None =>
      modify (put_committed (cr_index r)
        (mkLogMark (cr_term r) (cr_digest r) (cr_commitTerm r) id (cr_termKnown r) (cr_dataKnown r)));; mret None
  end.
Definition foldCommits nodes (id : Z) : CheckM :=
  match nodes !! id with
  | None => mret None
  | Some ns =>
      let records := storageCommitted (ns_storage ns) in
      i ← get;
      let cur := default 0%nat (iv_commitCursor i !! id) in
      let cur := if (length records <? cur)%nat then 0%nat else cur in
      and_then (each (drop cur records) (foldRecord id))
        (i ← get; modify (set_commitCursor (<[id := length records]> (iv_commitCursor i)));; mret None)
  end.
Definition sortCommitted : M invariants () :=
  i ← get;
  if negb (size (iv_committed i) =? iv_sortedCommittedLen i)%nat
  then modify (set_sorted (merge_sort Z.le (map_to_list (iv_committed i)).*1) (size (iv_committed i)))
  else mret ().

(** One committed index against a leader's durable log. *)
Definition checkIndex (id term : Z) (view : durableCache) (index : Z) (want : logMark) : option violation :=
  if negb (lm_commitTerm want =? 0) && (term <? lm_commitTerm want) then None else
  match dc_marks view !! index with
  | Some got =>
      if (lm_termKnown want && negb (lm_term got =? lm_term want)) ||
         (lm_dataKnown want && negb (lm_digest got =? lm_digest want))
      then Some (LeaderConflict id term index) else None
  | None =>
      if index <=? dc_snapshotIndex view then
        if (dc_snapshotIndex view =? index) && lm_termKnown want && negb (dc_snapshotTerm view =? lm_term want)
        then Some (LeaderSnapshotConflict id term index) else None
      else Some (LeaderMissing id term index)
  end.
(** [iv.committed[index]] of an index that is not there is the zero mark. *)
Definition zeroMark : logMark := mkLogMark 0 0 0 0 false false.
Definition checkComplete nodes (id : Z) : CheckM :=
  match nodes !! id with
  | None => mret None
  | Some ns =>
      if negb (is_leader ns) then mret None else
      let term := leaderTerm ns in
      if term =? 0 then mret None else
      i ← get;
      let key := mkLeaderCheck (storageGeneration (ns_storage ns)) (iv_committedVersion i) term in
      if decide (iv_leaderCheckState i !! id = Some key) then mret None else
      r ← durableMarks (Some ns) id;
      match r with
      | Err v => mret (Some v)
      | Ok view =>
          and_then (each (iv_sortedCommitted i) (λ index, mret (checkIndex id term view index (default zeroMark (iv_committed i !! index)))))
            (i ← get; modify (set_leaderCheckState (<[id := key]> (iv_leaderCheckState i)));; mret None)
      end
  end.
Definition checkLeaderCompleteness nodes : CheckM :=
  i ← get;
  and_then (each (iv_peers i) (foldCommits nodes)) (sortCommitted;; each (iv_peers i) (checkComplete nodes)).

(** ** check *)

Definition check nodes : CheckM :=
  and_then (checkElectionSafety nodes) (
  b ← structuralChanged nodes;
  if (b : bool) then
    and_then (checkAppliedPrefix nodes) (and_then (checkLogMatching nodes) (checkLeaderCompleteness nodes))
  else mret None).

(** ** Observations that agree

    [agrees L cs]: the observations [cs] assign one value to each key, and it
    is the one [L] has. *)
Section agrees.
Context {V : Type}.
Implicit Types (L : gmap Z V) (cs : list (Z * V)).

Definition agrees L cs : Prop :=
  (∀ k a b, (k, a) ∈ cs → (k, b) ∈ cs → a = b) ∧ (∀ k a b, (k, a) ∈ cs → L !! k = Some b → a = b).
Definition noted L cs : gmap Z V := foldl (λ L c, <[c.1 := c.2]> L) L cs.

Lemma agrees_nil L : agrees L [].
Proof. split; intros k a b H; by apply elem_of_nil in H. Qed.
Lemma agrees_cons L k v cs :
  agrees L ((k, v) :: cs) ↔ (∀ w, L !! k = Some w → v = w) ∧ agrees (<[k := v]> L) cs.
Proof.
  split.
  - intros [H1 H2]. split; [intros w; apply H2; by left|]. split.
    + intros k' a b Ha Hb. by apply (H1 k'); right.
    + intros k' a b Ha [[-> ->]|[Hne HL]]%lookup_insert_Some; [|by eapply H2; [right|]].
      by apply (H1 k'); [right|left].
  - intros (Hv & H1 & H2). assert (Hk : ∀ a, (k, a) ∈ cs → a = v).
    { intros a Ha. apply (H2 k a v Ha). apply lookup_insert_eq. }
    split.
    + intros k' a b [Ha|Ha]%elem_of_cons [Hb|Hb]%elem_of_cons; simplify_eq; [done|..].
      * symmetry. by apply Hk.
      * by apply Hk.
      * by apply (H1 k').
    + intros k' a b [[= -> ->]|Ha]%elem_of_cons HL; [by apply Hv|].
      destruct (decide (k' = k)) as [->|Hne].
      * rewrite (Hk a Ha). by apply Hv.
      * apply (H2 k' a b Ha). by rewrite lookup_insert_ne.
Qed.
Lemma agrees_app L cs1 cs2 : agrees L (cs1 ++ cs2) ↔ agrees L cs1 ∧ agrees (noted L cs1) cs2.
Proof.
  revert L. induction cs1 as [|[k v] cs1 IH]; intros L; simpl.
  - split; [intros H; split; [apply agrees_nil|exact H]|by intros [_ H]].
  - rewrite !agrees_cons, IH. tauto.
Qed.
Lemma noted_app L cs1 cs2 : noted L (cs1 ++ cs2) = noted (noted L cs1) cs2.
Proof. apply foldl_app. Qed.
End agrees.

(** ** Election safety over a run *)

(** The leaders of a state, with their terms. *)
Definition leadersOf nodes (ids : list Z) : list (Z * Z) :=
  omap (λ id, ns ← nodes !! id;
    if is_leader ns && negb (leaderTerm ns =? 0) then Some (leaderTerm ns, id) else None) ids.

Lemma each_leader nodes ids i :
  ∃ e i', each ids (checkLeader nodes) i = Ret (e, i') ∧ iv_peers i' = iv_peers i ∧
    (e = None ↔ agrees (iv_leaderByTerm i) (leadersOf nodes ids)) ∧
    (e = None → iv_leaderByTerm i' = noted (iv_leaderByTerm i) (leadersOf nodes ids)).
Proof.
  revert i. induction ids as [|id ids IH]; intros i.
  { eexists None, i. split_and!; try done. split; [intros; apply agrees_nil|done]. }
  cbn [each leadersOf]. unfold and_then, checkLeader. unfold mbind at 1, M_bind.
  assert (Hskip : leadersOf nodes (id :: ids) = leadersOf nodes ids → ∃ e i', each ids (checkLeader nodes) i = Ret (e, i') ∧
    iv_peers i' = iv_peers i ∧ (e = None ↔ agrees (iv_leaderByTerm i) (leadersOf nodes (id :: ids))) ∧
    (e = None → iv_leaderByTerm i' = noted (iv_leaderByTerm i) (leadersOf nodes (id :: ids)))).
  { intros ->. apply IH. }
  unfold leadersOf in Hskip |- *. simpl in *. destruct (nodes !! id) as [ns|]; simpl in *; [|by apply Hskip].
  destruct (is_leader ns); simpl in *; [|by apply Hskip].
  destruct (leaderTerm ns =? 0); simpl in *; [by apply Hskip|]. clear Hskip. fold (leadersOf nodes ids).
  set (t := leaderTerm ns). assert (Hgo : (∀ w, iv_leaderByTerm i !! t = Some w → id = w) →
    ∃ e i', each ids (checkLeader nodes) (set_leaderByTerm (<[t:=id]> (iv_leaderByTerm i)) i) = Ret (e, i') ∧
    iv_peers i' = iv_peers i ∧ (e = None ↔ agrees (iv_leaderByTerm i) ((t, id) :: leadersOf nodes ids)) ∧
    (e = None → iv_leaderByTerm i' = noted (iv_leaderByTerm i) ((t, id) :: leadersOf nodes ids))).
  { intros Hw. destruct (IH (set_leaderByTerm (<[t:=id]> (iv_leaderByTerm i)) i)) as (e & i' & E & Hp & Hiff & Hn).
    exists e, i'. split_and!; [done..| |done]. rewrite Hiff, agrees_cons. simpl. tauto. }
  unfold mbind at 1, M_bind, get. simpl. destruct (iv_leaderByTerm i !! t) as [prev|] eqn:E; simpl.
  - destruct (Z.eqb_spec prev id) as [->|Hne]; simpl; [apply Hgo; by intros w [= ->]|].
    eexists _, i. split_and!; [done|done| |done]. split; [done|]. rewrite agrees_cons. intros [Hw _].
    destruct Hne. symmetry. by apply Hw.
  - apply Hgo. by intros w.
Qed.

Lemma each_observed obs i :
  ∃ e i', each obs checkElectionSafety i = Ret (e, i') ∧
    (e = None ↔ agrees (iv_leaderByTerm i) (obs ≫= λ nodes, leadersOf nodes (iv_peers i))).
Proof.
  revert i. induction obs as [|nodes obs IH]; intros i.
  { exists None, i. split; [done|]. split; [intros; apply agrees_nil|done]. }
  cbn [each]. unfold and_then. unfold mbind at 1, M_bind. unfold checkElectionSafety at 1. unfold mbind at 1, M_bind, get.
  destruct (each_leader nodes (iv_peers i) i) as (e & i1 & E & Hp & Hiff & Hn). rewrite E.
  rewrite bind_cons.
  destruct e as [v|].
  - exists (Some v), i1. split; [done|]. split; [done|]. rewrite agrees_app, <-Hiff. by intros [? _].
  - destruct (IH i1) as (e & i' & E' & Hiff'). exists e, i'. split; [exact E'|].
    rewrite Hiff', agrees_app, <-Hiff, Hp, Hn by done. tauto.
Qed.

Lemma leadersOf_elem nodes ids t id :
  (t, id) ∈ leadersOf nodes ids ↔
  id ∈ ids ∧ ∃ ns, nodes !! id = Some ns ∧ is_leader ns = true ∧ leaderTerm ns = t ∧ t ≠ 0.
Proof.
  unfold leadersOf. rewrite list_elem_of_omap. split.
  - intros (id' & Hid & E). destruct (nodes !! id') as [ns|] eqn:En; [|done]. simpl in E.
    destruct (is_leader ns) eqn:El; [|done]. simpl in E. destruct (Z.eqb_spec (leaderTerm ns) 0); [done|]. simpl in E.
    injection E as <- <-. split; [done|]. by exists ns.
  - intros (Hid & ns & En & El & Et & Ht). exists id. split; [done|]. rewrite En. simpl. rewrite El, Et.
    by destruct (Z.eqb_spec t 0).
Qed.

(** C38: the election-safety checker is exact.  Run after every step on the
    states it observes, it reports a violation if and only if, in the states
    observed so far, two different nodes were live leaders of the same
    non-zero term, however far apart in time. *)
Theorem election_check_exact peers obs :
  ∃ e i', each obs checkElectionSafety (newInvariants peers) = Ret (e, i') ∧
    (e = None ↔ ∀ n1 n2 a b ns1 ns2, n1 ∈ obs → n2 ∈ obs → a ∈ peers → b ∈ peers →
      n1 !! a = Some ns1 → n2 !! b = Some ns2 → is_leader ns1 = true → is_leader ns2 = true →
      leaderTerm ns1 = leaderTerm ns2 → leaderTerm ns1 ≠ 0 → a = b).
Proof.
  destruct (each_observed obs (newInvariants peers)) as (e & i' & E & Hiff). exists e, i'. split; [done|].
  rewrite Hiff. simpl. unfold agrees. split.
  - intros [H _] n1 n2 a b ns1 ns2 Hn1 Hn2 Ha Hb E1 E2 L1 L2 Et Hnz. apply (H (leaderTerm ns1)); apply list_elem_of_bind.
    + exists n1. split; [|done]. apply leadersOf_elem. eauto 10.
    + exists n2. split; [|done]. apply leadersOf_elem. rewrite Et in Hnz |- *. eauto 10.
  - intros H. split; [|intros k a b _ Hl; by rewrite lookup_empty in Hl].
    intros t a b (n1 & H1 & Hn1)%list_elem_of_bind (n2 & H2 & Hn2)%list_elem_of_bind.
    apply leadersOf_elem in H1 as (Ha & ns1 & E1 & L1 & Et1 & Hnz). apply leadersOf_elem in H2 as (Hb & ns2 & E2 & L2 & Et2 & _).
    eapply (H n1 n2 a b ns1 ns2); try done; congruence.
Qed.

(** ** Applied-prefix agreement *)

Definition applied_obs (ns : nodeState) : list (Z * (Z * Z)) :=
  map (λ r, (ar_index r, (ar_term r, ar_digest r))) (ns_appliedLog ns).
Definition fingerprints (seen : gmap Z (Z * Z * Z)) : gmap Z (Z * Z) := fst <$> seen.

Lemma checkApplied_spec id recs seen :
  let cs := map (λ r, (ar_index r, (ar_term r, ar_digest r))) recs in
  match checkApplied id recs seen with
  | Ok seen' => agrees (fingerprints seen) cs ∧ fingerprints seen' = noted (fingerprints seen) cs
  | Err _ => ¬ agrees (fingerprints seen) cs
  end.
Proof.
  revert seen. induction recs as [|r recs IH]; intros seen; simpl; [split; [apply agrees_nil|done]|].
  pose proof (agrees_cons (fingerprints seen) (ar_index r) (ar_term r, ar_digest r)
    (map (λ r, (ar_index r, (ar_term r, ar_digest r))) recs)) as Hc.
  unfold fingerprints in *. rewrite lookup_fmap in Hc.
  destruct (seen !! ar_index r) as [[[t d] n]|] eqn:E; simpl in *.
  - destruct (Z.eqb_spec t (ar_term r)) as [->|Et], (Z.eqb_spec d (ar_digest r)) as [->|Ed]; simpl;
      try (intros [H _]%Hc; specialize (H _ eq_refl); injection H; congruence).
    rewrite (insert_id (fst <$> seen)) in Hc |- * by (by rewrite lookup_fmap, E).
    specialize (IH seen). destruct (checkApplied id recs seen); [|by intros [_ ?]%Hc].
    destruct IH as [? ?]. split; [|done]. apply Hc. split; [|done]. by intros w [= <-].
  - specialize (IH (<[ar_index r:=(ar_term r, ar_digest r, id)]> seen)). rewrite fmap_insert in IH. simpl in IH.
    destruct (checkApplied id recs _); [|by intros [_ ?]%Hc]. destruct IH as [? ?]. split; [|done]. apply Hc. by split.
Qed.
Lemma checkAppliedOf_spec nodes ids seen :
  checkAppliedOf nodes ids seen = None ↔
  agrees (fingerprints seen) (ids ≫= λ id, from_option applied_obs [] (nodes !! id)).
Proof.
  revert seen. induction ids as [|id ids IH]; intros seen; [split; [intros; apply agrees_nil|done]|].
  cbn [checkAppliedOf]. rewrite bind_cons, agrees_app. destruct (nodes !! id) as [ns|]; simpl.
  - pose proof (checkApplied_spec id (ns_appliedLog ns) seen) as Hs. unfold applied_obs at 1 2. simpl in Hs.
    destruct (checkApplied id (ns_appliedLog ns) seen) as [seen'|v].
    + destruct Hs as [Ha Hn]. rewrite IH, Hn. tauto.
    + split; [done|]. by intros [? _].
  - rewrite IH. split; [intros; split; [apply agrees_nil|done]|by intros [_ ?]].
Qed.

(** The applied-prefix checker is exact.  It reports no divergence if and
    only if any two records, of any two nodes, for the same index have the same
    term and the same content digest. *)
Theorem applied_check_exact nodes i :
  ∃ e, checkAppliedPrefix nodes i = Ret (e, i) ∧
    (e = None ↔ ∀ a b ns1 ns2 r1 r2, a ∈ iv_peers i → b ∈ iv_peers i → nodes !! a = Some ns1 → nodes !! b = Some ns2 →
      r1 ∈ ns_appliedLog ns1 → r2 ∈ ns_appliedLog ns2 → ar_index r1 = ar_index r2 →
      ar_term r1 = ar_term r2 ∧ ar_digest r1 = ar_digest r2).
Proof.
  eexists. split; [done|]. rewrite checkAppliedOf_spec. unfold agrees. split.
  - intros [H _] a b ns1 ns2 r1 r2 Ha Hb E1 E2 H1 H2 Ei.
    assert ((ar_term r1, ar_digest r1) = (ar_term r2, ar_digest r2)) as [= ? ?]; [|done].
    apply (H (ar_index r1)); apply list_elem_of_bind.
    + exists a. rewrite E1. split; [|done]. apply list_elem_of_fmap. by exists r1.
    + exists b. rewrite E2. split; [|done]. apply list_elem_of_fmap. exists r2. by rewrite Ei.
  - intros H. split; [|intros k x y _ Hl; unfold fingerprints in Hl; by rewrite fmap_empty, lookup_empty in Hl].
    intros k x y (a & H1 & Ha)%list_elem_of_bind (b & H2 & Hb)%list_elem_of_bind.
    destruct (nodes !! a) as [ns1|] eqn:E1; [|by apply elem_of_nil in H1].
    destruct (nodes !! b) as [ns2|] eqn:E2; [|by apply elem_of_nil in H2].
    apply list_elem_of_fmap in H1 as (r1 & [= -> ->] & Hr1). apply list_elem_of_fmap in H2 as (r2 & [= Ei ->] & Hr2).
    by destruct (H a b ns1 ns2 r1 r2) as [-> ->].
Qed.

(** ** The cache of durable marks *)

Lemma mem_append_err es st st' e : mem.mem_AppendEntries es st = Ret (st', Some e) → st' = st.
Proof.
  unfold mem.mem_AppendEntries. case_decide; [done|].
  intros (f & _ & (l & _ & E)%outcome_bind_Ret)%outcome_bind_Ret. destruct (l <=? _); [done|].
  apply outcome_bind_Ret in E as ([es' f'] & _ & E). destruct (_ <? _); [by injection E as <-|].
  by apply outcome_bind_Ret in E as (kept & _ & [=]).
Qed.
Lemma mem_install_err sn st st' e : mem.mem_ApplySnapshot sn st = Ret (st', Some e) → st' = st.
Proof.
  unfold mem.mem_ApplySnapshot. destruct (_ <=? _); [by intros [= <-]|].
  by intros (b & _ & (es & _ & [=])%outcome_bind_Ret)%outcome_bind_Ret.
Qed.

(** A mutation of the storage, whether it succeeds or not. *)
Inductive marks_op : Type :=
| MAppend (es : list Entry)
| MInstall (sn : Snapshot)
| MSetHard (hs : HardState).
Definition mutate (o : marks_op) (t : trackedStorage) : outcome (trackedStorage * error) :=
  match o with
  | MAppend es => AppendEntries es t
  | MInstall sn => ApplySnapshot sn t
  | MSetHard hs => SetHardState hs t
  end.

(** A mutation moves the generation, or changes nothing. *)
Lemma mutate_generation o t t' e :
  mutate o t = Ret (t', e) → ts_generation t' = ts_generation t +w 1 ∨ t' = t.
Proof.
  destruct o as [es|sn|hs]; simpl.
  - intros ([st e1] & E & [= <- <-])%outcome_bind_Ret. destruct e1; [right|by left].
    apply mem_append_err in E as ->. by destruct t.
  - intros ([st e1] & E & E')%outcome_bind_Ret. destruct e1 as [e1|].
    + injection E' as <- _. right. apply mem_install_err in E as ->. by destruct t.
    + left. simpl in E'. destruct (_ <? _); by injection E' as <- _.
  - unfold tracked_SetHardState, recordCommitAdvance. simpl. intros E. left. destruct (_ <=? _); [by injection E as <- _|].
    apply outcome_bind_Ret in E as (rs & _ & E). by destruct rs; injection E as <- _.
Qed.
Lemma readMarks_generation t id view : readMarks t id = Ret (Ok view) → dc_generation view = ts_generation t.
Proof.
  unfold readMarks. intros (rsn & _ & E)%outcome_bind_Ret. destruct rsn; [|done].
  apply outcome_bind_Ret in E as (rl & _ & E). destruct rl; [|done].
  apply outcome_bind_Ret in E as (rf & _ & E). destruct rf; [|done].
  destruct (_ && _); [|by injection E as <-]. apply outcome_bind_Ret in E as (res & _ & E). destruct res; [|done].
  by injection E as <-.
Qed.

(** A storage with node [id], as the checker sees it, through mutations and
    look-ups; and the same without a cache. *)
Definition holder (id : Z) (t : trackedStorage) : nodeState := mkNodeState id t None None 0 [] [] true.
Fixpoint cached_marks (id : Z) (os : list (option marks_op)) (t : trackedStorage) (i : invariants)
    : outcome (list (result violation durableCache)) :=
  match os with
  | [] => Ret []
  | Some o :: os => '(t, _) ← mutate o t; cached_marks id os t i
  | None :: os =>
      '(r, i) ← durableMarks (Some (holder id t)) id i;
      rs ← cached_marks id os t i;
      Ret (r :: rs)
  end.
Fixpoint fresh_marks (id : Z) (os : list (option marks_op)) (t : trackedStorage)
    : outcome (list (result violation durableCache)) :=
  match os with
  | [] => Ret []
  | Some o :: os => '(t, _) ← mutate o t; fresh_marks id os t
  | None :: os =>
      r ← readMarks t id;
      rs ← fresh_marks id os t;
      Ret (r :: rs)
  end.

Definition coherent (id : Z) (t : trackedStorage) (i : invariants) : Prop :=
  ∀ view, iv_markCache i !! id = Some view →
    dc_generation view ≤ ts_generation t ∧ (dc_generation view = ts_generation t → readMarks t id = Ret (Ok view)).

Lemma refreshMarks_fresh id t i :
  match readMarks t id with
  | Ret r => ∃ i', refreshMarks t id i = Ret (r, i') ∧ (coherent id t i → coherent id t i')
  | Panic w => refreshMarks t id i = Panic w
  end.
Proof.
  unfold refreshMarks, reads, mbind, M_bind. destruct (readMarks t id) as [[view|v]|w] eqn:E; [|by eauto|done].
  eexists. split; [done|]. intros _ view' Hv. simpl in Hv. rewrite lookup_insert_eq in Hv. injection Hv as <-.
  apply readMarks_generation in E as Hg. split; [lia|by intros].
Qed.
Lemma durableMarks_fresh id t i :
  coherent id t i →
  match readMarks t id with
  | Ret r => ∃ i', durableMarks (Some (holder id t)) id i = Ret (r, i') ∧ coherent id t i'
  | Panic w => durableMarks (Some (holder id t)) id i = Panic w
  end.
Proof.
  intros Hc. pose proof (refreshMarks_fresh id t i) as Hr. unfold durableMarks. unfold mbind, M_bind, get.
  change (ns_storage (holder id t)) with t. destruct (iv_markCache i !! id) as [view|] eqn:Ev.
  - destruct (Z.eqb_spec (dc_generation view) (storageGeneration t)) as [Hg|Hg].
    + destruct (Hc view Ev) as [_ Hm]. rewrite (Hm Hg). by eauto.
    + destruct (readMarks t id); [|done]. destruct Hr as (i' & E & Hc'). eauto.
  - destruct (readMarks t id); [|done]. destruct Hr as (i' & E & Hc'). eauto.
Qed.
Lemma coherent_mutate id o t t' e i :
  0 ≤ ts_generation t < u64_mod - 1 → coherent id t i → mutate o t = Ret (t', e) →
  coherent id t' i ∧ 0 ≤ ts_generation t' ≤ ts_generation t + 1.
Proof.
  intros Hg Hc [Hg'| ->]%mutate_generation; [|split; [done|lia]]. rewrite w64_id in Hg' by lia.
  split; [|lia]. intros view Hv. destruct (Hc view Hv) as [? _]. split; lia.
Qed.
Lemma cached_marks_fresh id os t i :
  0 ≤ ts_generation t → ts_generation t + zlen os < u64_mod → coherent id t i →
  cached_marks id os t i = fresh_marks id os t.
Proof.
  revert t i. induction os as [|[o|] os IH]; intros t i Hg Hl Hc; [done|..]; cbn [cached_marks fresh_marks]; rewrite zlen_cons in Hl; pose proof (zlen_nonneg os).
  - destruct (mutate o t) as [[t' e]|] eqn:E; [|done]. simpl.
    destruct (coherent_mutate id o t t' e i) as [Hc' Hg']; [lia|done..|]. apply IH; [lia|lia|done].
  - pose proof (durableMarks_fresh id t i Hc) as Hf. destruct (readMarks t id) as [r|w].
    + destruct Hf as (i' & -> & Hc'). simpl. by rewrite (IH t i') by (done || lia).
    + by rewrite Hf.
Qed.

(** The mark cache is never stale.  Whatever appends, snapshots and hard
    states a node's storage goes through between two looks of the checker,
    rewrites of the same length included, the cached view of its durable log is
    the one a fresh read would return, because every mutation moves the
    generation. *)
Theorem mark_cache_exact id os st peers :
  zlen os < u64_mod →
  cached_marks id os (trackStorage st) (newInvariants peers) = fresh_marks id os (trackStorage st).
Proof. intros Hl. apply cached_marks_fresh; simpl; [lia|lia|]. intros view Hv. simpl in Hv. by rewrite lookup_empty in Hv. Qed.

(** ** What the log-matching check misses *)

(** A stopped node whose durable log is one entry. *)
Definition one_entry (id term : Z) (data : list byte) : nodeState :=
  holder id (trackStorage (mem.mkStorage zeroHardState zeroSnapshot [mkEntry term 1 EntryNormal data])).
Definition conflicting : gmap Z nodeState :=
  <[1 := one_entry 1 1 [x61]]> (<[2 := one_entry 2 2 [x62]]> (<[3 := one_entry 3 1 [x63]]> ∅)).

(** The log-matching check is incomplete.  It keeps one mark per index, the
    one of the highest term: nodes 1 and 3 hold different data at the same
    index and term, but node 2, listed between them with a newer term, hides
    the conflict, and the check passes. *)
Theorem log_matching_check_incomplete :
  (∃ i', checkLogMatching conflicting (newInvariants [1; 2; 3]) = Ret (None, i')) ∧
  mem.entries (ts_stor (ns_storage (one_entry 1 1 [x61]))) = [mkEntry 1 1 EntryNormal [x61]] ∧
  mem.entries (ts_stor (ns_storage (one_entry 3 1 [x63]))) = [mkEntry 1 1 EntryNormal [x63]] ∧
  fnv64 [x61] ≠ fnv64 [x63].
Proof. split; [eexists; by vm_compute|]. split; [done|]. split; [done|by vm_compute]. Qed.

Lemma mark_cache_exact_witness :
  cached_marks 1 [None; Some (MAppend [mkEntry 1 1 EntryNormal [x61]]); None; Some (MAppend [mkEntry 2 1 EntryNormal [x62]]); None]
    (trackStorage mem.New) (newInvariants [1]) =
  fresh_marks 1 [None; Some (MAppend [mkEntry 1 1 EntryNormal [x61]]); None; Some (MAppend [mkEntry 2 1 EntryNormal [x62]]); None]
    (trackStorage mem.New).
Proof. apply mark_cache_exact. by vm_compute. Defined.
