(* ===== verification/Sim.v ===== *)
(** * The deterministic simulator (src/sim/sim.go, loop.go, deliver.go,
      workload.go, gen.go, scenario.go)

    [Simulator] is the Go struct.  Its one random source is shared by the
    network, the workload and all nodes: a call into a node lends it the source
    and takes it back.  A scheduled closure is a value of [action], which
    [perform] runs.  Virtual times and sequence numbers are unbounded integers:
    a run is far shorter than the 292 years an [int64] of nanoseconds holds. *)

From Stdlib Require Import QArith.
From Stdlib Require String.
From S2P Require Import Prelude RaftTypes Storage RaftLog Raft Node KvCodec KvStateMachine.
From S2P Require Import Lin EventQueue GoStrings Trace SimNode SimNet Invariants.
Import (notations) String.

#[local] Open Scope Z_scope.

Definition Millisecond : Z := 1000000.

Record WorkloadConfig : Type := mkWorkloadConfig {
  wc_Clients : Z;
  wc_Keys : Z;
  wc_ThinkMin : Z;
  wc_ThinkMax : Z;
  wc_PutRatio : Q;
  wc_DeleteRatio : Q;
  wc_CasRatio : Q
}.
Record sim_config : Type := mkSimConfig {
  sc_Seed : Z;
  sc_Nodes : Z;
  sc_Election : Z;
  sc_Heartbeat : Z;
  sc_TickEvery : Z;
  sc_SnapshotEntries : Z;
  sc_Net : NetworkConfig;
  sc_Workload : WorkloadConfig
}.

(** [Config.validate] *)
Inductive sim_config_error : Type :=
| NodesPositive | ElectionExceedsHeartbeat | HeartbeatPositive | TickPositive | DropRateRange | DupRateRange | RatioSum.
Definition unit_range (q : Q) : bool := Qle_bool 0 q && Qle_bool q 1.
Definition sim_validate (c : sim_config) : option sim_config_error :=
  if sc_Nodes c <=? 0 then Some NodesPositive else
  if sc_Election c <=? sc_Heartbeat c then Some ElectionExceedsHeartbeat else
  if sc_Heartbeat c <=? 0 then Some HeartbeatPositive else
  if sc_TickEvery c <=? 0 then Some TickPositive else
  if negb (unit_range (nc_DropRate (sc_Net c))) then Some DropRateRange else
  if negb (unit_range (nc_DupRate (sc_Net c))) then Some DupRateRange else
  let w := sc_Workload c in
  if negb (unit_range (wc_PutRatio w + wc_DeleteRatio w + wc_CasRatio w)) then Some RatioSum else None.

Record client : Type := mkClient {
  cl_id : Z;
  cl_seq : Z;
  cl_leaderHint : Z;
  cl_pending : bool;
  cl_cmd : Command;
  cl_histID : Z;
  cl_attempt : Z
}.
Definition zeroCommand : Command := mkCommand 0 0 OpInvalid [] None None.
Definition newClient (id : Z) : client := mkClient id 0 0 false zeroCommand 0 0.

(** The closures of scenario.go: a cycle, and what ends its fault. *)
Inductive fault : Type :=
| PartitionLeaderCycle | PartitionLeaderHeal
| RandomHalfCycle | RandomHalfHeal
| CrashLeaderCycle | CrashLeaderRestart (target : Z)
| MixedPartitionCycle | MixedPartitionHeal
| MixedCrashCycle | MixedCrashRestart (target : Z)
| SnapshotCycle | SnapshotHeal.

(** The closures handed to [schedule]. *)
Inductive action : Type :=
| ATick (id : Z)
| ADeliver (to : Z) (m : Message)
| AClient (c : Z)
| ARetry (c : Z) (seqAtSubmit attemptAtSubmit : Z)
| AFault (f : fault).

Inductive sim_error : Type :=
| EInvariant (now : Z) (v : violation)
| EApplySnapshot (id : Z) (e : errkind)
| EAppendEntries (id : Z) (e : errkind)
| ESetHardState (id : Z) (e : errkind)
| ERestore (id : Z) (e : kv_error)
| EReadSnapshot (id : Z) (e : errkind)
| ECompaction (id : Z) (e : errkind)
| EDecode (id index : Z) (e : kv_error)
| ERestart (id : Z).

(** A client is referred to by its id; it is the element at [id - 1]. *)
Record Simulator : Type := mkSimulator {
  sm_cfg : sim_config;
  sm_rng : Rand;
  sm_now : Z;
  sm_seq : Z;
  sm_queue : list (@event action);
  sm_scenario : list byte;
  sm_peers : list Z;
  sm_nodes : gmap Z nodeState;
  sm_net : network;
  sm_rec : recorder;
  sm_hist : History;
  sm_clients : list client;
  sm_checker : invariants;
  sm_firstErr : option sim_error
}.

Definition put_rng v (s : Simulator) : Simulator := mkSimulator (sm_cfg s) v (sm_now s) (sm_seq s) (sm_queue s) (sm_scenario s) (sm_peers s) (sm_nodes s) (sm_net s) (sm_rec s) (sm_hist s) (sm_clients s) (sm_checker s) (sm_firstErr s).
Definition put_now v (s : Simulator) : Simulator := mkSimulator (sm_cfg s) (sm_rng s) v (sm_seq s) (sm_queue s) (sm_scenario s) (sm_peers s) (sm_nodes s) (sm_net s) (sm_rec s) (sm_hist s) (sm_clients s) (sm_checker s) (sm_firstErr s).
Definition put_seq v (s : Simulator) : Simulator := mkSimulator (sm_cfg s) (sm_rng s) (sm_now s) v (sm_queue s) (sm_scenario s) (sm_peers s) (sm_nodes s) (sm_net s) (sm_rec s) (sm_hist s) (sm_clients s) (sm_checker s) (sm_firstErr s).
Definition put_queue v (s : Simulator) : Simulator := mkSimulator (sm_cfg s) (sm_rng s) (sm_now s) (sm_seq s) v (sm_scenario s) (sm_peers s) (sm_nodes s) (sm_net s) (sm_rec s) (sm_hist s) (sm_clients s) (sm_checker s) (sm_firstErr s).
Definition put_scenario v (s : Simulator) : Simulator := mkSimulator (sm_cfg s) (sm_rng s) (sm_now s) (sm_seq s) (sm_queue s) v (sm_peers s) (sm_nodes s) (sm_net s) (sm_rec s) (sm_hist s) (sm_clients s) (sm_checker s) (sm_firstErr s).
Definition put_nodes v (s : Simulator) : Simulator := mkSimulator (sm_cfg s) (sm_rng s) (sm_now s) (sm_seq s) (sm_queue s) (sm_scenario s) (sm_peers s) v (sm_net s) (sm_rec s) (sm_hist s) (sm_clients s) (sm_checker s) (sm_firstErr s).
Definition put_net v (s : Simulator) : Simulator := mkSimulator (sm_cfg s) (sm_rng s) (sm_now s) (sm_seq s) (sm_queue s) (sm_scenario s) (sm_peers s) (sm_nodes s) v (sm_rec s) (sm_hist s) (sm_clients s) (sm_checker s) (sm_firstErr s).
Definition put_rec v (s : Simulator) : Simulator := mkSimulator (sm_cfg s) (sm_rng s) (sm_now s) (sm_seq s) (sm_queue s) (sm_scenario s) (sm_peers s) (sm_nodes s) (sm_net s) v (sm_hist s) (sm_clients s) (sm_checker s) (sm_firstErr s).
Definition put_hist v (s : Simulator) : Simulator := mkSimulator (sm_cfg s) (sm_rng s) (sm_now s) (sm_seq s) (sm_queue s) (sm_scenario s) (sm_peers s) (sm_nodes s) (sm_net s) (sm_rec s) v (sm_clients s) (sm_checker s) (sm_firstErr s).
Definition put_clients v (s : Simulator) : Simulator := mkSimulator (sm_cfg s) (sm_rng s) (sm_now s) (sm_seq s) (sm_queue s) (sm_scenario s) (sm_peers s) (sm_nodes s) (sm_net s) (sm_rec s) (sm_hist s) v (sm_checker s) (sm_firstErr s).
Definition put_checker v (s : Simulator) : Simulator := mkSimulator (sm_cfg s) (sm_rng s) (sm_now s) (sm_seq s) (sm_queue s) (sm_scenario s) (sm_peers s) (sm_nodes s) (sm_net s) (sm_rec s) (sm_hist s) (sm_clients s) v (sm_firstErr s).
Definition put_firstErr v (s : Simulator) : Simulator := mkSimulator (sm_cfg s) (sm_rng s) (sm_now s) (sm_seq s) (sm_queue s) (sm_scenario s) (sm_peers s) (sm_nodes s) (sm_net s) (sm_rec s) (sm_hist s) (sm_clients s) (sm_checker s) v.

Definition with_disk v (n : nodeState) : nodeState := mkNodeState (ns_id n) v (ns_node n) (ns_sm n) (ns_applied n) (ns_appliedLog n) (ns_pendingReads n) (ns_crashed n).
Definition with_node v (n : nodeState) : nodeState := mkNodeState (ns_id n) (ns_disk n) v (ns_sm n) (ns_applied n) (ns_appliedLog n) (ns_pendingReads n) (ns_crashed n).
Definition with_sm v (n : nodeState) : nodeState := mkNodeState (ns_id n) (ns_disk n) (ns_node n) v (ns_applied n) (ns_appliedLog n) (ns_pendingReads n) (ns_crashed n).
Definition with_applied v (n : nodeState) : nodeState := mkNodeState (ns_id n) (ns_disk n) (ns_node n) (ns_sm n) v (ns_appliedLog n) (ns_pendingReads n) (ns_crashed n).
Definition with_appliedLog v (n : nodeState) : nodeState := mkNodeState (ns_id n) (ns_disk n) (ns_node n) (ns_sm n) (ns_applied n) v (ns_pendingReads n) (ns_crashed n).
Definition with_pendingReads v (n : nodeState) : nodeState := mkNodeState (ns_id n) (ns_disk n) (ns_node n) (ns_sm n) (ns_applied n) (ns_appliedLog n) v (ns_crashed n).
Definition with_crashed v (n : nodeState) : nodeState := mkNodeState (ns_id n) (ns_disk n) (ns_node n) (ns_sm n) (ns_applied n) (ns_appliedLog n) (ns_pendingReads n) v.

Definition upd_seq v (c : client) : client := mkClient (cl_id c) v (cl_leaderHint c) (cl_pending c) (cl_cmd c) (cl_histID c) (cl_attempt c).
Definition upd_leaderHint v (c : client) : client := mkClient (cl_id c) (cl_seq c) v (cl_pending c) (cl_cmd c) (cl_histID c) (cl_attempt c).
Definition upd_pending v (c : client) : client := mkClient (cl_id c) (cl_seq c) (cl_leaderHint c) v (cl_cmd c) (cl_histID c) (cl_attempt c).
Definition upd_cmd v (c : client) : client := mkClient (cl_id c) (cl_seq c) (cl_leaderHint c) (cl_pending c) v (cl_histID c) (cl_attempt c).
Definition upd_histID v (c : client) : client := mkClient (cl_id c) (cl_seq c) (cl_leaderHint c) (cl_pending c) (cl_cmd c) v (cl_attempt c).
Definition upd_attempt v (c : client) : client := mkClient (cl_id c) (cl_seq c) (cl_leaderHint c) (cl_pending c) (cl_cmd c) (cl_histID c) v.

(** ** The shared pieces *)

(** A draw from the run's random source. *)
Definition draw {A} (f : Rand → outcome (A * Rand)) : M Simulator A := λ s,
  '(a, r) ← f (sm_rng s); Ret (a, put_rng r s).
(** [ns := s.nodes[id]], where the source dereferences it. *)
Definition getNode (id : Z) : M Simulator nodeState := λ s,
  match sm_nodes s !! id with Some ns => Ret (ns, s) | None => Panic PanicNil end.
Definition updNode (id : Z) (f : nodeState → nodeState) : M Simulator () :=
  modify (λ s, put_nodes (alter f id (sm_nodes s)) s).
Definition getClient (c : Z) : M Simulator client := λ s,
  x ← index (sm_clients s) (c - 1); Ret (x, s).
Definition updClient (c : Z) (f : client → client) : M Simulator () :=
  modify (λ s, put_clients (alter f (Z.to_nat (c - 1)) (sm_clients s)) s).

(** A call into node [id], with the shared random source. *)
Definition lendRand (r : Rand) (n : Node trackedStorage) : Node trackedStorage :=
  mkNode (set_cfg (set_cRand (Some r) (cfg (n_r n))) (n_r n)) (pendingReady n).
Definition rngOf (r : Rand) (n : Node trackedStorage) : Rand := default r (cRand (cfg (n_r n))).
Definition callNode {A} (id : Z) (c : M (Node trackedStorage) A) : M Simulator A := λ s,
  match sm_nodes s !! id ≫= ns_node with
  | None => Panic PanicNil
  | Some n =>
      '(a, n') ← c (lendRand (sm_rng s) n);
      Ret (a, put_rng (rngOf (sm_rng s) n') (put_nodes (alter (with_node (Some n')) id (sm_nodes s)) s))
  end.
(** A call on the storage that node [id] and the simulator share. *)
Definition putDisk (t : trackedStorage) (ns : nodeState) : nodeState :=
  match ns_node ns with
  | Some n => with_node (Some (mkNode (set_rlog (set_storage t (rlog (n_r n))) (n_r n)) (pendingReady n))) ns
  | None => with_disk t ns
  end.
Definition callDisk {A} (id : Z) (f : trackedStorage → outcome (trackedStorage * A)) : M Simulator A := λ s,
  match sm_nodes s !! id with
  | None => Panic PanicNil
  | Some ns => '(t, a) ← f (ns_storage ns); Ret (a, put_nodes (alter (putDisk t) id (sm_nodes s)) s)
  end.

Definition fail_sim (e : sim_error) : M Simulator () :=
  s ← get; if decide (sm_firstErr s = None) then modify (put_firstErr (Some e)) else mret ().

(** ** loop.go, deliver.go: scheduling *)

Definition nextSeq : M Simulator Z :=
  s ← get; modify (put_seq (sm_seq s + 1));; mret (sm_seq s + 1).
Definition schedule (after : Z) (kind : list byte) (node : Z) (detail : list byte) (a : action) : M Simulator () :=
  n ← nextSeq;
  s ← get;
  q ← reads (λ s, push (mkEvent (sm_now s + after) n kind node detail a) (sm_queue s));
  modify (put_queue q).
(** sim.go: [recordControl] *)
Definition recordControl (kind : list byte) (node : Z) (detail : list byte) : M Simulator () :=
  n ← nextSeq;
  s ← get;
  modify (put_rec (record (mkTraceEvent (sm_now s) n kind node detail) (sm_rec s))).

Definition scheduleTick (id after : Z) : M Simulator () := schedule after ($"tick") id [] (ATick id).
Definition scheduleDeliver (delay from to : Z) (m : Message) : M Simulator () :=
  schedule delay ($"deliver") to (renderMessage m) (ADeliver to m).
Definition sendMessage (from : Z) (m : Message) : M Simulator () :=
  let to := mTo m in
  if to =? from then scheduleDeliver 0 from to m else
  s ← get;
  d ← draw (route (sm_net s) from to m);
  if negb (dl_deliver d) && negb (dl_duplicate d) then recordControl ($"drop") from (renderMessage m) else
  (if dl_deliver d then scheduleDeliver (dl_delay d) from to m
   else recordControl ($"drop") from (renderMessage m));;
  if dl_duplicate d then scheduleDeliver (dl_dupDelay d) from to m else mret ().

(** ** gen.go *)

Definition drawKey : M Simulator (list byte) :=
  s ← get;
  let n := wc_Keys (sc_Workload (sm_cfg s)) in
  if n <=? 1 then mret ($"k0") else
  k ← draw (Intn n); mret ($"k" ++ FormatUint k).
Definition valueFor (c : client) : list byte := $"v-" ++ FormatUint (cl_id c) ++ $"-" ++ FormatUint (cl_seq c).
(** [rng.Float64()] *)
Definition drawFloat : M Simulator Q :=
  k ← draw (Int63n (2 ^ 53)); mret (k # 9007199254740992).
Definition Qltb (a b : Q) : bool := negb (Qle_bool b a).

Definition genCommand (c : client) : M Simulator Command :=
  s ← get;
  let w := sc_Workload (sm_cfg s) in
  key ← drawKey;
  let cmd op value expect := mkCommand (cl_id c) (cl_seq c) op key value expect in
  r ← drawFloat;
  if Qltb r (wc_PutRatio w) then mret (cmd OpPut (Some (valueFor c)) None)
  else if Qltb r (wc_PutRatio w + wc_DeleteRatio w) then mret (cmd OpDelete None None)
  else if Qltb r (wc_PutRatio w + wc_DeleteRatio w + wc_CasRatio w) then
    x ← drawFloat;
    mret (cmd OpCAS (Some (valueFor c)) (if Qltb x (1 # 2) then Some ($"v-" ++ FormatUint (cl_id c)) else None))
  else mret (cmd OpGet None None).

Definition drawThink : M Simulator Z :=
  s ← get;
  let lo := wc_ThinkMin (sc_Workload (sm_cfg s)) in
  let hi := wc_ThinkMax (sc_Workload (sm_cfg s)) in
  if hi <=? lo then mret (if 0 <? lo then lo else sc_TickEvery (sm_cfg s)) else
  d ← draw (Int63n (hi - lo + 1)); mret (lo + d).
Definition retryTimeout (s : Simulator) : Z := sc_Election (sm_cfg s) * 4 * sc_TickEvery (sm_cfg s).

(** ** workload.go: completion *)

Definition scheduleClientOp (c after : Z) : M Simulator () := schedule after ($"client") c [] (AClient c).
Definition finish (c : Z) (res : Result) : M Simulator () :=
  x ← getClient c;
  modify (λ s, put_hist (Complete (cl_histID x) res (sm_now s) (sm_hist s)) s);;
  recordControl ($"return") c (renderResult res);;
  updClient c (upd_pending false);;
  d ← drawThink;
  scheduleClientOp c d.

(** Whether the node is up and leads. *)
Definition leads (ns : nodeState) : bool :=
  match ns_node ns with Some n => bool_decide (Node_State n = StateLeader) | None => false end.

Definition completeIfLeader (id : Z) (cmd : Command) (res : Result) : M Simulator () :=
  ns ← getNode id;
  if negb (leads ns) then mret () else
  s ← get;
  if (cmdClientID cmd =? 0) || (zlen (sm_clients s) <? cmdClientID cmd) then mret () else
  x ← getClient (cmdClientID cmd);
  if negb (cl_pending x) || bool_decide (cmdOp (cl_cmd x) = OpGet) || negb (cl_seq x =? cmdSeq cmd) then mret ()
  else finish (cmdClientID cmd) res.

Definition serveRead (id : Z) (rs : ReadState) : M Simulator () :=
  ns ← getNode id;
  if negb (leads ns) then mret () else
  if negb (zlen (rsRequestCtx rs) =? 16) then mret () else
  let clientID := be_dec (take 8 (rsRequestCtx rs)) in
  let seq := be_dec (drop 8 (rsRequestCtx rs)) in
  s ← get;
  if (clientID =? 0) || (zlen (sm_clients s) <? clientID) then mret () else
  x ← getClient clientID;
  if negb (cl_pending x) || negb (bool_decide (cmdOp (cl_cmd x) = OpGet)) || negb (cl_seq x =? seq) then mret () else
  match ns_sm ns with
  | None => fails PanicNil
  | Some m => finish clientID (Read (cmdKey (cl_cmd x)) m)
  end.

Definition releaseRead (id : Z) (rs : ReadState) : M Simulator () :=
  ns ← getNode id;
  if rsIndex rs <=? ns_applied ns then serveRead id rs
  else updNode id (λ ns, with_pendingReads (ns_pendingReads ns ++ [rs]) ns).

(** The reads that stay. *)
Fixpoint serveLoop (id : Z) (rss : list ReadState) : M Simulator (list ReadState) :=
  match rss with
  | [] => mret []
  | rs :: rss =>
      ns ← getNode id;
      if rsIndex rs <=? ns_applied ns then serveRead id rs;; serveLoop id rss
      else kept ← serveLoop id rss; mret (rs :: kept)
  end.
Definition servePendingReads (id : Z) : M Simulator () :=
  ns ← getNode id;
  if zlen (ns_pendingReads ns) =? 0 then mret () else
  kept ← serveLoop id (ns_pendingReads ns);
  updNode id (with_pendingReads kept).

(** ** loop.go: the drive loop of one node *)

(** A method of the node's state machine, which is there while it is up. *)
Definition callSM {A} (id : Z) (c : M StateMachine A) : M Simulator A := λ s,
  match sm_nodes s !! id ≫= ns_sm with
  | None => Panic PanicNil
  | Some m => '(a, m) ← c m; Ret (a, put_nodes (alter (with_sm (Some m)) id (sm_nodes s)) s)
  end.

Definition applyEntry (id : Z) (e : Entry) : M Simulator () :=
  ns ← getNode id;
  if eIndex e <=? ns_applied ns then mret () else
  updNode id (λ ns, with_appliedLog (ns_appliedLog ns ++ [mkAppliedRec (eIndex e) (eTerm e) (fnv64 (eData e))])
                      (with_applied (eIndex e) ns));;
  if bool_decide (eType e = EntryNormal) && (0 <? zlen (eData e)) then
    r ← reads (λ _, DecodeCommand (eData e));
    match r with
    | Err err => fail_sim (EDecode id (eIndex e) err)
    | Ok cmd =>
        res ← callSM id (Apply cmd);
        completeIfLeader id cmd res;;
        servePendingReads id
    end
  else servePendingReads id.

Definition maybeCompact (id : Z) : M Simulator () :=
  s ← get;
  ns ← getNode id;
  match ns_sm ns with
  | None => mret ()
  | Some m =>
      if (sc_SnapshotEntries (sm_cfg s) =? 0) || ns_crashed ns then mret () else
      sn ← reads (λ _, SnapshotOf (ns_storage ns));
      match sn with
      | Err e => fail_sim (EReadSnapshot id e)
      | Ok sn =>
          let base := snIndex sn in
          if (ns_applied ns <=? base) || (ns_applied ns -w base <? sc_SnapshotEntries (sm_cfg s)) then mret () else
          t ← reads (λ _, TermOf (ns_applied ns) (ns_storage ns));
          match t with
          | Err _ => mret ()
          | Ok term =>
              let data := Snapshot (map_to_list (sessions m)).*1 (map_to_list (data m)).*1 m in
              e ← callDisk id (ApplySnapshot (mkSnapshot (mkSnapshotMetadata (ns_applied ns) term) data));
              match e with
              | Some ErrCompacted | None =>
                  recordControl ($"compact") id ($"index=" ++ FormatUint (ns_applied ns) ++ $" term=" ++ FormatUint term)
              | Some e => fail_sim (ECompaction id e)
              end
          end
      end
  end.

(** Continues unless the call failed. *)
Definition or_fail (c : M Simulator (option sim_error)) (k : M Simulator bool) : M Simulator bool :=
  e ← c; match e with Some e => fail_sim e;; mret false | None => k end.
(** One batch; [false] when [drain] is to return. *)
Definition drainBatch (id : Z) : M Simulator bool :=
  rd ← callNode id Node_Ready;
  or_fail (match rdSnapshot rd with
           | Some sn => e ← callDisk id (ApplySnapshot sn); mret (EApplySnapshot id <$> e)
           | None => mret None
           end) (
  or_fail (if 0 <? zlen (rdEntries rd) then e ← callDisk id (AppendEntries (rdEntries rd)); mret (EAppendEntries id <$> e)
           else mret None) (
  or_fail (match rdHardState rd with
           | Some hs => e ← callDisk id (SetHardState hs); mret (ESetHardState id <$> e)
           | None => mret None
           end) (
  forM (rdMessages rd) (sendMessage id);;
  or_fail (match rdSnapshot rd with
           | Some sn =>
               e ← (if 0 <? zlen (snData sn) then callSM id (Restore (snData sn)) else mret None);
               match e with
               | Some e => mret (Some (ERestore id e))
               | None =>
                   updNode id (λ ns, if ns_applied ns <? snIndex sn then with_applied (snIndex sn) ns else ns);; mret None
               end
           | None => mret None
           end) (
  forM (rdCommittedEntries rd) (applyEntry id);;
  forM (rdReadStates rd) (releaseRead id);;
  callNode id Advance;;
  maybeCompact id;;
  mret true)))).
Fixpoint drainLoop (fuel : nat) (id : Z) : M Simulator () :=
  match fuel with
  | O => fails OutOfFuel
  | Datatypes.S fuel =>
      ns ← getNode id;
      match ns_node ns with
      | None => fails PanicNil
      | Some n =>
          b ← reads (λ _, HasReady n);
          if (b : bool) then go ← drainBatch id; if (go : bool) then drainLoop fuel id else mret () else mret ()
      end
  end.
(** A batch leaves nothing for another one (see [ServerSpec.drain_settles] for the
    server's loop), so three rounds are ample; running past them is a panic of
    its own. *)
Definition drain (id : Z) : M Simulator () :=
  ns ← getNode id;
  match live ns with
  | None => mret ()
  | Some _ => drainLoop 3 id
  end.

(** [step]; the error of [Step] is ignored. *)
Definition sim_step (id : Z) (m : Message) : M Simulator () :=
  ns ← getNode id;
  match live ns with
  | None => mret ()
  | Some _ => callNode id (Node_Step m);; drain id
  end.

(** [startNode]: the new volatile half, or [None] when it cannot be built. *)
Definition startNode (id : Z) : M Simulator bool :=
  s ← get;
  ns ← getNode id;
  let rc := mkConfig id (sm_peers s) (sc_Election (sm_cfg s)) (sc_Heartbeat (sm_cfg s)) 0 true (Some (sm_rng s)) in
  rn ← reads (λ _, NewNode rc (ns_storage ns));
  match rn with
  | Err _ => mret false
  | Ok n =>
      modify (put_rng (rngOf (sm_rng s) n));;
      updNode id (λ ns, with_appliedLog [] (with_applied 0 (with_sm (Some NewStateMachine) (with_node (Some n) ns))));;
      rsn ← reads (λ _, SnapshotOf (ns_storage ns));
      match rsn with
      | Ok sn =>
          if 0 <? snIndex sn then
            e ← (if 0 <? zlen (snData sn) then callSM id (Restore (snData sn)) else mret None);
            match e with
            | Some _ => mret false
            | None => updNode id (with_applied (snIndex sn));; mret true
            end
          else mret true
      | Err _ => mret true
      end
  end.

(** ** workload.go: submission *)

Definition candidateOrder (c : client) (peers : list Z) : list Z :=
  (if cl_leaderHint c =? 0 then [] else [cl_leaderHint c]) ++ filter (λ id, id ≠ cl_leaderHint c) peers.

(** The loop over the candidates with the message [m]. *)
Fixpoint tryNodes (c : Z) (m : Message) (ids : list Z) : M Simulator () :=
  match ids with
  | [] => mret ()
  | id :: ids =>
      s ← get;
      match sm_nodes s !! id ≫= live with
      | None => tryNodes c m ids
      | Some _ =>
          e ← callNode id (Node_Step m);
          match e with
          | None => updClient c (upd_leaderHint id);; drain id
          | Some _ =>
              ns ← getNode id;
              (match Node_Leader <$> ns_node ns with
               | Some lh => if lh =? 0 then mret () else updClient c (upd_leaderHint lh)
               | None => mret ()
               end);;
              tryNodes c m ids
          end
      end
  end.
Definition submitWrite (c : Z) : M Simulator () :=
  s ← get;
  x ← getClient c;
  tryNodes c (set_mEntries [mkEntry 0 0 EntryNormal (EncodeCommand (cl_cmd x))] (Msg MsgPropose 0))
    (candidateOrder x (sm_peers s)).
Definition submitRead (c : Z) : M Simulator () :=
  s ← get;
  x ← getClient c;
  tryNodes c (set_mContext (be_enc 8 (cl_id x) ++ be_enc 8 (cl_seq x)) (Msg MsgReadIndex 0))
    (candidateOrder x (sm_peers s)).
Definition submit (c : Z) : M Simulator () :=
  updClient c (λ x, upd_attempt (cl_attempt x + 1) x);;
  x ← getClient c;
  (if bool_decide (cmdOp (cl_cmd x) = OpGet) then submitRead c else submitWrite c);;
  x ← getClient c;
  s ← get;
  schedule (retryTimeout s) ($"client-retry") c [] (ARetry c (cl_seq x) (cl_attempt x)).
Definition issue (c : Z) : M Simulator () :=
  x ← getClient c;
  if cl_pending x then mret () else
  updClient c (λ x, upd_attempt 0 (upd_seq (cl_seq x + 1) x));;
  x ← getClient c;
  cmd ← genCommand x;
  s ← get;
  let '(h, hist) := Invoke (cl_id x) cmd (sm_now s) (sm_hist s) in
  modify (put_hist hist);;
  updClient c (λ x, upd_pending true (upd_histID h (upd_cmd cmd x)));;
  recordControl ($"invoke") (cl_id x) (renderCommand cmd);;
  submit c.

(** ** sim.go: faults *)

Definition Partition (groups : list (list Z)) : M Simulator () :=
  modify (λ s, put_net (setPartition groups (sm_net s)) s);;
  recordControl ($"partition") 0 (renderGroups groups).
Definition Heal : M Simulator () :=
  modify (λ s, put_net (heal (sm_net s)) s);;
  recordControl ($"heal") 0 [].
Definition Crash (id : Z) : M Simulator () :=
  s ← get;
  match sm_nodes s !! id with
  | None => mret ()
  | Some ns =>
      if ns_crashed ns then mret () else
      updNode id (λ ns, with_appliedLog [] (with_applied 0 (with_sm None (with_node None
                          (with_disk (ns_storage ns) (with_crashed true ns))))));;
      recordControl ($"crash") id []
  end.
Definition Restart (id : Z) : M Simulator () :=
  s ← get;
  match sm_nodes s !! id with
  | None => mret ()
  | Some ns =>
      if negb (ns_crashed ns) then mret () else
      updNode id (with_crashed false);;
      ok ← startNode id;
      if negb ok then modify (put_firstErr (Some (ERestart id))) else
      recordControl ($"restart") id [];;
      s ← get;
      scheduleTick id (sc_TickEvery (sm_cfg s));;
      drain id
  end.

(** ** scenario.go *)

Definition drawDur (lo hi : Z) : M Simulator Z :=
  if hi <=? lo then mret lo else d ← draw (Int63n (hi - lo + 1)); mret (lo + d).
Definition scheduleFault (after : Z) (f : fault) : M Simulator () := schedule after [] 0 [] (AFault f).
(** [s.scheduleFault(s.drawDur(lo, hi), f)] *)
Definition faultIn (lo hi : Z) (f : fault) : M Simulator () :=
  d ← drawDur (lo * Millisecond) (hi * Millisecond); scheduleFault d f.

Definition liveIds (s : Simulator) : list Z := filter (λ id, is_Some (sm_nodes s !! id ≫= live)) (sm_peers s).
Definition liveLeader (s : Simulator) : Z :=
  default 0 (head (filter (λ id, Node_State <$> (sm_nodes s !! id ≫= live) = Some StateLeader) (sm_peers s))).
Definition aLiveFollower (s : Simulator) : Z :=
  default 0 (head (filter (λ id, id ≠ liveLeader s) (liveIds s))).
Definition sim_quorum (s : Simulator) : Z := zlen (sm_peers s) / 2 + 1.

(** [rng.Perm(n)] of math/rand. *)
Fixpoint permLoop (k : nat) (i : Z) (m : list Z) (r : Rand) : outcome (list Z * Rand) :=
  match k with
  | O => Ret (m, r)
  | Datatypes.S k =>
      '(j, r) ← Intn (i + 1) r;
      let x := nth (Z.to_nat j) (m ++ [0]) 0 in
      permLoop k (i + 1) (<[Z.to_nat j := i]> (m ++ [x])) r
  end.
Definition Perm (n : Z) (r : Rand) : outcome (list Z * Rand) := permLoop (Z.to_nat n) 0 [] r.

(** The peers but [id], as a partition's second side. *)
Definition others (id : Z) (s : Simulator) : list Z := filter (λ p, p ≠ id) (sm_peers s).

(** A cycle that isolates [victim] (0: none to isolate, try again later). *)
Definition isolate (victim : Z) (again : fault) (holdLo holdHi : Z) (after : fault) : M Simulator () :=
  if victim =? 0 then faultIn 100 300 again else
  s ← get;
  Partition [[victim]; others victim s];;
  faultIn holdLo holdHi after.
(** A cycle that crashes the leader. *)
Definition crashLeader (again : fault) (after : Z → fault) : M Simulator () :=
  s ← get;
  let target := liveLeader s in
  if target =? 0 then faultIn 100 300 again else
  Crash target;;
  faultIn 300 700 (after target).
Definition randomHalf : M Simulator () :=
  s ← get;
  if zlen (liveIds s) <? 2 then faultIn 100 300 RandomHalfCycle else
  let maxIso := Z.max 1 (sim_quorum s - 1) in
  k ← draw (Intn maxIso);
  perm ← draw (Perm (zlen (sm_peers s)));
  let k := 1 + k in
  picked ← reads (λ _, slice_to perm k);
  iso ← reads (λ _, foldr (λ i acc, p ← index (sm_peers s) i; ps ← acc; Ret (p :: ps)) (Ret []) picked);
  let iso := merge_sort Z.le iso in
  Partition [iso; filter (λ id, id ∉ iso) (sm_peers s)];;
  faultIn 400 900 RandomHalfHeal.

(** The cycles. *)
Definition partitionLeaderCycle : M Simulator () :=
  s ← get; isolate (liveLeader s) PartitionLeaderCycle 400 900 PartitionLeaderHeal.
Definition crashLeaderCycle : M Simulator () := crashLeader CrashLeaderCycle CrashLeaderRestart.
Definition mixedPartitionCycle : M Simulator () :=
  s ← get; isolate (liveLeader s) MixedPartitionCycle 300 700 MixedPartitionHeal.
Definition mixedCrashCycle : M Simulator () := crashLeader MixedCrashCycle MixedCrashRestart.
Definition snapshotCycle : M Simulator () :=
  s ← get; isolate (aLiveFollower s) SnapshotCycle 1500 2500 SnapshotHeal.

Definition runFault (f : fault) : M Simulator () :=
  match f with
  | PartitionLeaderCycle => partitionLeaderCycle
  | PartitionLeaderHeal => Heal;; faultIn 300 700 PartitionLeaderCycle
  | RandomHalfCycle => randomHalf
  | RandomHalfHeal => Heal;; faultIn 300 700 RandomHalfCycle
  | CrashLeaderCycle => crashLeaderCycle
  | CrashLeaderRestart t => Restart t;; faultIn 300 700 CrashLeaderCycle
  | MixedPartitionCycle => mixedPartitionCycle
  | MixedPartitionHeal => Heal;; faultIn 300 600 MixedCrashCycle
  | MixedCrashCycle => mixedCrashCycle
  | MixedCrashRestart t => Restart t;; faultIn 300 600 MixedPartitionCycle
  | SnapshotCycle => snapshotCycle
  | SnapshotHeal => Heal;; faultIn 500 1000 SnapshotCycle
  end.

(** ** sim.go: the event loop *)

(** The closures. *)
Definition perform (a : action) : M Simulator () :=
  match a with
  | ATick id =>
      s ← get;
      match sm_nodes s !! id ≫= live with
      | None => mret ()
      | Some _ => callNode id Node_Tick;; drain id;; scheduleTick id (sc_TickEvery (sm_cfg s))
      end
  | ADeliver to m =>
      s ← get;
      match sm_nodes s !! to ≫= live with
      | None => mret ()
      | Some _ => sim_step to m
      end
  | AClient c => issue c
  | ARetry c seq attempt =>
      x ← getClient c;
      if cl_pending x && (cl_seq x =? seq) && (cl_attempt x =? attempt) then submit c else mret ()
  | AFault f => runFault f
  end.

Definition checkStep : M Simulator () :=
  s ← get;
  if decide (sm_firstErr s = None) then
    '(e, i) ← reads (λ s, check (sm_nodes s) (sm_checker s));
    modify (put_checker i);;
    match e with
    | Some v => modify (put_firstErr (Some (EInvariant (sm_now s) v)))
    | None => mret ()
    end
  else mret ().

(** What [Step] does once the clock is set: trace, run and check. *)
Definition dispatch (e : @event action) : M Simulator () :=
  (if negb (bool_decide (ev_detail e = [])) || negb (bool_decide (ev_kind e = [])) then
     modify (λ s, put_rec (record (mkTraceEvent (ev_at e) (ev_seq e) (ev_kind e) (ev_node e) (ev_detail e)) (sm_rec s)) s)
   else mret ());;
  perform (ev_action e);;
  checkStep.

(** [Step] *)
Definition StepSim : M Simulator bool :=
  '(e, q) ← reads (λ s, pop (sm_queue s));
  modify (put_queue q);;
  match e with
  | None => mret false
  | Some e =>
      modify (put_now (ev_at e));;
      dispatch e;;
      mret true
  end.

(** [RunUntil], on the number of steps allowed. *)
Fixpoint RunUntil (fuel : nat) (t : Z) : M Simulator (option sim_error) :=
  s ← get;
  match sm_firstErr s, peek (sm_queue s) with
  | Some e, _ => mret (Some e)
  | None, None => mret None
  | None, Some next =>
      if t <? ev_at next then mret None else
      match fuel with
      | O => fails OutOfFuel
      | Datatypes.S fuel => StepSim;; RunUntil fuel t
      end
  end.

(** ** Construction *)

(** [startWorkload] from client [id] on. *)
Fixpoint startClients (n : nat) (id : Z) : M Simulator () :=
  match n with
  | O => mret ()
  | Datatypes.S n =>
      modify (λ s, put_clients (sm_clients s ++ [newClient id]) s);;
      d ← drawThink;
      scheduleClientOp id d;;
      startClients n (id + 1)
  end.
Fixpoint startNodes (ids : list Z) : M Simulator bool :=
  match ids with
  | [] => mret true
  | id :: ids =>
      modify (λ s, put_nodes (<[id := mkNodeState id (trackStorage mem.New) None None 0 [] [] false]> (sm_nodes s)) s);;
      ok ← startNode id;
      if (ok : bool) then startNodes ids else mret false
  end.
(** [New]; [rng] is the source seeded with the config's seed. *)
Definition NewSim (c : sim_config) (rng : Rand) : outcome (result (option sim_config_error) Simulator) :=
  match sim_validate c with
  | Some e => Ret (Err (Some e))
  | None =>
      let peers := seqZ 1 (sc_Nodes c) in
      let s := mkSimulator c rng 0 0 [] [] peers ∅ (newNetwork (sc_Net c)) newRecorder NewHistory [] (newInvariants peers) None in
      '(ok, s) ← startNodes peers s;
      if negb ok then Ret (Err None) else
      '(_, s) ← forM peers (λ id, scheduleTick id (sc_TickEvery c)) s;
      '(_, s) ← startClients (Z.to_nat (wc_Clients (sc_Workload c))) 1 s;
      Ret (Ok s)
  end.

Definition ScenarioBaseConfig (seed : Z) : sim_config :=
  mkSimConfig seed 3 10 1 (10 * Millisecond) 0
    (mkNetworkConfig (1 * Millisecond) (5 * Millisecond) (1 # 50) (1 # 50))
    (mkWorkloadConfig 6 4 (1 * Millisecond) (15 * Millisecond) (1 # 2) (1 # 10) (1 # 5)).

(** The registry: what a scenario changes of the base config, and the fault
    that [arm] schedules. *)
Definition scenario_net (c : sim_config) (n : NetworkConfig) : sim_config :=
  mkSimConfig (sc_Seed c) (sc_Nodes c) (sc_Election c) (sc_Heartbeat c) (sc_TickEvery c) (sc_SnapshotEntries c) n (sc_Workload c).
Definition scenarios : list (list byte * (sim_config → sim_config) * option fault) :=
  [ ($"partition-leader", λ c, c, Some PartitionLeaderCycle);
    ($"partition-random-half", λ c, c, Some RandomHalfCycle);
    ($"crash-leader-loop", λ c, c, Some CrashLeaderCycle);
    ($"30pct-loss", λ c, scenario_net c (mkNetworkConfig (nc_DelayMin (sc_Net c)) (nc_DelayMax (sc_Net c)) (3 # 10) (1 # 50)), None);
    ($"dup+delay", λ c, scenario_net c (mkNetworkConfig (1 * Millisecond) (30 * Millisecond) (1 # 50) (3 # 10)), None);
    ($"mixed-chaos", λ c, scenario_net c (mkNetworkConfig (1 * Millisecond) (20 * Millisecond) (1 # 10) (1 # 10)), Some MixedPartitionCycle);
    ($"snapshot-under-partition", λ c, mkSimConfig (sc_Seed c) (sc_Nodes c) (sc_Election c) (sc_Heartbeat c) (sc_TickEvery c) 16 (sc_Net c) (sc_Workload c),
       Some SnapshotCycle) ].
Definition NewScenario (name : list byte) (seed : Z) (rng : Rand) : outcome (result (option sim_config_error) Simulator) :=
  match list_find (λ sc, sc.1.1 = name) scenarios with
  | None => Ret (Err None)
  | Some (_, (_, config, arm)) =>
      r ← NewSim (config (ScenarioBaseConfig seed)) rng;
      match r with
      | Err e => Ret (Err e)
      | Ok s =>
          let s := put_scenario name s in
          match arm with
          | None => Ret (Ok s)
          | Some f => '(_, s) ← faultIn 300 700 f s; Ret (Ok s)
          end
      end
  end.

(** ** sim.go: verdicts *)

(** [withReplay]: an error with what is needed to run it again, the scenario's
    name (empty outside a scenario) and the seed. *)
Record replayable (E : Type) : Type := mkReplayable {
  ry_error : E;
  ry_scenario : list byte;
  ry_seed : Z
}.
Arguments mkReplayable {E}.
Arguments ry_error {E}.
Arguments ry_scenario {E}.
Arguments ry_seed {E}.
Definition withReplay {E} (e : E) (s : Simulator) : replayable E := mkReplayable e (sm_scenario s) (sc_Seed (sm_cfg s)).
Inductive lin_error : Type :=
| LinViolated
| LinInconclusive.
Definition linearizabilityVerdictError (r : CheckResult) (s : Simulator) : option (replayable lin_error) :=
  match r with
  | LinOk => None
  | LinIllegal => Some (withReplay LinViolated s)
  | LinUnknown => Some (withReplay LinInconclusive s)
  end.
(** The search is an argument, as in [CheckHistory]. *)
Definition CheckLinearizability (porcupine : list (list pOperation) → CheckResult) (s : Simulator) : option (replayable lin_error) :=
  linearizabilityVerdictError (CheckHistory porcupine (sm_hist s)) s.
