(* ===== verification/SimSpec.v ===== *)
(** * The simulator's timeline and its clients

    Every closure the simulator runs keeps [sim_inv]: the queue is a heap of
    events not earlier than the clock, and every client has at most one
    operation in flight, recorded in the history.  So events fire in the order
    of time, virtual time never runs backwards, and the operations of one
    client never overlap. *)

From Stdlib Require Import QArith.
From Stdlib Require String.
From S2P Require Import Prelude RaftTypes Storage RaftLog Raft Node KvCodec KvStateMachine.
From S2P Require Import Lin EventQueue GoStrings Trace SimNode SimNet Invariants Sim.
Import (notations) String.

#[local] Open Scope Z_scope.

Implicit Types s : Simulator.

(** ** The invariant *)

(** No delay is negative; there is no message hook. *)
Record timing (c : sim_config) (n : network) : Prop := mkTiming {
  tm_tick : 0 < sc_TickEvery c;
  tm_election : 0 < sc_Election c;
  tm_think : 0 ≤ wc_ThinkMin (sc_Workload c);
  tm_delay : 0 ≤ nc_DelayMin (nt_cfg n);
  tm_hook : nt_hook n = None
}.

(** An operation of the history, completed or pending, and the state of its
    client when it was invoked. *)
Definition after_all (t : Z) (id seq : Z) (ops : list Operation) : Prop :=
  ∀ o, o ∈ ops → op_ClientID o = id → op_Return o ≤ t ∧ cmdSeq (op_Input o) < seq.
(** The completed operations, latest first. *)
Fixpoint sequential (ops : list Operation) : Prop :=
  match ops with
  | [] => True
  | o :: ops => after_all (op_Call o) (op_ClientID o) (cmdSeq (op_Input o)) ops ∧ sequential ops
  end.

(** Client [x] and the history. *)
Record client_ok (h : History) (now : Z) (k : nat) (x : client) : Prop := mkClientOk {
  co_id : cl_id x = Z.of_nat k + 1;
  co_done : after_all now (cl_id x) (cl_seq x + 1) (h_ops h);
  co_pending : if cl_pending x
    then ∃ o, h_pending h !! cl_histID x = Some o ∧ op_ClientID o = cl_id x ∧ op_Input o = cl_cmd x ∧
      cmdSeq (cl_cmd x) = cl_seq x ∧ op_Call o ≤ now ∧ after_all (op_Call o) (cl_id x) (cl_seq x) (h_ops h)
    else True
}.
(** Only operations the state machine has are recorded. *)
Definition valid_input (o : Operation) : Prop := valid_op (cmdOp (op_Input o)) = true.
Definition valid_history (h : History) : Prop := Forall valid_input (h_ops h) ∧ map_Forall (λ _, valid_input) (h_pending h).
Record sim_inv s : Prop := mkSimInv {
  si_timing : timing (sm_cfg s) (sm_net s);
  si_queue : ∃ l, queue_rep (sm_queue s) l ∧ Forall (λ e, sm_now s ≤ ev_at e ∧ ev_seq e ≤ sm_seq s) l;
  si_clients : ∀ k x, sm_clients s !! k = Some x → client_ok (sm_hist s) (sm_now s) k x;
  si_fresh : ∀ h o, h_pending (sm_hist s) !! h = Some o → h < h_nextID (sm_hist s) ∧
    ∃ k x, sm_clients s !! k = Some x ∧ cl_pending x = true ∧ cl_histID x = h ∧ op_ClientID o = cl_id x;
  si_ops : sequential (reverse (h_ops (sm_hist s)));
  si_valid : valid_history (sm_hist s)
}.

(** ** Computations that keep it *)

(** [c] keeps the invariant, the clock and the config, and yields [P]. *)
Definition yields {A} (P : A → Prop) (c : M Simulator A) : Prop :=
  ∀ s, sim_inv s → wp True c (λ a s', P a ∧ sim_inv s' ∧ sm_now s' = sm_now s ∧ sm_cfg s' = sm_cfg s) s.
Definition keeps {A} (c : M Simulator A) : Prop := yields (λ _, True) c.

Lemma yields_bind {A B} (P : A → Prop) (Q : B → Prop) (c : M Simulator A) k :
  yields P c → (∀ a, P a → yields Q (k a)) → yields Q (c ≫= k).
Proof.
  intros Hc Hk s Hs. apply wp_bind. eapply wp_mono; [by apply Hc|]. intros a s1 (Ha & Hs1 & En & Ec).
  eapply wp_mono; [by apply Hk|]. intros b s2 (Hb & Hs2 & En2 & Ec2). split_and!; [done..| |]; congruence.
Qed.
Lemma keeps_bind {A B} (c : M Simulator A) (k : A → M Simulator B) : keeps c → (∀ a, keeps (k a)) → keeps (c ≫= k).
Proof. intros Hc Hk. eapply yields_bind; [done|]. intros a _. apply Hk. Qed.
Lemma keeps_bindP {A B} (P : A → Prop) (c : M Simulator A) (k : A → M Simulator B) :
  yields P c → (∀ a, P a → keeps (k a)) → keeps (c ≫= k).
Proof. apply yields_bind. Qed.
Lemma keeps_get {A} (k : Simulator → M Simulator A) : (∀ s, sim_inv s → keeps (k s)) → keeps (get ≫= k).
Proof. intros Hk s Hs. apply wp_bind, wp_get. by apply Hk. Qed.
Lemma yields_ret {A} (P : A → Prop) a : P a → yields P (mret a).
Proof. intros Ha s Hs. by apply wp_ret. Qed.
Lemma keeps_ret {A} (a : A) : keeps (mret a).
Proof. by apply yields_ret. Qed.
Lemma keeps_fails {A} w : keeps (A := A) (fails w).
Proof. by intros s Hs. Qed.
Lemma keeps_reads {A} (f : Simulator → outcome A) : keeps (reads f).
Proof. intros s Hs. apply wp_reads. by destruct (f s). Qed.
Lemma keeps_when b c : keeps c → keeps (when b c).
Proof. intros Hc. destruct b; [done|apply keeps_ret]. Qed.
Lemma keeps_forM {A} (l : list A) f : (∀ x, keeps (f x)) → keeps (forM l f).
Proof. intros Hf. induction l as [|x l IH]; [apply keeps_ret|]. by apply keeps_bind. Qed.
(** Changes to what the invariant does not mention. *)
Definition outside (f : Simulator → Simulator) : Prop :=
  ∀ s, sm_cfg (f s) = sm_cfg s ∧ sm_now (f s) = sm_now s ∧ sm_seq (f s) = sm_seq s ∧ sm_queue (f s) = sm_queue s ∧
    nt_cfg (sm_net (f s)) = nt_cfg (sm_net s) ∧ nt_hook (sm_net (f s)) = nt_hook (sm_net s) ∧
    sm_hist (f s) = sm_hist s ∧ sm_clients (f s) = sm_clients s.
Lemma outside_inv f s : outside f → sim_inv s → sim_inv (f s) ∧ sm_now (f s) = sm_now s ∧ sm_cfg (f s) = sm_cfg s.
Proof.
  intros Hf [[] H2 H3 H4 H5]. destruct (Hf s) as (Ec & En & Es & Eq & E1 & E2 & Eh & El). split_and!; [|done..].
  split; rewrite ?Ec, ?En, ?Es, ?Eq, ?Eh, ?El; try done. split; rewrite ?E1, ?E2; done.
Qed.
Lemma keeps_modify f : outside f → keeps (modify f).
Proof. intros Hf s Hs. apply wp_modify. split; [done|]. by apply outside_inv. Qed.
Lemma keeps_getNode id : keeps (getNode id).
Proof. intros s Hs. unfold wp, getNode. by destruct (sm_nodes s !! id). Qed.
Lemma keeps_getClient c : keeps (getClient c).
Proof. intros s Hs. unfold wp, getClient. by destruct (index (sm_clients s) (c - 1)). Qed.
Lemma keeps_callNode {A} id (c : M (Node trackedStorage) A) : keeps (callNode id c).
Proof.
  intros s Hs. unfold wp, callNode. destruct (_ ≫= ns_node) as [n|]; [|done].
  destruct (c (lendRand (sm_rng s) n)) as [[a n']|]; [|done]. simpl. split; [done|].
  by apply (outside_inv (λ s, put_rng (rngOf (sm_rng s) n') (put_nodes (alter (with_node (Some n')) id (sm_nodes s)) s)) s).
Qed.
Lemma keeps_callDisk {A} id (f : trackedStorage → outcome (trackedStorage * A)) : keeps (callDisk id f).
Proof.
  intros s Hs. unfold wp, callDisk. destruct (sm_nodes s !! id) as [ns|]; [|done].
  destruct (f (ns_storage ns)) as [[t a]|]; [|done]. simpl. split; [done|].
  by apply (outside_inv (λ s, put_nodes (alter (putDisk t) id (sm_nodes s)) s) s).
Qed.
Lemma keeps_callSM {A} id (c : M StateMachine A) : keeps (callSM id c).
Proof.
  intros s Hs. unfold wp, callSM. destruct (_ ≫= ns_sm) as [m|]; [|done]. destruct (c m) as [[a m']|]; [|done].
  simpl. split; [done|]. by apply (outside_inv (λ s, put_nodes (alter (with_sm (Some m')) id (sm_nodes s)) s) s).
Qed.
Lemma keeps_draw {A} (f : Rand → outcome (A * Rand)) : keeps (draw f).
Proof.
  intros s Hs. unfold wp, draw. destruct (f (sm_rng s)) as [[a r]|]; [|done]. simpl. split; [done|].
  by apply (outside_inv (put_rng r) s).
Qed.
Lemma yields_draw {A} (P : A → Prop) (f : Rand → outcome (A * Rand)) :
  (∀ r a r', f r = Ret (a, r') → P a) → yields P (draw f).
Proof.
  intros Hf s Hs. unfold wp, draw. destruct (f (sm_rng s)) as [[a r]|] eqn:E; [|done]. simpl. split; [by eapply Hf|].
  by apply (outside_inv (put_rng r) s).
Qed.
Create HintDb timed.
#[local] Hint Resolve keeps_ret keeps_fails keeps_reads keeps_when keeps_forM keeps_getNode keeps_getClient
  keeps_callNode keeps_callDisk keeps_callSM keeps_draw : timed.

(** ** Scheduling *)

Lemma keeps_nextSeq : keeps nextSeq.
Proof.
  intros s [H1 (l & Hl & Hb) H3 H4 H5]. unfold nextSeq. apply wp_bind, wp_get, wp_bind, wp_modify, wp_ret.
  split_and!; [done| |done..]. split; try done. exists l. split; [done|]. eapply Forall_impl; [exact Hb|]. simpl. lia.
Qed.
Lemma keeps_schedule after kind node detail a : 0 ≤ after → keeps (schedule after kind node detail a).
Proof.
  intros Ha s [H1 (l & Hl & Hb) H3 H4 H5]. unfold schedule, nextSeq.
  apply wp_bind, wp_bind, wp_get, wp_bind, wp_modify, wp_ret, wp_bind, wp_get, wp_bind.
  set (e := mkEvent (sm_now s + after) (sm_seq s + 1) kind node detail a).
  destruct (push_rep e (sm_queue s) l Hl) as (q & Hq & Hrep).
  { intros (x & Ex & Hx)%list_elem_of_fmap. rewrite Forall_forall in Hb. destruct (Hb x Hx) as [_ Hs].
    unfold ev_key in Ex. simpl in Ex. injection Ex as _ Ex. lia. }
  eapply wp_reads_ret; [exact Hq|]. apply wp_modify. split_and!; [done| |done..]. split; try done.
  exists (ref_push e l). split; [done|]. simpl. rewrite ref_push_perm. constructor; [simpl; lia|].
  eapply Forall_impl; [exact Hb|]. simpl. lia.
Qed.
Lemma keeps_recordControl kind node detail : keeps (recordControl kind node detail).
Proof. apply keeps_bind; [apply keeps_nextSeq|]. intros n. apply keeps_get. intros s _. by apply keeps_modify. Qed.
Lemma keeps_fail e : keeps (fail_sim e).
Proof. apply keeps_get. intros s _. case_decide; [by apply keeps_modify|apply keeps_ret]. Qed.
Lemma keeps_updNode id f : keeps (updNode id f).
Proof. by apply keeps_modify. Qed.
#[local] Hint Resolve keeps_recordControl keeps_fail keeps_updNode : timed.

(** Closes [keeps] of a sequence of steps that do. *)
Ltac timed :=
  repeat first
    [ match goal with |- ∀ _, _ => intro end
    | solve [auto with timed]
    | match goal with
      | |- keeps (get ≫= _) => apply keeps_get
      | |- keeps (_ ≫= _) => apply keeps_bind
      end
    | match goal with
      | |- keeps (match ?x with _ => _ end) => destruct x
      end ].

Lemma scheduleTick_keeps id after : 0 ≤ after → keeps (scheduleTick id after).
Proof. apply keeps_schedule. Qed.
Lemma scheduleDeliver_keeps d from to m : 0 ≤ d → keeps (scheduleDeliver d from to m).
Proof. apply keeps_schedule. Qed.
#[local] Hint Resolve scheduleTick_keeps scheduleDeliver_keeps : timed.
(** A routed message's delays. *)
Lemma route_delays n from to m r d r' :
  0 ≤ nc_DelayMin (nt_cfg n) → nt_hook n = None → route n from to m r = Ret (d, r') →
  (dl_deliver d = true → 0 ≤ dl_delay d) ∧ (dl_duplicate d = true → 0 ≤ dl_dupDelay d).
Proof.
  intros Hmin Hh E. destruct (route_spec n from to m r) as (d0 & r0 & E0 & Hno & Hyes). rewrite E in E0. injection E0 as <- <-.
  unfold extra in Hyes. rewrite Hh in Hyes. destruct (connected n from to).
  - destruct (Hyes eq_refl) as [[? _] Hd]. split; [lia|]. intros [? _]%Hd. lia.
  - destruct (Hno eq_refl) as (-> & -> & _). done.
Qed.
Lemma sendMessage_keeps from m : keeps (sendMessage from m).
Proof.
  unfold sendMessage. destruct (_ =? _); [by apply scheduleDeliver_keeps|]. apply keeps_get. intros s Hs.
  destruct (si_timing s Hs) as [_ _ _ Hmin Hh].
  eapply keeps_bindP; [apply yields_draw; intros r a r'; by apply route_delays|]. intros d [H1 H2]. simpl in *.
  destruct (dl_deliver d), (dl_duplicate d); simpl; try specialize (H1 eq_refl); try specialize (H2 eq_refl); timed.
Qed.
#[local] Hint Resolve sendMessage_keeps : timed.

(** ** Draws *)

Lemma Int63n_inv n r k r' : Int63n n r = Ret (k, r') → 0 ≤ k < n.
Proof.
  unfold Int63n, Intn. destruct (Z.leb_spec n 0); [done|]. intros [= <- _]. apply Z.mod_pos_bound. lia.
Qed.
Lemma drawThink_yields : yields (λ d, 0 ≤ d) drawThink.
Proof.
  intros s Hs. apply wp_bind, wp_get. destruct (si_timing s Hs) as [Ht _ Hth _ _].
  cbv beta zeta. destruct (_ <=? _).
  { apply yields_ret; [|done]. destruct (Z.ltb_spec 0 (wc_ThinkMin (sc_Workload (sm_cfg s)))); lia. }
  eapply yields_bind; [by apply yields_draw, Int63n_inv| |done]. intros d [? _]. apply yields_ret. lia.
Qed.
(** Computations that only draw. *)
Definition draws {A} (P : A → Prop) (c : M Simulator A) : Prop :=
  ∀ s, wp True c (λ a s', P a ∧ ∃ r, s' = put_rng r s) s.
Lemma draws_bind {A B} (P : A → Prop) (Q : B → Prop) (c : M Simulator A) k :
  draws P c → (∀ a, P a → draws Q (k a)) → draws Q (c ≫= k).
Proof.
  intros Hc Hk s. apply wp_bind. eapply wp_mono; [apply Hc|]. intros a s1 (Ha & r1 & ->).
  eapply wp_mono; [by apply Hk|]. intros b s2 (Hb & r2 & ->). split; [done|]. by exists r2.
Qed.
Lemma draws_ret {A} (P : A → Prop) a : P a → draws P (mret a).
Proof. intros Ha s. apply wp_ret. split; [done|]. exists (sm_rng s). by destruct s. Qed.
Lemma draws_get {A} (P : A → Prop) (k : Simulator → M Simulator A) : (∀ s, draws P (k s)) → draws P (get ≫= k).
Proof. intros Hk s. apply wp_bind, wp_get. apply Hk. Qed.
Lemma draws_draw {A} (f : Rand → outcome (A * Rand)) : draws (λ _, True) (draw f).
Proof. intros s. unfold wp, draw. destruct (f (sm_rng s)) as [[a r]|]; [|done]. simpl. by eauto. Qed.
Lemma drawKey_draws : draws (λ _, True) drawKey.
Proof.
  apply draws_get. intros s. cbv zeta. destruct (_ <=? _); [by apply draws_ret|].
  eapply draws_bind; [apply draws_draw|]. intros k _. by apply draws_ret.
Qed.
Lemma drawFloat_draws : draws (λ _, True) drawFloat.
Proof. eapply draws_bind; [apply draws_draw|]. intros k _. by apply draws_ret. Qed.
(** The generated command is the client's. *)
Lemma genCommand_draws x : draws (λ c, cmdSeq c = cl_seq x ∧ valid_op (cmdOp c) = true) (genCommand x).
Proof.
  apply draws_get. intros s. cbv zeta. eapply draws_bind; [apply drawKey_draws|]. intros key _.
  eapply draws_bind; [apply drawFloat_draws|]. intros r _.
  destruct (Qltb _ _); [by apply draws_ret|]. destruct (Qltb _ _); [by apply draws_ret|].
  destruct (Qltb _ _); [|by apply draws_ret]. eapply draws_bind; [apply drawFloat_draws|]. intros y _. by apply draws_ret.
Qed.

(** ** An operation starts and ends *)

(** What the invariant needs of a later state, apart from history and clients. *)
Record same_line s s' : Prop := mkSameLine {
  sl_cfg : sm_cfg s' = sm_cfg s;
  sl_now : sm_now s' = sm_now s;
  sl_net : sm_net s' = sm_net s;
  sl_queue : sm_queue s' = sm_queue s;
  sl_seq : sm_seq s ≤ sm_seq s'
}.
Lemma same_line_queue s s' :
  same_line s s' → (∃ l, queue_rep (sm_queue s) l ∧ Forall (λ e, sm_now s ≤ ev_at e ∧ ev_seq e ≤ sm_seq s) l) →
  ∃ l, queue_rep (sm_queue s') l ∧ Forall (λ e, sm_now s' ≤ ev_at e ∧ ev_seq e ≤ sm_seq s') l.
Proof.
  intros [_ En _ Eq Hs] (l & Hl & Hb). exists l. rewrite Eq, En. split; [done|].
  eapply Forall_impl; [exact Hb|]. simpl. lia.
Qed.
Lemma after_all_snoc t id seq ops o :
  after_all t id seq ops → (op_ClientID o = id → op_Return o ≤ t ∧ cmdSeq (op_Input o) < seq) →
  after_all t id seq (ops ++ [o]).
Proof. intros Hops Ho o' [?| ->%list_elem_of_singleton]%elem_of_app; auto. Qed.
Lemma after_all_mono t t' id seq seq' ops :
  t ≤ t' → seq ≤ seq' → after_all t id seq ops → after_all t' id seq' ops.
Proof. intros Ht Hs Hops o Ho Hid. destruct (Hops o Ho Hid). lia. Qed.

(** The client's operation completes. *)
Lemma inv_complete s s' k x res :
  sim_inv s → same_line s s' → sm_clients s !! k = Some x → cl_pending x = true →
  sm_hist s' = Complete (cl_histID x) res (sm_now s) (sm_hist s) →
  sm_clients s' = alter (upd_pending false) k (sm_clients s) → sim_inv s'.
Proof.
  intros [H1 H2 H3 H4 H5 H6] Hl Hk Hp Eh Ec. destruct (Hl) as [E1 E2 E3 _ _]. destruct (H3 k x Hk) as [Hid Hdone Hpend].
  rewrite Hp in Hpend. destruct Hpend as (o & Ho & Hoid & Hoin & Hseq & Hcall & Hafter).
  unfold Complete in Eh. rewrite Ho in Eh. set (o' := mkOperation _ _ _ _ _) in Eh.
  assert (Hother : ∀ k' x', k' ≠ k → sm_clients s !! k' = Some x' → cl_id x' ≠ cl_id x).
  { intros k' x' Hne Hx'. destruct (H3 k' x' Hx') as [Hid' _ _]. lia. }
  split; rewrite ?E1, ?E2, ?E3, ?Eh; simpl; [done|..].
  - by apply (same_line_queue s s') in H2; rewrite ?E2 in H2.
  - intros k' y Hy. rewrite Ec in Hy. destruct (decide (k' = k)) as [->|Hne].
    + rewrite list_lookup_alter_eq, Hk in Hy. injection Hy as <-. split; simpl; [done| |done].
      apply after_all_snoc; [done|]. unfold o'. simpl. rewrite Hoin. lia.
    + rewrite list_lookup_alter_ne in Hy by done. destruct (H3 k' y Hy) as [Hid' Hdone' Hpend'].
      pose proof (Hother k' y Hne Hy) as Hidne. split; simpl; [done|by apply after_all_snoc; [|unfold o'; simpl; congruence]|].
      destruct (cl_pending y) eqn:Epy; [|done]. destruct Hpend' as (oy & Hoy & Hoyid & ? & ? & ? & ?).
      exists oy. assert (cl_histID y ≠ cl_histID x) by (intros Eq; rewrite Eq, Ho in Hoy; injection Hoy as <-; congruence). rewrite lookup_delete_ne by done.
      split_and!; try done. by apply after_all_snoc; [|unfold o'; simpl; congruence].
  - intros h oh [Hhx Hh]%lookup_delete_Some. destruct (H4 h oh Hh) as (Hlt & k' & y & Hy & Epy & Ehy & Eid). split; [done|].
    exists k', y. assert (k' ≠ k) by congruence. rewrite Ec, list_lookup_alter_ne by done. done.
  - rewrite reverse_snoc. simpl. split; [|done]. unfold o'. simpl. rewrite Hoid, Hoin, Hseq. intros o2 Ho2 Hid2.
    rewrite reverse_Permutation in Ho2. by apply Hafter.
  - destruct H6 as [Hv Hvp]. split; simpl; [|by apply map_Forall_delete].
    apply Forall_app. split; [done|]. constructor; [exact (Hvp _ _ Ho)|done].
Qed.

(** The client starts an operation. *)
Lemma inv_invoke s s' k x cmd attempt :
  sim_inv s → same_line s s' → sm_clients s !! k = Some x → cl_pending x = false → cmdSeq cmd = cl_seq x + 1 →
  valid_op (cmdOp cmd) = true →
  sm_hist s' = (Invoke (cl_id x) cmd (sm_now s) (sm_hist s)).2 →
  sm_clients s' = alter (λ x, mkClient (cl_id x) (cl_seq x + 1) (cl_leaderHint x) true cmd (h_nextID (sm_hist s)) attempt) k (sm_clients s) →
  sim_inv s'.
Proof.
  intros [H1 H2 H3 H4 H5 H6] Hl Hk Hp Hseq Hcv Eh Ec. destruct (Hl) as [E1 E2 E3 _ _]. destruct (H3 k x Hk) as [Hid Hdone _].
  unfold Invoke in Eh. simpl in Eh. set (o := mkOperation _ _ _ _ _) in Eh.
  assert (Hnew : h_pending (sm_hist s) !! h_nextID (sm_hist s) = None).
  { destruct (h_pending (sm_hist s) !! h_nextID (sm_hist s)) eqn:E; [|done]. apply H4 in E as [? _]. lia. }
  split; rewrite ?E1, ?E2, ?E3, ?Eh; simpl; [done|..| |done|].
  - by apply (same_line_queue s s') in H2; rewrite ?E2 in H2.
  - intros k' y Hy. rewrite Ec in Hy. destruct (decide (k' = k)) as [->|Hne].
    + rewrite list_lookup_alter_eq, Hk in Hy. injection Hy as <-. split; simpl; [done| |].
      * eapply after_all_mono; [| |exact Hdone]; lia.
      * exists o. rewrite lookup_insert_eq. split_and!; done.
    + rewrite list_lookup_alter_ne in Hy by done. destruct (H3 k' y Hy) as [Hid' Hdone' Hpend']. split; simpl; [done|done|].
      destruct (cl_pending y); [|done]. destruct Hpend' as (oy & Hoy & ?). exists oy.
      rewrite lookup_insert_ne by congruence. done.
  - intros h oh [[<- <-]|[Hne Hh]]%lookup_insert_Some.
    + split; [lia|]. exists k. eexists. rewrite Ec, list_lookup_alter_eq, Hk. split_and!; done.
    + destruct (H4 h oh Hh) as (Hlt & k' & y & Hy & Epy & Ehy & Eid). split; [lia|]. exists k', y.
      assert (k' ≠ k) by congruence. rewrite Ec, list_lookup_alter_ne by done. done.
  - destruct H6 as [Hv Hvp]. split; simpl; [done|]. by apply map_Forall_insert_2.
Qed.

Lemma getClient_run s c x : index (sm_clients s) (c - 1) = Ret x → getClient c s = Ret (x, s).
Proof. unfold getClient. by intros ->. Qed.
(** [finish] for a client that waits. *)
Lemma finish_keeps s c x res :
  sim_inv s → index (sm_clients s) (c - 1) = Ret x → cl_pending x = true →
  wp True (finish c res) (λ _ s', True ∧ sim_inv s' ∧ sm_now s' = sm_now s ∧ sm_cfg s' = sm_cfg s) s.
Proof.
  intros Hs Hx Hp. unfold finish. apply wp_bind. unfold wp at 1. rewrite (getClient_run s c x Hx).
  unfold recordControl, nextSeq, updClient. apply wp_bind, wp_modify.
  apply wp_bind, wp_bind, wp_bind, wp_get, wp_bind, wp_modify, wp_ret, wp_bind, wp_get, wp_modify, wp_bind, wp_modify.
  match goal with |- wp _ _ _ ?s1 => set (s' := s1) end.
  assert (Hs' : sim_inv s').
  { apply index_inv in Hx as [_ Hx]. eapply (inv_complete s s' (Z.to_nat (c - 1)) x res); try done. split; simpl; try done. lia. }
  assert (Hk : keeps (d ← drawThink; scheduleClientOp c d)).
  { eapply keeps_bindP; [apply drawThink_yields|]. intros d Hd. by apply keeps_schedule. }
  exact (Hk s' Hs').
Qed.

Lemma completeIfLeader_keeps id cmd res : keeps (completeIfLeader id cmd res).
Proof.
  unfold completeIfLeader. apply keeps_bind; [auto with timed|]. intros ns. destruct (negb (leads ns)); [auto with timed|].
  apply keeps_get. intros s0 _. destruct (_ || _); [auto with timed|]. intros s Hs. apply wp_bind. unfold wp at 1, getClient.
  destruct (index (sm_clients s) (cmdClientID cmd - 1)) as [x|] eqn:Ex; [|done]. cbn [mbind outcome_bind].
  destruct (cl_pending x) eqn:Ep; simpl; [|by apply keeps_ret].
  destruct (_ || _); [by apply keeps_ret|]. by eapply finish_keeps.
Qed.
Lemma serveRead_keeps id rs : keeps (serveRead id rs).
Proof.
  unfold serveRead. apply keeps_bind; [auto with timed|]. intros ns. destruct (negb (leads ns)); [auto with timed|].
  destruct (negb (_ =? 16)); [auto with timed|]. apply keeps_get. intros s0 _. destruct (_ || _); [auto with timed|].
  intros s Hs. apply wp_bind. unfold wp at 1, getClient.
  destruct (index (sm_clients s) (be_dec (take 8 (rsRequestCtx rs)) - 1)) as [x|] eqn:Ex; [|done]. cbn [mbind outcome_bind].
  destruct (cl_pending x) eqn:Ep; simpl; [|by apply keeps_ret].
  destruct (_ || _); [by apply keeps_ret|]. destruct (ns_sm ns); [by eapply finish_keeps|done].
Qed.
#[local] Hint Resolve completeIfLeader_keeps serveRead_keeps : timed.

Lemma releaseRead_keeps id rs : keeps (releaseRead id rs).
Proof. unfold releaseRead. timed. Qed.
Lemma serveLoop_keeps id rss : keeps (serveLoop id rss).
Proof. induction rss as [|rs rss IH]; simpl; timed. Qed.
#[local] Hint Resolve releaseRead_keeps serveLoop_keeps : timed.
Lemma servePendingReads_keeps id : keeps (servePendingReads id).
Proof. unfold servePendingReads. timed. Qed.
#[local] Hint Resolve servePendingReads_keeps : timed.
Lemma applyEntry_keeps id e : keeps (applyEntry id e).
Proof. unfold applyEntry. timed. Qed.
Lemma maybeCompact_keeps id : keeps (maybeCompact id).
Proof. unfold maybeCompact. timed. Qed.
#[local] Hint Resolve applyEntry_keeps maybeCompact_keeps : timed.
Lemma or_fail_keeps c k : keeps c → keeps k → keeps (or_fail c k).
Proof. intros Hc Hk. unfold or_fail. timed. Qed.
Lemma drainBatch_keeps id : keeps (drainBatch id).
Proof.
  unfold drainBatch. apply keeps_bind; [auto with timed|]. intros rd.
  repeat (timed; match goal with |- keeps (or_fail _ _) => apply or_fail_keeps end); timed.
Qed.
#[local] Hint Resolve drainBatch_keeps : timed.
Lemma drainLoop_keeps fuel id : keeps (drainLoop fuel id).
Proof. induction fuel as [|fuel IH]; simpl; timed. Qed.
#[local] Hint Resolve drainLoop_keeps : timed.
Lemma drain_keeps id : keeps (drain id).
Proof. unfold drain. timed. Qed.
#[local] Hint Resolve drain_keeps : timed.
Lemma sim_step_keeps id m : keeps (sim_step id m).
Proof. unfold sim_step. timed. Qed.
#[local] Hint Resolve sim_step_keeps : timed.

(** ** Clients *)

(** Changes to a client that leave its operation alone. *)
Lemma updClient_keeps c f :
  (∀ x, cl_id (f x) = cl_id x ∧ cl_seq (f x) = cl_seq x ∧ cl_pending (f x) = cl_pending x ∧ cl_cmd (f x) = cl_cmd x ∧
        cl_histID (f x) = cl_histID x) → keeps (updClient c f).
Proof.
  intros Hf s [H1 H2 H3 H4 H5 H6]. apply wp_modify. split_and!; [done| |done..]. split; simpl; try done.
  - intros k y Hy. destruct (decide (k = Z.to_nat (c - 1))) as [->|Hne].
    + rewrite list_lookup_alter_eq in Hy. destruct (sm_clients s !! Z.to_nat (c - 1)) as [x|] eqn:Ex; [|done]. injection Hy as <-.
      destruct (Hf x) as (E1 & E2 & E3 & E4 & E5). destruct (H3 _ _ Ex) as [Ha Hb Hc]. split; rewrite ?E1, ?E2, ?E3, ?E4, ?E5; done.
    + rewrite list_lookup_alter_ne in Hy by done. by apply H3.
  - intros h o Hh. destruct (H4 h o Hh) as (Hlt & k & x & Hx & Ep & Eh & Eid). split; [done|].
    destruct (decide (k = Z.to_nat (c - 1))) as [->|Hne].
    + exists (Z.to_nat (c - 1)), (f x). destruct (Hf x) as (E1 & E2 & E3 & E4 & E5).
      rewrite list_lookup_alter_eq, Hx. split_and!; [done|congruence..].
    + exists k, x. by rewrite list_lookup_alter_ne.
Qed.
Lemma updHint_keeps c h : keeps (updClient c (upd_leaderHint h)).
Proof. by apply updClient_keeps. Qed.
#[local] Hint Resolve updHint_keeps : timed.
Lemma tryNodes_keeps c m ids : keeps (tryNodes c m ids).
Proof. induction ids as [|id ids IH]; simpl; timed. Qed.
#[local] Hint Resolve tryNodes_keeps : timed.
Lemma submit_keeps c : keeps (submit c).
Proof.
  unfold submit, submitRead, submitWrite. apply keeps_bind; [by apply updClient_keeps|]. intros _. timed.
  apply keeps_schedule. unfold retryTimeout. destruct (si_timing _ H) as [? ? _ _ _]. nia.
Qed.
#[local] Hint Resolve submit_keeps : timed.

Lemma issue_keeps c : keeps (issue c).
Proof.
  intros s Hs. unfold issue. apply wp_bind. unfold wp at 1, getClient at 1.
  destruct (index (sm_clients s) (c - 1)) as [x|] eqn:Ex; [|done]. cbn [mbind outcome_bind].
  destruct (cl_pending x) eqn:Ep; [by apply keeps_ret|]. unfold updClient at 1. apply wp_bind, wp_modify. apply wp_bind.
  set (k := Z.to_nat (c - 1)). set (s1 := put_clients _ s). pose proof (index_inv _ _ _ Ex) as [Hr Hx]. fold k in Hx.
  set (x1 := upd_attempt 0 (upd_seq (cl_seq x + 1) x)).
  assert (Ex1 : sm_clients s1 !! k = Some x1) by (unfold s1; simpl; fold k; by rewrite list_lookup_alter_eq, Hx).
  unfold wp at 1. rewrite (getClient_run s1 c x1) by (apply index_lookup; [lia|exact Ex1]).
  apply wp_bind. eapply wp_mono; [apply genCommand_draws|]. intros cmd s2 ([Hcmd Hcv] & r & ->).
  apply wp_bind, wp_get. destruct (Invoke _ _ _ _) as [h hist] eqn:Ei.
  unfold recordControl, nextSeq. apply wp_bind, wp_modify, wp_bind, wp_modify.
  apply wp_bind, wp_bind, wp_bind, wp_get, wp_bind, wp_modify, wp_ret, wp_bind, wp_get, wp_modify.
  match goal with |- wp _ _ _ ?s' => set (s3 := s') end.
  assert (Hs3 : sim_inv s3).
  { pose proof (f_equal fst Ei) as Eh. pose proof (f_equal snd Ei) as Eh'. simpl in Eh, Eh'.
    apply (inv_invoke s s3 k x cmd 0); try done.
    - split; simpl; try done. lia.
    - unfold s3. simpl. fold k. rewrite <-Eh. simpl. by rewrite list_alter_alter_eq. }
  exact (submit_keeps c s3 Hs3).
Qed.
#[local] Hint Resolve issue_keeps : timed.
#[local] Hint Extern 1 (keeps (modify _)) => (apply keeps_modify; done) : timed.

(** ** Faults *)

Lemma startNode_keeps id : keeps (startNode id).
Proof. unfold startNode. timed. Qed.
#[local] Hint Resolve startNode_keeps : timed.
Lemma Partition_keeps groups : keeps (Sim.Partition groups).
Proof. unfold Sim.Partition. timed. Qed.
Lemma Heal_keeps : keeps Heal.
Proof. unfold Heal. timed. Qed.
Lemma Crash_keeps id : keeps (Crash id).
Proof. unfold Crash. timed. Qed.
Lemma Restart_keeps id : keeps (Restart id).
Proof.
  unfold Restart. timed. apply scheduleTick_keeps.
  match goal with H : sim_inv _ |- _ => destruct (si_timing _ H) as [? _ _ _ _] end. lia.
Qed.
#[local] Hint Resolve Partition_keeps Heal_keeps Crash_keeps Restart_keeps : timed.
Lemma faultIn_keeps lo hi f : 0 ≤ lo → keeps (faultIn lo hi f).
Proof.
  intros Hlo. eapply keeps_bindP with (P := λ d, 0 ≤ d); [|intros d Hd; by apply keeps_schedule].
  unfold drawDur, Millisecond. destruct (_ <=? _); [apply yields_ret; lia|].
  eapply yields_bind; [by apply yields_draw, Int63n_inv|]. intros d [? _]. apply yields_ret. lia.
Qed.
#[local] Hint Extern 1 (keeps (faultIn _ _ _)) => (apply faultIn_keeps; lia) : timed.
Lemma isolate_keeps v again lo hi after : 0 ≤ lo → keeps (isolate v again lo hi after).
Proof. intros Hlo. unfold isolate. timed. Qed.
#[local] Hint Extern 1 (keeps (isolate _ _ _ _ _)) => (apply isolate_keeps; lia) : timed.
Lemma crashLeader_keeps again after : keeps (crashLeader again after).
Proof. unfold crashLeader. timed. Qed.
Lemma randomHalf_keeps : keeps randomHalf.
Proof. unfold randomHalf. timed. Qed.
#[local] Hint Resolve crashLeader_keeps randomHalf_keeps : timed.
Lemma runFault_keeps f : keeps (runFault f).
Proof. unfold runFault, partitionLeaderCycle, mixedPartitionCycle, snapshotCycle, crashLeaderCycle, mixedCrashCycle. timed. Qed.
#[local] Hint Resolve runFault_keeps : timed.

(** ** The event loop *)

Lemma perform_keeps a : keeps (perform a).
Proof.
  unfold perform. timed. apply scheduleTick_keeps.
  match goal with H : sim_inv _ |- _ => destruct (si_timing _ H) as [? _ _ _ _] end. lia.
Qed.
Lemma checkStep_keeps : keeps checkStep.
Proof. unfold checkStep. timed. Qed.
#[local] Hint Resolve perform_keeps checkStep_keeps : timed.

Lemma dispatch_keeps e : keeps (dispatch e).
Proof. unfold dispatch. timed. Qed.

(** The clock moves to the earliest event. *)
Lemma inv_advance s q (e : @event action) l :
  sim_inv s → sm_now s ≤ ev_at e → queue_rep q l → Forall (λ x, ev_at e ≤ ev_at x ∧ ev_seq x ≤ sm_seq s) l →
  sim_inv (put_now (ev_at e) (put_queue q s)).
Proof.
  intros [H1 H2 H3 H4 H5 H6] Hnow Hq Hl. split; simpl; try done; [by exists l|].
  intros k x Hx. destruct (H3 k x Hx) as [Hid Hdone Hpend]. split; [done|by eapply after_all_mono; [| |exact Hdone]; [|lia]|].
  destruct (cl_pending x); [|done]. destruct Hpend as (o & ? & ? & ? & ? & ? & ?). exists o. split_and!; try done. lia.
Qed.
(** A step dispatches an event that no scheduled one precedes. *)
Lemma StepSim_spec s :
  sim_inv s →
  wp True StepSim (λ b s', sim_inv s' ∧ sm_now s ≤ sm_now s' ∧ sm_cfg s' = sm_cfg s ∧
    (b = false → sm_queue s = []) ∧
    (b = true → ∃ e, e ∈ sm_queue s ∧ sm_now s' = ev_at e ∧ ∀ e', e' ∈ sm_queue s → ev_le e e')) s.
Proof.
  intros Hs. destruct (si_queue s Hs) as (l & Hl & Hb). unfold StepSim. apply wp_bind.
  destruct (pop_rep _ _ Hl) as (q & Epop & Hq & _). eapply wp_reads_ret; [exact Epop|]. cbn beta iota.
  apply wp_bind, wp_modify. destruct Hl as (_ & Hsort & Hperm & _). destruct l as [|e l]; cbn [head tail] in *.
  { apply wp_ret. apply Permutation_nil_r in Hperm as Eq. split_and!; try done.
    destruct Hs. split; simpl; try done. by exists []. }
  apply Forall_cons in Hb as [[Hat _] Hb]. apply StronglySorted_cons in Hsort as [Hle _].
  assert (Hs1 : sim_inv (put_now (ev_at e) (put_queue q s))).
  { apply (inv_advance s q e l); try done. apply Forall_forall. intros x Hx. rewrite Forall_forall in Hle, Hb.
    destruct (Hb x Hx). specialize (Hle x Hx). unfold ev_le, key_le in Hle. simpl in Hle. lia. }
  apply wp_bind, wp_modify.
  assert (Ht : yields (λ b, b = true) (dispatch e;; mret true)).
  { eapply yields_bind; [apply dispatch_keeps|]. intros _ _. by apply yields_ret. }
  eapply wp_mono; [by apply Ht|]. intros b s' (-> & Hs' & En & Ec). split_and!; [done|simpl in En; lia|done|done|].
  intros _. exists e. split; [rewrite Hperm; left|]. split; [done|]. intros e' He'. rewrite Hperm in He'.
  apply elem_of_cons in He' as [->|He']; [unfold ev_le, key_le; lia|]. rewrite Forall_forall in Hle. auto.
Qed.

(** ** Construction *)

Lemma schedule_history after kind node detail a s :
  wp True (schedule after kind node detail a) (λ _ s', sm_hist s' = sm_hist s ∧ sm_clients s' = sm_clients s) s.
Proof.
  unfold schedule, nextSeq. apply wp_bind, wp_bind, wp_get, wp_bind, wp_modify, wp_ret, wp_bind, wp_get, wp_bind, wp_reads.
  by destruct (push _ _).
Qed.
Lemma drawThink_history s : wp True drawThink (λ _ s', sm_hist s' = sm_hist s ∧ sm_clients s' = sm_clients s) s.
Proof.
  unfold drawThink. apply wp_bind, wp_get. cbv beta zeta. destruct (_ <=? _); [by apply wp_ret|].
  apply wp_bind. unfold wp at 1, draw. by destruct (Int63n _ _) as [[]|].
Qed.
Lemma inv_newClient s :
  sim_inv s → h_ops (sm_hist s) = [] →
  sim_inv (put_clients (sm_clients s ++ [newClient (zlen (sm_clients s) + 1)]) s).
Proof.
  intros [H1 H2 H3 H4 H5 H6] He. split; simpl; try done.
  - intros k x [Hk|[Hk Hx]]%lookup_app_Some; [by apply H3|]. apply list_lookup_singleton_Some in Hx as [Ek <-].
    split; simpl; [unfold zlen; lia| |done]. rewrite He. by intros o Ho%elem_of_nil.
  - intros h o Ho. destruct (H4 h o Ho) as (Hlt & k & x & Hx & ?). split; [done|]. exists k, x.
    split; [|done]. by apply lookup_app_l_Some.
Qed.
Lemma startClients_inv n s :
  sim_inv s → h_ops (sm_hist s) = [] →
  wp True (startClients n (zlen (sm_clients s) + 1)) (λ _ s', sim_inv s' ∧ sm_now s' = sm_now s) s.
Proof.
  revert s. induction n as [|n IH]; intros s Hs He; simpl; [by apply wp_ret|].
  apply wp_bind, wp_modify. set (s1 := put_clients _ s). assert (Hs1 : sim_inv s1) by by apply inv_newClient.
  assert (El : zlen (sm_clients s1) + 1 = zlen (sm_clients s) + 1 + 1) by (unfold s1; simpl; rewrite zlen_app; done).
  apply wp_bind. eapply wp_mono; [apply (wp_and _ _ _ _ _ (drawThink_yields s1 Hs1) (drawThink_history s1))|].
  intros d s2 ((Hd & Hs2 & En2 & _) & Eh2 & Ec2). apply wp_bind.
  eapply wp_mono; [apply (wp_and _ _ _ _ _ (keeps_schedule d _ _ _ _ Hd s2 Hs2) (schedule_history _ _ _ _ _ s2))|].
  intros [] s3 ((_ & Hs3 & En3 & _) & Eh3 & Ec3). rewrite <-El, <-Ec2, <-Ec3.
  eapply wp_mono; [apply IH; [done|rewrite Eh3, Eh2; exact He]|]. intros [] s4 [Hs4 En4]. split; [done|].
  rewrite En4, En3, En2. done.
Qed.
Lemma startNodes_keeps ids : keeps (startNodes ids).
Proof. induction ids as [|id ids IH]; simpl; timed. Qed.
(** Neither starting nodes nor scheduling ticks touches the history or clients. *)
Definition historyless {A} (c : M Simulator A) : Prop :=
  ∀ s, wp True c (λ _ s', sm_hist s' = sm_hist s ∧ sm_clients s' = sm_clients s) s.
Lemma historyless_bind {A B} (c : M Simulator A) (k : A → M Simulator B) :
  historyless c → (∀ a, historyless (k a)) → historyless (c ≫= k).
Proof.
  intros Hc Hk s. apply wp_bind. eapply wp_mono; [apply Hc|]. intros a s1 [E1 E2]. simpl in *.
  eapply wp_mono; [apply Hk|]. simpl. intros b s2 [E3 E4]. split; congruence.
Qed.
Lemma startNode_historyless id : historyless (startNode id).
Proof.
  unfold startNode. apply historyless_bind; [done|]. intros s0. apply historyless_bind.
  { intros s. unfold wp, getNode. by destruct (sm_nodes s !! id). }
  intros ns. apply historyless_bind; [intros s; apply wp_reads; by destruct (NewNode _ _)|]. intros [n|e]; [|done].
  apply historyless_bind; [done|]. intros _. apply historyless_bind; [done|]. intros _.
  apply historyless_bind; [intros s; apply wp_reads; by destruct (SnapshotOf _)|]. intros [sn|e]; [|done].
  destruct (0 <? snIndex sn); [|done]. apply historyless_bind.
  { destruct (0 <? zlen (snData sn)); [|done]. intros s. unfold wp, callSM. destruct (_ ≫= ns_sm) as [m|]; [|done].
    by destruct (Restore _ m) as [[]|]. }
  by intros [e|].
Qed.
Lemma startNodes_historyless ids : historyless (startNodes ids).
Proof.
  induction ids as [|id ids IH]; [done|]. simpl. apply historyless_bind; [done|]. intros _.
  apply historyless_bind; [apply startNode_historyless|]. by intros [].
Qed.
Lemma forM_historyless {A} (l : list A) f : (∀ x, historyless (f x)) → historyless (forM l f).
Proof. intros Hf. induction l as [|x l IH]; [done|]. by apply historyless_bind. Qed.

(** A config whose delays are not negative. *)
Definition config_ok (c : sim_config) : Prop :=
  0 ≤ wc_ThinkMin (sc_Workload c) ∧ 0 ≤ nc_DelayMin (sc_Net c).

Lemma NewSim_inv c rng s :
  config_ok c → NewSim c rng = Ret (Ok s) → sim_inv s ∧ sm_now s = 0.
Proof.
  intros [Hth Hd]. unfold NewSim. destruct (sim_validate c) eqn:Ev; [done|]. unfold sim_validate in Ev.
  destruct (_ <=? 0); [done|]. destruct (Z.leb_spec (sc_Election c) (sc_Heartbeat c)); [done|].
  destruct (Z.leb_spec (sc_Heartbeat c) 0); [done|]. destruct (Z.leb_spec (sc_TickEvery c) 0); [done|]. clear Ev.
  set (s0 := mkSimulator c rng 0 0 [] [] _ _ _ _ _ _ _ _).
  assert (Hs0 : sim_inv s0).
  { split; simpl; try done; [split; simpl; try done; lia|]. exists []. split; [|constructor].
    split_and!; [|constructor|done|constructor]. intros k Hk. simpl in Hk. lia. }
  intros ([ok s1] & E1 & E)%outcome_bind_Ret. destruct ok; [|done]. simpl in E.
  destruct (wp_run _ _ _ _ _ (startNodes_keeps _ s0 Hs0) E1) as (_ & Hs1 & En1 & _).
  destruct (wp_run _ _ _ _ _ (startNodes_historyless _ s0) E1) as [Eh1 Ec1]. simpl in Eh1, Ec1.
  apply outcome_bind_Ret in E as ([[] s2] & E2 & E).
  assert (Hk : keeps (forM (seqZ 1 (sc_Nodes c)) (λ id, scheduleTick id (sc_TickEvery c)))).
  { apply keeps_forM. intros id. apply scheduleTick_keeps. lia. }
  destruct (wp_run _ _ _ _ _ (Hk s1 Hs1) E2) as (_ & Hs2 & En2 & _).
  assert (Hh : historyless (forM (seqZ 1 (sc_Nodes c)) (λ id, scheduleTick id (sc_TickEvery c)))).
  { apply forM_historyless. intros id s'. apply schedule_history. }
  destruct (wp_run _ _ _ _ _ (Hh s1) E2) as [Eh2 Ec2].
  apply outcome_bind_Ret in E as ([[] s3] & E3 & [= <-]).
  assert (El : zlen (sm_clients s2) + 1 = 1) by (rewrite Ec2, Ec1; done). rewrite <-El in E3.
  destruct (wp_run _ _ _ _ _ (startClients_inv _ s2 Hs2 ltac:(by rewrite Eh2, Eh1)) E3) as [Hs3 En3].
  split; [done|]. rewrite En3, En2, En1. done.
Qed.

Lemma scenarios_ok name seed i config arm :
  list_find (λ sc, sc.1.1 = name) scenarios = Some (i, (name, config, arm)) → config_ok (config (ScenarioBaseConfig seed)).
Proof.
  intros (Hi & _ & _)%list_find_Some. apply list_elem_of_lookup_2 in Hi. unfold scenarios in Hi.
  repeat (apply elem_of_cons in Hi as [[= -> -> ->]|Hi]; [done|]). by apply elem_of_nil in Hi.
Qed.
Lemma NewScenario_inv name seed rng s : NewScenario name seed rng = Ret (Ok s) → sim_inv s ∧ sm_now s = 0.
Proof.
  unfold NewScenario. destruct (list_find _ scenarios) as [[i [[name' config] arm]]|] eqn:Ef; [|done].
  pose proof Ef as (_ & En & _)%list_find_Some. simpl in En. subst name'.
  intros ([s1|e] & E1 & E)%outcome_bind_Ret; [|done].
  destruct (NewSim_inv _ _ _ (scenarios_ok _ _ _ _ _ Ef) E1) as [Hs1 En1].
  destruct (outside_inv (put_scenario name) s1) as (Hs2 & En2 & _); [done..|].
  destruct arm as [f|]; [|injection E as <-; split; [done|congruence]].
  apply outcome_bind_Ret in E as ([[] s3] & E3 & [= <-]).
  destruct (wp_run _ _ _ _ _ (faultIn_keeps 300 700 f ltac:(lia) _ Hs2) E3) as (_ & Hs3 & En3 & _).
  split; [done|]. by rewrite En3, En2.
Qed.

(** ** Runs *)

Fixpoint steps (n : nat) : M Simulator () :=
  match n with
  | O => mret ()
  | Datatypes.S n => _ ← StepSim; steps n
  end.
Lemma steps_inv n s : sim_inv s → wp True (steps n) (λ _ s', sim_inv s' ∧ sm_now s ≤ sm_now s') s.
Proof.
  revert s. induction n as [|n IH]; intros s Hs; [by apply wp_ret|]. apply wp_bind.
  eapply wp_mono; [by apply StepSim_spec|]. intros b s1 (Hs1 & Hle & _).
  eapply wp_mono; [by apply IH|]. intros [] s2 [Hs2 Hle2]. split; [done|]. simpl in *. lia.
Qed.

(** Virtual time never runs backwards.  In every run of every scenario,
    whatever the seed and the random choices, a step dispatches an event that
    no other scheduled event precedes in the order of time and sequence number,
    and sets the clock to its time, which is not before the clock's; a step
    that finds no event finds an empty queue. *)
Theorem virtual_time_monotone name seed rng s0 n s b s' :
  NewScenario name seed rng = Ret (Ok s0) → steps n s0 = Ret ((), s) → StepSim s = Ret (b, s') →
  0 ≤ sm_now s ≤ sm_now s' ∧ (b = false → sm_queue s = []) ∧
  (b = true → ∃ e, e ∈ sm_queue s ∧ sm_now s' = ev_at e ∧ ∀ e', e' ∈ sm_queue s → ev_le e e').
Proof.
  intros [Hs0 En]%NewScenario_inv E Estep.
  destruct (wp_run _ _ _ _ _ (steps_inv n s0 Hs0) E) as [Hs Hle].
  destruct (wp_run _ _ _ _ _ (StepSim_spec s Hs) Estep) as (_ & Hle2 & _ & Hno & Hyes). split; [lia|done].
Qed.

Lemma sequential_lookup ops i j a b :
  sequential (reverse ops) → (i < j)%nat → ops !! i = Some a → ops !! j = Some b → op_ClientID a = op_ClientID b →
  op_Return a ≤ op_Call b ∧ cmdSeq (op_Input a) < cmdSeq (op_Input b).
Proof.
  induction ops as [|o ops IH] using rev_ind; [done|]. rewrite reverse_snoc. simpl. intros [Ho Hops] Hij Ha Hb Hid.
  pose proof (lookup_lt_Some _ _ _ Hb) as Hj. rewrite length_app in Hj. simpl in Hj.
  rewrite lookup_app_l in Ha by lia. destruct (decide (j = length ops)) as [->|Hne].
  - rewrite lookup_app_r, Nat.sub_diag in Hb by lia. injection Hb as <-. apply Ho; [|done].
    rewrite reverse_Permutation. by apply list_elem_of_lookup_2 in Ha.
  - rewrite lookup_app_l in Hb by lia. by apply IH.
Qed.

(** C37: the clients are sequential.  In every run of every scenario that does
    not panic the operations of one client never overlap: each returns no later
    than the next is called, with a greater sequence number, and at most one is pending, called
    after all the others returned.  This is the discipline on which the session
    table's deduplication and the linearizability check rely. *)
Theorem clients_sequential name seed rng s0 n s :
  NewScenario name seed rng = Ret (Ok s0) → steps n s0 = Ret ((), s) →
  let h := sm_hist s in
  (∀ i j a b, (i < j)%nat → Operations h !! i = Some a → Operations h !! j = Some b → op_ClientID a = op_ClientID b →
    op_Return a ≤ op_Call b ∧ cmdSeq (op_Input a) < cmdSeq (op_Input b)) ∧
  (∀ p o, h_pending h !! p = Some o →
    (∀ q o', h_pending h !! q = Some o' → op_ClientID o' = op_ClientID o → q = p) ∧
    (∀ a, a ∈ Operations h → op_ClientID a = op_ClientID o →
      op_Return a ≤ op_Call o ∧ cmdSeq (op_Input a) < cmdSeq (op_Input o))).
Proof.
  intros [Hs0 _]%NewScenario_inv E h. destruct (wp_run _ _ _ _ _ (steps_inv n s0 Hs0) E) as [[H1 H2 H3 H4 H5 H6] _]. split.
  - intros i j a b. by apply sequential_lookup.
  - intros p o Hp. unfold h in Hp. destruct (H4 p o Hp) as (_ & k & x & Hx & Epx & Ehx & Eid). destruct (H3 k x Hx) as [Hid _ Hpend].
    rewrite Epx in Hpend. destruct Hpend as (o1 & Ho1 & ? & Hin & Hseq & ? & Hafter). rewrite Ehx, Hp in Ho1. injection Ho1 as <-. split.
    + intros q o' Hq Eq. destruct (H4 q o' Hq) as (_ & k' & x' & Hx' & Epx' & Ehx' & Eid').
      destruct (H3 k' x' Hx') as [Hid' _ _]. assert (k' = k) as -> by lia. congruence.
    + intros a Ha Ea. rewrite Hin, Hseq. apply Hafter; [done|congruence].
Qed.

Lemma checkOps_valid h : valid_history h → Forall (λ p, valid_op (cmdOp (po_Input p)) = true) (checkOps h).
Proof.
  intros [Hv Hp]. unfold checkOps. apply Forall_app. split; apply Forall_forall; intros p (o & -> & Ho)%list_elem_of_fmap; simpl.
  - rewrite Forall_forall in Hv. by apply Hv.
  - apply list_elem_of_omap in Ho as (id & _ & Hid). exact (Hp id o Hid).
Qed.

(** C12: what a simulated run's verdict means.  Given a search that decides the
    model correctly when it decides, after any number of steps of any scenario
    that do not panic:
    if [CheckLinearizability] returns nil, the operations the clients recorded
    on each key have an order that respects real time and that the state
    machine can take with the recorded results; if it reports a violation, no
    execution on a single state machine explains the history. *)
Theorem simulated_verdict_sound porcupine name seed rng s0 n s :
  (∀ parts, (porcupine parts = LinOk → Forall linearizable parts) ∧ (porcupine parts = LinIllegal → ¬ Forall linearizable parts)) →
  NewScenario name seed rng = Ret (Ok s0) → steps n s0 = Ret ((), s) →
  match CheckLinearizability porcupine s with
  | None => ∀ key, ∃ ps m', ps ≡ₚ filter (λ p, cmdKey (po_Input p) = key) (checkOps (sm_hist s)) ∧ real_time ps ∧ serial NewStateMachine ps m'
  | Some e => ry_error e = LinViolated → ∀ ex m', executed ex m' → ¬ map snd ex ≡ₚ checkOps (sm_hist s)
  end.
Proof.
  intros Hp [Hs0 _]%NewScenario_inv E. destruct (wp_run _ _ _ _ _ (steps_inv n s0 Hs0) E) as [Hs _].
  unfold CheckLinearizability, linearizabilityVerdictError. destruct (CheckHistory porcupine (sm_hist s)) eqn:Ec; [done| |].
  - intros key. eapply lin_ok_serial; [exact Hp|by apply checkOps_valid, si_valid|exact Ec].
  - intros _ ex m' Hex Hperm. by apply (lin_illegal porcupine Hp _ _ _ Hex Hperm).
Qed.

(** ** Examples *)

(** A run with a made-up tape. *)
Definition tape (n : nat) : Z := Z.of_nat n * 2654435761 + 40503 * Z.of_nat n * Z.of_nat n.
Definition ran (name : list byte) (n : nat) : bool :=
  match NewScenario name 1 (mkRand tape 0) with
  | Ret (Ok s) => match steps n s with Ret (_, s) => match StepSim s with Ret (b, _) => b | Panic _ => false end | Panic _ => false end
  | _ => false
  end.
Lemma ran_inv name n :
  ran name n = true → ∃ s0 s s', NewScenario name 1 (mkRand tape 0) = Ret (Ok s0) ∧ steps n s0 = Ret ((), s) ∧ StepSim s = Ret (true, s').
Proof.
  unfold ran. destruct (NewScenario _ _ _) as [[s0|]|]; try done. destruct (steps n s0) as [[[] s]|] eqn:E; [|done].
  destruct (StepSim s) as [[b s']|] eqn:E'; [|done]. intros ->. by exists s0, s, s'.
Qed.
Lemma mixed_runs : ran ($"mixed-chaos") 40 = true.
Proof. by vm_compute. Qed.

Lemma virtual_time_monotone_witness :
  ∃ s0 s s', NewScenario ($"mixed-chaos") 1 (mkRand tape 0) = Ret (Ok s0) ∧ steps 40 s0 = Ret ((), s) ∧
    StepSim s = Ret (true, s') ∧ 0 ≤ sm_now s ≤ sm_now s'.
Proof.
  destruct (ran_inv _ _ mixed_runs) as (s0 & s & s' & E0 & E & E'). exists s0, s, s'. split; [exact E0|]. split; [exact E|].
  split; [exact E'|]. apply (virtual_time_monotone _ _ _ _ _ _ _ _ E0 E E').
Defined.
Lemma clients_sequential_witness :
  ∃ s0 s, NewScenario ($"mixed-chaos") 1 (mkRand tape 0) = Ret (Ok s0) ∧ steps 40 s0 = Ret ((), s) ∧
    ∀ p o q o', h_pending (sm_hist s) !! p = Some o → h_pending (sm_hist s) !! q = Some o' →
      op_ClientID o' = op_ClientID o → q = p.
Proof.
  destruct (ran_inv _ _ mixed_runs) as (s0 & s & s' & E0 & E & _). exists s0, s. split; [exact E0|]. split; [exact E|].
  intros p o q o' Hp Hq Hid. destruct (clients_sequential _ _ _ _ _ _ E0 E) as [_ H]. apply (proj1 (H p o Hp) q o' Hq Hid).
Defined.

Definition verdict (name : list byte) (n : nat) : option bool :=
  match NewScenario name 1 (mkRand tape 0) with
  | Ret (Ok s) => match steps n s with Ret (_, s) => Some (bool_decide (is_Some (CheckLinearizability try_all s))) | Panic _ => None end
  | _ => None
  end.
(** Witness for [simulated_verdict_sound]. *)
Lemma simulated_verdict_sound_witness :
  ∃ s0 s, NewScenario ($"mixed-chaos") 1 (mkRand tape 0) = Ret (Ok s0) ∧ steps 40 s0 = Ret ((), s) ∧ CheckLinearizability try_all s = None ∧
    ∀ key, ∃ ps m', ps ≡ₚ filter (λ p, cmdKey (po_Input p) = key) (checkOps (sm_hist s)) ∧ real_time ps ∧ serial NewStateMachine ps m'.
Proof.
  assert (E : verdict ($"mixed-chaos") 40 = Some false) by (vm_compute; reflexivity). unfold verdict in E.
  destruct (NewScenario ($"mixed-chaos") 1 (mkRand tape 0)) as [[s0|]|] eqn:E0; try discriminate E.
  destruct (steps 40 s0) as [[[] s]|] eqn:E1; try discriminate E. exists s0, s. split; [reflexivity|]. split; [exact E1|].
  assert (Hn : CheckLinearizability try_all s = None) by (apply eq_None_not_Some; injection E as E; by apply bool_decide_eq_false in E).
  split; [exact Hn|]. pose proof (simulated_verdict_sound try_all _ 1 (mkRand tape 0) s0 40 s try_all_verdict E0 E1) as H. rewrite Hn in H. exact H.
Defined.
